(* ===== verification/_CoqProject ===== *)
-Q . S2P
Prelude.v
Monad.v
Trace.v
Persist.v
SmallStep.v
Threads.v
Slab.v
Checksum.v
Sha256.v
Sha256Spec.v
MhSha256.v
MhSha256Spec.v
MhSha256Theorems.v
CellIc.v
CellDirEntry.v
CellDirBlock.v
CellDirOverflow.v
CellDir.v
CellBodyEntry.v
CellHeader.v
CellState.v
CellBody.v
CellLayout.v
CellBodySpec.v
CellRing.v
CacheMetrics.v
Cell.v
CellTyped.v
CellSpec.v
CellCrash.v
CellPersist.v
CellReopen.v
CellHistory.v
CellTruncate.v
CellTheorems.v
Cache.v
CacheSpec.v
CacheHistory.v
CacheCrash.v
CachePersist.v
CacheTyped.v
CacheThreads.v
CacheTheorems.v
CrashTheorems.v
ThreadTheorems.v
PersistTheorems.v
CacheKeeps.v
CacheLives.v
Msys.v
MappedFile.v
CacheManager.v
ManagerSpec.v
ManagerTheorems.v
RollingHash.v
RollingTable.v
Chunker.v
ChunkerTheorems.v
ChunkStore.v
CacheStore.v
ChunkStreamer.v
StreamerTheorems.v
StoreRoom.v
StreamFill.v
StreamRestore.v
StreamThreads.v
StreamPower.v
DirTheorems.v
