(* ===== verification/Prelude.v ===== *)
(** * Libtheo: a deduplicating cache for chunks in persistent memory

    This development models the C code under [src/src/theo/] and proves what it promises.

    ** The program

    A file is mapped into memory and cut into slots of 1 MB.  The first slot holds the header
    of the cache, each of the others a _cell_.  A cell keeps chunks of data under their
    SHA-256 checksums: its _body_ grows up from the start of the slot as a ring of entries
    that new chunks overwrite, its header at the end of the slot holds counters, an
    _integrity code_ and a _directory_ from checksums to offsets in the body, whose overflow
    area grows down towards the body.  The checksums are those of the SHA-256 _multi-hash_
    of isa-l_crypto.  A _streamer_ cuts a stream into chunks with a rolling
    hash (the _chunker_) and adds those the cache does not have; the _cache manager_ creates
    and maps the file and passes calls on.

    ** Files and the code they model

    - [Prelude]: machine integers and bit-fields.  [Monad]: results, errors, programs and
      the lenses that name parts of a state, with tactics ([mrun], [mnorm], [preserve]).
    - [Trace]: the states a program goes through, the judgement [stays] that all of them
      have a property and no fuel runs out, and [dies], the states a process can leave.
      [Persist]: accesses and barriers, and [fails], what a system can leave whose power
      fails.  [SmallStep]: one access at a time.  [Threads]: threads that call programs on the
      elements of an array, each element with a mutex.
    - [Slab]: the memory of a cell in front of its header, with bounds-checked accesses.
    - [Checksum]: checksum.c, chunk.c, chunk_ref.c, over an arbitrary hash.  [CellIc]:
      cell_ic.c.
    - [Sha256], [MhSha256]: the multi-hash of src/third-party/isa-l_crypto/mh_sha256 in its
      portable version, and its reference; mh_sha256_ref.c has copies of the functions of
      sha256_for_mh_sha256.c, which are modelled once.  [Sha256Spec], [MhSha256Spec]: SHA-256
      as the standard defines it and the multi-hash as mh_sha256.h does, on whole messages;
      [MhSha256Theorems].
    - [CellDirEntry], [CellDirBlock], [CellDirOverflow], [CellDir]: the files of the same
      names; [CellDir] shows that the directory is a finite map ([dir_rep]).
    - [CellBodyEntry], [CellHeader], [CellBody]: cell_body_entry.c, cell_header.c,
      cell_body.c.  [CellState] says when directory and counters describe a list of chunks,
      [CellLayout] when the bytes of the body are a list of entries.
    - [CellBodySpec], [CellRing]: the effect of the functions of cell_body.c; [CellRing] has
      the specification, the relation [ring_step] on lists of entries, and the invariant
      [body_inv].
    - [Cell], [CellSpec], [CellHistory], [CellTheorems]: cell.c, its invariant [cell_inv], its
      contents as a finite map, sequences of additions, and the theorems about a cell.
      [CellTruncate]: chunks that do not fit the size field of an entry.
      [CellTyped]: the types of all structures of a cell, kept at every access.  [CellCrash],
      [CellPersist], [CellReopen]: what a process leaves that dies in a call, and what is left
      of a cell when the power fails in an addition or when the cell is opened.
    - [DirTheorems]: the theorems about the directory and the layout of entries in memory.
    - [CacheMetrics], [Cache], [CacheSpec], [CacheHistory], [CacheTheorems]: cache_metrics.c,
      cache_header.c and cache.c, the invariant [cache_inv], what opening finds in the memory
      ([region_ok]), and the theorems about a cache.  [CacheCrash], [CachePersist],
      [CacheTyped], [CacheThreads]: a cache in a process that dies, when the power fails, at
      every access, and in several threads; [CrashTheorems], [ThreadTheorems],
      [PersistTheorems]: the theorems about these.  [CacheKeeps], [CacheLives]: what holds of
      all chunks of a cache through calls, failures and openings, one process after the other.
    - [Msys]: msys.c and xmalloc.c over the class [Posix] of system calls and allocator; the
      class [PosixLaws] states their documented behaviour.
    - [MappedFile]: the structures that the bytes of the mapped file hold ([region_of]).
      [CacheManager], [ManagerSpec], [ManagerTheorems]: cache_manager.c.
    - [RollingHash]: rolling_hash2.c of isa-l_crypto (its C version), over an arbitrary table;
      [RollingTable]: the table it is built with.
    - [Chunker], [ChunkerTheorems]: chunker.c.
    - [ChunkStore], [CacheStore], [ChunkStreamer], [StreamerTheorems]: the interface between
      the streamer and the cache, its instances for the cache and the manager, and
      chunk_streamer.c, whose theorems are proved against the interface.  [StoreRoom]: what a
      store promises besides until it is full; [StreamFill], [StreamRestore]: streams of any
      number of buffers, and getting them back.  [StreamThreads], [StreamPower]: threads that
      stream into one cache, and the power failing meanwhile.

    A C function is a program of the same name in the monad [M]: [run] gives its result and
    the new state of what it reaches through its pointers, [trace] the state after each of
    its accesses, [step] what is left of it after one.  An [ALWAYS] that
    does not hold is the error [AssertFail], an access outside of an object [OutOfBounds];
    both keep the state at that point, which is what a process leaves in the file when it
    dies there.  An out-parameter that is written only on success is part of the result.
    Pointers into a slot are offsets; integers have the width of the C types, bit-fields
    theirs ([u12], [u16], [u32], [u64], [s32], [s64], [bf_set]).

    C checks neither an access to a slab nor the end of a loop: there [OutOfBounds] stands for
    undefined behaviour and [OutOfFuel] for a loop that goes on, and a theorem says something
    of the C code only where it excludes both.  The specifications of all operations do so on
    consistent states, by giving the result.

    ** The theorems

    - What the program is for: a stream that was cut into chunks and kept in a cache can be
      got back by a later process from the digests of its chunks ([stream_restored]), with
      the real hash and the real table.
    - The multi-hash: init, any sequence of updates and finalize give SHA-256 of the digests
      of 16 segments, and the same as the reference.
    - [cell_add_chunk] refines [ring_step]: a consistent cell stays consistent, a duplicate
      changes nothing, and every other outcome is the one assertion described there.  From
      this follow, for sequences of additions, that a cell returns only what was added under
      the checksum, what it evicts, that it keeps everything while it fits, and that no
      access leaves the slot and no loop runs for ever.
    - Memory safety: a process that opens a cache and calls it within its contract accesses
      nothing outside of its objects, gets to its end or to the one assertion, and every field
      has its C type at every access ([cache_calls_safe]); the loop over the body of a cell
      ends where it should ([cell_body_scan_correct]).
    - Crashes: an addition leaves the mark of the cell set until it is done; opening the
      memory that a process left which died at any access gives each cell as it was, as the
      call it died in would have left it, or empty; for the cache, only the cell that was
      being changed is concerned; and opening survives a death in itself.
    - Power failures: what has been written since the last barrier arrives in any order and in
      any part, and yet an addition costs at most the cell it was changing, and nothing once
      it has returned; opening endures a failure of its own when every cell is consistent or
      its header tells for good that it is not.  Where each word arrives by itself a marked
      cell is neither: [cell_init_unordered] is what can go wrong with it.  Where
      every cell is clean when it is opened, as it is wherever the first line of a header
      arrives as a whole, [cache_outlives] follows: through any number of processes and
      failures, of openings too, a cache returns nothing but what it was given.
    - Threads: any interleaving of the accesses of threads that use a cache gives the results
      of a sequence of whole calls, each thread's in its order; calls on one cell exclude
      each other; every execution goes on until all calls are made or the one assertion stops
      the process; and the death of a process with several threads, or the power
      failing under them, costs at most the cells its threads were changing.  Threads that
      stream into one cache keep every chunk under its digest, also across a power failure.
    - The cache chooses the cell by the first eight bytes of the checksum, leaves the other
      cells alone, and operations on different cells commute ([cells_independent]).
    - The rolling hash stops at the first window whose hash, computed anew, has the trigger;
      the chunker cuts there, within its bounds; a chunk depends on its own bytes only; the
      chunks of a stream do not depend on how it is cut into buffers; and what comes back
      from the cache for a digest has that digest.
    - The manager gives a file of the size asked for, and an open consistent cache, or an
      error; memory, descriptors and mappings are given back on every path that returns.  Where
      [stat] fails on a file that exists, its start is overwritten instead.
    - Histories and inputs on which the code does not do what it means to: the theorems
      named [..._aborts], [..._drops], [..._truncates], [..._wraps], [..._behind],
      [..._clears_mark].

    ** Bounds and fuel

    The theorems about cells hold for chunks of [smin] to [smax] bytes and a body and
    overflow area of [lim] bytes, under [contract]: [1 <= smin], [smax <= 32732] (the 15-bit
    size field must hold a free entry too), [8 * smax + 432 <= lim] (the cell holds enough
    chunks that replacing one never empties it) and [lim - 36 < 4095 * (36 + smin)] (the
    12-bit overflow counter of a block does not wrap).  A cell of 1 MB satisfies it for
    chunks of 214 to 32732 bytes; the streamer makes chunks of 2049 to 24576.

    A cache keeps all it is given while the chunks of every cell fit in it: 72 bytes a chunk
    besides its own, for its entry and a slot of the overflow area ([cost], [cache_room]).  The
    multi-hash is that of its definition for messages of less than 2^32 bytes.

    Loops with fuel: [cell_body_scan] with [scan_fuel], the number of entries that fit in
    the slot; [write_loop] with [write_fuel], one byte per write; [stream_loop] with
    [stream_fuel], one chunk per minimal size.  The specifications prove that they are
    enough: [OutOfFuel] is never the result.

    ** Processes that die

    A process that dies between or in two accesses leaves a state that [cell_torn] and
    [cache_torn] allow: the 32-bit words of the header of a cell that are written alone (the
    magic number, the codes) hold the old or the new value; whatever else the access changes
    (an entry, an array, the bytes of a [memcpy]) may hold anything of its type, and what it
    does not change is as it was.  In the theorem about opening, an access that copies or
    clears a whole structure is done or not done.

    ** Power failures

    The processor may write back what a program stores in any order, and a part of it may
    not have arrived when the power fails.  A program has the event of each access and of
    each [__sync_synchronize()] ([events]); as README.md does, the model takes a barrier to
    persist what was written before it.  At a failure each word that is written alone holds
    what it held in any of the states since the last barrier, independently of the others;
    an entry, an array or the bytes of the body may hold anything of their type if they
    changed since ([cell_mixed], [cache_mixed]).  Theorems about opening are proved against
    the class [Persistency] of what the memory guarantees besides; its instances are [words],
    nothing, and [lines], that the magic number of a cell and its integrity code, which are in
    the first line of its header, arrive together.  The deaths above are failures of this kind
    ([dies_fails]).  Between two calls on a cell nothing is on its way
    ([cell_add_chunk_settled]), so that with several threads each cell fails by itself: what
    a thread has written in its cell is between the barriers of its own call.

    ** Threads

    A thread of [Threads] is outside of a call, inside with what is left of its program,
    about to unlock, or stopped by an error, which kills the process.  [turn] locks the mutex
    of the element if it is free, does one access, or unlocks.  [pthread_mutex_lock] and
    [pthread_mutex_unlock] return 0, as they do for a mutex of the default type that is used
    in this way.  They are turns of the machine and not accesses of a program: that each
    function of cell.c locks first and unlocks last is read off the source, and a missing lock
    or unlock cannot be expressed.  [cache_get_metrics] takes the mutexes one after the other: it is a sequence
    of calls ([metrics_client]), with those of other threads in between.  [cache_init] and
    [cache_release] are for one thread alone.

    ** The operating system

    What is assumed of the system calls is [PosixLaws], for which [ManagerTheorems] has an
    instance.  A call may fail at any time, [stat] on a file that exists too; a write of some
    bytes writes one at least or fails; a shared mapping shows the bytes of the file, which
    [region_of] reads as the structures of the cache.  A file of zeros is proved to be one that
    [cache_init] can open; that a file which has the size of the cache already is one, left by
    an earlier run, is a hypothesis ([file_left]).  What a cache writes into its memory is not
    written back to [file_data]: how it gets there is the subject of the power failures.

    ** What is not modelled

    The theorems that do not depend on the hash or on the table of the rolling hash have them
    as parameters; [mh_sha256] and [rolling_hash2_table1] are the real ones.  Their assembly
    versions are left out: that the block function of the multi-hash does what the portable
    one does ([block_ok]) is what they have to meet.  That no two chunks of a stream have one
    digest is a hypothesis where it matters.  [cache_init] and
    [cache_release] run on the memory of the cache alone, so that their [xmalloc] and [xfree]
    are the flag [cells_set]; those of cache_manager.c are calls of [Msys].  Processes that
    share a mapped file at the same time (the mutexes are in the memory of one process), the
    instructions by which a barrier of the processor reaches persistent memory, the rest of
    the vendored libraries and the tests are left out. *)

From stdpp Require Export base numbers list gmap fin_maps.
From coqutil Require Export Byte.
From coqutil Require Import Word.LittleEndianList Z.bitblast.
From Stdlib Require Export Lia ZifyBool.

#[global] Open Scope Z_scope.

(** * Lists *)

Section lists.
Context {A : Type}.
Implicit Types l : list A.

(** Putting [x] in the place of the [y] of a list and taking [y] instead. *)
Lemma Permutation_insert_swap l i x y :
  l !! i = Some y → x :: l ≡ₚ y :: <[i := x]> l.
Proof.
  intros Hi. rewrite insert_take_drop by (by eapply lookup_lt_Some).
  rewrite <-(take_drop_middle l i y) at 1 by done. solve_Permutation.
Qed.
End lists.

(** * Machine integers *)

(** The unsigned types and bit-fields of the code, as [Z] with the wrap-around
    of the C conversion to an unsigned type written out. *)
Definition u4 (x : Z) : Z := x `mod` 16.
Definition u12 (x : Z) : Z := x `mod` 4096.
Definition u16 (x : Z) : Z := x `mod` 65536.
Definition u32 (x : Z) : Z := x `mod` 4294967296.
Definition u64 (x : Z) : Z := x `mod` 18446744073709551616.
(** [int32_t]: the representative in [-2^31, 2^31). *)
Definition s32 (x : Z) : Z := (x + 2147483648) `mod` 4294967296 - 2147483648.
(** [int64_t]. *)
Definition s64 (x : Z) : Z :=
  (x + 9223372036854775808) `mod` 18446744073709551616 - 9223372036854775808.

Lemma u4_id x : 0 ≤ x < 16 → u4 x = x.
Proof. apply Z.mod_small. Qed.
Lemma u12_id x : 0 ≤ x < 4096 → u12 x = x.
Proof. apply Z.mod_small. Qed.
Lemma u16_id x : 0 ≤ x < 65536 → u16 x = x.
Proof. apply Z.mod_small. Qed.
Lemma u32_id x : 0 ≤ x < 4294967296 → u32 x = x.
Proof. apply Z.mod_small. Qed.
Lemma u64_id x : 0 ≤ x < 18446744073709551616 → u64 x = x.
Proof. apply Z.mod_small. Qed.
Lemma s32_id x : -2147483648 ≤ x < 2147483648 → s32 x = x.
Proof. intros. unfold s32. rewrite Z.mod_small; lia. Qed.
Lemma s64_id x : -9223372036854775808 ≤ x < 9223372036854775808 → s64 x = x.
Proof. intros. unfold s64. rewrite Z.mod_small; lia. Qed.

Lemma u32_bound x : 0 ≤ u32 x < 4294967296.
Proof. by apply Z.mod_pos_bound. Qed.

(** * Bit-fields *)

(** The [len] bits of [w] from bit [pos] on, and the write of a value to them
    (gcc allocates bit-fields from the least significant bit). *)
Definition bf_get (pos len w : Z) : Z := Z.land (Z.shiftr w pos) (Z.ones len).
Definition bf_set (pos len v w : Z) : Z :=
  Z.lor (Z.ldiff w (Z.shiftl (Z.ones len) pos))
        (Z.shiftl (Z.land v (Z.ones len)) pos).

Section bitfields.
Lemma testbit_bf_get pos len w i :
  0 ≤ pos → 0 ≤ len → 0 ≤ i →
  Z.testbit (bf_get pos len w) i = Z.testbit w (i + pos) && (i <? len).
Proof.
  intros. unfold bf_get. rewrite Z.land_spec, Z.shiftr_spec by lia.
  by rewrite Z.testbit_ones_nonneg by lia.
Qed.

Lemma testbit_bf_set pos len v w i :
  0 ≤ pos → 0 ≤ len → 0 ≤ i →
  Z.testbit (bf_set pos len v w) i =
    if (pos <=? i) && (i <? pos + len) then Z.testbit v (i - pos) else Z.testbit w i.
Proof.
  intros. unfold bf_set. rewrite Z.lor_spec, Z.ldiff_spec, !Z.shiftl_spec by lia.
  rewrite Z.land_spec.
  destruct (Z.leb_spec pos i); simpl.
  - rewrite !Z.testbit_ones_nonneg by lia.
    replace (i - pos <? len) with (i <? pos + len)
      by (destruct (Z.ltb_spec i (pos + len)), (Z.ltb_spec (i - pos) len); lia).
    destruct (i <? pos + len), (Z.testbit w i), (Z.testbit v (i - pos)); done.
  - rewrite !(Z.testbit_neg_r _ (i - pos)) by lia. simpl.
    by rewrite andb_true_r, orb_false_r.
Qed.

Lemma bf_get_bound pos len w : 0 ≤ len → 0 ≤ bf_get pos len w < 2 ^ len.
Proof.
  intros. unfold bf_get. rewrite Z.land_ones by done.
  apply Z.mod_pos_bound. lia.
Qed.

Lemma bf_get_set_same pos len v w :
  0 ≤ pos → 0 ≤ len → bf_get pos len (bf_set pos len v w) = v `mod` 2 ^ len.
Proof.
  intros. apply Z.bits_inj'. intros i ?.
  rewrite testbit_bf_get, testbit_bf_set, Z.testbit_mod_pow2 by lia.
  replace (i + pos - pos) with i by lia.
  destruct (Z.leb_spec pos (i + pos)); [simpl|lia].
  destruct (Z.ltb_spec (i + pos) (pos + len)), (Z.ltb_spec i len); try lia; simpl;
    by rewrite ?andb_true_r, ?andb_false_r.
Qed.

Lemma bf_get_set_diff pos len pos' len' v w :
  0 ≤ pos → 0 ≤ len → 0 ≤ pos' → 0 ≤ len' →
  pos + len ≤ pos' ∨ pos' + len' ≤ pos →
  bf_get pos' len' (bf_set pos len v w) = bf_get pos' len' w.
Proof.
  intros. apply Z.bits_inj'. intros i ?.
  rewrite !testbit_bf_get, testbit_bf_set by lia.
  destruct (Z.ltb_spec i len'); [|by rewrite !andb_false_r].
  destruct (Z.leb_spec pos (i + pos')), (Z.ltb_spec (i + pos') (pos + len)); simpl; lia || done.
Qed.

Lemma bf_set_bound n pos len v w :
  0 ≤ pos → 0 ≤ len → pos + len ≤ n → 0 ≤ w < 2 ^ n → 0 ≤ bf_set pos len v w < 2 ^ n.
Proof.
  intros ??? [Hw0 Hw].
  assert (bf_set pos len v w = bf_set pos len v w `mod` 2 ^ n) as ->;
    [|apply Z.mod_pos_bound; lia].
  apply Z.bits_inj'. intros i ?.
  rewrite Z.testbit_mod_pow2 by lia.
  destruct (Z.ltb_spec i n); [done|].
  rewrite testbit_bf_set by lia.
  destruct (Z.leb_spec pos i), (Z.ltb_spec i (pos + len)); simpl; try lia.
  rewrite <- (Z.mod_small w (2 ^ n)) by lia.
  rewrite Z.testbit_mod_pow2 by lia.
  by destruct (Z.ltb_spec i n); [lia|].
Qed.
End bitfields.

#[global] Arguments bf_get : simpl never.
#[global] Arguments bf_set : simpl never.
#[global] Arguments u4 : simpl never.
#[global] Arguments u12 : simpl never.
#[global] Arguments u16 : simpl never.
#[global] Arguments u32 : simpl never.
#[global] Arguments u64 : simpl never.
#[global] Arguments s32 : simpl never.

(** A choice for every element of a list. *)
Lemma list_choice {A B} (P : nat → A → B → Prop) (l : list A) :
  (∀ i x, l !! i = Some x → ∃ y, P i x y) →
  ∃ k, length k = length l ∧ ∀ i x y, l !! i = Some x → k !! i = Some y → P i x y.
Proof.
  revert P. induction l as [|x l IH]; intros P H; [by exists []|].
  destruct (H 0%nat x eq_refl) as [y Hy].
  destruct (IH (λ i, P (S i))) as (k & Hk & HP); [intros i; apply (H (S i))|].
  exists (y :: k). split; [simpl; by f_equal|]. intros [|i] x' y'; simpl; [naive_solver|apply HP].
Qed.
