(* ===== verification/Monad.v ===== *)
(** Results, errors and the monad of the C functions: programs whose leaves are the single
    accesses to the state, what a program does from a state ([run]), and the tactics that
    execute one in a proof. *)

From S2P Require Import Prelude.

(** * Errors and the state monad of the C functions *)

(** How a C function can stop without returning: an [ALWAYS(X)] of msys.h whose
    condition is false aborts the process; an access outside of the region the
    component owns; a division by zero; a loop that ran out of the fuel of its model.  The
    last three stand for what C does without a word, undefined behaviour or an endless loop. *)
Inductive error :=
  | AssertFail
  | OutOfBounds
  | DivisionByZero
  | OutOfFuel.

Inductive result (A : Type) :=
  | Ok (a : A)
  | Err (e : error).
Arguments Ok {A} a.
Arguments Err {A} e.

#[export] Instance error_eq_dec : EqDecision error.
Proof. solve_decision. Defined.

(** ** Parts of the state *)

(** What a pointer designates: [g] reads the part, where there is one, and [p] writes it. *)
Class PLens {S T} (g : S → option T) (p : T → S → S) : Prop := {
  plens_get_put s t t' : g s = Some t → g (p t' s) = Some t';
  plens_put_put s t t1 t2 : g s = Some t → p t2 (p t1 s) = p t2 s;
  plens_put_get s t : g s = Some t → p t s = s;
}.

(** A part that is always there. *)
Class Lens {S T} (g : S → T) (p : T → S → S) : Prop := {
  lens_get_put s t : g (p t s) = t;
  lens_put_put s t1 t2 : p t2 (p t1 s) = p t2 s;
  lens_put_get s : p (g s) s = s;
}.

Lemma lens_plens {S T} (g : S → T) p : Lens g p → PLens (λ s, Some (g s)) p.
Proof.
  intros H. split.
  - intros s t t' _. by rewrite lens_get_put.
  - intros. apply lens_put_put.
  - intros s t [= <-]. apply lens_put_get.
Qed.

#[export] Instance fst_lens {A B} : Lens (fst : A * B → A) (λ a s, (a, s.2)).
Proof. split; [done..|]. by intros []. Qed.
#[export] Instance snd_lens {A B} : Lens (snd : A * B → B) (λ b s, (s.1, b)).
Proof. split; [done..|]. by intros []. Qed.

(** ** Programs *)

(** A computation over the state [S] is a program: a tree whose leaves [Do f] are the
    accesses to the state, each indivisible.  [run] executes it from a state.  The state is
    kept when it stops with an error: what an aborted process leaves in persistent memory
    matters to this program, and so do the states in between (Trace.v). *)
Inductive M (S : Type) : Type → Type :=
  | Ret {A} (a : A) : M S A
  | Do {A} (f : S → result A * S) : M S A
  | Bind {A B} (m : M S A) (k : A → M S B) : M S B
  (** [__sync_synchronize()]: it orders accesses and does nothing else. *)
  | Barrier : M S unit
  (** A program on a part of the state. *)
  | Zoom {T A} (g : S → option T) (p : T → S → S) (l : PLens g p) (m : M T A) : M S A.
Arguments Ret {S A} a.
Arguments Do {S A} f.
Arguments Bind {S A B} m k.
Arguments Barrier {S}.
Arguments Zoom {S T A} g p l m.

Fixpoint run {S A} (m : M S A) : S → result A * S :=
  match m with
  | Ret a => λ s, (Ok a, s)
  | Do f => f
  | Bind m k => λ s,
      match run m s with
      | (Ok a, s') => run (k a) s'
      | (Err e, s') => (Err e, s')
      end
  | Barrier => λ s, (Ok tt, s)
  | Zoom g p _ m => λ s,
      match g s with
      | Some t => let '(r, t) := run m t in (r, p t s)
      | None => (Err OutOfBounds, s)
      end
  end.
Coercion run : M >-> Funclass.

#[export] Instance M_ret S : MRet (M S) := λ A a, Ret a.
#[export] Instance M_bind S : MBind (M S) := λ A B k m, Bind m k.
#[export] Instance M_fmap S : FMap (M S) := λ A B f m, Bind m (λ a, Ret (f a)).

Definition throw {S A} (e : error) : M S A := Do (λ s, (Err e, s)).

(** [ALWAYS(X)] of msys.h in the release and debug builds: [assert(X)].  (The
    coverage build compiles it away.) *)
Definition ALWAYS {S} (b : bool) : M S unit :=
  if b then mret tt else throw AssertFail.

Definition sync_synchronize {S} : M S unit := Barrier.

Definition get {S} : M S S := Do (λ s, (Ok s, s)).
Definition gets {S A} (f : S → A) : M S A := Do (λ s, (Ok (f s), s)).
Definition modify {S} (f : S → S) : M S unit := Do (λ s, (Ok tt, f s)).

(** Run a computation on a part of the state: the part a pointer designates, or element
    [i] of an array. *)
Definition zoom {S T A} (g : S → T) (p : T → S → S) `{!Lens g p} (m : M T A) : M S A :=
  Zoom (λ s, Some (g s)) p (lens_plens g p _) m.
Definition zoom_opt {S T A} (g : S → option T) (p : T → S → S) `{!PLens g p} (m : M T A) : M S A :=
  Zoom g p _ m.

Section monad_laws.
Context {S : Type}.

Lemma bind_run {A B} (m : M S A) (k : A → M S B) s :
  (m ≫= k) s = match m s with (Ok a, s') => k a s' | (Err e, s') => (Err e, s') end.
Proof. reflexivity. Qed.

Lemma bind_ok {A B} (m : M S A) (k : A → M S B) s a s' :
  m s = (Ok a, s') → (m ≫= k) s = k a s'.
Proof. intros H. simpl. by rewrite H. Qed.

Lemma bind_err {A B} (m : M S A) (k : A → M S B) s e s' :
  m s = (Err e, s') → (m ≫= k) s = (Err e, s').
Proof. intros H. simpl. by rewrite H. Qed.

Lemma bind_inv {A B} (m : M S A) (k : A → M S B) s b s' :
  (m ≫= k) s = (Ok b, s') → ∃ a s1, m s = (Ok a, s1) ∧ k a s1 = (Ok b, s').
Proof. simpl. destruct (m s) as [[a|e] s1]; [|done]. intros H. by exists a, s1. Qed.

Lemma bind_ret {A B} (a : A) (k : A → M S B) s : (mret a ≫= k) s = k a s.
Proof. reflexivity. Qed.

Lemma bind_assoc {A B C} (m : M S A) (k : A → M S B) (l : B → M S C) s :
  ((m ≫= k) ≫= l) s = (m ≫= (λ a, k a ≫= l)) s.
Proof. simpl. by destruct (m s) as [[?|?] ?]. Qed.

Lemma bind_get {B} (k : S → M S B) s : (get ≫= k) s = k s s.
Proof. reflexivity. Qed.

Lemma bind_gets {A B} (f : S → A) (k : A → M S B) s : (gets f ≫= k) s = k (f s) s.
Proof. reflexivity. Qed.

Lemma bind_modify {B} (f : S → S) (k : unit → M S B) s :
  (modify f ≫= k) s = k tt (f s).
Proof. reflexivity. Qed.

Lemma bind_sync {B} (k : unit → M S B) s : (sync_synchronize ≫= k) s = k tt s.
Proof. reflexivity. Qed.

Lemma run_ret {A} (a : A) s : (mret a : M S A) s = (Ok a, s).
Proof. reflexivity. Qed.

Lemma run_gets {A} (f : S → A) s : gets f s = (Ok (f s), s).
Proof. reflexivity. Qed.

Lemma run_modify (f : S → S) s : modify f s = (Ok tt, f s).
Proof. reflexivity. Qed.

Lemma bind_ALWAYS {B} (b : bool) (k : unit → M S B) s :
  b = true → (ALWAYS b ≫= k) s = k tt s.
Proof. by intros ->. Qed.

Lemma bind_ALWAYS_last (b : bool) s : b = true → ALWAYS b s = (Ok tt, s : S).
Proof. by intros ->. Qed.

Section zoom.
Context {T A : Type} (g : S → T) (p : T → S → S) `{!Lens g p}.
Implicit Types m : M T A.

Lemma zoom_run m s r t : m (g s) = (r, t) → zoom g p m s = (r, p t s).
Proof. intros H. simpl. by rewrite H. Qed.

Lemma zoom_ok m s a t : m (g s) = (Ok a, t) → zoom g p m s = (Ok a, p t s).
Proof. apply zoom_run. Qed.

Lemma zoom_err m s e t : m (g s) = (Err e, t) → zoom g p m s = (Err e, p t s).
Proof. apply zoom_run. Qed.

Lemma zoom_inv m s r s' : zoom g p m s = (r, s') → ∃ t, m (g s) = (r, t) ∧ s' = p t s.
Proof. destruct (m (g s)) as [r' t] eqn:Hm. rewrite (zoom_run _ _ _ _ Hm). intros [= -> <-]. by exists t. Qed.

Lemma zoom_read m s r : m (g s) = (r, g s) → zoom g p m s = (r, s).
Proof. intros H. by rewrite (zoom_run _ _ _ _ H), lens_put_get. Qed.

Lemma zoom_ext m m' s : m (g s) = m' (g s) → zoom g p m s = zoom g p m' s.
Proof. intros H. simpl. by rewrite H. Qed.

(** Consecutive accesses through a pointer are one access. *)
Lemma zoom_seq {B} (n : M T unit) m (k : A → M S B) s :
  (zoom g p n ≫= λ _, zoom g p m ≫= k) s = (zoom g p (n ≫= λ _, m) ≫= k) s.
Proof.
  simpl. destruct (run n (g s)) as [[?|?] t]; simpl; [|done]. rewrite lens_get_put.
  destruct (run m t) as [[?|?] t']; by rewrite lens_put_put.
Qed.
End zoom.

Lemma zoom_opt_run {T A} (g : S → option T) p `{!PLens g p} (m : M T A) s t r t' :
  g s = Some t → m t = (r, t') → zoom_opt g p m s = (r, p t' s).
Proof. intros Hg Hm. simpl. by rewrite Hg, Hm. Qed.

Lemma zoom_opt_none {T A} (g : S → option T) p `{!PLens g p} (m : M T A) s :
  g s = None → zoom_opt g p m s = (Err OutOfBounds, s).
Proof. intros Hg. simpl. by rewrite Hg. Qed.
End monad_laws.

(** The first [n] bytes a pointer points to; [buffer] are the bytes that may be read from
    the pointer on. *)
Definition read_buffer {S} (buffer : list byte) (n : Z) : M S (list byte) :=
  if Z.of_nat (length buffer) <? n then throw OutOfBounds else mret (take (Z.to_nat n) buffer).

Lemma read_buffer_ok {S} buffer n (s : S) :
  n ≤ Z.of_nat (length buffer) → read_buffer buffer n s = (Ok (take (Z.to_nat n) buffer), s).
Proof. intros Hn. unfold read_buffer. by replace (Z.of_nat (length buffer) <? n) with false by lia. Qed.

(** [preserves f m]: [m] leaves [f] of the state as it is, also when it fails. *)
Definition preserves {S A B} (f : S → B) (m : M S A) : Prop := ∀ s, f (m s).2 = f s.

Section preserves.
Context {S B : Type} (f : S → B).

Lemma preserves_ret {A} (a : A) : preserves f (mret a : M S A).
Proof. done. Qed.
Lemma preserves_throw {A} e : preserves f (throw e : M S A).
Proof. done. Qed.
Lemma preserves_ALWAYS b : preserves f (ALWAYS b : M S unit).
Proof. by destruct b. Qed.
Lemma preserves_sync : preserves f (sync_synchronize : M S unit).
Proof. done. Qed.
Lemma preserves_get : preserves f (get : M S S).
Proof. done. Qed.
Lemma preserves_gets {A} (g : S → A) : preserves f (gets g).
Proof. done. Qed.
Lemma preserves_modify (g : S → S) : (∀ s, f (g s) = f s) → preserves f (modify g).
Proof. done. Qed.
Lemma preserves_bind {A C} (m : M S A) (k : A → M S C) :
  preserves f m → (∀ a, preserves f (k a)) → preserves f (m ≫= k).
Proof.
  intros Hm Hk s. simpl. specialize (Hm s).
  destruct (m s) as [[a|e] s']; simpl in *; [by rewrite Hk|done].
Qed.
Lemma preserves_zoom {T A C} (h : T → C) (g : S → T) p `{!Lens g p} (m : M T A) :
  preserves h m → (∀ s t, h t = h (g s) → f (p t s) = f s) → preserves f (zoom g p m).
Proof. intros Hm Hp s. simpl. specialize (Hm (g s)). destruct (m (g s)). by apply Hp. Qed.
End preserves.

#[global] Arguments run : simpl never.
#[global] Arguments mbind : simpl never.
#[global] Arguments throw : simpl never.
#[global] Arguments get : simpl never.
#[global] Arguments gets : simpl never.
#[global] Arguments modify : simpl never.
#[global] Arguments sync_synchronize : simpl never.
#[global] Arguments zoom : simpl never.

#[global] Arguments zoom_opt : simpl never.

Create HintDb preserves.
#[export] Hint Resolve preserves_ret preserves_throw preserves_ALWAYS preserves_sync preserves_get
  preserves_gets : preserves.

(** One goal per primitive that writes; the ones in the database are closed. *)
Ltac preserve :=
  cbv zeta; cbn beta;
  lazymatch goal with
  | |- preserves _ (mbind _ _) => apply preserves_bind; [|intros ?]; preserve
  | |- preserves _ (match ?x with _ => _ end) => destruct x; preserve
  | _ => auto with preserves
  end.

(** [mrun by t] runs the head of a monadic program with [t], which proves how the
    head ends; [mnorm] peels the administrative steps. *)
Ltac mrun_with t :=
  match goal with
  | |- context [ run (@mbind (M ?S) ?inst ?A ?B ?k ?m) ?s ] =>
      let H := fresh "Hrun" in
      eassert (m s = (Ok _, _)) as H by t;
      rewrite (bind_ok m k s _ _ H); clear H
  end.
Tactic Notation "mrun" "by" tactic3(t) := mrun_with t.
Ltac mnorm :=
  repeat first
    [ rewrite bind_ret | rewrite bind_assoc | rewrite bind_gets
    | rewrite bind_modify | rewrite bind_sync ]; cbn beta iota.
