(* ===== verification/Trace.v ===== *)
(** What a program does on its way: the states it passes through, one access at a time;
    the judgement [stays], which speaks of all of them; and the small-step semantics that
    lets programs of several threads interleave, with its agreement with [run]. *)

From S2P Require Import Prelude Monad.

(** * The states in between *)

(** The states after each access of a program. *)
Fixpoint trace {S A} (m : M S A) : S → list S :=
  match m with
  | Ret _ => λ _, []
  | Do f => λ s, [(f s).2]
  | Bind m k => λ s,
      trace m s ++ match run m s with (Ok a, s') => trace (k a) s' | (Err _, _) => [] end
  | Barrier => λ _, []
  | Zoom g p _ m => λ s,
      match g s with
      | Some t => (λ t', p t' s) <$> trace m t
      | None => []
      end
  end.
#[global] Arguments trace : simpl never.

Section trace.
Context {S : Type}.

Lemma trace_bind {A B} (m : M S A) (k : A → M S B) s :
  trace (m ≫= k) s =
    trace m s ++ match m s with (Ok a, s') => trace (k a) s' | (Err _, _) => [] end.
Proof. done. Qed.

Lemma trace_bind_ok {A B} (m : M S A) (k : A → M S B) s a s' :
  m s = (Ok a, s') → trace (m ≫= k) s = trace m s ++ trace (k a) s'.
Proof. intros H. by rewrite trace_bind, H. Qed.

Lemma trace_ret {A B} (a : A) (k : A → M S B) s : trace (mret a ≫= k) s = trace (k a) s.
Proof. done. Qed.

Lemma trace_modify {B} (f : S → S) (k : unit → M S B) s :
  trace (modify f ≫= k) s = f s :: trace (k tt) (f s).
Proof. done. Qed.

Lemma trace_sync {B} (k : unit → M S B) s : trace (sync_synchronize ≫= k) s = trace (k tt) s.
Proof. done. Qed.

Lemma trace_get {B} (k : S → M S B) s : trace (get ≫= k) s = s :: trace (k s) s.
Proof. done. Qed.

Lemma trace_gets {A B} (f : S → A) (k : A → M S B) s :
  trace (gets f ≫= k) s = s :: trace (k (f s)) s.
Proof. done. Qed.

Lemma trace_zoom {T A} (g : S → T) p `{!Lens g p} (m : M T A) s :
  trace (zoom g p m) s = (λ t, p t s) <$> trace m (g s).
Proof. done. Qed.

Lemma trace_zoom_opt {T A} (g : S → option T) p `{!PLens g p} (m : M T A) s t :
  g s = Some t → trace (zoom_opt g p m) s = (λ t', p t' s) <$> trace m t.
Proof. intros H. unfold trace, zoom_opt. by rewrite H. Qed.
End trace.

(** * Properties of every state in between *)

(** From a state with [P], the program stays in states with [P] at every access, its result
    has [Q], and it does not run out of fuel: whatever it does, it stops. *)
Definition stays {S A} (P : S → Prop) (m : M S A) (Q : A → Prop) : Prop := ∀ s, P s →
  Forall P (trace m s) ∧ P (m s).2 ∧
  match (m s).1 with Ok a => Q a | Err e => e ≠ OutOfFuel end.

Abbreviation any := (λ _, True).

Section stays.
Context {S : Type} (P : S → Prop).

Lemma stays_ret {A} (a : A) (Q : A → Prop) : Q a → stays P (mret a) Q.
Proof. intros HQ s HP. by split_and!. Qed.

Lemma stays_do {A} (f : S → result A * S) (Q : A → Prop) :
  (∀ s, P s → P (f s).2 ∧ match (f s).1 with Ok a => Q a | Err e => e ≠ OutOfFuel end) →
  stays P (Do f) Q.
Proof. intros H s HP. destruct (H s HP). split_and!; [|done..]. by repeat constructor. Qed.

Lemma stays_throw {A} e (Q : A → Prop) : e ≠ OutOfFuel → stays P (throw e) Q.
Proof. intros He. apply stays_do. intros; simpl; auto. Qed.

Lemma stays_ALWAYS b (Q : unit → Prop) : (b = true → Q tt) → stays P (ALWAYS b) Q.
Proof. intros HQ. destruct b; [by apply stays_ret, HQ|by apply stays_throw]. Qed.

Lemma stays_sync (Q : unit → Prop) : Q tt → stays P sync_synchronize Q.
Proof. intros HQ s HP. by split_and!. Qed.

Lemma stays_get (Q : S → Prop) : (∀ s, P s → Q s) → stays P get Q.
Proof. intros H. apply stays_do. intros; simpl; auto. Qed.

Lemma stays_gets {A} (f : S → A) (Q : A → Prop) : (∀ s, P s → Q (f s)) → stays P (gets f) Q.
Proof. intros H. apply stays_do. intros; simpl; auto. Qed.

Lemma stays_modify (f : S → S) (Q : unit → Prop) :
  (∀ s, P s → P (f s)) → Q tt → stays P (modify f) Q.
Proof. intros H HQ. apply stays_do. intros; simpl; auto. Qed.

Lemma stays_bind {A B} (m : M S A) (k : A → M S B) R Q :
  stays P m R → (∀ a, R a → stays P (k a) Q) → stays P (m ≫= k) Q.
Proof.
  intros Hm Hk s HP. destruct (Hm s HP) as (Ht & Hp & Hr). rewrite trace_bind, bind_run.
  destruct (m s) as [[a|e] s']; simpl in *; [|by rewrite app_nil_r].
  destruct (Hk a Hr s' Hp) as (Ht' & Hp' & Hr'). split_and!; [|done..]. by apply Forall_app.
Qed.

Lemma stays_weaken {A} (m : M S A) (Q R : A → Prop) :
  stays P m R → (∀ a, R a → Q a) → stays P m Q.
Proof.
  intros Hm HQ s HP. destruct (Hm s HP) as (? & ? & Hr). split_and!; [done..|].
  destruct (m s) as [[a|e] s']; simpl in *; auto.
Qed.

Lemma stays_zoom_opt {T A} (R : T → Prop) (g : S → option T) p `{!PLens g p} (m : M T A) Q :
  stays R m Q → (∀ s t, P s → g s = Some t → R t) →
  (∀ s t t', P s → g s = Some t → R t' → P (p t' s)) →
  stays P (zoom_opt g p m) Q.
Proof.
  intros Hm Hg Hp s HP. destruct (g s) as [t|] eqn:Ht.
  - destruct (Hm t (Hg _ _ HP Ht)) as (Htr & Hr & HQ).
    rewrite (trace_zoom_opt g p m s t Ht). destruct (m t) as [r t'] eqn:Hrun.
    rewrite (zoom_opt_run g p m s t r t' Ht Hrun). split_and!; [|by eapply Hp|done].
    apply Forall_fmap. eapply Forall_impl; [exact Htr|]. intros x Hx. by eapply Hp.
  - rewrite (zoom_opt_none g p m s Ht). unfold trace, zoom_opt. rewrite Ht. by split_and!.
Qed.

Lemma stays_zoom {T A} (R : T → Prop) (g : S → T) p `{!Lens g p} (m : M T A) Q :
  stays R m Q → (∀ s, P s → R (g s)) → (∀ s t, P s → R t → P (p t s)) →
  stays P (zoom g p m) Q.
Proof.
  intros Hm Hg Hp s HP. destruct (Hm (g s) (Hg _ HP)) as (Htr & Hr & HQ).
  rewrite trace_zoom. destruct (m (g s)) as [r t'] eqn:Hrun.
  rewrite (zoom_run g p m s r t' Hrun). split_and!; [|by apply Hp|done].
  apply Forall_fmap. eapply Forall_impl; [exact Htr|]. intros x Hx. by apply Hp.
Qed.

Lemma stays_final {A} (m : M S A) Q s : stays P m Q → P s → P (m s).2.
Proof. intros H HP. by destruct (H s HP) as (_ & ? & _). Qed.

Lemma stays_trace {A} (m : M S A) Q s : stays P m Q → P s → Forall P (trace m s).
Proof. intros H HP. by destruct (H s HP) as (? & _). Qed.
End stays.

(** [stay] descends through a program; the database has a lemma for each function that is
    called.  What it leaves over are the obligations of the accesses. *)
Create HintDb stays.
Ltac stay_result H :=
  lazymatch type of H with
  | _ ∧ _ => let H' := fresh in destruct H as [H' H]; stay_result H'; stay_result H
  | True => clear H
  | _ => idtac
  end.
Ltac stay_call := solve [eauto 3 with stays].
Ltac stay :=
  cbv zeta; cbn beta;
  lazymatch goal with
  | |- stays _ (mbind _ _) _ => eapply stays_bind; [stay_head|cbv beta; let H := fresh in intros ? H; stay_result H; stay]
  | |- stays _ (mret _) _ => apply stays_ret; cbv beta; auto
  | |- stays _ sync_synchronize _ => by apply stays_sync
  | |- stays _ (throw _) _ => apply stays_throw; try discriminate
  | |- stays _ (ALWAYS _) _ => apply stays_ALWAYS; auto
  | |- stays _ (match ?x with _ => _ end) _ => destruct x eqn:?; stay
  | |- stays _ (modify _) _ => first [stay_call | apply stays_modify; [|done]]
  | |- stays _ (gets _) _ => first [stay_call | by apply stays_gets]
  | |- stays _ _ _ => first [stay_call | eapply stays_weaken; [stay_call|auto] | idtac]
  end
with stay_head :=
  lazymatch goal with
  | |- stays _ (ALWAYS ?b) _ => apply (stays_ALWAYS _ b (λ _, b = true)); auto
  | |- stays _ sync_synchronize _ => by apply (stays_sync _ any)
  | |- stays _ get _ => apply stays_get; intros ? HP; exact HP
  | |- stays _ (match ?x with _ => _ end) _ =>
      apply (stays_weaken _ _ any any); [destruct x eqn:?; stay|done]
  | |- stays _ (modify _) _ => first [stay_call | apply (stays_modify _ _ any); [|done]]
  | |- stays _ (gets _) _ => first [stay_call | by apply (stays_gets _ _ any)]
  | |- _ => first [stay_call | idtac]
  end.

(** * Reading *)

(** A program that only reads: the state is the same after every access. *)
Definition reads {S A} (m : M S A) : Prop := ∀ s0, stays (eq s0) m any.

Section reads.
Context {S : Type}.

Lemma reads_run {A} (m : M S A) s : reads m → (m s).2 = s ∧ Forall (eq s) (trace m s).
Proof. intros H. by destruct (H s s eq_refl) as (? & <- & _). Qed.

Lemma reads_stays {A} (P : S → Prop) (m : M S A) : reads m → stays P m any.
Proof.
  intros H s HP. destruct (H s s eq_refl) as (Ht & <- & Hr). split_and!; [|done..].
  eapply Forall_impl; [exact Ht|]. by intros ? <-.
Qed.

Lemma reads_ret {A} (a : A) : reads (mret a : M S A).
Proof. intros s0. by apply stays_ret. Qed.
Lemma reads_throw {A} e : e ≠ OutOfFuel → reads (throw e : M S A).
Proof. intros He s0. by apply stays_throw. Qed.
Lemma reads_sync : reads (sync_synchronize : M S unit).
Proof. intros s0. by apply stays_sync. Qed.
Lemma reads_gets {A} (f : S → A) : reads (gets f).
Proof. intros s0. by apply stays_gets. Qed.
Lemma reads_do {A} (f : S → result A * S) :
  (∀ s, (f s).2 = s ∧ (f s).1 ≠ Err OutOfFuel) → reads (Do f).
Proof.
  intros H s0. apply stays_do. intros s <-. destruct (H s0) as [-> Hf]. split; [done|].
  destruct (f s0).1; [done|congruence].
Qed.
Lemma reads_bind {A B} (m : M S A) (k : A → M S B) :
  reads m → (∀ a, reads (k a)) → reads (m ≫= k).
Proof. intros Hm Hk s0. eapply stays_bind; [apply Hm|]. intros a _. apply Hk. Qed.
Lemma reads_zoom {T A} (g : S → T) p `{!Lens g p} (m : M T A) : reads m → reads (zoom g p m).
Proof.
  intros Hm s0. apply (stays_zoom _ (eq (g s0))); [apply Hm|by intros ? <-|].
  intros s t <- <-. by rewrite lens_put_get.
Qed.
Lemma reads_zoom_opt {T A} (g : S → option T) p `{!PLens g p} (m : M T A) :
  reads m → reads (zoom_opt g p m).
Proof.
  intros Hm s0. apply (stays_zoom_opt _ (λ t, g s0 = Some t)).
  - intros t Ht. destruct (Hm t t eq_refl) as (Htr & Hs & Hr). split_and!; [|by rewrite <-Hs|done].
    eapply Forall_impl; [exact Htr|]. by intros ? <-.
  - by intros s t <-.
  - intros s t t' <- _ Ht. by rewrite (plens_put_get _ _ Ht).
Qed.
End reads.

Create HintDb reads.
#[export] Hint Resolve reads_ret reads_sync reads_gets reads_zoom reads_zoom_opt : reads.
Ltac read :=
  cbv zeta; cbn beta;
  lazymatch goal with
  | |- reads (mbind _ _) => apply reads_bind; [|intros ?]; read
  | |- reads (match ?x with _ => _ end) => destruct x eqn:?; read
  | _ => auto with reads
  end.

(** * Dying on the way *)

(** The states a process can leave that runs through the states [l] from [s] and dies: what
    was there when it died, or a state [R s s'] allows of an access that was under way. *)
Fixpoint dies {S} (R : S → S → S → Prop) (s : S) (l : list S) (t : S) : Prop :=
  match l with
  | [] => t = s
  | s' :: l => R s s' t ∨ dies R s' l t
  end.

Section dies.
Context {S : Type} (R : S → S → S → Prop).

Lemma dies_app l1 : ∀ s l2 t,
  dies R s (l1 ++ l2) t → dies R s l1 t ∨ dies R (default s (last l1)) l2 t.
Proof.
  induction l1 as [|s' l1 IH]; intros s l2 t; [by right|]. simpl. intros [?|H]; [by left; left|].
  destruct (IH _ _ _ H) as [?|H']; [by left; right|right].
  destruct l1; [done|]. rewrite last_cons. by destruct (last (_ :: l1)).
Qed.

(** A property that dying in an access keeps. *)
Lemma dies_closed (P : S → Prop) l : ∀ s t,
  (∀ a b t, P a → P b → R a b t → P t) → P s → Forall P l → dies R s l t → P t.
Proof.
  induction l as [|s' l IH]; intros s t Hc Hs Hl; [by intros ->|].
  apply Forall_cons in Hl as [Hs' Hl]. intros [Hr|Hd]; [exact (Hc s s' t Hs Hs' Hr)|by apply (IH s')].
Qed.
End dies.

(** The last state of the trace is the final one. *)
Lemma trace_last {S A} (m : M S A) s : default s (last (trace m s)) = (m s).2.
Proof.
  induction m as [S A a|S A f|S A B m IHm k IHk|S|S T A g p l m IHm]; unfold run, trace;
    fold @run; fold @trace; [done|done| |done|].
  - destruct (run m s) as [[a|e] s'] eqn:Hm; specialize (IHm s); rewrite Hm in IHm; simpl in IHm.
    + rewrite last_app. rewrite <-IHk. destruct (last (trace (k a) s')); simpl; [done|].
      exact IHm.
    + by rewrite app_nil_r.
  - destruct (g s) as [t|] eqn:Hg; [|done]. specialize (IHm t). destruct (run m t) as [r t'].
    rewrite fmap_last. simpl in IHm. destruct (last (trace m t)); simpl in *; subst; [done|].
    symmetry. by apply plens_put_get.
Qed.


Lemma dies_bind {S A B} (R : S → S → S → Prop) (m : M S A) (k : A → M S B) s t :
  dies R s (trace (m ≫= k) s) t →
  dies R s (trace m s) t ∨ ∃ a s', m s = (Ok a, s') ∧ dies R s' (trace (k a) s') t.
Proof.
  rewrite trace_bind. pose proof (trace_last m s) as Hl.
  destruct (m s) as [[a|e] s']; simpl in Hl; [|rewrite app_nil_r; by left].
  intros [?|Hd]%dies_app; [by left|right]. rewrite Hl in Hd. by exists a, s'.
Qed.

(** Dying while one reads leaves the state as it is. *)
Lemma dies_only_reads {S A} (R : S → S → S → Prop) (m : M S A) s t :
  (∀ s t, R s s t → t = s) → reads m → dies R s (trace m s) t → t = s.
Proof.
  intros Hr Hm Hd. destruct (reads_run m s Hm) as [_ Htr].
  symmetry. apply (dies_closed R (eq s) (trace m s) s t); [|done..].
  intros a b t' <- <- Ht. symmetry. by apply Hr.
Qed.

(** A death in the rest of a program is one of the program. *)
Lemma dies_after {S A B} (R : S → S → S → Prop) (m : M S A) (k : A → M S B) s a s' t :
  m s = (Ok a, s') → dies R s' (trace (k a) s') t → dies R s (trace (m ≫= k) s) t.
Proof.
  intros Hm Hd. rewrite (trace_bind_ok _ _ _ _ _ Hm). pose proof (trace_last m s) as Hl.
  rewrite Hm in Hl. simpl in Hl. revert Hl. generalize (trace m s) as l. clear Hm.
  intros l. revert s. induction l as [|x l IH]; intros s Hl; simpl in *; [by subst|].
  right. apply IH. rewrite last_cons in Hl. by destruct (last l).
Qed.
