(* ===== verification/Persist.v ===== *)
(** What persistent memory holds when the system fails: the processor writes back what a
    program stores in any order, but for barriers.  Since the last barrier a program has
    gone through some states; each part of memory may be as it was in any of them, and the
    parts are independent of each other. *)

From S2P Require Import Prelude Monad Trace.

(** * Accesses and barriers *)

(** Events of a part of the state. *)
Definition lift {S T} (f : T → S) (l : list (option T)) : list (option S) := map (option_map f) l.

(** The states after each access of a program, and its barriers. *)
Fixpoint events {S A} (m : M S A) : S → list (option S) :=
  match m with
  | Ret _ => λ _, []
  | Do f => λ s, [Some (f s).2]
  | Bind m k => λ s,
      events m s ++ match run m s with (Ok a, s') => events (k a) s' | (Err _, _) => [] end
  | Barrier => λ _, [None]
  | Zoom g p _ m => λ s,
      match g s with
      | Some t => lift (λ t', p t' s) (events m t)
      | None => []
      end
  end.
#[global] Arguments events : simpl never.

Section events.
Context {S : Type}.

Lemma events_bind {A B} (m : M S A) (k : A → M S B) s :
  events (m ≫= k) s =
    events m s ++ match m s with (Ok a, s') => events (k a) s' | (Err _, _) => [] end.
Proof. done. Qed.

(** Returning is no event. *)
Lemma events_bind_ret {A B} (m : M S A) (f : A → B) s : events (m ≫= λ a, mret (f a)) s = events m s.
Proof. rewrite events_bind. destruct (m s) as [[a|e] s']; apply app_nil_r. Qed.

Lemma events_modify {B} (f : S → S) (k : unit → M S B) s :
  events (modify f ≫= k) s = Some (f s) :: events (k tt) (f s).
Proof. done. Qed.

Lemma events_ret {A B} (a : A) (k : A → M S B) s : events (mret a ≫= k) s = events (k a) s.
Proof. done. Qed.

Lemma events_gets {A B} (f : S → A) (k : A → M S B) s :
  events (gets f ≫= k) s = Some s :: events (k (f s)) s.
Proof. done. Qed.

Lemma events_sync {B} (k : unit → M S B) s :
  events (sync_synchronize ≫= k) s = None :: events (k tt) s.
Proof. done. Qed.

Lemma events_get {B} (k : S → M S B) s : events (get ≫= k) s = Some s :: events (k s) s.
Proof. done. Qed.

Lemma events_zoom {T A} (g : S → T) p `{!Lens g p} (m : M T A) s :
  events (zoom g p m) s = lift (λ t, p t s) (events m (g s)).
Proof. done. Qed.

Lemma events_zoom_opt {T A} (g : S → option T) p `{!PLens g p} (m : M T A) s t :
  g s = Some t → events (zoom_opt g p m) s = lift (λ t', p t' s) (events m t).
Proof. intros H. unfold events, zoom_opt. by rewrite H. Qed.
End events.

Lemma omap_id_lift {A B} (f : A → B) (l : list (option A)) :
  omap id (lift f l) = f <$> omap id l.
Proof. induction l as [|[x|] l IH]; simpl; [done|by f_equal|done]. Qed.

Lemma lift_id {S} (f : S → S) (l : list (option S)) :
  Forall (λ s, f s = s) (omap id l) → lift f l = l.
Proof.
  unfold lift. induction l as [|[x|] l IH]; simpl; [done|intros [-> H]%Forall_cons; by rewrite IH|].
  intros H. by rewrite IH.
Qed.

(** The accesses alone are the trace. *)
Lemma events_trace {S A} (m : M S A) : ∀ s, omap id (events m s) = trace m s.
Proof.
  induction m as [S A a|S A f|S A B m IHm k IHk|S|S T A g p l m IHm]; intros s;
    unfold events, trace; fold @events; fold @trace; [done|done| |done|].
  - rewrite omap_app, IHm. destruct (run m s) as [[a|e] s']; [by rewrite IHk|done].
  - destruct (g s) as [t|]; [|done]. by rewrite omap_id_lift, IHm.
Qed.

(** * A failure on the way *)
Section fails.
Context {S : Type} (R : list S → S → Prop).
Implicit Types (l : list (option S)) (old : list S) (s t : S).

(** [R l t]: the states since the last barrier being [l], the memory may be left as [t].
    [fails old s l t]: the system that was in [old] and is in [s] since the last barrier
    fails before, among or after the events [l]. *)
Fixpoint fails old s l t : Prop :=
  R (old ++ [s]) t ∨
  match l with
  | [] => False
  | Some s' :: l => fails (old ++ [s]) s' l t
  | None :: l => fails [] s l t
  end.

(** The states since the last barrier, and the state, after the events [l]. *)
Fixpoint pending old s l : list S * S :=
  match l with
  | [] => (old, s)
  | Some s' :: l => pending (old ++ [s]) s' l
  | None :: l => pending [] s l
  end.

Lemma fails_app l1 : ∀ old s l2 t,
  fails old s (l1 ++ l2) t ↔
  fails old s l1 t ∨ let p := pending old s l1 in fails p.1 p.2 l2 t.
Proof.
  induction l1 as [|[s'|] l1 IH]; intros old s l2 t; cbn [app fails pending fst snd].
  - destruct l2 as [|[]]; simpl; tauto.
  - rewrite IH. tauto.
  - rewrite IH. tauto.
Qed.

Lemma pending_last l : ∀ old s, (pending old s l).2 = default s (last (omap id l)).
Proof.
  induction l as [|[s'|] l IH]; intros old s; cbn [pending omap list_omap id]; [done| |apply IH].
  rewrite IH, last_cons. by destruct (last _).
Qed.

Lemma pending_app l1 : ∀ old s l2,
  pending old s (l1 ++ l2) = let p := pending old s l1 in pending p.1 p.2 l2.
Proof. induction l1 as [|[s'|] l1 IH]; intros old s l2; cbn [app pending]; [done|apply IH..]. Qed.

Lemma fails_now l old s t : R (old ++ [s]) t → fails old s l t.
Proof. destruct l as [|[]]; by left. Qed.

(** A part of the memory that a function [f] sets fails apart from the rest. *)
Lemma fails_map (f : S → S) l : ∀ old s t,
  (∀ e t, R e t → R (f <$> e) (f t)) →
  fails old s l t → fails (f <$> old) (f s) (lift f l) (f t).
Proof.
  intros old s t Hf. revert old s. induction l as [|[s'|] l IH]; intros old s; cbn [lift map option_map fails];
    (intros [H|H]; [left; apply Hf in H; by rewrite fmap_app in H|right]); [done| |by apply (IH [])].
  apply IH in H. by rewrite fmap_app in H.
Qed.

(** A property that any mixture of states has that have it. *)
Lemma fails_closed (P : S → Prop) l : ∀ old s t,
  (∀ e t, e ≠ [] → Forall P e → R e t → P t) →
  Forall P old → P s → Forall P (omap id l) → fails old s l t → P t.
Proof.
  induction l as [|[s'|] l IH]; intros old s t Hc Ho Hs Hl; cbn [fails].
  - intros [H|[]]. eapply (Hc (old ++ [s])); [by destruct old| |done]. apply Forall_app. auto.
  - apply Forall_cons in Hl as [Hs' Hl]. assert (Ho2 : Forall P (old ++ [s])) by (apply Forall_app; auto).
    intros [H|H]; [|by eapply IH]. eapply (Hc (old ++ [s])); [by destruct old|done|done].
  - assert (Ho2 : Forall P (old ++ [s])) by (apply Forall_app; auto).
    intros [H|H]; [|by eapply (IH [])]. eapply (Hc (old ++ [s])); [by destruct old|done|done].
Qed.

Lemma pending_Forall (P : S → Prop) l : ∀ old s,
  Forall P old → P s → Forall P (omap id l) → Forall P (pending old s l).1.
Proof.
  induction l as [|[s'|] l IH]; intros old s Ho Hs Hl; cbn [pending]; [done| |by apply IH; [constructor|..]].
  apply Forall_cons in Hl as [Hs' Hl]. apply IH; [|done..]. apply Forall_app; auto.
Qed.

(** What was pending before makes no less pending. *)
Lemma pending_incl l : ∀ old1 old2 s, (pending old2 s l).1 ⊆ (pending (old1 ++ old2) s l).1.
Proof.
  clear R. induction l as [|[s'|] l IH]; intros old1 old2 s; cbn [pending fst]; [set_solver| |done].
  rewrite <-app_assoc. apply IH.
Qed.

(** Nothing but [s] is pending. *)
Definition settled s old : Prop := Forall (eq s) old.

Lemma pending_reads l : ∀ old s, settled s old → Forall (eq s) (omap id l) → settled s (pending old s l).1.
Proof.
  induction l as [|[s'|] l IH]; intros old s Ho Hl; cbn [pending]; [done| |by apply IH; [constructor|]].
  apply Forall_cons in Hl as [<- Hl]. apply IH; [|done]. by apply Forall_app; auto.
Qed.
End fails.

(** With fewer mixtures there are fewer failures. *)
Lemma fails_mono {S} (R R' : list S → S → Prop) l old s t :
  (∀ e t, R e t → R' e t) → fails R old s l t → fails R' old s l t.
Proof.
  intros HR. revert old s. induction l as [|[s'|] l IH]; intros old s; cbn [fails]; intros [H|H]; auto.
Qed.

Section programs.
Context {S : Type} (R : list S → S → Prop).
(** A mixture of one state is that state. *)
Hypothesis R_one : ∀ s l t, l ≠ [] → Forall (eq s) l → R l t → t = s.

Lemma pending_run {A} (m : M S A) old s : (pending old s (events m s)).2 = (m s).2.
Proof. by rewrite pending_last, events_trace, trace_last. Qed.

Lemma fails_bind {A B} (m : M S A) (k : A → M S B) old s t :
  fails R old s (events (m ≫= k) s) t →
  fails R old s (events m s) t ∨
  ∃ a s', m s = (Ok a, s') ∧ fails R (pending old s (events m s)).1 s' (events (k a) s') t.
Proof.
  rewrite events_bind. pose proof (pending_run m old s) as Hl.
  destruct (m s) as [[a|e] s'] eqn:Hm; simpl in Hl; [|rewrite app_nil_r; intros; by left].
  rewrite fails_app. intros [?|Hf]; [by left|right]. exists a, s'. split; [done|].
  cbv zeta in Hf. by rewrite Hl in Hf.
Qed.

(** While a program stays within [P], where mixtures stay within [Q], so does what a failure
    leaves. *)
Lemma fails_stays {A B} (P Q : S → Prop) (m : M S A) R' (k : A → M S B) old s t :
  (∀ e t, e ≠ [] → Forall Q e → R e t → Q t) → (∀ s, P s → Q s) → stays P m R' → P s → Forall Q old →
  fails R old s (events (m ≫= k) s) t →
  Q t ∨ ∃ a s' old', m s = (Ok a, s') ∧ P s' ∧ Forall Q old' ∧ fails R old' s' (events (k a) s') t.
Proof.
  intros Hc HPQ Hm Hs Ho. assert (Htr : Forall Q (omap id (events m s))).
  { rewrite events_trace. eapply Forall_impl; [by eapply stays_trace|done]. }
  intros [Hf|(a & s' & Hrun & Hf)]%fails_bind; [left|right].
  { exact (fails_closed R Q _ old s t Hc Ho (HPQ _ Hs) Htr Hf). }
  pose proof (stays_final _ _ _ _ Hm Hs) as Hs'. rewrite Hrun in Hs'.
  exists a, s', (pending old s (events m s)).1. split_and!; [done..| |exact Hf].
  by apply pending_Forall; [|apply HPQ|].
Qed.

Lemma fails_bind_r {A B} (m : M S A) (k : A → M S B) old s a s' t :
  m s = (Ok a, s') → fails R (pending old s (events m s)).1 s' (events (k a) s') t →
  fails R old s (events (m ≫= k) s) t.
Proof.
  intros Hm Hf. rewrite events_bind, Hm, fails_app. right. cbv zeta.
  by rewrite (pending_run m old s), Hm.
Qed.

Lemma pending_bind {A B} (m : M S A) (k : A → M S B) old s :
  pending old s (events (m ≫= k) s) =
    match m s with
    | (Ok a, s') => pending (pending old s (events m s)).1 s' (events (k a) s')
    | (Err _, _) => pending old s (events m s)
    end.
Proof.
  rewrite events_bind. pose proof (pending_run m old s) as Hl.
  destruct (m s) as [[a|e] s'] eqn:Hm; simpl in Hl; [|by rewrite app_nil_r].
  rewrite pending_app. cbv zeta. by rewrite Hl.
Qed.

(** A failure while one reads leaves the state, and what is pending. *)
Lemma fails_reads {A} (m : M S A) old s t :
  reads m → settled s old → fails R old s (events m s) t → t = s.
Proof.
  intros Hm Ho Hf. destruct (reads_run m s Hm) as [_ Htr]. symmetry.
  apply (fails_closed R (eq s) (events m s) old s t); [|done|done|by rewrite events_trace|done].
  intros e t' Hne He Hr. symmetry. by eapply R_one.
Qed.

Lemma settled_reads {A} (m : M S A) old s :
  reads m → settled s old → settled s (pending old s (events m s)).1.
Proof.
  intros Hm Ho. destruct (reads_run m s Hm) as [_ Htr]. apply pending_reads; [done|].
  by rewrite events_trace.
Qed.

(** * Programs that endure a failure *)

(** From a settled state with [P], whenever the system fails the memory has [P]; and when
    the program is over its state has [P] and is settled. *)
Definition endures {A} (P : S → Prop) (m : M S A) : Prop := ∀ old s, P s → settled s old →
  (∀ t, fails R old s (events m s) t → P t) ∧ P (m s).2 ∧
  settled (m s).2 (pending old s (events m s)).1.

Context (P : S → Prop).

Lemma endures_reads {A} (m : M S A) : reads m → endures P m.
Proof.
  intros Hm old s HP Ho. destruct (reads_run m s Hm) as [-> _]. split_and!; [|done|by apply settled_reads].
  intros t Ht. by rewrite (fails_reads m old s t).
Qed.

Lemma endures_bind {A B} (m : M S A) (k : A → M S B) :
  endures P m → (∀ a, endures P (k a)) → endures P (m ≫= k).
Proof.
  intros Hm Hk old s HP Ho. destruct (Hm old s HP Ho) as (Hf & HP' & Hs).
  rewrite pending_bind, bind_run. destruct (m s) as [[a|e] s'] eqn:Hrun; cbn [fst snd] in *.
  - destruct (Hk a _ s' HP' Hs) as (Hf' & HP'' & Hs'). split_and!; [|done..].
    intros t [?|(a' & s2 & Hrun' & Ht)]%fails_bind; [auto|].
    rewrite Hrun in Hrun'. injection Hrun' as <- <-. by apply Hf'.
  - split_and!; [|done..]. intros t [?|(a' & s2 & Hrun' & Ht)]%fails_bind; [auto|]. congruence.
Qed.
End programs.

(** * Mixtures *)
Section mixtures.
Context {S A : Type} (f : S → A).

(** A word holds what it held in one of the states. *)
Definition one_of (l : list S) (t : S) : Prop := ∃ a, a ∈ l ∧ f t = f a.
(** What was the same in all of them is as it was. *)
Definition unmoved (l : list S) (t : S) : Prop := ∀ v, Forall (λ a, f a = v) l → f t = v.

Lemma unmoved_Forall (P : S → Prop) l t v :
  unmoved l t → Forall P l → (∀ a, P a → f a = v) → f t = v.
Proof. intros Hu Hl Hf. apply Hu. by eapply Forall_impl. Qed.

Lemma one_of_Forall (P : S → Prop) l t : one_of l t → Forall P l → ∃ a, P a ∧ f t = f a.
Proof. intros (a & Ha & Hf) Hl. rewrite Forall_forall in Hl. exists a. auto. Qed.

Lemma one_of_same (P : S → Prop) l t v :
  one_of l t → Forall P l → (∀ a, P a → f a = v) → f t = v.
Proof. intros Ho Hl Hf. destruct (one_of_Forall P _ _ Ho Hl) as (a & Ha & ->). auto. Qed.
End mixtures.

(** * Failures include deaths *)

(** If [Q] allows a torn access of two states that are pending, and any state that is, the
    states a process can leave that dies are among those of a system that fails. *)
Lemma dies_fails {S} (R : S → S → S → Prop) (Q : list S → S → Prop) (P : S → Prop) l :
  (∀ old a b t, P a → P b → R a b t → Q (old ++ [a; b]) t) →
  (∀ old s, P s → Q (old ++ [s]) s) →
  ∀ old s t, P s → Forall P (omap id l) → dies R s (omap id l) t → fails Q old s l t.
Proof.
  intros HRQ HQ. induction l as [|[s'|] l IH]; intros old s t Hs Hl.
  - intros ->. left. by apply HQ.
  - apply Forall_cons in Hl as [Hs' Hl]. intros [Hr|Hd]; right; [|by apply IH].
    apply (HRQ old) in Hr; [|done..]. destruct l as [|[]]; left; by rewrite <-app_assoc.
  - intros Hd. right. by apply IH.
Qed.

Lemma dies_fails_run {S A} (R : S → S → S → Prop) (Q : list S → S → Prop) (P : S → Prop)
    (m : M S A) s t :
  (∀ old a b t, P a → P b → R a b t → Q (old ++ [a; b]) t) →
  (∀ old s, P s → Q (old ++ [s]) s) →
  P s → Forall P (trace m s) → dies R s (trace m s) t → fails Q [] s (events m s) t.
Proof. intros HRQ HQ Hs Hm Hd. rewrite <-events_trace in *. by eapply dies_fails. Qed.
