(* ===== verification/SmallStep.v ===== *)
(** The small-step semantics of programs, for threads that take turns: a program does one
    access and says what is left of it.  It agrees with [run] and passes through the states
    of [trace], and it always comes to an end. *)

From S2P Require Import Prelude Monad Trace.

(** The rest of the program, or its result; and the state. *)
Fixpoint step {S A} (m : M S A) : S → (M S A + result A) * S :=
  match m with
  | Ret a => λ s, (inr (Ok a), s)
  | Do f => λ s, let '(r, s') := f s in (inr r, s')
  | Bind m k => λ s,
      match step m s with
      | (inl m', s') => (inl (Bind m' k), s')
      | (inr (Ok a), s') => (inl (k a), s')
      | (inr (Err e), s') => (inr (Err e), s')
      end
  | Barrier => λ s, (inr (Ok tt), s)
  | Zoom g p l m => λ s,
      match g s with
      | Some t =>
          match step m t with
          | (inl m', t') => (inl (Zoom g p l m'), p t' s)
          | (inr r, t') => (inr r, p t' s)
          end
      | None => (inr (Err OutOfBounds), s)
      end
  end.

(** [m] in state [s] is what is left of [m0] started in [s0]. *)
Definition follows {S A} (m0 : M S A) (s0 : S) (m : M S A) (s : S) : Prop :=
  run m s = run m0 s0 ∧ ∃ l, trace m0 s0 = l ++ trace m s ∧ default s0 (last l) = s.

Section step.

Lemma run_Zoom {S T A} (g : S → option T) p l (m : M T A) s :
  run (Zoom g p l m) s =
    match g s with Some t => let '(r, t) := run m t in (r, p t s) | None => (Err OutOfBounds, s) end.
Proof. done. Qed.
Lemma trace_Zoom {S T A} (g : S → option T) p l (m : M T A) s :
  trace (Zoom g p l m) s =
    match g s with Some t => (λ t', p t' s) <$> trace m t | None => [] end.
Proof. done. Qed.
Lemma run_Bind {S A B} (m : M S A) (k : A → M S B) s :
  run (Bind m k) s =
    match run m s with (Ok a, s') => run (k a) s' | (Err e, s') => (Err e, s') end.
Proof. done. Qed.
Lemma trace_Bind {S A B} (m : M S A) (k : A → M S B) s :
  trace (Bind m k) s =
    trace m s ++ match run m s with (Ok a, s') => trace (k a) s' | (Err _, _) => [] end.
Proof. done. Qed.

Lemma step_run {S A} (m : M S A) : ∀ s,
  match step m s with
  | (inl m', s') => run m s = run m' s'
  | (inr r, s') => run m s = (r, s')
  end.
Proof.
  induction m as [S A a|S A f|S A B m IHm k IHk|S|S T A g p l m IHm]; intros s; cbn [step].
  - done.
  - unfold run. by destruct (f s).
  - rewrite run_Bind. specialize (IHm s).
    destruct (step m s) as [[m'|[a|e]] s']; rewrite ?run_Bind, IHm; done.
  - done.
  - rewrite run_Zoom. destruct (g s) as [t|] eqn:Hg; [|done]. specialize (IHm t).
    destruct (step m t) as [[m'|r] t']; rewrite IHm; [|done].
    rewrite run_Zoom, (plens_get_put s t t' Hg). destruct (run m' t') as [r t2]. f_equal.
    symmetry. by eapply plens_put_put.
Qed.

(** A step does one access or none. *)
Lemma step_trace {S A} (m : M S A) : ∀ s,
  match step m s with
  | (inl m', s') => ∃ l, trace m s = l ++ trace m' s' ∧ default s (last l) = s'
  | (inr r, s') => True
  end.
Proof.
  induction m as [S A a|S A f|S A B m IHm k IHk|S|S T A g p l m IHm]; intros s; simpl.
  - done.
  - by destruct (f s).
  - specialize (IHm s). pose proof (step_run m s) as Hr. rewrite trace_Bind.
    destruct (step m s) as [[m'|[a|e]] s']; [| |done].
    + destruct IHm as (l & Hl & Hs). exists l. rewrite trace_Bind, Hl, Hr. by rewrite <-app_assoc.
    + exists (trace m s). rewrite Hr. split; [done|]. by rewrite trace_last, Hr.
  - done.
  - rewrite trace_Zoom. destruct (g s) as [t|] eqn:Hg; [|done]. specialize (IHm t).
    destruct (step m t) as [[m'|r] t']; [|done]. destruct IHm as (l' & Hl & Ht).
    exists ((λ x, p x s) <$> l'). rewrite trace_Zoom, (plens_get_put s t t' Hg). split.
    + rewrite Hl, fmap_app. f_equal. apply list_fmap_ext. intros i x _.
      symmetry. by eapply plens_put_put.
    + rewrite fmap_last. destruct (last l') as [x|]; simpl in *; subst; [done|].
      symmetry. by apply plens_put_get.
Qed.

Lemma follows_refl {S A} (m : M S A) s : follows m s m s.
Proof. split; [done|]. by exists []. Qed.

Lemma last_default_app {A} (l1 l2 : list A) (x : A) :
  default x (last (l1 ++ l2)) = default (default x (last l1)) (last l2).
Proof. rewrite last_app. by destruct (last l2). Qed.

Lemma follows_step {S A} (m0 m m' : M S A) s0 s s' :
  follows m0 s0 m s → step m s = (inl m', s') → follows m0 s0 m' s'.
Proof.
  intros [Hr (l & Hl & Hs)] Hstep. pose proof (step_run m s) as H1. pose proof (step_trace m s) as H2.
  rewrite Hstep in H1, H2. destruct H2 as (l2 & Hl2 & Hs2). split; [congruence|].
  exists (l ++ l2). rewrite Hl, Hl2, <-app_assoc. split; [done|].
  by rewrite last_default_app, Hs.
Qed.

Lemma follows_end {S A} (m0 m : M S A) s0 s r s' :
  follows m0 s0 m s → step m s = (inr r, s') → run m0 s0 = (r, s').
Proof.
  intros [Hr _] Hstep. pose proof (step_run m s) as H1. rewrite Hstep in H1. congruence.
Qed.

(** A program that is on its way can have died where it is. *)
Lemma follows_dies {S A} (R : S → S → S → Prop) (m0 m : M S A) s0 s t :
  follows m0 s0 m s → dies R s (trace m s) t → dies R s0 (trace m0 s0) t.
Proof.
  intros [_ (l & -> & Hs)] Hd. revert s0 Hs.
  induction l as [|x l IH]; intros s0 Hs; simpl in *; [by subst|].
  right. apply IH. rewrite last_cons in Hs. by destruct (last l).
Qed.

(** ** Programs end *)

Definition shrinks {S A} (m' m : M S A) : Prop := ∃ s s', step m s = (inl m', s').

Lemma shrinks_acc {S A} (m : M S A) : Acc shrinks m.
Proof.
  induction m as [S A a|S A f|S A B m IHm k IHk|S|S T A g p l m IHm].
  - constructor. by intros m' (s & s' & ?).
  - constructor. intros m' (s & s' & Hs). simpl in Hs. by destruct (f s).
  - induction IHm as [m _ IH]. constructor. intros n (s & s' & Hs). simpl in Hs.
    destruct (step m s) as [[m'|[a|e]] s1] eqn:E; [| |done].
    + injection Hs as <- <-. apply IH. by exists s, s1.
    + injection Hs as <- <-. apply IHk.
  - constructor. by intros m' (s & s' & ?).
  - induction IHm as [m _ IH]. constructor. intros n (s & s' & Hs). simpl in Hs.
    destruct (g s) as [t|]; [|done].
    destruct (step m t) as [[m'|r] t'] eqn:E; [|done]. injection Hs as <- <-.
    apply IH. by exists t, t'.
Qed.
End step.
