(* ===== verification/Threads.v ===== *)
(** Threads that call functions on the elements of an array, each element with a mutex that
    a call holds from its first to its last access: the threads take turns at every access,
    and yet every execution is a sequence of whole calls.  When the code of a call stops
    with an error, its process dies and every thread stays where it is.

    [pthread_mutex_lock] and [pthread_mutex_unlock] are turns of the machine, not accesses of
    the code: a thread is in a call with the mutex or not in a call.  That every function of
    cell.c that a thread calls locks first, unlocks last on each of its paths and does not
    lock in between is read off the source; a program that forgets to is not expressible. *)

From S2P Require Import Prelude Monad Trace SmallStep.

(** The update of a table of threads. *)
Definition put {A} (t : nat) (x : A) (f : nat → A) : nat → A :=
  λ t', if decide (t' = t) then x else f t'.

Lemma put_same {A} t (x : A) f : put t x f t = x.
Proof. unfold put. by rewrite decide_True. Qed.
Lemma put_other {A} t t' (x : A) f : t' ≠ t → put t x f t' = f t'.
Proof. intros. unfold put. by rewrite decide_False. Qed.

Section threads.
(** The calls: the code of each, and the number of the element it works on. *)
Context {S R Op : Type} (code : Op → M S R) (place : Op → nat).
Implicit Types (m : M S R) (i t : nat) (op : Op) (r : R).

(** * The machine *)

(** What a thread does: calls, each decided by the results so far. *)
Inductive client :=
  | Finished
  | Call (op : Op) (k : R → client).

(** Outside of a call; inside, with the mutex, [m] being what is left of its code; before
    [pthread_mutex_unlock], with the result; or stopped by an error. *)
Inductive thread :=
  | Outside (c : client)
  | Inside (op : Op) (m : M S R) (k : R → client)
  | Leaving (op : Op) (r : R) (k : R → client)
  | Stopped (op : Op) (e : error).

Record config := Config {
  mem : list S;
  owner : gmap nat nat; (* of the mutex of an element, the thread that holds it *)
  threads : nat → thread;
  dead : bool;          (* the process *)
}.

(** One turn of thread [t]: [pthread_mutex_lock] of a mutex that is free, one access of the
    code, or [pthread_mutex_unlock]. *)
Inductive turn t : config → config → Prop :=
  | turn_lock ms o ths op k x :
      ths t = Outside (Call op k) → o !! place op = None → ms !! place op = Some x →
      turn t (Config ms o ths false)
             (Config ms (<[place op := t]> o) (put t (Inside op (code op) k) ths) false)
  | turn_access ms o ths op m k x m' x' :
      ths t = Inside op m k → ms !! place op = Some x → step m x = (inl m', x') →
      turn t (Config ms o ths false)
             (Config (<[place op := x']> ms) o (put t (Inside op m' k) ths) false)
  | turn_return ms o ths op m k x r x' :
      ths t = Inside op m k → ms !! place op = Some x → step m x = (inr (Ok r), x') →
      turn t (Config ms o ths false)
             (Config (<[place op := x']> ms) o (put t (Leaving op r k) ths) false)
  | turn_stop ms o ths op m k x e x' :
      ths t = Inside op m k → ms !! place op = Some x → step m x = (inr (Err e), x') →
      turn t (Config ms o ths false)
             (Config (<[place op := x']> ms) o (put t (Stopped op e) ths) true)
  | turn_unlock ms o ths op r k :
      ths t = Leaving op r k → o !! place op = Some t →
      turn t (Config ms o ths false)
             (Config ms (delete (place op) o) (put t (Outside (k r)) ths) false).

(** An execution: any thread takes the next turn. *)
Inductive executes c : config → Prop :=
  | executes_start : executes c c
  | executes_turn t c1 c2 : executes c c1 → turn t c1 c2 → executes c c2.

Definition start (ms : list S) (clients : nat → client) : config :=
  Config ms ∅ (λ t, Outside (clients t)) false.

(** The turn thread [t] can take, and the turns of a schedule; a thread that can take none is
    passed over. *)
Definition take_turn t (c : config) : option config :=
  let '(Config ms o ths d) := c in
  if d then None
  else
    match ths t with
    | Outside Finished => None
    | Outside (Call op k) =>
        match o !! place op, ms !! place op with
        | None, Some _ => Some (Config ms (<[place op := t]> o) (put t (Inside op (code op) k) ths) false)
        | _, _ => None
        end
    | Inside op m k =>
        match ms !! place op with
        | Some x =>
            match step m x with
            | (inl m', x) => Some (Config (<[place op := x]> ms) o (put t (Inside op m' k) ths) false)
            | (inr (Ok r), x) => Some (Config (<[place op := x]> ms) o (put t (Leaving op r k) ths) false)
            | (inr (Err e), x) => Some (Config (<[place op := x]> ms) o (put t (Stopped op e) ths) true)
            end
        | None => None
        end
    | Leaving op r k =>
        if decide (o !! place op = Some t)
        then Some (Config ms (delete (place op) o) (put t (Outside (k r)) ths) false) else None
    | Stopped _ _ => None
    end.

Fixpoint play (schedule : list nat) (c : config) : config :=
  match schedule with
  | [] => c
  | t :: schedule => play schedule (default c (take_turn t c))
  end.

Lemma take_turn_sound t c c' : take_turn t c = Some c' → turn t c c'.
Proof.
  destruct c as [ms o ths d]. unfold take_turn. intros H. destruct d; [done|].
  destruct (ths t) as [[|op k]|op m k|op r k|op e] eqn:E; [done| | | |done].
  - destruct (o !! place op) eqn:Ho; [done|]. destruct (ms !! place op) eqn:Hx; [|done].
    injection H as <-. by eapply turn_lock.
  - destruct (ms !! place op) as [x|] eqn:Hx; [|done].
    destruct (step m x) as [[m'|[r|e]] x'] eqn:Hs; injection H as <-.
    + by eapply turn_access.
    + by eapply turn_return.
    + by eapply turn_stop.
  - case_decide; [|done]. injection H as <-. by apply turn_unlock.
Qed.

Lemma play_executes schedule c0 c : executes c0 c → executes c0 (play schedule c).
Proof.
  revert c. induction schedule as [|t schedule IH]; intros c H; [done|]. simpl. apply IH.
  destruct (take_turn t c) as [c'|] eqn:E; [|done].
  eapply executes_turn; [exact H|by apply take_turn_sound].
Qed.

(** * Sequential executions *)

Record entry := Entry {
  e_thread : nat;
  e_op : Op;
  e_result : R;
}.

(** The calls of a log, one after the other. *)
Inductive sequential (ms : list S) : list entry → list S → Prop :=
  | seq_nil : sequential ms [] ms
  | seq_snoc log ms1 t op r x x' :
      sequential ms log ms1 → ms1 !! place op = Some x → code op x = (Ok r, x') →
      sequential ms (log ++ [Entry t op r]) (<[place op := x']> ms1).

(** The calls of a log are those a client makes, and [c'] is what is left of it. *)
Inductive makes (c : client) : list entry → client → Prop :=
  | makes_nil : makes c [] c
  | makes_snoc log t op k r : makes c log (Call op k) → makes c (log ++ [Entry t op r]) (k r).

Lemma makes_cons t op k r log cl :
  makes (k r) log cl → makes (Call op k) (Entry t op r :: log) cl.
Proof.
  induction 1 as [|log t' op' k' r' _ IH].
  - apply (makes_snoc _ []), makes_nil.
  - exact (makes_snoc _ (_ :: log) _ _ _ _ IH).
Qed.

Definition log_of t (log : list entry) : list entry := filter (λ e, e_thread e = t) log.

(** * The invariant *)

(** Where thread [th] number [t] of the client [cl] is, when the calls of [log] are over and
    left the array as [ms1]: if it is in a call, it holds the mutex, the element was [x0]
    when it entered and is [x] now. *)
Definition thread_inv (ms ms1 : list S) (o : gmap nat nat) (log : list entry) (cl : client)
    t (th : thread) : Prop :=
  let inside op Q :=
    o !! place op = Some t ∧ ∃ k x0 x, makes cl (log_of t log) (Call op k) ∧
      ms1 !! place op = Some x0 ∧ ms !! place op = Some x ∧ Q k x0 x in
  match th with
  | Outside c => makes cl (log_of t log) c
  | Inside op m k => inside op (λ k0 x0 x, k0 = k ∧ follows (code op) x0 m x)
  | Leaving op r k => inside op (λ k0 x0 x, k0 = k ∧ code op x0 = (Ok r, x))
  | Stopped op e => inside op (λ k0 x0 x, code op x0 = (Err e, x))
  end.

Definition holds (th : thread) i : Prop :=
  match th with
  | Outside _ => False
  | Inside op _ _ | Leaving op _ _ | Stopped op _ => place op = i
  end.

Record linear (ms0 : list S) (clients : nat → client) (c : config) (log : list entry)
    (ms1 : list S) : Prop := {
  ln_seq : sequential ms0 log ms1;
  ln_length : length ms1 = length (mem c);
  ln_thread t : thread_inv (mem c) ms1 (owner c) log (clients t) t (threads c t);
  ln_free i : owner c !! i = None → mem c !! i = ms1 !! i;
  ln_owner i t : owner c !! i = Some t → holds (threads c t) i;
  ln_alive t : match threads c t with Stopped _ _ => dead c = true | _ => True end;
}.

Section linear.
Context (ms0 : list S) (clients : nat → client).

Lemma log_of_app t log1 log2 : log_of t (log1 ++ log2) = log_of t log1 ++ log_of t log2.
Proof. apply filter_app. Qed.
Lemma log_of_same t op r : log_of t [Entry t op r] = [Entry t op r].
Proof. unfold log_of. by rewrite filter_cons_True. Qed.
Lemma log_of_other t t' op r : t' ≠ t → log_of t' [Entry t op r] = [].
Proof. intros. unfold log_of. rewrite filter_cons_False; [done|]. simpl. congruence. Qed.

(** What another thread does with elements this one does not hold. *)
Lemma thread_inv_frame ms ms' ms1 ms1' o o' log log' cl t th :
  thread_inv ms ms1 o log cl t th →
  (∀ j, o !! j = Some t → o' !! j = Some t ∧ ms' !! j = ms !! j ∧ ms1' !! j = ms1 !! j) →
  log_of t log' = log_of t log → thread_inv ms' ms1' o' log' cl t th.
Proof.
  intros H Hj Hl. destruct th; simpl in *; rewrite Hl; [done|..];
    (destruct H as [Ho H]; destruct (Hj _ Ho) as (-> & -> & ->); by split).
Qed.

(** A turn of thread [t] that concerns element [i] only is none of the other threads'. *)
Lemma thread_inv_others c log ms1 ms' ms1' o' log' t i th' :
  linear ms0 clients c log ms1 →
  (∀ t', owner c !! i = Some t' → t' = t) →
  (∀ j, j ≠ i → o' !! j = owner c !! j ∧ ms' !! j = mem c !! j ∧ ms1' !! j = ms1 !! j) →
  (∀ t', t' ≠ t → log_of t' log' = log_of t' log) →
  thread_inv ms' ms1' o' log' (clients t) t th' →
  ∀ t', thread_inv ms' ms1' o' log' (clients t') t' (put t th' (threads c) t').
Proof.
  intros H Hown Hj Hlog Ht t'. destruct (decide (t' = t)) as [->|Hne]; [by rewrite put_same|].
  rewrite put_other by done. eapply thread_inv_frame; [by eapply ln_thread| |by apply Hlog].
  intros j Ho. destruct (decide (j = i)) as [->|Hji]; [by apply Hown in Ho|].
  by destruct (Hj j Hji) as (-> & ? & ?).
Qed.

(** An access of the thread that holds the mutex. *)
Lemma linear_inside ms o ths log ms1 t op m k x x' th' d :
  linear ms0 clients (Config ms o ths false) log ms1 →
  ths t = Inside op m k → ms !! place op = Some x →
  holds th' (place op) → match th' with Stopped _ _ => d = true | _ => True end →
  (∀ x0, o !! place op = Some t → makes (clients t) (log_of t log) (Call op k) →
     ms1 !! place op = Some x0 → <[place op := x']> ms !! place op = Some x' →
     follows (code op) x0 m x → thread_inv (<[place op := x']> ms) ms1 o log (clients t) t th') →
  linear ms0 clients (Config (<[place op := x']> ms) o (put t th' ths) d) log ms1.
Proof.
  intros H Ht Hx Hholds Hd Hinv. pose proof (ln_thread _ _ _ _ _ H t) as Hth. simpl in Hth.
  rewrite Ht in Hth. destruct Hth as (Ho & k0 & x0 & y & Hm & Hx0 & Hy & -> & Hf).
  rewrite Hx in Hy. injection Hy as <-. split; simpl.
  - apply H.
  - rewrite length_insert. apply H.
  - intros t'. eapply (thread_inv_others _ _ _ _ _ _ _ t (place op) th' H); simpl.
    + intros t2 Ht2. congruence.
    + intros j Hj. by rewrite list_lookup_insert_ne.
    + done.
    + eapply Hinv; try done. apply list_lookup_insert_eq. by eapply lookup_lt_Some.
  - intros j Hj. rewrite list_lookup_insert_ne by congruence. by apply (ln_free _ _ _ _ _ H).
  - intros j t' Hj. destruct (decide (t' = t)) as [->|Hne].
    + rewrite put_same. pose proof (ln_owner _ _ _ _ _ H j t Hj) as Hh. simpl in Hh.
      rewrite Ht in Hh. simpl in Hh. by subst j.
    + rewrite put_other by done. by apply (ln_owner _ _ _ _ _ H).
  - intros t'. destruct (decide (t' = t)) as [->|Hne]; [by rewrite put_same|].
    rewrite put_other by done. pose proof (ln_alive _ _ _ _ _ H t') as Ha. simpl in Ha.
    by destruct (ths t').
Qed.

Lemma linear_lock ms o ths log ms1 t op k x :
  linear ms0 clients (Config ms o ths false) log ms1 →
  ths t = Outside (Call op k) → o !! place op = None → ms !! place op = Some x →
  linear ms0 clients
    (Config ms (<[place op := t]> o) (put t (Inside op (code op) k) ths) false) log ms1.
Proof.
  intros H Ht Ho Hx. pose proof (ln_thread _ _ _ _ _ H t) as Hth. simpl in Hth. rewrite Ht in Hth.
  pose proof (ln_free _ _ _ _ _ H (place op) Ho) as Hfree. simpl in Hfree. split; simpl.
  - apply H.
  - apply H.
  - intros t'. eapply (thread_inv_others _ _ _ _ _ _ _ t (place op) _ H); simpl; [congruence| |done|].
    + intros j Hj. by rewrite lookup_insert_ne.
    + rewrite lookup_insert_eq. split; [done|]. exists k, x, x. rewrite <-Hfree.
      split_and!; [done..|apply follows_refl].
  - intros j Hj. apply (ln_free _ _ _ _ _ H). simpl. by apply lookup_insert_None in Hj as [? _].
  - intros j t' Hj. apply lookup_insert_Some in Hj as [[<- <-]|[Hne Hj]]; [by rewrite put_same|].
    pose proof (ln_owner _ _ _ _ _ H j t' Hj) as Hh. simpl in Hh.
    rewrite put_other; [done|]. intros ->. by rewrite Ht in Hh.
  - intros t'. destruct (decide (t' = t)) as [->|Hne]; [by rewrite put_same|].
    rewrite put_other by done. apply (ln_alive _ _ _ _ _ H t').
Qed.

(** When a thread gives the mutex back its call has happened. *)
Lemma linear_unlock ms o ths log ms1 t op r k :
  linear ms0 clients (Config ms o ths false) log ms1 →
  ths t = Leaving op r k → o !! place op = Some t →
  ∃ ms2, linear ms0 clients
    (Config ms (delete (place op) o) (put t (Outside (k r)) ths) false) (log ++ [Entry t op r]) ms2.
Proof.
  intros H Ht Ho. pose proof (ln_thread _ _ _ _ _ H t) as Hth. simpl in Hth. rewrite Ht in Hth.
  destruct Hth as (_ & k0 & x0 & x & Hm & Hx0 & Hx & -> & Hrun).
  pose proof (lookup_lt_Some _ _ _ Hx0) as Hlt. exists (<[place op := x]> ms1). split; simpl.
  - by eapply seq_snoc; [apply H|..].
  - rewrite length_insert. apply H.
  - intros t'. eapply (thread_inv_others _ _ _ _ _ _ _ t (place op) _ H); simpl; [congruence|..].
    + intros j Hj. by rewrite lookup_delete_ne, list_lookup_insert_ne.
    + intros t2 Hne. by rewrite log_of_app, log_of_other, app_nil_r.
    + rewrite log_of_app, log_of_same. by apply makes_snoc.
  - intros j Hj. destruct (decide (j = place op)) as [->|Hne].
    + by rewrite list_lookup_insert_eq.
    + rewrite lookup_delete_ne in Hj by done. rewrite list_lookup_insert_ne by done.
      by apply (ln_free _ _ _ _ _ H).
  - intros j t' Hj. apply lookup_delete_Some in Hj as [Hne Hj].
    pose proof (ln_owner _ _ _ _ _ H j t' Hj) as Hh. simpl in Hh.
    rewrite put_other; [done|]. intros ->. rewrite Ht in Hh. simpl in Hh. congruence.
  - intros t'. destruct (decide (t' = t)) as [->|Hne]; [by rewrite put_same|].
    rewrite put_other by done. apply (ln_alive _ _ _ _ _ H t').
Qed.

Lemma linear_turn t c c' log ms1 :
  linear ms0 clients c log ms1 → turn t c c' → ∃ more ms2, linear ms0 clients c' (log ++ more) ms2.
Proof.
  intros H Hturn. destruct Hturn as [ms o ths op k x Ht Ho Hx|ms o ths op m k x m' x' Ht Hx Hs
    |ms o ths op m k x r x' Ht Hx Hs|ms o ths op m k x e x' Ht Hx Hs|ms o ths op r k Ht Ho].
  - exists [], ms1. rewrite app_nil_r. by eapply linear_lock.
  - exists [], ms1. rewrite app_nil_r. eapply linear_inside; [exact H|exact Ht|exact Hx|done|done|].
    intros x0 Ho Hm Hx0 Hx' Hf. split; [done|]. exists k, x0, x'.
    split_and!; [done..|by eapply follows_step].
  - exists [], ms1. rewrite app_nil_r. eapply linear_inside; [exact H|exact Ht|exact Hx|done|done|].
    intros x0 Ho Hm Hx0 Hx' Hf. split; [done|]. exists k, x0, x'.
    split_and!; [done..|by eapply follows_end].
  - exists [], ms1. rewrite app_nil_r. eapply linear_inside; [exact H|exact Ht|exact Hx|done|done|].
    intros x0 Ho Hm Hx0 Hx' Hf. split; [done|]. exists k, x0, x'.
    split_and!; [done..|by eapply follows_end].
  - destruct (linear_unlock _ _ _ _ _ _ _ _ _ H Ht Ho) as (ms2 & H2). by exists [Entry t op r], ms2.
Qed.

Lemma linear_executes c c' log ms1 :
  linear ms0 clients c log ms1 → executes c c' → ∃ more ms2, linear ms0 clients c' (log ++ more) ms2.
Proof.
  intros H. induction 1 as [|t c1 c2 _ (more & ms2 & IH) Ht].
  - exists [], ms1. by rewrite app_nil_r.
  - destruct (linear_turn _ _ _ _ _ IH Ht) as (more2 & ms3 & H3).
    exists (more ++ more2), ms3. by rewrite app_assoc.
Qed.

(** Every configuration an execution reaches: the calls that are over are a sequential
    execution, and each thread that is in a call is alone with its element. *)
Lemma executes_linear c :
  executes (start ms0 clients) c → ∃ log ms1, linear ms0 clients c log ms1.
Proof.
  intros Hc. eapply (linear_executes _ _ [] ms0) in Hc as (log & ms1 & H); [by exists log, ms1|].
  split; simpl; try done; [apply seq_nil|]. intros t. apply makes_nil.
Qed.

(** A thread that is in a call holds the mutex. *)
Lemma linear_owner c log ms1 t i :
  linear ms0 clients c log ms1 → holds (threads c t) i → owner c !! i = Some t.
Proof.
  intros H Hh. pose proof (ln_thread _ _ _ _ _ H t) as Hth.
  destruct (threads c t); simpl in *; [done|..]; subst; by destruct Hth.
Qed.

(** Every thread's calls in the log are its client's. *)
Lemma linear_makes c log ms1 t :
  linear ms0 clients c log ms1 → ∃ cl, makes (clients t) (log_of t log) cl.
Proof.
  intros H. pose proof (ln_thread _ _ _ _ _ H t) as Hth.
  destruct (threads c t); simpl in *; [by eexists|..];
    destruct Hth as (_ & k0 & _ & _ & Hm & _); by eexists.
Qed.

Fixpoint client_ok (P : Op → Prop) (cl : client) : Prop :=
  match cl with
  | Finished => True
  | Call op k => P op ∧ ∀ r, client_ok P (k r)
  end.

Lemma client_ok_weaken (P Q : Op → Prop) cl :
  (∀ op, P op → Q op) → client_ok P cl → client_ok Q cl.
Proof. intros HPQ. induction cl as [|op k IH]; simpl; [done|]. intros [? Hk]. split; auto. Qed.

Lemma makes_ok (P : Op → Prop) cl log cl' :
  makes cl log cl' → client_ok P cl → client_ok P cl' ∧ Forall (λ e, P (e_op e)) log.
Proof.
  intros H Hcl. induction H as [|log t op k r _ IH]; [by split|].
  destruct IH as [[Hop Hk] Hlog]. split; [apply Hk|].
  apply Forall_app. by split; [|apply Forall_singleton].
Qed.

Lemma linear_ok (P : Op → Prop) c log ms1 :
  (∀ t, client_ok P (clients t)) → linear ms0 clients c log ms1 → Forall (λ e, P (e_op e)) log.
Proof.
  intros Hcl H. apply Forall_forall. intros e He.
  destruct (linear_makes _ _ _ (e_thread e) H) as [cl Hm].
  destruct (makes_ok P _ _ _ Hm (Hcl _)) as [_ Hlog]. rewrite Forall_forall in Hlog.
  apply Hlog. unfold log_of. by apply list_elem_of_filter.
Qed.

Definition in_call (th : thread) op : Prop :=
  match th with
  | Outside _ => False
  | Inside op' _ _ | Leaving op' _ _ | Stopped op' _ => op' = op
  end.

(** The call a thread is in is one its client makes. *)
Lemma linear_in_call (P : Op → Prop) c log ms1 t op :
  (∀ t, client_ok P (clients t)) → linear ms0 clients c log ms1 →
  in_call (threads c t) op → P op.
Proof.
  intros Hcl H Hop. pose proof (ln_thread _ _ _ _ _ H t) as Hth.
  destruct (threads c t); simpl in *; [done|..]; subst;
    (destruct Hth as (_ & k0 & _ & _ & Hm & _); by destruct (makes_ok P _ _ _ Hm (Hcl t)) as [[? _] _]).
Qed.

(** A process is dead because a thread was stopped. *)
Lemma executes_dead c :
  executes (start ms0 clients) c → dead c = true → ∃ t op e, threads c t = Stopped op e.
Proof.
  intros Hc. destruct Hc as [|t c1 c2 _ Hturn]; [done|].
  destruct Hturn as [| | |ms o ths op m k x e x'|]; try done. intros _.
  exists t, op, e. apply put_same.
Qed.

(** The call that stopped a thread gives the error on the element as the calls before it
    left it. *)
Lemma linear_stopped c log ms1 t op e :
  linear ms0 clients c log ms1 → threads c t = Stopped op e →
  ∃ x0 x, ms1 !! place op = Some x0 ∧ code op x0 = (Err e, x).
Proof.
  intros H Ht. pose proof (ln_thread _ _ _ _ _ H t) as Hth. rewrite Ht in Hth.
  destruct Hth as (_ & k0 & x0 & x & _ & Hx0 & _ & Hr). by exists x0, x.
Qed.

(** * No deadlock *)

Lemma sequential_length ms log ms1 : sequential ms log ms1 → length ms1 = length ms.
Proof. induction 1; [done|]. by rewrite length_insert. Qed.

(** The thread that holds a mutex can take a turn. *)
Lemma holder_turns c log ms1 t :
  linear ms0 clients c log ms1 → dead c = false →
  match threads c t with Outside _ => False | _ => True end → ∃ c', turn t c c'.
Proof.
  intros H Hd Ht. pose proof (ln_thread _ _ _ _ _ H t) as Hth. pose proof (ln_alive _ _ _ _ _ H t) as Ha.
  destruct c as [ms o ths d]; simpl in *. subst d.
  destruct (ths t) as [|op m k|op r k|op e] eqn:E; [done| | |done].
  - destruct Hth as (Ho & _ & x0 & x & _ & _ & Hx & _).
    destruct (step m x) as [[m'|[r|e]] x'] eqn:Hs; eexists.
    + by eapply turn_access.
    + by eapply turn_return.
    + by eapply turn_stop.
  - destruct Hth as (Ho & _). eexists. by eapply turn_unlock.
Qed.

(** As long as a thread has something to do, some thread can take a turn. *)
Lemma no_deadlock c log ms1 t :
  (∀ t, client_ok (λ op, (place op < length ms0)%nat) (clients t)) →
  linear ms0 clients c log ms1 → dead c = false →
  threads c t ≠ Outside Finished → ∃ t' c', turn t' c c'.
Proof.
  intros Hcl H Hd Ht. pose proof (ln_thread _ _ _ _ _ H t) as Hth.
  destruct (threads c t) as [[|op k]|op m k|op r k|op e] eqn:E; [done| |..].
  2-4: exists t; eapply holder_turns; [done|done|by rewrite E].
  destruct (makes_ok _ _ _ _ Hth (Hcl t)) as [[Hplace _] _].
  destruct (owner c !! place op) as [t2|] eqn:Ho.
  - exists t2. eapply holder_turns; [done|done|].
    pose proof (ln_owner _ _ _ _ _ H _ _ Ho) as Hh. by destruct (threads c t2).
  - destruct (lookup_lt_is_Some_2 (mem c) (place op)) as [x Hx].
    { by rewrite <-(ln_length _ _ _ _ _ H), (sequential_length _ _ _ (ln_seq _ _ _ _ _ H)). }
    exists t. destruct c as [ms o ths d]; simpl in *. subst d. eexists. by eapply turn_lock.
Qed.

(** A client without calls never enters one. *)
Lemma linear_finished c log ms1 t :
  linear ms0 clients c log ms1 → clients t = Finished → threads c t = Outside Finished.
Proof.
  intros H Hcl. pose proof (ln_thread _ _ _ _ _ H t) as Hth. rewrite Hcl in Hth.
  assert (Hm : ∀ l cl, makes Finished l cl → cl = Finished).
  { induction 1 as [|l t' op k r _ IH]; [done|discriminate]. }
  destruct (threads c t); simpl in *; [by rewrite (Hm _ _ Hth)|..];
    destruct Hth as (_ & k0 & _ & _ & Hmk & _); by apply Hm in Hmk.
Qed.

(** Either all of [n] threads are done, or one is not. *)
Lemma all_done (f : nat → thread) n :
  (∀ t, (t < n)%nat → f t = Outside Finished) ∨ ∃ t, f t ≠ Outside Finished.
Proof.
  induction n as [|n [IH|IH]]; [left; lia| |by right].
  assert (f n = Outside Finished ∨ f n ≠ Outside Finished) as [Hn|Hn]
    by (destruct (f n) as [[|]| | |]; auto; by right); [left|right; by exists n].
  intros t Ht. destruct (decide (t = n)) as [->|]; [done|]. apply IH. lia.
Qed.
End linear.

(** * Every execution ends *)

(** What a turn does to its thread. *)
Inductive advances : thread → thread → Prop :=
  | adv_lock op k : advances (Inside op (code op) k) (Outside (Call op k))
  | adv_access op m m' k : shrinks m' m → advances (Inside op m' k) (Inside op m k)
  | adv_return op m r k : advances (Leaving op r k) (Inside op m k)
  | adv_stop op m e k : advances (Stopped op e) (Inside op m k)
  | adv_unlock op r k : advances (Outside (k r)) (Leaving op r k).

Definition advances_below (n : nat) (f' f : nat → thread) : Prop :=
  ∃ t th, (t < n)%nat ∧ advances th (f t) ∧ f' = put t th f.

Section ends.
Lemma leaving_acc op r k : Acc advances (Outside (k r)) → Acc advances (Leaving op r k).
Proof. intros H. constructor. inversion 1; subst. exact H. Qed.

Lemma inside_acc op k m : (∀ r, Acc advances (Outside (k r))) → Acc advances (Inside op m k).
Proof.
  intros Hk. induction (shrinks_acc m) as [m _ IHm]. constructor. intros th Hth.
  remember (Inside op m k) as th0 eqn:E. destruct Hth; simplify_eq; auto using leaving_acc.
  constructor. inversion 1.
Qed.

Lemma outside_acc c : Acc advances (Outside c).
Proof.
  induction c as [|op k IH]; [constructor; inversion 1|]. constructor. intros th Hth.
  remember (Outside (Call op k)) as th0 eqn:E. destruct Hth; simplify_eq. by apply inside_acc.
Qed.

Lemma thread_acc th : Acc advances th.
Proof.
  destruct th as [c|op m k|op r k|op e]; [apply outside_acc|apply inside_acc|apply leaving_acc|];
    intros; try apply outside_acc. constructor. inversion 1.
Qed.

Lemma advances_below_acc n : ∀ f, Acc (advances_below n) f.
Proof.
  induction n as [|n IHn]; intros f; [constructor; by intros f' (t & th & ? & _); lia|].
  remember (f n) as th eqn:Hth. revert f Hth.
  induction (thread_acc th) as [th _ IHth]. intros f. induction (IHn f) as [f _ IHf]. intros Hth.
  constructor. intros f' (t & th' & Hlt & Hadv & ->).
  destruct (decide (t = n)) as [->|Hne].
  - apply (IHth th'); [by rewrite Hth|by rewrite put_same].
  - apply IHf; [|by rewrite put_other by congruence].
    exists t, th'. split; [lia|done].
Qed.

Lemma turn_advances t c c' :
  turn t c c' → ∃ th, advances th (threads c t) ∧ threads c' = put t th (threads c).
Proof.
  destruct 1 as [ms o ths op k x Ht|ms o ths op m k x m' x' Ht Hx Hs|ms o ths op m k x r x' Ht
    |ms o ths op m k x e x' Ht|ms o ths op r k Ht]; simpl; rewrite Ht; eexists; (split; [|done]).
  - constructor.
  - constructor. by exists x, x'.
  - constructor.
  - constructor.
  - constructor.
Qed.

(** [n] threads have turns in no order for ever. *)
Lemma turns_acc n c :
  (∀ t, (n ≤ t)%nat → threads c t = Outside Finished) → Acc (λ c' c, ∃ t, turn t c c') c.
Proof.
  remember (threads c) as f eqn:Hf. revert c Hf.
  induction (advances_below_acc n f) as [f _ IH]. intros c -> Hn. constructor.
  intros c' (t & Ht). pose proof (turn_advances _ _ _ Ht) as (th & Hadv & Hc').
  destruct (decide (t < n)%nat) as [Hlt|Hge].
  - apply (IH (threads c')); [by exists t, th|done|]. intros t' Ht'. rewrite Hc', put_other by lia. auto.
  - rewrite Hn in Hadv by lia. inversion Hadv.
Qed.
End ends.
End threads.
