(* ===== verification/Slab.v ===== *)
(** The memory of a cell: the bytes of the mapped file that lie in front of the
    cell header ([cell->slab] up to [cell->cell_header] in cell.h), as a finite
    map from offsets to bytes with a limit; reads and writes of byte strings and
    of little-endian 32-bit words; and the bounds-checked accesses the C code is
    made of. *)

From S2P Require Import Prelude Monad.
From coqutil Require Import Word.LittleEndianList.

(** A byte that was never written reads as zero: the file is created zero-filled
    ([cache_manager_create_file]). [s_lim] is the offset of the cell header, the
    first address the body and the overflow directory do not own. *)
Record slab := Slab { s_mem : gmap Z byte; s_lim : Z }.

Create HintDb slab.

(** ** Pure reads and writes *)

Definition rd1 (s : slab) (a : Z) : byte := default Byte.x00 (s_mem s !! a).

Fixpoint rd (s : slab) (a : Z) (n : nat) : list byte :=
  match n with
  | O => []
  | S n => rd1 s a :: rd s (a + 1) n
  end.

Fixpoint wr_mem (m : gmap Z byte) (a : Z) (bs : list byte) : gmap Z byte :=
  match bs with
  | [] => m
  | b :: bs => wr_mem (<[a := b]> m) (a + 1) bs
  end.

Definition wr (s : slab) (a : Z) (bs : list byte) : slab :=
  Slab (wr_mem (s_mem s) a bs) (s_lim s).

Definition rd32 (s : slab) (a : Z) : Z := le_combine (rd s a 4).
Definition wr32 (s : slab) (a w : Z) : slab := wr s a (le_split 4 w).

(** Two memories agree on the addresses [lo, hi). *)
Definition agree (s s' : slab) (lo hi : Z) : Prop :=
  s_lim s' = s_lim s ∧ ∀ i, lo ≤ i < hi → rd1 s' i = rd1 s i.

Section pure.
Implicit Types s : slab.

Lemma lim_wr s a bs : s_lim (wr s a bs) = s_lim s.
Proof. done. Qed.
Lemma lim_wr32 s a w : s_lim (wr32 s a w) = s_lim s.
Proof. done. Qed.

Lemma length_rd s a n : length (rd s a n) = n.
Proof. revert a. induction n; intros; simpl; [done|]. by rewrite IHn. Qed.

Lemma wr_mem_lookup m a bs i :
  wr_mem m a bs !! i =
    if decide (a ≤ i < a + Z.of_nat (length bs))
    then bs !! Z.to_nat (i - a) else m !! i.
Proof.
  revert m a. induction bs as [|b bs IH]; intros m a; simpl.
  - by rewrite decide_False by lia.
  - rewrite IH. destruct (decide (i = a)) as [->|].
    + rewrite decide_False by lia. rewrite decide_True by lia.
      rewrite lookup_insert_eq. by replace (Z.to_nat (a - a)) with 0%nat by lia.
    + destruct (decide (a ≤ i < a + Z.of_nat (S (length bs)))).
      * rewrite decide_True by lia.
        by replace (Z.to_nat (i - a)) with (S (Z.to_nat (i - (a + 1)))) by lia.
      * rewrite decide_False by lia. by rewrite lookup_insert_ne by lia.
Qed.

Lemma rd1_wr_out s a bs i :
  i < a ∨ a + Z.of_nat (length bs) ≤ i → rd1 (wr s a bs) i = rd1 s i.
Proof. intros. unfold rd1; simpl. rewrite wr_mem_lookup. by rewrite decide_False by lia. Qed.

Lemma rd1_wr_in s a bs i b :
  a ≤ i → bs !! Z.to_nat (i - a) = Some b → rd1 (wr s a bs) i = b.
Proof.
  intros Hi Hb. unfold rd1; simpl. rewrite wr_mem_lookup.
  pose proof (lookup_lt_Some _ _ _ Hb). rewrite decide_True by lia. by rewrite Hb.
Qed.

Lemma rd_lookup s a n i :
  (i < n)%nat → rd s a n !! i = Some (rd1 s (a + Z.of_nat i)).
Proof.
  revert a i. induction n as [|n IH]; intros a [|i] Hi; simpl; try lia.
  - by rewrite Z.add_0_r.
  - rewrite IH by lia. do 2 f_equal. lia.
Qed.

Lemma rd_ext s s' a n :
  (∀ i, a ≤ i < a + Z.of_nat n → rd1 s' i = rd1 s i) → rd s' a n = rd s a n.
Proof.
  revert a. induction n as [|n IH]; intros a H; simpl; [done|].
  rewrite H by lia. f_equal. apply IH. intros. apply H. lia.
Qed.

Lemma rd_app s a n m : rd s a (n + m) = rd s a n ++ rd s (a + Z.of_nat n) m.
Proof.
  revert a. induction n as [|n IH]; intros a; simpl.
  - by rewrite Z.add_0_r.
  - rewrite IH. do 3 f_equal. lia.
Qed.

Lemma rd_wr_same s a bs n : length bs = n → rd (wr s a bs) a n = bs.
Proof.
  intros <-. apply list_eq. intros i.
  destruct (decide (i < length bs)%nat) as [Hi|].
  - rewrite rd_lookup by done. destruct (lookup_lt_is_Some_2 bs i Hi) as [b Hb].
    rewrite Hb. f_equal. apply rd1_wr_in; [lia|].
    by replace (Z.to_nat (a + Z.of_nat i - a)) with i by lia.
  - rewrite !lookup_ge_None_2; [done|lia|]. rewrite length_rd. lia.
Qed.

Lemma rd_wr_out s a bs b n :
  b + Z.of_nat n ≤ a ∨ a + Z.of_nat (length bs) ≤ b → rd (wr s a bs) b n = rd s b n.
Proof. intros. apply rd_ext. intros. apply rd1_wr_out. lia. Qed.

Lemma rd32_wr32_same s a w : 0 ≤ w < 4294967296 → rd32 (wr32 s a w) a = w.
Proof.
  intros. unfold rd32, wr32. rewrite rd_wr_same by (by rewrite length_le_split).
  rewrite le_combine_split. by apply Z.mod_small.
Qed.

Lemma rd32_wr_out s a bs b :
  b + 4 ≤ a ∨ a + Z.of_nat (length bs) ≤ b → rd32 (wr s a bs) b = rd32 s b.
Proof. intros. unfold rd32. by rewrite rd_wr_out by lia. Qed.

Lemma rd32_wr32_out s a w b :
  b + 4 ≤ a ∨ a + 4 ≤ b → rd32 (wr32 s a w) b = rd32 s b.
Proof. intros. apply rd32_wr_out. rewrite length_le_split. lia. Qed.

Lemma rd_wr32_out s a w b n :
  b + Z.of_nat n ≤ a ∨ a + 4 ≤ b → rd (wr32 s a w) b n = rd s b n.
Proof. intros. apply rd_wr_out. rewrite length_le_split. lia. Qed.

Lemma rd32_bound s a : 0 ≤ rd32 s a < 4294967296.
Proof.
  unfold rd32. pose proof (le_combine_bound (rd s a 4)) as H.
  rewrite length_rd in H. done.
Qed.
End pure.

(** ** Agreement *)
Section agree.
Lemma agree_refl s lo hi : agree s s lo hi.
Proof. done. Qed.
Lemma agree_trans s1 s2 s3 lo hi : agree s1 s2 lo hi → agree s2 s3 lo hi → agree s1 s3 lo hi.
Proof. intros [Hl H] [Hl' H']. split; [congruence|]. intros. rewrite H', H; done. Qed.
Lemma agree_sym s s' lo hi : agree s s' lo hi → agree s' s lo hi.
Proof. intros [Hl H]. split; [done|]. intros. by rewrite H. Qed.
Lemma agree_sub s s' lo hi lo' hi' :
  agree s s' lo hi → lo ≤ lo' → hi' ≤ hi → agree s s' lo' hi'.
Proof. intros [Hl H] ??. split; [done|]. intros. apply H. lia. Qed.
Lemma agree_wr s a bs lo hi :
  hi ≤ a ∨ a + Z.of_nat (length bs) ≤ lo → agree s (wr s a bs) lo hi.
Proof. split; [done|]. intros. apply rd1_wr_out. lia. Qed.
Lemma agree_wr32 s a w lo hi : hi ≤ a ∨ a + 4 ≤ lo → agree s (wr32 s a w) lo hi.
Proof. intros. apply agree_wr. rewrite length_le_split. lia. Qed.
Lemma agree_rd s s' lo hi a n :
  agree s s' lo hi → lo ≤ a → a + Z.of_nat n ≤ hi → rd s' a n = rd s a n.
Proof. intros [_ H] ??. apply rd_ext. intros. apply H. lia. Qed.
Lemma agree_rd32 s s' lo hi a :
  agree s s' lo hi → lo ≤ a → a + 4 ≤ hi → rd32 s' a = rd32 s a.
Proof. intros. unfold rd32. by erewrite agree_rd by (done || lia). Qed.
Lemma agree_lim s s' lo hi : agree s s' lo hi → s_lim s' = s_lim s.
Proof. by intros [? _]. Qed.
End agree.

#[export] Hint Resolve agree_refl agree_sym : slab.

(** [slab_simpl] rewrites every read over the writes in front of it, leaving the
    disjointness of the two ranges to [lia]. *)
Ltac slab_side := first [ lia | rewrite ?length_le_split; lia | done ].
Ltac slab_simpl :=
  repeat first
    [ rewrite lim_wr | rewrite lim_wr32
    | rewrite rd32_wr32_same by slab_side
    | rewrite rd32_wr32_out by slab_side
    | rewrite rd_wr32_out by slab_side
    | rewrite rd_wr_same by slab_side
    | rewrite rd_wr_out by slab_side
    | rewrite rd32_wr_out by slab_side ].

(** ** Bounds-checked accesses *)

(** The C code has no such check: where an access of the model stops with [OutOfBounds], that
    of the code is undefined behaviour. *)

Definition in_slab (s : slab) (a n : Z) : bool := (0 <=? a) && (a + n <=? s_lim s).

Definition load32 (a : Z) : M slab Z := Do (λ s,
  if in_slab s a 4 then (Ok (rd32 s a), s) else (Err OutOfBounds, s)).
Definition store32 (a w : Z) : M slab unit := Do (λ s,
  if in_slab s a 4 then (Ok tt, wr32 s a w) else (Err OutOfBounds, s)).
Definition load_bytes (a : Z) (n : nat) : M slab (list byte) := Do (λ s,
  if in_slab s a (Z.of_nat n) then (Ok (rd s a n), s) else (Err OutOfBounds, s)).
Definition store_bytes (a : Z) (bs : list byte) : M slab unit := Do (λ s,
  if in_slab s a (Z.of_nat (length bs)) then (Ok tt, wr s a bs) else (Err OutOfBounds, s)).

Section access.
Lemma in_slab_true s a n : 0 ≤ a → a + n ≤ s_lim s → in_slab s a n = true.
Proof. intros. unfold in_slab. lia. Qed.

Lemma load32_ok s a : 0 ≤ a → a + 4 ≤ s_lim s → load32 a s = (Ok (rd32 s a), s).
Proof. intros. unfold load32, run. by rewrite in_slab_true. Qed.
Lemma store32_ok s a w : 0 ≤ a → a + 4 ≤ s_lim s → store32 a w s = (Ok tt, wr32 s a w).
Proof. intros. unfold store32, run. by rewrite in_slab_true. Qed.
Lemma load_bytes_ok s a n :
  0 ≤ a → a + Z.of_nat n ≤ s_lim s → load_bytes a n s = (Ok (rd s a n), s).
Proof. intros. unfold load_bytes, run. by rewrite in_slab_true. Qed.
Lemma store_bytes_ok s a bs :
  0 ≤ a → a + Z.of_nat (length bs) ≤ s_lim s → store_bytes a bs s = (Ok tt, wr s a bs).
Proof. intros. unfold store_bytes, run. by rewrite in_slab_true. Qed.
End access.

#[global] Arguments load32 : simpl never.
#[global] Arguments store32 : simpl never.
#[global] Arguments load_bytes : simpl never.
#[global] Arguments store_bytes : simpl never.
#[global] Arguments rd : simpl never.
#[global] Arguments wr : simpl never.
#[global] Arguments rd32 : simpl never.
#[global] Arguments wr32 : simpl never.

(** ** Footprints *)

(** Only the addresses [a, b) may differ. *)
Definition modifies (s s' : slab) (a b : Z) : Prop :=
  s_lim s' = s_lim s ∧ ∀ i, i < a ∨ b ≤ i → rd1 s' i = rd1 s i.

Section modifies.
Lemma modifies_refl s a b : modifies s s a b.
Proof. done. Qed.
Lemma modifies_trans s1 s2 s3 a b :
  modifies s1 s2 a b → modifies s2 s3 a b → modifies s1 s3 a b.
Proof. intros [? H] [? H']. split; [congruence|]. intros. by rewrite H', H. Qed.
Lemma modifies_weaken s s' a b a' b' :
  modifies s s' a b → a' ≤ a → b ≤ b' → modifies s s' a' b'.
Proof. intros [? H] ??. split; [done|]. intros. apply H. lia. Qed.
Lemma modifies_wr s x bs a b :
  a ≤ x → x + Z.of_nat (length bs) ≤ b → modifies s (wr s x bs) a b.
Proof. split; [done|]. intros. apply rd1_wr_out. lia. Qed.
Lemma modifies_wr32 s x w a b : a ≤ x → x + 4 ≤ b → modifies s (wr32 s x w) a b.
Proof. intros. apply modifies_wr; rewrite ?length_le_split; lia. Qed.
Lemma modifies_agree s s' a b lo hi :
  modifies s s' a b → hi ≤ a ∨ b ≤ lo → agree s s' lo hi.
Proof. intros [? H] ?. split; [done|]. intros. apply H. lia. Qed.
Lemma modifies_lim s s' a b : modifies s s' a b → s_lim s' = s_lim s.
Proof. by intros [? _]. Qed.
End modifies.
