(* ===== verification/Checksum.v ===== *)
(** checksum.c, chunk.c and chunk_ref.c: SHA-256 checksums, the chunk a caller
    gets back from the cache, and the reference to a chunk inside a buffer. *)

From S2P Require Import Prelude Monad.
From Stdlib Require Import Strings.Byte.

(** * Bytes *)

#[export] Instance byte_eq_dec : EqDecision byte := Byte.byte_eq_dec.
#[export] Instance byte_countable : Countable byte.
Proof. exact (inj_countable Byte.to_N Byte.of_N Byte.of_to_N). Defined.

(** [memcmp] of two blocks of the same length: zero, or the sign of the first
    difference (the C standard fixes no more than the sign). *)
Fixpoint memcmp (a b : list byte) : Z :=
  match a, b with
  | x :: a, y :: b =>
      if byte.unsigned x =? byte.unsigned y then memcmp a b
      else Z.sgn (byte.unsigned x - byte.unsigned y)
  | _, _ => 0
  end.

Lemma memcmp_eq a b : length a = length b → memcmp a b = 0 ↔ a = b.
Proof.
  revert b. induction a as [|x a IH]; intros [|y b] Hlen; simplify_eq/=; [done|].
  destruct (Z.eqb_spec (byte.unsigned x) (byte.unsigned y)) as [E|E].
  - apply byte.unsigned_inj in E as ->. rewrite IH by done. naive_solver.
  - split; [|naive_solver]. intros ?%Z.sgn_null_iff. lia.
Qed.

(** * checksum.c *)

Definition CHECKSUM_SIZE : nat := 32.

(** [struct checksum]: its bytes. *)
Abbreviation checksum := (list byte).
Definition checksum_wf (c : checksum) : Prop := length c = CHECKSUM_SIZE.

Definition checksum_init : checksum := replicate CHECKSUM_SIZE Byte.x00.

Definition checksum_compare (first second : checksum) : Z := memcmp first second.

Lemma checksum_compare_eq a b :
  checksum_wf a → checksum_wf b → checksum_compare a b = 0 ↔ a = b.
Proof. intros Ha Hb. apply memcmp_eq. by rewrite Ha, Hb. Qed.

(** [checksum->bytes[i]]. *)
Definition checksum_byte (i : nat) (c : checksum) : Z :=
  byte.unsigned (default Byte.x00 (c !! i)).

Lemma checksum_byte_bound i c : 0 ≤ checksum_byte i c < 256.
Proof. apply byte.unsigned_range. Qed.

Section gen.
(** [mh_sha256_init; mh_sha256_update; mh_sha256_finalize] of isa-l_crypto over
    one buffer: [MhSha256] has the real one. *)
Variable mh_sha256 : list byte → checksum.

Definition checksum_gen (buffer : list byte) (buffer_length : Z) : checksum :=
  mh_sha256 (take (Z.to_nat (u32 buffer_length)) buffer).
End gen.

(** * chunk.c *)

Definition CHUNK_MAX_BUFFER_SIZE : Z := 32768.

Record chunk := Chunk {
  chunk_checksum : checksum;
  chunk_buffer : list byte;
  chunk_buffer_size : Z; (* uint16_t *)
}.

Definition chunk_init : chunk :=
  Chunk checksum_init (replicate (Z.to_nat CHUNK_MAX_BUFFER_SIZE) Byte.x00) 0.

(** [memcpy] to the start of an array that holds [old]. *)
Definition memcpy_to (old new : list byte) : list byte := new ++ drop (length new) old.

(** [chunk_set(chunk, checksum, buffer, buffer_size)]; [buffer] holds the bytes from
    the pointer on. *)
Definition chunk_set (c : checksum) (buffer : list byte) (buffer_size : Z) : M chunk unit :=
  ALWAYS (buffer_size <=? CHUNK_MAX_BUFFER_SIZE);;
  modify (λ ch, Chunk c (chunk_buffer ch) (chunk_buffer_size ch));;
  bytes ← read_buffer buffer buffer_size;
  modify (λ ch, Chunk (chunk_checksum ch) (memcpy_to (chunk_buffer ch) bytes) (chunk_buffer_size ch));;
  modify (λ ch, Chunk (chunk_checksum ch) (chunk_buffer ch) (u16 buffer_size)).

(** The bytes a caller of [cell_get_chunk] sees. *)
Definition chunk_data (ch : chunk) : list byte :=
  take (Z.to_nat (chunk_buffer_size ch)) (chunk_buffer ch).

Lemma chunk_set_ok c buffer n ch :
  0 ≤ n ≤ CHUNK_MAX_BUFFER_SIZE → (Z.to_nat n ≤ length buffer)%nat →
  ∃ ch', chunk_set c buffer n ch = (Ok tt, ch')
    ∧ chunk_checksum ch' = c ∧ chunk_buffer_size ch' = n
    ∧ chunk_data ch' = take (Z.to_nat n) buffer
    ∧ (length (chunk_buffer ch) = Z.to_nat CHUNK_MAX_BUFFER_SIZE →
       length (chunk_buffer ch') = Z.to_nat CHUNK_MAX_BUFFER_SIZE).
Proof.
  unfold CHUNK_MAX_BUFFER_SIZE. intros Hn Hb. eexists. split.
  { unfold chunk_set. rewrite bind_ALWAYS by (unfold CHUNK_MAX_BUFFER_SIZE; lia). mnorm.
    mrun by (apply read_buffer_ok; lia). done. }
  unfold chunk_data, memcpy_to; simpl. rewrite u16_id by lia.
  split_and!; [done..| |].
  - rewrite take_app_le by (rewrite length_take; lia). rewrite take_take. f_equal. lia.
  - intros Hl. rewrite length_app, length_drop, length_take. lia.
Qed.

(** * chunk_ref.c *)

(** [buffer] is the bytes from the pointer on, [None] the null pointer. *)
Record chunk_ref := ChunkRef {
  chunk_ref_checksum : checksum;
  chunk_ref_buffer : option (list byte);
  chunk_ref_buffer_size : Z; (* uint32_t *)
}.

Definition chunk_ref_init : chunk_ref := ChunkRef checksum_init None 0.

Definition chunk_ref_set (mh_sha256 : list byte → checksum)
    (buffer : list byte) (buffer_size : Z) : chunk_ref :=
  ChunkRef (checksum_gen mh_sha256 buffer buffer_size) (Some buffer) (u32 buffer_size).
