(* ===== verification/Sha256.v ===== *)
(** SHA-256 as the copy of isa-l_crypto under src/third-party computes it: the functions of
    sha256_for_mh_sha256.c, which end a multi-hash, and the standard they implement. *)

From S2P Require Import Prelude Checksum.
From coqutil Require Import Word.LittleEndianList.

(** [l !!! i] is [l[i]] of an array of words, and 0 where there is none. *)
#[export] Instance zero_word : Inhabited Z := populate 0.

(** * Words of 32 bits *)

(** The macros of mh_sha256_internal.h, on values of type [uint32_t]. *)
Definition ror32 (x r : Z) : Z := Z.lxor (Z.shiftr x r) (u32 (Z.shiftl x (32 - r))).

Definition S0 (w : Z) : Z := Z.lxor (Z.lxor (ror32 w 7) (ror32 w 18)) (Z.shiftr w 3).
Definition S1 (w : Z) : Z := Z.lxor (Z.lxor (ror32 w 17) (ror32 w 19)) (Z.shiftr w 10).
Definition s0 (a : Z) : Z := Z.lxor (Z.lxor (ror32 a 2) (ror32 a 13)) (ror32 a 22).
Definition s1 (e : Z) : Z := Z.lxor (Z.lxor (ror32 e 6) (ror32 e 11)) (ror32 e 25).
Definition maj (a b c : Z) : Z := Z.lxor (Z.lxor (Z.land a b) (Z.land a c)) (Z.land b c).
Definition ch (e f g : Z) : Z := Z.lxor (Z.land e f) (Z.land g (u32 (Z.lnot e))).

(** endian_helper.h on a little-endian machine: the bytes in the other order. *)
Definition byteswap32 (x : Z) : Z := le_combine (rev (le_split 4 x)).
Definition byteswap64 (x : Z) : Z := le_combine (rev (le_split 8 x)).
Definition to_be32 (x : Z) : Z := byteswap32 x.
Definition to_be64 (x : Z) : Z := byteswap64 x.

(** A block of bytes read through a [uint32_t *], and an array of words as bytes. *)
Fixpoint words_of (bytes : list byte) : list Z :=
  match bytes with
  | b0 :: b1 :: b2 :: b3 :: bytes => le_combine [b0; b1; b2; b3] :: words_of bytes
  | _ => []
  end.
Definition bytes_of (words : list Z) : list byte := flat_map (le_split 4) words.

(** [memcpy] of [bytes] to offset [off] of [l]. *)
Definition put_at (off : nat) (bytes l : list byte) : list byte :=
  take off l ++ bytes ++ drop (off + length bytes) l.

(** * The constants *)

Definition SHA256_BLOCK_SIZE : nat := 64.
Definition SHA256_DIGEST_WORDS : nat := 8.

(** [MH_SHA256_H0] to [MH_SHA256_H7]. *)
Definition MH_SHA256_H : list Z :=
  [0x6a09e667; 0xbb67ae85; 0x3c6ef372; 0xa54ff53a; 0x510e527f; 0x9b05688c; 0x1f83d9ab; 0x5be0cd19].

(** The table [k] of [mh_sha256_single] in its rows of four, and the last arguments of the 64 steps of
    [sha256_single_for_mh_sha256]. *)
Definition k : list Z := mjoin [
  [0x428a2f98; 0x71374491; 0xb5c0fbcf; 0xe9b5dba5]; [0x3956c25b; 0x59f111f1; 0x923f82a4; 0xab1c5ed5];
  [0xd807aa98; 0x12835b01; 0x243185be; 0x550c7dc3]; [0x72be5d74; 0x80deb1fe; 0x9bdc06a7; 0xc19bf174];
  [0xe49b69c1; 0xefbe4786; 0x0fc19dc6; 0x240ca1cc]; [0x2de92c6f; 0x4a7484aa; 0x5cb0a9dc; 0x76f988da];
  [0x983e5152; 0xa831c66d; 0xb00327c8; 0xbf597fc7]; [0xc6e00bf3; 0xd5a79147; 0x06ca6351; 0x14292967];
  [0x27b70a85; 0x2e1b2138; 0x4d2c6dfc; 0x53380d13]; [0x650a7354; 0x766a0abb; 0x81c2c92e; 0x92722c85];
  [0xa2bfe8a1; 0xa81a664b; 0xc24b8b70; 0xc76c51a3]; [0xd192e819; 0xd6990624; 0xf40e3585; 0x106aa070];
  [0x19a4c116; 0x1e376c08; 0x2748774c; 0x34b0bcb5]; [0x391c0cb3; 0x4ed8aa4a; 0x5b9cca4f; 0x682e6ff3];
  [0x748f82ee; 0x78a5636f; 0x84c87814; 0x8cc70208]; [0x90befffa; 0xa4506ceb; 0xbef9a3f7; 0xc67178f2]].

(** * The steps *)

(** The variables [a] to [h]. *)
Record vars (A : Type) := Vars { va : A; vb : A; vc : A; vd : A; ve : A; vf : A; vg : A; vh : A }.
#[global] Arguments Vars {A}.
#[global] Arguments va {A}. #[global] Arguments vb {A}. #[global] Arguments vc {A}. #[global] Arguments vd {A}.
#[global] Arguments ve {A}. #[global] Arguments vf {A}. #[global] Arguments vg {A}. #[global] Arguments vh {A}.

Section rotated.
(** A step with its number, the variables in the order they have in it, the constant and the
    array [w]: what it makes of its [d], its [h] and the array. *)
Context {A W : Type} (step : nat → A → A → A → A → A → A → A → A → Z → W → A * A * W).

(** Eight steps, in which each variable takes each role once. *)
Definition eight_steps (i : nat) (x : vars A * W) : vars A * W :=
  let '(Vars a b c d e f g h, w) := x in
  let '(d, h, w) := step i a b c d e f g h (k !!! i) w in
  let '(c, g, w) := step (i + 1)%nat h a b c d e f g (k !!! (i + 1)%nat) w in
  let '(b, f, w) := step (i + 2)%nat g h a b c d e f (k !!! (i + 2)%nat) w in
  let '(a, e, w) := step (i + 3)%nat f g h a b c d e (k !!! (i + 3)%nat) w in
  let '(h, d, w) := step (i + 4)%nat e f g h a b c d (k !!! (i + 4)%nat) w in
  let '(g, c, w) := step (i + 5)%nat d e f g h a b c (k !!! (i + 5)%nat) w in
  let '(f, b, w) := step (i + 6)%nat c d e f g h a b (k !!! (i + 6)%nat) w in
  let '(e, a, w) := step (i + 7)%nat b c d e f g h a (k !!! (i + 7)%nat) w in
  (Vars a b c d e f g h, w).

(** [for (i = 0; i < 64; i += 8)]. *)
Definition sixty_four_steps (x : vars A * W) : vars A * W :=
  foldl (λ x i, eight_steps i x) x [0; 8; 16; 24; 32; 40; 48; 56]%nat.
End rotated.

(** * sha256_for_mh_sha256.c *)

(** The macro [W(x)]. *)
Definition Wx (w : list Z) (x : nat) : Z := w !!! (x mod 16)%nat.

(** The macro [step]: [ww] is the block as words. *)
Definition sha256_step (ww : list Z) (i : nat) (a b c d e f g h k : Z) (w : list Z) : Z * Z * list Z :=
  let w := <[(i mod 16)%nat :=
      if (i <? 16)%nat then to_be32 (ww !!! i)
      else u32 (Wx w (i - 16) + S0 (Wx w (i - 15)) + Wx w (i - 7) + S1 (Wx w (i - 2)))]> w in
  let t2 := u32 (s0 a + maj a b c) in
  let t1 := u32 (h + s1 e + ch e f g + k + Wx w i) in
  (u32 (d + t1), u32 (t1 + t2), w).

(** [digest[0]] to [digest[7]], and adding to them. *)
Definition load_vars {A} `{Inhabited A} (digest : list A) : vars A :=
  Vars (digest !!! 0%nat) (digest !!! 1%nat) (digest !!! 2%nat) (digest !!! 3%nat)
       (digest !!! 4%nat) (digest !!! 5%nat) (digest !!! 6%nat) (digest !!! 7%nat).
Definition list_of_vars {A} (x : vars A) : list A := [va x; vb x; vc x; vd x; ve x; vf x; vg x; vh x].
Definition add_vars (digest : list Z) (x : vars Z) : list Z :=
  zip_with (λ y v, u32 (y + v)) digest (list_of_vars x).

(** The array [w], which the first 16 steps fill. *)
Definition sha256_single_for_mh_sha256 (ww : list Z) (digest : list Z) : list Z :=
  add_vars digest
    (sixty_four_steps (sha256_step ww) (load_vars digest, replicate 16 0)).1.

(** The loop over whole blocks: what is left of the input, and how much. *)
Fixpoint sha256_loop (fuel : nat) (input_data : list byte) (i : nat) (digest : list Z)
    : list byte * nat * list Z :=
  match fuel with
  | O => (input_data, i, digest)
  | S fuel =>
      if (SHA256_BLOCK_SIZE <=? i)%nat
      then sha256_loop fuel (drop SHA256_BLOCK_SIZE input_data) (i - SHA256_BLOCK_SIZE)
             (sha256_single_for_mh_sha256 (words_of (take SHA256_BLOCK_SIZE input_data)) digest)
      else (input_data, i, digest)
  end.

(** [buf] is 128 bytes, of which the last eight are not initialised. *)
Definition sha256_for_mh_sha256 (input_data : list byte) (len : nat) : list Z :=
  let '(input_data, i, digest) := sha256_loop (len / SHA256_BLOCK_SIZE) input_data len MH_SHA256_H in
  let buf := take i input_data ++ [Byte.x80] in
  let i := S i in
  let buf := buf ++ replicate (2 * SHA256_BLOCK_SIZE - 8 - i) Byte.x00 in
  let i := if (SHA256_BLOCK_SIZE - 8 <? i)%nat then (2 * SHA256_BLOCK_SIZE)%nat else SHA256_BLOCK_SIZE in
  let buf := put_at (i - 8) (le_split 8 (to_be64 (u64 (Z.of_nat len * 8)))) buf in
  let digest := sha256_single_for_mh_sha256 (words_of (take SHA256_BLOCK_SIZE buf)) digest in
  if (i =? 2 * SHA256_BLOCK_SIZE)%nat
  then sha256_single_for_mh_sha256
         (words_of (take SHA256_BLOCK_SIZE (drop SHA256_BLOCK_SIZE buf))) digest
  else digest.

(** SHA-256 of the empty message and of "abc", as the standard gives them. *)
Example sha256_empty :
  sha256_for_mh_sha256 [] 0 =
    [0xe3b0c442; 0x98fc1c14; 0x9afbf4c8; 0x996fb924; 0x27ae41e4; 0x649b934c; 0xa495991b; 0x7852b855].
Proof. vm_compute. reflexivity. Qed.
Example sha256_abc :
  sha256_for_mh_sha256 [Byte.x61; Byte.x62; Byte.x63] 3 =
    [0xba7816bf; 0x8f01cfea; 0x414140de; 0x5dae2223; 0xb00361a3; 0x96177a9c; 0xb410ff61; 0xf20015ad].
Proof. vm_compute. reflexivity. Qed.
