(* ===== verification/Sha256Spec.v ===== *)
(** SHA-256 and multi-hash SHA-256 as their documents give them (FIPS 180-4, mh_sha256.h), and
    that the functions of sha256_for_mh_sha256.c compute SHA-256. *)

From S2P Require Import Prelude Checksum Sha256.
From coqutil Require Import Word.LittleEndianList.

(** * The standard *)

(** The message schedule, one word after the other: the words [m] of the block, then each
    from those before it. *)
Definition next_word (m ws : list Z) : Z :=
  let t := length ws in
  if (t <? 16)%nat then m !!! t
  else u32 (S1 (ws !!! (t - 2)%nat) + ws !!! (t - 7)%nat + S0 (ws !!! (t - 15)%nat) + ws !!! (t - 16)%nat).

Fixpoint grow {A} (f : list A → A) (n : nat) : list A :=
  match n with
  | O => []
  | S n => let l := grow f n in l ++ [f l]
  end.

Definition schedule (m : list Z) : list Z := grow (next_word m) 64.

(** A round: [w] is the word of the schedule and [k] the constant. *)
Definition round (x : vars Z) (k w : Z) : vars Z :=
  let '(Vars a b c d e f g h) := x in
  let t1 := u32 (h + s1 e + ch e f g + k + w) in
  let t2 := u32 (s0 a + maj a b c) in
  Vars (u32 (t1 + t2)) a b c (u32 (d + t1)) e f g.

Definition rounds (ws : list Z) (ts : list nat) (x : vars Z) : vars Z :=
  foldl (λ x t, round x (k !!! t) (ws !!! t)) x ts.

(** The compression of a block of 16 big-endian words. *)
Definition compress (digest m : list Z) : list Z :=
  add_vars digest (rounds (schedule m) (seq 0 64) (load_vars digest)).

Fixpoint be_words (bytes : list byte) : list Z :=
  match bytes with
  | b0 :: b1 :: b2 :: b3 :: bytes => le_combine [b3; b2; b1; b0] :: be_words bytes
  | _ => []
  end.

(** The padding to whole blocks of [block] bytes: a bit, zeros as few as it takes, and the
    number of bits of the message in eight bytes. *)
Definition padding (block len : nat) : list byte :=
  Byte.x80 :: replicate (Z.to_nat ((- (Z.of_nat len + 9)) `mod` Z.of_nat block)) Byte.x00
    ++ rev (le_split 8 (Z.of_nat len * 8)).
Definition padded (block : nat) (message : list byte) : list byte := message ++ padding block (length message).

Definition blocks (block : nat) (bytes : list byte) : list (list byte) :=
  (λ i, take block (drop (i * block) bytes)) <$> seq 0 (length bytes / block).

Definition SHA256 (message : list byte) : list Z :=
  foldl (λ digest b, compress digest (be_words b)) MH_SHA256_H (blocks 64 (padded 64 message)).

(** Multi-hash: the words of the padded message go to 16 segments in turn, each segment is
    hashed by itself, and SHA-256 of all their digests ends it. *)
Definition segment (s : nat) (block : list byte) : list Z :=
  (λ i, be_words block !!! (16 * i + s)%nat) <$> seq 0 16.
Definition segment_digest (s : nat) (bs : list (list byte)) : list Z :=
  foldl (λ digest b, compress digest (segment s b)) MH_SHA256_H bs.
Definition segments_bytes (digests : nat → list Z) : list byte :=
  bytes_of (mjoin ((λ i, (λ s, digests s !!! i) <$> seq 0 16) <$> seq 0 8)).

(** The digest as it lies in memory: eight words, each in the byte order of the machine. *)
Definition MH_SHA256 (message : list byte) : checksum :=
  bytes_of (SHA256 (segments_bytes (λ s, segment_digest s (blocks 1024 (padded 1024 message))))).

(** * Lemmas *)

(** ** Growing lists *)
Section grow.
Context {A : Type} (f : list A → A).

Lemma grow_length n : length (grow f n) = n.
Proof. induction n as [|n IH]; [done|]. simpl. rewrite length_app, IH. simpl. lia. Qed.

Lemma grow_take i n : (i ≤ n)%nat → take i (grow f n) = grow f i.
Proof.
  induction 1 as [|n Hn IH]; [by rewrite take_ge by by rewrite grow_length|].
  simpl. rewrite take_app_le by by rewrite grow_length. done.
Qed.

Lemma grow_lookup i n : (i < n)%nat → grow f n !! i = Some (f (grow f i)).
Proof.
  intros Hi. rewrite <-(lookup_take_lt _ (S i)) by lia. rewrite grow_take by lia. simpl.
  rewrite lookup_app_r by by rewrite grow_length. by rewrite grow_length, Nat.sub_diag.
Qed.
End grow.

Lemma schedule_word m t :
  (t < 64)%nat → schedule m !!! t =
    if (t <? 16)%nat then m !!! t
    else u32 (S1 (schedule m !!! (t - 2)%nat) + schedule m !!! (t - 7)%nat
              + S0 (schedule m !!! (t - 15)%nat) + schedule m !!! (t - 16)%nat).
Proof.
  intros Ht. unfold schedule at 1. rewrite (list_lookup_total_correct _ _ _ (grow_lookup _ _ _ Ht)).
  unfold next_word. rewrite grow_length. destruct (Nat.ltb_spec t 16); [done|].
  assert (Hat : ∀ j, (j < t)%nat → grow (next_word m) t !!! j = schedule m !!! j).
  { intros j Hj. unfold schedule. rewrite <-(grow_take _ t 64) by lia.
    by rewrite lookup_total_take_lt. }
  by rewrite !Hat by lia.
Qed.

(** ** Words *)

Lemma byteswap_combine bs : length bs = 4%nat → byteswap32 (le_combine bs) = le_combine (rev bs).
Proof. intros H. unfold byteswap32. by rewrite <-H, split_le_combine. Qed.

Lemma be_words_of bytes : be_words bytes = to_be32 <$> words_of bytes.
Proof.
  induction bytes as [bytes IH] using (well_founded_induction (well_founded_ltof _ length)).
  destruct bytes as [|b0 [|b1 [|b2 [|b3 bytes]]]]; [done..|]. cbn [be_words words_of fmap list_fmap].
  rewrite (IH bytes) by (unfold ltof; simpl; lia). f_equal. unfold to_be32. by rewrite byteswap_combine.
Qed.

Lemma be_word_at bytes i : be_words bytes !!! i = to_be32 (words_of bytes !!! i).
Proof.
  rewrite be_words_of. rewrite !list_lookup_total_alt, list_lookup_fmap.
  destruct (words_of bytes !! i); [done|by vm_compute].
Qed.

(** * sha256_single_for_mh_sha256 *)
Section single.
Context (m ww : list Z).
Hypothesis m_words : ∀ t, (t < 16)%nat → m !!! t = to_be32 (ww !!! t).

(** The last 16 words before [i]. *)
Definition window (i : nat) (w : list Z) : Prop :=
  length w = 16%nat ∧ ∀ j, (j < i)%nat → (i ≤ j + 16)%nat → Wx w j = schedule m !!! j.

(** The word a step puts into the array. *)
Lemma window_next i w :
  (i < 64)%nat → window i w →
  (if (i <? 16)%nat then to_be32 (ww !!! i)
   else u32 (Wx w (i - 16) + S0 (Wx w (i - 15)) + Wx w (i - 7) + S1 (Wx w (i - 2)))) = schedule m !!! i.
Proof.
  intros Hi [_ Hw]. rewrite schedule_word by done. destruct (Nat.ltb_spec i 16); [by rewrite m_words|].
  rewrite !Hw by lia. f_equal. lia.
Qed.

Lemma window_step i w :
  window i w → window (S i) (<[(i mod 16)%nat := schedule m !!! i]> w)
  ∧ Wx (<[(i mod 16)%nat := schedule m !!! i]> w) i = schedule m !!! i.
Proof.
  intros [Hlen Hw]. pose proof (Nat.mod_upper_bound i 16 ltac:(lia)) as Hm.
  assert (Hi : Wx (<[(i mod 16)%nat := schedule m !!! i]> w) i = schedule m !!! i).
  { apply list_lookup_total_insert_eq. lia. }
  split; [|done]. split; [by rewrite length_insert|]. intros j Hj Hij.
  destruct (decide (j = i)) as [->|Hne]; [done|]. rewrite <-(Hw j) by lia.
  apply list_lookup_total_insert_ne. intros Heq.
  pose proof (Nat.div_mod_eq i 16). pose proof (Nat.div_mod_eq j 16). lia.
Qed.

(** A step is a round: what it makes of [d] and [h] takes the places of [e] and [a]. *)
Lemma sha256_step_round i a b c d e f g h w :
  (i < 64)%nat → window i w →
  ∃ d' h' w', sha256_step ww i a b c d e f g h (k !!! i) w = (d', h', w') ∧
    round (Vars a b c d e f g h) (k !!! i) (schedule m !!! i) = Vars h' a b c d' e f g ∧ window (S i) w'.
Proof.
  intros Hi Hw. destruct (window_step i w Hw) as [Hw' Hi']. eexists _, _, _. split; [|split; [|exact Hw']].
  - unfold sha256_step. rewrite window_next by done. rewrite Hi'. reflexivity.
  - reflexivity.
Qed.

Lemma rounds_cons t ts x :
  rounds (schedule m) (t :: ts) x = rounds (schedule m) ts (round x (k !!! t) (schedule m !!! t)).
Proof. done. Qed.

(** One of eight. *)
Local Ltac round_step := match goal with
  | Hw : window ?i ?w |- context [sha256_step _ ?i ?a ?b ?c ?d ?e ?f ?g ?h (k !!! ?i) ?w] =>
      destruct (sha256_step_round i a b c d e f g h w ltac:(lia) Hw) as (? & ? & ? & -> & Hr & ?);
      rewrite rounds_cons, Hr; clear Hr Hw
  end.

Lemma eight_steps_rounds i x w :
  (i + 8 ≤ 64)%nat → window i w →
  ∃ w', eight_steps (sha256_step ww) i (x, w) = (rounds (schedule m) (seq i 8) x, w') ∧ window (i + 8) w'.
Proof.
  intros Hi Hw. destruct x as [a b c d e f g h]. cbn [seq]. unfold eight_steps.
  rewrite !(Nat.add_comm i). cbn [Nat.add] in *.
  do 8 round_step. eexists. split; [reflexivity|done].
Qed.

Lemma sixty_four_rounds x w :
  length w = 16%nat → ∃ w', sixty_four_steps (sha256_step ww) (x, w) = (rounds (schedule m) (seq 0 64) x, w').
Proof.
  intros Hw. assert (H : window 0 w) by (split; [done|lia]). unfold sixty_four_steps.
  change (seq 0 64) with (seq 0 8 ++ seq 8 8 ++ seq 16 8 ++ seq 24 8 ++ seq 32 8 ++ seq 40 8 ++ seq 48 8 ++ seq 56 8).
  unfold rounds. rewrite !foldl_app. cbn [foldl]. 
  do 8 (match goal with
    | H : window ?i ?w |- context [eight_steps _ ?i (?x, ?w)] =>
        let H' := fresh in let E := fresh in
        destruct (eight_steps_rounds i x w ltac:(lia) H) as (? & E & H'); rewrite E; clear E H; cbn [Nat.add] in H'
    end). eexists. reflexivity.
Qed.

Lemma sha256_single_compress digest : sha256_single_for_mh_sha256 ww digest = compress digest m.
Proof.
  unfold sha256_single_for_mh_sha256, compress.
  destruct (sixty_four_rounds (load_vars digest) (replicate 16 0) eq_refl) as (w' & ->). done.
Qed.
End single.

Lemma sha256_single_spec bytes digest :
  sha256_single_for_mh_sha256 (words_of bytes) digest = compress digest (be_words bytes).
Proof. apply sha256_single_compress. intros t _. apply be_word_at. Qed.

(** * Blocks *)
Section blocks.
Context (B : nat) (B_pos : (0 < B)%nat).
Implicit Types x y : list byte.

Lemma blocks_cons x y : length x = B → blocks B (x ++ y) = x :: blocks B y.
Proof.
  intros Hx. unfold blocks. rewrite length_app, Hx.
  replace ((B + length y) / B)%nat with (S (length y / B)).
  2: { replace (B + length y)%nat with (length y + 1 * B)%nat by lia. rewrite Nat.div_add by lia. lia. }
  cbn [seq fmap list_fmap]. rewrite Nat.mul_0_l, drop_0, take_app_length' by done. f_equal.
  rewrite <-fmap_S_seq, <-list_fmap_compose. apply list_fmap_ext. intros _ i _. simpl.
  by rewrite drop_app_add' by lia.
Qed.

Lemma blocks_short x : (length x < B)%nat → blocks B x = [].
Proof. intros H. unfold blocks. by rewrite Nat.div_small. Qed.

Lemma blocks_one x : length x = B → blocks B x = [x].
Proof. intros H. rewrite <-(app_nil_r x), blocks_cons by done. by rewrite blocks_short, app_nil_r by (simpl; lia). Qed.

Lemma blocks_app n : ∀ x y, length x = (n * B)%nat → blocks B (x ++ y) = blocks B x ++ blocks B y.
Proof.
  induction n as [|n IH]; intros x y Hx.
  { destruct x; [|done]. by rewrite (blocks_short []) by (simpl; lia). }
  rewrite <-(take_drop B x), <-app_assoc, !(blocks_cons (take B x)) by (rewrite length_take; lia).
  by rewrite IH by (rewrite length_drop; lia).
Qed.

(** The padding fills the last block, or that and another one. *)
Lemma padding_length len :
  let r := (len mod B)%nat in
  (9 ≤ B)%nat → padding B len = Byte.x80 ::
    replicate ((if (r + 9 <=? B)%nat then B else 2 * B) - 9 - r) Byte.x00 ++ rev (le_split 8 (Z.of_nat len * 8)).
Proof.
  intros r HB. unfold padding. do 3 f_equal. pose proof (Nat.div_mod_eq len B) as Hd. fold r in Hd.
  pose proof (Nat.mod_upper_bound len B ltac:(lia)) as Hr. fold r in Hr.
  set (q := (len / B)%nat) in *. destruct (Nat.leb_spec (r + 9) B).
  - rewrite <-(Z.mod_unique_pos (- (Z.of_nat len + 9)) (Z.of_nat B) (- Z.of_nat q - 1) (Z.of_nat (B - 9 - r))); nia.
  - rewrite <-(Z.mod_unique_pos (- (Z.of_nat len + 9)) (Z.of_nat B) (- Z.of_nat q - 2) (Z.of_nat (2 * B - 9 - r))); nia.
Qed.
End blocks.

Lemma length_bytes : ∀ n z, length (rev (le_split n z)) = n.
Proof. intros. by rewrite length_rev, length_le_split. Qed.

Lemma to_be64_bytes x : 0 ≤ x < 18446744073709551616 → le_split 8 (to_be64 (u64 x)) = rev (le_split 8 x).
Proof.
  intros Hx. rewrite u64_id by done. unfold to_be64, byteswap64.
  rewrite <-(length_bytes 8 x) at 1. apply split_le_combine.
Qed.

(** * sha256_for_mh_sha256 *)

Definition hash_blocks (digest : list Z) (bs : list (list byte)) : list Z :=
  foldl (λ digest b, compress digest (be_words b)) digest bs.

Lemma sha256_loop_spec n : ∀ data r digest,
  length data = (n * 64 + r)%nat → (r < 64)%nat →
  sha256_loop n data (length data) digest =
    (drop (n * 64) data, r, hash_blocks digest (blocks 64 (take (n * 64) data))).
Proof.
  induction n as [|n IH]; intros data r digest Hlen Hr; cbn [sha256_loop].
  { simpl in *. by rewrite Hlen, drop_0. }
  unfold SHA256_BLOCK_SIZE in *. destruct (Nat.leb_spec 64 (length data)); [|lia].
  replace (length data - 64)%nat with (length (drop 64 data)) by (rewrite length_drop; lia).
  rewrite (IH _ r) by (rewrite ?length_drop; lia). rewrite drop_drop, sha256_single_spec.
  replace (S n * 64)%nat with (64 + n * 64)%nat by lia. rewrite <-take_take_drop.
  by rewrite blocks_cons by (rewrite ?length_take; lia).
Qed.

(** The last block or two: what is left of the message, and the padding. *)
Lemma last_blocks digest rest len :
  let r := (len mod 64)%nat in
  length rest = r → Z.of_nat len < 4294967296 →
  let i := if (56 <? S r)%nat then 128%nat else 64%nat in
  let buf := put_at (i - 8) (le_split 8 (to_be64 (u64 (Z.of_nat len * 8))))
    ((rest ++ [Byte.x80]) ++ replicate (120 - S r) Byte.x00) in
  (if (i =? 128)%nat
   then sha256_single_for_mh_sha256 (words_of (take 64 (drop 64 buf)))
          (sha256_single_for_mh_sha256 (words_of (take 64 buf)) digest)
   else sha256_single_for_mh_sha256 (words_of (take 64 buf)) digest) =
  hash_blocks digest (blocks 64 (rest ++ padding 64 len)).
Proof.
  intros r Hrest Hlen i buf. pose proof (Nat.mod_upper_bound len 64 ltac:(lia)) as Hr. fold r in Hr.
  assert (Hi : i = (if (r + 9 <=? 64)%nat then 64 else 2 * 64)%nat).
  { subst i. destruct (Nat.ltb_spec 56 (S r)), (Nat.leb_spec (r + 9) 64); lia. }
  assert (Hir : (r + 9 ≤ i ≤ 128)%nat) by (rewrite Hi; destruct (Nat.leb_spec (r + 9) 64); lia).
  assert (Hfront : take (i - 8) ((rest ++ [Byte.x80]) ++ replicate (120 - S r) Byte.x00) =
    rest ++ Byte.x80 :: replicate (i - 9 - r) Byte.x00).
  { rewrite <-app_assoc, take_app, take_ge, Hrest by lia. f_equal.
    replace (i - 8 - r)%nat with (S (i - 9 - r)) by lia. cbn [app take]. rewrite take_replicate. do 2 f_equal. lia. }
  assert (Hbuf : take i buf = rest ++ padding 64 len).
  { rewrite padding_length by lia. fold r. rewrite <-Hi. unfold buf, put_at.
    rewrite Hfront, length_le_split, to_be64_bytes by lia.
    rewrite app_assoc, take_app_length'; [by rewrite <-app_assoc|].
    rewrite !length_app, length_bytes. cbn [length]. rewrite length_replicate. lia. }
  assert (Hlb : length (rest ++ padding 64 len) = i).
  { rewrite <-Hbuf, length_take. unfold buf, put_at. rewrite !length_app, Hfront, length_le_split, length_app.
    cbn [length]. rewrite length_replicate. lia. }
  rewrite <-Hbuf. destruct (Nat.eqb_spec i 128) as [E|E].
  - rewrite E in *. rewrite <-Hbuf, length_take in Hlb. change (take 128 buf) with (take (64 + 64) buf). rewrite <-(take_take_drop buf 64 64).
    rewrite blocks_cons, blocks_one by (rewrite ?length_take, ?length_drop; lia).
    by rewrite !sha256_single_spec.
  - assert (i = 64%nat) as E' by (rewrite Hi in *; by destruct (r + 9 <=? 64)%nat).
    rewrite E' in *. rewrite <-Hbuf, length_take in Hlb. rewrite blocks_one by (rewrite ?length_take; lia). by rewrite sha256_single_spec.
Qed.

Theorem sha256_for_mh_sha256_spec data :
  Z.of_nat (length data) < 4294967296 → sha256_for_mh_sha256 data (length data) = SHA256 data.
Proof.
  intros Hlen. unfold sha256_for_mh_sha256, SHA256, padded. unfold SHA256_BLOCK_SIZE.
  set (n := (length data / 64)%nat). set (r := (length data mod 64)%nat).
  pose proof (Nat.div_mod_eq (length data) 64) as Hd. fold n r in Hd.
  pose proof (Nat.mod_upper_bound (length data) 64 ltac:(lia)) as Hr. fold r in Hr.
  rewrite (sha256_loop_spec n data r) by lia.
  rewrite (take_ge (drop (n * 64) data)) by (rewrite length_drop; lia).
  assert (Hm : data ++ padding 64 (length data) = take (n * 64) data ++ (drop (n * 64) data ++ padding 64 (length data)))
    by by rewrite app_assoc, take_drop.
  rewrite Hm, (blocks_app 64 ltac:(lia) n) by (rewrite length_take; lia).
  unfold hash_blocks. rewrite foldl_app. apply (last_blocks _ (drop (n * 64) data) (length data)); [rewrite length_drop; fold r; lia|done].
Qed.

(** The eight words of the digest. *)
Lemma length_add_vars digest x : length digest = 8%nat → length (add_vars digest x) = 8%nat.
Proof. intros H. unfold add_vars. by rewrite length_zip_with, H. Qed.

Lemma length_sha256_loop fuel : ∀ data i digest,
  length digest = 8%nat → length (sha256_loop fuel data i digest).2 = 8%nat.
Proof.
  induction fuel as [|fuel IH]; intros data i digest H; [done|]. simpl.
  case_match; [|done]. apply IH. by apply length_add_vars.
Qed.

Lemma length_sha256_for data len : length (sha256_for_mh_sha256 data len) = 8%nat.
Proof.
  unfold sha256_for_mh_sha256. pose proof (length_sha256_loop (len / SHA256_BLOCK_SIZE) data len MH_SHA256_H eq_refl) as H.
  destruct (sha256_loop _ _ _ _) as [[rest i] digest]. cbn [snd] in H. cbv zeta.
  case_match; repeat apply length_add_vars; done.
Qed.
