(* ===== verification/MhSha256.v ===== *)
(** Multi-hash SHA-256, which checksum.c calls: mh_sha256.c, mh_sha256_block_base.c,
    mh_sha256_update_base.c and mh_sha256_finalize_base.c of the copy of isa-l_crypto under
    src/third-party, in their portable version, and the reference of mh_sha256_ref.c.  A
    message is dealt out word by word to 16 segments that are hashed side by side, and SHA-256
    of their digests is the digest of the message. *)

From S2P Require Import Prelude Checksum Sha256.
From coqutil Require Import Word.LittleEndianList.

Definition HASH_SEGS : nat := 16.
Definition MH_SHA256_BLOCK_SIZE : nat := HASH_SEGS * SHA256_BLOCK_SIZE.

(** An array with a word for each segment, and the loop [for (s = 0; s < HASH_SEGS; s++)]. *)
Abbreviation lanes := (list Z).
Definition per_seg (f : nat → Z) : lanes := f <$> seq 0 HASH_SEGS.

(** * mh_sha256_block_base.c *)

(** The macro [Ws(x, s)]. *)
Definition Ws (w : list lanes) (x s : nat) : Z := w !!! (x mod 16)%nat !!! s.

(** [step]: [ww] is the block as words. *)
Definition step (ww : list Z) (i : nat) (a b c d e f g h : lanes) (k : Z) (w : list lanes)
    : lanes * lanes * list lanes :=
  let w := <[(i mod 16)%nat :=
      if (i <? 16)%nat then per_seg (λ s, to_be32 (ww !!! (i * HASH_SEGS + s)%nat))
      else per_seg (λ s, u32 (Ws w (i - 16) s + S0 (Ws w (i - 15) s) + Ws w (i - 7) s + S1 (Ws w (i - 2) s)))]> w in
  let t2 := per_seg (λ s, u32 (s0 (a !!! s) + maj (a !!! s) (b !!! s) (c !!! s))) in
  let t1 := per_seg (λ s, u32 (h !!! s + s1 (e !!! s) + ch (e !!! s) (f !!! s) (g !!! s) + k + Ws w i s)) in
  let d := per_seg (λ s, u32 (d !!! s + t1 !!! s)) in
  let h := per_seg (λ s, u32 (t1 !!! s + t2 !!! s)) in
  (d, h, w).

(** [uint32_t digests[SHA256_DIGEST_WORDS][HASH_SEGS]]. *)
Abbreviation seg_digests := (list lanes).

Definition init_abcdefgh (n : nat) (digests : seg_digests) : lanes :=
  per_seg (λ s, digests !!! n !!! s).
Definition add_abcdefgh (xx : lanes) (n : nat) (digests : seg_digests) : seg_digests :=
  <[n := per_seg (λ s, u32 (digests !!! n !!! s + xx !!! s))]> digests.

(** [frame_buffer] is the array [w]. *)
Definition mh_sha256_single (input : list byte) (digests : seg_digests) (frame_buffer : list lanes)
    : seg_digests * list lanes :=
  let x := Vars (init_abcdefgh 0 digests) (init_abcdefgh 1 digests) (init_abcdefgh 2 digests)
    (init_abcdefgh 3 digests) (init_abcdefgh 4 digests) (init_abcdefgh 5 digests)
    (init_abcdefgh 6 digests) (init_abcdefgh 7 digests) in
  let '(x, w) := sixty_four_steps (step (words_of (take MH_SHA256_BLOCK_SIZE input))) (x, frame_buffer) in
  let digests := add_abcdefgh (va x) 0 digests in
  let digests := add_abcdefgh (vb x) 1 digests in
  let digests := add_abcdefgh (vc x) 2 digests in
  let digests := add_abcdefgh (vd x) 3 digests in
  let digests := add_abcdefgh (ve x) 4 digests in
  let digests := add_abcdefgh (vf x) 5 digests in
  let digests := add_abcdefgh (vg x) 6 digests in
  let digests := add_abcdefgh (vh x) 7 digests in
  (digests, w).

Fixpoint mh_sha256_block_base (input_data : list byte) (num_blocks : nat) (digests : seg_digests)
    (frame_buffer : list lanes) : seg_digests * list lanes :=
  match num_blocks with
  | O => (digests, frame_buffer)
  | S num_blocks =>
      let '(digests, frame_buffer) := mh_sha256_single input_data digests frame_buffer in
      mh_sha256_block_base (drop MH_SHA256_BLOCK_SIZE input_data) num_blocks digests frame_buffer
  end.

(** * mh_sha256_ref.c *)

(** [transform_input_single]: the words of one segment. *)
Definition transform_input_single (input : list Z) (segment : nat) : list Z :=
  (λ i, input !!! (16 * i + segment)%nat) <$> seq 0 16.

(** A row for each segment from a row for each word, and back. *)
Definition trans_digests (digests : seg_digests) : list (list Z) :=
  (λ j, (λ row, row !!! j) <$> digests) <$> seq 0 HASH_SEGS.
Definition untrans_digests (digests : list (list Z)) : seg_digests :=
  (λ i, (λ row, row !!! i) <$> digests) <$> seq 0 SHA256_DIGEST_WORDS.

(** [transform_input] and [sha256_update_all_segs] of one block. *)
Definition sha256_update_all_segs (input : list Z) (digests : list (list Z)) : list (list Z) :=
  imap (λ j digest, sha256_single_for_mh_sha256 (transform_input_single input j) digest) digests.

Fixpoint update_blocks_ref (input_data : list byte) (num_blocks : nat) (digests : list (list Z))
    : list (list Z) :=
  match num_blocks with
  | O => digests
  | S num_blocks =>
      update_blocks_ref (drop MH_SHA256_BLOCK_SIZE input_data) num_blocks
        (sha256_update_all_segs (words_of (take MH_SHA256_BLOCK_SIZE input_data)) digests)
  end.

(** It has a buffer for the words it moves; that of the caller stays as it is here. *)
Definition mh_sha256_block_ref (input_data : list byte) (num_blocks : nat) (digests : seg_digests)
    (frame_buffer : list lanes) : seg_digests * list lanes :=
  (untrans_digests (update_blocks_ref input_data num_blocks (trans_digests digests)), frame_buffer).

(** * mh_sha256.c, mh_sha256_update_base.c and mh_sha256_finalize_base.c *)

(** [struct mh_sha256_ctx]: [mh_sha256_interim_digests] and [frame_buffer] as the arrays the
    code reads them as. *)
Record mh_sha256_ctx := MhSha256Ctx {
  mh_sha256_digest : list Z;
  total_length : Z; (* uint64_t *)
  partial_block_buffer : list byte;
  mh_sha256_interim_digests : seg_digests;
  frame_buffer : list lanes;
}.

(** The digests at the start: [MH_SHA256_H0] to [MH_SHA256_H7] for each segment. *)
Definition init_digests : seg_digests := (λ h, per_seg (λ _, h)) <$> MH_SHA256_H.

Definition mh_sha256_init : mh_sha256_ctx :=
  MhSha256Ctx (replicate SHA256_DIGEST_WORDS 0) 0 (replicate (MH_SHA256_BLOCK_SIZE * 2) Byte.x00)
    init_digests (replicate 16 (replicate HASH_SEGS 0)).

Section versions.
(** The macro [MH_SHA256_BLOCK_FUNCTION]. *)
Context (block : list byte → nat → seg_digests → list lanes → seg_digests * list lanes).

(** The partial block of the last call, when the input fills it: the input that is left, its
    length, the partial block and the results of the block function. *)
Definition update_partial (input_data : list byte) (len partial_block_len : Z) (partial : list byte)
    (digests : seg_digests) (frame : list lanes) : list byte * Z * list byte * seg_digests * list lanes :=
  if partial_block_len =? 0 then (input_data, len, partial, digests, frame)
  else
    let n := Z.of_nat MH_SHA256_BLOCK_SIZE - partial_block_len in
    let partial := put_at (Z.to_nat partial_block_len) (take (Z.to_nat n) input_data) partial in
    let '(digests, frame) := block partial 1 digests frame in
    (drop (Z.to_nat n) input_data, u32 (len - n),
     put_at 0 (replicate MH_SHA256_BLOCK_SIZE Byte.x00) partial, digests, frame).

(** The whole blocks of the input. *)
Definition update_blocks (input_data : list byte) (len : Z) (digests : seg_digests) (frame : list lanes)
    : list byte * Z * seg_digests * list lanes :=
  let num_blocks := len / Z.of_nat MH_SHA256_BLOCK_SIZE in
  if 0 <? num_blocks
  then
    let '(digests, frame) := block input_data (Z.to_nat num_blocks) digests frame in
    (drop (Z.to_nat num_blocks * MH_SHA256_BLOCK_SIZE) input_data,
     u32 (len - num_blocks * Z.of_nat MH_SHA256_BLOCK_SIZE), digests, frame)
  else (input_data, len, digests, frame).

Definition mh_sha256_update (buffer : list byte) (len : Z) (ctx : mh_sha256_ctx) : mh_sha256_ctx :=
  if len =? 0 then ctx
  else
    let partial_block_len := total_length ctx `mod` Z.of_nat MH_SHA256_BLOCK_SIZE in
    let total := u64 (total_length ctx + len) in
    let partial := partial_block_buffer ctx in
    let input_data := take (Z.to_nat len) buffer in
    if len + partial_block_len <? Z.of_nat MH_SHA256_BLOCK_SIZE then
      MhSha256Ctx (mh_sha256_digest ctx) total
        (put_at (Z.to_nat partial_block_len) input_data partial)
        (mh_sha256_interim_digests ctx) (frame_buffer ctx)
    else
      let '(input_data, len, partial, digests, frame) :=
        update_partial input_data len partial_block_len partial
          (mh_sha256_interim_digests ctx) (frame_buffer ctx) in
      let '(input_data, len, digests, frame) := update_blocks input_data len digests frame in
      let partial := if len =? 0 then partial else put_at 0 (take (Z.to_nat len) input_data) partial in
      MhSha256Ctx (mh_sha256_digest ctx) total partial digests frame.

(** [total_len] is a [uint32_t]; the results are the buffers it writes to. *)
Definition mh_sha256_tail (partial_buffer : list byte) (total_len : Z) (digests : seg_digests)
    (frame_buffer : list lanes) : list byte * seg_digests * list lanes * list Z :=
  let total_len := u32 total_len in
  let partial_buffer_len := Z.to_nat (total_len `mod` Z.of_nat MH_SHA256_BLOCK_SIZE) in
  let partial_buffer := put_at partial_buffer_len [Byte.x80] partial_buffer in
  let partial_buffer_len := S partial_buffer_len in
  let partial_buffer := put_at partial_buffer_len
    (replicate (MH_SHA256_BLOCK_SIZE - partial_buffer_len) Byte.x00) partial_buffer in
  let '(partial_buffer, digests, frame_buffer) :=
    if (MH_SHA256_BLOCK_SIZE - 8 <? partial_buffer_len)%nat
    then
      let '(digests, frame_buffer) := block partial_buffer 1 digests frame_buffer in
      (put_at 0 (replicate MH_SHA256_BLOCK_SIZE Byte.x00) partial_buffer, digests, frame_buffer)
    else (partial_buffer, digests, frame_buffer) in
  let len_in_bit := to_be64 (u64 (total_len * 8)) in
  let partial_buffer := put_at (MH_SHA256_BLOCK_SIZE - 8) (le_split 8 len_in_bit) partial_buffer in
  let '(digests, frame_buffer) := block partial_buffer 1 digests frame_buffer in
  (partial_buffer, digests, frame_buffer,
   sha256_for_mh_sha256 (bytes_of (mjoin digests)) (4 * SHA256_DIGEST_WORDS * HASH_SEGS)).

(** The digest is that of the context, and the bytes it is copied to. *)
Definition mh_sha256_finalize (ctx : mh_sha256_ctx) : list byte * mh_sha256_ctx :=
  let '(partial, digests, frame, digest) :=
    mh_sha256_tail (partial_block_buffer ctx) (total_length ctx)
      (mh_sha256_interim_digests ctx) (frame_buffer ctx) in
  (bytes_of digest, MhSha256Ctx digest (total_length ctx) partial digests frame).
End versions.

(** What [checksum_gen] does with a buffer. *)
Definition mh_sha256 (bytes : list byte) : checksum :=
  (mh_sha256_finalize mh_sha256_block_base
     (mh_sha256_update mh_sha256_block_base bytes (Z.of_nat (length bytes)) mh_sha256_init)).1.

(** [mh_sha256_ref]: [partial_block_buffer] and [frame_buffer] are not initialised. *)
Definition mh_sha256_ref (partial_block_buffer : list byte) (frame_buffer : list lanes)
    (buffer : list byte) (len : Z) : list byte :=
  let '(input_data, rest, digests, frame_buffer) :=
    update_blocks mh_sha256_block_ref buffer len init_digests frame_buffer in
  let partial := if rest =? 0 then partial_block_buffer
    else put_at 0 (take (Z.to_nat rest) input_data) partial_block_buffer in
  bytes_of (mh_sha256_tail mh_sha256_block_ref partial len digests frame_buffer).2.
