(* ===== verification/MhSha256Spec.v ===== *)
(** That multi-hash SHA-256 is what its header says: the portable version and the reference
    hash the segments as the standard says ([block_ok]), a message may come in pieces
    ([ctx_ok]), and the digest has 32 bytes. *)

From S2P Require Import Prelude Checksum Sha256 Sha256Spec MhSha256.
From coqutil Require Import Word.LittleEndianList.

(** * Lanes *)

(** The words of segment [s]. *)
Definition lane (s : nat) (rows : list lanes) : list Z := (λ row, row !!! s) <$> rows.

#[local] Arguments per_seg : simpl never.

Lemma per_seg_at f s : (s < 16)%nat → per_seg f !!! s = f s.
Proof.
  intros Hs. apply list_lookup_total_correct. unfold per_seg, HASH_SEGS.
  by rewrite list_lookup_fmap, lookup_seq_lt by done.
Qed.

Lemma lane_at s rows j : lane s rows !!! j = rows !!! j !!! s.
Proof.
  unfold lane. rewrite (list_lookup_total_alt (_ <$> _)), (list_lookup_total_alt rows), list_lookup_fmap.
  destruct (rows !! j); reflexivity.
Qed.

Lemma lane_insert s i row rows : lane s (<[i := row]> rows) = <[i := row !!! s]> (lane s rows).
Proof. apply list_fmap_insert. Qed.

(** A list from its elements. *)
Lemma tabulate {A} `{Inhabited A} (l : list A) n : length l = n → (λ i, l !!! i) <$> seq 0 n = l.
Proof.
  intros <-. apply list_eq. intros i. rewrite list_lookup_fmap. destruct (decide (i < length l)%nat).
  - rewrite lookup_seq_lt by done. simpl. by rewrite list_lookup_lookup_total_lt.
  - rewrite lookup_seq_ge, lookup_ge_None_2 by lia. done.
Qed.

(** ** Programs with the same steps *)
Definition map_vars {A B} (f : A → B) (x : vars A) : vars B :=
  let '(Vars a b c d e f1 g h) := x in Vars (f a) (f b) (f c) (f d) (f e) (f f1) (f g) (f h).

Section map.
Context {A W B V : Type} (f : A → B) (g : W → V).
Context (stepA : nat → A → A → A → A → A → A → A → A → Z → W → A * A * W).
Context (stepB : nat → B → B → B → B → B → B → B → B → Z → V → B * B * V).
Hypothesis same_step : ∀ i a b c d e f1 g1 h k w,
  stepB i (f a) (f b) (f c) (f d) (f e) (f f1) (f g1) (f h) k (g w) =
  let '(d, h, w) := stepA i a b c d e f1 g1 h k w in (f d, f h, g w).

Lemma eight_steps_map i x w :
  eight_steps stepB i (map_vars f x, g w) =
  let '(x, w) := eight_steps stepA i (x, w) in (map_vars f x, g w).
Proof.
  destruct x as [a b c d e f1 g1 h]. unfold eight_steps, map_vars.
  do 8 (rewrite same_step;
    match goal with |- context [stepA ?i ?a ?b ?c ?d ?e ?f ?g ?h ?k ?w] =>
      destruct (stepA i a b c d e f g h k w) as [[??]?] end).
  done.
Qed.

Lemma sixty_four_steps_map x w :
  sixty_four_steps stepB (map_vars f x, g w) =
  let '(x, w) := sixty_four_steps stepA (x, w) in (map_vars f x, g w).
Proof.
  unfold sixty_four_steps. generalize [0; 8; 16; 24; 32; 40; 48; 56]%nat. intros l. revert x w.
  induction l as [|i l IH]; intros x w; [done|]. cbn [foldl]. rewrite eight_steps_map.
  destruct (eight_steps stepA i (x, w)) as [x' w']. apply IH.
Qed.
End map.

(** * mh_sha256_single *)

Lemma Ws_lane w x s : Ws w x s = Wx (lane s w) x.
Proof. symmetry. apply lane_at. Qed.

Lemma transform_at ww s i : (i < 16)%nat → transform_input_single ww s !!! i = ww !!! (i * 16 + s)%nat.
Proof.
  intros Hi. change (transform_input_single ww s) with (per_seg (λ i, ww !!! (16 * i + s)%nat)).
  rewrite per_seg_at by done. f_equal. lia.
Qed.

(** Segment [s] of a step is a step of SHA-256 on that segment. *)
Lemma step_lane s ww i a b c d e f g h kk w :
  (s < 16)%nat →
  sha256_step (transform_input_single ww s) i (a !!! s) (b !!! s) (c !!! s) (d !!! s)
    (e !!! s) (f !!! s) (g !!! s) (h !!! s) kk (lane s w) =
  let '(d, h, w) := step ww i a b c d e f g h kk w in (d !!! s, h !!! s, lane s w).
Proof.
  intros Hs. unfold sha256_step, step. cbv zeta.
  assert (Hrow : (if (i <? 16)%nat then to_be32 (transform_input_single ww s !!! i)
      else u32 (Wx (lane s w) (i - 16) + S0 (Wx (lane s w) (i - 15)) + Wx (lane s w) (i - 7) +
                S1 (Wx (lane s w) (i - 2)))) =
    (if (i <? 16)%nat then per_seg (λ s, to_be32 (ww !!! (i * HASH_SEGS + s)%nat))
     else per_seg (λ s, u32 (Ws w (i - 16) s + S0 (Ws w (i - 15) s) + Ws w (i - 7) s + S1 (Ws w (i - 2) s)))) !!! s).
  { destruct (Nat.ltb_spec i 16); rewrite per_seg_at by done; [by rewrite transform_at|by rewrite !Ws_lane]. }
  rewrite Hrow, <-lane_insert, <-Ws_lane. match goal with |- context [lane s (<[?j := ?r]> w)] => generalize (<[j := r]> w) end.
  intros w'. by rewrite !per_seg_at.
Qed.

Lemma sixty_four_lanes s ww x w :
  (s < 16)%nat →
  sixty_four_steps (sha256_step (transform_input_single ww s)) (map_vars (lookup_total s) x, lane s w) =
  let '(x, w) := sixty_four_steps (step ww) (x, w) in (map_vars (lookup_total s) x, lane s w).
Proof. intros Hs. apply sixty_four_steps_map. intros. by apply step_lane. Qed.

(** Digests and [frame_buffer] have the sizes of their arrays. *)
Record digests_ok (D : seg_digests) : Prop := {
  do_rows : length D = 8%nat;
  do_lanes : Forall (λ row, length row = 16%nat) D;
}.

Lemma per_seg_length f : length (per_seg f) = 16%nat.
Proof. unfold per_seg. by rewrite length_fmap, length_seq. Qed.

Lemma step_length ww i a b c d e f g h kk w : length (step ww i a b c d e f g h kk w).2 = length w.
Proof. unfold step. cbn [snd]. by rewrite length_insert. Qed.

Lemma add_abcdefgh_all x D :
  digests_ok D →
  let D' := add_abcdefgh (vh x) 7 (add_abcdefgh (vg x) 6 (add_abcdefgh (vf x) 5 (add_abcdefgh (ve x) 4
    (add_abcdefgh (vd x) 3 (add_abcdefgh (vc x) 2 (add_abcdefgh (vb x) 1 (add_abcdefgh (va x) 0 D))))))) in
  digests_ok D' ∧ ∀ s, (s < 16)%nat → lane s D' = add_vars (lane s D) (map_vars (lookup_total s) x).
Proof.
  intros [H8 _]. destruct D as [|r0 [|r1 [|r2 [|r3 [|r4 [|r5 [|r6 [|r7 []]]]]]]]]; try done.
  destruct x as [a b c d e f g h]. cbn -[per_seg u32]. split.
  - split; [done|]. repeat (apply Forall_cons; split; [apply per_seg_length|]). by apply Forall_nil.
  - intros s Hs. unfold add_vars, list_of_vars, map_vars. cbn -[per_seg u32]. by rewrite !per_seg_at.
Qed.

Lemma eight_steps_frame ww i x w : length (eight_steps (step ww) i (x, w)).2 = length w.
Proof.
  destruct x as [a b c d e f g h]. unfold eight_steps.
  do 8 (match goal with |- context [step ?ww ?i ?a ?b ?c ?d ?e ?f ?g ?h ?k ?w] =>
    rewrite <-(step_length ww i a b c d e f g h k w);
    destruct (step ww i a b c d e f g h k w) as [[??]?]; cbn [snd] end).
  done.
Qed.

Lemma sixty_four_frame ww x w : length (sixty_four_steps (step ww) (x, w)).2 = length w.
Proof.
  unfold sixty_four_steps. generalize [0; 8; 16; 24; 32; 40; 48; 56]%nat. intros l. revert x w.
  induction l as [|i l IH]; intros x w; [done|]. cbn [foldl]. rewrite <-(eight_steps_frame ww i x w).
  destruct (eight_steps (step ww) i (x, w)) as [x' w']. apply IH.
Qed.

(** Each segment of a block is compressed as SHA-256 does. *)
Lemma mh_sha256_single_spec input D F :
  digests_ok D → length F = 16%nat →
  ∃ D' F', mh_sha256_single input D F = (D', F') ∧ digests_ok D' ∧ length F' = 16%nat ∧
    ∀ s, (s < 16)%nat → lane s D' = compress (lane s D) (segment s (take 1024 input)).
Proof.
  intros HD HF. unfold mh_sha256_single. change MH_SHA256_BLOCK_SIZE with 1024%nat.
  set (ww := words_of (take 1024 input)). set (x0 := Vars _ _ _ _ _ _ _ _).
  pose proof (sixty_four_frame ww x0 F) as Hfr. rewrite HF in Hfr.
  destruct (sixty_four_steps (step ww) (x0, F)) as [x w] eqn:E. cbn [snd] in Hfr.
  destruct (add_abcdefgh_all x D HD) as [HD' Hl]. eexists _, w. split_and!; [reflexivity|done..|].
  intros s Hs. rewrite Hl by done. unfold compress. f_equal.
  pose proof (sixty_four_lanes s ww x0 F Hs) as Hx. rewrite E in Hx.
  assert (Hx0 : map_vars (lookup_total s) x0 = load_vars (lane s D)).
  { unfold x0, load_vars, map_vars, init_abcdefgh. by rewrite !per_seg_at, !lane_at. }
  destruct (sixty_four_rounds (segment s (take 1024 input)) (transform_input_single ww s))
    with (load_vars (lane s D)) (lane s F) as (w' & Hr).
  - intros t Ht. rewrite transform_at by done. unfold ww.
    change (segment s (take 1024 input)) with (per_seg (λ i, be_words (take 1024 input) !!! (16 * i + s)%nat)).
    rewrite per_seg_at, be_word_at by done. do 2 f_equal. lia.
  - unfold lane. by rewrite length_fmap.
  - rewrite Hx0, Hr in Hx. apply pair_eq in Hx as [Hx _]. exact (eq_sym Hx).
Qed.

(** * Blocks *)

(** [D] are the digests of the segments of the blocks [bs]. *)
Record absorbed (bs : list (list byte)) (D : seg_digests) (F : list lanes) : Prop := {
  ab_digests : digests_ok D;
  ab_frame : length F = 16%nat;
  ab_lane s : (s < 16)%nat → lane s D = segment_digest s bs;
}.

(** A block function goes on with whole blocks. *)
Definition block_ok (block : list byte → nat → seg_digests → list lanes → seg_digests * list lanes) : Prop :=
  ∀ n input bs D F, absorbed bs D F → (n * 1024 ≤ length input)%nat →
    ∃ D' F', block input n D F = (D', F') ∧ absorbed (bs ++ blocks 1024 (take (n * 1024) input)) D' F'.

Lemma segment_digest_snoc s bs b : segment_digest s (bs ++ [b]) = compress (segment_digest s bs) (segment s b).
Proof. unfold segment_digest. by rewrite foldl_app. Qed.

Lemma block_base_ok : block_ok mh_sha256_block_base.
Proof.
  intros n. induction n as [|n IH]; intros input bs D F Hab Hlen.
  { exists D, F. split; [done|]. by rewrite take_0, app_nil_r. }
  cbn [mh_sha256_block_base]. destruct Hab as [HD HF Hl].
  destruct (mh_sha256_single_spec input D F HD HF) as (D1 & F1 & -> & HD1 & HF1 & Hl1).
  destruct (IH (drop 1024 input) (bs ++ [take 1024 input]) D1 F1) as (D' & F' & Hr & Hab).
  - split; [done..|]. intros s Hs. by rewrite Hl1, Hl, segment_digest_snoc by done.
  - rewrite length_drop. lia.
  - exists D', F'. split; [done|]. replace (S n * 1024)%nat with (1024 + n * 1024)%nat by lia.
    rewrite <-take_take_drop, blocks_cons by (rewrite ?length_take; lia). by rewrite <-app_assoc in Hab.
Qed.

(** ** The reference *)

Lemma length_compress digest m : length digest = 8%nat → length (compress digest m) = 8%nat.
Proof. apply length_add_vars. Qed.

Lemma trans_at D j : (j < 16)%nat → trans_digests D !!! j = lane j D.
Proof.
  intros Hj. apply list_lookup_total_correct. unfold trans_digests, HASH_SEGS.
  by rewrite list_lookup_fmap, lookup_seq_lt by done.
Qed.

Lemma lane_untrans ds s : length (ds !!! s) = 8%nat → lane s (untrans_digests ds) = ds !!! s.
Proof.
  intros H. unfold untrans_digests, lane. rewrite <-list_fmap_compose.
  etrans; [|exact (tabulate (ds !!! s) 8 H)]. apply list_fmap_ext. intros _ i _. simpl.
  rewrite (list_lookup_total_alt (_ <$> _)), (list_lookup_total_alt ds), list_lookup_fmap.
  destruct (ds !! s); reflexivity.
Qed.

Lemma untrans_ok ds : length ds = 16%nat → digests_ok (untrans_digests ds).
Proof.
  intros H. unfold untrans_digests. split; [by rewrite length_fmap, length_seq|].
  apply Forall_fmap, Forall_true. intros i. simpl. by rewrite length_fmap.
Qed.

(** Rows of segments instead of columns. *)
Definition rows_absorbed (bs : list (list byte)) (ds : list (list Z)) : Prop :=
  length ds = 16%nat ∧ ∀ s, (s < 16)%nat → ds !!! s = segment_digest s bs.

Lemma length_segment_digest s bs : length (segment_digest s bs) = 8%nat.
Proof.
  unfold segment_digest. assert (H : length MH_SHA256_H = 8%nat) by done. revert H.
  generalize MH_SHA256_H. induction bs as [|b bs IH]; intros d Hd; [done|]. apply IH. by apply length_compress.
Qed.

Lemma update_all_segs_absorbed input bs ds :
  rows_absorbed bs ds →
  rows_absorbed (bs ++ [take 1024 input]) (sha256_update_all_segs (words_of (take 1024 input)) ds).
Proof.
  intros [Hlen Hds]. split; [by unfold sha256_update_all_segs; rewrite length_imap|].
  intros s Hs. apply list_lookup_total_correct. unfold sha256_update_all_segs.
  rewrite list_lookup_imap, (list_lookup_lookup_total_lt ds s) by lia. simpl. f_equal.
  rewrite Hds, segment_digest_snoc by done. apply sha256_single_compress. intros t Ht.
  rewrite transform_at by done.
  change (segment s (take 1024 input)) with (per_seg (λ i, be_words (take 1024 input) !!! (16 * i + s)%nat)).
  rewrite per_seg_at, be_word_at by done. do 2 f_equal. lia.
Qed.

Lemma update_blocks_ref_absorbed n : ∀ input bs ds,
  rows_absorbed bs ds → (n * 1024 ≤ length input)%nat →
  rows_absorbed (bs ++ blocks 1024 (take (n * 1024) input)) (update_blocks_ref input n ds).
Proof.
  induction n as [|n IH]; intros input bs ds Hds Hlen; [by rewrite take_0, app_nil_r|].
  cbn [update_blocks_ref]. change MH_SHA256_BLOCK_SIZE with 1024%nat.
  replace (S n * 1024)%nat with (1024 + n * 1024)%nat by lia.
  rewrite <-take_take_drop, blocks_cons by (rewrite ?length_take; lia).
  rewrite (cons_middle _ bs), (app_assoc bs).
  apply IH; [by apply update_all_segs_absorbed|rewrite length_drop; lia].
Qed.

Lemma block_ref_ok : block_ok mh_sha256_block_ref.
Proof.
  intros n input bs D F [HD HF Hl] Hlen. unfold mh_sha256_block_ref.
  destruct (update_blocks_ref_absorbed n input bs (trans_digests D)) as [Hds Hs]; [|done|].
  - split; [unfold trans_digests; by rewrite length_fmap, length_seq|].
    intros s Hs. rewrite trans_at by done. by apply Hl.
  - eexists _, _. split; [reflexivity|]. split; [by apply untrans_ok|done|].
    intros s Hlt. rewrite lane_untrans by (rewrite Hs by done; apply length_segment_digest). by apply Hs.
Qed.

(** * A message in pieces *)

Section put_at.
Implicit Types l b : list byte.

Lemma take_put_at off b l : (off ≤ length l)%nat → take (off + length b) (put_at off b l) = take off l ++ b.
Proof.
  intros H. unfold put_at. rewrite app_assoc. rewrite take_app_length'; [done|].
  rewrite length_app, length_take. lia.
Qed.

Lemma length_put_at off b l : (off + length b ≤ length l)%nat → length (put_at off b l) = length l.
Proof. intros H. unfold put_at. rewrite !length_app, length_take, length_drop. lia. Qed.

Lemma take_put_0 n b l : length b = n → take n (put_at 0 b l) = b.
Proof. intros <-. apply (take_put_at 0 b l). lia. Qed.
End put_at.

Section pieces.
Context (block : list byte → nat → seg_digests → list lanes → seg_digests * list lanes).
Hypothesis block_spec : block_ok block.

(** The context after the message [m] so far. *)
Record ctx_ok (ctx : mh_sha256_ctx) (m : list byte) : Prop := {
  cx_total : total_length ctx = Z.of_nat (length m);
  cx_partial : length (partial_block_buffer ctx) = 2048%nat;
  cx_rest : take (length m mod 1024) (partial_block_buffer ctx) = drop (length m / 1024 * 1024) m;
  cx_blocks : absorbed (blocks 1024 m) (mh_sha256_interim_digests ctx) (frame_buffer ctx);
}.

Lemma init_ok : ctx_ok mh_sha256_init [].
Proof.
  split; [done|done|done|]. split; [|done|].
  - split; [done|]. repeat (apply Forall_cons; split; [apply per_seg_length|]). by apply Forall_nil.
  - intros s Hs. unfold segment_digest. simpl. unfold lane. simpl. by rewrite !per_seg_at.
Qed.

(** The blocks of a message are those of its whole blocks. *)
Lemma blocks_whole (m x : list byte) :
  (length m mod 1024 = 0)%nat → blocks 1024 (m ++ x) = blocks 1024 m ++ blocks 1024 x.
Proof.
  intros H. apply (blocks_app 1024 ltac:(lia) (length m / 1024)).
  pose proof (Nat.div_mod_eq (length m) 1024). lia.
Qed.

Lemma blocks_rest m : blocks 1024 (take (length m / 1024 * 1024) m) = blocks 1024 m.
Proof.
  pose proof (Nat.div_mod_eq (length m) 1024). pose proof (Nat.mod_upper_bound (length m) 1024 ltac:(lia)).
  rewrite <-(take_drop (length m / 1024 * 1024) m) at 3.
  rewrite (blocks_app 1024 ltac:(lia) (length m / 1024)) by (rewrite length_take; lia).
  rewrite (blocks_short 1024 (drop _ _)) by (rewrite length_drop; lia). by rewrite app_nil_r.
Qed.

(** The end of the update of an aligned message [m]: what is left goes to the buffer. *)
Lemma update_blocks_ok m input D F :
  (length m mod 1024 = 0)%nat → absorbed (blocks 1024 m) D F → Z.of_nat (length input) < 4294967296 →
  ∃ D' F', update_blocks block input (Z.of_nat (length input)) D F =
      (drop (length input / 1024 * 1024) input, Z.of_nat (length input mod 1024), D', F') ∧
    absorbed (blocks 1024 (m ++ input)) D' F'.
Proof.
  intros Hm Hab Hlen. pose proof (Nat.div_mod_eq (length input) 1024) as Hd.
  pose proof (Nat.mod_upper_bound (length input) 1024 ltac:(lia)) as Hr.
  unfold update_blocks. change (Z.of_nat MH_SHA256_BLOCK_SIZE) with 1024. change MH_SHA256_BLOCK_SIZE with 1024%nat.
  assert (Hq : Z.of_nat (length input) / 1024 = Z.of_nat (length input / 1024)) by by rewrite Nat2Z.inj_div.
  rewrite Hq, Nat2Z.id, blocks_whole by done. set (q := (length input / 1024)%nat) in *.
  destruct (Z.ltb_spec 0 (Z.of_nat q)) as [Hlt|Hle].
  - destruct (block_spec q input (blocks 1024 m) D F Hab ltac:(lia)) as (D' & F' & -> & Hab').
    exists D', F'. unfold q in Hab' at 1. rewrite blocks_rest in Hab'. split; [|done].
    rewrite u32_id by lia. do 3 f_equal. lia.
  - assert (q = 0%nat) as Hq0 by lia. exists D, F. rewrite Hq0 in *. rewrite drop_0.
    split; [do 3 f_equal; lia|]. rewrite (blocks_short 1024 input) by lia. by rewrite app_nil_r.
Qed.

(** A message is whole blocks and a rest; what is added first fills the rest. *)
Lemma split_message (m : list byte) :
  ∃ M R, m = M ++ R ∧ (length M mod 1024 = 0)%nat ∧ length R = (length m mod 1024)%nat ∧
    R = drop (length m / 1024 * 1024) m ∧ ∀ x, blocks 1024 (m ++ x) = blocks 1024 m ++ blocks 1024 (R ++ x).
Proof.
  pose proof (Nat.div_mod_eq (length m) 1024). pose proof (Nat.mod_upper_bound (length m) 1024 ltac:(lia)).
  set (q := (length m / 1024)%nat) in *.
  assert (HM : length (take (q * 1024) m) = (q * 1024)%nat) by (rewrite length_take; lia).
  assert (Hal : (length (take (q * 1024) m) mod 1024 = 0)%nat) by (rewrite HM; apply Nat.Div0.mod_mul).
  exists (take (q * 1024) m), (drop (q * 1024) m). split_and!; [by rewrite take_drop|done|rewrite length_drop; lia|done|].
  intros x. rewrite <-(blocks_rest m). fold q. rewrite <-blocks_whole by done. by rewrite app_assoc, take_drop.
Qed.

Lemma update_partial_ok ctx m input :
  ctx_ok ctx m → Z.of_nat (length input) < 4294967296 → (1024 ≤ length m mod 1024 + length input)%nat →
  ∃ m' input' P' D' F',
    update_partial block input (Z.of_nat (length input)) (Z.of_nat (length m mod 1024))
      (partial_block_buffer ctx) (mh_sha256_interim_digests ctx) (frame_buffer ctx) =
      (input', Z.of_nat (length input'), P', D', F') ∧
    m ++ input = m' ++ input' ∧ (length m' mod 1024 = 0)%nat ∧ absorbed (blocks 1024 m') D' F' ∧
    length P' = 2048%nat ∧ (length input' ≤ length input)%nat.
Proof.
  intros [Ht HP HR Hab] Hlen Hge. destruct (split_message m) as (M & R & Hm & HM & HRl & HRd & Hbl).
  pose proof (Nat.mod_upper_bound (length m) 1024 ltac:(lia)) as Hr. set (r := (length m mod 1024)%nat) in *.
  rewrite <-HRd in HR. unfold update_partial. change MH_SHA256_BLOCK_SIZE with 1024%nat. change (Z.of_nat 1024) with 1024.
  destruct (Z.eqb_spec (Z.of_nat r) 0) as [E|E].
  - exists m, input. eexists _, _, _. split_and!; [reflexivity|done|unfold r in E; lia|done..].
  - rewrite Nat2Z.id. replace (Z.to_nat (1024 - Z.of_nat r)) with (1024 - r)%nat by lia.
    set (n := (1024 - r)%nat). set (P1 := put_at r (take n input) (partial_block_buffer ctx)).
    assert (Hn : length (take n input) = n) by (rewrite length_take; lia).
    assert (HP1 : length P1 = 2048%nat) by (unfold P1; rewrite length_put_at; lia).
    assert (Hrow : take (1 * 1024) P1 = R ++ take n input).
    { rewrite <-HR. unfold P1. replace (1 * 1024)%nat with (r + length (take n input))%nat by lia.
      apply take_put_at. lia. }
    destruct (block_spec 1%nat P1 _ _ _ Hab ltac:(lia)) as (D' & F' & -> & Hab').
    rewrite Hrow, <-Hbl in Hab'.
    exists (m ++ take n input), (drop n input), (put_at 0 (replicate 1024 Byte.x00) P1), D', F'. split_and!.
    + rewrite u32_id, length_drop by lia. do 4 f_equal. lia.
    + by rewrite <-app_assoc, take_drop.
    + rewrite length_app, Hn. unfold n. rewrite (Nat.div_mod_eq (length m) 1024). fold r.
      replace (1024 * (length m / 1024) + r + (1024 - r))%nat with ((length m / 1024 + 1) * 1024)%nat by lia.
      apply Nat.Div0.mod_mul.
    + done.
    + rewrite length_put_at; [done|]. rewrite length_replicate. lia.
    + rewrite length_drop. lia.
Qed.

Lemma mod_add_aligned (a b : nat) : (a mod 1024 = 0)%nat → ((a + b) mod 1024 = b mod 1024)%nat.
Proof. intros H. by rewrite Nat.Div0.add_mod, H, Nat.add_0_l, Nat.Div0.mod_mod. Qed.

(** An input that does not fill the partial block. *)
Lemma update_short_ok ctx m b total :
  ctx_ok ctx m → (length m mod 1024 + length b < 1024)%nat → total = Z.of_nat (length (m ++ b)) →
  ctx_ok (MhSha256Ctx (mh_sha256_digest ctx) total
    (put_at (length m mod 1024) b (partial_block_buffer ctx))
    (mh_sha256_interim_digests ctx) (frame_buffer ctx)) (m ++ b).
Proof.
  intros [Ht HP HR Hab] Hlt ->. destruct (split_message m) as (M & R & Hm & HM & HRl & HRd & Hbl).
  set (r := (length m mod 1024)%nat) in *. pose proof (Nat.div_mod_eq (length m) 1024) as H2. fold r in H2.
  assert (Hmod : (length (m ++ b) mod 1024 = r + length b)%nat).
  { rewrite length_app, H2 at 1. rewrite <-Nat.add_assoc, Nat.mul_comm, Nat.add_comm, Nat.Div0.mod_add.
    apply Nat.mod_small. lia. }
  assert (Hdiv : (length (m ++ b) / 1024 = length m / 1024)%nat).
  { pose proof (Nat.div_mod_eq (length (m ++ b)) 1024) as H1. rewrite Hmod, length_app in H1.
    rewrite length_app. lia. }
  split; cbn [total_length partial_block_buffer mh_sha256_interim_digests frame_buffer].
  - done.
  - rewrite length_put_at; [done|]. lia.
  - rewrite Hmod, Hdiv, take_put_at, HR by lia. by rewrite drop_app_le by lia.
  - rewrite Hbl, (blocks_short 1024 (R ++ b)) by (rewrite length_app; lia). by rewrite app_nil_r.
Qed.

(** One that does. *)
Lemma update_rest_ok digest m' input P D F total :
  (length m' mod 1024 = 0)%nat → absorbed (blocks 1024 (m' ++ input)) D F → length P = 2048%nat →
  total = Z.of_nat (length (m' ++ input)) →
  let rest := drop (length input / 1024 * 1024) input in
  let len := Z.of_nat (length input mod 1024) in
  ctx_ok (MhSha256Ctx digest total (if len =? 0 then P else put_at 0 (take (Z.to_nat len) rest) P) D F) (m' ++ input).
Proof.
  intros Hal Hab HP -> rest len.
  pose proof (Nat.div_mod_eq (length input) 1024) as H2. pose proof (Nat.mod_upper_bound (length input) 1024 ltac:(lia)).
  assert (Hmod : (length (m' ++ input) mod 1024 = length input mod 1024)%nat)
    by (rewrite length_app; by apply mod_add_aligned).
  assert (Hdrop : drop (length (m' ++ input) / 1024 * 1024) (m' ++ input) = rest).
  { pose proof (Nat.div_mod_eq (length (m' ++ input)) 1024) as H1. rewrite Hmod in H1.
    assert (Hl : (length (m' ++ input) / 1024 * 1024 = length m' + length input / 1024 * 1024)%nat)
      by (rewrite length_app in H1 |- *; lia).
    rewrite Hl. by rewrite drop_app_add' by lia. }
  assert (Hrest : length rest = (length input mod 1024)%nat) by (unfold rest; rewrite length_drop; lia).
  split; cbn [total_length partial_block_buffer mh_sha256_interim_digests frame_buffer]; [done| | |done].
  - case_match; [done|]. unfold len. rewrite Nat2Z.id, length_put_at; [done|]. rewrite length_take. lia.
  - rewrite Hmod, Hdrop. unfold len. rewrite Nat2Z.id.
    destruct (Z.eqb_spec (Z.of_nat (length input mod 1024)) 0) as [E0|E0].
    + replace (length input mod 1024)%nat with 0%nat in * by lia. rewrite take_0.
      symmetry. by apply nil_length_inv.
    + rewrite (take_ge rest) by lia. by rewrite take_put_0.
Qed.

(** [mh_sha256_update] goes on with the message. *)
Lemma update_ok ctx m buffer n :
  ctx_ok ctx m → (n ≤ length buffer)%nat → Z.of_nat n < 4294967296 →
  Z.of_nat (length m + n) < 18446744073709551616 →
  ctx_ok (mh_sha256_update block buffer (Z.of_nat n) ctx) (m ++ take n buffer).
Proof.
  intros Hctx Hn Hlen Htot. unfold mh_sha256_update.
  destruct (Z.eqb_spec (Z.of_nat n) 0) as [E|E]; [replace n with 0%nat by lia; by rewrite take_0, app_nil_r|].
  change (Z.of_nat MH_SHA256_BLOCK_SIZE) with 1024. rewrite Nat2Z.id.
  assert (Hb : length (take n buffer) = n) by (rewrite length_take; lia). set (b := take n buffer) in *.
  assert (Hr0 : total_length ctx `mod` 1024 = Z.of_nat (length m mod 1024))
    by by rewrite (cx_total _ _ Hctx), Nat2Z.inj_mod.
  assert (Hsum : u64 (total_length ctx + Z.of_nat n) = Z.of_nat (length (m ++ b)))
    by (rewrite (cx_total _ _ Hctx), length_app, u64_id; lia).
  rewrite Hr0, Hsum.
  destruct (Z.ltb_spec (Z.of_nat n + Z.of_nat (length m mod 1024)) 1024) as [Hlt|Hge].
  - rewrite Nat2Z.id. apply update_short_ok; [done|lia|done].
  - rewrite <-Hb. destruct (update_partial_ok ctx m b Hctx ltac:(lia) ltac:(lia))
      as (m' & input' & P' & D1 & F1 & -> & Hmm & Hal & Hab1 & HP' & Hle).
    destruct (update_blocks_ok m' input' D1 F1 Hal Hab1 ltac:(lia)) as (D' & F' & -> & Hab').
    rewrite Hmm. by apply update_rest_ok.
Qed.

(** ** The end of a message *)

(** The block that ends with the length. *)
Lemma last_block_ok P bs D F lenb x :
  length P = 2048%nat → length lenb = 8%nat → absorbed bs D F → take 1016 P = x →
  ∃ D' F', block (put_at 1016 lenb P) 1 D F = (D', F') ∧ absorbed (bs ++ [x ++ lenb]) D' F'.
Proof.
  intros HP Hlb Hab <-.
  destruct (block_spec 1%nat (put_at 1016 lenb P) bs D F Hab) as (D' & F' & Hr & Hab'); [rewrite length_put_at; lia|].
  exists D', F'. split; [done|].
  assert (Ht : take (1 * 1024) (put_at 1016 lenb P) = take 1016 P ++ lenb) by (rewrite <-take_put_at by lia; f_equal; lia).
  rewrite Ht, blocks_one in Hab'; [done|lia|]. rewrite length_app, length_take. lia.
Qed.

(** The bit and the zeros. *)
Lemma padded_partial r partial R :
  take r partial = R → (r < 1024)%nat → length partial = 2048%nat →
  let P := put_at (S r) (replicate (1024 - S r) Byte.x00) (put_at r [Byte.x80] partial) in
  length P = 2048%nat ∧ take 1024 P = R ++ Byte.x80 :: replicate (1023 - r) Byte.x00.
Proof.
  intros HR Hr HP P.
  assert (HP1 : length (put_at r [Byte.x80] partial) = 2048%nat) by (rewrite length_put_at; simpl; lia).
  split; [unfold P; rewrite length_put_at; rewrite ?length_replicate; lia|].
  assert (Ht1 : take (S r) (put_at r [Byte.x80] partial) = R ++ [Byte.x80]).
  { rewrite <-HR, <-(take_put_at r [Byte.x80] partial) by lia. f_equal. simpl. lia. }
  rewrite (cons_middle Byte.x80), app_assoc, <-Ht1. replace (1023 - r)%nat with (1024 - S r)%nat by lia.
  rewrite <-take_put_at by lia. unfold P. f_equal. rewrite length_replicate. lia.
Qed.

(** [mh_sha256_tail] hashes what is left of the message, and the padding. *)
Lemma tail_ok partial m D F :
  Z.of_nat (length m) < 4294967296 → length partial = 2048%nat →
  take (length m mod 1024) partial = drop (length m / 1024 * 1024) m → absorbed (blocks 1024 m) D F →
  ∃ partial' D' F', mh_sha256_tail block partial (Z.of_nat (length m)) D F =
      (partial', D', F', sha256_for_mh_sha256 (bytes_of (mjoin D')) 512) ∧
    absorbed (blocks 1024 (padded 1024 m)) D' F'.
Proof.
  intros Hlen HP HR Hab. destruct (split_message m) as (M & R & _ & _ & HRl & HRd & Hbl). rewrite <-HRd in HR.
  pose proof (Nat.mod_upper_bound (length m) 1024 ltac:(lia)) as Hr. set (r := (length m mod 1024)%nat) in *.
  unfold mh_sha256_tail, padded. rewrite u32_id, Hbl, padding_length by lia. fold r.
  change MH_SHA256_BLOCK_SIZE with 1024%nat. change (Z.of_nat 1024) with 1024.
  assert (Z.to_nat (Z.of_nat (length m) `mod` 1024) = r) as -> by (unfold r; rewrite <-Nat2Z.id, Nat2Z.inj_mod; done).
  destruct (padded_partial r partial R HR Hr HP) as [HP2 HT2]. set (P2 := put_at (S r) _ _) in *.
  change (1024 - 8)%nat with 1016%nat. rewrite <-(to_be64_bytes (Z.of_nat (length m) * 8)) by lia.
  set (lenb := le_split 8 _). assert (Hlbl : length lenb = 8%nat) by apply length_le_split.
  destruct (Nat.ltb_spec 1016 (S r)) as [Hlt|Hge]; destruct (Nat.leb_spec (r + 9) 1024); try lia.
  - assert (HT2' : take (1 * 1024) P2 = R ++ Byte.x80 :: replicate (1023 - r) Byte.x00) by exact HT2.
    destruct (block_spec 1%nat P2 _ D F Hab ltac:(lia)) as (D1 & F1 & -> & Hab1). rewrite HT2' in Hab1.
    set (P3 := put_at 0 (replicate 1024 Byte.x00) P2).
    assert (HP3 : length P3 = 2048%nat) by (unfold P3; rewrite length_put_at; rewrite ?length_replicate; lia).
    destruct (last_block_ok P3 _ D1 F1 lenb (replicate 1016 Byte.x00) HP3 Hlbl Hab1) as (D' & F' & -> & Hab').
    { replace 1016%nat with (1016 `min` 1024)%nat by lia. rewrite <-take_take. unfold P3.
      rewrite take_put_0 by apply length_replicate. rewrite take_replicate. f_equal. }
    eexists _, D', F'. split; [reflexivity|]. rewrite <-app_assoc in Hab'.
    assert (Hsplit : R ++ Byte.x80 :: replicate (2 * 1024 - 9 - r) Byte.x00 ++ lenb =
      (R ++ Byte.x80 :: replicate (1023 - r) Byte.x00) ++ (replicate 1016 Byte.x00 ++ lenb)).
    { replace (2 * 1024 - 9 - r)%nat with ((1023 - r) + 1016)%nat by lia.
      by rewrite replicate_add, <-!app_assoc. }
    assert (Hl1 : length (R ++ Byte.x80 :: replicate (1023 - r) Byte.x00) = 1024%nat)
      by (rewrite length_app; simpl; rewrite length_replicate; lia).
    rewrite (blocks_one 1024 ltac:(lia) _ Hl1) in Hab'. rewrite Hsplit, blocks_cons by (done || lia).
    rewrite (blocks_one 1024 ltac:(lia) (replicate 1016 Byte.x00 ++ lenb)); [done|].
    rewrite length_app, length_replicate. lia.
  - destruct (last_block_ok P2 _ D F lenb (R ++ Byte.x80 :: replicate (1024 - 9 - r) Byte.x00) HP2 Hlbl Hab)
      as (D' & F' & -> & Hab').
    { replace 1016%nat with (1016 `min` 1024)%nat by lia. rewrite <-take_take, HT2, take_app, take_ge, HRl by lia.
      f_equal. replace (1016 - r)%nat with (S (1015 - r)) by lia. cbn [take]. rewrite take_replicate. do 2 f_equal. lia. }
    eexists _, D', F'. split; [reflexivity|]. rewrite <-app_assoc in Hab'. cbn [app] in Hab'.
    rewrite (blocks_one 1024 ltac:(lia) (R ++ _)); [done|].
    rewrite length_app. simpl. rewrite length_app, length_replicate. lia.
Qed.
End pieces.


(** * Digests *)

(** The digests as bytes: word by word, and in each the segments one after the other. *)
Lemma segments_of D f :
  digests_ok D → (∀ s, (s < 16)%nat → lane s D = f s) → bytes_of (mjoin D) = segments_bytes f.
Proof.
  intros [H8 H16] Hl. unfold segments_bytes. do 2 f_equal.
  rewrite <-(tabulate D 8 H8) at 1. apply list_fmap_ext. intros k i Hk.
  apply lookup_seq in Hk as [-> Hi]. cbn beta. rewrite Nat.add_0_l.
  assert (Hrow : length (D !!! k) = 16%nat).
  { rewrite Forall_lookup in H16. apply (H16 k). apply list_lookup_lookup_total_lt. lia. }
  rewrite <-(tabulate _ 16 Hrow). apply list_fmap_ext. intros s j Hs.
  apply lookup_seq in Hs as [-> Hs]. cbn beta. by rewrite Nat.add_0_l, <-Hl, lane_at by done.
Qed.

Lemma length_bytes_of ws : length (bytes_of ws) = (4 * length ws)%nat.
Proof.
  unfold bytes_of. induction ws as [|w ws IH]; [done|]. cbn [flat_map length]. rewrite length_app, length_le_split, IH. lia.
Qed.

Lemma length_segments_bytes f : length (segments_bytes f) = 512%nat.
Proof.
  unfold segments_bytes. by rewrite length_bytes_of.
Qed.

Lemma segments_digest bs D F :
  absorbed bs D F → sha256_for_mh_sha256 (bytes_of (mjoin D)) 512 = SHA256 (segments_bytes (λ s, segment_digest s bs)).
Proof.
  intros [HD _ Hl]. rewrite (segments_of D (λ s, segment_digest s bs)) by done.
  rewrite <-(length_segments_bytes (λ s, segment_digest s bs)).
  apply sha256_for_mh_sha256_spec. by rewrite length_segments_bytes.
Qed.

Section digests.
Context (block : list byte → nat → seg_digests → list lanes → seg_digests * list lanes).
Hypothesis block_spec : block_ok block.

(** The digest of the message. *)
Lemma finalize_ok ctx m :
  ctx_ok ctx m → Z.of_nat (length m) < 4294967296 → (mh_sha256_finalize block ctx).1 = MH_SHA256 m.
Proof.
  intros [Ht HP HR Hab] Hlen. unfold mh_sha256_finalize. rewrite Ht.
  destruct (tail_ok block block_spec _ m _ _ Hlen HP HR Hab) as (P & D & F & -> & Hab').
  cbn [fst]. unfold MH_SHA256. by rewrite (segments_digest _ _ _ Hab').
Qed.
End digests.

(** A digest has 32 bytes, whatever the message. *)
Lemma length_SHA256 m : length (SHA256 m) = 8%nat.
Proof.
  unfold SHA256. assert (H : length MH_SHA256_H = 8%nat) by done. revert H.
  generalize MH_SHA256_H. induction (blocks 64 (padded 64 m)) as [|b bs IH]; intros d Hd; [done|].
  apply IH. by apply length_compress.
Qed.

Lemma MH_SHA256_size m : checksum_wf (MH_SHA256 m).
Proof. unfold checksum_wf, MH_SHA256. by rewrite length_bytes_of, length_SHA256. Qed.
