(* ===== verification/MhSha256Theorems.v ===== *)
(** The properties of the digest under which chunks are kept. *)

From S2P Require Import Prelude Checksum Sha256 Sha256Spec MhSha256 MhSha256Spec.
From coqutil Require Import Word.LittleEndianList.

(** A message that comes in pieces. *)
Definition hash_pieces (block : list byte → nat → seg_digests → list lanes → seg_digests * list lanes)
    (pieces : list (list byte)) : list byte :=
  (mh_sha256_finalize block
     (foldl (λ ctx p, mh_sha256_update block p (Z.of_nat (length p)) ctx) mh_sha256_init pieces)).1.

Lemma pieces_ok block pieces : block_ok block → ∀ ctx m,
  ctx_ok ctx m → Z.of_nat (length (m ++ mjoin pieces)) < 4294967296 →
  ctx_ok (foldl (λ ctx p, mh_sha256_update block p (Z.of_nat (length p)) ctx) ctx pieces) (m ++ mjoin pieces).
Proof.
  intros Hb. induction pieces as [|p pieces IH]; intros ctx m Hctx Hlen; cbn [mjoin list_join foldl] in *;
    [by rewrite app_nil_r|].
  rewrite app_assoc in *. apply IH; [|done]. rewrite !length_app in Hlen.
  pose proof (update_ok _ Hb ctx m p (length p) Hctx ltac:(done) ltac:(lia) ltac:(lia)) as H.
  by rewrite firstn_all in H.
Qed.

(** C17: [mh_sha256_init], any number of [mh_sha256_update] and [mh_sha256_finalize] give the
    multi-hash SHA-256 of all the bytes in a row, as mh_sha256.h defines it over the SHA-256
    of the standard: the message is padded to whole blocks of 1024 bytes, its words are dealt
    out to 16 segments, and SHA-256 of the digests of the segments is the digest.  It makes
    no difference where the message is cut, and it is the same for every block function that
    compresses each segment, such as [mh_sha256_block_base]. *)
Theorem mh_sha256_streams block pieces :
  block_ok block → Z.of_nat (length (mjoin pieces)) < 4294967296 →
  hash_pieces block pieces = MH_SHA256 (mjoin pieces).
Proof.
  intros Hb Hlen. apply (finalize_ok _ Hb); [|done].
  apply (pieces_ok block pieces Hb mh_sha256_init []); [apply init_ok|done].
Qed.

Lemma mh_sha256_streams_witness :
  let pieces := [replicate 1500 Byte.x61; []; replicate 600 Byte.x62] in
  hash_pieces mh_sha256_block_base pieces = MH_SHA256 (mjoin pieces).
Proof. apply mh_sha256_streams; [exact block_base_ok|by vm_compute]. Defined.

(** The digest of [checksum_gen]. *)
Lemma mh_sha256_spec m : Z.of_nat (length m) < 4294967296 → mh_sha256 m = MH_SHA256 m.
Proof.
  intros Hlen. pose proof (update_ok _ block_base_ok _ [] m (length m) init_ok ltac:(done) Hlen) as H.
  rewrite firstn_all in H. apply (finalize_ok _ block_base_ok); [|done]. apply H. simpl. lia.
Qed.

(** It has 32 bytes, also of more bytes than [mh_sha256_update] takes at once. *)
Lemma mh_sha256_size bytes : checksum_wf (mh_sha256 bytes).
Proof.
  unfold mh_sha256. generalize (mh_sha256_update mh_sha256_block_base bytes (Z.of_nat (length bytes)) mh_sha256_init).
  intros ctx. unfold mh_sha256_finalize, mh_sha256_tail. cbv zeta.
  destruct (if (_ <? _)%nat then _ else _) as [[P D] F]. destruct (mh_sha256_block_base _ 1 D F) as [D' F'].
  unfold checksum_wf. cbn [fst]. by rewrite length_bytes_of, length_sha256_for.
Qed.

(** C18: the portable code, which works on the 16 segments side by side, a step of all of them
    at a time, gives the digest of the reference that takes each segment out of the block and
    hashes it by itself, whatever the buffers of the reference hold. *)
Theorem mh_sha256_ref_same partial frame buffer :
  Z.of_nat (length buffer) < 4294967296 → length partial = 2048%nat → length frame = 16%nat →
  mh_sha256_ref partial frame buffer (Z.of_nat (length buffer)) = mh_sha256 buffer.
Proof.
  intros Hlen HP HF. rewrite mh_sha256_spec by done. unfold mh_sha256_ref.
  assert (Hab : absorbed [] init_digests frame) by (destruct (cx_blocks _ _ init_ok); by split).
  destruct (update_blocks_ok _ block_ref_ok [] buffer init_digests frame eq_refl Hab Hlen) as (D & F & -> & HD).
  pose proof (update_rest_ok [] [] buffer partial D F _ eq_refl HD HP eq_refl) as [_ HP' HR' Hab'].
  cbn [app] in *. cbn [partial_block_buffer mh_sha256_interim_digests frame_buffer] in *.
  destruct (tail_ok _ block_ref_ok _ buffer D F Hlen HP' HR' Hab') as (P & D' & F' & -> & Hab2).
  unfold MH_SHA256. by rewrite <-(segments_digest _ _ _ Hab2).
Qed.

Lemma mh_sha256_ref_same_witness :
  let buffer := replicate 3000 Byte.x61 in
  mh_sha256_ref (replicate 2048 Byte.x55) (replicate 16 []) buffer 3000 = mh_sha256 buffer.
Proof. apply (mh_sha256_ref_same (replicate 2048 Byte.x55) (replicate 16 []) (replicate 3000 Byte.x61)); by vm_compute. Defined.
