(* ===== verification/CellIc.v ===== *)
(** cell_ic.c: the integrity code of a cell, two counters that differ while the
    cell is being changed. *)

From S2P Require Import Prelude Monad.

Record cell_ic := CellIc {
  entry_code : Z; (* uint32_t *)
  exit_code : Z;  (* uint32_t *)
}.

Definition cell_ic_init : cell_ic := CellIc 0 0.

Definition cell_ic_sane (ic : cell_ic) : bool := entry_code ic =? exit_code ic.

Definition cell_ic_on_entry : M cell_ic Z :=
  modify (λ ic, CellIc (u32 (entry_code ic + 1)) (exit_code ic));;
  sync_synchronize;;
  gets entry_code.

Definition cell_ic_on_exit : M cell_ic Z :=
  sync_synchronize;;
  modify (λ ic, CellIc (entry_code ic) (entry_code ic));;
  sync_synchronize;;
  gets exit_code.

Definition cell_ic_wf (ic : cell_ic) : Prop :=
  0 ≤ entry_code ic < 4294967296 ∧ 0 ≤ exit_code ic < 4294967296.

Lemma u32_succ_ne x : 0 ≤ x < 4294967296 → u32 (x + 1) ≠ x.
Proof.
  intros. unfold u32. destruct (decide (x = 4294967295)) as [->|]; [done|].
  rewrite Z.mod_small; lia.
Qed.
