(* ===== verification/CellDirEntry.v ===== *)
(** cell_dir_entry.c: a directory entry, the reference of a chunk in the cell, as
    the record the directory blocks hold and as the 36 bytes the overflow area
    stores. *)

From S2P Require Import Prelude Monad Slab Checksum.
From coqutil Require Import Word.LittleEndianList.

Definition sizeof_cell_dir_entry : Z := 36.

Record cell_dir_entry := DirEntry {
  de_checksum : checksum;
  de_offset : Z; (* uint32_t offset :31 *)
  de_set : Z;    (* uint32_t set : 1 *)
}.

Definition cell_dir_entry_init : cell_dir_entry := DirEntry checksum_init 0 0.

#[export] Instance cell_dir_entry_inhabited : Inhabited cell_dir_entry :=
  populate cell_dir_entry_init.

(** [cell_dir_entry_copy(to, from)] between two records. *)
Definition cell_dir_entry_copy (from : cell_dir_entry) : cell_dir_entry := from.

(** [cell_dir_entry_set]: the offset is cut to its 31 bits. *)
Definition cell_dir_entry_set (e : cell_dir_entry) (c : checksum) (offset : Z) : cell_dir_entry :=
  DirEntry c (offset `mod` 2147483648) 1.

Definition cell_dir_entry_wf (e : cell_dir_entry) : Prop :=
  checksum_wf (de_checksum e) ∧ 0 ≤ de_offset e < 2147483648 ∧ 0 ≤ de_set e < 2.

(** ** The layout in memory *)

Definition de_word (e : cell_dir_entry) : Z :=
  bf_set 31 1 (de_set e) (bf_set 0 31 (de_offset e) 0).

Definition de_bytes (e : cell_dir_entry) : list byte :=
  de_checksum e ++ le_split 4 (de_word e).

(** The entry that the 36 bytes at [a] represent. *)
Definition de_at (s : slab) (a : Z) : cell_dir_entry :=
  let w := rd32 s (a + 32) in
  DirEntry (rd s a 32) (bf_get 0 31 w) (bf_get 31 1 w).

(** [cell_dir_entry_copy] out of the memory. *)
Definition load_entry (a : Z) : M slab cell_dir_entry := Do (λ s,
  if in_slab s a 36 then (Ok (de_at s a), s) else (Err OutOfBounds, s)).

#[global] Arguments load_entry : simpl never.

Section layout.
Lemma load_entry_ok s a : 0 ≤ a → a + 36 ≤ s_lim s → load_entry a s = (Ok (de_at s a), s).
Proof. intros. unfold load_entry, run. by rewrite in_slab_true. Qed.

Lemma de_word_bound e : 0 ≤ de_word e < 4294967296.
Proof. apply (bf_set_bound 32); [lia..|]. apply (bf_set_bound 32); lia. Qed.

Lemma length_de_bytes e : checksum_wf (de_checksum e) → length (de_bytes e) = 36%nat.
Proof. intros H. unfold de_bytes. by rewrite length_app, H, length_le_split. Qed.

Lemma de_at_wf s a : cell_dir_entry_wf (de_at s a).
Proof.
  split_and!; simpl.
  - apply length_rd.
  - apply (bf_get_bound 0 31); lia.
  - apply (bf_get_bound 0 31); lia.
  - apply (bf_get_bound 31 1); lia.
  - apply (bf_get_bound 31 1); lia.
Qed.

(** An entry that was stored is the entry that is read. *)
Lemma de_at_store s a e : cell_dir_entry_wf e → de_at (wr s a (de_bytes e)) a = e.
Proof.
  intros (Hc & Ho & Hs). pose proof (length_de_bytes e Hc) as Hlen.
  assert (rd (wr s a (de_bytes e)) a 36 = de_bytes e) as Hrd by by apply rd_wr_same.
  change 36%nat with (32 + 4)%nat in Hrd. rewrite rd_app in Hrd.
  apply app_inj_1 in Hrd as [Hr1 Hr2]; [|by rewrite length_rd].
  unfold de_at. rewrite Hr1.
  assert (rd32 (wr s a (de_bytes e)) (a + 32) = de_word e) as ->.
  { unfold rd32. replace (a + 32) with (a + Z.of_nat 32) by lia. rewrite Hr2.
    rewrite le_combine_split. apply Z.mod_small, de_word_bound. }
  unfold de_word. rewrite bf_get_set_same, bf_get_set_diff, bf_get_set_same by lia.
  rewrite !Z.mod_small by lia. by destruct e.
Qed.

Lemma de_at_agree s s' lo hi a :
  agree s s' lo hi → lo ≤ a → a + 36 ≤ hi → de_at s' a = de_at s a.
Proof.
  intros H ??. unfold de_at.
  by erewrite (agree_rd _ _ _ _ a), (agree_rd32 _ _ _ _ (a + 32)) by (done || lia).
Qed.

(** [cell_dir_entry_copy] between two places of the memory copies the entry. *)
Lemma de_at_copy s a b : de_at (wr s a (rd s b 36)) a = de_at s b.
Proof.
  assert (rd (wr s a (rd s b 36)) a (32 + 4) = rd s b (32 + 4)) as Hrd
    by (apply rd_wr_same, length_rd).
  rewrite !rd_app in Hrd. apply app_inj_1 in Hrd as [Hr1 Hr2]; [|by rewrite !length_rd].
  unfold de_at, rd32. change (Z.of_nat 32) with 32 in Hr2. by rewrite Hr1, Hr2.
Qed.
End layout.

#[export] Hint Resolve de_at_wf : slab.
