(* ===== verification/CellDirBlock.v ===== *)
(** cell_dir_block.c: a directory block, three entry slots with a count of the
    used ones and a count of the entries of the block that went to the overflow
    area. *)

From S2P Require Import Prelude Monad Checksum CellDirEntry.

Definition CELL_DIR_BLOCK_ENTRIES : nat := 3.

Record cell_dir_block := DirBlock {
  entries : list cell_dir_entry;
  block_entry_count : Z;    (* uint32_t entry_count :4 *)
  block_overflow_count : Z; (* uint32_t overflow_count :12 *)
}.

Definition cell_dir_block_init : cell_dir_block :=
  DirBlock (replicate CELL_DIR_BLOCK_ENTRIES cell_dir_entry_init) 0 0.

#[export] Instance cell_dir_block_inhabited : Inhabited cell_dir_block :=
  populate cell_dir_block_init.

Definition cell_dir_block_add (e : cell_dir_entry) : M cell_dir_block bool :=
  b ← get;
  match list_find (λ x, de_set x = 0) (entries b) with
  | Some (i, _) =>
      modify (λ b, DirBlock (<[i := cell_dir_entry_copy e]> (entries b))
                     (block_entry_count b) (block_overflow_count b));;
      modify (λ b, DirBlock (entries b) (u4 (block_entry_count b + 1))
                     (block_overflow_count b));;
      mret true
  | None => mret false
  end.

(** [cell_dir_block_find]: the index of the slot instead of its address. *)
Definition cell_dir_block_find (b : cell_dir_block) (c : checksum) : option nat :=
  if block_entry_count b =? 0 then None
  else fst <$> list_find (λ x, de_set x ≠ 0 ∧ checksum_compare c (de_checksum x) = 0)
                 (entries b).

Definition cell_dir_block_remove (c : checksum) : M cell_dir_block bool :=
  b ← get;
  match cell_dir_block_find b c with
  | Some i =>
      modify (λ b, DirBlock (<[i := cell_dir_entry_init]> (entries b))
                     (block_entry_count b) (block_overflow_count b));;
      modify (λ b, DirBlock (entries b) (u4 (block_entry_count b - 1))
                     (block_overflow_count b));;
      mret true
  | None => mret false
  end.

Definition cell_dir_block_full (b : cell_dir_block) : bool :=
  block_entry_count b =? Z.of_nat CELL_DIR_BLOCK_ENTRIES.

(** The out-parameter [cell_dir_entry] is written only when the result is [true]:
    it is the result. *)
Definition cell_dir_block_get_chunk (b : cell_dir_block) (c : checksum) : option cell_dir_entry :=
  match cell_dir_block_find b c with
  | Some i => cell_dir_entry_copy <$> entries b !! i
  | None => None
  end.

Definition cell_dir_block_overflowed (b : cell_dir_block) : bool :=
  0 <? block_overflow_count b.

Definition cell_dir_block_increment_overflow : M cell_dir_block Z :=
  modify (λ b, DirBlock (entries b) (block_entry_count b) (u12 (block_overflow_count b + 1)));;
  gets block_overflow_count.

Definition cell_dir_block_decrement_overflow : M cell_dir_block Z :=
  n ← gets block_overflow_count;
  ALWAYS (0 <? n);;
  modify (λ b, DirBlock (entries b) (block_entry_count b) (u12 (block_overflow_count b - 1)));;
  gets block_overflow_count.

(** ** The contents of a block *)

(** The references a list of slots holds. *)
Definition de_ref (e : cell_dir_entry) : checksum * Z := (de_checksum e, de_offset e).
Definition slot_refs (es : list cell_dir_entry) : list (checksum * Z) :=
  de_ref <$> filter (λ e, de_set e ≠ 0) es.
Definition block_refs (b : cell_dir_block) : list (checksum * Z) := slot_refs (entries b).

Record block_wf (b : cell_dir_block) : Prop := {
  bw_slots : length (entries b) = CELL_DIR_BLOCK_ENTRIES;
  bw_entries : Forall cell_dir_entry_wf (entries b);
  bw_count : block_entry_count b = Z.of_nat (length (block_refs b));
}.

Section slots.
Lemma slot_refs_app l1 l2 : slot_refs (l1 ++ l2) = slot_refs l1 ++ slot_refs l2.
Proof. unfold slot_refs. by rewrite filter_app, fmap_app. Qed.

Lemma slot_refs_length es : (length (slot_refs es) ≤ length es)%nat.
Proof. unfold slot_refs. rewrite length_fmap. apply length_filter. Qed.

Lemma slot_refs_cons_set e es : de_set e ≠ 0 → slot_refs (e :: es) = de_ref e :: slot_refs es.
Proof. intros. unfold slot_refs. by rewrite filter_cons_True. Qed.

Lemma slot_refs_cons_free e es : de_set e = 0 → slot_refs (e :: es) = slot_refs es.
Proof. intros. unfold slot_refs. rewrite filter_cons_False; [done|]. intros ?. by auto. Qed.

(** The slots around slot [i]. *)
Lemma slots_split es i x (e : cell_dir_entry) :
  es !! i = Some x →
  es = take i es ++ x :: drop (S i) es ∧ <[i := e]> es = take i es ++ e :: drop (S i) es.
Proof.
  intros Hi. split; [by rewrite take_drop_middle|].
  rewrite insert_take_drop; [done|]. by apply lookup_lt_is_Some; eauto.
Qed.

Lemma slot_refs_fill es i x e :
  es !! i = Some x → de_set x = 0 → de_set e ≠ 0 →
  slot_refs (<[i := e]> es) ≡ₚ de_ref e :: slot_refs es.
Proof.
  intros Hi Hx He. destruct (slots_split es i x e Hi) as [Hes Hins].
  rewrite Hins. rewrite Hes at 3. rewrite !slot_refs_app.
  rewrite slot_refs_cons_set, slot_refs_cons_free by done. solve_Permutation.
Qed.

Lemma slot_refs_clear es i x :
  es !! i = Some x → de_set x ≠ 0 →
  slot_refs es ≡ₚ de_ref x :: slot_refs (<[i := cell_dir_entry_init]> es).
Proof.
  intros Hi Hx. destruct (slots_split es i x cell_dir_entry_init Hi) as [Hes Hins].
  rewrite Hins. rewrite Hes at 1. rewrite !slot_refs_app.
  rewrite slot_refs_cons_set, slot_refs_cons_free by done. solve_Permutation.
Qed.

Lemma slot_refs_full es : Forall (λ x, de_set x ≠ 0) es → length (slot_refs es) = length es.
Proof.
  intros H. unfold slot_refs. rewrite length_fmap.
  induction H; [done|]. rewrite filter_cons_True by done. simpl. lia.
Qed.

Lemma elem_of_slot_refs es r : r ∈ slot_refs es ↔ ∃ x, x ∈ es ∧ de_set x ≠ 0 ∧ de_ref x = r.
Proof.
  unfold slot_refs. rewrite list_elem_of_fmap. setoid_rewrite list_elem_of_filter. naive_solver.
Qed.
End slots.

(** ** The operations on the contents *)
Section block.
Lemma block_init_wf : block_wf cell_dir_block_init.
Proof.
  split; simpl; [done| |done].
  repeat constructor; simpl; lia.
Qed.

Lemma block_refs_bound b : block_wf b → (length (block_refs b) ≤ 3)%nat.
Proof. intros [Hl _ _]. pose proof (slot_refs_length (entries b)). unfold block_refs. by rewrite Hl in *. Qed.

(** A block takes an entry unless its three slots are used. *)
Lemma cell_dir_block_add_spec b e :
  block_wf b → cell_dir_entry_wf e → de_set e ≠ 0 →
  (cell_dir_block_full b = true ∧ cell_dir_block_add e b = (Ok false, b)) ∨
  (cell_dir_block_full b = false ∧
   ∃ b', cell_dir_block_add e b = (Ok true, b') ∧ block_wf b'
     ∧ block_refs b' ≡ₚ de_ref e :: block_refs b
     ∧ block_overflow_count b' = block_overflow_count b).
Proof.
  intros Hwf He Hset. destruct Hwf as [Hl Hes Hc].
  unfold cell_dir_block_add, cell_dir_block_full. rewrite bind_get.
  destruct (list_find _ (entries b)) as [[i x]|] eqn:Hf.
  - right. apply list_find_Some in Hf as (Hi & Hx & _).
    pose proof (slot_refs_fill _ _ _ e Hi Hx Hset) as Hp.
    pose proof (Permutation_length Hp) as Hpl. simpl in Hpl.
    pose proof (slot_refs_length (<[i:=e]> (entries b))) as Hb.
    rewrite length_insert in Hb. unfold block_refs in *.
    unfold CELL_DIR_BLOCK_ENTRIES in *.
    split; [lia|]. eexists. split; [reflexivity|]. simpl. split_and!; [split; simpl|done|done].
    + by rewrite length_insert.
    + by apply Forall_insert.
    + rewrite u4_id by lia. unfold block_refs, cell_dir_entry_copy; simpl. lia.
  - left. apply list_find_None in Hf. split; [|done].
    rewrite Hc. unfold block_refs. rewrite slot_refs_full by done. rewrite Hl. done.
Qed.

Lemma cell_dir_block_find_spec b c :
  block_wf b → checksum_wf c →
  match cell_dir_block_find b c with
  | Some i => ∃ x, entries b !! i = Some x ∧ de_set x ≠ 0 ∧ de_checksum x = c
  | None => ∀ r, r ∈ block_refs b → r.1 ≠ c
  end.
Proof.
  intros [Hl Hes Hc] Hcw. unfold cell_dir_block_find.
  destruct (Z.eqb_spec (block_entry_count b) 0) as [E|E].
  - intros r Hr. rewrite E in Hc. destruct (block_refs b); [|simpl in *; lia].
    by apply not_elem_of_nil in Hr.
  - destruct (list_find _ (entries b)) as [[i x]|] eqn:Hf; simpl.
    + apply list_find_Some in Hf as (Hi & [Hs Hx] & _). exists x. split_and!; [done..|].
      symmetry. apply checksum_compare_eq in Hx; [done..|].
      rewrite Forall_lookup in Hes. by apply (Hes i x).
    + apply list_find_None in Hf. intros r (x & Hx & Hs & <-)%elem_of_slot_refs Heq.
      rewrite Forall_forall in Hf, Hes. apply (Hf x Hx). split; [done|].
      apply checksum_compare_eq; [done|by apply Hes|]. done.
Qed.

(** Removal clears the slot of the checksum, when there is one. *)
Lemma cell_dir_block_remove_spec b c :
  block_wf b → checksum_wf c →
  (∃ b' o, cell_dir_block_remove c b = (Ok true, b') ∧ block_wf b'
     ∧ block_refs b ≡ₚ (c, o) :: block_refs b'
     ∧ block_overflow_count b' = block_overflow_count b) ∨
  (cell_dir_block_remove c b = (Ok false, b) ∧ ∀ r, r ∈ block_refs b → r.1 ≠ c).
Proof.
  intros Hwf Hcw. pose proof (cell_dir_block_find_spec b c Hwf Hcw) as Hf.
  pose proof (block_refs_bound b Hwf) as Hb. destruct Hwf as [Hl Hes Hc].
  unfold cell_dir_block_remove. rewrite bind_get.
  destruct (cell_dir_block_find b c) as [i|].
  - left. destruct Hf as (x & Hi & Hs & <-).
    pose proof (slot_refs_clear _ _ _ Hi Hs) as Hp.
    pose proof (Permutation_length Hp) as Hpl. simpl in Hpl.
    eexists _, (de_offset x). split; [reflexivity|]. unfold block_refs in *; simpl.
    split_and!; [split; simpl|done|done].
    + by rewrite length_insert.
    + apply Forall_insert; [done|]. split_and!; simpl; lia || done.
    + rewrite u4_id by lia. unfold block_refs; simpl. lia.
  - right. done.
Qed.

Lemma cell_dir_block_get_chunk_spec b c :
  block_wf b → checksum_wf c →
  match cell_dir_block_get_chunk b c with
  | Some e => de_checksum e = c ∧ de_ref e ∈ block_refs b
  | None => ∀ r, r ∈ block_refs b → r.1 ≠ c
  end.
Proof.
  intros Hwf Hcw. pose proof (cell_dir_block_find_spec b c Hwf Hcw) as Hf.
  unfold cell_dir_block_get_chunk. destruct (cell_dir_block_find b c) as [i|]; [|done].
  destruct Hf as (x & Hi & Hs & Hx). rewrite Hi; simpl. split; [done|].
  apply elem_of_slot_refs. exists x. split_and!; [|done..]. by eapply list_elem_of_lookup_2.
Qed.
End block.
