(* ===== verification/CellDirOverflow.v ===== *)
(** cell_dir_overflow.c: the overflow area of the cell directory, a stack of
    36-byte entries that grows down from the cell header, with linear search. *)

From S2P Require Import Prelude Monad Slab Checksum CellDirEntry CellDirBlock.
From coqutil Require Import Word.LittleEndianList.

Record cell_dir_overflow := DirOverflow {
  overflow_count : Z; (* uint32_t overflow_count :16 *)
}.

Definition cell_dir_overflow_init : cell_dir_overflow := DirOverflow 0.

(** The functions take the structure and [buffer_top], which points into the
    memory of the cell: the state is both. *)
Definition ovst : Type := cell_dir_overflow * slab.
Definition in_mem {A} (m : M slab A) : M ovst A := zoom snd (λ s st, (st.1, s)) m.
Definition set_count (n : Z) : M ovst unit := modify (λ st, (DirOverflow n, st.2)).
Definition get_count : M ovst Z := gets (λ st, overflow_count st.1).

Lemma in_mem_ok {A} (m : M slab A) o s a s' :
  m s = (Ok a, s') → in_mem m (o, s) = (Ok a, (o, s')).
Proof. intros H. unfold in_mem. by erewrite zoom_ok by exact H. Qed.

Definition cell_dir_overflow_add (buffer_top : Z) (e : cell_dir_entry) : M ovst Z :=
  n ← get_count;
  set_count (u16 (n + 1));;
  n ← get_count;
  let entry := buffer_top - n * sizeof_cell_dir_entry in
  in_mem (store_bytes entry (de_bytes e));;
  get_count.

(** The loop [for (i = 0; i < overflow_count; i++, ptr++)] of remove and get_chunk,
    [n] the iterations that are left: the address of the first entry of the checksum. *)
Fixpoint cell_dir_overflow_scan (n : nat) (ptr : Z) (c : checksum) : M slab (option Z) :=
  match n with
  | O => mret None
  | S n =>
      c' ← load_bytes ptr 32;
      if checksum_compare c' c =? 0 then mret (Some ptr)
      else cell_dir_overflow_scan n (ptr + sizeof_cell_dir_entry) c
  end.

Definition memset_entry (a : Z) : M slab unit := store_bytes a (replicate 36 Byte.x00).

Definition cell_dir_overflow_remove (buffer_top : Z) (c : checksum) : M ovst bool :=
  n ← get_count;
  let entry := buffer_top - n * sizeof_cell_dir_entry in
  if n =? 1 then
    c' ← in_mem (load_bytes entry 32);
    if checksum_compare c' c =? 0 then
      in_mem (memset_entry entry);;
      set_count 0;;
      mret true
    else mret false
  else
    found ← in_mem (cell_dir_overflow_scan (Z.to_nat n) entry c);
    match found with
    | Some ptr =>
        bytes ← in_mem (load_bytes entry 36);
        in_mem (store_bytes ptr bytes);;
        in_mem (memset_entry entry);;
        set_count (u16 (n - 1));;
        mret true
    | None => mret false
    end.

(** The out-parameter is written only when the result is [true]: it is the result. *)
Definition cell_dir_overflow_get_chunk (buffer_top : Z) (c : checksum)
    : M ovst (option cell_dir_entry) :=
  n ← get_count;
  if n =? 0 then mret None
  else
    let entry := buffer_top - n * sizeof_cell_dir_entry in
    found ← in_mem (cell_dir_overflow_scan (Z.to_nat n) entry c);
    match found with
    | Some ptr => e ← in_mem (load_entry ptr); mret (Some e)
    | None => mret None
    end.

(** ** The contents of the overflow area *)

(** The [n] entries from address [a] on. *)
Fixpoint entries_at (s : slab) (a : Z) (n : nat) : list cell_dir_entry :=
  match n with
  | O => []
  | S n => de_at s a :: entries_at s (a + 36) n
  end.

Definition overflow_entries (s : slab) (top : Z) (n : Z) : list cell_dir_entry :=
  entries_at s (top - n * 36) (Z.to_nat n).

Section entries_at.
Lemma length_entries_at s a n : length (entries_at s a n) = n.
Proof. revert a. induction n; intros; simpl; [done|]. by rewrite IHn. Qed.

Lemma entries_at_app s a n m :
  entries_at s a (n + m) = entries_at s a n ++ entries_at s (a + 36 * Z.of_nat n) m.
Proof.
  revert a. induction n as [|n IH]; intros a; simpl.
  - by rewrite Z.mul_0_r, Z.add_0_r.
  - rewrite IH. do 3 f_equal. lia.
Qed.

Lemma entries_at_agree s s' lo hi a n :
  agree s s' lo hi → lo ≤ a → a + 36 * Z.of_nat n ≤ hi → entries_at s' a n = entries_at s a n.
Proof.
  intros H. revert a. induction n as [|n IH]; intros a ??; simpl; [done|].
  rewrite IH by lia. f_equal. by eapply de_at_agree; [done|lia..].
Qed.

Lemma entries_at_lookup s a n i :
  (i < n)%nat → entries_at s a n !! i = Some (de_at s (a + 36 * Z.of_nat i)).
Proof.
  revert a i. induction n as [|n IH]; intros a [|i] ?; simpl; try lia.
  - by rewrite Z.add_0_r.
  - rewrite IH by lia. do 2 f_equal. lia.
Qed.

Lemma entries_at_store s a n i e :
  (i < n)%nat →
  entries_at (wr s (a + 36 * Z.of_nat i) e) a n =
    <[i := de_at (wr s (a + 36 * Z.of_nat i) e) (a + 36 * Z.of_nat i)]> (entries_at s a n)
  ∨ (36 < length e)%nat.
Proof.
  intros Hi. destruct (decide (36 < length e)%nat) as [|Hle]; [by right|left].
  apply list_eq. intros j. destruct (decide (j < n)%nat) as [Hj|].
  - rewrite entries_at_lookup by done. destruct (decide (i = j)) as [->|Hne].
    + by rewrite list_lookup_insert_eq by (rewrite length_entries_at; lia).
    + rewrite list_lookup_insert_ne, entries_at_lookup by done. f_equal.
      apply de_at_agree with (lo := a + 36 * Z.of_nat j) (hi := a + 36 * Z.of_nat j + 36);
        [apply agree_wr|..]; lia.
  - rewrite !lookup_ge_None_2; [done|rewrite length_insert, length_entries_at; lia|].
    rewrite length_entries_at. lia.
Qed.

Lemma entries_at_wf s a n : Forall cell_dir_entry_wf (entries_at s a n).
Proof. revert a. induction n; intros a; constructor; auto with slab. Qed.

(** The scan finds the first entry of the checksum. *)
Lemma cell_dir_overflow_scan_spec s n a c :
  0 ≤ a → a + 36 * Z.of_nat n ≤ s_lim s → checksum_wf c →
  (∃ i, (i < n)%nat ∧ cell_dir_overflow_scan n a c s = (Ok (Some (a + 36 * Z.of_nat i)), s)
      ∧ de_checksum (de_at s (a + 36 * Z.of_nat i)) = c) ∨
  (cell_dir_overflow_scan n a c s = (Ok None, s)
      ∧ ∀ e, e ∈ entries_at s a n → de_checksum e ≠ c).
Proof.
  intros Ha Hlim Hc. revert a Ha Hlim. induction n as [|n IH]; intros a Ha Hlim; simpl.
  { right. split; [done|]. intros e He. by apply not_elem_of_nil in He. }
  rewrite (bind_ok _ _ _ _ _ (load_bytes_ok s a 32 ltac:(lia) ltac:(lia))).
  destruct (Z.eqb_spec (checksum_compare (rd s a 32) c) 0) as [E|E].
  - left. exists O. rewrite Z.mul_0_r, Z.add_0_r. split_and!; [lia|done|].
    simpl. apply checksum_compare_eq in E; [done|apply length_rd|done].
  - unfold sizeof_cell_dir_entry.
    destruct (IH (a + 36)) as [(i & Hi & Hr & Hx)|[Hr Hx]]; [lia..| |].
    + left. exists (S i). replace (a + 36 * Z.of_nat (S i)) with (a + 36 + 36 * Z.of_nat i) by lia.
      split_and!; [lia|done..].
    + right. split; [done|]. intros e [->|He]%elem_of_cons; [|by apply Hx].
      simpl. intros ?. apply E. apply checksum_compare_eq; [apply length_rd|done..].
Qed.
End entries_at.

(** ** The operations on the contents *)

(** Moving the lowest entry over entry [i] and clearing it drops entry [i]. *)
Lemma overflow_swap s top n i :
  let a := top - n * 36 in
  let p := a + 36 * Z.of_nat i in
  (i < Z.to_nat n)%nat →
  entries_at s a (Z.to_nat n) ≡ₚ
    de_at s p :: entries_at (wr (wr s p (rd s a 36)) a (replicate 36 Byte.x00))
                   (top - (n - 1) * 36) (Z.to_nat (n - 1)).
Proof.
  intros a p Hi. set (s1 := wr s p (rd s a 36)). replace (top - (n - 1) * 36) with (a + 36) by lia.
  replace (Z.to_nat n) with (S (Z.to_nat (n - 1))) in * by lia. cbn [entries_at].
  assert (entries_at (wr s1 a (replicate 36 Byte.x00)) (a + 36) (Z.to_nat (n - 1)) =
          entries_at s1 (a + 36) (Z.to_nat (n - 1))) as ->.
  { eapply entries_at_agree; [apply agree_wr with (lo := a + 36); right|..]; [simpl|done..]; lia. }
  destruct i as [|i].
  - assert (p = a) as Hp by lia. unfold s1. rewrite Hp.
    rewrite (entries_at_agree s (wr s a (rd s a 36)) (a + 36)
      (a + 36 + 36 * Z.of_nat (Z.to_nat (n - 1))));
      [done|apply agree_wr; rewrite length_rd|..]; lia.
  - assert (p = a + 36 + 36 * Z.of_nat i) as Hp by lia.
    destruct (entries_at_store s (a + 36) (Z.to_nat (n - 1)) i (rd s a 36)) as [Hs|Hs];
      [lia| |rewrite length_rd in Hs; lia].
    rewrite <-Hp in Hs. fold s1 in Hs. rewrite Hs. unfold s1 at 1. rewrite de_at_copy.
    apply Permutation_insert_swap. rewrite Hp. apply entries_at_lookup. lia.
Qed.

Section overflow.
Context (top : Z).

Record overflow_wf (st : ovst) : Prop := {
  ow_count : 0 ≤ overflow_count st.1 < 65536;
  ow_low : 0 ≤ top - overflow_count st.1 * 36;
  ow_top : top ≤ s_lim st.2;
}.
Definition entries_of (st : ovst) : list cell_dir_entry :=
  overflow_entries st.2 top (overflow_count st.1).

Lemma entries_of_wf st : Forall cell_dir_entry_wf (entries_of st).
Proof. apply entries_at_wf. Qed.

Lemma length_entries_of st :
  0 ≤ overflow_count st.1 → Z.of_nat (length (entries_of st)) = overflow_count st.1.
Proof. intros. unfold entries_of, overflow_entries. rewrite length_entries_at. lia. Qed.

Lemma entries_of_agree st s' lo :
  agree st.2 s' lo top → 0 ≤ overflow_count st.1 → lo ≤ top - overflow_count st.1 * 36 →
  entries_of (st.1, s') = entries_of st.
Proof. intros. by eapply entries_at_agree; [done|simpl; lia..]. Qed.

(** Adding pushes the entry below the others and writes nothing else. *)
Lemma cell_dir_overflow_add_spec st e :
  overflow_wf st → overflow_count st.1 < 65535 →
  0 ≤ top - (overflow_count st.1 + 1) * 36 → cell_dir_entry_wf e →
  ∃ st', cell_dir_overflow_add top e st = (Ok (overflow_count st.1 + 1), st')
    ∧ overflow_wf st' ∧ overflow_count st'.1 = overflow_count st.1 + 1
    ∧ entries_of st' = e :: entries_of st
    ∧ agree st.2 st'.2 0 (top - (overflow_count st.1 + 1) * 36).
Proof.
  destruct st as [[n] s]; simpl. intros [Hn Hlow Htop] Hmax Hroom He; simpl in *.
  pose proof (length_de_bytes e ltac:(apply He)) as Hlen.
  set (a := top - (n + 1) * 36) in *.
  eexists (DirOverflow (n + 1), wr s a (de_bytes e)). split.
  { unfold cell_dir_overflow_add, set_count, get_count. mnorm.
    simpl. rewrite u16_id by lia. unfold sizeof_cell_dir_entry. fold a.
    rewrite (bind_ok _ _ _ _ _ (in_mem_ok _ _ _ _ _
      (store_bytes_ok s a (de_bytes e) ltac:(lia) ltac:(rewrite Hlen; lia)))).
    done. }
  split_and!; [by split; simpl; lia|done| |by apply agree_wr; lia].
  unfold entries_of, overflow_entries; simpl.
  replace (Z.to_nat (n + 1)) with (S (Z.to_nat n)) by lia; simpl. fold a.
  rewrite de_at_store by done. f_equal.
  replace (a + 36) with (top - n * 36) by lia.
  eapply entries_at_agree with (lo := top - n * 36) (hi := top); [apply agree_wr|..]; lia.
Qed.

Lemma cell_dir_overflow_get_chunk_spec st c :
  overflow_wf st → checksum_wf c →
  ∃ r, cell_dir_overflow_get_chunk top c st = (Ok r, st)
    ∧ match r with
      | Some e => de_checksum e = c ∧ e ∈ entries_of st
      | None => ∀ e, e ∈ entries_of st → de_checksum e ≠ c
      end.
Proof.
  destruct st as [[n] s]; simpl. intros [Hn Hlow Htop] Hc; simpl in *.
  unfold cell_dir_overflow_get_chunk, get_count. mnorm. simpl.
  destruct (Z.eqb_spec n 0) as [->|Hn0].
  { exists None. split; [done|]. intros e He. by apply not_elem_of_nil in He. }
  unfold sizeof_cell_dir_entry, entries_of, overflow_entries; simpl.
  destruct (cell_dir_overflow_scan_spec s (Z.to_nat n) (top - n * 36) c)
    as [(i & Hi & Hr & Hx)|[Hr Hx]]; [lia..|done| |];
    rewrite (bind_ok _ _ _ _ _ (in_mem_ok _ _ _ _ _ Hr)).
  - rewrite (bind_ok _ _ _ _ _ (in_mem_ok _ _ _ _ _
      (load_entry_ok s (top - n * 36 + 36 * Z.of_nat i) ltac:(lia) ltac:(lia)))).
    eexists. split; [done|]; simpl. split; [done|].
    eapply list_elem_of_lookup_2, entries_at_lookup. lia.
  - by eexists.
Qed.

(** Removal moves the last entry to the place of the removed one. *)
Lemma cell_dir_overflow_remove_spec st c :
  overflow_wf st → checksum_wf c →
  (∃ st' e, cell_dir_overflow_remove top c st = (Ok true, st')
     ∧ overflow_wf st' ∧ overflow_count st'.1 = overflow_count st.1 - 1
     ∧ de_checksum e = c ∧ entries_of st ≡ₚ e :: entries_of st'
     ∧ agree st.2 st'.2 0 (top - overflow_count st.1 * 36)) ∨
  (cell_dir_overflow_remove top c st = (Ok false, st)
     ∧ ∀ e, e ∈ entries_of st → de_checksum e ≠ c).
Proof.
  destruct st as [[n] s]; simpl. intros [Hn Hlow Htop] Hc; simpl in *.
  unfold cell_dir_overflow_remove, get_count, set_count. mnorm.
  unfold sizeof_cell_dir_entry, entries_of, overflow_entries, memset_entry; simpl.
  set (a := top - n * 36) in *.
  destruct (Z.eqb_spec n 1) as [->|Hn1].
  - rewrite (bind_ok _ _ _ _ _ (in_mem_ok _ _ _ _ _
      (load_bytes_ok s a 32 ltac:(lia) ltac:(lia)))).
    change (entries_at s a (Z.to_nat 1)) with [de_at s a].
    destruct (Z.eqb_spec (checksum_compare (rd s a 32) c) 0) as [E|E].
    + left. rewrite (bind_ok _ _ _ _ _ (in_mem_ok _ _ _ _ _
        (store_bytes_ok s a (replicate 36 Byte.x00) ltac:(lia)
           ltac:(rewrite length_replicate; lia)))).
      apply checksum_compare_eq in E; [|apply length_rd|done].
      eexists _, (de_at s a). split; [done|]; simpl.
      split_and!; [by split; simpl; lia|done..|]. apply agree_wr; lia.
    + right. split; [done|]. intros e ->%list_elem_of_singleton Heq. apply E.
      apply checksum_compare_eq; [apply length_rd|done..].
  - destruct (cell_dir_overflow_scan_spec s (Z.to_nat n) a c)
      as [(i & Hi & Hr & Hx)|[Hr Hx]]; [lia..|done| |];
      rewrite (bind_ok _ _ _ _ _ (in_mem_ok _ _ _ _ _ Hr)); [left|by right].
    set (p := a + 36 * Z.of_nat i) in *.
    rewrite (bind_ok _ _ _ _ _ (in_mem_ok _ _ _ _ _
      (load_bytes_ok s a 36 ltac:(lia) ltac:(lia)))).
    rewrite (bind_ok _ _ _ _ _ (in_mem_ok _ _ _ _ _
      (store_bytes_ok s p (rd s a 36) ltac:(lia) ltac:(rewrite length_rd; lia)))).
    rewrite (bind_ok _ _ _ _ _ (in_mem_ok _ _ _ _ _
      (store_bytes_ok (wr s p (rd s a 36)) a (replicate 36 Byte.x00) ltac:(lia)
         ltac:(rewrite length_replicate, lim_wr; lia)))).
    mnorm. rewrite u16_id by lia.
    eexists _, (de_at s p). split; [done|]; simpl.
    split_and!; [by split; simpl; rewrite ?lim_wr; lia|done..| |].
    + by apply overflow_swap.
    + eapply agree_trans; apply agree_wr; rewrite ?length_rd; lia.
Qed.
End overflow.
