(* ===== verification/CellDir.v ===== *)
(** cell_dir.c: the directory of a cell, 256 blocks chosen by byte 17 of the
    checksum and the overflow area they share.  The file shows that it is a finite
    map from checksums to offsets. *)

From S2P Require Import Prelude Monad Slab Checksum CellDirEntry CellDirBlock CellDirOverflow.

Definition CELL_DIR_BLOCK_COUNT : nat := 256.
Definition CELL_DIR_BLOCK_CHECKSUM_BYTE : nat := 17.

Record cell_dir := CellDir {
  blocks : list cell_dir_block;
  overflow : cell_dir_overflow;
}.

Definition cell_dir_init : cell_dir :=
  CellDir (replicate CELL_DIR_BLOCK_COUNT cell_dir_block_init) cell_dir_overflow_init.

(** [checksum->bytes[CELL_DIR_BLOCK_CHECKSUM_BYTE]], a [uint8_t]. *)
Definition block_no (c : checksum) : nat :=
  Z.to_nat (checksum_byte CELL_DIR_BLOCK_CHECKSUM_BYTE c).

Definition dirst : Type := cell_dir * slab.

(** [&cell_dir->blocks[k]] and [&cell_dir->overflow]. *)
Definition put_block (k : nat) (b : cell_dir_block) (st : dirst) : dirst :=
  (CellDir (<[k := b]> (blocks st.1)) (overflow st.1), st.2).
Definition put_overflow (o : ovst) (st : dirst) : dirst := (CellDir (blocks st.1) o.1, o.2).
Definition ovst_of (st : dirst) : ovst := (overflow st.1, st.2).

#[export] Instance block_lens k : PLens (λ st : dirst, blocks st.1 !! k) (put_block k).
Proof.
  split; intros [[bs o] s]; unfold put_block; simpl; intros.
  - apply list_lookup_insert_eq. by eapply lookup_lt_Some.
  - by rewrite list_insert_insert_eq.
  - by rewrite list_insert_id.
Qed.
#[export] Instance overflow_lens : Lens ovst_of put_overflow.
Proof. split; [by intros ? []|done|by intros [[] ?]]. Qed.

Definition at_block {A} (k : nat) (m : M cell_dir_block A) : M dirst A :=
  zoom_opt (λ st, blocks st.1 !! k) (put_block k) m.
Definition at_overflow {A} (m : M ovst A) : M dirst A := zoom ovst_of put_overflow m.

Definition cell_dir_add (buffer_top : Z) (e : cell_dir_entry) : M dirst unit :=
  let k := block_no (de_checksum e) in
  added ← at_block k (cell_dir_block_add e);
  if negb added then
    at_overflow (cell_dir_overflow_add buffer_top e);;
    at_block k cell_dir_block_increment_overflow;;
    mret tt
  else mret tt.

Definition cell_dir_remove (buffer_top : Z) (c : checksum) : M dirst bool :=
  let k := block_no c in
  removed ← at_block k (cell_dir_block_remove c);
  if (removed : bool) then mret true
  else
    overflowed ← at_block k (gets cell_dir_block_overflowed);
    if (overflowed : bool) then
      removed ← at_overflow (cell_dir_overflow_remove buffer_top c);
      if (removed : bool) then at_block k cell_dir_block_decrement_overflow;; mret true
      else mret false
    else mret false.

Definition cell_dir_get_chunk (buffer_top : Z) (c : checksum) : M dirst (option cell_dir_entry) :=
  let k := block_no c in
  found ← at_block k (gets (λ b, cell_dir_block_get_chunk b c));
  match found with
  | Some e => mret (Some e)
  | None =>
      overflowed ← at_block k (gets cell_dir_block_overflowed);
      if (overflowed : bool) then at_overflow (cell_dir_overflow_get_chunk buffer_top c)
      else mret None
  end.

(** * The directory represents a finite map *)

Definition ov_count (st : dirst) : Z := overflow_count (overflow st.1).

(** The entries of block [k] in a list. *)
Definition in_block (k : nat) (e : cell_dir_entry) : Prop := block_no (de_checksum e) = k.
#[export] Instance in_block_dec k e : Decision (in_block k e).
Proof. unfold in_block. apply _. Defined.
Definition count_block (k : nat) (es : list cell_dir_entry) : Z :=
  Z.of_nat (length (filter (in_block k) es)).

Definition blocks_refs (bs : list cell_dir_block) : list (checksum * Z) :=
  mjoin (block_refs <$> bs).

Record block_ok (k : nat) (es : list cell_dir_entry) (b : cell_dir_block) : Prop := {
  bo_wf : block_wf b;
  bo_here : ∀ r, r ∈ block_refs b → block_no r.1 = k;
  bo_overflow : block_overflow_count b = count_block k es;
}.

Section rep.
Context (top : Z).

Definition dir_overflow (st : dirst) : list cell_dir_entry := entries_of top (ovst_of st).
Definition dir_refs (st : dirst) : list (checksum * Z) :=
  blocks_refs (blocks st.1) ++ (de_ref <$> dir_overflow st).

(** [dir_rep st d]: the directory holds the references [d], each one once. *)
Record dir_rep (st : dirst) (d : gmap checksum Z) : Prop := {
  dr_length : length (blocks st.1) = CELL_DIR_BLOCK_COUNT;
  dr_block : ∀ k b, blocks st.1 !! k = Some b → block_ok k (dir_overflow st) b;
  dr_overflow : overflow_wf top (ovst_of st);
  dr_count : ov_count st < 4096;
  dr_refs : dir_refs st ≡ₚ map_to_list d;
}.
End rep.

Section blocks.
Lemma block_no_lt c : (block_no c < CELL_DIR_BLOCK_COUNT)%nat.
Proof.
  unfold block_no, CELL_DIR_BLOCK_COUNT.
  pose proof (checksum_byte_bound CELL_DIR_BLOCK_CHECKSUM_BYTE c). lia.
Qed.

Lemma blocks_refs_split bs k b b' :
  bs !! k = Some b →
  blocks_refs bs ≡ₚ block_refs b ++ blocks_refs (take k bs ++ drop (S k) bs) ∧
  blocks_refs (<[k := b']> bs) ≡ₚ block_refs b' ++ blocks_refs (take k bs ++ drop (S k) bs).
Proof.
  intros Hk. rewrite insert_take_drop by (by eapply lookup_lt_Some).
  rewrite <-(take_drop_middle bs k b) at 1 by done.
  unfold blocks_refs. rewrite !fmap_app, !join_app; simpl. split; solve_Permutation.
Qed.

Lemma blocks_refs_add bs k b b' r :
  bs !! k = Some b → block_refs b' ≡ₚ r :: block_refs b →
  blocks_refs (<[k := b']> bs) ≡ₚ r :: blocks_refs bs.
Proof. intros Hk Hb. destruct (blocks_refs_split _ _ _ b' Hk) as [-> ->]. by rewrite Hb. Qed.

Lemma blocks_refs_same bs k b b' :
  bs !! k = Some b → block_refs b' = block_refs b →
  blocks_refs (<[k := b']> bs) ≡ₚ blocks_refs bs.
Proof. intros Hk Hb. destruct (blocks_refs_split _ _ _ b' Hk) as [-> ->]. by rewrite Hb. Qed.

Lemma elem_of_blocks_refs bs r :
  r ∈ blocks_refs bs → ∃ k b, bs !! k = Some b ∧ r ∈ block_refs b.
Proof.
  unfold blocks_refs. rewrite list_elem_of_join. intros (rs & Hr & Hrs).
  apply list_elem_of_fmap in Hrs as (b & -> & Hb).
  apply list_elem_of_lookup in Hb as [k Hk]. eauto.
Qed.

Lemma elem_of_blocks_refs_2 bs k b r :
  bs !! k = Some b → r ∈ block_refs b → r ∈ blocks_refs bs.
Proof.
  intros Hk Hr. destruct (blocks_refs_split _ _ _ b Hk) as [-> _]. set_solver.
Qed.

Lemma count_block_cons k e es :
  count_block k (e :: es) = (if decide (in_block k e) then 1 else 0) + count_block k es.
Proof.
  unfold count_block. rewrite filter_cons. destruct (decide (in_block k e)); simpl; lia.
Qed.

Lemma count_block_perm k es es' : es ≡ₚ es' → count_block k es = count_block k es'.
Proof. intros H. unfold count_block. by rewrite H. Qed.

Lemma count_block_zero k es : count_block k es = 0 → ∀ e, e ∈ es → ¬ in_block k e.
Proof.
  unfold count_block. intros H e He Hin.
  assert (e ∈ filter (in_block k) es) as Hf by by apply list_elem_of_filter.
  destruct (filter (in_block k) es); [by apply not_elem_of_nil in Hf|simpl in H; lia].
Qed.

Lemma count_block_bound k es : 0 ≤ count_block k es ≤ Z.of_nat (length es).
Proof. unfold count_block. pose proof (length_filter (in_block k) es). lia. Qed.

(** Changing the overflow area where block [k] has no entry keeps block [k]. *)
Lemma block_ok_other k e es b :
  ¬ in_block k e → block_ok k es b ↔ block_ok k (e :: es) b.
Proof.
  intros Hne. split; intros [? ? Ho]; split; try done; rewrite Ho, count_block_cons;
    rewrite decide_False; done.
Qed.

Lemma block_ok_perm k es es' b : es ≡ₚ es' → block_ok k es b → block_ok k es' b.
Proof. intros Hp [? ? Ho]. split; [done..|]. rewrite Ho. by apply count_block_perm. Qed.
End blocks.

(** * The operations on the map *)
Section ops.
Context (top : Z).
Implicit Types (st : dirst) (d : gmap checksum Z).

Lemma at_block_ok {A} k (m : M cell_dir_block A) st b a b' :
  blocks st.1 !! k = Some b → m b = (Ok a, b') →
  at_block k m st = (Ok a, put_block k b' st).
Proof. intros Hk Hm. unfold at_block. by erewrite zoom_opt_run. Qed.

Lemma put_block_same k b st : blocks st.1 !! k = Some b → put_block k b st = st.
Proof.
  intros Hk. unfold put_block. rewrite list_insert_id by done.
  by destruct st as [[] ?].
Qed.

Lemma at_block_read {A} k (m : M cell_dir_block A) st b a :
  blocks st.1 !! k = Some b → m b = (Ok a, b) → at_block k m st = (Ok a, st).
Proof. intros Hk Hm. by rewrite (at_block_ok _ _ _ _ _ _ Hk Hm), put_block_same. Qed.

Lemma at_block_gets {A} k (f : cell_dir_block → A) st b :
  blocks st.1 !! k = Some b → at_block k (gets f) st = (Ok (f b), st).
Proof. intros Hk. by apply (at_block_read _ _ _ b). Qed.

Lemma dir_rep_block st d c :
  dir_rep top st d → ∃ b, blocks st.1 !! block_no c = Some b ∧
    block_ok (block_no c) (dir_overflow top st) b.
Proof.
  intros H. destruct (lookup_lt_is_Some_2 (blocks st.1) (block_no c)) as [b Hb].
  { rewrite (dr_length _ _ _ H). apply block_no_lt. }
  exists b. split; [done|]. by apply (dr_block _ _ _ H).
Qed.

Lemma dir_rep_ref st d c o :
  dir_rep top st d → d !! c = Some o ↔ (c, o) ∈ dir_refs top st.
Proof. intros H. by rewrite (dr_refs _ _ _ H), elem_of_map_to_list. Qed.

Lemma dir_rep_unique st d r r' :
  dir_rep top st d → r ∈ dir_refs top st → r' ∈ dir_refs top st → r.1 = r'.1 → r = r'.
Proof.
  intros H. destruct r as [c o], r' as [c' o']; simpl. intros Hr Hr' ->.
  rewrite <-!dir_rep_ref in Hr, Hr' by done. congruence.
Qed.

(** A reference of checksum [c] is in block [block_no c] or in the overflow area. *)
Lemma dir_refs_cases st d c o b :
  dir_rep top st d → blocks st.1 !! block_no c = Some b →
  (c, o) ∈ dir_refs top st →
  (c, o) ∈ block_refs b ∨ (c, o) ∈ de_ref <$> dir_overflow top st.
Proof.
  intros H Hb. unfold dir_refs. rewrite elem_of_app. intros [Hr|Hr]; [left|by right].
  apply elem_of_blocks_refs in Hr as (k & b' & Hk & Hr).
  pose proof (bo_here _ _ _ (dr_block _ _ _ H _ _ Hk) _ Hr) as Heq. simpl in Heq.
  subst k. congruence.
Qed.

(** When neither place has the checksum, the map has not. *)
Lemma dir_lookup_None st d c b :
  dir_rep top st d → blocks st.1 !! block_no c = Some b →
  (∀ r, r ∈ block_refs b → r.1 ≠ c) →
  (∀ e, e ∈ dir_overflow top st → de_checksum e ≠ c) → d !! c = None.
Proof.
  intros H Hb Hno Hno'. apply eq_None_not_Some. intros [o Ho].
  rewrite (dir_rep_ref _ _ _ _ H) in Ho.
  destruct (dir_refs_cases _ _ _ _ _ H Hb Ho) as [Hin|Hin]; [by apply (Hno _ Hin)|].
  apply list_elem_of_fmap in Hin as (e & He & Hin). apply (Hno' e Hin). by inversion He.
Qed.

(** A block whose overflow count is zero has no entry in the overflow area. *)
Lemma not_overflowed st b c :
  block_overflow_count b = count_block (block_no c) (dir_overflow top st) →
  cell_dir_block_overflowed b = false →
  ∀ e, e ∈ dir_overflow top st → de_checksum e ≠ c.
Proof.
  unfold cell_dir_block_overflowed. intros Hov Ho e He <-.
  pose proof (count_block_bound (block_no (de_checksum e)) (dir_overflow top st)).
  assert (count_block (block_no (de_checksum e)) (dir_overflow top st) = 0) as Hz by lia.
  by apply (count_block_zero _ _ Hz e He).
Qed.

(** The overflow count of a block is at most the length of the overflow area. *)
Lemma block_overflow_bound st d k b :
  dir_rep top st d → block_overflow_count b = count_block k (dir_overflow top st) →
  0 ≤ block_overflow_count b ≤ ov_count st.
Proof.
  intros H ->. pose proof (count_block_bound k (dir_overflow top st)) as Hcb.
  unfold dir_overflow in *. rewrite length_entries_of in Hcb; [done|].
  apply (ow_count _ _ (dr_overflow _ _ _ H)).
Qed.

Lemma dir_rep_size st d : dir_rep top st d → ov_count st ≤ Z.of_nat (size d).
Proof.
  intros H. rewrite <-length_map_to_list, <-(dr_refs _ _ _ H).
  unfold dir_refs. rewrite length_app, length_fmap.
  pose proof (length_entries_of top (ovst_of st)) as Hl.
  pose proof (ow_count _ _ (dr_overflow _ _ _ H)). unfold dir_overflow, ov_count in *. simpl in *. lia.
Qed.

Lemma dir_rep_count st d : dir_rep top st d → 0 ≤ ov_count st < 4096.
Proof.
  intros H. pose proof (ow_count _ _ (dr_overflow _ _ _ H)). pose proof (dr_count _ _ _ H).
  unfold ov_count in *; simpl in *. lia.
Qed.

Lemma ref_wf r (e : cell_dir_entry) (es : list cell_dir_entry) :
  Forall cell_dir_entry_wf es → r ∈ de_ref <$> es → checksum_wf r.1.
Proof.
  intros Hes (e' & -> & He)%list_elem_of_fmap. rewrite Forall_forall in Hes.
  by apply (Hes e' He).
Qed.

(** Only the overflow area is in memory. *)
Lemma dir_rep_agree st s' d :
  dir_rep top st d → agree st.2 s' (top - ov_count st * 36) top →
  dir_rep top (st.1, s') d.
Proof.
  intros H Ha. pose proof (dir_rep_count _ _ H).
  assert (dir_overflow top (st.1, s') = dir_overflow top st) as Ho.
  { apply (entries_of_agree top (ovst_of st) s' _ Ha); simpl; unfold ov_count in *; lia. }
  destruct H as [Hl Hb [Hc1 Hc2 Hc3] Hn Hr]. split; simpl; rewrite ?Ho; try done.
  - split; simpl in *; [done..|]. by rewrite (agree_lim _ _ _ _ Ha).
  - unfold dir_refs in *; simpl. by rewrite Ho.
Qed.

Theorem cell_dir_get_chunk_spec st d c :
  dir_rep top st d → checksum_wf c →
  ∃ r, cell_dir_get_chunk top c st = (Ok r, st) ∧
    match r with
    | Some e => de_checksum e = c ∧ d !! c = Some (de_offset e)
    | None => d !! c = None
    end.
Proof.
  intros H Hc. destruct (dir_rep_block st d c H) as (b & Hb & [Hwf _ Hov]).
  unfold cell_dir_get_chunk.
  rewrite (bind_ok _ _ _ _ _ (at_block_gets _ _ _ _ Hb)).
  pose proof (cell_dir_block_get_chunk_spec b c Hwf Hc) as Hg.
  destruct (cell_dir_block_get_chunk b c) as [e|].
  { destruct Hg as [<- He]. eexists. split; [done|]. split; [done|].
    apply (dir_rep_ref _ _ _ _ H). apply elem_of_app. left.
    by eapply elem_of_blocks_refs_2. }
  rewrite (bind_ok _ _ _ _ _ (at_block_gets _ _ _ _ Hb)).
  destruct (cell_dir_block_overflowed b) eqn:Ho.
  - destruct (cell_dir_overflow_get_chunk_spec top (ovst_of st) c) as (r & Hr & Hrs);
      [apply H|done|].
    exists r. split.
    { unfold at_overflow. rewrite (zoom_ok _ _ _ _ _ _ Hr). by destruct st as [[] ?]. }
    destruct r as [e|]; [|by eapply dir_lookup_None]. destruct Hrs as [<- He]. split; [done|].
    apply (dir_rep_ref _ _ _ _ H). apply elem_of_app. right.
    apply list_elem_of_fmap. by exists e.
  - exists None. split; [done|]. eapply dir_lookup_None, not_overflowed; done.
Qed.

(** Putting back a block, and putting back a block with the overflow area. *)
Lemma dir_rep_put_block st d k b' d' :
  dir_rep top st d → (k < CELL_DIR_BLOCK_COUNT)%nat → block_ok k (dir_overflow top st) b' →
  dir_refs top (put_block k b' st) ≡ₚ map_to_list d' →
  dir_rep top (put_block k b' st) d'.
Proof.
  intros [Hl Hb Ho Hn _] Hk Hb' Hr. split; [|..|done]; try done.
  - simpl. by rewrite length_insert.
  - intros j bj. simpl. intros [(<- & <- & _)|[? Hj]]%list_lookup_insert_Some; [done|].
    by apply Hb.
Qed.

Lemma dir_rep_put_overflow st d k b b' o' d' :
  dir_rep top st d → blocks st.1 !! k = Some b →
  overflow_wf top o' → overflow_count o'.1 < 4096 →
  block_wf b' → block_refs b' = block_refs b →
  block_overflow_count b' = count_block k (entries_of top o') →
  (∀ k', k' ≠ k → count_block k' (entries_of top o') = count_block k' (dir_overflow top st)) →
  blocks_refs (blocks st.1) ++ (de_ref <$> entries_of top o') ≡ₚ map_to_list d' →
  dir_rep top (put_block k b' (put_overflow o' st)) d'.
Proof.
  intros [Hl Hb [? ? ?] Hn _] Hk Ho Hn' Hwf Hrefs Hcnt Hother Hr.
  pose proof (Hb _ _ Hk) as [_ Hhere _]. destruct o' as [o s].
  split; try done.
  - simpl. by rewrite length_insert.
  - intros j bj. simpl.
    intros [(<- & <- & _)|[? Hj]]%list_lookup_insert_Some.
    + split; [done| |done]. by rewrite Hrefs.
    + destruct (Hb _ _ Hj) as [? ? Hc]. split; [done..|].
      rewrite Hc. symmetry. by apply Hother.
  - unfold dir_refs. simpl. by rewrite (blocks_refs_same _ _ _ _ Hk Hrefs).
Qed.

Lemma at_overflow_ok {A} (m : M ovst A) st a o' :
  m (ovst_of st) = (Ok a, o') → at_overflow m st = (Ok a, put_overflow o' st).
Proof. apply zoom_ok. Qed.

(** Adding a checksum that the directory does not hold. *)
Theorem cell_dir_add_spec st d e :
  dir_rep top st d → cell_dir_entry_wf e → de_set e ≠ 0 → d !! de_checksum e = None →
  ov_count st < 4095 → 0 ≤ top - (ov_count st + 1) * 36 →
  ∃ st', cell_dir_add top e st = (Ok tt, st')
    ∧ dir_rep top st' (<[de_checksum e := de_offset e]> d)
    ∧ (ov_count st' = ov_count st ∨ ov_count st' = ov_count st + 1)
    ∧ agree st.2 st'.2 0 (top - (ov_count st + 1) * 36).
Proof.
  intros H He Hset Hd Hmax Hroom. set (k := block_no (de_checksum e)).
  destruct (dir_rep_block st d (de_checksum e) H) as (b & Hb & [Hwf Hhere Hov]).
  fold k in Hb, Hhere, Hov.
  assert (Hperm : map_to_list (<[de_checksum e:=de_offset e]> d) ≡ₚ de_ref e :: dir_refs top st).
  { by rewrite map_to_list_insert, (dr_refs _ _ _ H). }
  unfold cell_dir_add. fold k.
  destruct (cell_dir_block_add_spec b e Hwf He Hset)
    as [[_ Ha]|(_ & b' & Ha & Hwf' & Hrefs & Hcnt)].
  - rewrite (bind_ok _ _ _ _ _ (at_block_ok _ _ _ _ _ _ Hb Ha)), put_block_same by done.
    cbn [negb].
    destruct (cell_dir_overflow_add_spec top (ovst_of st) e)
      as (o' & Hadd & Howf & Hocnt & Hents & Hagree); [apply H|..|done|]; try done.
    { unfold ov_count in *; simpl; lia. }
    rewrite (bind_ok _ _ _ _ _ (at_overflow_ok _ _ _ _ Hadd)).
    pose proof (block_overflow_bound _ _ _ _ H Hov) as Hcb. unfold dir_overflow in Hov.
    set (b1 := DirBlock (entries b) (block_entry_count b) (block_overflow_count b + 1)).
    assert (Hinc : cell_dir_block_increment_overflow b = (Ok (block_overflow_count b + 1), b1)).
    { unfold cell_dir_block_increment_overflow. mnorm. unfold gets; simpl.
      unfold ov_count in *. simpl in *. rewrite u12_id by lia. done. }
    rewrite (bind_ok _ _ _ _ _ (at_block_ok k _ (put_overflow o' st) _ _ _ Hb Hinc)).
    eexists. split; [done|]. split_and!.
    + apply dir_rep_put_overflow with (d := d) (b := b); try done.
      * unfold ov_count in *; simpl in *. lia.
      * by destruct Hwf.
      * rewrite Hents, count_block_cons, decide_True by done. simpl. lia.
      * intros k' Hk'. rewrite Hents, count_block_cons, decide_False by (by intros <-).
        done.
      * rewrite Hents, Hperm. unfold dir_refs, dir_overflow. simpl. solve_Permutation.
    + right. done.
    + done.
  - rewrite (bind_ok _ _ _ _ _ (at_block_ok _ _ _ _ _ _ Hb Ha)).
    eexists. split; [done|]. split_and!; [|by left|by apply agree_refl].
    apply dir_rep_put_block with d; [done|apply block_no_lt|split; [done|..]|].
    + intros r. rewrite Hrefs. intros [->|Hr]%elem_of_cons; [done|by apply Hhere].
    + congruence.
    + unfold dir_refs. simpl. rewrite (blocks_refs_add _ _ _ _ _ Hb Hrefs).
      by rewrite Hperm.
Qed.

(** Removing a checksum: it is found exactly when the map holds it. *)
(** Taking a reference out of the directory takes its checksum out of the map. *)
Lemma dir_refs_delete st d c o l :
  dir_rep top st d → dir_refs top st ≡ₚ (c, o) :: l →
  is_Some (d !! c) ∧ l ≡ₚ map_to_list (delete c d).
Proof.
  intros H Hl. assert (Ho : d !! c = Some o).
  { rewrite (dir_rep_ref _ _ _ _ H), Hl. set_solver. }
  split; [done|]. apply (Permutation_cons_inv (a := (c, o))).
  by rewrite map_to_list_delete, <-Hl, (dr_refs _ _ _ H).
Qed.

Lemma cell_dir_block_decrement_overflow_ok b :
  0 < block_overflow_count b < 4096 →
  cell_dir_block_decrement_overflow b =
    (Ok (block_overflow_count b - 1),
     DirBlock (entries b) (block_entry_count b) (block_overflow_count b - 1)).
Proof.
  intros H. unfold cell_dir_block_decrement_overflow. mnorm. rewrite bind_ALWAYS by lia. mnorm.
  unfold gets; simpl. by rewrite u12_id by lia.
Qed.

Theorem cell_dir_remove_spec st d c :
  dir_rep top st d → checksum_wf c →
  (is_Some (d !! c) ∧ ∃ st', cell_dir_remove top c st = (Ok true, st')
    ∧ dir_rep top st' (delete c d)
    ∧ (ov_count st' = ov_count st ∨ ov_count st' = ov_count st - 1)
    ∧ agree st.2 st'.2 0 (top - ov_count st * 36)) ∨
  (d !! c = None ∧ cell_dir_remove top c st = (Ok false, st)).
Proof.
  intros H Hc. set (k := block_no c).
  destruct (dir_rep_block st d c H) as (b & Hb & [Hwf Hhere Hov]). fold k in Hb, Hhere, Hov.
  unfold cell_dir_remove. fold k.
  destruct (cell_dir_block_remove_spec b c Hwf Hc)
    as [(b' & o & Hr & Hwf' & Hrefs & Hcnt)|[Hr Hno]].
  - left. rewrite (bind_ok _ _ _ _ _ (at_block_ok _ _ _ _ _ _ Hb Hr)).
    destruct (dir_refs_delete st d c o (dir_refs top (put_block k b' st)) H) as [Hs Hp].
    { unfold dir_refs; simpl.
      destruct (blocks_refs_split _ _ _ b' Hb) as [-> ->]. rewrite Hrefs. done. }
    split; [done|]. eexists. split; [done|]. split_and!; [|by left|by apply agree_refl].
    apply dir_rep_put_block with d; [done|apply block_no_lt|split; [done|..]|done].
    + intros r Hin. apply Hhere. rewrite Hrefs. set_solver.
    + congruence.
  - rewrite (bind_ok _ _ _ _ _ (at_block_ok _ _ _ _ _ _ Hb Hr)), put_block_same by done.
    rewrite (bind_ok _ _ _ _ _ (at_block_gets _ _ _ _ Hb)).
    destruct (cell_dir_block_overflowed b) eqn:Hof.
    + destruct (cell_dir_overflow_remove_spec top (ovst_of st) c)
        as [(o' & e & Hrm & Howf & Hocnt & <- & Hents & Hagree)|[Hrm Hno']]; [apply H|done|..];
        rewrite (bind_ok _ _ _ _ _ (at_overflow_ok _ _ _ _ Hrm)).
      * left. destruct (dir_refs_delete st d (de_checksum e) (de_offset e) (blocks_refs (blocks st.1) ++ (de_ref <$> entries_of top o')) H)
          as [Hs Hp].
        { unfold dir_refs, dir_overflow. rewrite Hents, fmap_cons. unfold de_ref at 2.
          solve_Permutation. }
        pose proof (dir_rep_count _ _ H) as Hbound. unfold cell_dir_block_overflowed in Hof.
        pose proof (block_overflow_bound _ _ _ _ H Hov) as Hcb. unfold dir_overflow in Hov.
        assert (Hdec := cell_dir_block_decrement_overflow_ok b ltac:(unfold ov_count in *; simpl in *; lia)).
        rewrite (bind_ok _ _ _ _ _ (at_block_ok k _ (put_overflow o' st) _ _ _ Hb Hdec)).
        split; [done|]. eexists. split; [done|]. split_and!; [|by right|done].
        apply dir_rep_put_overflow with (d := d) (b := b); try done.
        -- unfold ov_count in *; simpl in *. lia.
        -- by destruct Hwf.
        -- rewrite (count_block_perm _ _ _ Hents), count_block_cons, decide_True in Hov by done.
           simpl. lia.
        -- intros k' Hk'. unfold dir_overflow. rewrite (count_block_perm _ _ _ Hents).
           rewrite count_block_cons, decide_False by (by intros <-). done.
      * right. assert (put_overflow (ovst_of st) st = st) as -> by by destruct st as [[] ?].
        split; [|done]. by eapply dir_lookup_None.
    + right. split; [|done]. by eapply dir_lookup_None, not_overflowed.
Qed.

(** A directory after [cell_dir_init] is empty. *)
Lemma cell_dir_init_rep s : 0 ≤ top → top ≤ s_lim s → dir_rep top (cell_dir_init, s) ∅.
Proof.
  intros. assert (Ho : dir_overflow top (cell_dir_init, s) = []) by done.
  split; rewrite ?Ho.
  - exact (length_replicate CELL_DIR_BLOCK_COUNT cell_dir_block_init).
  - intros k b [-> _]%lookup_replicate. split; [apply block_init_wf| |done].
    intros r Hr. by apply not_elem_of_nil in Hr.
  - split; simpl; lia.
  - done.
  - rewrite map_to_list_empty. unfold dir_refs. rewrite Ho, app_nil_r.
    unfold blocks_refs, cell_dir_init; cbn [blocks fst].
    by generalize CELL_DIR_BLOCK_COUNT as n; induction n.
Qed.
End ops.
