(* ===== verification/CellBodyEntry.v ===== *)
(** cell_body_entry.c: the 36-byte header in front of every chunk in the body of a
    cell, and the reads and writes of its fields. *)

From S2P Require Import Prelude Monad Slab Checksum.

Definition sizeof_cell_body_entry : Z := 36.

Record cell_body_entry := BodyEntry {
  be_checksum : checksum;
  be_free_space : Z;    (* uint32_t free_space:1 *)
  be_top_entry : Z;     (* uint32_t top_entry:1 *)
  be_size : Z;          (* uint32_t size:15 *)
  be_previous_size : Z; (* uint32_t previous_size:15 *)
}.

(** The entry that the bytes at [a] represent. *)
Definition be_at (s : slab) (a : Z) : cell_body_entry :=
  let w := rd32 s (a + 32) in
  BodyEntry (rd s a 32) (bf_get 0 1 w) (bf_get 1 1 w) (bf_get 2 15 w) (bf_get 17 15 w).

(** A field [pos, len] of the flags word of the entry at [a], read and written.  C makes the
    access wherever [a] points to; outside of the slab its effect is undefined and the model
    stops with [OutOfBounds], so that only a theorem that excludes this error says something
    of the C code. *)
Definition get_field (pos len a : Z) : M slab Z :=
  w ← load32 (a + 32); mret (bf_get pos len w).
Definition set_field (pos len a v : Z) : M slab unit :=
  w ← load32 (a + 32); store32 (a + 32) (bf_set pos len v w).

Definition get_free_space (a : Z) : M slab Z := get_field 0 1 a.
Definition get_top_entry (a : Z) : M slab Z := get_field 1 1 a.
Definition get_size (a : Z) : M slab Z := get_field 2 15 a.
Definition get_previous_size (a : Z) : M slab Z := get_field 17 15 a.
Definition set_free_space (a v : Z) : M slab unit := set_field 0 1 a v.
Definition set_top_entry (a v : Z) : M slab unit := set_field 1 1 a v.
Definition set_size (a v : Z) : M slab unit := set_field 2 15 a v.
Definition set_previous_size (a v : Z) : M slab unit := set_field 17 15 a v.

Definition cell_body_entry_init (a : Z) : M slab unit := store_bytes a (replicate 36 Byte.x00).

Definition cell_body_entry_free (a : Z) : M slab bool :=
  f ← get_free_space a; mret (f =? 1).
Definition cell_body_entry_top (a : Z) : M slab bool :=
  t ← get_top_entry a; mret (t =? 1).

(** ** Running the accesses *)

(** The memory after a write of a field. *)
Definition put_field (pos len a v : Z) (s : slab) : slab :=
  wr32 s (a + 32) (bf_set pos len v (rd32 s (a + 32))).

Section fields.
Implicit Types s : slab.

Lemma get_field_ok pos len a s :
  0 ≤ a → a + 36 ≤ s_lim s → get_field pos len a s = (Ok (bf_get pos len (rd32 s (a + 32))), s).
Proof.
  intros. unfold get_field. by rewrite (bind_ok _ _ _ _ _ (load32_ok s (a + 32) ltac:(lia) ltac:(lia))).
Qed.

Lemma set_field_ok pos len a v s :
  0 ≤ a → a + 36 ≤ s_lim s → set_field pos len a v s = (Ok tt, put_field pos len a v s).
Proof.
  intros. unfold set_field. rewrite (bind_ok _ _ _ _ _ (load32_ok s (a + 32) ltac:(lia) ltac:(lia))).
  apply store32_ok; lia.
Qed.

Lemma get_size_ok a s : 0 ≤ a → a + 36 ≤ s_lim s → get_size a s = (Ok (be_size (be_at s a)), s).
Proof. apply get_field_ok. Qed.
Lemma get_previous_size_ok a s :
  0 ≤ a → a + 36 ≤ s_lim s → get_previous_size a s = (Ok (be_previous_size (be_at s a)), s).
Proof. apply get_field_ok. Qed.
Lemma cell_body_entry_free_ok a s :
  0 ≤ a → a + 36 ≤ s_lim s →
  cell_body_entry_free a s = (Ok (be_free_space (be_at s a) =? 1), s).
Proof.
  intros. unfold cell_body_entry_free, get_free_space.
  by rewrite (bind_ok _ _ _ _ _ (get_field_ok 0 1 a s ltac:(lia) ltac:(lia))).
Qed.
Lemma cell_body_entry_top_ok a s :
  0 ≤ a → a + 36 ≤ s_lim s →
  cell_body_entry_top a s = (Ok (be_top_entry (be_at s a) =? 1), s).
Proof.
  intros. unfold cell_body_entry_top, get_top_entry.
  by rewrite (bind_ok _ _ _ _ _ (get_field_ok 1 1 a s ltac:(lia) ltac:(lia))).
Qed.

Lemma modifies_put_field pos len a v s lo hi :
  lo ≤ a + 32 → a + 36 ≤ hi → modifies s (put_field pos len a v s) lo hi.
Proof. intros. apply modifies_wr32; lia. Qed.

Lemma lim_put_field pos len a v s : s_lim (put_field pos len a v s) = s_lim s.
Proof. done. Qed.

(** The flags word after the write of a field. *)
Lemma rd32_put_field pos len a v s :
  0 ≤ pos → 0 ≤ len → pos + len ≤ 32 →
  rd32 (put_field pos len a v s) (a + 32) = bf_set pos len v (rd32 s (a + 32)).
Proof.
  intros. apply rd32_wr32_same. apply (bf_set_bound 32); [lia..|]. apply rd32_bound.
Qed.

Lemma rd_put_field pos len a v s : rd (put_field pos len a v s) a 32 = rd s a 32.
Proof. apply rd_wr32_out. lia. Qed.

Lemma be_at_put_free_space a v s :
  be_at (put_field 0 1 a v s) a =
    let e := be_at s a in
    BodyEntry (be_checksum e) (v `mod` 2) (be_top_entry e) (be_size e) (be_previous_size e).
Proof.
  unfold be_at. rewrite rd_put_field, rd32_put_field by lia; simpl.
  by rewrite bf_get_set_same, !bf_get_set_diff by lia.
Qed.
Lemma be_at_put_top_entry a v s :
  be_at (put_field 1 1 a v s) a =
    let e := be_at s a in
    BodyEntry (be_checksum e) (be_free_space e) (v `mod` 2) (be_size e) (be_previous_size e).
Proof.
  unfold be_at. rewrite rd_put_field, rd32_put_field by lia; simpl.
  by rewrite bf_get_set_same, !bf_get_set_diff by lia.
Qed.
Lemma be_at_put_size a v s :
  be_at (put_field 2 15 a v s) a =
    let e := be_at s a in
    BodyEntry (be_checksum e) (be_free_space e) (be_top_entry e) (v `mod` 32768) (be_previous_size e).
Proof.
  unfold be_at. rewrite rd_put_field, rd32_put_field by lia; simpl.
  by rewrite bf_get_set_same, !bf_get_set_diff by lia.
Qed.
Lemma be_at_put_previous_size a v s :
  be_at (put_field 17 15 a v s) a =
    let e := be_at s a in
    BodyEntry (be_checksum e) (be_free_space e) (be_top_entry e) (be_size e) (v `mod` 32768).
Proof.
  unfold be_at. rewrite rd_put_field, rd32_put_field by lia; simpl.
  by rewrite bf_get_set_same, !bf_get_set_diff by lia.
Qed.

Lemma be_at_agree s s' lo hi a :
  agree s s' lo hi → lo ≤ a → a + 36 ≤ hi → be_at s' a = be_at s a.
Proof.
  intros H ??. unfold be_at.
  by erewrite (agree_rd _ _ _ _ a), (agree_rd32 _ _ _ _ (a + 32)) by (done || lia).
Qed.

Lemma be_at_store_checksum a c s :
  checksum_wf c →
  be_at (wr s a c) a =
    let e := be_at s a in
    BodyEntry c (be_free_space e) (be_top_entry e) (be_size e) (be_previous_size e).
Proof.
  intros Hc. unfold be_at. rewrite rd_wr_same by done.
  by rewrite rd32_wr_out by (rewrite Hc; unfold CHECKSUM_SIZE; lia).
Qed.

Lemma be_size_bound s a : 0 ≤ be_size (be_at s a) < 32768.
Proof. apply (bf_get_bound 2 15). lia. Qed.

(** A cleared entry. *)
Lemma be_at_zero a s :
  be_at (wr s a (replicate 36 Byte.x00)) a = BodyEntry checksum_init 0 0 0 0.
Proof.
  assert (rd (wr s a (replicate 36 Byte.x00)) a (32 + 4) = replicate (32 + 4) Byte.x00) as Hrd
    by (by apply rd_wr_same).
  rewrite rd_app, replicate_add in Hrd. apply app_inj_1 in Hrd as [Hr1 Hr2];
    [|by rewrite length_rd, length_replicate].
  unfold be_at, rd32. change (Z.of_nat 32) with 32 in Hr2. by rewrite Hr1, Hr2.
Qed.
End fields.

#[global] Opaque put_field.
#[global] Arguments be_at : simpl never.

(** Projections of a record that is written out, and nothing else. *)
Ltac be_simpl := cbn beta zeta; cbn [be_checksum be_free_space be_top_entry be_size be_previous_size].
