(* ===== verification/CellHeader.v ===== *)
(** cell_header.c, with the structures of cell_header.h, cell_body.h and cell.h: the
    state of a cell, and the calls that add a chunk to its directory and remove one
    from it while they keep the counts. *)

From S2P Require Import Prelude Monad Slab Checksum CellIc CellDirEntry CellDirBlock CellDirOverflow.
From S2P Require Import CellDir CellBodyEntry.

(** * The state of a cell *)

Record cell_body := CellBody {
  top_entry_offset : Z;  (* uint32_t *)
  next_entry_offset : Z; (* uint32_t *)
}.

Record cell_header := CellHeader {
  magic : Z;       (* uint32_t *)
  entry_count : Z; (* int32_t *)
  byte_count : Z;  (* int32_t *)
  hdr_ic : cell_ic;
  hdr_body : cell_body;
  hdr_dir : cell_dir;
}.

(** [struct cell]: [slab] is the memory in front of the header, which C finds at
    [slab + slab_size - sizeof(struct cell_header)]. *)
Record cell := Cell {
  cell_hdr : cell_header;
  cell_slab : slab;
  slab_size : Z; (* uint32_t *)
}.

Definition CELL_HEADER_MAGIC : Z := 26061973.

Definition sizeof_cell_dir_block : Z := 3 * sizeof_cell_dir_entry + 4.
Definition sizeof_cell_dir : Z := 256 * sizeof_cell_dir_block + 4.
(** magic, entry_count, byte_count, cell_ic, cell_body, cell_dir (test_packing.c). *)
Definition sizeof_cell_header : Z := 3 * 4 + 8 + 8 + sizeof_cell_dir.

(** The address of [cell->cell_header], as an offset into the slab. *)
Definition header_offset (c : cell) : Z := slab_size c - sizeof_cell_header.

Definition put_hdr (h : cell_header) (c : cell) : cell := Cell h (cell_slab c) (slab_size c).
Definition put_slab (s : slab) (c : cell) : cell := Cell (cell_hdr c) s (slab_size c).
Definition put_ic (i : cell_ic) (c : cell) : cell :=
  let h := cell_hdr c in
  put_hdr (CellHeader (magic h) (entry_count h) (byte_count h) i (hdr_body h) (hdr_dir h)) c.
Definition put_body (b : cell_body) (c : cell) : cell :=
  let h := cell_hdr c in
  put_hdr (CellHeader (magic h) (entry_count h) (byte_count h) (hdr_ic h) b (hdr_dir h)) c.
Definition put_counts (n bytes : Z) (c : cell) : cell :=
  let h := cell_hdr c in
  put_hdr (CellHeader (magic h) n bytes (hdr_ic h) (hdr_body h) (hdr_dir h)) c.
Definition dirst_of (c : cell) : dirst := (hdr_dir (cell_hdr c), cell_slab c).
Definition put_dirst (d : dirst) (c : cell) : cell :=
  let h := cell_hdr c in
  Cell (CellHeader (magic h) (entry_count h) (byte_count h) (hdr_ic h) (hdr_body h) d.1)
       d.2 (slab_size c).

#[export] Instance slab_lens : Lens cell_slab put_slab.
Proof. split; [done..|by intros []]. Qed.
#[export] Instance dirst_lens : Lens dirst_of put_dirst.
Proof. split; [by intros ? []|done|by intros [[] ? ?]]. Qed.
#[export] Instance ic_lens : Lens (λ c, hdr_ic (cell_hdr c)) put_ic.
Proof. split; [done..|by intros [[] ? ?]]. Qed.

Definition on_slab {A} (m : M slab A) : M cell A := zoom cell_slab put_slab m.
Definition on_dir {A} (m : M dirst A) : M cell A := zoom dirst_of put_dirst m.
Definition on_ic {A} (m : M cell_ic A) : M cell A := zoom (λ c, hdr_ic (cell_hdr c)) put_ic m.

(** * The operations *)

Definition cell_header_sane (h : cell_header) : bool :=
  if negb (magic h =? CELL_HEADER_MAGIC) then false else cell_ic_sane (hdr_ic h).

Definition cell_header_bytes_used (h : cell_header) : Z :=
  u32 (sizeof_cell_header + overflow_count (overflow (hdr_dir h)) * sizeof_cell_dir_entry).

(** [cell_header_remove(cell_header, cell_body_entry)], [entry] the offset of the body
    entry. *)
Definition cell_header_remove (entry : Z) : M cell unit :=
  top ← gets header_offset;
  c ← on_slab (load_bytes entry 32);
  ret ← on_dir (cell_dir_remove top c);
  ALWAYS ret;;
  modify (λ c, put_counts (s32 (entry_count (cell_hdr c) - 1)) (byte_count (cell_hdr c)) c);;
  n ← gets (λ c, entry_count (cell_hdr c));
  ALWAYS (0 <? n);;
  size ← on_slab (get_size entry);
  modify (λ c, put_counts (entry_count (cell_hdr c)) (s32 (byte_count (cell_hdr c) - size)) c);;
  bytes ← gets (λ c, byte_count (cell_hdr c));
  ALWAYS (0 <? bytes).

Definition cell_header_add (e : cell_dir_entry) (size : Z) : M cell unit :=
  top ← gets header_offset;
  on_dir (cell_dir_add top e);;
  modify (λ c, put_counts (s32 (entry_count (cell_hdr c) + 1)) (byte_count (cell_hdr c)) c);;
  modify (λ c, put_counts (entry_count (cell_hdr c)) (s32 (byte_count (cell_hdr c) + size)) c).

Definition cell_header_byte_count (h : cell_header) : Z := byte_count h.
Definition cell_header_entry_count (h : cell_header) : Z := entry_count h.
