(* ===== verification/CellState.v ===== *)
(** The abstract state of a cell, and what cell_header.c does to it: the chunks the
    directory refers to, with the offsets of their body entries. *)

From S2P Require Import Prelude Monad Slab Checksum CellIc CellDirEntry CellDirBlock CellDirOverflow.
From S2P Require Import CellDir CellBodyEntry CellHeader.

(** * Body entries and live chunks *)

(** A body entry below the top: a chunk, or free space ([b_sum] and [b_data] are then
    the bytes that happen to be there). *)
Record bentry := BEntry {
  b_sum : checksum;
  b_free : bool;
  b_data : list byte;
}.

Definition b_size (b : bentry) : Z := Z.of_nat (length (b_data b)).
Definition b_span (b : bentry) : Z := 36 + b_size b.

Fixpoint span (es : list bentry) : Z :=
  match es with
  | [] => 0
  | b :: es => b_span b + span es
  end.

(** The chunks with their offsets, the first entry being at [off]. *)
Fixpoint live_at (off : Z) (es : list bentry) : list (Z * bentry) :=
  match es with
  | [] => []
  | b :: es =>
      if b_free b then live_at (off + b_span b) es
      else (off, b) :: live_at (off + b_span b) es
  end.

Definition live (es : list bentry) : list bentry := filter (λ b, b_free b = false) es.

Definition lsum (x : Z * bentry) : checksum := b_sum x.2.
Definition lref (x : Z * bentry) : checksum * Z := (lsum x, x.1).
Definition lspan (lv : list (Z * bentry)) : Z := span (snd <$> lv).
Definition lbytes (lv : list (Z * bentry)) : Z := span (snd <$> lv) - 36 * Z.of_nat (length lv).

Section spans.
Lemma b_size_nonneg b : 0 ≤ b_size b.
Proof. unfold b_size. lia. Qed.
Lemma b_span_pos b : 36 ≤ b_span b.
Proof. unfold b_span. pose proof (b_size_nonneg b). lia. Qed.

Lemma span_app l1 l2 : span (l1 ++ l2) = span l1 + span l2.
Proof. induction l1; simpl; lia. Qed.

Lemma span_bound es : 36 * Z.of_nat (length es) ≤ span es.
Proof. induction es as [|b es]; simpl; [lia|]. pose proof (b_span_pos b). lia. Qed.

Lemma span_nonneg es : 0 ≤ span es.
Proof. pose proof (span_bound es). lia. Qed.

Lemma span_perm l1 l2 : l1 ≡ₚ l2 → span l1 = span l2.
Proof. induction 1; simpl; lia. Qed.

Lemma live_at_app off l1 l2 : live_at off (l1 ++ l2) = live_at off l1 ++ live_at (off + span l1) l2.
Proof.
  revert off. induction l1 as [|b l1 IH]; intros off; simpl.
  - by rewrite Z.add_0_r.
  - rewrite IH, Z.add_assoc. by destruct (b_free b).
Qed.

Lemma live_at_snd off es : snd <$> live_at off es = live es.
Proof.
  revert off. induction es as [|b es IH]; intros off; simpl; [done|].
  unfold live. rewrite filter_cons. destruct (b_free b) eqn:E; simpl.
  - apply IH.
  - f_equal. apply IH.
Qed.

Lemma live_at_lsum off es : lsum <$> live_at off es = b_sum <$> live es.
Proof. rewrite <-(live_at_snd off), <-list_fmap_compose. done. Qed.

Lemma live_app l1 l2 : live (l1 ++ l2) = live l1 ++ live l2.
Proof. apply filter_app. Qed.

Lemma live_all es : Forall (λ b, b_free b = false) es → live es = es.
Proof. induction 1; unfold live in *; [done|]. rewrite filter_cons_True by done. congruence. Qed.

Lemma lspan_live_at off es : lspan (live_at off es) ≤ span es.
Proof.
  unfold lspan. revert off. induction es as [|b es IH]; intros off; [done|].
  specialize (IH (off + b_span b)). pose proof (b_span_pos b). cbn [live_at span].
  destruct (b_free b); rewrite ?fmap_cons; cbn [span snd]; lia.
Qed.

Lemma lspan_perm l1 l2 : l1 ≡ₚ l2 → lspan l1 = lspan l2.
Proof. intros H. apply span_perm. by rewrite H. Qed.
Lemma lbytes_perm l1 l2 : l1 ≡ₚ l2 → lbytes l1 = lbytes l2.
Proof. intros H. unfold lbytes. by rewrite (span_perm _ (snd <$> l2)), H by (by rewrite H). Qed.
Lemma lspan_cons x l : lspan (x :: l) = b_span x.2 + lspan l.
Proof. done. Qed.
Lemma lbytes_cons x l : lbytes (x :: l) = b_size x.2 + lbytes l.
Proof. unfold lbytes. rewrite fmap_cons. cbn [span snd length]. unfold b_span. lia. Qed.
Lemma lbytes_bound l : 0 ≤ lbytes l ≤ lspan l.
Proof.
  unfold lbytes, lspan. pose proof (span_bound (snd <$> l)) as H.
  rewrite length_fmap in H. lia.
Qed.
Lemma lspan_length l : 36 * Z.of_nat (length l) ≤ lspan l.
Proof. unfold lspan. pose proof (span_bound (snd <$> l)) as H. by rewrite length_fmap in H. Qed.

Lemma elem_of_live_at off es o b :
  (o, b) ∈ live_at off es ↔
    ∃ l1 l2, es = l1 ++ b :: l2 ∧ o = off + span l1 ∧ b_free b = false.
Proof.
  revert off. induction es as [|x es IH]; intros off; simpl.
  { split; [by intros ?%not_elem_of_nil|]. intros (l1 & l2 & H & _). by destruct l1. }
  transitivity ((o, b) = (off, x) ∧ b_free x = false ∨ (o, b) ∈ live_at (off + b_span x) es).
  { destruct (b_free x); rewrite ?elem_of_cons; naive_solver. }
  rewrite IH. split.
  - intros [[[= -> ->] ?]|(l1 & l2 & -> & -> & ?)].
    + exists [], es. simpl. split_and!; [done|lia|done].
    + exists (x :: l1), l2. simpl. split_and!; [done|lia|done].
  - intros ([|y l1] & l2 & Heq & -> & ?); simplify_eq/=.
    + left. rewrite Z.add_0_r. done.
    + right. exists l1, l2. split_and!; [done|lia|done].
Qed.
End spans.

(** * Cells whose directory holds given chunks *)

Definition ovc (c : cell) : Z := ov_count (dirst_of c).
Definition top_of (c : cell) : Z := top_entry_offset (hdr_body (cell_hdr c)).

(** [dcore c lv]: the geometry of the cell is right, the directory refers to exactly
    the chunks [lv], the counts agree with them, and the body and the directory do
    not overlap. *)
Record dcore (c : cell) (lv : list (Z * bentry)) : Prop := {
  dc_lim : s_lim (cell_slab c) = header_offset c;
  dc_width : slab_size c < 2147483648;
  dc_dir : dir_rep (header_offset c) (dirst_of c) (list_to_map (lref <$> lv));
  dc_nodup : NoDup (lsum <$> lv);
  dc_sums : Forall (λ x, checksum_wf (lsum x)) lv;
  dc_fits : lspan lv ≤ header_offset c;
  dc_top : 0 ≤ top_of c;
  dc_room : top_of c + 36 + ovc c * 36 ≤ header_offset c;
  dc_count : entry_count (cell_hdr c) = Z.of_nat (length lv);
  dc_bytes : byte_count (cell_hdr c) = lbytes lv;
}.

(** The header calls change neither the integrity code nor the body offsets. *)
Definition keeps (c c' : cell) : Prop :=
  magic (cell_hdr c') = magic (cell_hdr c) ∧ hdr_ic (cell_hdr c') = hdr_ic (cell_hdr c) ∧
  hdr_body (cell_hdr c') = hdr_body (cell_hdr c) ∧ slab_size c' = slab_size c.

Section dcore.
Implicit Types c : cell.

Lemma on_slab_ok {A} (m : M slab A) c a s :
  m (cell_slab c) = (Ok a, s) → on_slab m c = (Ok a, put_slab s c).
Proof. apply zoom_ok. Qed.
Lemma put_slab_same c : put_slab (cell_slab c) c = c.
Proof. by destruct c. Qed.
Lemma on_slab_read {A} (m : M slab A) c a :
  m (cell_slab c) = (Ok a, cell_slab c) → on_slab m c = (Ok a, c).
Proof. intros H. by rewrite (on_slab_ok _ _ _ _ H), put_slab_same. Qed.
Lemma on_dir_ok {A} (m : M dirst A) c a d :
  m (dirst_of c) = (Ok a, d) → on_dir m c = (Ok a, put_dirst d c).
Proof. apply zoom_ok. Qed.
Lemma put_dirst_same c : put_dirst (dirst_of c) c = c.
Proof. by destruct c as [[] ? ?]. Qed.
Lemma on_dir_read {A} (m : M dirst A) c a :
  m (dirst_of c) = (Ok a, dirst_of c) → on_dir m c = (Ok a, c).
Proof. intros H. by rewrite (on_dir_ok _ _ _ _ H), put_dirst_same. Qed.

Lemma dirst_of_put n k d c : dirst_of (put_counts n k (put_dirst d c)) = d.
Proof. by destruct d. Qed.

Lemma keeps_refl c : keeps c c.
Proof. done. Qed.
Lemma keeps_trans c1 c2 c3 : keeps c1 c2 → keeps c2 c3 → keeps c1 c3.
Proof. unfold keeps. intuition congruence. Qed.
Lemma keeps_offset c c' : keeps c c' → header_offset c' = header_offset c.
Proof. intros (_ & _ & _ & H). unfold header_offset. by rewrite H. Qed.
Lemma keeps_top c c' : keeps c c' → top_of c' = top_of c.
Proof. intros (_ & _ & H & _). unfold top_of. by rewrite H. Qed.

Lemma lref_fst lv : (lref <$> lv).*1 = lsum <$> lv.
Proof. by rewrite <-list_fmap_compose. Qed.

Lemma refs_perm lv lv' :
  NoDup (lsum <$> lv) → lv ≡ₚ lv' →
  (list_to_map (lref <$> lv) : gmap checksum Z) = list_to_map (lref <$> lv').
Proof. intros Hnd Hp. apply list_to_map_proper; [by rewrite lref_fst|by rewrite Hp]. Qed.

Lemma refs_None lv (s : checksum) :
  s ∉ lsum <$> lv → (list_to_map (lref <$> lv) : gmap checksum Z) !! s = None.
Proof. intros. apply not_elem_of_list_to_map_1. by rewrite lref_fst. Qed.

Lemma refs_Some lv (s : checksum) o :
  NoDup (lsum <$> lv) →
  (list_to_map (lref <$> lv) : gmap checksum Z) !! s = Some o ↔ ∃ b, (o, b) ∈ lv ∧ b_sum b = s.
Proof.
  intros Hnd. rewrite <-elem_of_list_to_map by (by rewrite lref_fst).
  rewrite list_elem_of_fmap. unfold lref, lsum. split.
  - intros ([o' b] & [= -> ->] & ?). eauto.
  - intros (b & ? & <-). by exists (o, b).
Qed.

Lemma dcore_perm c lv lv' : dcore c lv → lv ≡ₚ lv' → dcore c lv'.
Proof.
  intros [] Hp. split; try done.
  - by rewrite <-(refs_perm lv lv').
  - by rewrite <-Hp.
  - by rewrite <-Hp.
  - by rewrite <-(lspan_perm _ _ Hp).
  - by rewrite <-Hp.
  - by rewrite <-(lbytes_perm _ _ Hp).
Qed.

Lemma dcore_count c lv : dcore c lv → 0 ≤ ovc c ≤ Z.of_nat (length lv).
Proof.
  intros H. pose proof (dir_rep_count _ _ _ (dc_dir _ _ H)).
  pose proof (dir_rep_size _ _ _ (dc_dir _ _ H)) as Hs.
  rewrite <-length_map_to_list, map_to_list_to_map, length_fmap in Hs
    by (rewrite lref_fst; apply H).
  unfold ovc. lia.
Qed.

(** Writes that stay off the directory. *)
Lemma dcore_put_slab c lv s a b :
  dcore c lv → modifies (cell_slab c) s a b → b ≤ header_offset c - ovc c * 36 →
  dcore (put_slab s c) lv.
Proof.
  intros H Hm Hb. destruct H as [Hl ? Hd]. split; try done.
  - simpl. rewrite (modifies_lim _ _ _ _ Hm). done.
  - apply (dir_rep_agree _ (dirst_of c)); [done|].
    apply (modifies_agree _ _ _ _ _ _ Hm). right. done.
Qed.

(** Moving the top, as long as it stays off the directory. *)
Lemma dcore_put_body c lv b :
  dcore c lv → 0 ≤ top_entry_offset b → top_entry_offset b + 36 + ovc c * 36 ≤ header_offset c →
  dcore (put_body b c) lv.
Proof. intros []. by split. Qed.
End dcore.

(** * cell_header_add and cell_header_remove *)
Section header_ops.
Implicit Types c : cell.

Lemma cell_header_add_spec c lv o b e :
  dcore c lv → e = DirEntry (b_sum b) o 1 → 0 ≤ o < 2147483648 →
  checksum_wf (b_sum b) → b_sum b ∉ lsum <$> lv →
  ovc c < 4095 → top_of c + 36 + (ovc c + 1) * 36 ≤ header_offset c →
  lspan lv + b_span b ≤ header_offset c →
  ∃ c', cell_header_add e (b_size b) c = (Ok tt, c') ∧ dcore c' ((o, b) :: lv) ∧ keeps c c'
    ∧ (ovc c' = ovc c ∨ ovc c' = ovc c + 1)
    ∧ agree (cell_slab c) (cell_slab c') 0 (header_offset c - (ovc c + 1) * 36).
Proof.
  intros H -> Ho Hs Hnew Hov Hroom Hfits. pose proof (dcore_count _ _ H) as Hcnt.
  pose proof (lspan_length lv). pose proof (lbytes_bound lv). pose proof (b_size_nonneg b).
  destruct H as [Hl Hw Hd Hnd Hsums Hf Ht Hr Hc Hb]. unfold ovc in *.
  assert (header_offset c < 2147483648 - 36) as Hoff.
  { unfold header_offset. change sizeof_cell_header with 28704. lia. }
  destruct (cell_dir_add_spec (header_offset c) (dirst_of c) _ (DirEntry (b_sum b) o 1) Hd)
    as (st' & Hadd & Hd' & Hov' & Hag); [split_and!; simpl; [done|lia..]|done| |done|lia|].
  { by apply refs_None. }
  exists (put_counts (Z.of_nat (length lv) + 1) (lbytes lv + b_size b) (put_dirst st' c)).
  unfold b_span in *. split_and!; [|split|done|by rewrite dirst_of_put|by destruct st']; try done.
  - unfold cell_header_add. mnorm. rewrite (bind_ok _ _ _ _ _ (on_dir_ok _ _ _ _ Hadd)).
    mnorm. rewrite run_modify. unfold put_counts, put_hdr; simpl. rewrite Hc, Hb, !s32_id by lia. done.
  - simpl. rewrite (agree_lim _ _ _ _ Hag). done.
  - by rewrite dirst_of_put.
  - by constructor.
  - by constructor.
  - rewrite lspan_cons. unfold b_span. cbn [snd]. by rewrite Z.add_comm.
  - unfold ovc. rewrite dirst_of_put. change (top_of (put_counts _ _ _)) with (top_of c).
    change (header_offset (put_counts _ _ _)) with (header_offset c).
    destruct Hov' as [-> | ->]; lia.
  - cbn. lia.
  - rewrite lbytes_cons. cbn. lia.
Qed.

Lemma cell_header_remove_spec c lv o b lv' :
  dcore c lv → lv ≡ₚ (o, b) :: lv' → lv' ≠ [] → 0 < lbytes lv' →
  0 ≤ o → o + 36 ≤ header_offset c - ovc c * 36 →
  be_checksum (be_at (cell_slab c) o) = b_sum b → be_size (be_at (cell_slab c) o) = b_size b →
  ∃ c', cell_header_remove o c = (Ok tt, c') ∧ dcore c' lv' ∧ keeps c c'
    ∧ (ovc c' = ovc c ∨ ovc c' = ovc c - 1)
    ∧ agree (cell_slab c) (cell_slab c') 0 (header_offset c - ovc c * 36).
Proof.
  intros H0 Hp Hne Hpos Ho Hlow Hsum Hsize. pose proof (dcore_perm _ _ _ H0 Hp) as H.
  pose proof (dcore_count _ _ H) as Hcnt. clear H0 Hp.
  pose proof (lspan_length lv') as Hlen. pose proof (lbytes_bound lv').
  pose proof (b_size_nonneg b). pose proof (b_span_pos b).
  destruct H as [Hl Hw Hd Hnd Hsums Hf Ht Hr Hc Hb].
  apply NoDup_cons in Hnd as [Hnotin Hnd]. apply Forall_cons in Hsums as [Hwf Hsums].
  rewrite lspan_cons in Hf. rewrite lbytes_cons in Hb.
  unfold ovc, lsum in *; cbn [snd length] in *.
  assert (header_offset c < 2147483648) as Hoff.
  { unfold header_offset. change sizeof_cell_header with 28704. lia. }
  change (list_to_map (lref <$> (o, b) :: lv'))
    with (<[b_sum b := o]> (list_to_map (lref <$> lv') : gmap checksum Z)) in Hd.
  destruct (cell_dir_remove_spec (header_offset c) (dirst_of c) _ (b_sum b) Hd Hwf)
    as [(_ & st' & Hrm & Hd' & Hov' & Hag)|[Hnone _]];
    [|by rewrite lookup_insert_eq in Hnone].
  rewrite delete_insert_id in Hd' by by apply refs_None.
  assert (Hsz : be_size (be_at st'.2 o) = b_size b).
  { rewrite <-Hsize. f_equal. eapply be_at_agree; [done|lia..]. }
  exists (put_counts (Z.of_nat (length lv')) (lbytes lv') (put_dirst st' c)).
  split_and!; [|split|done|by rewrite dirst_of_put|by destruct st']; try done.
  - unfold cell_header_remove. mnorm.
    rewrite (bind_ok _ _ _ _ _ (on_slab_read _ _ _
      (load_bytes_ok (cell_slab c) o 32 ltac:(lia) ltac:(lia)))).
    change (rd (cell_slab c) o 32) with (be_checksum (be_at (cell_slab c) o)). rewrite Hsum.
    rewrite (bind_ok _ _ _ _ _ (on_dir_ok _ _ _ _ Hrm)).
    rewrite bind_ALWAYS by done. mnorm. cbn [put_counts put_hdr put_dirst cell_hdr entry_count byte_count].
    rewrite Hc, s32_id by lia. rewrite bind_ALWAYS by (destruct lv'; simpl; [done|lia]).
    mrun by (apply on_slab_read, get_size_ok; [lia|];
      simpl; rewrite (agree_lim _ _ _ _ Hag); simpl; lia).
    mnorm. cbn [put_counts put_hdr put_dirst cell_slab cell_hdr entry_count byte_count].
    rewrite Hsz, Hb, s32_id by lia.
    replace (b_size b + lbytes lv' - b_size b) with (lbytes lv') by lia.
    rewrite bind_ALWAYS_last by lia. unfold put_counts, put_hdr; simpl. do 3 f_equal. lia.
  - simpl. rewrite (agree_lim _ _ _ _ Hag). done.
  - by rewrite dirst_of_put.
  - change (header_offset (put_counts _ _ _)) with (header_offset c). lia.
  - unfold ovc. rewrite dirst_of_put. change (top_of (put_counts _ _ _)) with (top_of c).
    change (header_offset (put_counts _ _ _)) with (header_offset c).
    destruct Hov' as [-> | ->]; lia.
Qed.

(** Removing a checksum the directory does not hold trips the assertion. *)
Lemma cell_header_remove_absent c lv o :
  dcore c lv → 0 ≤ o → o + 36 ≤ header_offset c →
  be_checksum (be_at (cell_slab c) o) ∉ lsum <$> lv →
  cell_header_remove o c = (Err AssertFail, c).
Proof.
  intros H Ho Hlow Hnew. unfold cell_header_remove. mnorm.
  rewrite (bind_ok _ _ _ _ _ (on_slab_read _ _ _
    (load_bytes_ok (cell_slab c) o 32 ltac:(lia) ltac:(rewrite (dc_lim _ _ H); lia)))).
  destruct (cell_dir_remove_spec _ _ _ (rd (cell_slab c) o 32) (dc_dir _ _ H) (length_rd _ _ _))
    as [([x Hx] & _)|[_ Hr]].
  - apply (refs_None lv) in Hnew. unfold be_at in Hnew; simpl in Hnew. congruence.
  - rewrite (bind_ok _ _ _ _ _ (on_dir_read _ _ _ Hr)). done.
Qed.
End header_ops.
