(* ===== verification/CellBody.v ===== *)
(** cell_body.c: the body of a cell, a ring buffer of chunks of different lengths.
    Entries follow one another from the start of the slab; the last one, the top, is
    an empty entry with [top_entry] set.  New chunks go on the top until the body
    meets the directory; then [next_entry_offset] goes back to the start and chunks
    overwrite the oldest ones. *)

From S2P Require Import Prelude Monad Slab Checksum CellIc CellDirEntry CellDirBlock CellDirOverflow.
From S2P Require Import CellDir CellBodyEntry CellHeader.

(** [cell_body] is always [&cell->cell_header->cell_body]: the functions read and
    write it in the state. *)
Definition get_top_offset : M cell Z := gets (λ c, top_entry_offset (hdr_body (cell_hdr c))).
Definition get_next_offset : M cell Z := gets (λ c, next_entry_offset (hdr_body (cell_hdr c))).
Definition set_top_offset (v : Z) : M cell unit :=
  modify (λ c, put_body (CellBody v (next_entry_offset (hdr_body (cell_hdr c)))) c).
Definition set_next_offset (v : Z) : M cell unit :=
  modify (λ c, put_body (CellBody (top_entry_offset (hdr_body (cell_hdr c))) v) c).

Definition cell_body_set_top (entry : Z) : M slab unit :=
  set_free_space entry 1;;
  set_top_entry entry 1;;
  set_size entry 0.

Definition cell_body_init : M cell unit :=
  modify (put_body (CellBody 0 0));;
  on_slab (cell_body_set_top 0);;
  on_slab (set_previous_size 0 0);;
  set_top_offset 0;;
  set_next_offset 0.

(** [memcpy(ptr, buffer, buffer_size)] from the bytes [buffer] points to. *)
Definition memcpy_buffer (ptr : Z) (buffer : list byte) (buffer_size : Z) : M slab unit :=
  bytes ← read_buffer buffer buffer_size;
  store_bytes ptr bytes.

Definition cell_body_write_chunk (entry : Z) (c : checksum) (buffer : list byte)
    (buffer_size : Z) : M slab unit :=
  store_bytes entry c;;
  set_size entry buffer_size;;
  set_free_space entry 0;;
  memcpy_buffer (entry + sizeof_cell_body_entry) buffer buffer_size.

Definition cell_body_free_space : M cell Z :=
  c ← get;
  let end_of_body := u32 (top_entry_offset (hdr_body (cell_hdr c)) + sizeof_cell_body_entry) in
  mret (u32 (slab_size c - u32 (end_of_body + cell_header_bytes_used (cell_hdr c)))).

(** The result and the directory entry, which is an out-parameter in C. *)
Definition cell_body_add_top (c : checksum) (buffer : list byte) (buffer_size : Z)
    (e : cell_dir_entry) : M cell (bool * cell_dir_entry) :=
  let required_space := u32 (buffer_size + sizeof_cell_body_entry + sizeof_cell_dir_entry) in
  free_space ← cell_body_free_space;
  if free_space <? required_space then mret (false, e)
  else
    ptr ← get_top_offset;
    on_slab (set_free_space ptr 0);;
    on_slab (set_top_entry ptr 0);;
    on_slab (set_size ptr buffer_size);;
    on_slab (store_bytes ptr c);;
    on_slab (memcpy_buffer (ptr + sizeof_cell_body_entry) buffer buffer_size);;
    let e := cell_dir_entry_set e c ptr in
    cell_header_add e buffer_size;;
    let ptr := ptr + sizeof_cell_body_entry + buffer_size in
    on_slab (cell_body_set_top ptr);;
    on_slab (set_previous_size ptr buffer_size);;
    top ← get_top_offset;
    set_top_offset (u32 (top + (buffer_size + sizeof_cell_body_entry)));;
    top ← get_top_offset;
    set_next_offset top;;
    mret (true, e).

(** The result of [cell_body_add_top] is dropped, as in C. *)
Definition cell_body_push_down_top (entry : Z) (c : checksum) (buffer : list byte)
    (buffer_size : Z) (e : cell_dir_entry) : M cell cell_dir_entry :=
  on_slab (cell_body_set_top entry);;
  next ← get_next_offset;
  set_top_offset next;;
  r ← cell_body_add_top c buffer buffer_size e;
  mret r.2.

Definition cell_body_next_entry_is_top (entry : Z) : M slab bool :=
  size ← get_size entry;
  cell_body_entry_top (entry + (size + sizeof_cell_body_entry)).

Definition cell_body_add_dir_entry (e : cell_dir_entry) (entry_size : Z) : M cell unit :=
  free_space ← cell_body_free_space;
  if sizeof_cell_dir_entry <=? free_space then cell_header_add e entry_size
  else
    offset ← get_top_offset;
    previous ← on_slab (get_previous_size offset);
    let offset := u32 (offset - (previous + sizeof_cell_body_entry)) in
    free ← on_slab (cell_body_entry_free offset);
    ALWAYS (negb free);;
    cell_header_remove offset;;
    on_slab (cell_body_set_top offset);;
    set_top_offset offset;;
    free_space ← cell_body_free_space;
    ALWAYS (sizeof_cell_dir_entry <=? free_space);;
    cell_header_add e entry_size.

(** The loop of [cell_body_add_offset]: take over entries until their room is enough
    or the top is reached. [Enough] carries [free_space] and the last entry.  Nothing in the
    code bounds [ptr]: that it stays in the slab is due to the consistency of the cell. *)
Inductive scan_result :=
  | HitTop
  | Enough (free_space : Z) (last : Z).

Fixpoint cell_body_scan (fuel : nat) (required_space free_space ptr : Z) : M cell scan_result :=
  match fuel with
  | O => throw OutOfFuel
  | S fuel =>
      if required_space <=? free_space then mret (Enough free_space ptr)
      else
        size ← on_slab (get_size ptr);
        let ptr := ptr + (size + sizeof_cell_body_entry) in
        top ← on_slab (cell_body_entry_top ptr);
        if (top : bool) then mret HitTop
        else
          free ← on_slab (cell_body_entry_free ptr);
          (if negb free then cell_header_remove ptr else mret tt);;
          size ← on_slab (get_size ptr);
          cell_body_scan fuel required_space
            (u32 (free_space + (size + sizeof_cell_body_entry))) ptr
  end.

(** Every entry the loop passes takes at least 36 bytes. *)
Definition scan_fuel (c : cell) : nat := S (S (Z.to_nat (slab_size c / sizeof_cell_body_entry))).

Definition cell_body_add_offset (c : checksum) (buffer : list byte) (buffer_size : Z)
    (e : cell_dir_entry) : M cell cell_dir_entry :=
  entry ← get_next_offset;
  free ← on_slab (cell_body_entry_free entry);
  (if negb free then cell_header_remove entry else mret tt);;
  on_slab (set_free_space entry 0);;
  size ← on_slab (get_size entry);
  if size =? buffer_size then
    on_slab (cell_body_write_chunk entry c buffer buffer_size);;
    next ← get_next_offset;
    let e := cell_dir_entry_set e c next in
    cell_body_add_dir_entry e buffer_size;;
    next ← get_next_offset;
    set_next_offset (u32 (next + (sizeof_cell_body_entry + buffer_size)));;
    mret e
  else
    let required_space := u32 (buffer_size + sizeof_cell_body_entry) in
    fuel ← gets scan_fuel;
    scan ← cell_body_scan fuel required_space size entry;
    match scan with
    | HitTop => cell_body_push_down_top entry c buffer buffer_size e
    | Enough free_space last =>
        is_top ← on_slab (cell_body_next_entry_is_top last);
        if (is_top : bool) then cell_body_push_down_top entry c buffer buffer_size e
        else
          on_slab (cell_body_write_chunk entry c buffer buffer_size);;
          next ← get_next_offset;
          let e := cell_dir_entry_set (DirEntry c (de_offset e) (de_set e)) c next in
          cell_body_add_dir_entry e buffer_size;;
          let free_space := u32 (free_space - required_space) in
          next ← get_next_offset;
          set_next_offset (u32 (next + (sizeof_cell_body_entry + buffer_size)));;
          ptr ← get_next_offset;
          on_slab (cell_body_entry_init ptr);;
          on_slab (set_previous_size ptr buffer_size);;
          on_slab (set_size ptr free_space);;
          on_slab (set_free_space ptr 1);;
          on_slab (set_top_entry ptr 0);;
          let ptr := ptr + (sizeof_cell_body_entry + free_space) in
          on_slab (set_previous_size ptr free_space);;
          mret e
    end.

Definition cell_body_add (c : checksum) (buffer : list byte) (buffer_size : Z)
    (e : cell_dir_entry) : M cell cell_dir_entry :=
  next ← get_next_offset;
  top ← on_slab (cell_body_entry_top next);
  if negb top then cell_body_add_offset c buffer buffer_size e
  else
    r ← cell_body_add_top c buffer buffer_size e;
    if negb r.1 then
      set_next_offset 0;;
      cell_body_add_offset c buffer buffer_size r.2
    else mret r.2.

(** cell_header_init of cell_header.c, which starts the body and the directory. *)
Definition cell_header_init : M cell unit :=
  modify (put_hdr (CellHeader 0 0 0 (CellIc 0 0) (CellBody 0 0)
    (CellDir (replicate CELL_DIR_BLOCK_COUNT (DirBlock (replicate CELL_DIR_BLOCK_ENTRIES
       cell_dir_entry_init) 0 0)) (DirOverflow 0))));;
  modify (put_ic cell_ic_init);;
  modify (λ c, put_dirst (cell_dir_init, cell_slab c) c);;
  cell_body_init;;
  sync_synchronize;;
  modify (λ c, let h := cell_hdr c in
    put_hdr (CellHeader CELL_HEADER_MAGIC (entry_count h) (byte_count h) (hdr_ic h)
              (hdr_body h) (hdr_dir h)) c);;
  sync_synchronize.
