(* ===== verification/CellLayout.v ===== *)
(** The layout of the body of a cell in memory: the entries that follow one another
    from the start of the slab, each with the size of the one before it, and the top
    entry behind them; and what the field writes of cell_body.c do to it. *)

From S2P Require Import Prelude Monad Slab Checksum CellBodyEntry CellHeader CellState CellBody.

(** * Layout *)

Definition entry_at (s : slab) (off prev : Z) (b : bentry) : Prop :=
  be_at s off = BodyEntry (b_sum b) (if b_free b then 1 else 0) 0 (b_size b) prev ∧
  rd s (off + 36) (length (b_data b)) = b_data b.

(** The entries [es] lie from [off] on; [prev] is the size of the entry before. *)
Fixpoint seg (s : slab) (off prev : Z) (es : list bentry) : Prop :=
  match es with
  | [] => True
  | b :: es => entry_at s off prev b ∧ seg s (off + b_span b) (b_size b) es
  end.

Fixpoint last_size (prev : Z) (es : list bentry) : Z :=
  match es with
  | [] => prev
  | b :: es => last_size (b_size b) es
  end.

(** The top entry: free, empty. *)
Definition top_at (s : slab) (off prev : Z) : Prop :=
  ∃ sum, be_at s off = BodyEntry sum 1 1 0 prev.

Definition layout (s : slab) (es : list bentry) : Prop :=
  seg s 0 0 es ∧ top_at s (span es) (last_size 0 es).

Section layout.
Implicit Types s : slab.

Lemma last_size_app prev l1 l2 : last_size prev (l1 ++ l2) = last_size (last_size prev l1) l2.
Proof. revert prev. induction l1; intros; simpl; auto. Qed.

Lemma seg_app s off prev l1 l2 :
  seg s off prev (l1 ++ l2) ↔
  seg s off prev l1 ∧ seg s (off + span l1) (last_size prev l1) l2.
Proof.
  revert off prev. induction l1 as [|b l1 IH]; intros off prev; simpl.
  - rewrite Z.add_0_r. tauto.
  - rewrite IH, Z.add_assoc. tauto.
Qed.

Lemma entry_at_agree s s' off prev b :
  agree s s' off (off + b_span b) → entry_at s off prev b → entry_at s' off prev b.
Proof.
  intros Ha [He Hd]. unfold b_span in Ha. pose proof (b_size_nonneg b) as Hp. split.
  - rewrite <-He. by eapply be_at_agree; [done|lia..].
  - rewrite <-Hd at 2. eapply agree_rd; [done|lia|]. unfold b_size. lia.
Qed.

Lemma seg_agree s s' off prev es :
  agree s s' off (off + span es) → seg s off prev es → seg s' off prev es.
Proof.
  revert off prev. induction es as [|b es IH]; intros off prev Ha; simpl; [done|].
  simpl in Ha. pose proof (b_span_pos b). pose proof (span_nonneg es). intros [He Hs]. split.
  - eapply entry_at_agree; [|done]. eapply agree_sub; [done|lia..].
  - apply IH; [|done]. eapply agree_sub; [done|lia..].
Qed.

Lemma top_at_agree s s' off prev :
  agree s s' off (off + 36) → top_at s off prev → top_at s' off prev.
Proof. intros Ha [sum H]. exists sum. rewrite <-H. by eapply be_at_agree; [done|lia..]. Qed.

Lemma layout_agree s s' es : agree s s' 0 (span es + 36) → layout s es → layout s' es.
Proof.
  intros Ha [Hs Ht]. pose proof (span_nonneg es). split.
  - eapply seg_agree; [|done]. eapply agree_sub; [done|lia..].
  - eapply top_at_agree; [|done]. eapply agree_sub; [done|lia..].
Qed.

Lemma entry_at_size s off prev b : entry_at s off prev b → b_size b < 32768.
Proof. intros [He _]. pose proof (be_size_bound s off) as H. rewrite He in H. simpl in H. lia. Qed.

(** The entry at the position [pre] of a layout. *)
Lemma layout_entry s pre b suf :
  layout s (pre ++ b :: suf) → entry_at s (span pre) (last_size 0 pre) b.
Proof. intros [Hs _]. apply seg_app in Hs as [_ [He _]]. done. Qed.

Lemma layout_previous s pre suf :
  layout s (pre ++ suf) → be_previous_size (be_at s (span pre)) = last_size 0 pre.
Proof.
  intros H. destruct suf as [|b suf].
  - rewrite app_nil_r in H. by destruct H as [_ [sum ->]].
  - by destruct (layout_entry _ _ _ _ H) as [-> _].
Qed.

Lemma layout_is_top s pre suf :
  layout s (pre ++ suf) →
  (be_top_entry (be_at s (span pre)) =? 1) = match suf with [] => true | _ => false end.
Proof.
  intros H. destruct suf as [|b suf].
  - rewrite app_nil_r in H. by destruct H as [_ [sum ->]].
  - by destruct (layout_entry _ _ _ _ H) as [-> _].
Qed.

Lemma entry_at_free s off prev b :
  entry_at s off prev b → (be_free_space (be_at s off) =? 1) = b_free b.
Proof. intros [-> _]; simpl. by destruct (b_free b). Qed.
End layout.

(** * The writes *)
Section writes.
Implicit Types s : slab.

Lemma be_at_put_out pos len a v b s :
  b + 36 ≤ a + 32 ∨ a + 36 ≤ b → be_at (put_field pos len a v s) b = be_at s b.
Proof.
  intros. eapply be_at_agree; [|reflexivity..].
  eapply modifies_agree; [apply (modifies_put_field _ _ _ _ _ (a + 32) (a + 36))|]; lia.
Qed.

Lemma be_at_wr_out a bs b s :
  b + 36 ≤ a ∨ a + Z.of_nat (length bs) ≤ b → be_at (wr s a bs) b = be_at s b.
Proof. intros. eapply be_at_agree; [by apply (agree_wr _ _ _ b (b + 36)); lia|lia..]. Qed.

Lemma cell_body_set_top_spec a s :
  0 ≤ a → a + 36 ≤ s_lim s →
  ∃ s', cell_body_set_top a s = (Ok tt, s') ∧ modifies s s' a (a + 36)
    ∧ be_at s' a = BodyEntry (be_checksum (be_at s a)) 1 1 0 (be_previous_size (be_at s a)).
Proof.
  intros. eexists. split; [|split].
  - unfold cell_body_set_top. mrun by (apply set_field_ok; lia).
    mrun by (apply set_field_ok; rewrite ?lim_put_field; lia).
    apply set_field_ok; rewrite ?lim_put_field; lia.
  - repeat (eapply modifies_trans; [|apply modifies_put_field; lia]). apply modifies_refl.
  - by rewrite be_at_put_size, be_at_put_top_entry, be_at_put_free_space.
Qed.

(** The writes of [cell_body_add_top] to the entry that was the top. *)
Definition write_top (ptr : Z) (c : checksum) (buffer : list byte) (buffer_size : Z) : M slab unit :=
  set_free_space ptr 0;; set_top_entry ptr 0;; set_size ptr buffer_size;;
  store_bytes ptr c;; memcpy_buffer (ptr + sizeof_cell_body_entry) buffer buffer_size.

Lemma entry_at_intro s off prev b data :
  be_at s off = BodyEntry (b_sum b) (if b_free b then 1 else 0) 0 (b_size b) prev →
  rd s (off + 36) (length data) = data → data = b_data b → entry_at s off prev b.
Proof. intros ?? ->. by split. Qed.

(** The size is cut to the 15 bits of its field. *)
Lemma write_top_run ptr b buffer s :
  0 ≤ ptr → ptr + b_span b ≤ s_lim s → checksum_wf (b_sum b) →
  take (length (b_data b)) buffer = b_data b →
  ∃ s', write_top ptr (b_sum b) buffer (b_size b) s = (Ok tt, s')
    ∧ modifies s s' ptr (ptr + b_span b)
    ∧ be_at s' ptr = BodyEntry (b_sum b) 0 0 (b_size b `mod` 32768) (be_previous_size (be_at s ptr))
    ∧ rd s' (ptr + 36) (length (b_data b)) = b_data b.
Proof.
  intros Hp Hlim Hsum Hbuf. unfold b_span in *. pose proof (b_size_nonneg b) as Hnn.
  eexists. split; [|split; [|split]].
  - unfold write_top, memcpy_buffer.
    assert (Hn : Z.to_nat (b_size b) = length (b_data b)) by (unfold b_size; lia).
    assert (Hlb : b_size b ≤ Z.of_nat (length buffer)).
    { apply (f_equal length) in Hbuf. rewrite length_take in Hbuf. unfold b_size. lia. }
    do 3 mrun by (apply set_field_ok; rewrite ?lim_put_field; lia).
    mrun by (apply store_bytes_ok; rewrite ?lim_put_field, ?Hsum; unfold CHECKSUM_SIZE; lia).
    mrun by (apply read_buffer_ok; lia). rewrite Hn, Hbuf.
    apply store_bytes_ok; rewrite ?lim_wr, ?lim_put_field; unfold b_size, sizeof_cell_body_entry in *; lia.
  - unfold sizeof_cell_body_entry.
    eapply modifies_trans; [|apply modifies_wr; unfold b_size; lia].
    eapply modifies_trans; [|apply modifies_wr; rewrite ?Hsum; unfold CHECKSUM_SIZE; lia].
    repeat (eapply modifies_trans; [|apply modifies_put_field; lia]). apply modifies_refl.
  - rewrite be_at_wr_out by (unfold sizeof_cell_body_entry; lia).
    by rewrite be_at_store_checksum, be_at_put_size, be_at_put_top_entry, be_at_put_free_space by done.
  - by apply rd_wr_same.
Qed.

Lemma write_top_spec ptr b buffer s :
  0 ≤ ptr → ptr + b_span b ≤ s_lim s → checksum_wf (b_sum b) → b_size b < 32768 →
  b_free b = false → take (length (b_data b)) buffer = b_data b →
  ∃ s', write_top ptr (b_sum b) buffer (b_size b) s = (Ok tt, s')
    ∧ modifies s s' ptr (ptr + b_span b)
    ∧ entry_at s' ptr (be_previous_size (be_at s ptr)) b.
Proof.
  intros Hp Hlim Hsum Hsz Hfree Hbuf. pose proof (b_size_nonneg b).
  destruct (write_top_run ptr b buffer s Hp Hlim Hsum Hbuf) as (s' & Hr & Hm & He & Hd).
  exists s'. split; [done|]. split; [done|]. split; [|done]. by rewrite He, Hfree, Z.mod_small by lia.
Qed.

Lemma cell_body_write_chunk_spec ptr b buffer s :
  0 ≤ ptr → ptr + b_span b ≤ s_lim s → checksum_wf (b_sum b) → b_size b < 32768 →
  b_free b = false → take (length (b_data b)) buffer = b_data b →
  be_top_entry (be_at s ptr) = 0 →
  ∃ s', cell_body_write_chunk ptr (b_sum b) buffer (b_size b) s = (Ok tt, s')
    ∧ modifies s s' ptr (ptr + b_span b)
    ∧ entry_at s' ptr (be_previous_size (be_at s ptr)) b.
Proof.
  intros Hp Hlim Hsum Hsz Hfree Hbuf Htop. unfold b_span in *. pose proof (b_size_nonneg b) as Hnn.
  eexists. split; [|split].
  - unfold cell_body_write_chunk, memcpy_buffer.
    assert (Hn : Z.to_nat (b_size b) = length (b_data b)) by (unfold b_size; lia).
    assert (Hlb : b_size b ≤ Z.of_nat (length buffer)).
    { apply (f_equal length) in Hbuf. rewrite length_take in Hbuf. unfold b_size. lia. }
    mrun by (apply store_bytes_ok; rewrite ?Hsum; unfold CHECKSUM_SIZE; lia).
    do 2 mrun by (apply set_field_ok; rewrite ?lim_put_field, ?lim_wr; lia).
    mrun by (apply read_buffer_ok; lia). rewrite Hn, Hbuf.
    apply store_bytes_ok; rewrite ?lim_put_field, ?lim_wr; unfold b_size, sizeof_cell_body_entry in *; lia.
  - unfold sizeof_cell_body_entry.
    eapply modifies_trans; [|apply modifies_wr; unfold b_size; lia].
    do 2 (eapply modifies_trans; [|apply modifies_put_field; lia]).
    apply modifies_wr; rewrite ?Hsum; unfold CHECKSUM_SIZE; lia.
  - apply entry_at_intro with (b_data b); [|by apply rd_wr_same|done].
    rewrite be_at_wr_out by (unfold sizeof_cell_body_entry; lia).
    rewrite be_at_put_free_space, be_at_put_size, be_at_store_checksum by done.
    be_simpl. by rewrite Hfree, Htop, (Z.mod_small (b_size b)) by lia.
Qed.

(** The new top entry of [cell_body_add_top]. *)
Lemma new_top_run a n s :
  0 ≤ a → a + 36 ≤ s_lim s →
  ∃ s', (cell_body_set_top a;; set_previous_size a n) s = (Ok tt, s')
    ∧ modifies s s' a (a + 36) ∧ top_at s' a (n `mod` 32768).
Proof.
  intros. destruct (cell_body_set_top_spec a s) as (s1 & Hr & Hm & He); [lia..|].
  eexists. split; [|split].
  - mrun by exact Hr. apply set_field_ok; rewrite ?(modifies_lim _ _ _ _ Hm); lia.
  - eapply modifies_trans; [done|]. apply modifies_put_field; lia.
  - eexists. rewrite be_at_put_previous_size, He. reflexivity.
Qed.

Lemma new_top_spec a n s :
  0 ≤ a → a + 36 ≤ s_lim s → 0 ≤ n < 32768 →
  ∃ s', (cell_body_set_top a;; set_previous_size a n) s = (Ok tt, s')
    ∧ modifies s s' a (a + 36) ∧ top_at s' a n.
Proof. intros Ha Hl Hn. destruct (new_top_run a n s Ha Hl) as (s' & ? & ? & Ht). rewrite Z.mod_small in Ht by lia. by exists s'. Qed.

(** The free entry that [cell_body_add_offset] leaves behind the new chunk. *)
Definition write_hole (ptr previous_size size : Z) : M slab unit :=
  cell_body_entry_init ptr;; set_previous_size ptr previous_size;; set_size ptr size;;
  set_free_space ptr 1;; set_top_entry ptr 0;;
  set_previous_size (ptr + (sizeof_cell_body_entry + size)) size.

Lemma write_hole_spec ptr prev n s :
  0 ≤ ptr → 0 ≤ n < 32768 → ptr + 36 + n + 36 ≤ s_lim s → 0 ≤ prev < 32768 →
  ∃ s', write_hole ptr prev n s = (Ok tt, s')
    ∧ s_lim s' = s_lim s
    ∧ (∀ i, i < ptr ∨ ptr + 36 ≤ i < ptr + 36 + n ∨ ptr + n + 72 ≤ i → rd1 s' i = rd1 s i)
    ∧ rd s' (ptr + 36 + n) 32 = rd s (ptr + 36 + n) 32
    ∧ be_at s' ptr = BodyEntry checksum_init 1 0 n prev
    ∧ (let e := be_at s (ptr + 36 + n) in
       be_at s' (ptr + 36 + n) =
         BodyEntry (be_checksum e) (be_free_space e) (be_top_entry e) (be_size e) n).
Proof.
  intros Hp Hn Hlim Hprev. unfold write_hole, sizeof_cell_body_entry.
  replace (ptr + (36 + n)) with (ptr + 36 + n) by lia.
  set (s1 := put_field 1 1 ptr 0 (put_field 0 1 ptr 1 (put_field 2 15 ptr n
    (put_field 17 15 ptr prev (wr s ptr (replicate 36 Byte.x00)))))).
  assert (Hm : modifies s s1 ptr (ptr + 36)).
  { do 4 (eapply modifies_trans; [|apply modifies_put_field; lia]).
    apply modifies_wr; rewrite ?length_replicate; lia. }
  exists (put_field 17 15 (ptr + 36 + n) n s1). split_and!.
  - mrun by (apply store_bytes_ok; rewrite ?length_replicate; lia).
    do 4 mrun by (apply set_field_ok; rewrite ?lim_put_field, ?lim_wr; lia).
    apply set_field_ok; rewrite ?(modifies_lim _ _ _ _ Hm), ?lim_put_field, ?lim_wr; lia.
  - rewrite lim_put_field. apply (modifies_lim _ _ _ _ Hm).
  - intros i Hi. rewrite (proj2 (modifies_put_field 17 15 (ptr + 36 + n) n s1
      (ptr + 36 + n + 32) (ptr + 36 + n + 36) ltac:(lia) ltac:(lia))) by lia.
    apply (proj2 Hm). lia.
  - rewrite rd_put_field. eapply agree_rd; [|reflexivity|reflexivity].
    eapply modifies_agree; [done|]. lia.
  - rewrite be_at_put_out by lia. unfold s1.
    rewrite be_at_put_top_entry, be_at_put_free_space, be_at_put_size, be_at_put_previous_size,
      be_at_zero. be_simpl. by rewrite !Z.mod_small by lia.
  - rewrite be_at_put_previous_size, Z.mod_small by lia.
    erewrite (be_at_agree s s1 (ptr + 36 + n) (ptr + 36 + n + 36)); [done| |lia..].
    eapply modifies_agree; [done|]. lia.
Qed.
End writes.
