(* ===== verification/CellBodySpec.v ===== *)
(** What each function of cell_body.c does to the layout of the body and to the chunks
    the directory holds. *)

From S2P Require Import Prelude Monad Slab Checksum CellIc CellDirEntry CellDirBlock CellDirOverflow.
From S2P Require Import CellDir CellBodyEntry CellHeader CellState CellBody CellLayout.

(** * Running the body functions *)

Section run.
Implicit Types c : cell.

Lemma put_slab_twice s s' c : put_slab s' (put_slab s c) = put_slab s' c.
Proof. done. Qed.

(** Consecutive accesses to the slab are one access. *)
Lemma on_slab_seq {A B} (m : M slab unit) (m' : M slab A) (k : A → M cell B) c :
  (on_slab m ≫= λ _, on_slab m' ≫= k) c = (on_slab (m;; m') ≫= k) c.
Proof.
  apply zoom_seq.
Qed.

(** The bytes between the body and the directory. *)
Definition room c : Z := header_offset c - top_of c - 36 - ovc c * 36.

Lemma header_offset_bound c lv : dcore c lv → 36 ≤ header_offset c < 2147483648 - 28704.
Proof.
  intros H. pose proof (dc_width _ _ H). pose proof (dc_room _ _ H). pose proof (dc_top _ _ H).
  pose proof (dcore_count _ _ H). unfold header_offset in *.
  change sizeof_cell_header with 28704 in *. lia.
Qed.

Lemma room_bound c lv : dcore c lv → 0 ≤ room c < 2147483648.
Proof.
  intros H. pose proof (header_offset_bound _ _ H). pose proof (dc_room _ _ H).
  pose proof (dc_top _ _ H). pose proof (dcore_count _ _ H). unfold room. lia.
Qed.

Lemma cell_body_free_space_ok c lv : dcore c lv → cell_body_free_space c = (Ok (room c), c).
Proof.
  intros H. pose proof (header_offset_bound _ _ H). pose proof (dc_room _ _ H).
  pose proof (dc_top _ _ H). pose proof (dcore_count _ _ H).
  unfold cell_body_free_space, room. rewrite bind_get. unfold cell_header_bytes_used. simpl.
  unfold header_offset, top_of, ovc, ov_count, dirst_of in *. cbn [fst] in *.
  change sizeof_cell_header with 28704 in *.
  unfold sizeof_cell_body_entry, sizeof_cell_dir_entry.
  rewrite (u32_id (28704 + _)), (u32_id (top_entry_offset _ + 36)) by lia.
  rewrite (u32_id (_ + 36 + _)), (u32_id (_ - _)) by lia.
  rewrite run_ret. do 2 f_equal. lia.
Qed.
End run.

(** A chunk to add: its entry, and the caller's buffer that holds its bytes. *)
Record chunk_ok (b : bentry) (buffer : list byte) : Prop := {
  ck_live : b_free b = false;
  ck_sum : checksum_wf (b_sum b);
  ck_size : b_size b < 32768;
  ck_data : take (length (b_data b)) buffer = b_data b;
}.

(** What the body functions leave alone. *)
Definition keeps_ic (c c' : cell) : Prop :=
  magic (cell_hdr c') = magic (cell_hdr c) ∧ hdr_ic (cell_hdr c') = hdr_ic (cell_hdr c) ∧
  slab_size c' = slab_size c.

Lemma keeps_ic_refl c : keeps_ic c c.
Proof. done. Qed.
Lemma keeps_ic_trans c1 c2 c3 : keeps_ic c1 c2 → keeps_ic c2 c3 → keeps_ic c1 c3.
Proof. unfold keeps_ic. intuition congruence. Qed.
Lemma keeps_keeps_ic c c' : keeps c c' → keeps_ic c c'.
Proof. unfold keeps, keeps_ic. tauto. Qed.
Lemma keeps_ic_offset c c' : keeps_ic c c' → header_offset c' = header_offset c.
Proof. intros (_ & _ & H). unfold header_offset. by rewrite H. Qed.
#[export] Hint Resolve keeps_ic_refl keeps_keeps_ic : slab.

Definition next_of (c : cell) : Z := next_entry_offset (hdr_body (cell_hdr c)).

(** [ring c pre suf lv]: the entries [pre ++ suf] lie in the body, the next chunk goes
    to the place of the first of [suf], and the directory holds [lv]. *)
Record ring (c : cell) (pre suf : list bentry) (lv : list (Z * bentry)) : Prop := {
  rg_core : dcore c lv;
  rg_layout : layout (cell_slab c) (pre ++ suf);
  rg_top : top_of c = span (pre ++ suf);
  rg_next : next_of c = span pre;
}.

(** * cell_body_add_top and cell_body_push_down_top *)
Section add_top.
Implicit Types c : cell.

(** The directory entry of a chunk at [o]. *)
Definition dir_entry_of (o : Z) (b : bentry) : cell_dir_entry := DirEntry (b_sum b) o 1.

Lemma cell_dir_entry_set_ok e b o :
  0 ≤ o < 2147483648 → cell_dir_entry_set e (b_sum b) o = dir_entry_of o b.
Proof. intros. unfold cell_dir_entry_set, dir_entry_of. by rewrite Z.mod_small. Qed.

Lemma cell_body_add_top_full c lv b buffer e :
  dcore c lv → chunk_ok b buffer → room c < b_size b + 72 →
  cell_body_add_top (b_sum b) buffer (b_size b) e c = (Ok (false, e), c).
Proof.
  intros H Hb Hr. pose proof (b_size_nonneg b). pose proof (ck_size _ _ Hb).
  unfold cell_body_add_top, sizeof_cell_body_entry, sizeof_cell_dir_entry.
  mrun by (by eapply cell_body_free_space_ok). rewrite u32_id by lia.
  by replace (room c <? b_size b + 36 + 36) with true by lia.
Qed.

(** The steps of [cell_body_add_top] when there is room: [s1] with the entry written, [c2]
    with the directory entry, [s3] with the new top. *)
Lemma cell_body_add_top_run c c2 s1 s3 lv off b buffer e :
  dcore c lv → b_size b < 65536 → top_of c = off → 0 ≤ off → b_size b + 72 ≤ room c →
  let top' := off + b_span b in
  write_top off (b_sum b) buffer (b_size b) (cell_slab c) = (Ok tt, s1) →
  cell_header_add (dir_entry_of off b) (b_size b) (put_slab s1 c) = (Ok tt, c2) →
  top_of c2 = off →
  (cell_body_set_top top';; set_previous_size top' (b_size b)) (cell_slab c2) = (Ok tt, s3) →
  cell_body_add_top (b_sum b) buffer (b_size b) e c =
    (Ok (true, dir_entry_of off b), put_body (CellBody top' top') (put_slab s3 c2)).
Proof.
  intros H Hb Htop Hoff Hroom top' Hw Hadd Htop2 Hnt.
  pose proof (header_offset_bound _ _ H). pose proof (dcore_count _ _ H). pose proof (b_size_nonneg b).
  unfold room in Hroom. rewrite Htop in Hroom.
  unfold cell_body_add_top, sizeof_cell_body_entry, sizeof_cell_dir_entry.
  mrun by (by eapply cell_body_free_space_ok). rewrite u32_id by lia.
  replace (room c <? b_size b + 36 + 36) with false by (unfold room; lia).
  unfold get_top_offset. mnorm. rewrite !on_slab_seq.
  change (top_entry_offset (hdr_body (cell_hdr c))) with (top_of c). rewrite Htop.
  mrun by (apply on_slab_ok; rewrite !bind_assoc; exact Hw).
  rewrite !cell_dir_entry_set_ok by lia. mrun by (exact Hadd). rewrite on_slab_seq.
  replace (off + 36 + b_size b) with top' by (unfold top', b_span; lia).
  mrun by (apply on_slab_ok; exact Hnt).
  unfold get_top_offset, set_top_offset, set_next_offset. mnorm.
  change (top_entry_offset (hdr_body (cell_hdr (put_slab s3 c2)))) with (top_of c2).
  rewrite Htop2, u32_id by (unfold b_span in *; lia).
  by replace (off + (b_size b + 36)) with top' by (unfold top', b_span; lia).
Qed.

(** The memory they leave: one entry more. *)
Lemma add_top_layout s s1 s2 s3 es b :
  layout s es → modifies s s1 (span es) (span es + b_span b) →
  entry_at s1 (span es) (last_size 0 es) b → agree s1 s2 0 (span es + b_span b) →
  modifies s2 s3 (span es + b_span b) (span es + b_span b + 36) →
  top_at s3 (span es + b_span b) (b_size b) → layout s3 (es ++ [b]).
Proof.
  intros Hlay Hm1 He1 Hag2 Hm3 Ht3. pose proof (span_nonneg es). pose proof (b_span_pos b).
  assert (Hag : agree s1 s3 0 (span es + b_span b)).
  { eapply agree_trans; [exact Hag2|]. eapply modifies_agree; [exact Hm3|lia]. }
  split.
  - apply seg_app. split.
    + eapply seg_agree; [|apply Hlay]. eapply agree_trans with s1.
      * eapply modifies_agree; [exact Hm1|]. lia.
      * eapply agree_sub; [exact Hag|lia..].
    + split; [|done]. eapply entry_at_agree; [|exact He1]. eapply agree_sub; [exact Hag|lia..].
  - rewrite last_size_app, span_app. cbn [span]. rewrite Z.add_0_r. exact Ht3.
Qed.

Lemma cell_body_add_top_fits c lv es b buffer e :
  dcore c lv → layout (cell_slab c) es → top_of c = span es →
  chunk_ok b buffer → b_sum b ∉ lsum <$> lv → ovc c < 4095 → lspan lv ≤ span es →
  b_size b + 72 ≤ room c →
  ∃ c', cell_body_add_top (b_sum b) buffer (b_size b) e c = (Ok (true, dir_entry_of (span es) b), c')
    ∧ ring c' (es ++ [b]) [] ((span es, b) :: lv) ∧ keeps_ic c c'.
Proof.
  intros H Hlay Htop Hb Hnew Hov Hsp Hroom.
  pose proof (header_offset_bound _ _ H) as Hho. pose proof (dcore_count _ _ H) as Hcnt.
  pose proof (b_size_nonneg b) as Hbn. pose proof (dc_lim _ _ H) as Hlim. pose proof (span_nonneg es) as Hes.
  pose proof Hb as [Hlive Hsum Hsz Hbuf]. pose proof Hroom as Hroom'. unfold room in Hroom'. rewrite Htop in Hroom'.
  destruct (write_top_spec (span es) b buffer (cell_slab c)) as (s1 & Hw & Hm1 & He1);
    [unfold b_span; lia..|done|done|done|done|].
  rewrite (layout_previous _ es []) in He1 by (by rewrite app_nil_r).
  set (c1 := put_slab s1 c).
  assert (H1 : dcore c1 lv) by (eapply dcore_put_slab; [done..|unfold b_span; lia]).
  destruct (cell_header_add_spec c1 lv (span es) b (dir_entry_of (span es) b))
    as (c2 & Hadd & H2 & Hk & Hov2 & Hag2); [done|done|lia|done|done|done| | |].
  { change (top_of c1) with (top_of c). change (header_offset c1) with (header_offset c).
    change (ovc c1) with (ovc c). lia. }
  { change (header_offset c1) with (header_offset c). unfold b_span. lia. }
  pose proof (keeps_offset _ _ Hk) as Hho2. pose proof (keeps_top _ _ Hk) as Htop2.
  change (ovc c1) with (ovc c) in *. change (header_offset c1) with (header_offset c) in *.
  change (top_of c1) with (top_of c) in Htop2. rewrite Htop in Htop2.
  set (top' := span es + b_span b).
  destruct (new_top_spec top' (b_size b) (cell_slab c2)) as (s3 & Hnt & Hm3 & Ht3);
    [unfold top', b_span; lia|rewrite (dc_lim _ _ H2); unfold top', b_span; lia|lia|].
  exists (put_body (CellBody top' top') (put_slab s3 c2)). split_and!; [|split; rewrite ?app_nil_r|].
  - eapply cell_body_add_top_run; [done|lia|done..].
  - apply dcore_put_body; [|simpl; unfold top', b_span; lia|].
    + eapply dcore_put_slab; [done|done|]. rewrite Hho2. unfold top', b_span. lia.
    + change (header_offset (put_slab s3 c2)) with (header_offset c2).
      change (ovc (put_slab s3 c2)) with (ovc c2).
      cbn [top_entry_offset]. unfold top', b_span. lia.
  - apply (add_top_layout (cell_slab c) s1 (cell_slab c2)); try done.
    eapply agree_sub; [exact Hag2|lia|]. unfold b_span. lia.
  - rewrite span_app. cbn [span]. by rewrite Z.add_0_r.
  - rewrite span_app. cbn [span]. by rewrite Z.add_0_r.
  - apply keeps_ic_trans with c2; [|done]. by apply keeps_keeps_ic.
Qed.

(** The top is lowered to an entry below it. *)
Lemma lower_top_core c lv s a n :
  dcore c lv → modifies (cell_slab c) s a (a + 36) → 0 ≤ a → a + 36 ≤ top_of c + 36 →
  dcore (put_body (CellBody a n) (put_slab s c)) lv.
Proof.
  intros H Hm Ha Htop. pose proof (dc_room _ _ H). pose proof (dcore_count _ _ H).
  apply dcore_put_body; simpl; [|done|].
  - eapply dcore_put_slab; [done..|lia].
  - change (header_offset (put_slab s c)) with (header_offset c).
    change (ovc (put_slab s c)) with (ovc c). lia.
Qed.

(** [cell_body_push_down_top] makes the entry at [next_entry_offset] the top and adds
    the chunk there if there is room: otherwise the chunk is dropped. *)
Lemma cell_body_push_down_top_spec c lv pre b buffer e :
  dcore c lv → seg (cell_slab c) 0 0 pre →
  be_previous_size (be_at (cell_slab c) (span pre)) = last_size 0 pre →
  next_of c = span pre → span pre ≤ top_of c →
  chunk_ok b buffer → b_sum b ∉ lsum <$> lv → ovc c < 4095 → lspan lv ≤ span pre →
  let free := header_offset c - span pre - 36 - ovc c * 36 in
  ∃ c' e', cell_body_push_down_top (span pre) (b_sum b) buffer (b_size b) e c = (Ok e', c')
    ∧ keeps_ic c c'
    ∧ (b_size b + 72 ≤ free ∧ ring c' (pre ++ [b]) [] ((span pre, b) :: lv) ∨
       free < b_size b + 72 ∧ ring c' pre [] lv ∧ ovc c' = ovc c).
Proof.
  intros H Hseg Hprev Hnext Htop Hb Hnew Hov Hsp free.
  pose proof (span_nonneg pre). pose proof (dc_room _ _ H). pose proof (dcore_count _ _ H).
  destruct (cell_body_set_top_spec (span pre) (cell_slab c)) as (s1 & Hst & Hm & He);
    [lia|rewrite (dc_lim _ _ H); lia|].
  set (c1 := put_body (CellBody (span pre) (span pre)) (put_slab s1 c)).
  assert (Hring : ring c1 pre [] lv).
  { split; rewrite ?app_nil_r; [|split|done|done].
    - apply lower_top_core; [done|done|lia..].
    - eapply seg_agree; [|done]. eapply modifies_agree; [done|lia].
    - eexists. by rewrite <-Hprev. }
  assert (Hrun : ∀ r c2, cell_body_add_top (b_sum b) buffer (b_size b) e c1 = (Ok r, c2) →
    cell_body_push_down_top (span pre) (b_sum b) buffer (b_size b) e c = (Ok r.2, c2)).
  { intros r c2 Hr. unfold cell_body_push_down_top, get_next_offset, set_top_offset.
    mrun by (apply on_slab_ok; exact Hst). mnorm.
    change (next_entry_offset (hdr_body (cell_hdr (put_slab s1 c)))) with (next_of c).
    rewrite Hnext. fold c1. by rewrite (bind_ok _ _ _ _ _ Hr). }
  destruct Hring as [Hc1 Hl1 Ht1 Hn1]. rewrite app_nil_r in Hl1, Ht1.
  assert (Hr1 : room c1 = free) by (unfold room; rewrite Ht1; done).
  destruct (decide (b_size b + 72 ≤ free)).
  - destruct (cell_body_add_top_fits c1 lv pre b buffer e) as (c2 & Hr & Hring2 & Hk);
      [done..|lia|].
    exists c2. eexists. split; [by apply Hrun in Hr|]. split; [done|]. by left.
  - exists c1, e. split; [|split; [done|]].
    + apply (Hrun (false, e)). eapply cell_body_add_top_full; [done..|lia].
    + right. split_and!; [lia|by split; rewrite ?app_nil_r|done].
Qed.
End add_top.

(** * cell_body_add_dir_entry *)
Section add_dir_entry.
Implicit Types c : cell.

Lemma cell_body_add_dir_entry_room c lv o b :
  dcore c lv → 0 ≤ o < 2147483648 → checksum_wf (b_sum b) → b_sum b ∉ lsum <$> lv →
  ovc c < 4095 → lspan lv + b_span b ≤ header_offset c → 36 ≤ room c →
  ∃ c', cell_body_add_dir_entry (dir_entry_of o b) (b_size b) c = (Ok tt, c')
    ∧ dcore c' ((o, b) :: lv) ∧ keeps c c'
    ∧ agree (cell_slab c) (cell_slab c') 0 (top_of c + 36).
Proof.
  intros H Ho Hs Hnew Hov Hfit Hroom.
  destruct (cell_header_add_spec c lv o b (dir_entry_of o b))
    as (c' & Hadd & H' & Hk & _ & Hag); [done..|unfold room in Hroom; lia|done|].
  exists c'. split_and!; [|done|done|].
  - unfold cell_body_add_dir_entry, sizeof_cell_dir_entry.
    mrun by (by eapply cell_body_free_space_ok). by replace (36 <=? room c) with true by lia.
  - eapply agree_sub; [done|lia|]. unfold room in Hroom. lia.
Qed.

(** The steps up to the entry below the top, when there is no room. *)
Lemma cell_body_add_dir_entry_down c lv l e n :
  dcore c lv → room c < 36 → be_previous_size (be_at (cell_slab c) (top_of c)) = b_size l →
  0 ≤ top_of c - b_span l →
  cell_body_add_dir_entry e n c =
    (ALWAYS (negb (be_free_space (be_at (cell_slab c) (top_of c - b_span l)) =? 1));;
     cell_header_remove (top_of c - b_span l);;
     on_slab (cell_body_set_top (top_of c - b_span l));;
     set_top_offset (top_of c - b_span l);;
     free_space ← cell_body_free_space;
     ALWAYS (sizeof_cell_dir_entry <=? free_space);;
     cell_header_add e n) c.
Proof.
  intros H Hroom Hprev Hlow. pose proof (header_offset_bound _ _ H).
  pose proof (dc_room _ _ H). pose proof (dcore_count _ _ H). pose proof (dc_lim _ _ H).
  pose proof (b_span_pos l).
  unfold cell_body_add_dir_entry, sizeof_cell_dir_entry, get_top_offset.
  mrun by (by eapply cell_body_free_space_ok).
  replace (36 <=? room c) with false by lia. mnorm.
  change (top_entry_offset (hdr_body (cell_hdr c))) with (top_of c).
  mrun by (apply on_slab_read, get_previous_size_ok; [apply H|lia]).
  rewrite Hprev. unfold sizeof_cell_body_entry.
  replace (top_of c - (b_size l + 36)) with (top_of c - b_span l) by (unfold b_span; lia).
  rewrite u32_id by lia. mnorm.
  mrun by (apply on_slab_read, cell_body_entry_free_ok; lia). done.
Qed.

Lemma cell_body_add_dir_entry_trim c lv lv' o b l pl :
  let a := top_of c - b_span l in
  dcore c lv → room c < 36 →
  be_previous_size (be_at (cell_slab c) (top_of c)) = b_size l →
  0 ≤ a → entry_at (cell_slab c) a pl l → b_free l = false →
  lv ≡ₚ (a, l) :: lv' → lv' ≠ [] → 0 < lbytes lv' →
  0 ≤ o < 2147483648 → checksum_wf (b_sum b) → b_sum b ∉ lsum <$> lv →
  ovc c < 4095 → lspan lv + b_span b ≤ header_offset c →
  ∃ c', cell_body_add_dir_entry (dir_entry_of o b) (b_size b) c = (Ok tt, c')
    ∧ dcore c' ((o, b) :: lv') ∧ keeps_ic c c' ∧ next_of c' = next_of c ∧ top_of c' = a
    ∧ agree (cell_slab c) (cell_slab c') 0 a ∧ top_at (cell_slab c') a pl.
Proof.
  intros a H Hroom Hprev Ha He Hfree Hp Hne Hpos Ho Hs Hnew Hov Hfit.
  pose proof (dc_room _ _ H) as Hdr. pose proof (dcore_count _ _ H) as Hdc.
  pose proof (b_span_pos l) as Hbl.
  rewrite (cell_body_add_dir_entry_down c lv l) by done. fold a.
  rewrite (entry_at_free _ _ _ _ He), Hfree. rewrite bind_ALWAYS by done.
  destruct He as [He _].
  destruct (cell_header_remove_spec c lv a l lv' H Hp Hne Hpos Ha) as (c1 & Hrm & H1 & Hk1 & Hov1 & Hag1);
    [lia|by rewrite He|by rewrite He|].
  pose proof (keeps_offset _ _ Hk1) as Hho1. pose proof (keeps_top _ _ Hk1) as Htop1.
  mrun by exact Hrm.
  assert (He1 : be_at (cell_slab c1) a = be_at (cell_slab c) a)
    by (eapply be_at_agree; [exact Hag1|lia..]).
  destruct (cell_body_set_top_spec a (cell_slab c1)) as (s2 & Hst & Hm2 & He2);
    [done|rewrite (dc_lim _ _ H1); lia|].
  mrun by (apply on_slab_ok; exact Hst). unfold set_top_offset. mnorm.
  set (c2 := put_body _ _).
  assert (H2 : dcore c2 lv') by (apply lower_top_core; [done..|lia]).
  assert (Hroom2 : 36 ≤ room c2).
  { unfold room in *. change (header_offset c2) with (header_offset c1).
    change (ovc c2) with (ovc c1). change (top_of c2) with a. lia. }
  mrun by (by eapply cell_body_free_space_ok).
  rewrite bind_ALWAYS by (unfold sizeof_cell_dir_entry; lia).
  destruct (cell_header_add_spec c2 lv' o b (dir_entry_of o b)) as (c3 & Hadd & H3 & Hk3 & _ & Hag3);
    [done..| | | | |].
  { rewrite Hp in Hnew. cbn [fmap list_fmap] in Hnew. set_solver. }
  { change (ovc c2) with (ovc c1). lia. }
  { unfold room in Hroom2. lia. }
  { change (header_offset c2) with (header_offset c1).
    rewrite (lspan_perm _ _ Hp), lspan_cons in Hfit. simpl in Hfit. lia. }
  assert (Hag3' : agree s2 (cell_slab c3) 0 (a + 36)).
  { eapply agree_sub; [exact Hag3|lia|]. unfold room in Hroom2.
    change (top_of c2) with a in Hroom2. lia. }
  exists c3. rewrite Hadd. split_and!; [done|done| | | | |].
  - eapply keeps_ic_trans; [apply keeps_keeps_ic, Hk1|].
    apply keeps_ic_trans with c2; [done|by apply keeps_keeps_ic].
  - unfold next_of. destruct Hk3 as (_ & _ & -> & _). simpl.
    by destruct Hk1 as (_ & _ & -> & _).
  - by rewrite (keeps_top _ _ Hk3).
  - eapply agree_trans; [eapply agree_sub; [exact Hag1|lia|lia]|].
    apply agree_trans with s2; [eapply modifies_agree; [exact Hm2|lia]|].
    eapply agree_sub; [exact Hag3'|lia..].
  - eapply top_at_agree; [eapply agree_sub; [exact Hag3'|lia..]|].
    eexists. by rewrite He2, He1, He.
Qed.

(** When the entry below the top is not in the directory, the assertion fails. *)
Lemma cell_body_add_dir_entry_absent c lv l e n :
  dcore c lv → room c < 36 →
  be_previous_size (be_at (cell_slab c) (top_of c)) = b_size l →
  0 ≤ top_of c - b_span l →
  be_checksum (be_at (cell_slab c) (top_of c - b_span l)) ∉ lsum <$> lv →
  cell_body_add_dir_entry e n c = (Err AssertFail, c).
Proof.
  intros H Hroom Hprev Ha Hnew. rewrite (cell_body_add_dir_entry_down c lv l) by done.
  destruct (be_free_space _ =? 1); [done|]. rewrite bind_ALWAYS by done.
  pose proof (dc_room _ _ H) as Hdr. pose proof (dcore_count _ _ H) as Hdc.
  pose proof (b_span_pos l) as Hbl.
  by rewrite (bind_err _ _ _ _ _ (cell_header_remove_absent c lv _ H Ha ltac:(lia) Hnew)).
Qed.
End add_dir_entry.

(** * The loop of cell_body_add_offset *)
Section scan.
Implicit Types c : cell.

Definition is_live (b : bentry) : Prop := b_free b = false.

(** Where the loop may stop: not before the room is enough, and as soon as it is. *)
Definition scan_stop (required free : Z) (v : list bentry) : Prop :=
  required ≤ free + span v ∧
  (v = [] ∨ ∃ v' x, v = v' ++ [x] ∧ free + span v' < required).

Lemma live_at_live off b es : is_live b → live_at off (b :: es) = (off, b) :: live_at (off + b_span b) es.
Proof. unfold is_live. simpl. by intros ->. Qed.

Lemma lbytes_pos_ne lv : 0 < lbytes lv → lv ≠ [].
Proof. intros H ->. by unfold lbytes in H. Qed.

(** One more entry: it is removed from the directory. *)
Lemma cell_body_scan_step c lv pre cur x rest others free required fuel :
  layout (cell_slab c) (pre ++ cur :: x :: rest) → top_of c = span (pre ++ cur :: x :: rest) →
  dcore c lv → is_live x → Forall is_live rest →
  let off := span pre + b_span cur in
  lv ≡ₚ live_at off (x :: rest) ++ others →
  0 < lbytes (live_at (off + b_span x) rest ++ others) →
  0 ≤ free < required → required < 65536 →
  ∃ c', cell_body_scan (S fuel) required free (span pre) c =
          cell_body_scan fuel required (free + b_span x) off c'
    ∧ dcore c' (live_at (off + b_span x) rest ++ others) ∧ keeps c c'
    ∧ ovc c' ≤ ovc c ∧ agree (cell_slab c) (cell_slab c') 0 (top_of c + 36).
Proof.
  intros Hlay Htop H Hx Hrest off Hp Hpos Hfree Hreq.
  pose proof (layout_entry _ _ _ _ Hlay) as Hecur.
  assert (Hlay' : layout (cell_slab c) ((pre ++ [cur]) ++ x :: rest)) by (by rewrite <-app_assoc).
  pose proof (layout_entry _ _ _ _ Hlay') as Hex.
  pose proof (layout_is_top _ _ _ Hlay') as Htx.
  rewrite span_app in Htop, Hex, Htx. cbn [span] in Htop, Hex, Htx. rewrite Z.add_0_r in Hex, Htx.
  fold off in Hex, Htx.
  pose proof (span_nonneg pre). pose proof (b_span_pos cur). pose proof (b_span_pos x).
  pose proof (span_nonneg rest). pose proof (dc_room _ _ H). pose proof (dcore_count _ _ H).
  pose proof (dc_lim _ _ H). pose proof (header_offset_bound _ _ H).
  rewrite (live_at_live _ _ _ Hx) in Hp. cbn [app] in Hp.
  destruct (cell_header_remove_spec c lv off x _ H Hp (lbytes_pos_ne _ Hpos) Hpos)
    as (c' & Hrm & H' & Hk & Hov & Hag);
    [lia|lia|by destruct Hex as [-> _]|by destruct Hex as [-> _]|].
  exists c'. split_and!; [|done|done|lia|eapply agree_sub; [exact Hag|lia..]].
  cbn [cell_body_scan]. replace (required <=? free) with false by lia.
  mrun by (apply on_slab_read, get_size_ok; lia).
  destruct Hecur as [Hecur _]. rewrite Hecur. cbn [be_size]. unfold sizeof_cell_body_entry.
  replace (span pre + (b_size cur + 36)) with off by (unfold off, b_span; lia).
  mrun by (apply on_slab_read, cell_body_entry_top_ok; lia). rewrite Htx. cbn iota.
  mrun by (apply on_slab_read, cell_body_entry_free_ok; lia).
  rewrite (entry_at_free _ _ _ _ Hex), Hx. cbn [negb]. mrun by exact Hrm.
  mrun by (apply on_slab_read, get_size_ok; [lia|]; rewrite (dc_lim _ _ H'), (keeps_offset _ _ Hk); lia).
  erewrite (be_at_agree (cell_slab c)) by (exact Hag || lia).
  pose proof (entry_at_size _ _ _ _ Hex). pose proof (b_size_nonneg x).
  destruct Hex as [Hex _]. rewrite Hex. cbn [be_size]. rewrite u32_id by (unfold b_span in *; lia).
  by replace (free + (b_size x + 36)) with (free + b_span x) by (unfold b_span; lia).
Qed.

(** No entry left: the loop meets the top. *)
Lemma cell_body_scan_top c lv pre cur free required fuel :
  layout (cell_slab c) (pre ++ [cur]) → top_of c = span (pre ++ [cur]) → dcore c lv → free < required →
  cell_body_scan (S fuel) required free (span pre) c = (Ok HitTop, c).
Proof.
  intros Hlay Htop H Hgt. cbn [cell_body_scan]. replace (required <=? free) with false by lia.
  pose proof (layout_entry _ _ _ _ Hlay) as [Hecur _].
  rewrite span_app in Htop. cbn [span] in Htop.
  pose proof (span_nonneg pre). pose proof (b_span_pos cur). pose proof (dc_lim _ _ H).
  pose proof (dc_room _ _ H). pose proof (dcore_count _ _ H).
  mrun by (apply on_slab_read, get_size_ok; lia). rewrite Hecur. cbn [be_size].
  unfold sizeof_cell_body_entry.
  replace (span pre + (b_size cur + 36)) with (span pre + b_span cur) by (unfold b_span; lia).
  mrun by (apply on_slab_read, cell_body_entry_top_ok; lia).
  pose proof (layout_is_top (cell_slab c) (pre ++ [cur]) []) as Ht.
  rewrite span_app, app_nil_r in Ht. cbn [span] in Ht. rewrite Z.add_0_r in Ht. by rewrite Ht.
Qed.

Lemma scan_stop_cons required free x v :
  free < required → scan_stop required (free + b_span x) v → scan_stop required free (x :: v).
Proof.
  intros Hlt [Hs1 Hs2]. split; [simpl; lia|right].
  destruct Hs2 as [->|(v' & y & -> & Hs2)]; [exists [], x; simpl; split; [done|lia]|].
  exists (x :: v'), y. simpl. split; [done|lia].
Qed.

Lemma cell_body_scan_spec rest : ∀ fuel c lv pre cur others free required,
  layout (cell_slab c) (pre ++ cur :: rest) → top_of c = span (pre ++ cur :: rest) →
  dcore c lv → Forall is_live rest → (length rest < fuel)%nat →
  let off := span pre + b_span cur in
  lv ≡ₚ live_at off rest ++ others →
  (∀ v x r, rest = v ++ x :: r → free + span v < required →
     0 < lbytes (live_at (off + span v + b_span x) r ++ others)) →
  0 ≤ free → required < 65536 →
  (∃ c', cell_body_scan fuel required free (span pre) c = (Ok HitTop, c')
     ∧ free + span rest < required
     ∧ dcore c' others ∧ keeps c c' ∧ ovc c' ≤ ovc c
     ∧ agree (cell_slab c) (cell_slab c') 0 (top_of c + 36)) ∨
  (∃ c' v r p0 l,
     cell_body_scan fuel required free (span pre) c = (Ok (Enough (free + span v) (span p0)), c')
     ∧ rest = v ++ r ∧ pre ++ cur :: v = p0 ++ [l] ∧ scan_stop required free v
     ∧ dcore c' (live_at (off + span v) r ++ others) ∧ keeps c c' ∧ ovc c' ≤ ovc c
     ∧ agree (cell_slab c) (cell_slab c') 0 (top_of c + 36)).
Proof.
  induction rest as [|x rest IH]; intros [|fuel] c lv pre cur others free required
    Hlay Htop H Hlive Hfuel off Hp Hrem Hfree Hreq; try (simpl in Hfuel; lia);
    (destruct (decide (required ≤ free)) as [Hle|Hgt];
      [right; exists c, []; eexists; exists pre, cur; cbn [span]; rewrite !Z.add_0_r; split_and!; try done;
        [simpl; by replace (required <=? free) with true by lia|split; [simpl; lia|by left]|by eapply dcore_perm]|]).
  { left. exists c. split_and!; try done; [|simpl; lia|by eapply dcore_perm].
    apply (cell_body_scan_top c lv pre cur); [done..|lia]. }
  apply Forall_cons in Hlive as [Hx Hlive].
  destruct (cell_body_scan_step c lv pre cur x rest others free required fuel)
    as (c1 & Hrun & H1 & Hk1 & Hov1 & Hag1); try done; [|lia|].
  { pose proof (Hrem [] x rest eq_refl ltac:(simpl; lia)) as Hr0. cbn [span] in Hr0. by rewrite Z.add_0_r in Hr0. }
  fold off in Hrun, H1. pose proof (b_span_pos x).
  assert (Hoff : off = span (pre ++ [cur])) by (rewrite span_app; simpl; lia). rewrite Hrun, Hoff.
  destruct (IH fuel c1 (live_at (off + b_span x) rest ++ others) (pre ++ [cur]) x others (free + b_span x) required)
    as [(c' & Hr & Hf & H' & Hk & Hov & Hag)|(c' & v & r & p0 & l & Hr & -> & Hl & Hst & H' & Hk & Hov & Hag)].
  - rewrite <-app_assoc. simpl. eapply layout_agree; [|exact Hlay]. eapply agree_sub; [exact Hag1|lia|]. rewrite Htop. lia.
  - rewrite (keeps_top _ _ Hk1), Htop, <-app_assoc. done.
  - exact H1.
  - done.
  - simpl in Hfuel. lia.
  - by rewrite <-Hoff.
  - intros v y r -> Hlt. rewrite <-Hoff. pose proof (Hrem (x :: v) y r eq_refl ltac:(simpl; lia)) as Hr0.
    cbn [span] in Hr0. by rewrite Z.add_assoc in Hr0.
  - lia.
  - done.
  - left. exists c'. rewrite (keeps_top _ _ Hk1) in Hag.
    split_and!; [done|simpl; lia|done|by eapply keeps_trans|lia|by eapply agree_trans].
  - right. exists c', (x :: v), r, p0, l. rewrite (keeps_top _ _ Hk1) in Hag. cbn [span]. rewrite !Z.add_assoc.
    split_and!; [done|done|by rewrite <-Hl, <-app_assoc|apply scan_stop_cons; [lia|done]|done|
      by eapply keeps_trans|lia|by eapply agree_trans].
Qed.
End scan.
