(* ===== verification/CellRing.v ===== *)
(** The ring of cell_body.c: an abstract specification of where a new chunk goes and
    which chunks it evicts, the invariant of the body, and the proof that
    [cell_body_add] implements the specification. *)

From S2P Require Import Prelude Monad Slab Checksum CellIc CellDirEntry CellDirBlock CellDirOverflow.
From S2P Require Import CellDir CellBodyEntry CellHeader CellState CellBody CellLayout.
From S2P Require Import CellBodySpec.

(** * The specification *)

(** The body seen from [next_entry_offset]: the entries in front of it and those from it
    to the top.  [overwrite b pre suf pre' suf'] puts [b] at the first place of [suf]. *)
Inductive overwrite (b : bentry) : list bentry → list bentry → list bentry → list bentry → Prop :=
  | ow_fit pre cur rest :
      b_size cur = b_size b → overwrite b pre (cur :: rest) (pre ++ [b]) rest
  | ow_fit_trim pre cur rest l :
      b_size cur = b_size b → overwrite b pre (cur :: rest ++ [l]) (pre ++ [b]) rest
  | ow_split pre cur v r h :
      b_size cur ≠ b_size b → scan_stop (b_size b + 36) (b_size cur) v → r ≠ [] →
      b_free h = true → b_span h + b_span b = b_span cur + span v →
      overwrite b pre (cur :: v ++ r) (pre ++ [b]) (h :: r)
  | ow_split_trim pre cur v r l h :
      b_size cur ≠ b_size b → scan_stop (b_size b + 36) (b_size cur) v →
      b_free h = true → b_span h + b_span b = b_span cur + span v →
      overwrite b pre (cur :: v ++ r ++ [l]) (pre ++ [b]) (h :: r)
  | ow_top pre cur v :
      b_size cur ≠ b_size b →
      (∀ v' x r, v = v' ++ x :: r → b_size cur + span v' < b_size b + 36) →
      overwrite b pre (cur :: v) (pre ++ [b]) []
  | ow_drop pre cur v :
      b_size cur ≠ b_size b →
      (∀ v' x r, v = v' ++ x :: r → b_size cur + span v' < b_size b + 36) →
      overwrite b pre (cur :: v) pre [].

(** The whole of [cell_body_add]: at the top, over old chunks, or back to the start. *)
Inductive ring_step (b : bentry) : list bentry → list bentry → list bentry → list bentry → Prop :=
  | rs_top pre : ring_step b pre [] (pre ++ [b]) []
  | rs_over pre suf pre' suf' : overwrite b pre suf pre' suf' → ring_step b pre suf pre' suf'
  | rs_wrap pre pre' suf' : overwrite b [] pre pre' suf' → ring_step b pre [] pre' suf'.

(** The contract: the sizes of the chunks a cell of [lim] bytes is used with. *)
Record contract (smin smax lim : Z) : Prop := {
  ct_min : 1 ≤ smin;
  ct_max : smin ≤ smax ≤ 32732;
  ct_room : 8 * smax + 432 ≤ lim;
  ct_count : lim - 36 < 4095 * (36 + smin);
}.

Definition entry_fine (smin smax : Z) (b : bentry) : Prop :=
  if b_free b then b_size b ≤ smax + 35 else smin ≤ b_size b ≤ smax.

(** Only the first entry of [suf] may be free, and once the body has wrapped it is so
    full that replacing one chunk never empties the directory. *)
Record ring_wf (smin smax : Z) (pre suf : list bentry) : Prop := {
  rw_pre : Forall is_live pre;
  rw_suf : Forall is_live (tail suf);
  rw_fine : Forall (entry_fine smin smax) (pre ++ suf);
  rw_full : suf ≠ [] → 3 * smax + 144 ≤ span (pre ++ suf);
}.

Record body_inv (smin smax : Z) (c : cell) (pre suf : list bentry) : Prop := {
  bi_contract : contract smin smax (header_offset c);
  bi_ring : ring c pre suf (live_at 0 (pre ++ suf));
  bi_wf : ring_wf smin smax pre suf;
}.

(** * Pieces of a layout *)

(** While a chunk replaces others the body is in two pieces: [pre] from the start and
    [r] from [off] to the top, with dead bytes between them. *)
Record gap (c : cell) (pre : list bentry) (off prev : Z) (r : list bentry) : Prop := {
  gp_pre : seg (cell_slab c) 0 0 pre;
  gp_off : span pre ≤ off;
  gp_seg : seg (cell_slab c) off prev r;
  gp_top_at : top_at (cell_slab c) (off + span r) (last_size prev r);
  gp_top : top_of c = off + span r;
}.

Section gap.
Implicit Types c : cell.

Lemma ring_gap c pre cur r lv :
  ring c pre (cur :: r) lv → gap c pre (span pre + b_span cur) (b_size cur) r.
Proof.
  intros [_ [Hs Ht] Htop _]. apply seg_app in Hs as [Hp Hs]. simpl in Hs.
  rewrite last_size_app, span_app in Ht. rewrite span_app in Htop. simpl in *.
  pose proof (b_span_pos cur). split; rewrite <-?Z.add_assoc; try done; try lia.
  by destruct Hs.
Qed.

(** Dropping the entries in front of [r]. *)
Lemma gap_drop c pre off prev v r :
  gap c pre off prev (v ++ r) → gap c pre (off + span v) (last_size prev v) r.
Proof.
  intros [? ? Hs Ht Htop]. apply seg_app in Hs as [_ Hs]. rewrite last_size_app, span_app in Ht.
  rewrite span_app in Htop. pose proof (span_nonneg v).
  split; rewrite <-?Z.add_assoc; try done; lia.
Qed.

Lemma gap_agree c c' pre off prev r :
  gap c pre off prev r → agree (cell_slab c) (cell_slab c') 0 (span pre) →
  agree (cell_slab c) (cell_slab c') off (off + span r + 36) → top_of c' = top_of c →
  gap c' pre off prev r.
Proof.
  intros [Hp ? Hs Ht Htop] Ha1 Ha2 Htc. pose proof (span_nonneg r).
  split; try done; [| | |congruence].
  - by eapply seg_agree.
  - eapply seg_agree; [|done]. eapply agree_sub; [done|lia..].
  - eapply top_at_agree; [|done]. eapply agree_sub; [done|lia..].
Qed.

(** The new chunk closes the gap when it fills it. *)
Lemma gap_closed c pre b r :
  gap c (pre ++ [b]) (span (pre ++ [b])) (b_size b) r →
  layout (cell_slab c) ((pre ++ [b]) ++ r) ∧ top_of c = span ((pre ++ [b]) ++ r).
Proof.
  intros [Hp _ Hs Ht Htop]. unfold layout. rewrite seg_app, !last_size_app. simpl.
  rewrite (span_app (pre ++ [b]) r). done.
Qed.

(** Writing the chunk at the end of [pre]. *)
Lemma gap_write c lv pre off prev r b buffer :
  dcore c lv → gap c pre off prev r → span pre + b_span b ≤ off → chunk_ok b buffer →
  be_top_entry (be_at (cell_slab c) (span pre)) = 0 →
  be_previous_size (be_at (cell_slab c) (span pre)) = last_size 0 pre →
  ∃ c', on_slab (cell_body_write_chunk (span pre) (b_sum b) buffer (b_size b)) c = (Ok tt, c')
    ∧ dcore c' lv ∧ gap c' (pre ++ [b]) off prev r ∧ keeps c c' ∧ room c' = room c
    ∧ ovc c' = ovc c.
Proof.
  intros H Hg Hfit [] Htop Hprev. pose proof (span_nonneg pre). pose proof (span_nonneg r).
  pose proof (dc_room _ _ H). pose proof (dcore_count _ _ H). pose proof (dc_lim _ _ H).
  pose proof (gp_top _ _ _ _ _ Hg).
  destruct (cell_body_write_chunk_spec (span pre) b buffer (cell_slab c)) as (s' & Hw & Hm & He);
    [lia..|done|done|done|done|done|].
  exists (put_slab s' c). split_and!; [by apply on_slab_ok| | |done..].
  { eapply dcore_put_slab; [done|exact Hm|lia]. }
  assert (Hg' : gap (put_slab s' c) pre off prev r).
  { eapply gap_agree; [exact Hg| | |done]; (eapply modifies_agree; [exact Hm|lia]). }
  destruct Hg'. split; try done; [|rewrite span_app; simpl; lia].
  apply seg_app. split; [done|]. split; [|done]. by rewrite <-Hprev.
Qed.
End gap.

(** * The directory entry of the new chunk, and the free entry behind it *)
Section fill.
Implicit Types c : cell.

Lemma live_at_snoc off r l :
  is_live l → live_at off (r ++ [l]) = live_at off r ++ [(off + span r, l)].
Proof. intros Hl. rewrite live_at_app. simpl. by rewrite Hl. Qed.

Lemma gap_previous c lv pre off prev r l :
  dcore c lv → gap c pre off prev (r ++ [l]) →
  be_previous_size (be_at (cell_slab c) (top_of c)) = b_size l ∧
  top_of c - b_span l = off + span r ∧
  entry_at (cell_slab c) (off + span r) (last_size prev r) l.
Proof.
  intros H [_ _ Hs [sum Ht] Htop]. rewrite last_size_app in Ht. rewrite <-Htop in Ht.
  rewrite span_app in Htop. cbn [span last_size] in *. rewrite Ht.
  split; [done|]. split; [lia|]. by apply seg_app in Hs as [_ [? _]].
Qed.

(** [cell_body_add_dir_entry] with chunks left behind the gap: all of them stay, or,
    if the directory has no room, the last of them goes. *)
Lemma cell_body_add_dir_entry_gap c b pre off prev r others :
  let o := off - b_span b in
  dcore c (live_at off r ++ others) → gap c (pre ++ [b]) off prev r →
  Forall is_live r → r ≠ [] ∨ 36 ≤ room c → Forall is_live pre →
  checksum_wf (b_sum b) → b_sum b ∉ lsum <$> live_at off r ++ others →
  others ≡ₚ live_at 0 pre → ovc c < 4095 →
  (∀ r' l, r = r' ++ [l] → 0 < lbytes (live_at off r' ++ others)) →
  ∃ c' r', cell_body_add_dir_entry (dir_entry_of (span pre) b) (b_size b) c = (Ok tt, c')
    ∧ (36 ≤ room c ∧ r' = r ∨ room c < 36 ∧ ∃ l, r = r' ++ [l])
    ∧ dcore c' ((span pre, b) :: live_at off r' ++ others)
    ∧ gap c' (pre ++ [b]) off prev r' ∧ keeps_ic c c' ∧ next_of c' = next_of c
    ∧ s_lim (cell_slab c') = s_lim (cell_slab c).
Proof.
  intros o H Hg Hr Hne Hpre Hsum Hnew Ho Hov Hpos.
  pose proof (span_nonneg pre). pose proof (header_offset_bound _ _ H) as Hho.
  pose proof (dc_room _ _ H). pose proof (dcore_count _ _ H). pose proof (span_nonneg r).
  pose proof (gp_off _ _ _ _ _ Hg) as Hoff. rewrite span_app in Hoff. simpl in Hoff.
  pose proof (b_span_pos b). pose proof (gp_top _ _ _ _ _ Hg) as Htop.
  assert (Hfit : lspan (live_at off r ++ others) + b_span b ≤ header_offset c).
  { unfold lspan. rewrite fmap_app, span_app.
    pose proof (lspan_live_at off r) as Hl1. unfold lspan in Hl1.
    pose proof (lspan_perm _ _ Ho). pose proof (lspan_live_at 0 pre). unfold lspan in *. lia. }
  destruct (decide (36 ≤ room c)) as [Hroom|Hroom].
  - destruct (cell_body_add_dir_entry_room c (live_at off r ++ others) (span pre) b)
      as (c' & Hrun & H' & Hk & Hag); [done..|lia|done|done|done|done|done|].
    exists c', r. split_and!; [done|by left|done| |by apply keeps_keeps_ic| |].
    + eapply gap_agree; [exact Hg| | |by apply keeps_top].
      * rewrite span_app. simpl. eapply agree_sub; [exact Hag|lia|lia].
      * eapply agree_sub; [exact Hag|lia|lia].
    + unfold next_of. by destruct Hk as (_ & _ & -> & _).
    + by rewrite (agree_lim _ _ _ _ Hag).
  - destruct Hne as [Hne|]; [|done]. destruct (exists_last Hne) as (r' & l & ->).
    apply Forall_app in Hr as [Hr' Hl]. apply Forall_cons in Hl as [Hl _].
    destruct (gap_previous _ _ _ _ _ _ _ H Hg) as (Hprev & Ha & He).
    rewrite span_app in *. simpl in Htop. pose proof (span_nonneg r'). pose proof (b_span_pos l).
    specialize (Hpos r' l eq_refl).
    destruct (cell_body_add_dir_entry_trim c (live_at off (r' ++ [l]) ++ others) (live_at off r' ++ others)
      (span pre) b l (last_size prev r')) as (c' & Hrun & H' & Hk & Hn & Ht & Hag & Htat);
      rewrite ?Ha; try done; try lia.
    + rewrite live_at_snoc by done. rewrite <-app_assoc. simpl.
      by rewrite <-Permutation_middle.
    + by apply lbytes_pos_ne.
    + rewrite Ha in *. exists c', r'. split_and!; [done|right; split; [lia|by exists l]|done| |done..|].
      * destruct Hg as [Hp ? Hs _ _]. apply seg_app in Hs as [Hs _]. split; try done.
        -- eapply seg_agree; [|done]. eapply agree_sub; [exact Hag|lia|]. rewrite span_app in *. simpl in *. lia.
        -- eapply seg_agree; [|done]. eapply agree_sub; [exact Hag|lia|lia].
      * by rewrite (agree_lim _ _ _ _ Hag).
Qed.

(** The bytes of a hole, whatever they are, as an entry. *)
Definition hole (s : slab) (off n : Z) : bentry :=
  BEntry checksum_init true (rd s (off + 36) (Z.to_nat n)).

Lemma hole_size s off n : 0 ≤ n → b_size (hole s off n) = n.
Proof. intros. unfold b_size, hole; cbn [b_data]. rewrite length_rd. lia. Qed.

Lemma gap_hole c lv pre prev r n p :
  dcore c lv → gap c pre (span pre + 36 + n) prev r → 0 ≤ n < 32768 → 0 ≤ p < 32768 →
  p = last_size 0 pre →
  ∃ c' h, on_slab (write_hole (span pre) p n) c = (Ok tt, c')
    ∧ dcore c' lv ∧ layout (cell_slab c') (pre ++ h :: r) ∧ top_of c' = span (pre ++ h :: r)
    ∧ b_free h = true ∧ b_size h = n ∧ keeps c c' ∧ next_of c' = next_of c.
Proof.
  intros H Hg Hn Hp ->. pose proof (span_nonneg pre). pose proof (span_nonneg r).
  pose proof (dc_room _ _ H). pose proof (dcore_count _ _ H). pose proof (dc_lim _ _ H).
  pose proof (gp_top _ _ _ _ _ Hg) as Htop.
  destruct (write_hole_spec (span pre) (last_size 0 pre) n (cell_slab c))
    as (s' & Hw & Hlim & Hout & Hrd & Hh & Hnx); [lia..|].  cbv zeta in Hnx.
  assert (Hm : modifies (cell_slab c) s' (span pre) (span pre + n + 72)).
  { split; [done|]. intros i Hi. apply Hout. lia. }
  exists (put_slab s' c), (hole s' (span pre) n).
  assert (Hspan : b_span (hole s' (span pre) n) = 36 + n) by (unfold b_span; rewrite hole_size; lia).
  split_and!; try done; [by apply on_slab_ok| | | |apply hole_size; lia].
  - eapply dcore_put_slab; [done|exact Hm|lia].
  - destruct Hg as [Hgp _ Hgs [sum Hgt] _]. change (cell_slab (put_slab s' c)) with s'.
    split.
    + apply seg_app. split; [eapply seg_agree; [eapply modifies_agree; [exact Hm|lia]|done]|].
      split.
      * split; [rewrite hole_size by lia; exact Hh|].
        unfold hole; cbn [b_data]. by rewrite length_rd.
      * rewrite Hspan, hole_size by lia. rewrite Z.add_0_l, Z.add_assoc. cbn [seg].
        destruct r as [|x r]; [done|]. destruct Hgs as [[Hx Hxd] Hgs]. cbn [seg span last_size] in *.
        pose proof (b_span_pos x). pose proof (b_size_nonneg x). unfold b_span in *.
        split; [split|].
        -- rewrite Hnx, Hx. done.
        -- rewrite <-Hxd at 2. eapply agree_rd with (lo := span pre + 36 + n + 36) (hi := span pre + 36 + n + 36 + b_size x).
           { split; [done|]. intros i Hi. apply Hout. lia. }
           { lia. } { unfold b_size. lia. }
        -- eapply seg_agree; [|done]. eapply modifies_agree; [exact Hm|lia].
    + rewrite span_app, last_size_app. cbn [span last_size]. rewrite Hspan, hole_size by lia.
      destruct r as [|x r]; cbn [span last_size] in *.
      * exists sum. rewrite Z.add_0_r in Hgt. rewrite Z.add_0_r, Z.add_assoc, Hnx, Hgt. done.
      * exists sum. pose proof (b_span_pos x). pose proof (span_nonneg r).
        rewrite !Z.add_assoc in *. rewrite <-Hgt.
        set (t := span pre + 36 + n + b_span x + span r).
        eapply be_at_agree; [eapply (modifies_agree _ _ _ _ t (t + 36)); [exact Hm|lia]|lia..].
  - change (top_of (put_slab s' c)) with (top_of c). rewrite Htop, span_app. simpl. lia.
Qed.
End fill.

(** * Arithmetic of the ring *)
Section arith.
Context (smin smax : Z).
Implicit Types c : cell.

Lemma span_snoc es b : span (es ++ [b]) = span es + b_span b.
Proof. rewrite span_app. simpl. lia. Qed.

Lemma lbytes_app l1 l2 : lbytes (l1 ++ l2) = lbytes l1 + lbytes l2.
Proof. unfold lbytes. rewrite fmap_app, span_app, length_app. lia. Qed.

Lemma lbytes_live_pos off es :
  1 ≤ smin → Forall is_live es → Forall (entry_fine smin smax) es → 0 < span es →
  0 < lbytes (live_at off es).
Proof.
  intros Hmin Hl Hf Hs. destruct es as [|b es]; [done|].
  apply Forall_cons in Hl as [Hb _]. apply Forall_cons in Hf as [Hf _].
  rewrite live_at_live, lbytes_cons by done. unfold entry_fine in Hf. rewrite Hb in Hf.
  pose proof (lbytes_bound (live_at (off + b_span b) es)). simpl. lia.
Qed.

Lemma lbytes_pos off es off' es' :
  1 ≤ smin → Forall is_live (es ++ es') → Forall (entry_fine smin smax) (es ++ es') →
  0 < span es + span es' → 0 < lbytes (live_at off es ++ live_at off' es').
Proof.
  intros Hmin [Hl Hl']%Forall_app [Hf Hf']%Forall_app Hs. rewrite lbytes_app.
  pose proof (span_nonneg es). pose proof (span_nonneg es').
  destruct (decide (0 < span es)).
  - pose proof (lbytes_live_pos off es Hmin Hl Hf). pose proof (lbytes_bound (live_at off' es')). lia.
  - pose proof (lbytes_live_pos off' es' Hmin Hl' Hf'). pose proof (lbytes_bound (live_at off es)). lia.
Qed.

Lemma entry_fine_span b : smin ≤ smax → entry_fine smin smax b → b_span b ≤ smax + 71.
Proof. unfold entry_fine, b_span. destruct (b_free b); lia. Qed.

Lemma entry_fine_live_span b : is_live b → entry_fine smin smax b → b_span b ≤ smax + 36.
Proof. unfold entry_fine, b_span, is_live. intros ->. lia. Qed.

(** A body that leaves less than [k] bytes fills almost half the cell: the directory
    takes no more than the entries. *)
Lemma room_full c lv k :
  dcore c lv → lspan lv ≤ top_of c → room c < k → header_offset c - 36 - k < 2 * top_of c.
Proof.
  intros H Hl Hr. pose proof (dcore_count _ _ H). pose proof (lspan_length lv).
  unfold room in Hr. lia.
Qed.

(** The directory never needs more overflow slots than its counters hold. *)
Lemma ovc_bound c lv :
  contract smin smax (header_offset c) → dcore c lv → lspan lv ≤ top_of c →
  Forall (λ x, entry_fine smin smax x.2 ∧ is_live x.2) lv → ovc c < 4095.
Proof.
  intros [Hmin _ _ Hct] H Hl Hf. pose proof (dcore_count _ _ H). pose proof (dc_room _ _ H).
  assert (Hlen : (36 + smin) * Z.of_nat (length lv) ≤ lspan lv).
  { clear -Hf. induction Hf as [|[o b] lv [Hb Hv] _ IH]; [unfold lspan; simpl; lia|].
    rewrite lspan_cons. simpl length. unfold entry_fine in Hb. rewrite Hv in Hb.
    unfold b_span. simpl in *. lia. }
  assert (Hlt : Z.of_nat (length lv) < 4095); [|lia].
  apply (Z.mul_lt_mono_pos_l (36 + smin)); lia.
Qed.

Lemma fine_live off es :
  Forall (entry_fine smin smax) es →
  Forall (λ x, entry_fine smin smax x.2 ∧ is_live x.2) (live_at off es).
Proof.
  intros Hf. apply Forall_forall. intros [o b] (l1 & l2 & -> & _ & Hl)%elem_of_live_at.
  split; [|exact Hl]. apply Forall_app in Hf as [_ [Hf _]%Forall_cons]. exact Hf.
Qed.
End arith.

(** * Taking over the first entry *)
Section enter.
Context (smin smax : Z).
Implicit Types c : cell.

(** The start of [cell_body_add_offset], up to its first decision. *)
Definition open_entry {A} (k : Z → Z → M cell A) : M cell A :=
  entry ← get_next_offset;
  free ← on_slab (cell_body_entry_free entry);
  (if negb free then cell_header_remove entry else mret tt);;
  on_slab (set_free_space entry 0);;
  size ← on_slab (get_size entry);
  k entry size.

Definition taken (b : bentry) : bentry := BEntry (b_sum b) false (b_data b).

Lemma taken_size b : b_size (taken b) = b_size b.
Proof. done. Qed.
Lemma taken_span b : b_span (taken b) = b_span b.
Proof. done. Qed.

(** Clearing [free_space] of the entry at [pre]. *)
Lemma layout_taken s pre cur rest :
  layout s (pre ++ cur :: rest) →
  layout (put_field 0 1 (span pre) 0 s) (pre ++ taken cur :: rest).
Proof.
  intros [Hs Ht]. apply seg_app in Hs as [Hp [He Hr]]. set (s' := put_field _ _ _ _ _).
  pose proof (span_nonneg rest). pose proof (b_span_pos cur). pose proof (b_size_nonneg cur).
  assert (Hm : modifies s s' (span pre) (span pre + 36)) by (apply modifies_put_field; lia).
  unfold layout. rewrite span_app, last_size_app in *. cbn [span last_size] in *.
  rewrite taken_span, taken_size. rewrite !Z.add_0_l in *. split.
  - apply seg_app. split; [eapply seg_agree; [eapply modifies_agree; [exact Hm|lia]|done]|].
    cbn [seg]. rewrite Z.add_0_l, taken_span. split.
    + destruct He as [He Hd]. split.
      * unfold s'. rewrite be_at_put_free_space, He. reflexivity.
      * rewrite <-Hd at 2. eapply agree_rd with (lo := span pre + 36) (hi := span pre + b_span cur).
        -- eapply modifies_agree; [exact Hm|lia].
        -- lia.
        -- unfold b_span, b_size, taken. cbn [b_data]. lia.
    + eapply seg_agree; [eapply modifies_agree; [exact Hm|lia]|done].
  - eapply top_at_agree; [|done]. eapply modifies_agree; [exact Hm|lia].
Qed.

Lemma live_rest_perm pre cur rest :
  is_live cur → live_at 0 (pre ++ cur :: rest) ≡ₚ
  (span pre, cur) :: live_at (span pre + b_span cur) rest ++ live_at 0 pre.
Proof.
  intros Hc. rewrite live_at_app, live_at_live by done. rewrite Z.add_0_l.
  rewrite (Permutation_app_comm (live_at 0 pre)). done.
Qed.

(** The entry that is overwritten is taken out of the directory. *)
Lemma enter_removed c pre cur rest pl :
  let lv' := live_at (span pre + b_span cur) rest ++ live_at 0 pre in
  dcore c (live_at 0 (pre ++ cur :: rest)) → span pre + b_span cur ≤ top_of c →
  entry_at (cell_slab c) (span pre) pl cur → 0 ≤ ovc c → 0 < lbytes lv' →
  ∃ c0, (if negb (b_free cur) then cell_header_remove (span pre) else mret tt) c = (Ok tt, c0)
    ∧ dcore c0 lv' ∧ keeps c c0 ∧ agree (cell_slab c) (cell_slab c0) 0 (top_of c + 36) ∧ ovc c0 ≤ ovc c.
Proof.
  intros lv' H Htop He Hov Hpos. pose proof (span_nonneg pre). pose proof (b_span_pos cur).
  pose proof (dc_room _ _ H). pose proof (dcore_count _ _ H).
  destruct (b_free cur) eqn:Hfree; simpl.
  - exists c. split_and!; try done. eapply dcore_perm; [exact H|].
    rewrite live_at_app. simpl. rewrite Hfree, Permutation_app_comm. done.
  - destruct (cell_header_remove_spec c _ (span pre) cur lv' H) as (c0 & Hr & Hc0 & Hk & Ho & Hag);
      [by apply live_rest_perm|by apply lbytes_pos_ne|done|lia|lia|by destruct He as [-> _]..|].
    exists c0. split_and!; try done; [|lia]. eapply agree_sub; [exact Hag|lia..].
Qed.

Lemma open_entry_spec c pre cur rest :
  body_inv smin smax c pre (cur :: rest) →
  ∃ c1, (∀ A (k : Z → Z → M cell A), open_entry k c = k (span pre) (b_size cur) c1)
    ∧ ring c1 pre (taken cur :: rest) (live_at (span pre + b_span cur) rest ++ live_at 0 pre)
    ∧ keeps c c1 ∧ room c ≤ room c1.
Proof.
  intros [Hct [H Hlay Htop Hnext] [Hpre Hsuf Hfine Hfull]].
  specialize (Hfull ltac:(done)). simpl in Hsuf.
  pose proof (layout_entry _ _ _ _ Hlay) as He.
  rewrite span_app in Hfull, Htop. cbn [span] in Hfull, Htop.
  pose proof (span_nonneg pre). pose proof (span_nonneg rest). pose proof (b_span_pos cur).
  pose proof (dc_room _ _ H). pose proof (dcore_count _ _ H). pose proof (dc_lim _ _ H).
  pose proof Hfine as Hfine'. apply Forall_app in Hfine as [Hfp [Hfc Hfr]%Forall_cons].
  assert (Hpos : 0 < lbytes (live_at (span pre + b_span cur) rest ++ live_at 0 pre)).
  { pose proof (entry_fine_span smin smax _ ltac:(apply Hct) Hfc). pose proof (ct_max _ _ _ Hct).
    apply (lbytes_pos smin smax); [apply Hct|by apply Forall_app..|]. lia. }
  set (lv' := live_at (span pre + b_span cur) rest ++ live_at 0 pre) in *.
  destruct (enter_removed c pre cur rest (last_size 0 pre)) as (c0 & Hr & Hc0 & Hk & Hag & Hov); [done|lia|exact He|lia|done|].
  fold lv' in Hc0.
  pose proof (keeps_offset _ _ Hk) as Hho. pose proof (keeps_top _ _ Hk) as Htop0.
  assert (Hlay0 : layout (cell_slab c0) (pre ++ cur :: rest)).
  { eapply layout_agree; [|exact Hlay]. rewrite span_app. cbn [span].
    eapply agree_sub; [exact Hag|lia..]. }
  exists (put_slab (put_field 0 1 (span pre) 0 (cell_slab c0)) c0). split_and!; [| |done|].
  3: { unfold room. change (header_offset (put_slab _ c0)) with (header_offset c0).
       change (top_of (put_slab _ c0)) with (top_of c0).
       change (ovc (put_slab _ c0)) with (ovc c0). lia. }
  - intros A k. unfold open_entry, get_next_offset. mnorm.
    change (next_entry_offset (hdr_body (cell_hdr c))) with (next_of c). rewrite Hnext.
    mrun by (apply on_slab_read, cell_body_entry_free_ok; lia).
    rewrite (entry_at_free _ _ _ _ He). rewrite (bind_ok _ _ _ _ _ Hr).
    pose proof (dc_lim _ _ Hc0).
    mrun by (apply on_slab_ok, set_field_ok; lia).
    mrun by (apply on_slab_read, get_size_ok; change (cell_slab (put_slab ?s _)) with s; rewrite ?lim_put_field; lia).
    change (cell_slab (put_slab ?s _)) with s. rewrite be_at_put_free_space.
    destruct (layout_entry _ _ _ _ Hlay0) as [-> _]. done.
  - split.
    + eapply dcore_put_slab; [done|by apply (modifies_put_field _ _ _ _ _ (span pre + 32) (span pre + 36)); lia|]. lia.
    + by apply layout_taken.
    + rewrite span_app. cbn [span]. rewrite taken_span.
      change (top_of (put_slab _ c0)) with (top_of c0). lia.
    + unfold next_of in *. simpl. by destruct Hk as (_ & _ & -> & _).
Qed.
End enter.

(** * A chunk of the same size as the entry it replaces *)
Section fit.
Context (smin smax : Z).
Implicit Types c : cell.

Lemma live_done_perm pre b suf :
  is_live b → live_at 0 ((pre ++ [b]) ++ suf) ≡ₚ
  (span pre, b) :: live_at (span (pre ++ [b])) suf ++ live_at 0 pre.
Proof.
  intros Hb. rewrite !live_at_app. simpl. rewrite Hb, !Z.add_0_l.
  generalize (live_at 0 pre) (live_at (span (pre ++ [b])) suf). intros A B.
  rewrite <-app_assoc. simpl. by rewrite <-Permutation_middle, (Permutation_app_comm A).
Qed.

Lemma put_next_core c lv v :
  dcore c lv → dcore (put_body (CellBody (top_of c) v) c) lv.
Proof. intros H. apply dcore_put_body; [done|apply H..]. Qed.

Lemma get_next_ok c : get_next_offset c = (Ok (next_of c), c).
Proof. done. Qed.
Lemma keeps_next c c' : keeps c c' → next_of c' = next_of c.
Proof. intros (_ & _ & H & _). unfold next_of. by rewrite H. Qed.
Lemma set_next_ok c v :
  set_next_offset v c = (Ok tt, put_body (CellBody (top_of c) v) c).
Proof. done. Qed.

Lemma fits_in c lv es :
  dcore c lv → top_of c = span es → span es < 2147483648 - 28704.
Proof. intros H <-. pose proof (dc_room _ _ H). pose proof (dcore_count _ _ H).
  pose proof (header_offset_bound _ _ H). lia. Qed.

Lemma lspan_rest pre off rest : lspan (live_at off rest ++ live_at 0 pre) ≤ span pre + span rest.
Proof.
  unfold lspan. rewrite fmap_app, span_app.
  pose proof (lspan_live_at off rest). pose proof (lspan_live_at 0 pre). unfold lspan in *. lia.
Qed.

Definition fit_program (entry : Z) (b : bentry) (buffer : list byte) (e : cell_dir_entry) :
    M cell cell_dir_entry :=
  on_slab (cell_body_write_chunk entry (b_sum b) buffer (b_size b));;
  next ← get_next_offset;
  let e := cell_dir_entry_set e (b_sum b) next in
  cell_body_add_dir_entry e (b_size b);;
  next ← get_next_offset;
  set_next_offset (u32 (next + (sizeof_cell_body_entry + b_size b)));;
  mret e.

(** The precondition the cases share: the first entry is taken. *)
Record opened (c : cell) (pre : list bentry) (cur : bentry) (rest : list bentry)
    (b : bentry) (buffer : list byte) : Prop := {
  op_contract : contract smin smax (header_offset c);
  op_ring : ring c pre (cur :: rest) (live_at (span pre + b_span cur) rest ++ live_at 0 pre);
  op_pre : Forall is_live pre;
  op_rest : Forall is_live rest;
  op_fine : Forall (entry_fine smin smax) (pre ++ rest);
  op_cur : b_size cur ≤ smax + 35;
  op_full : 3 * smax + 144 ≤ span pre + b_span cur + span rest;
  op_chunk : chunk_ok b buffer;
  op_size : smin ≤ b_size b ≤ smax;
  op_new : b_sum b ∉ lsum <$> live_at (span pre + b_span cur) rest ++ live_at 0 pre;
}.

(** Without its last chunk the body is still full, when the directory has no room. *)
Lemma trim_full c lv l :
  contract smin smax (header_offset c) → dcore c lv → lspan lv ≤ top_of c → room c < 36 →
  is_live l → entry_fine smin smax l → 3 * smax + 144 ≤ top_of c - b_span l.
Proof.
  intros Hct H Hl Hr Hll Hf. pose proof (room_full _ _ _ H Hl Hr).
  pose proof (entry_fine_live_span _ _ _ Hll Hf). pose proof (ct_room _ _ _ Hct). lia.
Qed.

Lemma ring_wf_after pre b buffer suf :
  Forall is_live pre → Forall is_live (tail suf) → Forall (entry_fine smin smax) pre →
  Forall (entry_fine smin smax) suf → chunk_ok b buffer → smin ≤ b_size b ≤ smax →
  (suf ≠ [] → 3 * smax + 144 ≤ span (pre ++ [b]) + span suf) →
  ring_wf smin smax (pre ++ [b]) suf.
Proof.
  intros Hp Hs Hfp Hfs Hck Hbs Hfull. assert (Hb : is_live b) by apply Hck.
  split; [|done| |].
  - apply Forall_app. by split; [|apply Forall_singleton].
  - rewrite !Forall_app. split_and!; [done| |done]. apply Forall_singleton.
    unfold entry_fine. by rewrite Hb.
  - intros. rewrite span_app. by apply Hfull.
Qed.

Lemma opened_ovc c pre cur rest b buffer c' lv :
  opened c pre cur rest b buffer → dcore c' lv → header_offset c' = header_offset c →
  top_of c' = top_of c →
  lv ⊆+ live_at (span pre + b_span cur) rest ++ live_at 0 pre → ovc c' < 4095.
Proof.
  intros [Hct [H _ Htop _] ? ? Hf _ _ _ _ _] H' Hho Ht Hsub.
  apply submseteq_Permutation in Hsub as [k Hk].
  apply (ovc_bound smin smax c' lv); [by rewrite Hho|done|..].
  - pose proof (lspan_perm _ _ Hk) as Hl.
    unfold lspan in Hl at 2. rewrite fmap_app, span_app in Hl. fold (lspan lv) in Hl.
    pose proof (span_nonneg (snd <$> k)). rewrite Ht, Htop, span_app. cbn [span].
    pose proof (lspan_rest pre (span pre + b_span cur) rest). pose proof (b_span_pos cur). lia.
  - apply Forall_app in Hf as [Hfp Hfr].
    assert (Hall : Forall (λ x, entry_fine smin smax x.2 ∧ is_live x.2) (lv ++ k)).
    { rewrite <-Hk. apply Forall_app; split; by apply fine_live. }
    by apply Forall_app in Hall as [? _].
Qed.

(** What is left of [r] when the directory may take the last entry of it. *)
Definition trimmed (c : cell) (r r' : list bentry) : Prop :=
  r' = r ∨ room c < 36 ∧ ∃ l, r = r' ++ [l].

Lemma trimmed_pos lim off pre b r r' l :
  contract smin smax lim → Forall is_live pre → Forall is_live r →
  Forall (entry_fine smin smax) pre → Forall (entry_fine smin smax) r → b ≤ 2 * smax + 107 →
  3 * smax + 144 ≤ span pre + b + span r → r = r' ++ [l] →
  0 < lbytes (live_at off r' ++ live_at 0 pre).
Proof.
  intros Hct Hpre Hr Hfp Hfr Hb Hfull ->.
  apply Forall_app in Hr as [? [Hl _]%Forall_cons]. apply Forall_app in Hfr as [? [Hfl _]%Forall_cons].
  pose proof (entry_fine_live_span _ _ _ Hl Hfl). rewrite span_snoc in Hfull.
  pose proof (ct_min _ _ _ Hct). pose proof (ct_max _ _ _ Hct).
  apply (lbytes_pos smin smax); [apply Hct|by apply Forall_app..|]. lia.
Qed.

Lemma ring_wf_trimmed c lv pre b buffer hs r r' :
  contract smin smax (header_offset c) → dcore c lv → lspan lv ≤ top_of c →
  top_of c = span (pre ++ [b]) + span hs + span r → 3 * smax + 144 ≤ top_of c →
  Forall is_live pre → Forall is_live r → Forall (entry_fine smin smax) pre →
  Forall (entry_fine smin smax) r → Forall (entry_fine smin smax) hs → (length hs ≤ 1)%nat →
  chunk_ok b buffer → smin ≤ b_size b ≤ smax → trimmed c r r' →
  ring_wf smin smax (pre ++ [b]) (hs ++ r').
Proof.
  intros Hct Hd Hl Htop Hfull Hpre Hr Hfp Hfr Hfh Hhs Hck Hbs Htr.
  assert (Hr' : Forall is_live r' ∧ Forall (entry_fine smin smax) r' ∧
    3 * smax + 144 ≤ span (pre ++ [b]) + span hs + span r').
  { destruct Htr as [->|[Hroom [l ->]]]; [split_and!; [done|done|lia]|].
    apply Forall_app in Hr as [? [Hll _]%Forall_cons]. apply Forall_app in Hfr as [? [Hfl _]%Forall_cons].
    split_and!; [done|done|]. pose proof (trim_full c lv l Hct Hd Hl Hroom Hll Hfl).
    rewrite (span_snoc r') in Htop. lia. }
  destruct Hr' as (Hl' & Hf' & Hs'). apply (ring_wf_after _ _ buffer); try done.
  - destruct hs as [|h [|]]; simpl in *; [by apply Forall_tail|done|lia].
  - by apply Forall_app.
  - intros _. rewrite (span_app hs). lia.
Qed.

(** A single entry is left before the top and the directory has no room: the entry below
    the top is the new chunk itself. *)
Lemma cell_body_fit_stuck c2 pre b n e lv :
  dcore c2 lv → gap c2 (pre ++ [b]) (span (pre ++ [b])) (b_size b) [] → room c2 < 36 →
  b_sum b ∉ lsum <$> lv → cell_body_add_dir_entry e n c2 = (Err AssertFail, c2).
Proof.
  intros Hc2 Hg2 Hroom Hnew. destruct (gap_closed _ _ _ _ Hg2) as [Hlay2 Htop2]. rewrite app_nil_r in Hlay2, Htop2.
  destruct (gap_previous c2 _ [] 0 0 pre b Hc2) as (Hp2 & Ha2 & He2).
  { destruct Hlay2. split; try done. }
  rewrite Z.add_0_l in *. pose proof (span_nonneg pre). eapply (cell_body_add_dir_entry_absent c2); [exact Hc2|done|exact Hp2|lia|].
  rewrite Ha2. destruct He2 as [-> _]. done.
Qed.

Lemma cell_body_fit c pre cur rest b buffer e :
  opened c pre cur rest b buffer → b_size cur = b_size b →
  be_top_entry (be_at (cell_slab c) (span pre)) = 0 →
  (rest = [] ∧ room c < 36 ∧ (fit_program (span pre) b buffer e c).1 = Err AssertFail) ∨
  ∃ c' e' suf', fit_program (span pre) b buffer e c = (Ok e', c')
    ∧ overwrite b pre (cur :: rest) (pre ++ [b]) suf'
    ∧ body_inv smin smax c' (pre ++ [b]) suf' ∧ keeps_ic c c'.
Proof.
  intros Hop Hsz Htop0. pose proof Hop as [Hct Hring Hpre Hrest Hfine _ Hfull Hck Hbs Hnew].
  pose proof (ring_gap _ _ _ _ _ Hring) as Hg. destruct Hring as [H Hlay Htop Hnext].
  pose proof (layout_previous _ _ _ Hlay) as Hprev.
  assert (Hspan : b_span cur = b_span b) by (unfold b_span; lia).
  assert (Hoff : span pre + b_span cur = span (pre ++ [b])) by (rewrite span_app; simpl; lia).
  rewrite Hoff, Hsz in *.
  pose proof (fits_in _ _ _ H Htop) as Hfit. rewrite span_app in Htop, Hfit. cbn [span] in Htop, Hfit.
  pose proof (span_nonneg pre). pose proof (span_nonneg rest). pose proof (b_span_pos b).
  assert (b_span b ≤ smax + 36) by (unfold b_span; lia). pose proof (ct_max _ _ _ Hct).
  destruct (gap_write c _ pre _ _ rest b buffer H Hg) as (c2 & Hw & Hc2 & Hg2 & Hk2 & Hroom2 & Hov2);
    [rewrite <-Hoff; lia|done..|].
  assert (Hrun : ∀ r, (cell_body_add_dir_entry (dir_entry_of (span pre) b) (b_size b);;
      next ← get_next_offset;
      set_next_offset (u32 (next + (sizeof_cell_body_entry + b_size b)));;
      mret (dir_entry_of (span pre) b)) c2 = r → fit_program (span pre) b buffer e c = r).
  { intros r <-. unfold fit_program. mrun by exact Hw. mrun by apply get_next_ok.
    rewrite (keeps_next _ _ Hk2), Hnext.
    rewrite cell_dir_entry_set_ok by lia. done. }
  pose proof (keeps_offset _ _ Hk2) as Hho2. pose proof (keeps_top _ _ Hk2) as Ht2.
  destruct (decide (rest = [] ∧ room c < 36)) as [[-> Hroom]|Hcase].
  { left. split_and!; [done|done|]. erewrite Hrun; [|reflexivity]. erewrite bind_err; [reflexivity|].
    by eapply (cell_body_fit_stuck c2); [..|lia|]. }
  right. apply Forall_app in Hfine as [Hfp Hfr].
  destruct (cell_body_add_dir_entry_gap c2 b pre (span (pre ++ [b])) (b_size b) rest (live_at 0 pre))
    as (c3 & r' & Hadd & Hr' & Hc3 & Hg3 & Hk3 & Hn3 & _); try done; [|apply Hck|..].
  { destruct (decide (rest = [])) as [->|]; [right|by left]. rewrite Hroom2.
    destruct (decide (36 ≤ room c)); [done|]. destruct Hcase. split; [done|lia]. }
  { eapply (opened_ovc c); [done..|]. by rewrite Hoff. }
  { intros r' l Hl. eapply (trimmed_pos (header_offset c) _ pre (b_span b) rest r' l); try done; lia. }
  assert (Htr : trimmed c2 rest r') by (unfold trimmed; naive_solver).
  set (c4 := put_body (CellBody (top_of c3) (span (pre ++ [b]))) c3).
  exists c4, (dir_entry_of (span pre) b), r'.
  assert (Hk : keeps_ic c c4).
  { apply keeps_ic_trans with c2; [by apply keeps_keeps_ic|]. by apply keeps_ic_trans with c3. }
  split_and!; [| | |done].
  - apply Hrun. mrun by exact Hadd. mrun by apply get_next_ok.
    rewrite Hn3, (keeps_next _ _ Hk2), Hnext. mrun by apply set_next_ok.
    rewrite u32_id by (unfold sizeof_cell_body_entry, b_span in *; lia).
    unfold c4. rewrite span_app. cbn [span]. unfold sizeof_cell_body_entry, b_span at 1.
    by rewrite Z.add_0_r.
  - destruct Htr as [->|[_ [l ->]]]; by constructor.
  - destruct (gap_closed _ _ _ _ Hg3) as [Hlay3 Htop3].
    split; [by rewrite (keeps_ic_offset _ _ Hk)|split; try done|].
    + eapply dcore_perm; [by apply put_next_core|]. symmetry. apply live_done_perm, Hck.
    + pose proof (lspan_rest pre (span (pre ++ [b])) rest).
      rewrite <-Hho2 in Hct. apply (ring_wf_trimmed c2 _ pre b buffer [] rest r' Hct Hc2); try done;
        [lia|rewrite span_snoc; cbn [span]; lia|lia|simpl; lia].
Qed.

(** The window of the loop never takes all the chunks of a full body. *)
Lemma window_pos c pre cur rest b buffer v x r :
  opened c pre cur rest b buffer → rest = v ++ x :: r → b_size cur + span v < b_size b + 36 →
  0 < lbytes (live_at (span pre + b_span cur + span v + b_span x) r ++ live_at 0 pre).
Proof.
  intros [Hct _ Hpre Hrest Hf _ Hfull _ Hbs _] -> Hw. pose proof (ct_max _ _ _ Hct).
  pose proof (ct_min _ _ _ Hct).
  rewrite span_app in Hfull. cbn [span] in Hfull. unfold b_span in Hfull at 1.
  apply Forall_app in Hf as [Hfp [_ [Hx Hfr]%Forall_cons]%Forall_app].
  apply Forall_app in Hrest as [_ [Hlx Hlr]%Forall_cons].
  pose proof (entry_fine_live_span _ _ _ Hlx Hx).
  apply (lbytes_pos smin smax); [apply Hct|by apply Forall_app..|]. lia.
Qed.

Lemma window_end free required v r :
  scan_stop required free (v ++ r) → r = [] →
  ∀ v' x r', v = v' ++ x :: r' → free + span v' < required.
Proof.
  intros [_ [H|(v0 & x0 & Heq & Hlt)]] -> v' x r' ->.
  - by destruct v'.
  - rewrite app_nil_r in Heq.
    assert (span v' ≤ span v0); [|lia].
    destruct r' as [|y r' _] using rev_ind.
    + apply app_inj_tail in Heq as [-> _]. lia.
    + rewrite app_comm_cons, app_assoc in Heq. apply app_inj_tail in Heq as [<- _].
      rewrite span_app. pose proof (span_nonneg (x :: r')). lia.
Qed.

(** The loop met the top: what is left of the ring is [pre]. *)
Lemma cell_body_push c c1 pre cur rest b buffer e :
  opened c pre cur rest b buffer → b_size cur ≠ b_size b →
  dcore c1 (live_at 0 pre) → keeps c c1 → agree (cell_slab c) (cell_slab c1) 0 (top_of c + 36) →
  (∀ v' x r, rest = v' ++ x :: r → b_size cur + span v' < b_size b + 36) →
  ∃ c' e' pre', cell_body_push_down_top (span pre) (b_sum b) buffer (b_size b) e c1 = (Ok e', c')
    ∧ overwrite b pre (cur :: rest) pre' []
    ∧ body_inv smin smax c' pre' [] ∧ keeps_ic c c'.
Proof.
  intros Hop Hne Hc1 Hk Hag Hend.
  pose proof (opened_ovc c pre cur rest b buffer c1 _ Hop Hc1 (keeps_offset _ _ Hk) (keeps_top _ _ Hk)) as Hov.
  destruct Hop as [Hct [H Hlay Htop Hnext] Hpre _ [Hfp _]%Forall_app _ _ Hck Hbs Hnew].
  rewrite span_app in Htop. cbn [span] in Htop.
  pose proof (span_nonneg pre). pose proof (span_nonneg rest). pose proof (b_span_pos cur).
  pose proof Hlay as [[Hs _]%seg_app _].
  destruct (cell_body_push_down_top_spec c1 (live_at 0 pre) pre b buffer e)
    as (c' & e' & Hrun & Hk' & Hcase); try done.
  - eapply seg_agree; [|done]. eapply agree_sub; [exact Hag|lia..].
  - rewrite <-(layout_previous _ _ _ Hlay). f_equal. eapply be_at_agree; [exact Hag|lia..].
  - by rewrite (keeps_next _ _ Hk).
  - rewrite (keeps_top _ _ Hk). lia.
  - intros Hin. apply Hnew. rewrite fmap_app, elem_of_app. by right.
  - apply Hov. by apply submseteq_inserts_l.
  - apply lspan_live_at.
  - assert (Hkc : keeps_ic c c') by (eapply keeps_ic_trans; [by apply keeps_keeps_ic|done]).
    rewrite <-(keeps_ic_offset _ _ Hkc) in Hct.
    destruct Hcase as [[_ Hr]|(_ & Hr & _)].
    + exists c', e', (pre ++ [b]). split_and!; [done|by apply ow_top| |done].
      split; [done| |by apply (ring_wf_after _ _ buffer)].
      destruct Hr as [Hd Hl Ht Hn]. split; try done. eapply dcore_perm; [exact Hd|].
      rewrite live_done_perm by apply Hck. done.
    + exists c', e', pre. split_and!; [done|by apply ow_drop| |done].
      split; [done|by rewrite app_nil_r|]. split; rewrite ?app_nil_r; done.
Qed.
End fit.

(** * A chunk in the place of several entries *)
Section split.
Context (smin smax : Z).
Implicit Types c : cell.

Definition split_finish (entry free_space : Z) (b : bentry) (buffer : list byte)
    (e : cell_dir_entry) : M cell cell_dir_entry :=
  let required_space := u32 (b_size b + sizeof_cell_body_entry) in
  on_slab (cell_body_write_chunk entry (b_sum b) buffer (b_size b));;
  next ← get_next_offset;
  let e := cell_dir_entry_set (DirEntry (b_sum b) (de_offset e) (de_set e)) (b_sum b) next in
  cell_body_add_dir_entry e (b_size b);;
  let free_space := u32 (free_space - required_space) in
  next ← get_next_offset;
  set_next_offset (u32 (next + (sizeof_cell_body_entry + b_size b)));;
  ptr ← get_next_offset;
  on_slab (cell_body_entry_init ptr);;
  on_slab (set_previous_size ptr (b_size b));;
  on_slab (set_size ptr free_space);;
  on_slab (set_free_space ptr 1);;
  on_slab (set_top_entry ptr 0);;
  let ptr := ptr + (sizeof_cell_body_entry + free_space) in
  on_slab (set_previous_size ptr free_space);;
  mret e.

Definition split_program (entry size : Z) (b : bentry) (buffer : list byte)
    (e : cell_dir_entry) : M cell cell_dir_entry :=
  let required_space := u32 (b_size b + sizeof_cell_body_entry) in
  fuel ← gets scan_fuel;
  scan ← cell_body_scan fuel required_space size entry;
  match scan with
  | HitTop => cell_body_push_down_top entry (b_sum b) buffer (b_size b) e
  | Enough free_space last =>
      is_top ← on_slab (cell_body_next_entry_is_top last);
      if (is_top : bool) then cell_body_push_down_top entry (b_sum b) buffer (b_size b) e
      else split_finish entry free_space b buffer e
  end.

Lemma cell_body_add_offset_unfold b buffer e :
  cell_body_add_offset (b_sum b) buffer (b_size b) e =
  open_entry (λ entry size, if size =? b_size b then fit_program entry b buffer e
                            else split_program entry size b buffer e).
Proof. reflexivity. Qed.

(** The end of the split case, from the new directory entry on. *)
Lemma split_close c2 c3 pre b n prev r e0 lv :
  dcore c3 lv → gap c3 (pre ++ [b]) (span (pre ++ [b]) + 36 + n) prev r →
  next_of c3 = span pre → 0 ≤ n < 32768 → b_size b < 32768 →
  cell_body_add_dir_entry e0 (b_size b) c2 = (Ok tt, c3) →
  ∃ c4 h, (cell_body_add_dir_entry e0 (b_size b);;
      next ← get_next_offset;
      set_next_offset (u32 (next + (sizeof_cell_body_entry + b_size b)));;
      ptr ← get_next_offset;
      on_slab (cell_body_entry_init ptr);;
      on_slab (set_previous_size ptr (b_size b));;
      on_slab (set_size ptr n);;
      on_slab (set_free_space ptr 1);;
      on_slab (set_top_entry ptr 0);;
      on_slab (set_previous_size (ptr + (sizeof_cell_body_entry + n)) n);;
      mret e0) c2 = (Ok e0, c4)
    ∧ dcore c4 lv ∧ layout (cell_slab c4) ((pre ++ [b]) ++ h :: r)
    ∧ top_of c4 = span ((pre ++ [b]) ++ h :: r) ∧ next_of c4 = span (pre ++ [b])
    ∧ b_free h = true ∧ b_size h = n ∧ keeps_ic c3 c4.
Proof.
  intros H Hg Hnext Hn Hb Hadd. set (c3' := put_body (CellBody (top_of c3) (span (pre ++ [b]))) c3).
  pose proof (header_offset_bound _ _ H). pose proof (dc_room _ _ H). pose proof (dcore_count _ _ H).
  pose proof (gp_top _ _ _ _ _ Hg). pose proof (span_nonneg r). pose proof (span_nonneg pre).
  assert (Hsp : span (pre ++ [b]) = span pre + (36 + b_size b)) by (by rewrite span_snoc).
  pose proof (b_size_nonneg b).
  destruct (gap_hole c3' lv (pre ++ [b]) prev r n (b_size b)) as (c4 & h & Hw & Hc4 & Hl & Ht & Hf & Hs & Hk & Hn4).
  - by apply put_next_core.
  - by destruct Hg.
  - done.
  - lia.
  - by rewrite last_size_app.
  - exists c4, h. split_and!; try done; [|by apply (keeps_keeps_ic c3' c4)].
    mrun by exact Hadd. mrun by apply get_next_ok. rewrite Hnext.
    replace (u32 (span pre + (sizeof_cell_body_entry + b_size b))) with (span (pre ++ [b]))
      by (unfold sizeof_cell_body_entry; rewrite u32_id; lia).
    mrun by apply set_next_ok.
    mrun by apply get_next_ok.
    change (next_of (put_body (CellBody _ ?v) _)) with v. rewrite !on_slab_seq.
    mrun by (rewrite <-Hw; apply zoom_ext; rewrite !bind_assoc; reflexivity). done.
Qed.

(** What the window leaves over is a free entry no larger than [smax + 35]. *)
Lemma hole_bound c pre cur v r b buffer :
  opened smin smax c pre cur (v ++ r) b buffer →
  scan_stop (b_size b + 36) (b_size cur) v →
  0 ≤ b_size cur + span v - (b_size b + 36) ≤ smax + 35.
Proof.
  intros [Hct _ _ Hl Hf Hc _ _ Hbs _] [Hle Hstop]. split; [lia|].
  destruct Hstop as [->|(v' & x & -> & Hlt)]; [pose proof (ct_min _ _ _ Hct); simpl; lia|].
  rewrite span_snoc in *. apply Forall_app in Hf as [_ [[_ [Hx _]%Forall_cons]%Forall_app _]%Forall_app].
  apply Forall_app in Hl as [[_ [Hlx _]%Forall_cons]%Forall_app _].
  pose proof (entry_fine_live_span _ _ _ Hlx Hx). lia.
Qed.

(** The new chunk is written over the entries that the scan passed. *)
Lemma split_written c c1 pre cur v r b buffer :
  opened smin smax c pre cur (v ++ r) b buffer →
  scan_stop (b_size b + 36) (b_size cur) v →
  let off := span pre + b_span cur + span v in
  dcore c1 (live_at off r ++ live_at 0 pre) → keeps c c1 →
  agree (cell_slab c) (cell_slab c1) 0 (top_of c + 36) →
  ∃ c2, on_slab (cell_body_write_chunk (span pre) (b_sum b) buffer (b_size b)) c1 = (Ok tt, c2)
    ∧ dcore c2 (live_at off r ++ live_at 0 pre) ∧ gap c2 (pre ++ [b]) off (last_size (b_size cur) v) r
    ∧ keeps c c2.
Proof.
  intros Hop Hst off Hc1 Hk Hag. pose proof (hole_bound _ _ _ _ _ _ _ Hop Hst) as Hn.
  pose proof Hop as [Hct Hring Hpre Hrest Hfine _ Hfull Hck Hbs Hnew].
  pose proof (ring_gap _ _ _ _ _ Hring) as Hg. destruct Hring as [H Hlay Htop Hnext].
  pose proof (fits_in _ _ _ H Htop) as Hfit. rewrite span_app in Htop, Hfit. cbn [span] in Htop, Hfit.
  rewrite span_app in *. pose proof (span_nonneg pre). pose proof (span_nonneg v). pose proof (span_nonneg r).
  pose proof (b_span_pos b). pose proof (b_span_pos cur). pose proof (b_size_nonneg b). pose proof (b_size_nonneg cur).
  apply gap_drop in Hg. fold off in Hg.
  assert (Hg1 : gap c1 pre off (last_size (b_size cur) v) r).
  { eapply gap_agree; [exact Hg|eapply agree_sub; [exact Hag|unfold off; lia..]..|by apply keeps_top]. }
  assert (Hbe : be_at (cell_slab c1) (span pre) = be_at (cell_slab c) (span pre))
    by (eapply be_at_agree; [exact Hag|unfold b_span in *; lia..]).
  destruct (gap_write c1 _ pre _ _ r b buffer Hc1 Hg1) as (c2 & Hw & Hc2 & Hg2 & Hk2 & Hroom2 & Hov2).
  { unfold off, b_span in *. lia. }
  { done. }
  { rewrite Hbe. by destruct (layout_entry _ _ _ _ Hlay) as [-> _]. }
  { rewrite Hbe. by eapply layout_previous. }
  exists c2. split_and!; [done..|by eapply keeps_trans].
Qed.

Lemma cell_body_split c c1 pre cur v r b buffer e :
  opened smin smax c pre cur (v ++ r) b buffer → b_size cur ≠ b_size b →
  scan_stop (b_size b + 36) (b_size cur) v → r ≠ [] →
  let off := span pre + b_span cur + span v in
  dcore c1 (live_at off r ++ live_at 0 pre) → keeps c c1 →
  agree (cell_slab c) (cell_slab c1) 0 (top_of c + 36) →
  ∃ c' e' suf', split_finish (span pre) (b_size cur + span v) b buffer e c1 = (Ok e', c')
    ∧ overwrite b pre (cur :: v ++ r) (pre ++ [b]) suf'
    ∧ body_inv smin smax c' (pre ++ [b]) suf' ∧ keeps_ic c c'.
Proof.
  intros Hop Hne Hst Hr off Hc1 Hk Hag. pose proof (hole_bound _ _ _ _ _ _ _ Hop Hst) as Hn.
  set (n := b_size cur + span v - (b_size b + 36)) in *.
  pose proof Hop as [Hct Hring Hpre Hrest Hfine _ Hfull Hck Hbs Hnew].
  pose proof (ring_gap _ _ _ _ _ Hring) as Hg. destruct Hring as [H Hlay Htop Hnext].
  pose proof (fits_in _ _ _ H Htop) as Hfit. rewrite span_app in Htop, Hfit. cbn [span] in Htop, Hfit.
  rewrite span_app in *. apply Forall_app in Hrest as [_ Hrest].
  apply Forall_app in Hfine as [Hfp [_ Hfr]%Forall_app].
  pose proof (span_nonneg pre). pose proof (span_nonneg v). pose proof (span_nonneg r).
  pose proof (b_span_pos b). pose proof (b_size_nonneg b). pose proof (b_size_nonneg cur).
  pose proof (ct_max _ _ _ Hct).
  assert (Hoff : off = span (pre ++ [b]) + 36 + n) by (rewrite span_snoc; unfold off, n, b_span; lia).
  assert (Hoffb : span pre + b_span b ≤ off) by (unfold off, b_span; lia).
  destruct (split_written c c1 pre cur v r b buffer Hop Hst Hc1 Hk Hag) as (c2 & Hw & Hc2 & Hg2 & Hkk).
  fold off in Hc2, Hg2.
  pose proof (keeps_offset _ _ Hkk) as Hho2. pose proof (keeps_top _ _ Hkk) as Ht2.
  assert (Hsub : live_at off r ++ live_at 0 pre ⊆+
                 live_at (span pre + b_span cur) (v ++ r) ++ live_at 0 pre).
  { rewrite live_at_app. fold off. rewrite <-app_assoc. by apply submseteq_inserts_l. }
  destruct (cell_body_add_dir_entry_gap c2 b pre off (last_size (b_size cur) v) r (live_at 0 pre))
    as (c3 & r' & Hadd & Hr' & Hc3 & Hg3 & Hk3 & Hn3 & _); try done; [by left|apply Hck| |by eapply opened_ovc|..].
  { intros Hin. apply Hnew. destruct (submseteq_Permutation _ _ Hsub) as [k ->].
    rewrite fmap_app, elem_of_app. by left. }
  { intros r' l Hl. eapply (trimmed_pos smin smax (header_offset c) _ pre (b_span cur + span v) r r' l); try done.
    - unfold b_span. lia.
    - lia. }
  assert (Htr : trimmed c2 r r') by (unfold trimmed; naive_solver).
  rewrite Hoff in Hg3, Hc3.
  destruct (split_close c2 c3 pre b n _ r' (dir_entry_of (span pre) b) _ Hc3 Hg3) as (c4 & h & Hrun & Hc4 & Hl4 & Ht4 & Hn4 & Hfh & Hsh & Hk4);
    [|lia|lia|exact Hadd|].
  { by rewrite Hn3, (keeps_next _ _ Hkk). }
  assert (Hspan : b_span h + b_span b = b_span cur + span v) by (unfold b_span; lia).
  assert (Hkc : keeps_ic c c4).
  { apply keeps_ic_trans with c2; [by apply keeps_keeps_ic|]. by apply keeps_ic_trans with c3. }
  exists c4, (dir_entry_of (span pre) b), (h :: r'). split_and!; [| | |done].
  - unfold split_finish, sizeof_cell_body_entry. rewrite (u32_id (b_size b + 36)) by lia.
    fold n. rewrite u32_id by lia. mrun by exact Hw. mrun by apply get_next_ok.
    rewrite (keeps_next _ _ Hkk), Hnext, cell_dir_entry_set_ok by lia. exact Hrun.
  - destruct Htr as [->|[_ [l ->]]]; by constructor.
  - split; [by rewrite (keeps_ic_offset _ _ Hkc)|split; try done|].
    + eapply dcore_perm; [exact Hc4|]. rewrite live_done_perm by apply Hck.
      simpl. rewrite Hfh. replace (b_span h) with (36 + n) by (unfold b_span; lia). by rewrite Z.add_assoc.
    + pose proof (lspan_rest pre off r). pose proof (b_span_pos cur). rewrite <-Hho2 in Hct.
      apply (ring_wf_trimmed smin smax c2 _ pre b buffer [h] r r' Hct Hc2); try done;
        [lia|rewrite span_snoc; cbn [span]; lia|lia|].
      apply Forall_singleton. unfold entry_fine. rewrite Hfh. lia.
Qed.
End split.

(** * cell_body_add *)
Section add.
Context (smin smax : Z).
Implicit Types c : cell.

Lemma overwrite_taken b pre cur rest pre' suf' :
  overwrite b pre (taken cur :: rest) pre' suf' → overwrite b pre (cur :: rest) pre' suf'.
Proof.
  inversion 1; subst;
    [by apply ow_fit|by apply ow_fit_trim|by eapply ow_split|by eapply ow_split_trim
    |by apply ow_top|by apply ow_drop].
Qed.

Lemma opened_intro c c1 pre cur rest b buffer :
  body_inv smin smax c pre (cur :: rest) → chunk_ok b buffer → smin ≤ b_size b ≤ smax →
  b_sum b ∉ b_sum <$> live (pre ++ cur :: rest) →
  ring c1 pre (taken cur :: rest) (live_at (span pre + b_span cur) rest ++ live_at 0 pre) →
  keeps c c1 → opened smin smax c1 pre (taken cur) rest b buffer.
Proof.
  intros [Hct _ [Hpre Hsuf Hf Hfull]] Hck Hbs Hnew Hring Hk.
  apply Forall_app in Hf as [Hfp [Hfc Hfr]%Forall_cons].
  split; rewrite ?taken_span, ?taken_size; try done.
  - by rewrite (keeps_offset _ _ Hk).
  - by apply Forall_app.
  - unfold entry_fine in Hfc. destruct (b_free cur); lia.
  - specialize (Hfull ltac:(done)). rewrite span_app in Hfull. cbn [span] in Hfull. lia.
  - rewrite fmap_app, !live_at_lsum. intros Hin. apply Hnew.
    rewrite live_app, fmap_app, elem_of_app. apply elem_of_app in Hin as [Hin|Hin]; [right|by left].
    unfold live. rewrite filter_cons. case_decide; [|done]. rewrite fmap_cons. by right.
Qed.

Lemma scan_fuel_enough c lv pre cur rest :
  ring c pre (cur :: rest) lv → (length rest < scan_fuel c)%nat.
Proof.
  intros [H _ Htop _]. rewrite span_app in Htop. cbn [span] in Htop.
  pose proof (span_nonneg pre). pose proof (b_span_pos cur). pose proof (span_bound rest).
  pose proof (dc_room _ _ H). pose proof (dcore_count _ _ H).
  assert (slab_size c = header_offset c + 28704) by (unfold header_offset; change sizeof_cell_header with 28704; lia).
  assert (Z.of_nat (length rest) ≤ slab_size c / 36) by (apply Z.div_le_lower_bound; lia).
  unfold scan_fuel, sizeof_cell_body_entry. lia.
Qed.

(** The case of a chunk of another size, after the first entry is taken. *)
(** The check behind the scan: whether the entry behind the last one is the top. *)
Lemma next_is_top c lv p0 l r :
  dcore c lv → layout (cell_slab c) ((p0 ++ [l]) ++ r) → span (p0 ++ [l]) ≤ top_of c →
  on_slab (cell_body_next_entry_is_top (span p0)) c =
    (Ok (match r with [] => true | _ => false end), c).
Proof.
  intros H Hlay Htop. pose proof (layout_is_top _ _ _ Hlay) as Htp. rewrite span_snoc in *.
  rewrite <-app_assoc in Hlay. destruct (layout_entry _ _ _ _ Hlay) as [Hel _].
  pose proof (span_nonneg p0). pose proof (b_span_pos l).
  pose proof (dc_room _ _ H). pose proof (dcore_count _ _ H). pose proof (dc_lim _ _ H).
  rewrite <-Htp. replace (span p0 + b_span l) with (span p0 + (b_size l + 36)) by (unfold b_span; lia).
  apply on_slab_read. unfold cell_body_next_entry_is_top. mrun by (apply get_size_ok; lia).
  rewrite Hel. cbn [be_size]. apply cell_body_entry_top_ok; unfold sizeof_cell_body_entry, b_span in *; lia.
Qed.

Lemma cell_body_replace c pre cur rest b buffer e :
  opened smin smax c pre cur rest b buffer → b_size cur ≠ b_size b →
  ∃ c' e' pre' suf', split_program (span pre) (b_size cur) b buffer e c = (Ok e', c')
    ∧ overwrite b pre (cur :: rest) pre' suf' ∧ body_inv smin smax c' pre' suf' ∧ keeps_ic c c'.
Proof.
  intros Hop Hne. pose proof Hop as [Hct Hring Hpre Hrest _ _ _ Hck Hbs _].
  pose proof (scan_fuel_enough _ _ _ _ _ Hring) as Hfuel. pose proof (ct_max _ _ _ Hct) as Hmax.
  destruct Hring as [H Hlay Htop Hnext].
  assert (Hpush : ∀ c1, dcore c1 (live_at 0 pre) → keeps c c1 →
    agree (cell_slab c) (cell_slab c1) 0 (top_of c + 36) →
    (∀ v' x r, rest = v' ++ x :: r → b_size cur + span v' < b_size b + 36) →
    ∃ c' e' pre' suf', cell_body_push_down_top (span pre) (b_sum b) buffer (b_size b) e c1 = (Ok e', c')
      ∧ overwrite b pre (cur :: rest) pre' suf' ∧ body_inv smin smax c' pre' suf' ∧ keeps_ic c c').
  { intros c1 Hc1 Hk Hag Hend.
    destruct (cell_body_push smin smax c c1 pre cur rest b buffer e) as (c' & e' & pre' & ?); try done.
    by exists c', e', pre', []. }
  unfold split_program, sizeof_cell_body_entry. rewrite u32_id by (pose proof (b_size_nonneg b); lia). mnorm.
  destruct (cell_body_scan_spec rest (scan_fuel c) c _ pre cur (live_at 0 pre) (b_size cur) (b_size b + 36) Hlay Htop H Hrest Hfuel)
    as [(c1 & Hscan & Hend & Hc1 & Hk & _ & Hag)|(c1 & v & r & p0 & l & Hscan & Heq & Hl & Hst & Hc1 & Hk & _ & Hag)];
    [done|intros; by eapply window_pos|apply b_size_nonneg|lia|..].
  - destruct (Hpush c1) as (c' & e' & pre' & suf' & Hrun & ?); try done.
    { intros v' x r ->. rewrite span_app in Hend. cbn [span] in Hend.
      pose proof (b_span_pos x). pose proof (span_nonneg r). lia. }
    exists c', e', pre', suf'. split; [|done]. by mrun by exact Hscan.
  - assert (Hex : ∃ c' e' pre' suf',
      (if match r with [] => true | _ => false end
       then cell_body_push_down_top (span pre) (b_sum b) buffer (b_size b) e
       else split_finish (span pre) (b_size cur + span v) b buffer e) c1 = (Ok e', c')
      ∧ overwrite b pre (cur :: rest) pre' suf' ∧ body_inv smin smax c' pre' suf' ∧ keeps_ic c c').
    { destruct r as [|x r].
      - apply Hpush; try done. eapply window_end; [|reflexivity].
        rewrite Heq, !app_nil_r. exact Hst.
      - rewrite Heq in *.
        destruct (cell_body_split smin smax c c1 pre cur v (x :: r) b buffer e) as (c' & e' & suf' & ?); try done.
        by exists c', e', (pre ++ [b]), suf'. }
    destruct Hex as (c' & e' & pre' & suf' & Hrun & ?). exists c', e', pre', suf'. split; [|done].
    mrun by exact Hscan. rewrite <-Hrun.
    assert (Hlay1 : layout (cell_slab c1) ((p0 ++ [l]) ++ r)).
    { rewrite <-Hl, <-app_assoc. simpl. rewrite <-Heq. eapply layout_agree; [|exact Hlay].
      eapply agree_sub; [exact Hag|lia..]. }
    assert (span (p0 ++ [l]) ≤ top_of c1).
    { rewrite <-Hl, (keeps_top _ _ Hk), Htop, Heq, !span_app. cbn [span]. rewrite span_app.
      pose proof (span_nonneg r). lia. }
    by mrun by by eapply next_is_top.
Qed.

(** The one state in which the chunk cannot be placed: a single entry of the same size
    is left before the top and the directory has no room. *)
Definition stuck (c : cell) (b : bentry) (suf : list bentry) : Prop :=
  ∃ cur, suf = [cur] ∧ b_size cur = b_size b ∧ room c < 36.

Lemma cell_body_add_offset_spec c pre cur rest b buffer e :
  body_inv smin smax c pre (cur :: rest) → chunk_ok b buffer → smin ≤ b_size b ≤ smax →
  b_sum b ∉ b_sum <$> live (pre ++ cur :: rest) →
  (stuck c b (cur :: rest) ∧
   (cell_body_add_offset (b_sum b) buffer (b_size b) e c).1 = Err AssertFail) ∨
  ∃ c' e' pre' suf', cell_body_add_offset (b_sum b) buffer (b_size b) e c = (Ok e', c')
    ∧ overwrite b pre (cur :: rest) pre' suf' ∧ body_inv smin smax c' pre' suf' ∧ keeps_ic c c'.
Proof.
  intros Hinv Hck Hbs Hnew.
  destruct (open_entry_spec _ _ _ _ _ _ Hinv) as (c1 & Hrun & Hring & Hk & Hroom).
  pose proof (opened_intro _ _ _ _ _ _ _ Hinv Hck Hbs Hnew Hring Hk) as Hop.
  rewrite cell_body_add_offset_unfold, Hrun.
  destruct (b_size cur =? b_size b) eqn:Hsz.
  - destruct (cell_body_fit smin smax c1 pre (taken cur) rest b buffer e)
      as [(-> & Hr & Herr)|(c' & e' & suf' & Hok & How & Hinv' & Hk')]; [done|rewrite taken_size; lia| | |].
    + destruct Hring as [_ Hl _ _]. by destruct (layout_entry _ _ _ _ Hl) as [-> _].
    + left. split; [|done]. exists cur. split_and!; [done|lia..].
    + right. exists c', e', (pre ++ [b]), suf'. split_and!; try done; [by apply overwrite_taken|].
      eapply keeps_ic_trans; [by apply keeps_keeps_ic|done].
  - right. destruct (cell_body_replace c1 pre (taken cur) rest b buffer e)
      as (c' & e' & pre' & suf' & Hok & How & Hinv' & Hk'); [done|rewrite taken_size; lia|].
    exists c', e', pre', suf'. split_and!; try done; [by apply overwrite_taken|].
    eapply keeps_ic_trans; [by apply keeps_keeps_ic|done].
Qed.

Lemma body_inv_is_top c pre suf :
  body_inv smin smax c pre suf →
  on_slab (cell_body_entry_top (next_of c)) c = (Ok (match suf with [] => true | _ => false end), c).
Proof.
  intros [_ [H Hlay Htop Hnext] _]. rewrite Hnext.
  pose proof (dc_room _ _ H). pose proof (dcore_count _ _ H). pose proof (dc_lim _ _ H).
  rewrite span_app in Htop. pose proof (span_nonneg suf). pose proof (span_nonneg pre).
  rewrite <-(layout_is_top _ _ _ Hlay).
  apply on_slab_read, cell_body_entry_top_ok; lia.
Qed.

Lemma wrap_inv c pre b :
  body_inv smin smax c pre [] → smin ≤ b_size b ≤ smax → room c < b_size b + 72 →
  let c' := put_body (CellBody (top_of c) 0) c in
  body_inv smin smax c' [] pre ∧ pre ≠ [].
Proof.
  intros [Hct [H Hlay Htop Hnext] [Hp _ Hf _]] Hbs Hroom c'. rewrite app_nil_r in *.
  assert (Hfull : 3 * smax + 144 ≤ span pre).
  { pose proof (lspan_live_at 0 pre). pose proof (ct_room _ _ _ Hct).
    pose proof (ct_max _ _ _ Hct). pose proof (ct_min _ _ _ Hct).
    pose proof (room_full _ _ _ H ltac:(lia) Hroom). lia. }
  split.
  - split; [done| |].
    + split; try done. by apply put_next_core.
    + split; try done. by apply Forall_tail.
  - intros ->. pose proof (ct_max _ _ _ Hct). pose proof (ct_min _ _ _ Hct). simpl in Hfull. lia.
Qed.

(** At the top with room left the chunk is appended. *)
Lemma cell_body_add_append c pre b buffer e :
  body_inv smin smax c pre [] → chunk_ok b buffer → smin ≤ b_size b ≤ smax →
  b_sum b ∉ b_sum <$> live (pre ++ []) → b_size b + 72 ≤ room c →
  ∃ c' e', cell_body_add (b_sum b) buffer (b_size b) e c = (Ok e', c')
    ∧ body_inv smin smax c' (pre ++ [b]) [] ∧ keeps_ic c c'.
Proof.
  intros Hinv Hck Hbs Hnew Hroom. pose proof (body_inv_is_top _ _ _ Hinv) as Htp.
  destruct Hinv as [Hct [H Hlay Htop Hnext] [Hp _ Hf _]]. rewrite app_nil_r in *.
  assert (Hb : is_live b) by apply Hck.
  destruct (cell_body_add_top_fits c _ pre b buffer e H Hlay Htop Hck) as (c' & Hrun & Hring & Hk);
    [by rewrite live_at_lsum| |apply lspan_live_at|lia|].
  { apply (ovc_bound smin smax c _ Hct H); [pose proof (lspan_live_at 0 pre); lia|by apply fine_live]. }
  exists c', (dir_entry_of (span pre) b). split_and!; [| |done].
  - unfold cell_body_add. mrun by apply get_next_ok. mrun by exact Htp. cbn [negb]. cbn iota.
    mrun by exact Hrun. done.
  - split; [by rewrite (keeps_ic_offset _ _ Hk)| |by apply (ring_wf_after _ _ _ _ buffer)].
    destruct Hring as [Hd Hl Ht Hn]. split; try done. eapply dcore_perm; [exact Hd|].
    by rewrite live_done_perm.
Qed.

(** [cell_body_add] takes a step of the specification, unless it is stuck. *)
Lemma cell_body_add_spec c pre suf b buffer e :
  body_inv smin smax c pre suf → chunk_ok b buffer → smin ≤ b_size b ≤ smax →
  b_sum b ∉ b_sum <$> live (pre ++ suf) →
  ((stuck c b suf ∨ suf = [] ∧ room c < 36 ∧ stuck c b pre) ∧
   (cell_body_add (b_sum b) buffer (b_size b) e c).1 = Err AssertFail) ∨
  ∃ c' e' pre' suf', cell_body_add (b_sum b) buffer (b_size b) e c = (Ok e', c')
    ∧ ring_step b pre suf pre' suf' ∧ body_inv smin smax c' pre' suf' ∧ keeps_ic c c'.
Proof.
  intros Hinv Hck Hbs Hnew. pose proof (body_inv_is_top _ _ _ Hinv) as Htp.
  unfold cell_body_add. mrun by apply get_next_ok. mrun by exact Htp.
  destruct suf as [|cur rest]; cbn [negb]; cbn iota.
  - pose proof Hinv as [Hct [H Hlay Htop Hnext] [Hp _ Hf _]]. rewrite app_nil_r in *.
    destruct (decide (room c < b_size b + 72)) as [Hroom|Hroom].
    + mrun by (by eapply cell_body_add_top_full). simpl. mrun by apply set_next_ok.
      destruct (wrap_inv _ _ _ Hinv Hbs Hroom) as [Hw Hne].
      destruct pre as [|cur rest]; [done|].
      destruct (cell_body_add_offset_spec _ _ _ _ b buffer e Hw Hck Hbs Hnew)
        as [[Hst Herr]|(c' & e' & pre' & suf' & Hrun & How & Hinv' & Hk)].
      * left. split; [|done]. right. split; [done|]. destruct Hst as (? & ? & ? & Hr). split; [done|]. by eexists.
      * right. exists c', e', pre', suf'. split_and!; [done|by apply rs_wrap|done..].
    + destruct (cell_body_add_append c pre b buffer e Hinv Hck Hbs) as (c' & e' & Hrun & Hinv' & Hk);
        [by rewrite app_nil_r|lia|].
      right. exists c', e', (pre ++ [b]), []. split_and!; [|apply rs_top|done..].
      rewrite <-Hrun. unfold cell_body_add. mrun by apply get_next_ok. by mrun by exact Htp.
  - destruct (cell_body_add_offset_spec c pre cur rest b buffer e Hinv Hck Hbs Hnew)
      as [[Hst Herr]|(c' & e' & pre' & suf' & Hrun & How & Hinv' & Hk)].
    + left. by split; [left|].
    + right. exists c', e', pre', suf'. split_and!; [done|by apply rs_over|done..].
Qed.
End add.

(** * What a step evicts *)
Section evict.
Context (smin smax : Z).

(** The first chunks of [suf], in the bytes the new chunk needs, the oldest of the
    cell; and at most one more, the last of [suf]. *)
Record evicts (b : bentry) (pre suf pre' suf' : list bentry) : Prop := {
  ev_chunks : ∃ w l, live suf = w ++ live suf' ++ l ∧ (length l ≤ 1)%nat
                ∧ span w ≤ b_span b + smax + 71;
  ev_new : live pre' = live pre ++ [b] ∨ live pre' = live pre ∧ live suf' = [];
}.

Lemma live_cons_free h es : b_free h = true → live (h :: es) = live es.
Proof. intros Hh. unfold live. rewrite filter_cons_False; [done|]. by rewrite Hh. Qed.

Lemma live_span es : span (live es) ≤ span es.
Proof. rewrite <-(live_at_snd 0). apply lspan_live_at. Qed.

Lemma live_snoc pre b : is_live b → live (pre ++ [b]) = live pre ++ [b].
Proof. intros Hb. rewrite live_app. f_equal. apply live_all. by constructor. Qed.

(** The bytes the loop takes over. *)
Lemma window_span cur v b :
  smin ≤ smax → entry_fine smin smax cur → Forall (entry_fine smin smax) v → Forall is_live v →
  (∀ v' x r, v = v' ++ x :: r → b_size cur + span v' < b_size b + 36) →
  span (cur :: v) ≤ b_span b + smax + 71.
Proof.
  intros Hmm Hc Hf Hl Hw. pose proof (entry_fine_span _ _ _ Hmm Hc). pose proof (b_span_pos b).
  destruct v as [|x v _] using rev_ind; [simpl; lia|].
  specialize (Hw v x [] eq_refl). apply Forall_app in Hf as [_ [Hx _]%Forall_cons].
  apply Forall_app in Hl as [_ [Hlx _]%Forall_cons].
  pose proof (entry_fine_live_span _ _ _ Hlx Hx). cbn [span]. rewrite span_snoc.
  unfold b_span in *. lia.
Qed.

Lemma overwrite_evicts b pre suf pre' suf' :
  smin ≤ smax → is_live b → smin ≤ b_size b ≤ smax → Forall (entry_fine smin smax) suf →
  Forall is_live (tail suf) → overwrite b pre suf pre' suf' → evicts b pre suf pre' suf'.
Proof.
  intros Hmm Hb Hbs Hf Hl How. pose proof (live_snoc pre b Hb) as Hsn.
  assert (Hcons : ∀ cur es, live (cur :: es) = live [cur] ++ live es)
    by (intros; by rewrite <-live_app).
  assert (Hlen : ∀ l, (length (live [l]) ≤ 1)%nat).
  { intros l. unfold live. rewrite filter_cons. case_decide; simpl; lia. }
  destruct How as [pre cur rest Hsz|pre cur rest l Hsz|pre cur v r h Hne Hst Hr Hh Hsp
    |pre cur v r l h Hne Hst Hh Hsp|pre cur v Hne Hend|pre cur v Hne Hend]; simpl in Hl;
    apply Forall_cons in Hf as [Hfc Hf]; (split; [|by auto]).
  - exists (live [cur]), []. rewrite app_nil_r. split_and!; [apply Hcons|simpl; lia|].
    etrans; [apply live_span|]. cbn [span]. pose proof (b_size_nonneg b). unfold b_span. lia.
  - exists (live [cur]), (live [l]). rewrite Hcons, live_app. split_and!; [done|apply Hlen|].
    etrans; [apply live_span|]. cbn [span]. pose proof (b_size_nonneg b). unfold b_span. lia.
  - apply Forall_app in Hf as [Hfv _]. apply Forall_app in Hl as [Hlv _].
    exists (live (cur :: v)), []. rewrite (live_cons_free h), app_nil_r by done.
    split_and!; [by rewrite <-live_app|simpl; lia|].
    etrans; [apply live_span|]. apply window_span; try done.
    intros v' x r' Hv. eapply window_end; [|reflexivity|exact Hv]. by rewrite app_nil_r.
  - apply Forall_app in Hf as [Hfv _]. apply Forall_app in Hl as [Hlv _].
    exists (live (cur :: v)), (live [l]). rewrite (live_cons_free h) by done.
    split_and!; [by rewrite <-!live_app|apply Hlen|].
    etrans; [apply live_span|]. apply window_span; try done.
    intros v' x r' Hv. eapply window_end; [|reflexivity|exact Hv]. by rewrite app_nil_r.
  - exists (live (cur :: v)), []. rewrite !app_nil_r. split_and!; [done|simpl; lia|].
    etrans; [apply live_span|]. by apply window_span.
  - exists (live (cur :: v)), []. rewrite !app_nil_r. split_and!; [done|simpl; lia|].
    etrans; [apply live_span|]. by apply window_span.
Qed.

(** The age order: the chunks from [next_entry_offset] to the top, then those before. *)
Definition by_age (pre suf : list bentry) : list bentry := live (suf ++ pre).

Lemma ring_step_evicts b pre suf pre' suf' :
  smin ≤ smax → is_live b → smin ≤ b_size b ≤ smax → ring_wf smin smax pre suf →
  ring_step b pre suf pre' suf' →
  ∃ w m l, by_age pre suf = w ++ m ++ l ++ (if suf is [] then [] else live pre)
    ∧ (length l ≤ 1)%nat ∧ span w ≤ b_span b + smax + 71
    ∧ (by_age pre' suf' = m ++ (if suf is [] then [] else live pre) ++ [b] ∨
       by_age pre' suf' = (if suf is [] then [] else live pre) ∧ m = []).
Proof.
  intros Hmm Hb Hbs [Hp Hs Hf _] Hstep. unfold by_age.
  apply Forall_app in Hf as [Hfp Hfs].
  destruct Hstep as [pre|pre suf pre' suf' How|pre pre' suf' How].
  - exists [], (live pre), []. simpl. rewrite !app_nil_r.
    split_and!; [done|lia|simpl; pose proof (b_span_pos b); pose proof (b_size_nonneg b); lia|left]. by apply live_snoc.
  - destruct (overwrite_evicts _ _ _ _ _ Hmm Hb Hbs Hfs Hs How) as [(w & l & Hw & Hl & Hsp) Hn].
    destruct suf as [|cur rest]; [by inversion How|].
    exists w, (live suf'), l. rewrite live_app, Hw, <-!app_assoc. split_and!; try done.
    rewrite live_app. destruct Hn as [->|[-> ->]]; [by left|by right].
  - destruct (overwrite_evicts _ _ _ _ _ Hmm Hb Hbs Hfp (Forall_tail _ _ Hp) How) as [(w & l & Hw & Hl & Hsp) Hn].
    exists w, (live suf'), l. rewrite app_nil_r. simpl. rewrite Hw. split_and!; try done.
    rewrite live_app. destruct Hn as [->|[-> ->]]; [by left|by right].
Qed.
End evict.
