(* ===== verification/CacheMetrics.v ===== *)
(** cache_metrics.c: the totals a caller asks for. *)

From S2P Require Import Prelude Monad.

Record cache_metrics := CacheMetrics {
  metrics_byte_count : Z;  (* uint64_t *)
  metrics_entry_count : Z; (* uint64_t *)
}.

Definition cache_metrics_init : cache_metrics := CacheMetrics 0 0.
