(* ===== verification/Cell.v ===== *)
(** cell.c: a cell, the unit of storage of the cache: a slab with a header.  Each
    operation takes the mutex of the cell before its first access and gives it back after
    its last; the definitions are what it does in between, and the mutex is that of
    Threads.v. *)

From S2P Require Import Prelude Monad Slab Checksum CellIc CellDirEntry CellDirBlock CellDirOverflow.
From S2P Require Import CellDir CellBodyEntry CellHeader CellBody CacheMetrics.

(** [cell_init(cell, slab, slab_size)]: the state before is the memory the caller maps,
    its header whatever the last bytes of the slab hold. *)
Definition put_slab_size (n : Z) (c : cell) : cell := Cell (cell_hdr c) (cell_slab c) n.

Definition cell_init (n : Z) : M cell unit :=
  ALWAYS (sizeof_cell_header <? n);;
  modify (put_slab_size n);;
  sane ← gets (λ c, cell_header_sane (cell_hdr c));
  if negb sane then cell_header_init else mret tt.

(** [cell_release] destroys the mutex: the slab stays as it is. *)
Definition cell_release : M cell unit := mret tt.

Definition cell_add_chunk (sum : checksum) (buffer : list byte) (buffer_size : Z) : M cell bool :=
  top ← gets header_offset;
  found ← on_dir (cell_dir_get_chunk top sum);
  match found with
  | Some _ => mret false
  | None =>
      on_ic cell_ic_on_entry;;
      cell_body_add sum buffer buffer_size cell_dir_entry_init;;
      on_ic cell_ic_on_exit;;
      mret true
  end.

(** [ch] is the caller's chunk, which [chunk_set] writes. *)
Definition cell_get_chunk (sum : checksum) (ch : chunk) : M cell (option chunk) :=
  top ← gets header_offset;
  found ← on_dir (cell_dir_get_chunk top sum);
  match found with
  | None => mret None
  | Some e =>
      let ptr := de_offset e in
      size ← on_slab (get_size ptr);
      buffer ← on_slab (load_bytes (ptr + sizeof_cell_body_entry) (Z.to_nat size));
      match chunk_set (de_checksum e) buffer size ch with
      | (Ok _, ch) => mret (Some ch)
      | (Err err, _) => throw err
      end
  end.

Definition cell_has_chunk (sum : checksum) : M cell bool :=
  top ← gets header_offset;
  found ← on_dir (cell_dir_get_chunk top sum);
  mret (match found with Some _ => true | None => false end).

Definition cell_entry_count : M cell Z := gets (λ c, cell_header_entry_count (cell_hdr c)).
Definition cell_byte_count : M cell Z := gets (λ c, cell_header_byte_count (cell_hdr c)).

(** [cache_metrics->byte_count += ...]: an [int32_t] added to a [uint64_t]. *)
Definition cell_get_metrics (m : cache_metrics) : M cell cache_metrics :=
  bytes ← cell_byte_count;
  entries ← cell_entry_count;
  mret (CacheMetrics (u64 (metrics_byte_count m + bytes)) (u64 (metrics_entry_count m + entries))).
