(* ===== verification/CellTyped.v ===== *)
(** The types of the structures of a cell: every field within the width the C declaration
    gives it, every array of its length, no byte written outside of the slab.  No function
    of the cell leaves them at any access, in whatever state it finds the cell, none touches
    the magic number, the integrity code or the geometry between [cell_ic_on_entry] and
    [cell_ic_on_exit], and none runs for ever. *)

From S2P Require Import Prelude Monad Trace Slab Checksum CellIc CellDirEntry CellDirBlock CellDirOverflow.
From S2P Require Import CellDir CellBodyEntry CellHeader CellBody CacheMetrics Cell.
From coqutil Require Import Word.LittleEndianList.

(** * The slab and the entries in it *)

Definition word32 (x : Z) : Prop := 0 ≤ x < 4294967296.

Record slab_typed (lim : Z) (s : slab) : Prop := {
  sty_lim : s_lim s = lim;
  sty_mem : map_Forall (λ a _, 0 ≤ a < lim) (s_mem s);
}.

#[export] Hint Extern 5 (_ ≤ _ < _) => lia : stays.
#[export] Hint Resolve u32_bound : stays.

Section slab_typed.
Context (lim : Z).
Abbreviation P := (slab_typed lim).

Lemma slab_typed_wr s a bs :
  P s → in_slab s a (Z.of_nat (length bs)) = true → P (wr s a bs).
Proof.
  intros [Hl Hm] Hin. unfold in_slab in Hin. split; [done|].
  intros i b. simpl. rewrite wr_mem_lookup. case_decide; [lia|]. apply Hm.
Qed.

Lemma load32_stays a : stays P (load32 a) (λ w, 0 ≤ a ∧ a + 4 ≤ lim ∧ word32 w).
Proof.
  apply stays_do. intros s Hs. pose proof (sty_lim _ _ Hs). pose proof (rd32_bound s a).
  destruct (in_slab s a 4) eqn:E; [|done]. unfold in_slab in E. simpl. split_and!; [done|lia..|done].
Qed.
Lemma store32_stays a w : stays P (store32 a w) any.
Proof.
  apply stays_do. intros s Hs. destruct (in_slab s a 4) eqn:E; [|done].
  split; [|done]. apply slab_typed_wr; [done|by rewrite length_le_split].
Qed.
Lemma load_bytes_stays a n : stays P (load_bytes a n) (λ bs, length bs = n).
Proof.
  apply stays_do. intros s Hs. destruct (in_slab s a (Z.of_nat n)); [|done].
  split; [done|]. apply length_rd.
Qed.
Lemma store_bytes_stays a bs : stays P (store_bytes a bs) any.
Proof.
  apply stays_do. intros s Hs. destruct (in_slab s a _) eqn:E; [|done].
  split; [|done]. by apply slab_typed_wr.
Qed.
Lemma load_entry_stays a : stays P (load_entry a) cell_dir_entry_wf.
Proof. apply stays_do. intros s Hs. destruct (in_slab s a 36); [|done]. split; [done|apply de_at_wf]. Qed.
Hint Resolve load32_stays store32_stays load_bytes_stays store_bytes_stays load_entry_stays : stays.

Lemma get_field_stays pos len a :
  0 ≤ len → stays P (get_field pos len a) (λ v, a + 36 ≤ lim ∧ 0 ≤ v < 2 ^ len).
Proof. intros. unfold get_field. stay. pose proof (bf_get_bound pos len a0). lia. Qed.
Lemma set_field_stays pos len a v : stays P (set_field pos len a v) any.
Proof. unfold set_field. stay. Qed.
Hint Resolve set_field_stays : stays.

Lemma get_size_stays a : stays P (get_size a) (λ v, a + 36 ≤ lim ∧ 0 ≤ v < 32768).
Proof. by apply get_field_stays. Qed.
Lemma get_previous_size_stays a : stays P (get_previous_size a) any.
Proof. eapply stays_weaken; [by apply get_field_stays|done]. Qed.
Lemma cell_body_entry_free_stays a : stays P (cell_body_entry_free a) any.
Proof. eapply stays_bind; [by apply get_field_stays|]. intros. by apply stays_ret. Qed.
Lemma cell_body_entry_top_stays a : stays P (cell_body_entry_top a) (λ _, a + 36 ≤ lim).
Proof. eapply stays_bind; [by apply get_field_stays|]. intros ? []. by apply stays_ret. Qed.
Hint Resolve get_size_stays cell_body_entry_top_stays : stays.
Lemma cell_body_next_entry_is_top_stays a : stays P (cell_body_next_entry_is_top a) any.
Proof. unfold cell_body_next_entry_is_top. stay. Qed.
Lemma cell_body_entry_init_stays a : stays P (cell_body_entry_init a) any.
Proof. unfold cell_body_entry_init. stay. Qed.
Lemma cell_body_set_top_stays a : stays P (cell_body_set_top a) any.
Proof. unfold cell_body_set_top, set_free_space, set_top_entry, set_size. stay. Qed.
Lemma memcpy_buffer_stays a bs n : stays P (memcpy_buffer a bs n) any.
Proof. unfold memcpy_buffer, read_buffer. stay. Qed.
Hint Resolve memcpy_buffer_stays : stays.
Lemma cell_body_write_chunk_stays a s bs n : stays P (cell_body_write_chunk a s bs n) any.
Proof. unfold cell_body_write_chunk, set_size, set_free_space. stay. Qed.
Lemma cell_dir_overflow_scan_stays n a s : stays P (cell_dir_overflow_scan n a s) any.
Proof. revert a. induction n; intros a; simpl; stay. Qed.
Lemma memset_entry_stays a : stays P (memset_entry a) any.
Proof. unfold memset_entry. stay. Qed.
End slab_typed.
#[export] Hint Resolve load_bytes_stays store_bytes_stays load_entry_stays set_field_stays
  get_size_stays get_previous_size_stays cell_body_entry_free_stays cell_body_entry_top_stays
  cell_body_next_entry_is_top_stays cell_body_entry_init_stays cell_body_set_top_stays
  memcpy_buffer_stays cell_body_write_chunk_stays cell_dir_overflow_scan_stays
  memset_entry_stays : stays.

(** * The directory *)

Record block_typed (b : cell_dir_block) : Prop := {
  bty_slots : length (entries b) = CELL_DIR_BLOCK_ENTRIES;
  bty_entries : Forall cell_dir_entry_wf (entries b);
  bty_count : 0 ≤ block_entry_count b < 16;
  bty_overflow : 0 ≤ block_overflow_count b < 4096;
}.

Record dir_typed (d : cell_dir) : Prop := {
  dty_length : length (blocks d) = CELL_DIR_BLOCK_COUNT;
  dty_blocks : Forall block_typed (blocks d);
  dty_overflow : 0 ≤ overflow_count (overflow d) < 65536;
}.

Definition ovst_typed (lim : Z) (o : ovst) : Prop :=
  0 ≤ overflow_count o.1 < 65536 ∧ slab_typed lim o.2.
Definition dirst_typed (lim : Z) (d : dirst) : Prop := dir_typed d.1 ∧ slab_typed lim d.2.

Lemma u4_bound x : 0 ≤ u4 x < 16.
Proof. by apply Z.mod_pos_bound. Qed.
Lemma u12_bound x : 0 ≤ u12 x < 4096.
Proof. by apply Z.mod_pos_bound. Qed.
Lemma u16_bound x : 0 ≤ u16 x < 65536.
Proof. by apply Z.mod_pos_bound. Qed.
Lemma s32_bound x : -2147483648 ≤ s32 x < 2147483648.
Proof. unfold s32. pose proof (Z.mod_pos_bound (x + 2147483648) 4294967296). lia. Qed.

Lemma cell_dir_entry_init_wf : cell_dir_entry_wf cell_dir_entry_init.
Proof. done. Qed.
Lemma cell_dir_entry_set_wf e c o : checksum_wf c → cell_dir_entry_wf (cell_dir_entry_set e c o).
Proof.
  intros Hc. pose proof (Z.mod_pos_bound o 2147483648). split_and!; simpl; [done|lia..].
Qed.
#[export] Hint Resolve u4_bound u12_bound u16_bound s32_bound cell_dir_entry_init_wf
  cell_dir_entry_set_wf : stays.

Section dir_typed.
Context (lim : Z).

Lemma cell_dir_block_add_stays e :
  cell_dir_entry_wf e → stays block_typed (cell_dir_block_add e) any.
Proof.
  intros He. unfold cell_dir_block_add. stay; intros b []; split; simpl; auto with stays.
  - by rewrite length_insert.
  - by apply Forall_insert.
Qed.
Lemma cell_dir_block_remove_stays c : stays block_typed (cell_dir_block_remove c) any.
Proof.
  unfold cell_dir_block_remove. stay; intros b []; split; simpl; auto with stays.
  - by rewrite length_insert.
  - by apply Forall_insert.
Qed.
Lemma cell_dir_block_increment_overflow_stays :
  stays block_typed cell_dir_block_increment_overflow any.
Proof.
  unfold cell_dir_block_increment_overflow. stay.
  intros b []. split; simpl; auto with stays.
Qed.
Lemma cell_dir_block_decrement_overflow_stays :
  stays block_typed cell_dir_block_decrement_overflow any.
Proof.
  unfold cell_dir_block_decrement_overflow. stay.
  intros b []. split; simpl; auto with stays.
Qed.

Lemma in_mem_stays {A} (m : M slab A) Q :
  stays (slab_typed lim) m Q → stays (ovst_typed lim) (in_mem m) Q.
Proof. intros H. eapply stays_zoom; [exact H|by intros ? []|]. by intros ? ? [? _] ?. Qed.
Lemma get_count_stays : stays (ovst_typed lim) get_count any.
Proof. by apply stays_gets. Qed.
Lemma set_count_stays n : 0 ≤ n < 65536 → stays (ovst_typed lim) (set_count n) any.
Proof. intros H. apply stays_modify; [|done]. by intros ? [? ?]. Qed.
Hint Resolve in_mem_stays get_count_stays set_count_stays : stays.

Lemma cell_dir_overflow_add_stays t e : stays (ovst_typed lim) (cell_dir_overflow_add t e) any.
Proof. unfold cell_dir_overflow_add. stay. Qed.
Lemma cell_dir_overflow_remove_stays t c : stays (ovst_typed lim) (cell_dir_overflow_remove t c) any.
Proof. unfold cell_dir_overflow_remove. stay. Qed.
Lemma cell_dir_overflow_get_chunk_stays t c :
  stays (ovst_typed lim) (cell_dir_overflow_get_chunk t c) any.
Proof. unfold cell_dir_overflow_get_chunk. stay. Qed.

Lemma at_block_stays {A} k (m : M cell_dir_block A) Q :
  stays block_typed m Q → stays (dirst_typed lim) (at_block k m) Q.
Proof.
  intros H. eapply stays_zoom_opt; [exact H| |].
  - intros [d s] b [[_ Hb _] _] Hk. by eapply Forall_lookup_1.
  - intros [d s] b b' [[Hl Hb Ho] Hs] Hk Hb'. split; [split; simpl|done].
    + by rewrite length_insert.
    + by apply Forall_insert.
    + done.
Qed.
Lemma at_block_gets_stays {A} k (f : cell_dir_block → A) :
  stays (dirst_typed lim) (at_block k (gets f)) any.
Proof. apply at_block_stays. by apply stays_gets. Qed.
Lemma at_overflow_stays {A} (m : M ovst A) Q :
  stays (ovst_typed lim) m Q → stays (dirst_typed lim) (at_overflow m) Q.
Proof.
  intros H. eapply stays_zoom; [exact H| |].
  - by intros [d s] [[] ?].
  - by intros [d s] o [[] ?] [? ?].
Qed.
Hint Resolve cell_dir_block_add_stays cell_dir_block_remove_stays
  cell_dir_block_increment_overflow_stays cell_dir_block_decrement_overflow_stays
  cell_dir_overflow_add_stays cell_dir_overflow_remove_stays cell_dir_overflow_get_chunk_stays
  at_block_stays at_block_gets_stays at_overflow_stays : stays.

Lemma cell_dir_add_stays t e :
  cell_dir_entry_wf e → stays (dirst_typed lim) (cell_dir_add t e) any.
Proof. intros He. unfold cell_dir_add. stay. Qed.
Lemma cell_dir_remove_stays t c : stays (dirst_typed lim) (cell_dir_remove t c) any.
Proof. unfold cell_dir_remove. stay. Qed.
Lemma cell_dir_get_chunk_stays t c : stays (dirst_typed lim) (cell_dir_get_chunk t c) any.
Proof. unfold cell_dir_get_chunk. stay. Qed.
Lemma cell_dir_init_typed : dir_typed cell_dir_init.
Proof. split; [done| |done]. apply Forall_replicate. split; try done. by repeat constructor. Qed.
End dir_typed.
#[export] Hint Resolve cell_dir_add_stays cell_dir_remove_stays cell_dir_get_chunk_stays : stays.

(** * The cell *)

(** A cell whose header says nothing about its contents: only the widths of its fields and
    the geometry, [size] bytes of which the first [lim] are the slab. *)
Record cell_typed (lim size : Z) (c : cell) : Prop := {
  ty_slab : slab_typed lim (cell_slab c);
  ty_size : slab_size c = size;
  ty_magic : word32 (magic (cell_hdr c));
  ty_ic : cell_ic_wf (hdr_ic (cell_hdr c));
  ty_entries : -2147483648 ≤ entry_count (cell_hdr c) < 2147483648;
  ty_bytes : -2147483648 ≤ byte_count (cell_hdr c) < 2147483648;
  ty_top : word32 (top_entry_offset (hdr_body (cell_hdr c)));
  ty_next : word32 (next_entry_offset (hdr_body (cell_hdr c)));
  ty_dir : dir_typed (hdr_dir (cell_hdr c));
}.

(** The same, with the magic number and the integrity code given: what does not change
    while the cell is marked. *)
Definition marked (lim size mg : Z) (ic : cell_ic) (c : cell) : Prop :=
  cell_typed lim size c ∧ magic (cell_hdr c) = mg ∧ hdr_ic (cell_hdr c) = ic.

#[export] Hint Unfold word32 : stays.

Section marked.
Context (lim size mg : Z) (ic : cell_ic).
Abbreviation P := (marked lim size mg ic).

Lemma on_slab_stays {A} (m : M slab A) Q :
  stays (slab_typed lim) m Q → stays P (on_slab m) Q.
Proof.
  intros H. eapply stays_zoom; [exact H|by intros c [[] _]|].
  intros c s [[] [??]] Hs. by split; [split|].
Qed.
Lemma on_dir_stays {A} (m : M dirst A) Q :
  stays (dirst_typed lim) m Q → stays P (on_dir m) Q.
Proof.
  intros H. eapply stays_zoom; [exact H|by intros c [[] _]; split|].
  intros c d [[] [??]] [??]. by split; [split|].
Qed.
Lemma put_counts_stays f g :
  (∀ c, P c → -2147483648 ≤ f c < 2147483648 ∧ -2147483648 ≤ g c < 2147483648) →
  stays P (modify (λ c, put_counts (f c) (g c) c)) any.
Proof.
  intros H. apply stays_modify; [|done]. intros c Hc. destruct (H c Hc). destruct Hc as [[] [??]].
  by split; [split|].
Qed.
Lemma get_top_stays : stays P get_top_offset word32.
Proof. apply stays_gets. by intros c [[] _]. Qed.
Lemma get_next_stays : stays P get_next_offset word32.
Proof. apply stays_gets. by intros c [[] _]. Qed.
Lemma set_top_stays v : word32 v → stays P (set_top_offset v) any.
Proof. intros H. apply stays_modify; [|done]. intros c [[] [??]]. by split; [split|]. Qed.
Lemma set_next_stays v : word32 v → stays P (set_next_offset v) any.
Proof. intros H. apply stays_modify; [|done]. intros c [[] [??]]. by split; [split|]. Qed.
Lemma cell_body_free_space_stays : stays P cell_body_free_space any.
Proof. unfold cell_body_free_space. stay. Qed.
Hint Resolve on_slab_stays on_dir_stays get_top_stays get_next_stays set_top_stays
  set_next_stays cell_body_free_space_stays : stays.

Lemma counts_of c :
  P c → -2147483648 ≤ entry_count (cell_hdr c) < 2147483648 ∧
        -2147483648 ≤ byte_count (cell_hdr c) < 2147483648.
Proof. by intros [[] _]. Qed.

Lemma cell_header_add_stays e n : cell_dir_entry_wf e → stays P (cell_header_add e n) any.
Proof.
  intros He. unfold cell_header_add.
  stay; apply put_counts_stays; intros c Hc; pose proof (counts_of c Hc); auto with stays.
Qed.
Lemma cell_header_remove_stays a : stays P (cell_header_remove a) any.
Proof.
  unfold cell_header_remove.
  stay; apply put_counts_stays; intros c Hc; pose proof (counts_of c Hc); auto with stays.
Qed.
Hint Resolve cell_header_add_stays cell_header_remove_stays : stays.

Lemma cell_body_add_top_stays s bs n e :
  checksum_wf s → cell_dir_entry_wf e →
  stays P (cell_body_add_top s bs n e) (λ r, cell_dir_entry_wf r.2).
Proof.
  intros. unfold cell_body_add_top, set_free_space, set_top_entry, set_size, set_previous_size.
  stay. by apply cell_dir_entry_set_wf.
Qed.
Hint Resolve cell_body_add_top_stays : stays.
Lemma cell_body_push_down_top_stays a s bs n e :
  checksum_wf s → cell_dir_entry_wf e → stays P (cell_body_push_down_top a s bs n e) any.
Proof. intros. unfold cell_body_push_down_top. stay. Qed.
Lemma cell_body_add_dir_entry_stays e n :
  cell_dir_entry_wf e → stays P (cell_body_add_dir_entry e n) any.
Proof. intros. unfold cell_body_add_dir_entry. stay. Qed.
Hint Resolve cell_body_push_down_top_stays cell_body_add_dir_entry_stays : stays.

(** The loop of [cell_body_add_offset] moves on by 36 bytes at least and fails where the
    slab ends. *)
Lemma cell_body_scan_stays fuel : ∀ r f a,
  0 ≤ a → 0 < Z.of_nat fuel → lim < a + 36 * Z.of_nat fuel → stays P (cell_body_scan fuel r f a) any.
Proof.
  induction fuel as [|fuel IH]; intros r f a Ha Hf Hl; [lia|]. cbn [cell_body_scan].
  unfold sizeof_cell_body_entry. stay.
  apply IH; lia.
Qed.
Lemma scan_fuel_stays :
  lim ≤ size → stays P (gets scan_fuel) (λ n, 0 < Z.of_nat n ∧ lim < 36 * Z.of_nat n).
Proof.
  intros Hl. apply stays_gets. intros c [[] _]. unfold scan_fuel, sizeof_cell_body_entry.
  pose proof (Z.div_mod (slab_size c) 36). pose proof (Z.mod_pos_bound (slab_size c) 36). lia.
Qed.

Hint Resolve cell_body_scan_stays scan_fuel_stays : stays.
Hint Extern 5 (_ ≤ _) => unfold word32 in *; lia : stays.
Hint Extern 5 (_ < _) => unfold word32 in *; lia : stays.

Lemma cell_body_add_offset_stays s bs n e :
  lim ≤ size → checksum_wf s → cell_dir_entry_wf e →
  stays P (cell_body_add_offset s bs n e) any.
Proof.
  intros Hl Hs He. unfold cell_body_add_offset, set_free_space, set_top_entry, set_size, set_previous_size.
  stay.
Qed.
Hint Resolve cell_body_add_offset_stays : stays.

Lemma cell_body_add_stays s bs n e :
  lim ≤ size → checksum_wf s → cell_dir_entry_wf e → stays P (cell_body_add s bs n e) any.
Proof.
  intros. unfold cell_body_add. stay.
Qed.
End marked.
#[export] Hint Resolve on_slab_stays on_dir_stays set_top_stays set_next_stays
  cell_body_add_stays : stays.

(** ** The functions of cell.c *)
Section cell_ops.
Context (lim size : Z).
Abbreviation P := (cell_typed lim size).

(** What stays within a mark stays within the types. *)
Lemma stays_marked {A} (m : M cell A) Q :
  (∀ mg ic, stays (marked lim size mg ic) m Q) → stays P m Q.
Proof.
  intros H c Hc. destruct (H (magic (cell_hdr c)) (hdr_ic (cell_hdr c)) c) as (Ht & [] & Hr).
  { done. }
  split_and!; [|done..]. eapply Forall_impl; [exact Ht|]. by intros ? [].
Qed.

Lemma on_ic_stays {A} (m : M cell_ic A) Q : stays cell_ic_wf m Q → stays P (on_ic m) Q.
Proof.
  intros H. eapply stays_zoom; [exact H|by intros c []|]. intros c i [] Hi. by split.
Qed.
Lemma cell_ic_on_entry_stays : stays cell_ic_wf cell_ic_on_entry any.
Proof.
  unfold cell_ic_on_entry. stay. intros i [? ?]. split; simpl; auto with stays.
Qed.
Lemma cell_ic_on_exit_stays : stays cell_ic_wf cell_ic_on_exit any.
Proof. unfold cell_ic_on_exit. stay. intros i [? ?]. by split. Qed.
Hint Resolve on_ic_stays cell_ic_on_entry_stays cell_ic_on_exit_stays : stays.

Lemma lookup_stays s : stays P (top ← gets header_offset; on_dir (cell_dir_get_chunk top s)) any.
Proof. apply stays_marked. intros. stay. Qed.

Lemma cell_add_chunk_stays s bs n :
  lim ≤ size → checksum_wf s → stays P (cell_add_chunk s bs n) any.
Proof.
  intros Hl Hs. unfold cell_add_chunk. stay.
  - apply stays_marked. auto with stays.
  - apply stays_marked. intros. eapply cell_body_add_stays; auto with stays.
Qed.

Lemma cell_has_chunk_stays s : stays P (cell_has_chunk s) any.
Proof. apply stays_marked. intros. unfold cell_has_chunk. stay. Qed.

Lemma chunk_set_fuel s bs n ch e ch' : chunk_set s bs n ch = (Err e, ch') → e ≠ OutOfFuel.
Proof.
  intros H. assert (Hs : stays (λ _, True) (chunk_set s bs n) any)
    by (unfold chunk_set, read_buffer; stay; done).
  destruct (Hs ch I) as (_ & _ & Hr). by rewrite H in Hr.
Qed.

Lemma cell_get_chunk_stays s ch : stays P (cell_get_chunk s ch) any.
Proof.
  apply stays_marked. intros. unfold cell_get_chunk. stay.
  eapply chunk_set_fuel. eassumption.
Qed.

Lemma cell_get_metrics_stays m : stays P (cell_get_metrics m) any.
Proof. unfold cell_get_metrics, cell_byte_count, cell_entry_count. stay. Qed.

Lemma cell_body_init_stays : stays P cell_body_init any.
Proof.
  apply stays_marked. intros. unfold cell_body_init, set_previous_size. stay.
  intros c [[] [??]]. by split; [split|].
Qed.
Hint Resolve cell_body_init_stays : stays.

Lemma cell_header_init_stays : stays P cell_header_init any.
Proof.
  unfold cell_header_init. stay.
  - intros c []. split; try done. simpl. apply cell_dir_init_typed.
  - intros c []. by split.
  - intros c []. split; try done. apply cell_dir_init_typed.
  - intros c []. by split.
Qed.
Hint Resolve cell_header_init_stays : stays.
Lemma cell_init_stays : stays P (cell_init size) any.
Proof. unfold cell_init. stay. intros c []. by split. Qed.
End cell_ops.
