(* ===== verification/CellSpec.v ===== *)
(** What a cell promises to its users: the invariant of a cell, the chunks it holds as a
    finite map, and the effect of each function of cell.c on them. *)

From S2P Require Import Prelude Monad Trace Slab Checksum CellIc CellDirEntry CellDirBlock CellDirOverflow.
From S2P Require Import CellDir CellBodyEntry CellHeader CellState CellBody CellLayout.
From S2P Require Import CellBodySpec CellRing CacheMetrics Cell CellTyped.

(** * The invariant *)

(** Every field within its width, for the size the cell has. *)
Definition well_typed (c : cell) : Prop := cell_typed (header_offset c) (slab_size c) c.

Record cell_inv (smin smax : Z) (c : cell) (pre suf : list bentry) : Prop := {
  ci_magic : magic (cell_hdr c) = CELL_HEADER_MAGIC;
  ci_ic : cell_ic_sane (hdr_ic (cell_hdr c)) = true;
  ci_typed : well_typed c;
  ci_body : body_inv smin smax c pre suf;
}.

(** The chunks by checksum. *)
Definition contents (es : list bentry) : gmap checksum (list byte) :=
  list_to_map ((λ b, (b_sum b, b_data b)) <$> live es).

(** A caller's chunk: [buffer_size] bytes at [buffer]. *)
Definition chunk_of (sum : checksum) (buffer : list byte) (buffer_size : Z) : bentry :=
  BEntry sum false (take (Z.to_nat buffer_size) buffer).

Record arg_ok (smin smax : Z) (sum : checksum) (buffer : list byte) (buffer_size : Z) : Prop := {
  ao_sum : checksum_wf sum;
  ao_size : smin ≤ buffer_size ≤ smax;
  ao_buffer : buffer_size ≤ Z.of_nat (length buffer);
}.

Section contents.
Implicit Types es : list bentry.

Lemma contents_keys es : ((λ b, (b_sum b, b_data b)) <$> live es).*1 = b_sum <$> live es.
Proof. by rewrite <-list_fmap_compose. Qed.

Lemma contents_Some es s d :
  NoDup (b_sum <$> live es) →
  contents es !! s = Some d ↔ ∃ b, b ∈ live es ∧ b_sum b = s ∧ b_data b = d.
Proof.
  intros Hnd. unfold contents. rewrite <-elem_of_list_to_map by by rewrite contents_keys.
  rewrite list_elem_of_fmap. split.
  - intros (b & [= -> ->] & ?). eauto.
  - intros (b & ? & <- & <-). by exists b.
Qed.

Lemma contents_None es s : contents es !! s = None ↔ s ∉ b_sum <$> live es.
Proof. unfold contents. by rewrite <-not_elem_of_list_to_map, contents_keys. Qed.

Lemma body_inv_nodup smin smax c pre suf :
  body_inv smin smax c pre suf → NoDup (b_sum <$> live (pre ++ suf)).
Proof. intros [_ [H _ _ _] _]. rewrite <-(live_at_lsum 0). apply H. Qed.

Lemma arg_chunk_ok smin smax sum buffer n :
  0 ≤ smin → smax ≤ 32732 → arg_ok smin smax sum buffer n →
  let b := chunk_of sum buffer n in
  chunk_ok b buffer ∧ b_size b = n ∧ smin ≤ b_size b ≤ smax.
Proof.
  intros ?? [Hs Hn Hb] b. assert (Hsz : b_size b = n).
  { unfold b_size, b, chunk_of; cbn [b_data]. rewrite length_take. lia. }
  split; [|lia]. split; [done|done|lia|].
  unfold b, chunk_of; cbn [b_data]. rewrite length_take. f_equal. lia.
Qed.
End contents.

(** * The operations *)
Section ops.
Context (smin smax : Z).
Implicit Types c : cell.

(** What a lookup in the directory finds. *)
Lemma cell_lookup c pre suf s :
  body_inv smin smax c pre suf → checksum_wf s →
  ∃ r, on_dir (cell_dir_get_chunk (header_offset c) s) c = (Ok r, c) ∧
    match r with
    | Some e => ∃ p b q, pre ++ suf = p ++ b :: q ∧ is_live b ∧ b_sum b = s
                 ∧ de_checksum e = s ∧ de_offset e = span p
    | None => s ∉ b_sum <$> live (pre ++ suf)
    end.
Proof.
  intros Hinv Hs. pose proof (body_inv_nodup _ _ _ _ _ Hinv) as Hnd.
  destruct Hinv as [_ [H _ _ _] _].
  destruct (cell_dir_get_chunk_spec _ _ _ s (dc_dir _ _ H) Hs) as (r & Hr & Hcase).
  exists r. split; [by apply on_dir_read|]. destruct r as [e|].
  - destruct Hcase as [He Hd]. apply refs_Some in Hd as (b & Hin & Hb); [|apply H].
    apply elem_of_live_at in Hin as (p & q & Heq & Ho & Hl).
    exists p, b, q. rewrite Ho, Z.add_0_l. done.
  - rewrite <-(live_at_lsum 0). intros Hin. apply list_elem_of_fmap in Hin as ([o b] & -> & Hin).
    pose proof (proj2 (refs_Some _ _ _ (dc_nodup _ _ H)) (ex_intro _ b (conj Hin eq_refl))) as Hd.
    unfold lsum in Hcase. cbn [snd] in Hcase. congruence.
Qed.

(** What a lookup finds in between, when the directory refers to [lv]. *)
Lemma dcore_has_chunk c lv s :
  dcore c lv → checksum_wf s → cell_has_chunk s c = (Ok (bool_decide (s ∈ lsum <$> lv)), c).
Proof.
  intros H Hs. destruct (cell_dir_get_chunk_spec _ _ _ s (dc_dir _ _ H) Hs) as (r & Hr & Hcase).
  unfold cell_has_chunk. mnorm. mrun by (apply on_dir_read, Hr). rewrite run_ret. do 2 f_equal.
  destruct r as [e|].
  - destruct Hcase as [_ Hd]. apply refs_Some in Hd as (b & Hin & <-); [|apply H].
    rewrite bool_decide_true; [done|]. by apply (list_elem_of_fmap_2 lsum _ (de_offset e, b)).
  - rewrite bool_decide_false; [done|]. intros ([o b] & -> & Hin)%list_elem_of_fmap.
    pose proof (proj2 (refs_Some _ _ _ (dc_nodup _ _ H)) (ex_intro _ b (conj Hin eq_refl))) as Hd.
    unfold lsum in Hcase. cbn [snd] in Hcase. congruence.
Qed.

Lemma found_contents c pre suf p b q :
  body_inv smin smax c pre suf → pre ++ suf = p ++ b :: q → is_live b →
  contents (pre ++ suf) !! b_sum b = Some (b_data b).
Proof.
  intros Hinv Heq Hb. apply contents_Some; [by eapply body_inv_nodup|].
  exists b. split; [|done]. rewrite Heq, live_app. apply elem_of_app. right.
  unfold live. rewrite filter_cons_True by done. by left.
Qed.

Lemma cell_has_chunk_spec c pre suf s :
  body_inv smin smax c pre suf → checksum_wf s →
  cell_has_chunk s c = (Ok (bool_decide (is_Some (contents (pre ++ suf) !! s))), c).
Proof.
  intros Hinv Hs. destruct (cell_lookup _ _ _ _ Hinv Hs) as (r & Hr & Hcase).
  unfold cell_has_chunk. mnorm. mrun by exact Hr. rewrite run_ret. do 2 f_equal.
  destruct r as [e|].
  - destruct Hcase as (p & b & q & Heq & Hb & <- & _).
    rewrite bool_decide_true; [done|]. erewrite found_contents by done. by eexists.
  - apply contents_None in Hcase. rewrite bool_decide_false; [done|].
    rewrite Hcase. by intros [? ?].
Qed.

Lemma cell_get_chunk_spec c pre suf s ch :
  body_inv smin smax c pre suf → checksum_wf s →
  match contents (pre ++ suf) !! s with
  | Some d => ∃ ch', cell_get_chunk s ch c = (Ok (Some ch'), c)
               ∧ chunk_checksum ch' = s ∧ chunk_data ch' = d
               ∧ chunk_buffer_size ch' = Z.of_nat (length d)
  | None => cell_get_chunk s ch c = (Ok None, c)
  end.
Proof.
  intros Hinv Hs. destruct (cell_lookup _ _ _ _ Hinv Hs) as (r & Hr & Hcase).
  destruct r as [e|].
  2: { rewrite (proj2 (contents_None _ _) Hcase). unfold cell_get_chunk. mnorm. by mrun by exact Hr. }
  destruct Hcase as (p & b & q & Heq & Hb & <- & Hes & Heo).
  rewrite (found_contents _ _ _ _ _ _ Hinv Heq Hb).
  destruct Hinv as [Hct [H Hlay Htop _] _]. rewrite Heq in Hlay, Htop.
  rewrite span_app in Htop. cbn [span] in Htop.
  pose proof (layout_entry _ _ _ _ Hlay) as He. pose proof (entry_at_size _ _ _ _ He) as Hsz.
  destruct He as [He Hd]. pose proof (b_size_nonneg b). pose proof (span_nonneg p). pose proof (span_nonneg q).
  pose proof (dc_room _ _ H). pose proof (dcore_count _ _ H). pose proof (dc_lim _ _ H).
  pose proof (b_span_pos b).
  destruct (chunk_set_ok (b_sum b) (b_data b) (b_size b) ch) as (ch' & Hset & Hc & Hn & Hdat & _);
    [unfold CHUNK_MAX_BUFFER_SIZE; lia|unfold b_size; lia|].
  exists ch'. split_and!; [|done| |done].
  - unfold cell_get_chunk. mnorm. mrun by exact Hr. rewrite Heo, Hes.
    mrun by (apply on_slab_read, get_size_ok; lia). rewrite He. cbn [be_size].
    unfold sizeof_cell_body_entry.
    mrun by (apply on_slab_read, load_bytes_ok; [lia|unfold b_span in *; lia]).
    replace (Z.to_nat (b_size b)) with (length (b_data b)) by (unfold b_size; lia).
    rewrite Hd, Hset. done.
  - rewrite Hdat. unfold b_size. by rewrite Nat2Z.id, firstn_all.
Qed.

Lemma cell_counts_spec c pre suf :
  body_inv smin smax c pre suf →
  cell_entry_count c = (Ok (Z.of_nat (length (live (pre ++ suf)))), c) ∧
  cell_byte_count c = (Ok (span (live (pre ++ suf)) - 36 * Z.of_nat (length (live (pre ++ suf)))), c).
Proof.
  intros [_ [H _ _ _] _]. unfold cell_entry_count, cell_byte_count. rewrite !run_gets.
  unfold cell_header_entry_count, cell_header_byte_count.
  rewrite (dc_count _ _ H), (dc_bytes _ _ H). unfold lbytes.
  by rewrite <-(length_fmap snd (live_at _ _)), live_at_snd.
Qed.

(** The invariant of the body does not depend on the integrity code. *)
Lemma body_inv_put_ic i c pre suf :
  body_inv smin smax c pre suf → body_inv smin smax (put_ic i c) pre suf.
Proof.
  intros [Hct [[] Hlay Htop Hnext] Hwf]. split; [done| |done]. split; [|done..]. by split.
Qed.

Lemma put_ic_typed i c : cell_ic_wf i → well_typed c → well_typed (put_ic i c).
Proof. intros Hi []. by split. Qed.

Lemma cell_ic_entry_insane c :
  cell_ic_wf (hdr_ic (cell_hdr c)) → cell_ic_sane (hdr_ic (cell_hdr c)) = true →
  ∃ v c', on_ic cell_ic_on_entry c = (Ok v, c') ∧ c' = put_ic (hdr_ic (cell_hdr c')) c
    ∧ cell_ic_sane (hdr_ic (cell_hdr c')) = false ∧ cell_ic_wf (hdr_ic (cell_hdr c')).
Proof.
  unfold cell_ic_sane, cell_ic_wf. intros [He Hx] Hs. do 2 eexists. split; [done|]. simpl.
  pose proof (u32_succ_ne _ He). split_and!; [done|lia| | |lia..].
  all: unfold u32; pose proof (Z.mod_pos_bound (entry_code (hdr_ic (cell_hdr c)) + 1) 4294967296); lia.
Qed.

Lemma cell_ic_on_exit_run c :
  on_ic cell_ic_on_exit c =
    (Ok (entry_code (hdr_ic (cell_hdr c))),
     put_ic (CellIc (entry_code (hdr_ic (cell_hdr c))) (entry_code (hdr_ic (cell_hdr c)))) c).
Proof. done. Qed.

(** The start of [cell_add_chunk] for a chunk the cell does not have. *)
Lemma cell_add_chunk_enter c pre suf s buffer n :
  cell_inv smin smax c pre suf → checksum_wf s → contents (pre ++ suf) !! s = None →
  ∃ i, let c1 := put_ic i c in
    cell_ic_sane i = false ∧ cell_ic_wf i ∧ body_inv smin smax c1 pre suf ∧
    cell_add_chunk s buffer n c =
      (cell_body_add s buffer n cell_dir_entry_init;; on_ic cell_ic_on_exit;; mret true) c1.
Proof.
  intros [Hmagic Hic Hty Hinv] Hs Hnone. pose proof (ty_ic _ _ _ Hty) as Hwf.
  destruct (cell_lookup _ _ _ s Hinv Hs) as (r & Hr & Hcase).
  destruct r as [e|].
  { destruct Hcase as (p & b & q & Heq & Hb & <- & _). by erewrite found_contents in Hnone by done. }
  destruct (cell_ic_entry_insane c Hwf Hic) as (v & c1 & Hen & Hc1 & Hin & Hwf1).
  exists (hdr_ic (cell_hdr c1)). cbv zeta. rewrite <-Hc1. split_and!; [done|done| |].
  - rewrite Hc1. by apply body_inv_put_ic.
  - unfold cell_add_chunk. mnorm. mrun by exact Hr. by mrun by exact Hen.
Qed.

(** What the body does to it is typed, and stays marked. *)
Lemma cell_body_add_typed s buffer n c i :
  cell_ic_wf i → well_typed c → checksum_wf s →
  let c' := (cell_body_add s buffer n cell_dir_entry_init (put_ic i c)).2 in
  well_typed c' ∧ hdr_ic (cell_hdr c') = i ∧ magic (cell_hdr c') = magic (cell_hdr c)
  ∧ slab_size c' = slab_size c.
Proof.
  intros Hi Hty Hs. pose proof (put_ic_typed i c Hi Hty) as Hty1. unfold well_typed in *.
  assert (Hst := cell_body_add_stays (header_offset c) (slab_size c) (magic (cell_hdr c)) i
    s buffer n cell_dir_entry_init).
  destruct (Hst ltac:(unfold header_offset; change sizeof_cell_header with 28704; lia) Hs
    cell_dir_entry_init_wf (put_ic i c)) as (_ & (Hty' & Hm & Hic) & _); [by split|].
  cbv zeta. unfold header_offset in *. by rewrite (ty_size _ _ _ Hty').
Qed.

(** And its end. *)
Lemma cell_add_chunk_leave i c c' e' pre' suf' s buffer n :
  magic (cell_hdr c) = CELL_HEADER_MAGIC → cell_ic_wf i → well_typed c → checksum_wf s →
  cell_body_add s buffer n cell_dir_entry_init (put_ic i c) = (Ok e', c') →
  keeps_ic (put_ic i c) c' → body_inv smin smax c' pre' suf' →
  ∃ c'', (cell_body_add s buffer n cell_dir_entry_init;; on_ic cell_ic_on_exit;; mret true)
           (put_ic i c) = (Ok true, c'')
    ∧ cell_inv smin smax c'' pre' suf' ∧ slab_size c'' = slab_size c.
Proof.
  intros Hm Hwf Hty Hsum Hrun (Hm' & Hi & Hs) Hinv.
  pose proof (cell_body_add_typed s buffer n c i Hwf Hty Hsum) as [Hty' _]. rewrite Hrun in Hty'.
  simpl in Hty'.
  exists (put_ic (CellIc (entry_code i) (entry_code i)) c'). split_and!.
  - mrun by exact Hrun. mrun by (apply cell_ic_on_exit_run). by rewrite Hi.
  - split; [simpl; by rewrite Hm'|by unfold cell_ic_sane; apply Z.eqb_refl| |by apply body_inv_put_ic].
    apply put_ic_typed; [split; apply Hwf|done].
  - simpl. by rewrite Hs.
Qed.

(** [cell_add_chunk]: a known checksum changes nothing; a new chunk is a step of the
    ring between two consistent states of the cell.  Where the body is stuck the
    process stops, and the integrity code tells so. *)
Lemma cell_add_chunk_spec c pre suf s buffer n :
  cell_inv smin smax c pre suf → arg_ok smin smax s buffer n →
  (is_Some (contents (pre ++ suf) !! s) ∧ cell_add_chunk s buffer n c = (Ok false, c)) ∨
  (contents (pre ++ suf) !! s = None ∧
   let b := chunk_of s buffer n in
   ((stuck c b suf ∨ suf = [] ∧ room c < 36 ∧ stuck c b pre) ∧
    ∃ c', cell_add_chunk s buffer n c = (Err AssertFail, c')
      ∧ cell_ic_sane (hdr_ic (cell_hdr c')) = false
      ∧ slab_size c' = slab_size c ∧ well_typed c') ∨
   ∃ c' pre' suf', cell_add_chunk s buffer n c = (Ok true, c')
     ∧ ring_step b pre suf pre' suf' ∧ cell_inv smin smax c' pre' suf'
     ∧ slab_size c' = slab_size c).
Proof.
  intros Hci Harg. pose proof Hci as [Hmagic Hic Hty Hinv].
  pose proof (bi_contract _ _ _ _ _ Hinv) as Hct.
  destruct (arg_chunk_ok smin smax s buffer n) as (Hck & Hsz & Hbs); [destruct Hct; lia..|done|].
  destruct (contents (pre ++ suf) !! s) as [d|] eqn:Hc.
  { left. split; [by eexists|].
    destruct (cell_lookup _ _ _ s Hinv (ao_sum _ _ _ _ _ Harg)) as (r & Hr & Hcase).
    destruct r as [e|]; [|apply contents_None in Hcase; congruence].
    unfold cell_add_chunk. mnorm. by mrun by exact Hr. }
  right. split; [done|]. intros b.
  destruct (cell_add_chunk_enter c pre suf s buffer n Hci (ao_sum _ _ _ _ _ Harg) Hc)
    as (i & Hin & Hwf1 & Hinv1 & Hrun).
  destruct (cell_body_add_typed s buffer n c i Hwf1 Hty (ao_sum _ _ _ _ _ Harg)) as (Hty' & Hi' & _ & Hs').
  apply contents_None in Hc.
  destruct (cell_body_add_spec smin smax _ pre suf b buffer cell_dir_entry_init Hinv1 Hck Hbs Hc)
    as [[Hst Herr]|(c' & e' & pre' & suf' & Hok & Hstep & Hinv' & Hk)];
    unfold b in *; rewrite Hsz in *; change (b_sum (chunk_of s buffer n)) with s in *.
  - left. destruct (cell_body_add s buffer n cell_dir_entry_init (put_ic i c)) as [r c'] eqn:E.
    simpl in Herr, Hty', Hi', Hs'. subst r. split; [done|].
    exists c'. split_and!; [|by rewrite Hi'|done..]. rewrite Hrun. by rewrite (bind_err _ _ _ _ _ E).
  - right. destruct (cell_add_chunk_leave i c c' e' pre' suf' s buffer n) as (c'' & Hr & Hi & Hs);
      try done; [apply Harg|].
    exists c'', pre', suf'. split_and!; [by rewrite Hrun|done..].
Qed.

(** A consistent cell whose ring has no place for the new chunk [b]. *)
Definition ring_stuck c (b : bentry) : Prop :=
  ∃ pre suf, cell_inv smin smax c pre suf ∧ contents (pre ++ suf) !! b_sum b = None ∧
    (stuck c b suf ∨ suf = [] ∧ room c < 36 ∧ stuck c b pre).

(** An addition stops in no other case, and with no other error. *)
Lemma cell_add_chunk_stops c pre suf s buffer n e c' :
  cell_inv smin smax c pre suf → arg_ok smin smax s buffer n →
  cell_add_chunk s buffer n c = (Err e, c') → e = AssertFail ∧ ring_stuck c (chunk_of s buffer n).
Proof.
  intros Hinv Harg Hrun. destruct (cell_add_chunk_spec c pre suf s buffer n Hinv Harg)
    as [[_ Hr]|[Hn [(Hst & c2 & Hr & _)|(c2 & pre' & suf' & Hr & _)]]]; rewrite Hrun in Hr; [done| |done].
  injection Hr as -> _. split; [done|]. by exists pre, suf.
Qed.

(** In the first lap, with room for it, a new chunk is appended. *)
Lemma cell_add_chunk_append c pre s buffer n :
  cell_inv smin smax c pre [] → arg_ok smin smax s buffer n →
  contents pre !! s = None → n + 72 ≤ room c →
  ∃ c', cell_add_chunk s buffer n c = (Ok true, c')
    ∧ cell_inv smin smax c' (pre ++ [chunk_of s buffer n]) [] ∧ slab_size c' = slab_size c.
Proof.
  intros Hci Harg Hc Hroom. pose proof Hci as [Hmagic Hic Hty Hinv].
  pose proof (bi_contract _ _ _ _ _ Hinv) as Hct.
  destruct (arg_chunk_ok smin smax s buffer n) as (Hck & Hsz & Hbs); [destruct Hct; lia..|done|].
  destruct (cell_add_chunk_enter c pre [] s buffer n Hci (ao_sum _ _ _ _ _ Harg)) as (i & _ & Hwf1 & Hinv1 & ->);
    [by rewrite app_nil_r|].
  destruct (cell_body_add_append smin smax _ pre (chunk_of s buffer n) buffer cell_dir_entry_init Hinv1 Hck Hbs)
    as (c' & e' & Hrun & Hinv' & Hk).
  - rewrite app_nil_r. by apply contents_None.
  - by rewrite Hsz.
  - rewrite Hsz in Hrun. eapply cell_add_chunk_leave; try done. apply Harg.
Qed.
End ops.

(** * cell_init and what survives *)
Section init.
Context (smin smax : Z).
Implicit Types c : cell.

(** The memory a cell is opened on: a slab with a header at its end. *)
Record slab_ok (c : cell) : Prop := {
  so_typed : well_typed c;
  so_width : slab_size c < 2147483648;
  so_contract : contract smin smax (header_offset c);
}.

Lemma slab_ok_typed c c' : slab_ok c → slab_size c' = slab_size c → well_typed c' → slab_ok c'.
Proof. intros [_ ? ?] Hs ?. split; [done|by rewrite Hs|]. unfold header_offset. by rewrite Hs. Qed.

Lemma cell_inv_slab_ok c pre suf : cell_inv smin smax c pre suf → slab_ok c.
Proof. intros [_ _ Hty [Hct [H _ _ _] _]]. split; [done|apply H|done]. Qed.

Lemma cell_inv_sane c pre suf : cell_inv smin smax c pre suf → cell_header_sane (cell_hdr c) = true.
Proof. intros [Hm Hi _ _]. unfold cell_header_sane. by rewrite Hm, Hi. Qed.

Lemma cell_header_init_spec c :
  slab_ok c → ∃ c', cell_header_init c = (Ok tt, c') ∧ cell_inv smin smax c' [] []
    ∧ slab_size c' = slab_size c.
Proof.
  intros [Hty Hw Hct]. pose proof (sty_lim _ _ (ty_slab _ _ _ Hty)) as Hlim. pose proof (ct_room _ _ _ Hct). pose proof (ct_max _ _ _ Hct).
  pose proof (ct_min _ _ _ Hct).
  destruct (new_top_spec 0 0 (cell_slab c)) as (s & Hrun & Hm & Htop); [lia..|].
  set (h := CellHeader CELL_HEADER_MAGIC 0 0 cell_ic_init (CellBody 0 0) cell_dir_init).
  assert (Hinit : cell_header_init c = (Ok tt, Cell h s (slab_size c))).
  { assert (Hbody : ∀ c0, cell_slab c0 = cell_slab c →
      cell_body_init c0 = (Ok tt, put_body (CellBody 0 0) (put_slab s c0))).
    { intros c0 Heq. unfold cell_body_init, set_top_offset, set_next_offset. mnorm.
      rewrite on_slab_seq. mrun by (apply on_slab_ok; simpl; rewrite Heq; exact Hrun). done. }
    unfold cell_header_init. mnorm. by mrun by (by apply Hbody). }
  pose proof (stays_final _ _ _ _ (cell_header_init_stays (header_offset c) (slab_size c)) Hty) as Hty'.
  rewrite Hinit in Hty'. exists (Cell h s (slab_size c)). split_and!; [done| |done].
  assert (Hho : header_offset (Cell h s (slab_size c)) = header_offset c) by done.
  split; [done..|]. split; [by rewrite Hho| |split; done].
  split; [|split; [done|exact Htop]|done|done].
  split; rewrite ?Hho; try done.
  - by rewrite <-Hlim, <-(modifies_lim _ _ _ _ Hm).
  - apply cell_dir_init_rep; cbn [cell_slab]; rewrite ?(modifies_lim _ _ _ _ Hm); lia.
  - constructor.
  - unfold lspan. simpl. lia.
  - unfold top_of, ovc, ov_count. simpl. lia.
Qed.

Lemma put_slab_size_same c : put_slab_size (slab_size c) c = c.
Proof. by destruct c. Qed.

(** [cell_init] of a slab that is not marked consistent starts an empty cell; of a
    consistent one it changes nothing. *)
Lemma cell_init_fresh c :
  slab_ok c → cell_header_sane (cell_hdr c) = false →
  ∃ c', cell_init (slab_size c) c = (Ok tt, c') ∧ cell_inv smin smax c' [] [] ∧ slab_size c' = slab_size c.
Proof.
  intros Hok Hs. destruct (cell_header_init_spec c Hok) as (c' & Hrun & Hinv & Hsz).
  pose proof (ct_room _ _ _ (so_contract _ Hok)). pose proof (ct_max _ _ _ (so_contract _ Hok)).
  pose proof (ct_min _ _ _ (so_contract _ Hok)). unfold header_offset in *.
  exists c'. split; [|done]. unfold cell_init.
  rewrite bind_ALWAYS by lia. mnorm. rewrite put_slab_size_same. by rewrite Hs.
Qed.

Lemma cell_init_keeps c :
  slab_ok c → cell_header_sane (cell_hdr c) = true → cell_init (slab_size c) c = (Ok tt, c).
Proof.
  intros Hok Hs.
  pose proof (ct_room _ _ _ (so_contract _ Hok)). pose proof (ct_max _ _ _ (so_contract _ Hok)).
  pose proof (ct_min _ _ _ (so_contract _ Hok)). unfold header_offset in *.
  unfold cell_init. rewrite bind_ALWAYS by lia. mnorm. rewrite put_slab_size_same. by rewrite Hs.
Qed.
End init.
