(* ===== verification/CellCrash.v ===== *)
(** Processes that die inside of a function of cell.c: what they leave in the memory, and
    what [cell_init] makes of it. *)

From S2P Require Import Prelude Monad Trace Slab Checksum CellIc CellDirEntry CellDirBlock CellDirOverflow.
From S2P Require Import CellDir CellBodyEntry CellHeader CellState CellBody CellLayout.
From S2P Require Import CellBodySpec CellRing CacheMetrics Cell CellTyped CellSpec.

(** * Lookups do not write *)
Section lookups.
Lemma load32_reads a : reads (load32 a).
Proof. apply reads_do. intros s. by destruct (in_slab _ _ _). Qed.
Lemma load_bytes_reads a n : reads (load_bytes a n).
Proof. apply reads_do. intros s. by destruct (in_slab _ _ _). Qed.
Lemma load_entry_reads a : reads (load_entry a).
Proof. apply reads_do. intros s. by destruct (in_slab _ _ _). Qed.
Hint Resolve load32_reads load_bytes_reads load_entry_reads : reads.
Lemma cell_dir_overflow_scan_reads n a s : reads (cell_dir_overflow_scan n a s).
Proof. revert a. induction n; intros a; simpl; read. Qed.
Hint Resolve cell_dir_overflow_scan_reads : reads.
Lemma cell_dir_get_chunk_reads t s : reads (on_dir (cell_dir_get_chunk t s)).
Proof.
  apply reads_zoom. unfold cell_dir_get_chunk, at_block, at_overflow, cell_dir_overflow_get_chunk,
    get_count, in_mem. read; apply reads_zoom; read.
Qed.
Hint Resolve cell_dir_get_chunk_reads : reads.

Lemma cell_has_chunk_reads s : reads (cell_has_chunk s).
Proof. unfold cell_has_chunk. read. Qed.
Lemma cell_get_chunk_reads s ch : reads (cell_get_chunk s ch).
Proof.
  unfold cell_get_chunk, on_slab, get_size, get_field. read.
  { apply reads_zoom. read. }
  apply reads_throw. by eapply chunk_set_fuel.
Qed.
End lookups.

(** * What a process leaves that dies in a cell *)

(** A state between two: 32-bit words are written whole; whatever else the access changes
    (an entry, an array, the bytes of a [memcpy]) may hold anything of its type, and what it
    does not change is as it was. *)
Record cell_torn (a b t : cell) : Prop := {
  tn_typed : cell_typed (s_lim (cell_slab a)) (slab_size a) t;
  tn_magic : magic (cell_hdr t) = magic (cell_hdr a) ∨ magic (cell_hdr t) = magic (cell_hdr b);
  tn_entry : entry_code (hdr_ic (cell_hdr t)) = entry_code (hdr_ic (cell_hdr a))
           ∨ entry_code (hdr_ic (cell_hdr t)) = entry_code (hdr_ic (cell_hdr b));
  tn_exit : exit_code (hdr_ic (cell_hdr t)) = exit_code (hdr_ic (cell_hdr a))
          ∨ exit_code (hdr_ic (cell_hdr t)) = exit_code (hdr_ic (cell_hdr b));
  tn_entries : entry_count (cell_hdr a) = entry_count (cell_hdr b) →
               entry_count (cell_hdr t) = entry_count (cell_hdr a);
  tn_bytes : byte_count (cell_hdr a) = byte_count (cell_hdr b) →
             byte_count (cell_hdr t) = byte_count (cell_hdr a);
  tn_body : hdr_body (cell_hdr a) = hdr_body (cell_hdr b) →
            hdr_body (cell_hdr t) = hdr_body (cell_hdr a);
  tn_dir : hdr_dir (cell_hdr a) = hdr_dir (cell_hdr b) →
           hdr_dir (cell_hdr t) = hdr_dir (cell_hdr a);
  tn_slab : cell_slab a = cell_slab b → cell_slab t = cell_slab a;
}.

(** The states a call on a cell can leave if its process dies in it. *)
Definition cell_dies {A} (m : M cell A) (c t : cell) : Prop := dies cell_torn c (trace m c) t.

Section torn.
Implicit Types c t : cell.

(** An access that writes one code only leaves the old or the new state. *)
Lemma torn_ic c i t :
  entry_code i = entry_code (hdr_ic (cell_hdr c)) ∨ exit_code i = exit_code (hdr_ic (cell_hdr c)) →
  cell_torn c (put_ic i c) t → t = c ∨ t = put_ic i c.
Proof.
  intros Hi [Hty Hm He Hx Hn Hb Hbd Hd Hs].
  destruct c as [[m n b [e x] bd d] s z], i as [e' x'], t as [[mt nt bt [et xt] bdt dt] st zt].
  unfold put_ic, put_hdr in *; simpl in *. pose proof (ty_size _ _ _ Hty) as Hz. simpl in Hz.
  rewrite Hn, Hb, Hbd, Hd, Hs, Hz by done.
  assert (mt = m) as -> by tauto.
  destruct Hi as [-> | ->], He as [-> | ->], Hx as [-> | ->]; auto.
Qed.

Lemma torn_put_ic c i :
  cell_ic_wf i → well_typed c → cell_torn c (put_ic i c) (put_ic i c).
Proof.
  intros Hi Hty. pose proof (put_ic_typed i c Hi Hty) as Hty'. unfold well_typed in *.
  split; auto. by rewrite (sty_lim _ _ (ty_slab _ _ _ Hty)).
Qed.

Lemma put_ic_same c : put_ic (hdr_ic (cell_hdr c)) c = c.
Proof. by destruct c as [[]]. Qed.

Lemma torn_same c t : cell_torn c c t → t = c.
Proof.
  intros H. pose proof (put_ic_same c) as Hc.
  destruct (torn_ic c (hdr_ic (cell_hdr c)) t) as [->| ->]; rewrite ?Hc; auto.
Qed.

(** A process can die before its next access. *)
Lemma cell_dies_start {A} (m : M cell A) c : well_typed c → cell_dies m c c.
Proof.
  intros Hty. unfold cell_dies. destruct (trace m c) as [|y l]; [done|]. left.
  unfold well_typed in Hty. split; auto. by rewrite (sty_lim _ _ (ty_slab _ _ _ Hty)).
Qed.

Lemma dies_reads {A} (m : M cell A) c t : reads m → cell_dies m c t → t = c.
Proof. apply dies_only_reads, torn_same. Qed.
End torn.

(** * Dying in cell_add_chunk *)
Lemma marked_typed c i :
  well_typed c → cell_ic_wf i →
  marked (header_offset c) (slab_size c) (magic (cell_hdr c)) i (put_ic i c).
Proof. intros Hty Hi. split; [by apply put_ic_typed|done]. Qed.

(** It can die with nothing done but the mark set. *)
Definition entered (c : cell) : cell :=
  put_ic (CellIc (u32 (entry_code (hdr_ic (cell_hdr c)) + 1)) (exit_code (hdr_ic (cell_hdr c)))) c.

Lemma entered_typed c : well_typed c → well_typed (entered c).
Proof.
  intros Hty. apply put_ic_typed; [|done]. split; [apply u32_bound|apply (ty_ic _ _ _ Hty)].
Qed.

Lemma cell_add_chunk_dies_entered c s buffer n :
  well_typed c → cell_has_chunk s c = (Ok false, c) →
  cell_dies (cell_add_chunk s buffer n) c (entered c).
Proof.
  intros Hty Hhas. unfold cell_has_chunk in Hhas. rewrite bind_gets in Hhas.
  apply bind_inv in Hhas as (found & c1 & Hf & Hr). injection Hr as Hr ->. destruct found; [done|].
  unfold cell_add_chunk, cell_dies. eapply dies_after; [done|]. eapply dies_after; [exact Hf|].
  cbn iota. rewrite trace_bind. unfold on_ic at 1. rewrite trace_zoom. left.
  apply torn_put_ic; [|done]. split; [apply u32_bound|apply (ty_ic _ _ _ Hty)].
Qed.

(** * Dying in cell_init *)
Section init.
Context (smin smax : Z).
Implicit Types c t : cell.

(** What [cell_header_init] passes through has no magic number yet. *)
Definition unfinished (lim size : Z) (c : cell) : Prop :=
  cell_typed lim size c ∧ magic (cell_hdr c) = 0.

Lemma cell_body_init_unfinished lim size : stays (unfinished lim size) cell_body_init any.
Proof.
  intros c [Hty Hm].
  assert (H : stays (marked lim size 0 (hdr_ic (cell_hdr c))) cell_body_init any).
  { unfold cell_body_init, set_previous_size. stay. intros x [[] [??]]. by split; [split|]. }
  destruct (H c) as (Htr & (? & ? & _) & Hr); [done|]. split_and!; [|done..].
  eapply Forall_impl; [exact Htr|]. by intros t (? & ? & _).
Qed.

Lemma cell_header_init_trace lim size c :
  cell_typed lim size c →
  Forall (λ t, unfinished lim size t ∨ t = (cell_header_init c).2) (trace cell_header_init c).
Proof.
  intros Hty. pose proof (stays_trace _ _ _ _ (cell_header_init_stays _ _) Hty) as Hall.
  unfold cell_header_init in *. rewrite !trace_modify in *.
  apply Forall_cons in Hall as [H1 Hall]. apply Forall_cons in Hall as [H2 Hall].
  apply Forall_cons in Hall as [H3 _].
  constructor; [by left|]. constructor; [by left|]. constructor; [by left|].
  mnorm. set (c3 := put_dirst _ _) in *. assert (Hc3 : unfinished lim size c3) by done.
  destruct (cell_body_init_unfinished lim size c3 Hc3) as (Htr & _).
  rewrite trace_bind. apply Forall_app. split.
  { eapply Forall_impl; [exact Htr|]. by left. }
  rewrite bind_run. destruct (cell_body_init c3) as [[[]|e] c4]; [|constructor].
  constructor; [by right|constructor].
Qed.

(** Whatever [cell_init] passes through can be opened again: the memory as it was, a header
    that is not finished, or the cell it ends with. *)
Lemma cell_init_trace c :
  slab_ok smin smax c →
  Forall (λ t, slab_ok smin smax t ∧ slab_size t = slab_size c ∧
    (cell_header_sane (cell_hdr t) = true → t = (cell_init (slab_size c) c).2))
    (trace (cell_init (slab_size c)) c).
Proof.
  intros Hok. pose proof (so_typed _ _ _ Hok) as Hty.
  pose proof (ct_room _ _ _ (so_contract _ _ _ Hok)). pose proof (ct_max _ _ _ (so_contract _ _ _ Hok)).
  pose proof (ct_min _ _ _ (so_contract _ _ _ Hok)).
  assert (Hlt : sizeof_cell_header <? slab_size c = true) by (unfold header_offset in *; lia).
  unfold cell_init. rewrite Hlt. rewrite bind_ALWAYS by done. unfold ALWAYS.
  rewrite trace_ret, trace_modify, trace_gets, put_slab_size_same. mnorm. rewrite put_slab_size_same.
  destruct (cell_header_sane (cell_hdr c)) eqn:Hs; cbn [negb].
  { constructor; [done|]. constructor; [done|]. apply Forall_nil_2. }
  constructor; [by split_and!; rewrite ?Hs|]. constructor; [by split_and!; rewrite ?Hs|].
  eapply Forall_impl; [apply Forall_and; split; [exact (cell_header_init_trace _ _ _ Hty)|
    exact (stays_trace _ _ _ _ (cell_header_init_stays _ _) Hty)]|].
  intros t [Ht Htt]. pose proof (ty_size _ _ _ Htt) as Hsz.
  split; [|split; [done|]].
  - eapply slab_ok_typed; [exact Hok|done|]. unfold well_typed, header_offset in *. by rewrite Hsz.
  - intros Hst. destruct Ht as [[_ Hm]|Ht]; [|done].
    unfold cell_header_sane in Hst. by rewrite Hm in Hst.
Qed.
End init.
