(* ===== verification/CellPersist.v ===== *)
(** A cell in persistent memory whose system fails: what is written between two barriers
    arrives in any order, in any part.  Setting the mark and clearing it are between
    barriers, so that a cell in which a call was changing something is marked. *)

From S2P Require Import Prelude Monad Trace Persist Slab Checksum CellIc CellDirEntry CellDirBlock CellDirOverflow.
From S2P Require Import CellDir CellBodyEntry CellHeader CellState CellBody CellLayout.
From S2P Require Import CellBodySpec CellRing CacheMetrics Cell CellTyped CellSpec CellCrash.

(** * What a failure leaves of a cell *)

(** A mixture of the states [l]: the words of the header that are written alone are as they
    were in one of them, each in a state of its own; the rest may hold anything of its type
    if any of it was changed. *)
Record cell_mixed (l : list cell) (t : cell) : Prop := {
  mx_typed : ∃ a, a ∈ l ∧ cell_typed (s_lim (cell_slab a)) (slab_size a) t;
  mx_magic : one_of (λ c, magic (cell_hdr c)) l t;
  mx_entry : one_of (λ c, entry_code (hdr_ic (cell_hdr c))) l t;
  mx_exit : one_of (λ c, exit_code (hdr_ic (cell_hdr c))) l t;
  mx_entries : unmoved (λ c, entry_count (cell_hdr c)) l t;
  mx_bytes : unmoved (λ c, byte_count (cell_hdr c)) l t;
  mx_body : unmoved (λ c, hdr_body (cell_hdr c)) l t;
  mx_dir : unmoved (λ c, hdr_dir (cell_hdr c)) l t;
  mx_slab : unmoved cell_slab l t;
}.

(** The states a call on a cell can leave whose system fails in it, when nothing that was
    written before the call is still on its way. *)
Definition cell_fails {A} (m : M cell A) (c t : cell) : Prop :=
  fails cell_mixed [] c (events m c) t.

Section mixed.
Implicit Types c t : cell.

(** States that differ in the codes alone: so does a mixture of them. *)
Lemma mixed_ic c l t :
  Forall (λ a, ∃ i, a = put_ic i c) l → cell_mixed l t → t = put_ic (hdr_ic (cell_hdr t)) c.
Proof.
  intros Hl [(a0 & Ha0 & Hty) Hm _ _ Hn Hb Hbd Hd Hs].
  assert (Hz : slab_size t = slab_size c).
  { rewrite Forall_forall in Hl. destruct (Hl a0 Ha0) as (i & ->). by rewrite (ty_size _ _ _ Hty). }
  destruct (one_of_Forall _ _ _ _ Hm Hl) as (a & (i & ->) & Hm').
  assert (Hu : ∀ A (f : cell → A), unmoved f l t → (∀ i, f (put_ic i c) = f c) → f t = f c).
  { intros A f Hf Hi. eapply unmoved_Forall; [exact Hf|exact Hl|]. intros b (j & ->). apply Hi. }
  apply Hu in Hn, Hb, Hbd, Hd, Hs; try done.
  destruct t as [[mt nt bt it bdt dt] st zt], c as [[m n b i' bd d] s z].
  unfold put_ic, put_hdr in *; simpl in *. congruence.
Qed.

Lemma mixed_same c l t : Forall (eq c) l → cell_mixed l t → t = c.
Proof.
  intros Hl Hx. assert (Hic : Forall (λ a, ∃ i, a = put_ic i c) l).
  { eapply Forall_impl; [exact Hl|]. intros a <-. exists (hdr_ic (cell_hdr c)). by rewrite put_ic_same. }
  rewrite (mixed_ic c l t Hic Hx). destruct Hx as [_ _ He Hx _ _ _ _ _].
  destruct (one_of_Forall _ _ _ _ He Hl) as (? & <- & Het), (one_of_Forall _ _ _ _ Hx Hl) as (? & <- & Hxt).
  rewrite <-(put_ic_same c) at 2. f_equal.
  destruct (hdr_ic (cell_hdr t)), (hdr_ic (cell_hdr c)); simpl in *; congruence.
Qed.

Lemma mixed_one c l t : l ≠ [] → Forall (eq c) l → cell_mixed l t → t = c.
Proof. intros _. apply mixed_same. Qed.

(** Two states that differ in one of the codes: a mixture is one of the two. *)
Lemma mixed_code c i l t :
  entry_code i = entry_code (hdr_ic (cell_hdr c)) ∨ exit_code i = exit_code (hdr_ic (cell_hdr c)) →
  Forall (λ a, a = c ∨ a = put_ic i c) l → cell_mixed l t → t = c ∨ t = put_ic i c.
Proof.
  intros Hi Hl Hx. assert (Hic : Forall (λ a, ∃ i, a = put_ic i c) l).
  { eapply Forall_impl; [exact Hl|]. intros a [->| ->]; [exists (hdr_ic (cell_hdr c))|by exists i].
    by rewrite put_ic_same. }
  pose proof (mixed_ic c l t Hic Hx) as Ht. destruct Hx as [_ _ He Hx _ _ _ _ _].
  destruct (one_of_Forall _ _ _ _ He Hl) as (a & Ha & Het), (one_of_Forall _ _ _ _ Hx Hl) as (b & Hb & Hxt).
  rewrite Ht. rewrite <-(put_ic_same c) at 2. clear Ht.
  destruct (hdr_ic (cell_hdr t)) as [e x], (hdr_ic (cell_hdr c)) as [e0 x0] eqn:Hc, i as [e1 x1].
  simpl in *. destruct Ha as [-> | ->], Hb as [-> | ->]; rewrite ?Hc in *; simpl in *;
    destruct Hi as [-> | ->]; subst; auto.
Qed.

(** Within a mark every mixture has the mark too. *)
Lemma mixed_marked lim size mg ic l t :
  l ≠ [] → Forall (marked lim size mg ic) l → cell_mixed l t → marked lim size mg ic t.
Proof.
  intros _ Hl [(a & Ha & Hty) Hm He Hx _ _ _ _ _].
  assert (Hty' : cell_typed lim size t).
  { rewrite Forall_forall in Hl. destruct (Hl a Ha) as (Hta & _).
    by rewrite (sty_lim _ _ (ty_slab _ _ _ Hta)), (ty_size _ _ _ Hta) in Hty. }
  destruct (one_of_Forall _ _ _ _ Hm Hl) as (b & (_ & Hmb & _) & Hmt).
  destruct (one_of_Forall _ _ _ _ He Hl) as (d & (_ & _ & Hid) & Het).
  destruct (one_of_Forall _ _ _ _ Hx Hl) as (e & (_ & _ & Hie) & Hxt).
  rewrite Hid in Het. rewrite Hie in Hxt. split_and!; [done|congruence|].
  destruct (hdr_ic (cell_hdr t)), ic; simpl in *; congruence.
Qed.

(** A torn access is a mixture of the two states. *)
Lemma torn_mixed old a b t : cell_torn a b t → cell_mixed (old ++ [a; b]) t.
Proof.
  intros [Hty Hm He Hx Hn Hb Hbd Hd Hs].
  assert (Ha : a ∈ old ++ [a; b]) by set_solver. assert (Hb' : b ∈ old ++ [a; b]) by set_solver.
  assert (Hu : ∀ A (f : cell → A), (f a = f b → f t = f a) → unmoved f (old ++ [a; b]) t).
  { intros A f Hf v Hl. rewrite Forall_forall in Hl.
    rewrite Hf; [|rewrite !Hl by done]; [by apply (Hl a)|done]. }
  split; auto; [by exists a|..]; [destruct Hm; [by exists a|by exists b]|destruct He; [by exists a|by exists b]|
    destruct Hx; [by exists a|by exists b]].
Qed.

Lemma mixed_now old c : well_typed c → cell_mixed (old ++ [c]) c.
Proof.
  intros Hty. unfold well_typed in Hty. assert (Hc : c ∈ old ++ [c]) by set_solver.
  assert (Hu : ∀ A (f : cell → A), unmoved f (old ++ [c]) c).
  { intros A f v Hl. rewrite Forall_forall in Hl. by apply (Hl c). }
  split; auto; exists c; (split; [done|]); [|done..]. by rewrite (sty_lim _ _ (ty_slab _ _ _ Hty)).
Qed.
End mixed.

(** * Failing in cell_add_chunk *)
Section add.
Context (smin smax : Z).
Implicit Types c t : cell.

Definition exited (c : cell) : cell :=
  put_ic (CellIc (entry_code (hdr_ic (cell_hdr c))) (entry_code (hdr_ic (cell_hdr c)))) c.

Lemma entry_events c : events (on_ic cell_ic_on_entry) c = [Some (entered c); None; Some (entered c)].
Proof. reflexivity. Qed.
Lemma exit_events c : events (on_ic cell_ic_on_exit) c = [None; Some (exited c); None; Some (exited c)].
Proof. reflexivity. Qed.

(** Setting the mark: nothing else is on its way until the mark has arrived. *)
Lemma entry_fails old c t :
  settled c old → fails cell_mixed old c (events (on_ic cell_ic_on_entry) c) t → t = c ∨ t = entered c.
Proof.
  intros Ho. rewrite entry_events. cbn [fails].
  assert (H1 : Forall (eq c) (old ++ [c])) by (apply Forall_app; auto).
  assert (Hc : Forall (λ a, a = c ∨ a = entered c) ((old ++ [c]) ++ [entered c])).
  { apply Forall_app. split; [|by constructor; [right|]]. eapply Forall_impl; [exact H1|by left]. }
  intros [H|[H|[H|[H|[]]]]].
  - left. by eapply mixed_same.
  - refine (mixed_code c _ _ t _ Hc H). by right.
  - right. eapply mixed_same; [|exact H]. by constructor.
  - right. eapply mixed_same; [|exact H]. by do 2 constructor.
Qed.

(** Clearing it: all that was written since has arrived. *)
Lemma exit_fails old c t :
  fails cell_mixed old c (events (on_ic cell_ic_on_exit) c) t →
  cell_mixed (old ++ [c]) t ∨ t = c ∨ t = exited c.
Proof.
  rewrite exit_events. cbn [fails]. intros [H|[H|[H|[H|[H|[]]]]]]; [by left|right..].
  - left. eapply mixed_same; [|exact H]. by constructor.
  - refine (mixed_code c _ _ t _ _ H); [by left|]. constructor; [by left|by constructor; [right|]].
  - right. eapply mixed_same; [|exact H]. by constructor.
  - right. eapply mixed_same; [|exact H]. by do 2 constructor.
Qed.

(** While the body changes, and until the exit code arrives, the cell is marked. *)
Lemma body_fails c i s buffer n old t :
  slab_ok smin smax c → cell_ic_wf i → cell_ic_sane i = false → checksum_wf s →
  settled (put_ic i c) old →
  let rest := cell_body_add s buffer n cell_dir_entry_init;; on_ic cell_ic_on_exit;; mret true in
  fails cell_mixed old (put_ic i c) (events rest (put_ic i c)) t →
  (cell_ic_sane (hdr_ic (cell_hdr t)) = false ∧ slab_ok smin smax t ∧ slab_size t = slab_size c) ∨
  rest (put_ic i c) = (Ok true, t).
Proof.
  intros Hok Hi Hin Hs Ho rest Hd. pose proof (so_typed _ _ _ Hok) as Hty.
  set (P := marked (header_offset c) (slab_size c) (magic (cell_hdr c)) i).
  assert (Hm : stays P (cell_body_add s buffer n cell_dir_entry_init) any).
  { apply cell_body_add_stays; [|done|done].
    unfold header_offset. change sizeof_cell_header with 28704. lia. }
  assert (Hleft : ∀ t, P t → cell_ic_sane (hdr_ic (cell_hdr t)) = false ∧ slab_ok smin smax t
    ∧ slab_size t = slab_size c).
  { intros t' (Ht & _ & ->). split; [done|]. pose proof (ty_size _ _ _ Ht) as Hsz. split; [|done].
    eapply slab_ok_typed; [exact Hok|done|]. unfold well_typed, header_offset in *. by rewrite Hsz. }
  pose proof (marked_typed c i Hty Hi) as Hc1. fold P in Hc1.
  assert (Hold : Forall P old) by (eapply Forall_impl; [exact Ho|by intros ? <-]).
  unfold rest in *. apply (fails_stays _ P P _ _ _ _ _ _ (mixed_marked _ _ _ _) (λ _ H, H) Hm Hc1 Hold) in Hd
    as [Hd|(e & c3 & old3 & Hrun & Hc3 & Hold3 & Hd)]; [by left; apply Hleft|].
  rewrite (bind_ok _ _ _ _ _ Hrun).
  assert (Hend : fails cell_mixed old3 c3 (events (on_ic cell_ic_on_exit) c3) t ∨ t = exited c3).
  { apply fails_bind in Hd as [Hd|(x & c4 & Hex & Hd)]; [by left|right].
    injection Hex as _ <-. rewrite exit_events in Hd. destruct Hd as [Hd|[]].
    eapply mixed_same; [|exact Hd]. by do 2 constructor. }
  destruct Hend as [[Hd'|[->| ->]]%exit_fails| ->]; [|by left; apply Hleft|by right..].
  left. apply Hleft. eapply mixed_marked; [| |exact Hd']; [by destruct old3|].
  apply Forall_app. by rewrite Forall_singleton.
Qed.

(** What is left when the system fails in [cell_add_chunk]: the cell as it was, a marked
    cell, or the cell with the chunk. *)
Lemma cell_add_chunk_fails c pre suf s buffer n old t :
  cell_inv smin smax c pre suf → checksum_wf s → settled c old →
  fails cell_mixed old c (events (cell_add_chunk s buffer n) c) t →
  t = c ∨
  (cell_ic_sane (hdr_ic (cell_hdr t)) = false ∧ slab_ok smin smax t ∧ slab_size t = slab_size c) ∨
  cell_add_chunk s buffer n c = (Ok true, t).
Proof.
  intros Hinv Hs Ho Hd. pose proof Hinv as [_ Hic Hty _].
  pose proof (cell_inv_slab_ok _ _ _ _ _ Hinv) as Hok.
  unfold cell_add_chunk in Hd.
  assert (Hrd : ∀ A (m : M cell A) old, reads m → settled c old →
    fails cell_mixed old c (events m c) t → t = c) by (intros *; apply fails_reads, mixed_one).
  apply fails_bind in Hd as [Hd|(top & c0 & Ht & Hd)].
  { left. apply (Hrd _ (gets header_offset) old); auto with reads. }
  injection Ht as <- <-.
  assert (Ho1 := settled_reads (gets header_offset) old c (reads_gets _) Ho).
  pose proof (cell_dir_get_chunk_reads (header_offset c) s) as Hr.
  apply fails_bind in Hd as [Hd|(found & c1 & Hfound & Hd)]; [left; by eapply Hrd|].
  assert (Ho2 := settled_reads _ _ c Hr Ho1).
  pose proof (proj1 (reads_run _ c Hr)) as Hc1. rewrite Hfound in Hc1. simpl in Hc1. subst c1.
  destruct found as [e|]; [left; eapply Hrd; [|exact Ho2|exact Hd]; auto with reads|].
  destruct (cell_ic_entry_insane c (ty_ic _ _ _ Hty) Hic) as (v & c1 & Hen & Hc1 & Hin & Hwf).
  assert (c1 = entered c) as -> by (by injection Hen).
  apply fails_bind in Hd as [Hd|(v' & c1' & Hen' & Hd)].
  { apply entry_fails in Hd as [->| ->]; [by left|right; left|done].
    split; [done|]. split; [|done]. eapply slab_ok_typed; [exact Hok|done|by apply entered_typed]. }
  rewrite Hen in Hen'. injection Hen' as <- <-.
  apply body_fails in Hd as [?|Hd]; [by right; left| |done..|].
  - right; right. unfold cell_add_chunk. mnorm. mrun by exact Hfound. by mrun by exact Hen.
  - rewrite entry_events. by repeat constructor.
Qed.
End add.

(** The system can fail when the body is done. *)
Lemma cell_add_chunk_fails_body c s buffer n e c3 t :
  cell_has_chunk s c = (Ok false, c) →
  cell_body_add s buffer n cell_dir_entry_init (entered c) = (Ok e, c3) →
  (∀ old, cell_mixed ((pending old (entered c)
    (events (cell_body_add s buffer n cell_dir_entry_init) (entered c))).1 ++ [c3]) t) →
  cell_fails (cell_add_chunk s buffer n) c t.
Proof.
  intros Hhas Hb Ht. unfold cell_has_chunk in Hhas. rewrite bind_gets in Hhas.
  apply bind_inv in Hhas as (found & c1 & Hf & Hr). injection Hr as Hr ->. destruct found; [done|].
  unfold cell_add_chunk, cell_fails. eapply fails_bind_r; [done|]. eapply fails_bind_r; [exact Hf|].
  eapply fails_bind_r; [done|]. eapply fails_bind_r; [exact Hb|]. apply fails_now, Ht.
Qed.

(** A call that returns has written everything back. *)
Lemma cell_add_chunk_settled c s buffer n old b c' :
  settled c old → cell_add_chunk s buffer n c = (Ok b, c') →
  settled c' (pending old c (events (cell_add_chunk s buffer n) c)).1.
Proof.
  intros Ho Hrun. unfold cell_add_chunk in *. rewrite bind_gets in Hrun.
  apply bind_inv in Hrun as (found & c1 & Hf & Hrun).
  pose proof (cell_dir_get_chunk_reads (header_offset c) s) as Hr.
  assert (c1 = c) as -> by (destruct (reads_run _ c Hr) as [Hc _]; by rewrite Hf in Hc).
  rewrite pending_bind. change (gets header_offset c) with (Ok (header_offset c), c). cbn iota.
  rewrite pending_bind, Hf. 
  assert (Ho2 := settled_reads _ _ c Hr (settled_reads (gets header_offset) old c (reads_gets _) Ho)).
  revert Ho2. generalize ((pending (pending old c (events (gets header_offset) c)).1 c
    (events (on_dir (cell_dir_get_chunk (header_offset c) s)) c)).1) as old2. intros old2 Ho2. destruct found as [e|]; [injection Hrun as <- <-; exact Ho2|].
  apply bind_inv in Hrun as (v & c2 & Hen & Hrun). rewrite pending_bind, Hen.
  apply bind_inv in Hrun as (e & c3 & Hb & Hrun). rewrite pending_bind, Hb.
  apply bind_inv in Hrun as (w & c4 & Hex & Hrun). rewrite pending_bind, Hex.
  injection Hrun as <- <-. injection Hex as _ <-. rewrite exit_events. by constructor.
Qed.

(** * Processes that die *)

(** A process that dies leaves what a system that fails can leave. *)
Lemma cell_dies_fails {A} (m : M cell A) Q c t :
  well_typed c → stays (cell_typed (header_offset c) (slab_size c)) m Q →
  cell_dies m c t → cell_fails m c t.
Proof.
  intros Hty Hm. apply (dies_fails_run _ _ (cell_typed (header_offset c) (slab_size c))); [..|exact Hty|].
  - intros old a b t' _ _. apply torn_mixed.
  - intros old x Hx. apply mixed_now. pose proof (ty_size _ _ _ Hx) as Hsz.
    unfold well_typed, header_offset in *. by rewrite Hsz.
  - by eapply stays_trace.
Qed.

Lemma cell_add_chunk_dies_fails c s buffer n t :
  well_typed c → checksum_wf s →
  cell_dies (cell_add_chunk s buffer n) c t → cell_fails (cell_add_chunk s buffer n) c t.
Proof.
  intros Hty Hs. eapply cell_dies_fails; [done|]. apply cell_add_chunk_stays; [|done].
  unfold header_offset. change sizeof_cell_header with 28704. lia.
Qed.

(** What is left of a process that dies in [cell_add_chunk]. *)
Lemma cell_add_chunk_dies smin smax c pre suf s buffer n t :
  cell_inv smin smax c pre suf → checksum_wf s → cell_dies (cell_add_chunk s buffer n) c t →
  t = c ∨
  (cell_ic_sane (hdr_ic (cell_hdr t)) = false ∧ slab_ok smin smax t ∧ slab_size t = slab_size c) ∨
  cell_add_chunk s buffer n c = (Ok true, t).
Proof.
  intros Hinv Hs Hd. eapply cell_add_chunk_fails; [exact Hinv|exact Hs|apply Forall_nil_2|].
  apply cell_add_chunk_dies_fails; [apply Hinv|done..].
Qed.
