(* ===== verification/CellReopen.v ===== *)
(** A cell in persistent memory that is opened when the power fails, under different
    assumptions about what the memory writes back as a whole. *)

From S2P Require Import Prelude Monad Trace Persist Slab Checksum CellIc CellDirEntry CellDirBlock CellDirOverflow.
From S2P Require Import CellDir CellBodyEntry CellHeader CellState CellBody CellLayout.
From S2P Require Import CellBodySpec CellRing CacheMetrics Cell CellTyped CellSpec CellCrash CellPersist.

(** * Assumptions about persistent memory *)

(** What the memory guarantees besides [cell_mixed]: [mix] are the mixtures that can arise.
    [unset]: headers, by their magic number and integrity code, that are no consistent
    cell's and that mix to such headers. *)
Class Persistency := {
  mix : list cell → cell → Prop;
  unset : Z → cell_ic → Prop;
  mix_mixed l t : mix l t → cell_mixed l t;
  unset_zero i : unset 0 i;
  unset_insane c : unset (magic (cell_hdr c)) (hdr_ic (cell_hdr c)) → cell_header_sane (cell_hdr c) = false;
  unset_mix l t : Forall (λ c, unset (magic (cell_hdr c)) (hdr_ic (cell_hdr c))) l → mix l t →
    unset (magic (cell_hdr t)) (hdr_ic (cell_hdr t));
}.

(** Each word by itself: then the magic number has to tell. *)
Definition words : Persistency.
Proof.
  refine {| mix := cell_mixed; unset m _ := m ≠ CELL_HEADER_MAGIC |}; try done.
  - intros c H. unfold cell_header_sane. by destruct (Z.eqb_spec (magic (cell_hdr c)) CELL_HEADER_MAGIC).
  - intros l t Hl [_ Hm _ _ _ _ _ _ _]. by destruct (one_of_Forall _ _ _ _ Hm Hl) as (a & Ha & ->).
Defined.

(** The line that holds the first words of a header, the magic number and the code among
    them, as a whole; all the rest by words. *)
Definition lines : Persistency.
Proof.
  refine {| mix l t := cell_mixed l t ∧ one_of (λ c, (magic (cell_hdr c), hdr_ic (cell_hdr c))) l t;
            unset m i := negb (m =? CELL_HEADER_MAGIC) || negb (cell_ic_sane i) = true |}.
  - by intros l t [].
  - done.
  - intros c H. unfold cell_header_sane. destruct (negb _); [done|]. simpl in H. by apply negb_true_iff.
  - intros l t Hl [_ Hm]. by destruct (one_of_Forall _ _ _ _ Hm Hl) as (a & Ha & [= -> ->]).
Defined.

(** * Failing in cell_init *)
Section init.
Context {Mem : Persistency} (smin smax : Z).
Implicit Types c t : cell.

Definition is_unset c : Prop := unset (magic (cell_hdr c)) (hdr_ic (cell_hdr c)).

(** A cell that is consistent, or whose header tells for good that it is not. *)
Definition clean c : Prop := cell_header_sane (cell_hdr c) = true ∨ is_unset c.

Definition unset_typed (lim size : Z) c : Prop := cell_typed lim size c ∧ is_unset c.

Lemma mix_same c l t : Forall (eq c) l → mix l t → t = c.
Proof. intros Hl Hm. by eapply mixed_same, mix_mixed. Qed.
Lemma mix_one c l t : l ≠ [] → Forall (eq c) l → mix l t → t = c.
Proof. intros _. apply mix_same. Qed.

Lemma mix_unset lim size l t :
  l ≠ [] → Forall (unset_typed lim size) l → mix l t → unset_typed lim size t.
Proof.
  intros _ Hl Hm. split.
  - apply mix_mixed in Hm. destruct Hm as [(a & Ha & Hty) _ _ _ _ _ _ _ _].
    rewrite Forall_forall in Hl. destruct (Hl a Ha) as [Hta _].
    by rewrite (sty_lim _ _ (ty_slab _ _ _ Hta)), (ty_size _ _ _ Hta) in Hty.
  - eapply unset_mix; [|exact Hm]. eapply Forall_impl; [exact Hl|]. by intros ? [].
Qed.

Definition put_magic (m : Z) c : cell :=
  let h := cell_hdr c in
  put_hdr (CellHeader m (entry_count h) (byte_count h) (hdr_ic h) (hdr_body h) (hdr_dir h)) c.

(** The magic number is written when all the rest has arrived. *)
Lemma mixed_magic c m t : cell_mixed [c; put_magic m c] t → t = c ∨ t = put_magic m c.
Proof.
  intros [(a & Ha & Hty) Hm He Hx Hn Hb Hbd Hd Hs].
  assert (Hl : Forall (λ a, a = c ∨ a = put_magic m c) [c; put_magic m c]) by (repeat constructor; auto).
  assert (Hu : ∀ A (f : cell → A), unmoved f [c; put_magic m c] t → f (put_magic m c) = f c → f t = f c).
  { intros A f Hf Hi. eapply unmoved_Forall; [exact Hf|exact Hl|]. by intros ? [->| ->]. }
  apply Hu in Hn, Hb, Hbd, Hd, Hs; try done.
  pose proof (ty_size _ _ _ Hty) as Hz.
  destruct (one_of_Forall _ _ _ _ Hm Hl) as (m1 & Hm1 & Hmt).
  destruct (one_of_Forall _ _ _ _ He Hl) as (e & He1 & Het).
  destruct (one_of_Forall _ _ _ _ Hx Hl) as (x & Hx1 & Hxt).
  assert (Hsz : slab_size t = slab_size c).
  { rewrite Hz. by apply list_elem_of_In in Ha as [<-|[<-|[]]]. }
  destruct t as [[mt nt bt [et xt] bdt dt] st zt], c as [[mc n b [e0 x0] bd d] s z].
  unfold put_magic, put_hdr in *; simpl in *.
  destruct Hm1 as [-> | ->], He1 as [-> | ->], Hx1 as [-> | ->]; simpl in *; subst; auto.
Qed.

(** [cell_header_init] on its way, when the magic number is cleared. *)
Lemma cell_header_init_fails lim size old c t :
  unset_typed lim size c → Forall (unset_typed lim size) old →
  fails mix old c (events cell_header_init c) t →
  unset_typed lim size t ∨ t = (cell_header_init c).2.
Proof.
  intros Hc Ho Hf. pose proof (mix_unset lim size) as Hmix. unfold cell_header_init in *.
  assert (Hun : ∀ x, unfinished lim size x → unset_typed lim size x).
  { intros x [Hx Hm]. split; [done|]. unfold is_unset. rewrite Hm. apply unset_zero. }
  assert (Ho1 : Forall (unset_typed lim size) (old ++ [c])) by (apply Forall_app; by rewrite Forall_singleton).
  rewrite events_modify in Hf. destruct Hf as [Hf|Hf].
  { left. eapply Hmix; [|exact Ho1|exact Hf]. by destruct old. }
  rewrite bind_modify. set (c1 := put_hdr _ c) in *. assert (Hc1 : unfinished lim size c1).
  { destruct Hc as [[] _]. split; [|done]. split; try done. simpl. apply cell_dir_init_typed. }
  assert (Hz : ∀ h, (∀ c, unfinished lim size c → unfinished lim size (h c)) → stays (unfinished lim size) (modify h) any).
  { intros h Hh. by apply stays_modify. }
  apply (fails_stays _ _ _ _ any _ _ _ _ Hmix Hun) in Hf as [?|([] & c2 & old2 & H2 & Hc2 & Ho2 & Hf)];
    [by left| |apply Hz|done..].
  2:{ intros x [[] ?]. by split. }
  apply (fails_stays _ _ _ _ any _ _ _ _ Hmix Hun) in Hf as [?|([] & c3 & old3 & H3 & Hc3 & Ho3 & Hf)];
    [by left| |apply Hz|done..].
  2:{ intros x [[] ?]. split; [|done]. split; try done. apply cell_dir_init_typed. }
  apply (fails_stays _ _ _ _ _ _ _ _ _ Hmix Hun (cell_body_init_unfinished _ _)) in Hf
    as [?|([] & c4 & old4 & H4 & Hc4%Hun & Ho4 & Hf)]; [by left| |done..].
  rewrite (bind_ok _ _ _ _ _ H2), (bind_ok _ _ _ _ _ H3), (bind_ok _ _ _ _ _ H4).
  mnorm. change ((_, put_hdr _ c4).2) with (put_magic CELL_HEADER_MAGIC c4).
  destruct Hf as [Hf|[Hf|[Hf|[Hf|[]]]]].
  - left. eapply Hmix; [| |exact Hf]; [by destruct old4|]. apply Forall_app. by rewrite Forall_singleton.
  - left. eapply Hmix; [| |exact Hf]; [done|by apply Forall_singleton].
  - apply mix_mixed, mixed_magic in Hf as [->| ->]; [by left|by right].
  - right. eapply mix_same; [|exact Hf]. by constructor.
Qed.

(** What is left when the system fails in [cell_init] of a clean cell is clean: the cell as
    it was, one whose header tells, or the cell [cell_init] ends with. *)
Lemma cell_init_fails c old t :
  slab_ok smin smax c → clean c → settled c old →
  fails mix old c (events (cell_init (slab_size c)) c) t →
  t = c ∨ cell_header_sane (cell_hdr c) = false ∧ slab_ok smin smax t ∧ slab_size t = slab_size c ∧
    (is_unset t ∨ t = (cell_init (slab_size c) c).2).
Proof.
  intros Hok Hcl Ho Hf. pose proof (so_typed _ _ _ Hok) as Hty.
  pose proof (ct_room _ _ _ (so_contract _ _ _ Hok)). pose proof (ct_max _ _ _ (so_contract _ _ _ Hok)).
  pose proof (ct_min _ _ _ (so_contract _ _ _ Hok)).
  assert (Hlt : sizeof_cell_header <? slab_size c = true) by (unfold header_offset in *; lia).
  unfold cell_init in *. rewrite Hlt in *. rewrite bind_ALWAYS by done. unfold ALWAYS in Hf.
  rewrite events_ret, events_modify, put_slab_size_same, events_gets in Hf.
  mnorm. rewrite put_slab_size_same. cbn [fails] in Hf.
  assert (Ho1 : settled c (old ++ [c])) by (apply Forall_app; auto).
  assert (Ho2 : settled c ((old ++ [c]) ++ [c])) by (apply Forall_app; auto).
  destruct Hf as [Hf|[Hf|Hf]]; [left; exact (mix_same _ _ _ Ho1 Hf)|left; exact (mix_same _ _ _ Ho2 Hf)|].
  destruct (cell_header_sane (cell_hdr c)) eqn:Hs; cbn [negb] in *.
  { left. destruct Hf as [Hf|[]]. eapply mix_same; [|exact Hf]. by apply Forall_app; auto. }
  destruct Hcl as [Hcl|Hcl]; [congruence|]. 
  assert (Hc : unset_typed (header_offset c) (slab_size c) c) by done.
  assert (Hlim : ∀ t, cell_typed (header_offset c) (slab_size c) t → slab_ok smin smax t ∧ slab_size t = slab_size c).
  { intros t' Ht. pose proof (ty_size _ _ _ Ht) as Hsz. split; [|done].
    eapply slab_ok_typed; [exact Hok|done|]. unfold well_typed, header_offset in *. by rewrite Hsz. }
  right. split; [done|]. apply (cell_header_init_fails _ _ _ _ _ Hc) in Hf as [[Ht Hm]| ->].
  - destruct (Hlim t Ht). auto.
  - destruct (Hlim (cell_header_init c).2) as [??]; [|auto].
    eapply stays_final; [apply cell_header_init_stays|done].
  - eapply Forall_impl; [exact Ho2|by intros ? <-].
Qed.

(** When it returns all has been written back. *)
Lemma cell_header_init_settled old c c' :
  cell_header_init c = (Ok tt, c') → (pending old c (events cell_header_init c)).1 = [].
Proof.
  unfold cell_header_init. intros Hrun.
  do 3 (apply bind_inv in Hrun as ([] & ? & Hm & Hrun); rewrite pending_bind, Hm; clear Hm).
  apply bind_inv in Hrun as ([] & c4 & Hm & Hrun). by rewrite pending_bind, Hm.
Qed.

Lemma cell_init_settled old c :
  slab_ok smin smax c → settled c old →
  settled (cell_init (slab_size c) c).2 (pending old c (events (cell_init (slab_size c)) c)).1.
Proof.
  intros Hok Ho.
  pose proof (ct_room _ _ _ (so_contract _ _ _ Hok)). pose proof (ct_max _ _ _ (so_contract _ _ _ Hok)).
  pose proof (ct_min _ _ _ (so_contract _ _ _ Hok)).
  assert (Hlt : sizeof_cell_header <? slab_size c = true) by (unfold header_offset in *; lia).
  destruct (cell_header_sane (cell_hdr c)) eqn:Hs.
  - rewrite (cell_init_keeps smin smax c Hok Hs). cbn [snd]. apply pending_reads; [done|].
    unfold cell_init. rewrite Hlt. unfold ALWAYS.
    rewrite events_ret, events_modify, put_slab_size_same, events_gets, Hs. by repeat constructor.
  - destruct (cell_init_fresh smin smax c Hok Hs) as (c' & Hrun & _). rewrite Hrun.
    unfold cell_init in *. rewrite Hlt in *. rewrite bind_ALWAYS in Hrun by done. unfold ALWAYS.
    rewrite events_ret, events_modify, put_slab_size_same, events_gets, Hs. cbn [negb pending].
    revert Hrun. mnorm. rewrite put_slab_size_same, Hs. cbn [negb]. intros Hrun.
    rewrite (cell_header_init_settled _ _ _ Hrun). apply Forall_nil_2.
Qed.

(** A cell that is marked is not clean: the codes may arrive before the magic number. *)
Lemma cell_init_half c :
  slab_ok smin smax c → cell_header_sane (cell_hdr c) = false →
  cell_fails (cell_init (slab_size c)) c (put_ic cell_ic_init c).
Proof.
  intros Hok Hs. pose proof (put_ic_typed cell_ic_init c ltac:(done) (so_typed _ _ _ Hok)) as Hty.
  pose proof (ct_room _ _ _ (so_contract _ _ _ Hok)). pose proof (ct_max _ _ _ (so_contract _ _ _ Hok)).
  pose proof (ct_min _ _ _ (so_contract _ _ _ Hok)).
  assert (Hlt : sizeof_cell_header <? slab_size c = true) by (unfold header_offset in *; lia).
  unfold cell_fails, cell_init. rewrite Hlt. unfold ALWAYS.
  rewrite events_ret, events_modify, put_slab_size_same, events_gets, Hs. cbn [negb].
  unfold cell_header_init. rewrite events_modify. do 3 right. apply fails_now.
  set (c1 := put_hdr _ c). set (l := ((([] ++ [c]) ++ [c]) ++ [c]) ++ [c1]).
  assert (Hc : c ∈ l) by set_solver. assert (Hc1 : c1 ∈ l) by set_solver.
  assert (Hu : ∀ A (f : cell → A), f (put_ic cell_ic_init c) = f c → unmoved f l (put_ic cell_ic_init c)).
  { intros A f Hf v Hl. rewrite Forall_forall in Hl. rewrite Hf. by apply (Hl c). }
  split; [|by exists c|by exists c1|by exists c1|by apply Hu..].
  exists c. split; [done|]. unfold well_typed in Hty.
  by rewrite (sty_lim _ _ (ty_slab _ _ _ (so_typed _ _ _ Hok))).
Qed.

Lemma cell_init_half_kept c :
  slab_ok smin smax c → magic (cell_hdr c) = CELL_HEADER_MAGIC →
  let t := put_ic cell_ic_init c in cell_init (slab_size t) t = (Ok tt, t).
Proof.
  intros Hok Hm t. apply (cell_init_keeps smin smax); [|by unfold cell_header_sane, t; simpl; rewrite Hm].
  eapply slab_ok_typed; [exact Hok|done|]. apply put_ic_typed; [done|apply Hok].
Qed.
End init.

(** With whole lines every cell is clean. *)
Lemma lines_clean c : clean (Mem := lines) c.
Proof.
  unfold clean, is_unset, cell_header_sane. simpl.
  destruct (negb (magic (cell_hdr c) =? CELL_HEADER_MAGIC)); [by right|].
  destruct (cell_ic_sane (hdr_ic (cell_hdr c))); [by left|by right].
Qed.
