(* ===== verification/CellHistory.v ===== *)
(** Histories of a cell: sequences of [cell_add_chunk] from the opening of the slab on. *)

From S2P Require Import Prelude Monad Slab Checksum CellIc CellDirEntry CellDirBlock CellDirOverflow.
From S2P Require Import CellDir CellBodyEntry CellHeader CellState CellBody CellLayout.
From S2P Require Import CellBodySpec CellRing CacheMetrics Cell CellTyped CellSpec.

(** Adding chunks one after another: the results of the calls. *)
Fixpoint add_all (hist : list (checksum * list byte)) : M cell (list bool) :=
  match hist with
  | [] => mret []
  | (s, d) :: hist =>
      r ← cell_add_chunk s d (Z.of_nat (length d));
      rs ← add_all hist;
      mret (r :: rs)
  end.

(** Opening a slab and adding chunks. *)
Definition open_and_add (c : cell) (hist : list (checksum * list byte)) : result (list bool) * cell :=
  (cell_init (slab_size c);; add_all hist) c.

(** The sizes and checksums callers may use. *)
Definition call_ok (smin smax : Z) (x : checksum * list byte) : Prop :=
  checksum_wf x.1 ∧ smin ≤ Z.of_nat (length x.2) ≤ smax.

Section history.
Context (smin smax : Z).
Implicit Types c : cell.

Lemma call_arg_ok s d : call_ok smin smax (s, d) → arg_ok smin smax s d (Z.of_nat (length d)).
Proof. intros [? ?]. split; simpl in *; [done|done|lia]. Qed.

Lemma chunk_of_all s d : chunk_of s d (Z.of_nat (length d)) = BEntry s false d.
Proof. unfold chunk_of. by rewrite Nat2Z.id, firstn_all. Qed.

Lemma ring_step_incl b pre suf pre' suf' x :
  smin ≤ smax → is_live b → smin ≤ b_size b ≤ smax → ring_wf smin smax pre suf →
  ring_step b pre suf pre' suf' → x ∈ live (pre' ++ suf') → x = b ∨ x ∈ live (pre ++ suf).
Proof.
  intros Hmm Hb Hbs Hwf Hstep Hx.
  destruct (ring_step_evicts _ _ _ _ _ _ _ Hmm Hb Hbs Hwf Hstep) as (w & m & l & Hold & _ & _ & Hnew).
  unfold by_age in *. rewrite live_app in Hold, Hx, Hnew |- *.
  assert (Hx' : x ∈ live suf' ++ live pre') by (rewrite elem_of_app in *; tauto).
  enough (x = b ∨ x ∈ live suf ++ live pre) by (rewrite elem_of_app in *; tauto).
  rewrite Hold. destruct Hnew as [Hn|[Hn _]]; rewrite Hn in Hx'; rewrite !elem_of_app in *.
  - rewrite list_elem_of_singleton in Hx'. tauto.
  - tauto.
Qed.

(** Nothing appears in a cell but the chunk that is added. *)
Lemma ring_step_contents c c' b pre suf pre' suf' s d :
  body_inv smin smax c pre suf → body_inv smin smax c' pre' suf' →
  is_live b → smin ≤ b_size b ≤ smax → ring_step b pre suf pre' suf' →
  contents (pre' ++ suf') !! s = Some d →
  s = b_sum b ∧ d = b_data b ∨ contents (pre ++ suf) !! s = Some d.
Proof.
  intros Hinv Hinv' Hb Hbs Hstep.
  rewrite !contents_Some by by eapply body_inv_nodup.
  intros (x & Hx & <- & <-).
  assert (Hmm : smin ≤ smax) by apply (bi_contract _ _ _ _ _ Hinv).
  destruct (ring_step_incl _ _ _ _ _ _ Hmm Hb Hbs (bi_wf _ _ _ _ _ Hinv) Hstep Hx) as [->|Hin];
    [by left|right; eauto].
Qed.

Lemma add_all_spec hist : ∀ c pre suf,
  cell_inv smin smax c pre suf → Forall (call_ok smin smax) hist →
  (∃ c', add_all hist c = (Err AssertFail, c') ∧ cell_ic_sane (hdr_ic (cell_hdr c')) = false
     ∧ slab_ok smin smax c') ∨
  (∃ rs c' pre' suf', add_all hist c = (Ok rs, c') ∧ cell_inv smin smax c' pre' suf'
     ∧ length rs = length hist
     ∧ ∀ s d, contents (pre' ++ suf') !! s = Some d →
         contents (pre ++ suf) !! s = Some d ∨ (s, d) ∈ hist).
Proof.
  induction hist as [|[s d] hist IH]; intros c pre suf Hinv Hok.
  { right. exists [], c, pre, suf. split_and!; try done. by left. }
  apply Forall_cons in Hok as [Hok Hoks]. pose proof (call_arg_ok _ _ Hok) as Harg.
  destruct (cell_add_chunk_spec smin smax c pre suf s d _ Hinv Harg)
    as [[_ Hrun]|[_ [(_ & c' & Hrun & Hic & Hsz & Hlim)|(c1 & pre1 & suf1 & Hrun & Hstep & Hinv1 & Hsz)]]].
  - destruct (IH c pre suf Hinv Hoks) as [(c' & Hr & ?)|(rs & c' & pre' & suf' & Hr & Hi & Hl & Hc)].
    + left. exists c'. split; [|done]. simpl. rewrite (bind_ok _ _ _ _ _ Hrun).
      by rewrite (bind_err _ _ _ _ _ Hr).
    + right. exists (false :: rs), c', pre', suf'. split_and!; [|done|simpl; lia|].
      * simpl. mrun by exact Hrun. by mrun by exact Hr.
      * intros s' d' [?|?]%Hc; [by left|right; by right].
  - left. exists c'. split_and!; [simpl; by rewrite (bind_err _ _ _ _ _ Hrun)|done|].
    eapply slab_ok_typed; [by eapply cell_inv_slab_ok|done..].
  - destruct (IH c1 pre1 suf1 Hinv1 Hoks) as [(c' & Hr & ?)|(rs & c' & pre' & suf' & Hr & Hi & Hl & Hc)].
    + left. exists c'. split; [|done]. simpl. rewrite (bind_ok _ _ _ _ _ Hrun).
      by rewrite (bind_err _ _ _ _ _ Hr).
    + right. exists (true :: rs), c', pre', suf'. split_and!; [|done|simpl; lia|].
      * simpl. mrun by exact Hrun. by mrun by exact Hr.
      * intros s' d' [H1|?]%Hc; [|right; by right].
        rewrite chunk_of_all in Hstep. destruct Hok as [_ Hsize]; simpl in Hsize.
        destruct (ring_step_contents c c1 (BEntry s false d) pre suf pre1 suf1 s' d') as [[-> ->]|?];
          [apply Hinv|apply Hinv1|done|done|done|done|right; by left|by left].
Qed.
End history.

(** * The first lap *)
Section first_lap.
Context (smin smax : Z).
Implicit Types c : cell.

(** The bytes that hold a history: each chunk has its entry and may need a slot in the
    overflow area of the directory. *)
Fixpoint cost (hist : list (checksum * list byte)) : Z :=
  match hist with
  | [] => 0
  | (_, d) :: hist => Z.of_nat (length d) + 72 + cost hist
  end.

Lemma cost_nonneg hist : 0 ≤ cost hist.
Proof. induction hist as [|[s d] hist]; simpl; lia. Qed.

Definition entry_of (x : checksum * list byte) : bentry := BEntry x.1 false x.2.

Lemma live_entries hist : live (entry_of <$> hist) = entry_of <$> hist.
Proof. apply live_all. apply Forall_fmap. by apply Forall_true. Qed.

Lemma contents_entries hist : contents (entry_of <$> hist) = list_to_map hist.
Proof.
  unfold contents. rewrite live_entries, <-list_fmap_compose. f_equal.
  rewrite <-(list_fmap_id hist) at 2. apply list_fmap_ext. by intros ? [].
Qed.

Lemma cost_app l1 l2 : cost (l1 ++ l2) = cost l1 + cost l2.
Proof. induction l1 as [|[s d] l1]; simpl; lia. Qed.

Lemma cost_span old : span (entry_of <$> old) + 36 * Z.of_nat (length old) = cost old.
Proof.
  induction old as [|[s d] old IH]; [done|]. cbn [cost fmap list_fmap span length]. unfold b_span at 1, b_size at 1.
  cbn [b_data entry_of snd]. lia.
Qed.

(** A chunk that fits behind the others is appended. *)
Lemma cell_add_first_lap c old s buffer n :
  let d := take (Z.to_nat n) buffer in
  cell_inv smin smax c (entry_of <$> old) [] → arg_ok smin smax s buffer n →
  s ∉ old.*1 → cost (old ++ [(s, d)]) + 36 ≤ header_offset c →
  ∃ c', cell_add_chunk s buffer n c = (Ok true, c')
    ∧ cell_inv smin smax c' (entry_of <$> old ++ [(s, d)]) [] ∧ slab_size c' = slab_size c.
Proof.
  intros d Hinv Harg Hnew Hcost. pose proof Harg as [_ Hsz Hn].
  pose proof Hinv as [_ _ _ [Hct [H _ Htop _] _]]. rewrite fmap_app.
  apply cell_add_chunk_append; [done|done|by rewrite contents_entries; apply not_elem_of_list_to_map_1|].
  pose proof (dcore_count _ _ H) as Hcnt.
  rewrite app_nil_r in Htop, Hcnt. rewrite <-(length_fmap snd), live_at_snd, live_entries, length_fmap in Hcnt.
  unfold room. rewrite Htop. rewrite cost_app, <-cost_span in Hcost. cbn [cost] in Hcost.
  assert (Z.of_nat (length d) = n) by (destruct Hct; unfold d; rewrite length_take; lia). lia.
Qed.

Lemma add_all_first_lap hist : ∀ c old,
  cell_inv smin smax c (entry_of <$> old) [] → Forall (call_ok smin smax) hist →
  NoDup (fst <$> old ++ hist) → cost (old ++ hist) + 36 ≤ header_offset c →
  ∃ c', add_all hist c = (Ok (replicate (length hist) true), c')
    ∧ cell_inv smin smax c' (entry_of <$> old ++ hist) [].
Proof.
  induction hist as [|[s d] hist IH]; intros c old Hinv Hok Hnd Hcost.
  { exists c. by rewrite app_nil_r. }
  apply Forall_cons in Hok as [Hok Hoks]. pose proof (call_arg_ok smin smax _ _ Hok) as Harg.
  assert (Hnew : s ∉ old.*1).
  { rewrite fmap_app in Hnd. apply NoDup_app in Hnd as (_ & Hd & _). intros Hin. apply (Hd s Hin). by left. }
  rewrite cons_middle, app_assoc in Hnd, Hcost.
  destruct (cell_add_first_lap c old s d _ Hinv Harg Hnew) as (c1 & Hrun & Hinv1 & Hsz);
    rewrite Nat2Z.id, firstn_all in *.
  { rewrite cost_app in Hcost. pose proof (cost_nonneg hist). lia. }
  destruct (IH c1 (old ++ [(s, d)]) Hinv1 Hoks Hnd) as (c' & Hr & Hinv').
  { unfold header_offset. by rewrite Hsz. }
  exists c'. split; [|by rewrite <-app_assoc in Hinv'].
  simpl. mrun by exact Hrun. by mrun by exact Hr.
Qed.
End first_lap.
