(* ===== verification/CellTruncate.v ===== *)
(** Chunks that do not fit the 15-bit size field of an entry: what [cell_add_chunk] makes of
    them in the first lap of a cell. *)

From S2P Require Import Prelude Monad Trace Slab Checksum CellIc CellDirEntry CellDirBlock CellDirOverflow.
From S2P Require Import CellDir CellBodyEntry CellHeader CellState CellBody CellLayout.
From S2P Require Import CellBodySpec CellRing CacheMetrics Cell CellTyped CellSpec.

Section truncate.
Implicit Types c : cell.

Lemma dcore_put_ic i c lv : dcore c lv → dcore (put_ic i c) lv.
Proof. intros []. by split. Qed.

(** The entry at the top gets all bytes of the chunk and the low bits of its size. *)
Lemma cell_body_add_top_cut c lv b buffer e :
  dcore c lv → checksum_wf (b_sum b) → take (length (b_data b)) buffer = b_data b →
  b_size b < 65536 → b_sum b ∉ lsum <$> lv → ovc c < 4095 → lspan lv ≤ top_of c →
  b_size b + 72 ≤ room c →
  ∃ c', cell_body_add_top (b_sum b) buffer (b_size b) e c = (Ok (true, dir_entry_of (top_of c) b), c')
    ∧ dcore c' ((top_of c, b) :: lv) ∧ keeps_ic c c'
    ∧ be_size (be_at (cell_slab c') (top_of c)) = b_size b `mod` 32768
    ∧ rd (cell_slab c') (top_of c + 36) (length (b_data b)) = b_data b.
Proof.
  intros H Hsum Hbuf Hsz Hnew Hov Hsp Hroom. set (off := top_of c) in *.
  pose proof (header_offset_bound _ _ H) as Hho. pose proof (dcore_count _ _ H) as Hcnt.
  pose proof (b_size_nonneg b) as Hbn. pose proof (dc_lim _ _ H) as Hlim. pose proof (dc_top _ _ H) as Hoff.
  fold off in Hoff. pose proof Hroom as Hroom'. unfold room in Hroom'. fold off in Hroom'.
  assert (Hd : Z.of_nat (length (b_data b)) = b_size b) by done.
  destruct (write_top_run off b buffer (cell_slab c)) as (s1 & Hw & Hm1 & He1 & Hd1); [unfold b_span; lia..|done|done|].
  set (c1 := put_slab s1 c).
  assert (H1 : dcore c1 lv) by (eapply dcore_put_slab; [done..|unfold b_span; lia]).
  destruct (cell_header_add_spec c1 lv off b (dir_entry_of off b))
    as (c2 & Hadd & H2 & Hk & Hov2 & Hag2); [done|done|lia|done|done|done| | |].
  { change (top_of c1) with off. change (header_offset c1) with (header_offset c). change (ovc c1) with (ovc c). lia. }
  { change (header_offset c1) with (header_offset c). unfold b_span. lia. }
  pose proof (keeps_offset _ _ Hk) as Hho2. pose proof (keeps_top _ _ Hk) as Htop2.
  change (ovc c1) with (ovc c) in *. change (header_offset c1) with (header_offset c) in *.
  change (top_of c1) with off in Htop2. set (top' := off + b_span b).
  destruct (new_top_run top' (b_size b) (cell_slab c2)) as (s3 & Hnt & Hm3 & _);
    [unfold top', b_span; lia|rewrite (dc_lim _ _ H2); unfold top', b_span; lia|].
  assert (Hag : agree s1 s3 off top').
  { apply agree_trans with (cell_slab c2).
    - eapply agree_sub; [exact Hag2|lia|unfold top', b_span; lia].
    - eapply modifies_agree; [exact Hm3|lia]. }
  exists (put_body (CellBody top' top') (put_slab s3 c2)). split_and!.
  - by eapply (cell_body_add_top_run _ _ _ _ lv off).
  - apply dcore_put_body; [|simpl; unfold top', b_span; lia|].
    + eapply dcore_put_slab; [done|done|]. rewrite Hho2. unfold top', b_span. lia.
    + change (header_offset (put_slab s3 c2)) with (header_offset c2).
      change (ovc (put_slab s3 c2)) with (ovc c2). cbn [top_entry_offset]. unfold top', b_span. lia.
  - apply keeps_ic_trans with c2; [|done]. by apply keeps_keeps_ic.
  - change (cell_slab (put_body _ (put_slab s3 c2))) with s3.
    by rewrite (be_at_agree s1 s3 off top'), He1 by (done || unfold top', b_span; lia).
  - change (cell_slab (put_body _ (put_slab s3 c2))) with s3.
    rewrite (agree_rd s1 s3 off top'); [done..|lia|unfold top', b_span; lia].
Qed.

(** A chunk whose entry has the size cut. *)
Lemma cell_get_chunk_cut c lv o b k ch :
  dcore c lv → (o, b) ∈ lv → checksum_wf (b_sum b) → 0 ≤ o →
  be_size (be_at (cell_slab c) o) = k → 0 ≤ k < 32768 → k ≤ b_size b →
  rd (cell_slab c) (o + 36) (length (b_data b)) = b_data b → o + 36 + b_size b ≤ header_offset c →
  ∃ ch', cell_get_chunk (b_sum b) ch c = (Ok (Some ch'), c) ∧
    chunk_checksum ch' = b_sum b ∧ chunk_data ch' = take (Z.to_nat k) (b_data b).
Proof.
  intros H Hin Hsum Ho Hsz Hk Hkb Hd Hlim. pose proof (dc_lim _ _ H) as Hl.
  destruct (cell_dir_get_chunk_spec _ _ _ (b_sum b) (dc_dir _ _ H) Hsum) as (r & Hr & Hcase).
  pose proof (proj2 (refs_Some _ _ o (dc_nodup _ _ H)) (ex_intro _ b (conj Hin eq_refl))) as Href.
  destruct r as [e|]; [|congruence]. destruct Hcase as [He Hoff]. rewrite Href in Hoff. injection Hoff as Hoff.
  assert (Hk' : rd (cell_slab c) (o + 36) (Z.to_nat k) = take (Z.to_nat k) (b_data b)).
  { rewrite <-Hd. replace (length (b_data b)) with (Z.to_nat k + (length (b_data b) - Z.to_nat k))%nat
      by (unfold b_size in *; lia). rewrite rd_app. by rewrite take_app_length' by (by rewrite length_rd). }
  assert (Hlen : length (take (Z.to_nat k) (b_data b)) = Z.to_nat k).
  { rewrite length_take. unfold b_size in *. lia. }
  destruct (chunk_set_ok (b_sum b) (take (Z.to_nat k) (b_data b)) k ch) as (ch' & Hset & Hc & _ & Hdat & _);
    [unfold CHUNK_MAX_BUFFER_SIZE; lia|lia|].
  exists ch'. split_and!; [|done|].
  - unfold cell_get_chunk. mnorm. mrun by (apply on_dir_read, Hr). rewrite <-Hoff.
    mrun by (apply on_slab_read, get_size_ok; lia). rewrite Hsz. unfold sizeof_cell_body_entry.
    mrun by (apply on_slab_read, load_bytes_ok; [lia|lia]). rewrite Hk', He, Hset. done.
  - by rewrite Hdat, take_ge by lia.
Qed.

(** The addition of such a chunk in the first lap. *)
Lemma cell_add_chunk_cut smin smax c pre s buffer n :
  cell_inv smin smax c pre [] → checksum_wf s → contents pre !! s = None →
  32768 ≤ n < 65536 → n ≤ Z.of_nat (length buffer) → n + 72 ≤ room c →
  ∃ c', cell_add_chunk s buffer n c = (Ok true, c') ∧ cell_has_chunk s c' = (Ok true, c') ∧
    ∀ ch, ∃ ch', cell_get_chunk s ch c' = (Ok (Some ch'), c') ∧ chunk_checksum ch' = s ∧
      chunk_data ch' = take (Z.to_nat (n - 32768)) buffer.
Proof.
  intros Hci Hs Hnew Hn Hbuf Hroom.
  destruct (cell_add_chunk_enter smin smax c pre [] s buffer n Hci Hs) as (i & _ & _ & Hinv & Hrun);
    [by rewrite app_nil_r|].
  set (c0 := put_ic i c) in *. pose proof (body_inv_is_top smin smax _ _ _ Hinv) as Htp.
  destruct Hinv as [Hct [H Hlay Htop Hnext] [_ _ Hf _]]. rewrite app_nil_r in *.
  set (b := chunk_of s buffer n).
  assert (Hb : b_size b = n) by (unfold b_size, b, chunk_of; cbn [b_data]; rewrite length_take; lia).
  assert (Hlen : length (b_data b) = Z.to_nat n) by (unfold b_size in Hb; lia).
  apply contents_None in Hnew.
  destruct (cell_body_add_top_cut c0 _ b buffer cell_dir_entry_init H)
    as (c1 & Hr & H1 & Hk & Hsz & Hd); [exact Hs|by rewrite Hlen|lia|by rewrite live_at_lsum| | |by rewrite Hb|].
  { apply (ovc_bound smin smax c0 _ Hct H); [pose proof (lspan_live_at 0 pre); lia|by apply fine_live]. }
  { rewrite Htop. apply lspan_live_at. }
  rewrite Hb in Hr, Hsz. change (b_sum b) with s in Hr.
  set (c' := put_ic (CellIc (entry_code i) (entry_code i)) c1).
  assert (Hi : hdr_ic (cell_hdr c1) = i) by (by destruct Hk as (_ & -> & _)).
  exists c'. split; [|split].
  - rewrite Hrun. unfold cell_body_add. rewrite !bind_assoc. mrun by apply get_next_ok.
    rewrite !bind_assoc. mrun by exact Htp. cbn [negb]. cbn iota. rewrite !bind_assoc. mrun by exact Hr.
    cbn [negb fst snd]. cbn iota. rewrite ?bind_ret. mrun by (apply cell_ic_on_exit_run). by rewrite Hi.
  - rewrite (dcore_has_chunk c' _ s (dcore_put_ic _ _ _ H1) Hs). do 2 f_equal.
    apply bool_decide_true. by left.
  - intros ch. pose proof (dc_room _ _ H1). pose proof (keeps_ic_offset _ _ Hk) as Hho.
    destruct (cell_get_chunk_cut c' _ (top_of c0) b (n - 32768) ch (dcore_put_ic _ _ _ H1)) as (ch' & Hg & Hcs & Hdt);
      [by left|exact Hs|apply H| |lia|lia|exact Hd| |].
    + change (cell_slab c') with (cell_slab c1). rewrite Hsz. symmetry. apply (Z.mod_unique _ _ 1); lia.
    + change (header_offset c') with (header_offset c1). rewrite Hho, Hb. unfold room in Hroom.
      change (header_offset c0) with (header_offset c). change (top_of c0) with (top_of c).
      pose proof (dcore_count _ _ H). change (ovc c0) with (ovc c) in *. lia.
    + exists ch'. split_and!; [done..|]. rewrite Hdt. unfold b, chunk_of. cbn [b_data].
      rewrite take_take. f_equal. lia.
Qed.
End truncate.
