(* ===== verification/CellTheorems.v ===== *)
(** The properties of a cell, with their instances on a small cell. *)

From S2P Require Import Prelude Monad Trace Slab Checksum CellIc CellDirEntry CellDirBlock CellDirOverflow.
From S2P Require Import CellDir CellBodyEntry CellHeader CellState CellBody CellLayout.
From S2P Require Import CellBodySpec CellRing CacheMetrics Cell CellTyped CellSpec CellCrash CellPersist CellHistory CellTruncate.

(** * A small cell *)

(** Checksum number [i] of directory block [blk]. *)
Definition demo_sum (i blk : Z) : checksum :=
  map byte.of_Z (repeat i 17 ++ blk :: repeat 0 14).
Definition demo_chunk (n : nat) (i blk : Z) : checksum * list byte :=
  (demo_sum i blk, replicate n Byte.x41).

(** A slab of zero bytes with room for [lim] bytes in front of the header. *)
Definition zero_cell (lim : Z) : cell :=
  Cell (CellHeader 0 0 0 (CellIc 0 0) (CellBody 0 0) cell_dir_init)
       (Slab ∅ lim) (lim + sizeof_cell_header).

Lemma zero_cell_typed lim : well_typed (zero_cell lim).
Proof.
  assert (Hh : header_offset (zero_cell lim) = lim).
  { unfold header_offset, zero_cell. cbn [slab_size]. lia. }
  unfold well_typed. rewrite Hh. split; try done. apply cell_dir_init_typed.
Qed.

Lemma zero_cell_ok lim :
  1240 ≤ lim < 151551 → slab_ok 1 101 (zero_cell lim).
Proof.
  intros. assert (Hh : header_offset (zero_cell lim) = lim).
  { unfold header_offset, zero_cell. cbn [slab_size]. lia. }
  split; rewrite ?Hh; [| |split; lia].
  { apply zero_cell_typed. }
  unfold zero_cell; cbn [slab_size]. change sizeof_cell_header with 28704. lia.
Qed.

(** The cell after the chunks of [hist]. *)
Definition demo_cell (hist : list (checksum * list byte)) : cell :=
  (open_and_add (zero_cell 1296) hist).2.

Definition demo_hist : list (checksum * list byte) :=
  [demo_chunk 100 1 1; demo_chunk 100 2 2; demo_chunk 50 3 3].

Lemma demo_hist_ok : Forall (call_ok 1 101) demo_hist.
Proof. repeat constructor; vm_compute; congruence. Qed.

Lemma demo_empty : cell_inv 1 101 (demo_cell []) [] [].
Proof.
  destruct (cell_init_fresh 1 101 (zero_cell 1296) (zero_cell_ok 1296 ltac:(lia)) eq_refl)
    as (c' & Hrun & Hinv & _).
  unfold demo_cell, open_and_add. by rewrite (bind_ok _ _ _ _ _ Hrun).
Qed.

Lemma demo_inv : cell_inv 1 101 (demo_cell demo_hist) (entry_of <$> demo_hist) [].
Proof.
  destruct (cell_init_fresh 1 101 (zero_cell 1296) (zero_cell_ok 1296 ltac:(lia)) eq_refl)
    as (c' & Hrun & Hinv & Hsz).
  destruct (add_all_first_lap 1 101 demo_hist c' []) as (c2 & Hr & Hinv2).
  - done.
  - apply demo_hist_ok.
  - apply (bool_decide_unpack _); by vm_compute.
  - unfold header_offset. rewrite Hsz. vm_compute. congruence.
  - unfold demo_cell, open_and_add. rewrite (bind_ok _ _ _ _ _ Hrun). by rewrite Hr.
Qed.

(** * Adding a chunk *)

(** C2: [cell_add_chunk] implements the ring specification.  A checksum the cell holds
    gives [false] and leaves every byte as it was.  A new chunk takes one step of the ring
    and leaves a consistent cell, or, only when a single entry of the chunk's own size is
    left before the top and the directory has no room for one more slot, an assertion
    stops the process with the integrity code telling that the cell was being changed. *)
Theorem cell_add_chunk_refines_ring smin smax c pre suf s buffer n :
  cell_inv smin smax c pre suf → arg_ok smin smax s buffer n →
  (is_Some (contents (pre ++ suf) !! s) ∧ cell_add_chunk s buffer n c = (Ok false, c)) ∨
  (contents (pre ++ suf) !! s = None ∧
   let b := chunk_of s buffer n in
   ((stuck c b suf ∨ suf = [] ∧ room c < 36 ∧ stuck c b pre) ∧
    ∃ c', cell_add_chunk s buffer n c = (Err AssertFail, c')
      ∧ cell_ic_sane (hdr_ic (cell_hdr c')) = false) ∨
   ∃ c' pre' suf', cell_add_chunk s buffer n c = (Ok true, c')
     ∧ ring_step b pre suf pre' suf' ∧ cell_inv smin smax c' pre' suf').
Proof.
  intros Hinv Harg.
  destruct (cell_add_chunk_spec smin smax c pre suf s buffer n Hinv Harg)
    as [?|[Hn [(Hst & c' & ? & ? & _)|(c' & pre' & suf' & ? & ? & ? & _)]]]; [by left|right..].
  - split; [done|left]. split; [done|]. by exists c'.
  - split; [done|right]. by exists c', pre', suf'.
Qed.

Lemma demo_arg : arg_ok 1 101 (demo_sum 7 7) (replicate 80 Byte.x42) 80.
Proof. split; vm_compute; repeat split; congruence. Qed.

Lemma cell_add_chunk_refines_ring_witness :
  let c := demo_cell demo_hist in let s := demo_sum 7 7 in let d := replicate 80 Byte.x42 in
  let pre := entry_of <$> demo_hist in
  (is_Some (contents (pre ++ []) !! s) ∧ cell_add_chunk s d 80 c = (Ok false, c)) ∨
  (contents (pre ++ []) !! s = None ∧
   let b := chunk_of s d 80 in
   ((stuck c b [] ∨ [] = ([] : list bentry) ∧ room c < 36 ∧ stuck c b pre) ∧
    ∃ c', cell_add_chunk s d 80 c = (Err AssertFail, c')
      ∧ cell_ic_sane (hdr_ic (cell_hdr c')) = false) ∨
   ∃ c' pre' suf', cell_add_chunk s d 80 c = (Ok true, c')
     ∧ ring_step b pre [] pre' suf' ∧ cell_inv 1 101 c' pre' suf').
Proof. exact (cell_add_chunk_refines_ring 1 101 _ _ [] _ _ 80 demo_inv demo_arg). Defined.

(** C21: the chunks leave a cell in the order they came.  One addition evicts the oldest
    chunks [w], as many as the bytes of the new chunk need and no more than one entry
    beyond them, and at most one other chunk [l], the newest of the previous lap; every
    other chunk stays, in the same order, and the new one is the newest, unless all that
    was left of the previous lap went and the new chunk with it. *)
Theorem cell_add_chunk_evicts_oldest smin smax c pre suf s buffer n c' :
  cell_inv smin smax c pre suf → arg_ok smin smax s buffer n →
  cell_add_chunk s buffer n c = (Ok true, c') →
  let b := chunk_of s buffer n in
  ∃ pre' suf', cell_inv smin smax c' pre' suf' ∧
    ∃ w m l r, by_age pre suf = w ++ m ++ l ++ r
      ∧ (length l ≤ 1)%nat ∧ span w ≤ b_span b + smax + 71
      ∧ (by_age pre' suf' = m ++ r ++ [b] ∨ by_age pre' suf' = r ∧ m = []).
Proof.
  intros Hinv Harg Hrun b. pose proof (bi_contract _ _ _ _ _ (ci_body _ _ _ _ _ Hinv)) as Hct.
  destruct (arg_chunk_ok smin smax s buffer n) as (Hck & _ & Hbs); [destruct Hct; lia..|done|].
  destruct (cell_add_chunk_spec smin smax c pre suf s buffer n Hinv Harg)
    as [[_ Hr]|[_ [(_ & c1 & Hr & _)|(c1 & pre' & suf' & Hr & Hstep & Hinv' & _)]]];
    rewrite Hrun in Hr; [done|done|]. injection Hr as <-. exists pre', suf'. split; [done|].
  destruct (ring_step_evicts smin smax b pre suf pre' suf') as (w & m & l & ? & ? & ? & ?);
    [apply Hct|apply Hck|done|apply Hinv|done|]. by eexists w, m, l, _.
Qed.

Lemma cell_add_chunk_evicts_oldest_witness :
  let c := demo_cell demo_hist in let s := demo_sum 7 7 in let d := replicate 80 Byte.x42 in
  let pre := entry_of <$> demo_hist in let b := chunk_of s d 80 in
  ∃ pre' suf', cell_inv 1 101 (cell_add_chunk s d 80 c).2 pre' suf' ∧
    ∃ w m l r, by_age pre [] = w ++ m ++ l ++ r
      ∧ (length l ≤ 1)%nat ∧ span w ≤ b_span b + 101 + 71
      ∧ (by_age pre' suf' = m ++ r ++ [b] ∨ by_age pre' suf' = r ∧ m = []).
Proof.
  refine (cell_add_chunk_evicts_oldest 1 101 _ _ [] _ _ 80 _ demo_inv demo_arg _). vm_compute. reflexivity.
Defined.

(** * The loop over the body *)

(** What the loop of [cell_body_add_offset] makes of the entries [rest] behind the entry
    [cur], for a chunk of [n] bytes.  It starts in the state [c1] that the code before it,
    [open_entry], leaves.  It ends at the top, if the room of all entries is not enough, or at
    the entry [l] that makes it enough; the chunks of the entries it passed are not in the
    directory any more, those of [kept] are. *)
Definition scan_ends (c : cell) (pre : list bentry) (cur : bentry) (rest : list bentry) (n : Z) : Prop :=
  ∃ c1, (∀ A (k : Z → Z → M cell A), open_entry k c = k (span pre) (b_size cur) c1) ∧
    (length rest < scan_fuel c1)%nat ∧
    ∀ fuel, (length rest < fuel)%nat → ∃ c' kept,
      (cell_body_scan fuel (n + 36) (b_size cur) (span pre) c1 = (Ok HitTop, c') ∧
         b_size cur + span rest < n + 36 ∧ kept = pre ∨
       ∃ v r p l, cell_body_scan fuel (n + 36) (b_size cur) (span pre) c1 =
           (Ok (Enough (b_size cur + span v) (span p)), c') ∧
         rest = v ++ r ∧ pre ++ taken cur :: v = p ++ [l] ∧ kept = pre ++ r ∧
         n + 36 ≤ b_size cur + span v ∧
         ∀ v1 x v2, v = v1 ++ x :: v2 → b_size cur + span v1 < n + 36) ∧
      ∀ s, checksum_wf s → cell_has_chunk s c' = (Ok (bool_decide (s ∈ b_sum <$> live kept)), c').

Lemma snoc_prefix {A} (l1 : list A) x l2 l y : l1 ++ x :: l2 = l ++ [y] → ∃ t, l = l1 ++ t.
Proof.
  intros H. destruct l2 as [|z l2 _] using rev_ind.
  - apply app_inj_tail in H as [-> _]. exists []. by rewrite app_nil_r.
  - rewrite app_comm_cons, app_assoc in H. apply app_inj_tail in H as [<- _]. by eexists.
Qed.

(** C11: the loop of [cell_body_add_offset], which follows the sizes it reads from the
    entries of the body, ends in every consistent cell: with any fuel above the number of
    entries in front of the top, that of the model among it ([scan_ends]).  Where the entry to
    be overwritten and all behind it have too little room for the new chunk it stops at the
    top; else at the first entry that makes the room enough, and it has counted the bytes of
    exactly the entries it passed.  It reads nothing outside of the slab, and it removes from
    the directory the chunks it passed and no other. *)
Theorem cell_body_scan_correct smin smax c pre cur rest s buffer n :
  cell_inv smin smax c pre (cur :: rest) → arg_ok smin smax s buffer n →
  contents (pre ++ cur :: rest) !! s = None → scan_ends c pre cur rest n.
Proof.
  intros Hci Harg Hnew. pose proof (ci_body _ _ _ _ _ Hci) as Hinv.
  pose proof (bi_contract _ _ _ _ _ Hinv) as Hct.
  destruct (arg_chunk_ok smin smax s buffer n) as (Hck & Hsz & Hbs); [destruct Hct; lia..|done|].
  apply contents_None in Hnew.
  destruct (open_entry_spec _ _ _ _ _ _ Hinv) as (c1 & Hrun & Hring & Hk & _). exists c1. split; [done|].
  pose proof (opened_intro _ _ _ _ _ _ _ _ _ Hinv Hck Hbs Hnew Hring Hk) as Hop.
  split; [by eapply scan_fuel_enough|]. intros fuel Hfuel.
  pose proof Hop as [_ _ _ Hrest _ _ _ _ _ _]. destruct Hring as [H Hlay Htop _].
  destruct (cell_body_scan_spec rest fuel c1 _ pre (taken cur) (live_at 0 pre) (b_size cur) (n + 36) Hlay Htop H Hrest Hfuel)
    as [(c' & Hr & Hlt & Hc' & _)|(c' & v & r & p & l & Hr & Heq & Hl & [Hs1 Hs2] & Hc' & _)];
    [done|rewrite <-Hsz; intros; by eapply window_pos|apply b_size_nonneg|destruct Hct; lia|..].
  - exists c', pre. split; [by left|]. intros s' Hs'.
    by rewrite (dcore_has_chunk _ _ _ Hc' Hs'), live_at_lsum.
  - exists c', (pre ++ r). split.
    + right. exists v, r, p, l. split_and!; [done..|]. intros v1 x v2 ->.
      destruct Hs2 as [?|(v' & y & Hv & Hlt)]; [by destruct v1|].
      destruct (snoc_prefix v1 x v2 v' y Hv) as [t ->]. rewrite span_app in Hlt. pose proof (span_nonneg t). lia.
    + intros s' Hs'. rewrite (dcore_has_chunk _ _ _ Hc' Hs'). do 2 f_equal. apply bool_decide_ext.
      rewrite fmap_app, !live_at_lsum, live_app, fmap_app. set_solver.
Qed.

(** A cell in its second lap: nine chunks of 100 bytes fill its body, and a tenth has taken
    the place of the first. *)
Definition first_lap : list (checksum * list byte) :=
  (λ i, demo_chunk 100 i i) <$> [1; 2; 3; 4; 5; 6; 7; 8; 9].
Definition second_lap : list (checksum * list byte) := first_lap ++ [demo_chunk 100 11 11].

Lemma second_lap_inv : ∃ pre cur rest, cell_inv 1 101 (demo_cell second_lap) pre (cur :: rest).
Proof.
  destruct (cell_init_fresh 1 101 (zero_cell 1296) (zero_cell_ok 1296 ltac:(lia)) eq_refl)
    as (c & Hrun & Hinv & _).
  assert (Hr : open_and_add (zero_cell 1296) second_lap = add_all second_lap c).
  { unfold open_and_add. by rewrite (bind_ok _ _ _ _ _ Hrun). }
  assert (Hok : (open_and_add (zero_cell 1296) second_lap).1 = Ok (replicate 10 true)) by (by vm_compute).
  destruct (add_all_spec 1 101 second_lap c [] [] Hinv) as [(c' & Hr' & _)|(rs & c' & pre & suf & Hr' & Hinv' & _)].
  - repeat constructor; vm_compute; congruence.
  - by rewrite Hr, Hr' in Hok.
  - assert (Hc : demo_cell second_lap = c') by (unfold demo_cell; by rewrite Hr, Hr').
    destruct suf as [|cur rest]; [|exists pre, cur, rest; by rewrite Hc].
    exfalso. destruct (bi_ring _ _ _ _ _ (ci_body _ _ _ _ _ Hinv')) as [_ _ Htop Hnext].
    rewrite app_nil_r in Htop. rewrite <-Hnext, <-Hc in Htop. revert Htop. by vm_compute.
Qed.

Lemma cell_body_scan_correct_witness :
  ∃ pre cur rest, cell_inv 1 101 (demo_cell second_lap) pre (cur :: rest) ∧
    scan_ends (demo_cell second_lap) pre cur rest 60.
Proof.
  destruct second_lap_inv as (pre & cur & rest & Hinv). exists pre, cur, rest. split; [exact Hinv|].
  apply (cell_body_scan_correct 1 101 _ _ _ _ (demo_sum 12 12) (replicate 80 Byte.x42)); [exact Hinv| |].
  - split; vm_compute; repeat split; congruence.
  - pose proof (cell_has_chunk_spec 1 101 _ _ _ (demo_sum 12 12) (ci_body _ _ _ _ _ Hinv) eq_refl) as Hhas.
    assert (Hno : (cell_has_chunk (demo_sum 12 12) (demo_cell second_lap)).1 = Ok false) by (vm_compute; reflexivity).
    rewrite Hhas in Hno. simpl in Hno. destruct (contents _ !! demo_sum 12 12); [|reflexivity].
    rewrite bool_decide_true in Hno; [discriminate|by eexists].
Defined.

(** * Lookups *)

(** [cell_get_chunk] gives the caller the checksum, the size and the bytes of the
    chunk the cell holds under the checksum, and nothing otherwise; [cell_has_chunk]
    tells which it will be; neither changes the cell. *)
Theorem cell_lookup_correct smin smax c pre suf s ch :
  cell_inv smin smax c pre suf → checksum_wf s →
  cell_has_chunk s c = (Ok (bool_decide (is_Some (contents (pre ++ suf) !! s))), c) ∧
  match contents (pre ++ suf) !! s with
  | Some d => ∃ ch', cell_get_chunk s ch c = (Ok (Some ch'), c)
               ∧ chunk_checksum ch' = s ∧ chunk_data ch' = d
               ∧ chunk_buffer_size ch' = Z.of_nat (length d)
  | None => cell_get_chunk s ch c = (Ok None, c)
  end.
Proof.
  intros [_ _ _ Hinv] Hs. split; [by eapply cell_has_chunk_spec|by eapply cell_get_chunk_spec].
Qed.

Lemma cell_lookup_correct_witness :
  let c := demo_cell demo_hist in let s := demo_sum 2 2 in
  let es := (entry_of <$> demo_hist) ++ [] in
  cell_has_chunk s c = (Ok (bool_decide (is_Some (contents es !! s))), c) ∧
  match contents es !! s with
  | Some d => ∃ ch', cell_get_chunk s chunk_init c = (Ok (Some ch'), c)
               ∧ chunk_checksum ch' = s ∧ chunk_data ch' = d
               ∧ chunk_buffer_size ch' = Z.of_nat (length d)
  | None => cell_get_chunk s chunk_init c = (Ok None, c)
  end.
Proof. apply (cell_lookup_correct 1 101); [exact demo_inv|reflexivity]. Defined.

(** The counts a cell reports are the number of its chunks and the sum of their
    sizes, and [cell_get_metrics] adds them to the totals modulo 2^64. *)
Theorem cell_counts_correct smin smax c pre suf m :
  cell_inv smin smax c pre suf →
  let es := live (pre ++ suf) in
  let bytes := span es - 36 * Z.of_nat (length es) in
  cell_entry_count c = (Ok (Z.of_nat (length es)), c) ∧ cell_byte_count c = (Ok bytes, c) ∧
  cell_get_metrics m c =
    (Ok (CacheMetrics (u64 (metrics_byte_count m + bytes))
                      (u64 (metrics_entry_count m + Z.of_nat (length es)))), c).
Proof.
  intros [_ _ _ Hinv] es bytes. destruct (cell_counts_spec _ _ _ _ _ Hinv) as [He Hb].
  split_and!; [done..|]. unfold cell_get_metrics. mrun by exact Hb. by mrun by exact He.
Qed.

Lemma cell_counts_correct_witness :
  let c := demo_cell demo_hist in let es := live ((entry_of <$> demo_hist) ++ []) in
  let bytes := span es - 36 * Z.of_nat (length es) in
  cell_entry_count c = (Ok (Z.of_nat (length es)), c) ∧ cell_byte_count c = (Ok bytes, c) ∧
  cell_get_metrics cache_metrics_init c =
    (Ok (CacheMetrics (u64 (0 + bytes)) (u64 (0 + Z.of_nat (length es)))), c).
Proof. apply (cell_counts_correct 1 101 _ _ _ cache_metrics_init demo_inv). Defined.

(** * Histories *)

(** A cell gives back only what was put in.  After any sequence of additions to a
    newly opened slab that was not a cell before, a chunk that [cell_get_chunk] returns
    carries the checksum asked for and bytes that some addition stored under it, and
    the sequence returns, or ends in an assertion: no access leaves the slab and no loop
    runs for ever. *)
Theorem cell_returns_only_added smin smax c0 hist s ch :
  slab_ok smin smax c0 → cell_header_sane (cell_hdr c0) = false →
  Forall (call_ok smin smax) hist → checksum_wf s →
  let r := open_and_add c0 hist in
  match r.1 with
  | Ok rs => length rs = length hist ∧
      match (cell_get_chunk s ch r.2).1 with
      | Ok (Some ch') => chunk_checksum ch' = s ∧ (s, chunk_data ch') ∈ hist
      | Ok None => True
      | Err _ => False
      end
  | Err e => e = AssertFail
  end.
Proof.
  intros Hok Hsane Hh Hs. destruct (cell_init_fresh _ _ _ Hok Hsane) as (c1 & Hrun & Hinv & _).
  cbv zeta. unfold open_and_add. rewrite (bind_ok _ _ _ _ _ Hrun).
  destruct (add_all_spec smin smax hist c1 [] [] Hinv Hh)
    as [(c' & -> & _)|(rs & c' & pre' & suf' & -> & Hinv' & Hl & Hc)]; cbn [fst snd]; [done|].
  split; [done|]. pose proof (cell_get_chunk_spec smin smax _ _ _ s ch (ci_body _ _ _ _ _ Hinv') Hs) as Hg.
  destruct (contents (pre' ++ suf') !! s) as [d|] eqn:Hd.
  - destruct Hg as (ch' & Hr & ? & Hdat & _). rewrite Hr. cbn [fst]. rewrite Hdat. split; [done|].
    by apply Hc in Hd as [Hd|?].
  - by rewrite Hg.
Qed.

Lemma cell_returns_only_added_witness :
  let r := open_and_add (zero_cell 1296) demo_hist in
  match r.1 with
  | Ok rs => length rs = length demo_hist ∧
      match (cell_get_chunk (demo_sum 2 2) chunk_init r.2).1 with
      | Ok (Some ch') => chunk_checksum ch' = demo_sum 2 2 ∧ (demo_sum 2 2, chunk_data ch') ∈ demo_hist
      | Ok None => True
      | Err _ => False
      end
  | Err e => e = AssertFail
  end.
Proof.
  apply (cell_returns_only_added 1 101); [apply zero_cell_ok; lia|reflexivity| |reflexivity].
  exact demo_hist_ok.
Defined.

(** C20: as long as the chunks with their entries and directory slots fit in the body, a
    cell keeps them all: every addition of a new checksum returns [true] and afterwards
    each of the chunks is found with its bytes. *)
Theorem cell_keeps_first_lap smin smax c0 hist :
  slab_ok smin smax c0 → cell_header_sane (cell_hdr c0) = false →
  Forall (call_ok smin smax) hist → NoDup (fst <$> hist) → cost hist + 36 ≤ header_offset c0 →
  ∃ c, open_and_add c0 hist = (Ok (replicate (length hist) true), c) ∧
    ∀ s d ch, (s, d) ∈ hist →
      ∃ ch', cell_get_chunk s ch c = (Ok (Some ch'), c) ∧ chunk_checksum ch' = s ∧ chunk_data ch' = d.
Proof.
  intros Hok Hsane Hh Hnd Hcost. destruct (cell_init_fresh _ _ _ Hok Hsane) as (c1 & Hrun & Hinv & Hsz).
  destruct (add_all_first_lap smin smax hist c1 [] Hinv Hh Hnd) as (c & Hr & Hinv').
  { unfold header_offset in *. by rewrite Hsz. }
  exists c. split; [unfold open_and_add; by rewrite (bind_ok _ _ _ _ _ Hrun)|]. intros s d ch Hin.
  assert (Hs : checksum_wf s) by (rewrite Forall_forall in Hh; by apply Hh in Hin as [? _]).
  pose proof (cell_get_chunk_spec smin smax _ _ _ s ch (ci_body _ _ _ _ _ Hinv') Hs) as Hg.
  rewrite app_nil_r, contents_entries in Hg. simpl in Hg.
  rewrite (elem_of_list_to_map_1 hist s d Hnd Hin) in Hg.
  destruct Hg as (ch' & ? & ? & ? & _). by exists ch'.
Qed.

Lemma cell_keeps_first_lap_witness :
  ∃ c, open_and_add (zero_cell 1296) demo_hist = (Ok (replicate (length demo_hist) true), c) ∧
    ∀ s d ch, (s, d) ∈ demo_hist →
      ∃ ch', cell_get_chunk s ch c = (Ok (Some ch'), c) ∧ chunk_checksum ch' = s ∧ chunk_data ch' = d.
Proof.
  apply (cell_keeps_first_lap 1 101).
  - apply zero_cell_ok; lia.
  - reflexivity.
  - exact demo_hist_ok.
  - apply (bool_decide_unpack _); by vm_compute.
  - vm_compute. congruence.
Defined.

(** * Crashes and reopening *)

(** At no access of [cell_body_add], whatever the memory holds and however it ends, does
    the integrity code, the magic number or the geometry of the cell change: between
    [cell_ic_on_entry] and [cell_ic_on_exit] the cell stays marked. *)
Theorem cell_body_add_keeps_mark s buffer n e c :
  well_typed c → checksum_wf s → cell_dir_entry_wf e →
  let P c' := hdr_ic (cell_hdr c') = hdr_ic (cell_hdr c) ∧ magic (cell_hdr c') = magic (cell_hdr c) ∧
              slab_size c' = slab_size c ∧ s_lim (cell_slab c') = s_lim (cell_slab c) in
  Forall P (trace (cell_body_add s buffer n e) c) ∧ P (cell_body_add s buffer n e c).2.
Proof.
  intros Hty Hs He P. set (lim := header_offset c) in *.
  assert (HP : ∀ t, marked lim (slab_size c) (magic (cell_hdr c)) (hdr_ic (cell_hdr c)) t → P t).
  { intros t ([] & Hm & Hi). split_and!; try done.
    by rewrite (sty_lim _ _ ty_slab), (sty_lim _ _ (CellTyped.ty_slab _ _ _ Hty)). }
  destruct (cell_body_add_stays lim (slab_size c) (magic (cell_hdr c)) (hdr_ic (cell_hdr c)) s buffer n e)
    with c as (Htr & Hend & _); [unfold lim, header_offset; vm_compute (sizeof_cell_header); lia|done..|by split_and!|].
  split; [|by apply HP]. eapply Forall_impl; [exact Htr|exact HP].
Qed.

Lemma cell_body_add_keeps_mark_witness :
  let c := demo_cell demo_hist in
  let P c' := hdr_ic (cell_hdr c') = hdr_ic (cell_hdr c) ∧ magic (cell_hdr c') = magic (cell_hdr c) ∧
              slab_size c' = slab_size c ∧ s_lim (cell_slab c') = s_lim (cell_slab c) in
  let m := cell_body_add (demo_sum 7 7) (replicate 80 Byte.x42) 80 cell_dir_entry_init in
  Forall P (trace m c) ∧ P (m c).2.
Proof.
  apply cell_body_add_keeps_mark; [exact (ci_typed _ _ _ _ _ demo_inv)|exact (ao_sum _ _ _ _ _ demo_arg)|].
  vm_compute. repeat split; congruence.
Defined.

(** [cell_init] of a slab whose header has the magic number and equal codes changes
    nothing; of any other contents, such as those of a process that died inside
    [cell_add_chunk], it makes an empty cell. *)
Theorem cell_init_recovers smin smax c :
  slab_ok smin smax c →
  ∃ c', cell_init (slab_size c) c = (Ok tt, c') ∧
    if cell_header_sane (cell_hdr c) then c' = c else cell_inv smin smax c' [] [].
Proof.
  intros Hok. destruct (cell_header_sane (cell_hdr c)) eqn:Hs.
  - exists c. split; [by eapply cell_init_keeps|done].
  - destruct (cell_init_fresh _ _ _ Hok Hs) as (c' & ? & ? & _). by exists c'.
Qed.

Lemma cell_init_recovers_witness :
  ∃ c', cell_init (slab_size (zero_cell 1296)) (zero_cell 1296) = (Ok tt, c') ∧
    if cell_header_sane (cell_hdr (zero_cell 1296)) then c' = zero_cell 1296
    else cell_inv 1 101 c' [] [].
Proof. apply (cell_init_recovers 1 101). apply zero_cell_ok. lia. Defined.

(** Reopening the slab after a sequence of additions: if they all returned, the cell
    is as it was left; if an assertion stopped one of them, the cell is empty and
    consistent again. *)
Theorem cell_reopen smin smax c pre suf hist :
  cell_inv smin smax c pre suf → Forall (call_ok smin smax) hist →
  let r := add_all hist c in
  ∃ c', cell_init (slab_size r.2) r.2 = (Ok tt, c') ∧
    match r.1 with
    | Ok _ => c' = r.2
    | Err _ => cell_inv smin smax c' [] []
    end.
Proof.
  intros Hinv Hh. destruct (add_all_spec smin smax hist c pre suf Hinv Hh)
    as [(c' & -> & Hic & Hok)|(rs & c' & pre' & suf' & -> & Hinv' & _)]; cbn [fst snd].
  - destruct (cell_init_fresh _ _ _ Hok) as (c'' & ? & ? & _); [|by exists c''].
    unfold cell_header_sane. rewrite Hic. by destruct (negb _).
  - exists c'. split; [|done]. eapply cell_init_keeps; [by eapply cell_inv_slab_ok|by eapply cell_inv_sane].
Qed.

Lemma cell_reopen_witness :
  let r := add_all demo_hist (demo_cell []) in
  ∃ c', cell_init (slab_size r.2) r.2 = (Ok tt, c') ∧
    match r.1 with
    | Ok _ => c' = r.2
    | Err _ => cell_inv 1 101 c' [] []
    end.
Proof. apply (cell_reopen 1 101 _ [] []); [exact demo_empty|exact demo_hist_ok]. Defined.

(** C30: a cell is not checked when it is used, only when it is opened: [cell_add_chunk] on
    a cell whose codes differ adds its chunk like on any other, and when it returns
    [true] the codes are equal, whatever they were before. *)
Theorem cell_add_chunk_clears_mark s buffer n c c' :
  well_typed c → checksum_wf s → cell_add_chunk s buffer n c = (Ok true, c') →
  entry_code (hdr_ic (cell_hdr c')) = u32 (entry_code (hdr_ic (cell_hdr c)) + 1) ∧
  cell_ic_sane (hdr_ic (cell_hdr c')) = true.
Proof.
  intros Hty Hs. unfold cell_add_chunk. rewrite bind_gets. intros Hrun.
  apply bind_inv in Hrun as (found & c1 & Hfound & Hrun). destruct found as [e|]; [done|].
  pose proof (proj1 (reads_run _ c (cell_dir_get_chunk_reads (header_offset c) s))) as Hc1.
  rewrite Hfound in Hc1. simpl in Hc1. subst c1.
  apply bind_inv in Hrun as (z & c2 & Hentry & Hrun). apply bind_inv in Hrun as (e & c3 & Hadd & Hrun).
  injection Hentry as _ <-.
  set (i := CellIc (u32 (entry_code (hdr_ic (cell_hdr c)) + 1)) (exit_code (hdr_ic (cell_hdr c)))) in *.
  destruct (cell_body_add_typed s buffer n c i) as (_ & Hi & _); [|done..|].
  { split; [apply u32_bound|apply (ty_ic _ _ _ Hty)]. }
  rewrite Hadd in Hi. simpl in Hi. injection Hrun as <-. cbn [cell_hdr put_ic put_hdr hdr_ic entry_code].
  rewrite Hi. split; [done|apply Z.eqb_refl].
Qed.

Lemma cell_add_chunk_clears_mark_witness :
  let c := put_ic (CellIc 7 3) (demo_cell demo_hist) in
  let c' := (cell_add_chunk (demo_sum 7 7) (replicate 80 Byte.x42) 80 c).2 in
  entry_code (hdr_ic (cell_hdr c')) = u32 (entry_code (hdr_ic (cell_hdr c)) + 1) ∧
  cell_ic_sane (hdr_ic (cell_hdr c')) = true.
Proof.
  apply (cell_add_chunk_clears_mark (demo_sum 7 7) (replicate 80 Byte.x42) 80).
  - apply put_ic_typed; [done|]. apply demo_inv.
  - done.
  - vm_compute. reflexivity.
Defined.

(** * What modelling showed *)

(** The second lap replaces them one by one; the eighth needs a slot in the overflow area
    and the ninth, in the last place before the top, finds no room for another. *)
Definition stuck_hist : list (checksum * list byte) :=
  first_lap ++ ((λ x, demo_chunk 100 x.1 x.2) <$>
    [(11, 10); (12, 10); (13, 10); (14, 11); (15, 12); (16, 13); (17, 14); (18, 10); (19, 15)]).

(** C35: within the contract [cell_add_chunk] can stop the process: the history
    [stuck_hist] ends in a failed assertion, because [cell_body_add_dir_entry] takes the
    entry just written for the entry below the top. *)
Theorem cell_add_chunk_aborts :
  slab_ok 1 101 (zero_cell 1296) ∧ Forall (call_ok 1 101) stuck_hist ∧
  (open_and_add (zero_cell 1296) stuck_hist).1 = Err AssertFail.
Proof.
  split_and!; [apply zero_cell_ok; lia| |by vm_compute].
  repeat constructor; vm_compute; congruence.
Qed.

(** The last chunk is a byte larger than the place that is left. *)
Definition drop_hist : list (checksum * list byte) :=
  first_lap ++ ((λ i, demo_chunk 100 i i) <$> [11; 12; 13; 14; 15; 16; 17; 18])
            ++ [demo_chunk 101 19 19].

(** C36: [cell_add_chunk] can answer [true] for a chunk it dropped:
    [cell_body_push_down_top] ignores that [cell_body_add_top] found no room. *)
Theorem cell_add_chunk_drops :
  slab_ok 1 101 (zero_cell 1296) ∧ Forall (call_ok 1 101) drop_hist ∧
  let r := open_and_add (zero_cell 1296) drop_hist in
  r.1 = Ok (replicate 18 true) ∧ (cell_has_chunk (demo_sum 19 19) r.2).1 = Ok false.
Proof.
  split_and!; [apply zero_cell_ok; lia|repeat constructor; vm_compute; congruence|by vm_compute..].
Qed.

(** C37: the 15 bits in which an entry keeps the size of its chunk cut it.  In the first lap
    of a cell, with room for it, every new chunk of [CHUNK_MAX_BUFFER_SIZE] bytes or more, up
    to 65535, is added with [true] and is found, and comes back without its last 32768 bytes:
    one of [CHUNK_MAX_BUFFER_SIZE] bytes, which [chunk_set] accepts, comes back empty. *)
Theorem cell_add_chunk_truncates smin smax c pre s buffer n :
  cell_inv smin smax c pre [] → checksum_wf s → contents pre !! s = None →
  CHUNK_MAX_BUFFER_SIZE ≤ n < 65536 → n ≤ Z.of_nat (length buffer) → n + 72 ≤ room c →
  ∃ c', cell_add_chunk s buffer n c = (Ok true, c') ∧ cell_has_chunk s c' = (Ok true, c') ∧
    ∀ ch, ∃ ch', cell_get_chunk s ch c' = (Ok (Some ch'), c') ∧ chunk_checksum ch' = s ∧
      chunk_data ch' = take (Z.to_nat (n - CHUNK_MAX_BUFFER_SIZE)) buffer.
Proof. apply cell_add_chunk_cut. Qed.

Definition big_cell : cell := (cell_init (65536 + sizeof_cell_header) (zero_cell 65536)).2.

Lemma big_cell_inv : cell_inv 1 101 big_cell [] [].
Proof.
  destruct (cell_init_fresh 1 101 (zero_cell 65536) (zero_cell_ok 65536 ltac:(lia)) eq_refl)
    as (c' & Hrun & Hinv & _).
  unfold big_cell. change (65536 + sizeof_cell_header) with (slab_size (zero_cell 65536)). by rewrite Hrun.
Qed.

Lemma cell_add_chunk_truncates_witness :
  let s := demo_sum 1 1 in let d := replicate (Z.to_nat CHUNK_MAX_BUFFER_SIZE) Byte.x41 in
  ∃ c', cell_add_chunk s d CHUNK_MAX_BUFFER_SIZE big_cell = (Ok true, c') ∧
    cell_has_chunk s c' = (Ok true, c') ∧
    ∀ ch, ∃ ch', cell_get_chunk s ch c' = (Ok (Some ch'), c') ∧ chunk_checksum ch' = s ∧
      chunk_data ch' = take (Z.to_nat (CHUNK_MAX_BUFFER_SIZE - CHUNK_MAX_BUFFER_SIZE)) d.
Proof.
  apply (cell_add_chunk_truncates 1 101 _ _ _ _ _ big_cell_inv);
    [reflexivity|reflexivity|vm_compute; intuition congruence|rewrite length_replicate; unfold CHUNK_MAX_BUFFER_SIZE; lia|].
  vm_compute. congruence.
Defined.
