(* ===== verification/Cache.v ===== *)
(** cache_header.c and cache.c: the cache, a region of memory cut into slots of 1 MB: the
    first slot holds the header of the cache, each of the others a cell.  The first eight
    bytes of a checksum choose its cell. *)

From S2P Require Import Prelude Monad Slab Checksum CellIc CellDirEntry CellDirBlock CellDirOverflow.
From S2P Require Import CellDir CellBodyEntry CellHeader CellBody CacheMetrics Cell.
From coqutil Require Import Word.LittleEndianList.

(** * cache_header.c *)

Definition CACHE_HEADER_MAGIC : Z := 340865607434.

Record cache_header := CacheHeader {
  cache_magic : Z; (* uint64_t *)
  cell_count : Z;  (* uint64_t *)
}.

Definition cache_header_init (count : Z) : M cache_header unit :=
  h ← get;
  if cache_magic h =? CACHE_HEADER_MAGIC then mret tt
  else
    modify (λ h, CacheHeader (cache_magic h) count);;
    sync_synchronize;;
    modify (λ h, CacheHeader CACHE_HEADER_MAGIC (cell_count h));;
    sync_synchronize.

(** * cache.c *)

Definition CACHE_CELL_SIZE : Z := 1024 * 1024.

(** [struct cache] with the memory it points to: [cells_set] tells whether [cache->cells]
    is allocated, and element [i] of [cells] is the [struct cell] number [i] with its slab,
    the slot [i + 1] of the buffer. *)
Record cache := Cache {
  cache_hdr : cache_header;
  cells_set : bool;
  cells : list cell;
}.

Definition put_cache_hdr (h : cache_header) (c : cache) : cache := Cache h (cells_set c) (cells c).
Definition set_cells (b : bool) (c : cache) : cache := Cache (cache_hdr c) b (cells c).

#[export] Instance cache_hdr_lens : Lens cache_hdr put_cache_hdr.
Proof. split; [done..|by intros []]. Qed.

Definition on_header {A} (m : M cache_header A) : M cache A := zoom cache_hdr put_cache_hdr m.

(** A function of cell.c on [cache->cells + i]. *)
Definition put_cell (i : nat) (x : cell) (c : cache) : cache :=
  Cache (cache_hdr c) (cells_set c) (<[i := x]> (cells c)).

Definition cell_at (i : nat) (c : cache) : option cell :=
  if cells_set c then cells c !! i else None.

#[export] Instance cell_lens i : PLens (cell_at i) (put_cell i).
Proof.
  split; intros [h [] l]; unfold put_cell, cell_at; simpl; intros; try done.
  - apply list_lookup_insert_eq. by eapply lookup_lt_Some.
  - by rewrite list_insert_insert_eq.
  - by rewrite list_insert_id.
Qed.

Definition at_cell {A} (i : nat) (m : M cell A) : M cache A := zoom_opt (cell_at i) (put_cell i) m.

(** The loops over the cells: [n] iterations are left, the next is number [i]. *)
Fixpoint for_cells (n i : nat) (m : M cell unit) : M cache unit :=
  match n with
  | O => mret tt
  | S n => at_cell i m;; for_cells n (S i) m
  end.

(** The state before is the mapped buffer; [xmalloc] of the cells succeeds (it asserts
    so). *)
Definition cache_init (cache_buffer_size : Z) : M cache Z :=
  let cell_size := u32 CACHE_CELL_SIZE in
  let slots := cache_buffer_size / cell_size in
  ALWAYS (2 <=? slots);;
  let count := u64 (slots - 1) in
  on_header (cache_header_init count);;
  modify (set_cells true);;
  for_cells (Z.to_nat count) 0 (cell_init cell_size);;
  mret 0.

(** [memcpy] of the first bytes of the checksum into a [uint64_t], little endian. *)
Definition checksum_part (c : checksum) : Z := le_combine (take 8 c).

Definition cache_get_cell_index (c : checksum) : M cache nat :=
  count ← gets (λ s, cell_count (cache_hdr s));
  if count =? 0 then throw DivisionByZero else mret (Z.to_nat (checksum_part c `mod` count)).

Definition cache_add_chunk (sum : checksum) (buffer : list byte) (buffer_size : Z) : M cache bool :=
  i ← cache_get_cell_index sum;
  at_cell i (cell_add_chunk sum buffer buffer_size).

Definition cache_has_chunk (sum : checksum) : M cache bool :=
  i ← cache_get_cell_index sum;
  at_cell i (cell_has_chunk sum).

Definition cache_get_chunk (sum : checksum) (ch : chunk) : M cache (option chunk) :=
  i ← cache_get_cell_index sum;
  at_cell i (cell_get_chunk sum ch).

Definition cache_release : M cache unit :=
  set ← gets cells_set;
  if negb set then mret tt
  else
    count ← gets (λ s, cell_count (cache_hdr s));
    for_cells (Z.to_nat count) 0 cell_release;;
    modify (set_cells false).

(** The loop of [cache_get_metrics]. *)
Fixpoint add_metrics (n i : nat) (m : cache_metrics) : M cache cache_metrics :=
  match n with
  | O => mret m
  | S n => m ← at_cell i (cell_get_metrics m); add_metrics n (S i) m
  end.

Definition cache_get_metrics : M cache cache_metrics :=
  count ← gets (λ s, cell_count (cache_hdr s));
  add_metrics (Z.to_nat count) 0 cache_metrics_init.
