(* ===== verification/CacheSpec.v ===== *)
(** What the cache promises: its invariant, what it holds under a checksum, and the effect
    of each function of cache.c. *)

From S2P Require Import Prelude Monad Slab Checksum CellIc CellDirEntry CellDirBlock CellDirOverflow.
From S2P Require Import CellDir CellBodyEntry CellHeader CellState CellBody CellLayout.
From S2P Require Import CellBodySpec CellRing CacheMetrics Cell CellTyped CellSpec CellHistory.
From S2P Require Import Cache.

(** The entries of a cell, before and from its [next_entry_offset]. *)
Abbreviation ring_of := (list bentry * list bentry)%type.

Record cache_inv (smin smax : Z) (c : cache) (ls : list ring_of) : Prop := {
  cv_magic : cache_magic (cache_hdr c) = CACHE_HEADER_MAGIC;
  cv_set : cells_set c = true;
  cv_count : cell_count (cache_hdr c) = Z.of_nat (length (cells c));
  cv_some : cells c ≠ [];
  cv_cells : Forall2 (λ x l, cell_inv smin smax x l.1 l.2) (cells c) ls;
  cv_slots : Forall (λ x, slab_size x = CACHE_CELL_SIZE) (cells c);
}.

Definition cell_index (c : cache) (s : checksum) : nat :=
  Z.to_nat (checksum_part s `mod` cell_count (cache_hdr c)).

(** What the cache holds under a checksum. *)
Definition cache_lookup (c : cache) (ls : list ring_of) (s : checksum) : option (list byte) :=
  l ← ls !! cell_index c s; contents (l.1 ++ l.2) !! s.

(** * Loops over the cells *)
Section loops.
Implicit Types c : cache.

Lemma at_cell_run {A} i (m : M cell A) c :
  at_cell i m c =
    if cells_set c then
      match cells c !! i with
      | Some x => let '(r, x) := m x in (r, put_cell i x c)
      | None => (Err OutOfBounds, c)
      end
    else (Err OutOfBounds, c).
Proof.
  unfold at_cell. destruct (cell_at i c) as [x|] eqn:Hx; unfold cell_at in *.
  - destruct (cells_set c) eqn:Hs; [|done]. destruct (m x) as [r x'] eqn:Hm.
    rewrite Hx, (zoom_opt_run _ _ _ _ x r x'); [by rewrite Hm|unfold cell_at; by rewrite Hs|done].
  - rewrite zoom_opt_none by done. destruct (cells_set c); [by rewrite Hx|done].
Qed.

Lemma at_cell_ok {A} i (m : M cell A) c x r x' :
  cells_set c = true → cells c !! i = Some x → m x = (r, x') →
  at_cell i m c = (r, Cache (cache_hdr c) true (<[i := x']> (cells c))).
Proof. intros Hs Hx Hm. rewrite at_cell_run, Hs, Hx, Hm. unfold put_cell. by rewrite Hs. Qed.

Lemma at_cell_read {A} i (m : M cell A) c x r :
  cells_set c = true → cells c !! i = Some x → m x = (r, x) → at_cell i m c = (r, c).
Proof.
  intros Hs Hx Hm. rewrite (at_cell_ok _ _ _ _ _ _ Hs Hx Hm), list_insert_id by done.
  destruct c as [h b l]. simpl in Hs. by subst b.
Qed.

Lemma for_cells_spec (m : M cell unit) (P : cell → Prop) (Q : cell → cell → Prop) h :
  (∀ x, P x → ∃ x', m x = (Ok tt, x') ∧ Q x x') →
  ∀ todo xs, Forall P todo →
  ∃ todo', for_cells (length todo) (length xs) m (Cache h true (xs ++ todo)) =
             (Ok tt, Cache h true (xs ++ todo'))
    ∧ Forall2 Q todo todo'.
Proof.
  intros Hm todo. induction todo as [|x todo IH]; intros xs Hp; [by exists []|].
  apply Forall_cons in Hp as [Hx Hp]. destruct (Hm x Hx) as (x' & Hrun & HQ).
  destruct (IH (xs ++ [x']) Hp) as (todo' & Hr & Hall).
  exists (x' :: todo'). split; [|by constructor]. cbn [for_cells length].
  erewrite bind_ok; [|eapply at_cell_ok; [done|by apply list_lookup_middle|exact Hrun]].
  cbn [cache_hdr cells]. rewrite insert_app_r_alt by done. rewrite Nat.sub_diag. simpl.
  rewrite <-app_assoc in Hr. simpl in Hr. rewrite length_app, Nat.add_1_r in Hr.
  by rewrite Hr, <-app_assoc.
Qed.

Lemma for_cells_all (m : M cell unit) (P : cell → Prop) (Q : cell → cell → Prop) h xs :
  (∀ x, P x → ∃ x', m x = (Ok tt, x') ∧ Q x x') → Forall P xs →
  ∃ xs', for_cells (length xs) 0 m (Cache h true xs) = (Ok tt, Cache h true xs') ∧ Forall2 Q xs xs'.
Proof. intros Hm Hp. exact (for_cells_spec m P Q h Hm xs [] Hp). Qed.

End loops.

(** * The operations *)
Section ops.
Context (smin smax : Z).
Implicit Types c : cache.

Lemma cache_count_pos c ls : cache_inv smin smax c ls → 0 < cell_count (cache_hdr c).
Proof. intros [_ _ -> Hne _ _]. destruct (cells c); [done|]. simpl. lia. Qed.

Lemma cell_index_lt c ls s : cache_inv smin smax c ls → (cell_index c s < length (cells c))%nat.
Proof.
  intros H. pose proof (cache_count_pos _ _ H). unfold cell_index. rewrite (cv_count _ _ _ _ H) in *.
  pose proof (Z.mod_pos_bound (checksum_part s) (Z.of_nat (length (cells c)))). lia.
Qed.

Lemma cache_get_cell_index_ok c ls s :
  cache_inv smin smax c ls → cache_get_cell_index s c = (Ok (cell_index c s), c).
Proof.
  intros H. pose proof (cache_count_pos _ _ H). unfold cache_get_cell_index. mnorm.
  by replace (cell_count (cache_hdr c) =? 0) with false by lia.
Qed.

(** The cell of a checksum. *)
Lemma cache_cell c ls s :
  cache_inv smin smax c ls →
  ∃ x l, cells c !! cell_index c s = Some x ∧ ls !! cell_index c s = Some l
    ∧ cell_inv smin smax x l.1 l.2 ∧ cache_lookup c ls s = contents (l.1 ++ l.2) !! s.
Proof.
  intros H. pose proof (cell_index_lt _ _ s H) as Hlt.
  destruct (lookup_lt_is_Some_2 _ _ Hlt) as [x Hx].
  destruct (Forall2_lookup_l _ _ _ _ _ (cv_cells _ _ _ _ H) Hx) as (l & Hl & Hinv).
  exists x, l. unfold cache_lookup. by rewrite Hl.
Qed.

Lemma cache_has_chunk_spec c ls s :
  cache_inv smin smax c ls → checksum_wf s →
  cache_has_chunk s c = (Ok (bool_decide (is_Some (cache_lookup c ls s))), c).
Proof.
  intros H Hs. destruct (cache_cell c ls s H) as (x & l & Hx & _ & Hinv & ->).
  unfold cache_has_chunk. mrun by (by eapply cache_get_cell_index_ok).
  eapply at_cell_read; [apply H|exact Hx|]. eapply cell_has_chunk_spec; [apply Hinv|done].
Qed.

Lemma cache_get_chunk_spec c ls s ch :
  cache_inv smin smax c ls → checksum_wf s →
  match cache_lookup c ls s with
  | Some d => ∃ ch', cache_get_chunk s ch c = (Ok (Some ch'), c)
               ∧ chunk_checksum ch' = s ∧ chunk_data ch' = d
               ∧ chunk_buffer_size ch' = Z.of_nat (length d)
  | None => cache_get_chunk s ch c = (Ok None, c)
  end.
Proof.
  intros H Hs. destruct (cache_cell c ls s H) as (x & l & Hx & _ & Hinv & ->).
  pose proof (cell_get_chunk_spec smin smax x l.1 l.2 s ch (ci_body _ _ _ _ _ Hinv) Hs) as Hg.
  assert (Hrun : ∀ r, cell_get_chunk s ch x = (r, x) → cache_get_chunk s ch c = (r, c)).
  { intros r Hr. unfold cache_get_chunk. mrun by (by eapply cache_get_cell_index_ok).
    eapply at_cell_read; [apply H|exact Hx|exact Hr]. }
  destruct (contents (l.1 ++ l.2) !! s) as [d|]; [|by apply Hrun].
  destruct Hg as (ch' & Hr & ?). exists ch'. split; [by apply Hrun|done].
Qed.

(** The other cells, byte for byte. *)
Definition same_but (i : nat) (c c' : cache) : Prop :=
  cache_hdr c' = cache_hdr c ∧ length (cells c') = length (cells c) ∧
  ∀ j, j ≠ i → cells c' !! j = cells c !! j.

Lemma same_but_trans i c1 c2 c3 : same_but i c1 c2 → same_but i c2 c3 → same_but i c1 c3.
Proof.
  intros (H1 & H2 & H3) (H1' & H2' & H3'). split_and!; [congruence..|].
  intros j Hj. by rewrite H3', H3.
Qed.

Lemma same_but_insert i x c :
  cells_set c = true → same_but i c (Cache (cache_hdr c) true (<[i := x]> (cells c))).
Proof.
  intros _. split; [done|]. split; [apply length_insert|]. intros j Hj. by apply list_lookup_insert_ne.
Qed.

Lemma cache_inv_insert c ls i x l :
  cache_inv smin smax c ls → cell_inv smin smax x l.1 l.2 → slab_size x = CACHE_CELL_SIZE →
  cache_inv smin smax (Cache (cache_hdr c) true (<[i := x]> (cells c))) (<[i := l]> ls).
Proof.
  intros [Hm Hs Hc Hne Hall Hsz] Hx Hx'. split; simpl; [done|done|by rewrite length_insert| | |].
  - intros Hnil. apply (f_equal length) in Hnil. rewrite length_insert in Hnil. by destruct (cells c).
  - by apply Forall2_insert.
  - by apply Forall_insert.
Qed.

(** A cache in which a process died that was changing cell [i]. *)
Definition half_done (i : nat) (c c' : cache) : Prop :=
  same_but i c c' ∧ cells_set c' = true ∧ ∃ x', cells c' !! i = Some x'
    ∧ cell_ic_sane (hdr_ic (cell_hdr x')) = false ∧ slab_ok smin smax x' ∧ slab_size x' = CACHE_CELL_SIZE.

(** The addition on the ring of the cell: nothing for a checksum the cache has; a failed
    assertion exactly where the ring of the cell is stuck; else a step of that ring. *)
Lemma cache_add_chunk_steps c ls s buffer n :
  cache_inv smin smax c ls → arg_ok smin smax s buffer n →
  let i := cell_index c s in
  let b := chunk_of s buffer n in
  ∃ x pre suf, cells c !! i = Some x ∧ ls !! i = Some (pre, suf) ∧ cell_inv smin smax x pre suf ∧
  (is_Some (cache_lookup c ls s) ∧ cache_add_chunk s buffer n c = (Ok false, c) ∨
   cache_lookup c ls s = None ∧
   ((stuck x b suf ∨ suf = [] ∧ room x < 36 ∧ stuck x b pre) ∧
    (∃ c', cache_add_chunk s buffer n c = (Err AssertFail, c') ∧ half_done i c c') ∨
    ∃ c' pre' suf', cache_add_chunk s buffer n c = (Ok true, c')
      ∧ ring_step b pre suf pre' suf' ∧ cache_inv smin smax c' (<[i := (pre', suf')]> ls)
      ∧ same_but i c c' ∧ (suf = [] → n + 72 ≤ room x → pre' = pre ++ [b] ∧ suf' = []))).
Proof.
  intros H Harg i b. destruct (cache_cell c ls s H) as (x & [pre suf] & Hx & Hl & Hinv & Hlk).
  cbn [fst snd] in *. exists x, pre, suf. split_and!; [done..|].
  assert (Hrun : ∀ r x', cell_add_chunk s buffer n x = (r, x') → cache_add_chunk s buffer n c =
    (r, Cache (cache_hdr c) true (<[i := x']> (cells c)))).
  { intros r x' Hr. unfold cache_add_chunk. mrun by (by eapply cache_get_cell_index_ok).
    eapply at_cell_ok; [apply H|exact Hx|exact Hr]. }
  pose proof (same_but_insert i) as Hsame.
  assert (Hslot : slab_size x = CACHE_CELL_SIZE).
  { exact (Forall_lookup_1 _ _ _ _ (cv_slots _ _ _ _ H) Hx). }
  assert (Hstep : ∀ x' pre' suf', cell_add_chunk s buffer n x = (Ok true, x') →
    ring_step b pre suf pre' suf' → cell_inv smin smax x' pre' suf' → slab_size x' = slab_size x →
    (suf = [] → n + 72 ≤ room x → pre' = pre ++ [b] ∧ suf' = []) →
    ∃ c' pre' suf', cache_add_chunk s buffer n c = (Ok true, c')
      ∧ ring_step b pre suf pre' suf' ∧ cache_inv smin smax c' (<[i := (pre', suf')]> ls)
      ∧ same_but i c c' ∧ (suf = [] → n + 72 ≤ room x → pre' = pre ++ [b] ∧ suf' = [])).
  { intros x' pre' suf' Hr Hstep Hinv' Hsz Hfirst. apply Hrun in Hr. eexists _, pre', suf'.
    split_and!; [exact Hr|done|by apply cache_inv_insert; [..|congruence]|by apply Hsame, H|done]. }
  rewrite Hlk.
  destruct (cell_add_chunk_spec smin smax x pre suf s buffer n Hinv Harg)
    as [[Hd Hr]|[Hn [(Hst & x' & Hr & Hic & Hsz & Hlim)|(x' & pre' & suf' & Hr & Hrs & Hinv' & Hsz)]]].
  - left. split; [done|]. apply Hrun in Hr. rewrite Hr, list_insert_id by done.
    destruct H as [_ Hs]. f_equal. by destruct c; simpl in *; subst.
  - right. split; [done|]. left. split; [done|]. apply Hrun in Hr. eexists. split; [exact Hr|].
    split; [apply Hsame, H|]. split; [done|]. exists x'. cbn [cells].
    split_and!; [by apply list_lookup_insert_eq; eapply lookup_lt_Some|done| |congruence].
    eapply slab_ok_typed; [by eapply cell_inv_slab_ok|done..].
  - right. split; [done|]. right.
    destruct (decide (suf = [] ∧ n + 72 ≤ room x)) as [[-> Hroom]|Hno].
    + rewrite app_nil_r in Hn. destruct (cell_add_chunk_append smin smax x pre s buffer n Hinv Harg Hn Hroom)
        as (x2 & Hr2 & Hinv2 & Hsz2).
      apply (Hstep x2 (pre ++ [b]) []); [done|constructor|done..].
    + apply (Hstep x' pre' suf'); try done. intros -> Hroom. by destruct Hno.
Qed.

(** What an addition leaves in the cache: no chunk changes, and the chunk added is there,
    unless all that was left of the previous lap of its cell went. *)
Lemma cache_add_chunk_lookups c ls c' s buffer n x pre suf pre' suf' :
  cache_inv smin smax c ls → arg_ok smin smax s buffer n →
  let i := cell_index c s in
  let ls' := <[i := (pre', suf')]> ls in
  cells c !! i = Some x → ls !! i = Some (pre, suf) → cell_inv smin smax x pre suf →
  ring_step (chunk_of s buffer n) pre suf pre' suf' → cache_inv smin smax c' ls' →
  cache_hdr c' = cache_hdr c →
  (∀ s', cell_index c s' ≠ i → cache_lookup c' ls' s' = cache_lookup c ls s') ∧
  (∀ s' d, cache_lookup c' ls' s' = Some d →
     cache_lookup c ls s' = Some d ∨ s' = s ∧ d = take (Z.to_nat n) buffer) ∧
  (cache_lookup c' ls' s = Some (take (Z.to_nat n) buffer) ∨
   by_age pre' suf' = if suf is [] then [] else live pre).
Proof.
  intros H Harg i ls' Hx Hl Hinv Hstep H' Hhdr.
  pose proof (bi_contract _ _ _ _ _ (ci_body _ _ _ _ _ Hinv)) as Hct.
  destruct (arg_chunk_ok smin smax s buffer n) as (Hck & _ & Hbs); [destruct Hct; lia..|done|].
  assert (Hidx : ∀ s', cell_index c' s' = cell_index c s').
  { intros s'. unfold cell_index. by rewrite Hhdr. }
  assert (Hne : ∀ s', cell_index c s' ≠ i → cache_lookup c' ls' s' = cache_lookup c ls s').
  { intros s' Hne. unfold cache_lookup, ls'. by rewrite Hidx, list_lookup_insert_ne by done. }
  assert (Heq : ∀ s', cell_index c s' = i →
    cache_lookup c' ls' s' = contents (pre' ++ suf') !! s' ∧ cache_lookup c ls s' = contents (pre ++ suf) !! s').
  { intros s' Hs'. unfold cache_lookup, ls'. rewrite Hidx, Hs', Hl, list_lookup_insert_eq; [done|].
    by eapply lookup_lt_Some. }
  destruct (cache_cell c' ls' s H') as (x' & l' & Hx' & Hl' & Hinv' & Hlk').
  rewrite Hidx in Hl'. unfold ls' in Hl'. rewrite list_lookup_insert_eq in Hl' by (by eapply lookup_lt_Some).
  injection Hl' as <-. cbn [fst snd] in *.
  split; [done|]. split.
  - intros s' d Hd. destruct (decide (cell_index c s' = i)) as [Hs'|Hs']; [|left; by rewrite <-Hne].
    destruct (Heq s' Hs') as [He1 ->]. rewrite He1 in Hd.
    destruct (ring_step_contents smin smax x x' _ _ _ _ _ s' d (ci_body _ _ _ _ _ Hinv)
      (ci_body _ _ _ _ _ Hinv') (ck_live _ _ Hck) Hbs Hstep Hd) as [?|?]; [by right|by left].
  - destruct (ring_step_evicts smin smax _ _ _ _ _ ltac:(apply Hct) (ck_live _ _ Hck) Hbs
      (bi_wf _ _ _ _ _ (ci_body _ _ _ _ _ Hinv)) Hstep) as (w & m & l & _ & _ & _ & [Hage|[Hage _]]); [left|by right].
    rewrite Hlk'. apply contents_Some; [by eapply body_inv_nodup; apply Hinv'|].
    exists (chunk_of s buffer n). split; [|done]. unfold by_age in Hage.
    assert (Hin : chunk_of s buffer n ∈ live (suf' ++ pre')) by (rewrite Hage; set_solver).
    rewrite live_app in *. set_solver.
Qed.

Lemma cache_add_chunk_spec c ls s buffer n :
  cache_inv smin smax c ls → arg_ok smin smax s buffer n →
  (∃ c', cache_add_chunk s buffer n c = (Err AssertFail, c') ∧ half_done (cell_index c s) c c') ∨
  (∃ b c' ls', cache_add_chunk s buffer n c = (Ok b, c')
     ∧ cache_inv smin smax c' ls' ∧ same_but (cell_index c s) c c'
     ∧ b = bool_decide (cache_lookup c ls s = None)
     ∧ ∀ s' d, cache_lookup c' ls' s' = Some d →
         cache_lookup c ls s' = Some d ∨ s' = s ∧ d = take (Z.to_nat n) buffer).
Proof.
  intros H Harg. destruct (cache_add_chunk_steps c ls s buffer n H Harg)
    as (x & pre & suf & Hx & Hl & Hinv & [[Hd Hr]|[Hn [(_ & c' & Hr & Hhalf)|(c' & pre' & suf' & Hr & Hstep & Hinv' & Hsame & _)]]]).
  - right. exists false, c, ls. destruct Hd as [d Hd]. rewrite Hd. split_and!; [done..|by left].
  - left. by exists c'.
  - right. eexists true, c', _. rewrite Hn. split_and!; [done..|].
    by apply (cache_add_chunk_lookups c ls c' s buffer n x pre suf pre' suf'); [..|apply Hsame].
Qed.
End ops.

(** * Opening, counting and releasing *)
Section open.
Context (smin smax : Z).
Implicit Types c : cache.

(** The slot of a cell in the mapped file: of any contents, or those that [cell_init]
    finds consistent and an earlier run left. *)
Definition slot_ok (x : cell) : Prop :=
  slab_ok smin smax x ∧ slab_size x = CACHE_CELL_SIZE ∧
  (cell_header_sane (cell_hdr x) = true → ∃ l : ring_of, cell_inv smin smax x l.1 l.2).

(** The buffer given to [cache_init]: its slots, and a header that is new or that of a
    cache of the same size. *)
Record region_ok (size : Z) (c : cache) : Prop := {
  rg_slots : 2 ≤ size / CACHE_CELL_SIZE < 18446744073709551616;
  rg_cells : Z.of_nat (length (cells c)) = size / CACHE_CELL_SIZE - 1;
  rg_header : cache_magic (cache_hdr c) = CACHE_HEADER_MAGIC →
              cell_count (cache_hdr c) = Z.of_nat (length (cells c));
  rg_slot : Forall slot_ok (cells c);
}.

(** [size] is that of the buffer the cache was opened in. *)
Definition region_size (size : Z) (c : cache) : Prop :=
  2 ≤ size / CACHE_CELL_SIZE < 18446744073709551616 ∧
  Z.of_nat (length (cells c)) = size / CACHE_CELL_SIZE - 1.

(** What opening does to a cell. *)
Definition opened_as (x x' : cell) : Prop :=
  if cell_header_sane (cell_hdr x)
  then x' = x ∧ slab_size x = CACHE_CELL_SIZE ∧ ∃ l : ring_of, cell_inv smin smax x l.1 l.2
  else cell_inv smin smax x' [] [] ∧ slab_size x' = CACHE_CELL_SIZE.

Lemma cell_init_slot x :
  slot_ok x → ∃ x', cell_init (u32 CACHE_CELL_SIZE) x = (Ok tt, x') ∧ opened_as x x'.
Proof.
  intros (Hok & Hsz & Hs). assert (cell_init (u32 CACHE_CELL_SIZE) = cell_init (slab_size x)) as -> by by rewrite Hsz.
  unfold opened_as. destruct (cell_header_sane (cell_hdr x)) eqn:E.
  - exists x. split; [by eapply cell_init_keeps|]. split; [done|]. split; [done|by apply Hs].
  - destruct (cell_init_fresh _ _ _ Hok E) as (x' & ? & ? & Hsz'). exists x'. by rewrite Hsz'.
Qed.

Lemma opened_rings xs xs' :
  Forall2 opened_as xs xs' → Forall (λ x, slab_size x = CACHE_CELL_SIZE) xs' ∧
  ∃ ls, Forall2 (λ x (l : ring_of), cell_inv smin smax x l.1 l.2) xs' ls.
Proof.
  induction 1 as [|x x' xs xs' Ho _ [Hsz (ls & IH)]]; [by split; [|exists []]|].
  unfold opened_as in Ho. destruct (cell_header_sane _).
  - destruct Ho as (-> & ? & l & Hl). split; [by constructor|]. exists (l :: ls). by constructor.
  - destruct Ho as [Ho ?]. split; [by constructor|]. exists (([], []) :: ls). by constructor.
Qed.

Lemma cache_init_spec size c :
  region_ok size c →
  ∃ c' ls, cache_init size c = (Ok 0, c') ∧ cache_inv smin smax c' ls
    ∧ Forall2 opened_as (cells c) (cells c').
Proof.
  intros [Hsl Hn Hh Hslot]. set (n := Z.of_nat (length (cells c))) in *.
  set (h := CacheHeader CACHE_HEADER_MAGIC n).
  assert (Hhdr : cache_header_init n (cache_hdr c) = (Ok tt, h)).
  { unfold cache_header_init. rewrite bind_get.
    destruct (cache_magic (cache_hdr c) =? CACHE_HEADER_MAGIC) eqn:E; [|done].
    rewrite run_ret. f_equal. apply Z.eqb_eq in E. specialize (Hh E).
    destruct (cache_hdr c). simpl in *. by subst. }
  destruct (for_cells_all (cell_init (u32 CACHE_CELL_SIZE)) slot_ok opened_as h (cells c) cell_init_slot Hslot)
    as (xs' & Hrun & Hall).
  destruct (opened_rings _ _ Hall) as (Hszs & ls & Hls). pose proof (Forall2_length _ _ _ Hall) as Hlen.
  exists (Cache h true xs'), ls. split_and!; [|split; simpl|done]; try done.
  - unfold cache_init. change (u32 CACHE_CELL_SIZE) with CACHE_CELL_SIZE in *. cbv zeta.
    rewrite bind_ALWAYS by lia. rewrite u64_id by lia.
    replace (size / CACHE_CELL_SIZE - 1) with n by lia.
    erewrite bind_ok; [|eapply zoom_ok; exact Hhdr]. mnorm.
    change (set_cells true _) with (Cache h true (cells c)).
    replace (Z.to_nat n) with (length (cells c)) by (unfold n; lia). by mrun by exact Hrun.
  - unfold n. lia.
  - intros ->. simpl in Hlen. unfold n in *. lia.
Qed.

(** The sums of the counts of the cells. *)
Definition ring_bytes (l : ring_of) : Z :=
  let es := live (l.1 ++ l.2) in span es - 36 * Z.of_nat (length es).
Definition ring_entries (l : ring_of) : Z := Z.of_nat (length (live (l.1 ++ l.2))).
Definition total (f : ring_of → Z) (ls : list ring_of) : Z := foldr (λ l n, f l + n) 0 ls.

Lemma u64_add_l a b : u64 (u64 a + b) = u64 (a + b).
Proof. unfold u64. apply Zplus_mod_idemp_l. Qed.

Lemma add_metrics_spec h ls : ∀ todo xs m,
  Forall2 (λ x (l : ring_of), cell_inv smin smax x l.1 l.2) todo ls →
  let c := Cache h true (xs ++ todo) in
  u64 (metrics_byte_count m) = metrics_byte_count m →
  u64 (metrics_entry_count m) = metrics_entry_count m →
  add_metrics (length todo) (length xs) m c =
    (Ok (CacheMetrics (u64 (metrics_byte_count m + total ring_bytes ls))
                      (u64 (metrics_entry_count m + total ring_entries ls))), c).
Proof.
  induction ls as [|l ls IH]; intros todo xs m Hall c Hb He.
  { apply Forall2_nil_inv_r in Hall as ->. simpl. rewrite !Z.add_0_r, Hb, He. by destruct m. }
  apply Forall2_cons_inv_r in Hall as (x & todo' & Hx & Hall & ->).
  destruct (cell_counts_spec _ _ _ _ _ (ci_body _ _ _ _ _ Hx)) as [Hce Hcb].
  set (m1 := CacheMetrics (u64 (metrics_byte_count m + ring_bytes l))
               (u64 (metrics_entry_count m + ring_entries l))).
  assert (Hrun : cell_get_metrics m x = (Ok m1, x)).
  { unfold cell_get_metrics. mrun by exact Hcb. by mrun by exact Hce. }
  specialize (IH todo' (xs ++ [x]) m1 Hall). cbv zeta in IH.
  rewrite <-app_assoc, length_app, Nat.add_1_r in IH. cbn [app] in IH. fold c in IH.
  cbn [add_metrics length].
  erewrite bind_ok; [|by eapply at_cell_read; [..|exact Hrun]; [|apply list_lookup_middle]].
  rewrite IH by (unfold m1, u64; cbn [metrics_byte_count metrics_entry_count]; by rewrite Z.mod_mod).
  cbn [total foldr metrics_byte_count metrics_entry_count m1]. by rewrite !u64_add_l, !Z.add_assoc.
Qed.

Lemma cache_get_metrics_spec c ls :
  cache_inv smin smax c ls →
  cache_get_metrics c = (Ok (CacheMetrics (u64 (total ring_bytes ls)) (u64 (total ring_entries ls))), c).
Proof.
  intros [_ Hs Hc _ Hall _]. unfold cache_get_metrics. mnorm. rewrite Hc, Nat2Z.id.
  destruct c as [h b xs]. simpl in *. subst b.
  exact (add_metrics_spec h ls xs [] cache_metrics_init Hall eq_refl eq_refl).
Qed.

(** [cache_release] gives the cells back and leaves the memory of the cache alone. *)
Lemma cache_release_spec c ls :
  cache_inv smin smax c ls → cache_release c = (Ok tt, set_cells false c) ∧
  cache_release (set_cells false c) = (Ok tt, set_cells false c).
Proof.
  intros [_ Hs Hc _ _ _]. split; [|done]. unfold cache_release. mnorm. rewrite Hs. cbn [negb]. cbn iota.
  mnorm. rewrite Hc, Nat2Z.id. destruct c as [h b xs]. simpl in *. subst b.
  destruct (for_cells_all cell_release (λ _, True) eq h xs) as (xs' & Hrun & Hall).
  - intros x _. by exists x.
  - by apply Forall_true.
  - mrun by exact Hrun. apply list_eq_Forall2 in Hall as ->. done.
Qed.

(** The memory behind a consistent cache, and behind one that a process left half done,
    can be opened again. *)
Lemma cache_inv_region size c ls b :
  cache_inv smin smax c ls → 2 ≤ size / CACHE_CELL_SIZE < 18446744073709551616 →
  Z.of_nat (length (cells c)) = size / CACHE_CELL_SIZE - 1 → region_ok size (set_cells b c).
Proof.
  intros [_ _ Hc _ Hall Hsz] Hsl Hn. split; [done|done|done|]. cbn [set_cells cells].
  apply Forall_forall. intros x Hx. apply list_elem_of_lookup in Hx as [i Hi].
  destruct (Forall2_lookup_l _ _ _ _ _ Hall Hi) as (l & _ & Hl).
  split; [by eapply cell_inv_slab_ok|]. split; [exact (Forall_lookup_1 _ _ _ _ Hsz Hi)|by exists l].
Qed.

Lemma half_done_region size c ls i c' b :
  cache_inv smin smax c ls → half_done smin smax i c c' →
  2 ≤ size / CACHE_CELL_SIZE < 18446744073709551616 →
  Z.of_nat (length (cells c)) = size / CACHE_CELL_SIZE - 1 → region_ok size (set_cells b c').
Proof.
  intros Hinv ((Hh & Hl & Hsame) & _ & x' & Hx' & Hic & Hok & Hsz) Hsl Hn.
  pose proof (cache_inv_region size c ls true Hinv Hsl Hn) as [_ _ _ Hslots].
  split; cbn [set_cells cells cache_hdr]; rewrite ?Hl; [done|done| |].
  { intros _. rewrite Hh. apply Hinv. }
  apply Forall_lookup. intros j y Hy. destruct (decide (j = i)) as [->|Hne].
  - rewrite Hx' in Hy. injection Hy as <-. split; [done|]. split; [done|].
    intros Hs. unfold cell_header_sane in Hs. rewrite Hic in Hs. by destruct (negb _).
  - rewrite Hsame in Hy by done. exact (Forall_lookup_1 _ _ _ _ Hslots Hy).
Qed.

(** Opening a consistent cache again gives it back. *)
Lemma opened_same xs xs' ls :
  Forall2 (λ x (l : ring_of), cell_inv smin smax x l.1 l.2) xs ls → Forall2 opened_as xs xs' → xs' = xs.
Proof.
  intros Hls Hop. revert ls Hls. induction Hop as [|x x' xs xs' Ho _ IH]; intros ls Hls; [done|].
  apply Forall2_cons_inv_l in Hls as (l & ls' & Hl & Hls & _). rewrite (IH _ Hls). f_equal.
  unfold opened_as in Ho. rewrite (cell_inv_sane _ _ _ _ _ Hl) in Ho. by destruct Ho.
Qed.

Lemma cache_init_keeps size c ls :
  cache_inv smin smax c ls → 2 ≤ size / CACHE_CELL_SIZE < 18446744073709551616 →
  Z.of_nat (length (cells c)) = size / CACHE_CELL_SIZE - 1 →
  cache_init size (set_cells false c) = (Ok 0, c).
Proof.
  intros Hinv Hsl Hn. pose proof (cache_inv_region size c ls false Hinv Hsl Hn) as Hreg.
  destruct (cache_init_spec size _ Hreg) as (c' & ls' & -> & Hinv' & Hop).
  cbn [set_cells cells] in Hop. pose proof (opened_same _ _ _ (cv_cells _ _ _ _ Hinv) Hop) as Heq.
  destruct Hinv as [Hm Hs Hc _ _ _], Hinv' as [Hm' Hs' Hc' _ _ _]. f_equal.
  destruct c as [[??] ??], c' as [[??] ??]. simpl in *. congruence.
Qed.
End open.
