(* ===== verification/CacheHistory.v ===== *)
(** Sequences of additions to a cache, and additions to different cells. *)

From S2P Require Import Prelude Monad Slab Checksum CellIc CellHeader CellState CellRing CellSpec CellHistory Cell.
From S2P Require Import Cache CacheSpec.

Fixpoint cache_adds (hist : list (checksum * list byte)) : M cache (list bool) :=
  match hist with
  | [] => mret []
  | (s, d) :: hist =>
      r ← cache_add_chunk s d (Z.of_nat (length d));
      rs ← cache_adds hist;
      mret (r :: rs)
  end.

(** Opening a region of [size] bytes and adding chunks. *)
Definition cache_history (size : Z) (hist : list (checksum * list byte)) : M cache (list bool) :=
  cache_init size;; cache_adds hist.

Section history.
Context (smin smax : Z).
Implicit Types c : cache.

Lemma cache_adds_spec hist : ∀ c ls,
  cache_inv smin smax c ls → Forall (call_ok smin smax) hist →
  (∃ c' c1 ls1 i, cache_adds hist c = (Err AssertFail, c') ∧ cache_inv smin smax c1 ls1
     ∧ half_done smin smax i c1 c' ∧ length (cells c1) = length (cells c)) ∨
  (∃ rs c' ls', cache_adds hist c = (Ok rs, c') ∧ cache_inv smin smax c' ls'
     ∧ length rs = length hist ∧ length (cells c') = length (cells c)
     ∧ ∀ s d, cache_lookup c' ls' s = Some d → cache_lookup c ls s = Some d ∨ (s, d) ∈ hist).
Proof.
  induction hist as [|[s d] hist IH]; intros c ls Hinv Hok.
  { right. exists [], c, ls. split_and!; try done. by left. }
  apply Forall_cons in Hok as [Hok Hoks]. pose proof (call_arg_ok _ _ _ _ Hok) as Harg.
  cbn [cache_adds].
  destruct (cache_add_chunk_spec smin smax c ls s d _ Hinv Harg)
    as [(c' & Hr & Hhd)|(b & c1 & ls1 & Hr & Hinv1 & (_ & Hlen & _) & _ & Hl)].
  { left. exists c', c, ls, (cell_index c s). by rewrite (bind_err _ _ _ _ _ Hr). }
  rewrite (bind_ok _ _ _ _ _ Hr).
  destruct (IH c1 ls1 Hinv1 Hoks) as [(c' & c2 & ls2 & i & Hr' & ? & ? & ?)|(rs & c' & ls' & Hr' & ? & ? & ? & Hl')].
  - left. exists c', c2, ls2, i. rewrite (bind_err _ _ _ _ _ Hr'). split_and!; try done. lia.
  - right. exists (b :: rs), c', ls'. rewrite (bind_ok _ _ _ _ _ Hr'). split_and!; [done|done|simpl; lia|lia|].
    intros s' d' [[?|[-> ->]]%Hl|?]%Hl'; [by left| |by right; right].
    right. rewrite Nat2Z.id, firstn_all. by left.
Qed.

(** A new region holds nothing. *)
Lemma opened_fresh c c' ls s :
  Forall (λ x, cell_header_sane (cell_hdr x) = false) (cells c) →
  Forall2 (opened_as smin smax) (cells c) (cells c') → cache_inv smin smax c' ls → checksum_wf s →
  cache_lookup c' ls s = None.
Proof.
  intros Hnew Hop Hinv Hs. destruct (cache_cell smin smax c' ls s Hinv) as (x & l & Hx & Hl & Hci & ->).
  destruct (Forall2_lookup_r _ _ _ _ _ Hop Hx) as (x0 & Hx0 & Ho).
  unfold opened_as in Ho. rewrite (Forall_lookup_1 _ _ _ _ Hnew Hx0) in Ho. destruct Ho as [Hempty _].
  pose proof (cell_has_chunk_spec smin smax _ _ _ s (ci_body _ _ _ _ _ Hempty) Hs) as H1.
  pose proof (cell_has_chunk_spec smin smax _ _ _ s (ci_body _ _ _ _ _ Hci) Hs) as H2.
  assert (Hnone : contents ([] ++ []) !! s = None) by apply lookup_empty.
  cbn [fst snd] in *. rewrite Hnone in H1. rewrite H1 in H2. injection H2 as H2.
  symmetry in H2. apply bool_decide_eq_false_1 in H2. by apply eq_None_not_Some in H2.
Qed.

(** Opening the memory of a process that died changing cell [i] empties that cell. *)
Lemma half_done_reopened i c ls c' c3 ls3 :
  cache_inv smin smax c ls → half_done smin smax i c c' →
  Forall2 (opened_as smin smax) (cells c') (cells c3) → cache_inv smin smax c3 ls3 →
  same_but i c' c3 ∧ ∃ x, cells c3 !! i = Some x ∧ cell_inv smin smax x [] [].
Proof.
  intros Hinv ((Hh & Hl & Hsame) & _ & x' & Hx' & Hic & _ & _) Hop Hinv3.
  destruct (Forall2_lookup_l _ _ _ _ _ Hop Hx') as (x & Hx & Ho).
  assert (Hns : cell_header_sane (cell_hdr x') = false) by (unfold cell_header_sane; rewrite Hic; by destruct (negb _)).
  unfold opened_as in Ho. rewrite Hns in Ho. destruct Ho as [Ho _].
  pose proof (Forall2_length _ _ _ Hop) as Hlen.
  split; [|by exists x]. split_and!; [|done|].
  - destruct Hinv as [Hm _ Hc _ _ _], Hinv3 as [Hm3 _ Hc3 _ _ _].
    rewrite Hh. destruct (cache_hdr c), (cache_hdr c3). simpl in *. rewrite <-Hlen, Hl in Hc3. congruence.
  - intros j Hj. destruct (cells c' !! j) as [y|] eqn:Hy.
    + destruct (Forall2_lookup_l _ _ _ _ _ Hop Hy) as (y' & Hy' & Hoy).
      rewrite Hsame in Hy by done. destruct (Forall2_lookup_l _ _ _ _ _ (cv_cells _ _ _ _ Hinv) Hy) as (l & _ & Hci).
      unfold opened_as in Hoy. rewrite (cell_inv_sane _ _ _ _ _ Hci) in Hoy. destruct Hoy as [-> _]. done.
    + apply lookup_ge_None in Hy. apply lookup_ge_None. lia.
Qed.
End history.

(** Calls of functions of cell.c on different cells do not see each other. *)
Section commute.
Context {A B : Type} (m1 : M cell A) (m2 : M cell B).

Lemma at_cell_set {X} i (m : M cell X) c r c' :
  at_cell i m c = (Ok r, c') →
  ∃ x x', cells_set c = true ∧ cells c !! i = Some x ∧ m x = (Ok r, x')
    ∧ c' = Cache (cache_hdr c) true (<[i := x']> (cells c)).
Proof.
  rewrite at_cell_run. destruct (cells_set c) eqn:Hs; [|done].
  destruct (cells c !! i) as [x|] eqn:Hx; [|done]. destruct (m x) as [r' x'] eqn:Hm.
  intros [= -> <-]. exists x, x'. unfold put_cell. by rewrite Hs.
Qed.

Lemma at_cell_commute i j c a c1 b c2 :
  i ≠ j → at_cell i m1 c = (Ok a, c1) → at_cell j m2 c1 = (Ok b, c2) →
  ∃ c3, at_cell j m2 c = (Ok b, c3) ∧ at_cell i m1 c3 = (Ok a, c2).
Proof.
  intros Hij H1 H2. apply at_cell_set in H1 as (x & x' & Hs & Hx & Hm1 & ->).
  apply at_cell_set in H2 as (y & y' & _ & Hy & Hm2 & ->). cbn [cells cache_hdr] in *.
  rewrite list_lookup_insert_ne in Hy by done.
  exists (Cache (cache_hdr c) true (<[j := y']> (cells c))). split.
  - by rewrite (at_cell_ok _ _ _ _ _ _ Hs Hy Hm2).
  - rewrite (at_cell_ok i m1 _ x (Ok a) x'); cbn [cells cache_hdr cells_set]; [|done| |done].
    + by rewrite list_insert_insert_ne.
    + by rewrite list_lookup_insert_ne.
Qed.
End commute.

(** The calls of cache.c that go to the cell of a checksum. *)
Inductive cache_op :=
  | CacheAdd (s : checksum) (buffer : list byte) (n : Z)
  | CacheHas (s : checksum)
  | CacheGet (s : checksum) (ch : chunk).

Inductive op_result :=
  | AddedNew (b : bool)
  | HasChunk (b : bool)
  | GotChunk (ch : option chunk).

Definition op_sum (op : cache_op) : checksum :=
  match op with CacheAdd s _ _ | CacheHas s | CacheGet s _ => s end.

Definition cache_call (op : cache_op) : M cache op_result :=
  match op with
  | CacheAdd s buffer n => b ← cache_add_chunk s buffer n; mret (AddedNew b)
  | CacheHas s => b ← cache_has_chunk s; mret (HasChunk b)
  | CacheGet s ch => r ← cache_get_chunk s ch; mret (GotChunk r)
  end.

(** The same call of the cell. *)
Definition cell_call (op : cache_op) : M cell op_result :=
  match op with
  | CacheAdd s buffer n => b ← cell_add_chunk s buffer n; mret (AddedNew b)
  | CacheHas s => b ← cell_has_chunk s; mret (HasChunk b)
  | CacheGet s ch => r ← cell_get_chunk s ch; mret (GotChunk r)
  end.

Lemma at_cell_bind {A B} i (m : M cell A) (f : A → B) c :
  (a ← at_cell i m; mret (f a)) c = at_cell i (a ← m; mret (f a)) c.
Proof.
  rewrite bind_run, !at_cell_run. destruct (cells_set c); [|done].
  destruct (cells c !! i) as [x|]; [|done]. rewrite bind_run. by destruct (m x) as [[a|e] x'].
Qed.

Lemma at_cell_hdr {A} i (m : M cell A) c r c' :
  at_cell i m c = (Ok r, c') → cache_hdr c' = cache_hdr c.
Proof. by intros (? & ? & _ & _ & _ & ->)%at_cell_set. Qed.

Lemma cache_call_cell op c d :
  0 < cell_count (cache_hdr c) → cache_hdr d = cache_hdr c →
  cache_call op d = at_cell (cell_index c (op_sum op)) (cell_call op) d.
Proof.
  intros Hc Hd. assert (Hidx : ∀ s, cache_get_cell_index s d = (Ok (cell_index c s), d)).
  { intros s. unfold cache_get_cell_index, cell_index. mnorm. rewrite Hd.
    by replace (cell_count (cache_hdr c) =? 0) with false by lia. }
  destruct op as [s buffer n|s|s ch]; unfold cache_call, cell_call, cache_add_chunk, cache_has_chunk,
    cache_get_chunk; rewrite bind_assoc, (bind_ok _ _ _ _ _ (Hidx s)); apply at_cell_bind.
Qed.
