(* ===== verification/CacheCrash.v ===== *)
(** Processes that die inside of a function of cache.c: only the cell they were changing is
    concerned, and [cache_init] opens what they leave. *)

From S2P Require Import Prelude Monad Trace Slab Checksum CellIc CellDirEntry CellDirBlock CellDirOverflow.
From S2P Require Import CellDir CellBodyEntry CellHeader CellState CellBody CellLayout.
From S2P Require Import CellBodySpec CellRing CacheMetrics Cell CellTyped CellSpec CellCrash CellPersist CellHistory.
From S2P Require Import Cache CacheSpec CacheHistory.

(** A state between two: the 64-bit words of the header are written whole, and each cell is
    between its two states. *)
Record cache_torn (a b t : cache) : Prop := {
  tc_magic : cache_magic (cache_hdr t) = cache_magic (cache_hdr a)
           ∨ cache_magic (cache_hdr t) = cache_magic (cache_hdr b);
  tc_count : cell_count (cache_hdr t) = cell_count (cache_hdr a)
           ∨ cell_count (cache_hdr t) = cell_count (cache_hdr b);
  tc_set : cells_set t = cells_set a ∨ cells_set t = cells_set b;
  tc_length : length (cells t) = length (cells a);
  tc_cells : ∀ i x y, cells a !! i = Some x → cells b !! i = Some y →
             ∃ z, cells t !! i = Some z ∧ cell_torn x y z;
}.

Definition cache_dies {A} (m : M cache A) (c t : cache) : Prop := dies cache_torn c (trace m c) t.

Section dies.
Implicit Types (c t : cache) (x y z : cell).

(** A death in a call on a cell is one in the cache. *)
Lemma put_cell_torn i x y z c :
  Forall well_typed (cells c) → (i < length (cells c))%nat → cell_torn x y z →
  cache_torn (put_cell i x c) (put_cell i y c) (put_cell i z c).
Proof.
  intros Hty Hi Ht. split; simpl; auto; [by rewrite !length_insert|].
  intros j u v Hu Hv. destruct (decide (j = i)) as [->|Hne].
  - rewrite list_lookup_insert_eq in * by done. exists z. naive_solver.
  - rewrite list_lookup_insert_ne in * by done. exists u. split; [done|]. simplify_eq.
    pose proof (Forall_lookup_1 _ _ _ _ Hty Hu) as Hw.
    rewrite <-(put_ic_same u) at 2 3. apply torn_put_ic; [apply (ty_ic _ _ _ Hw)|done].
Qed.

Lemma at_cell_dies_intro {A} i (m : M cell A) c x z :
  Forall well_typed (cells c) → cells_set c = true → cells c !! i = Some x →
  cell_dies m x z → cache_dies (at_cell i m) c (put_cell i z c).
Proof.
  intros Hty Hs Hx. assert (Hat : cell_at i c = Some x) by (unfold cell_at; by rewrite Hs).
  unfold cache_dies, at_cell, cell_dies. rewrite (trace_zoom_opt _ _ _ _ _ Hat).
  rewrite <-(plens_put_get c x Hat) at 1. clear Hat. pose proof (lookup_lt_Some _ _ _ Hx) as Hi.
  clear Hx. generalize (trace m x) as l. intros l. revert x.
  induction l as [|y l IH]; intros x; simpl; [by intros ->|].
  intros [Hd|Hd]; [left; by apply put_cell_torn|right; by apply IH].
Qed.

(** ** Dying in a call *)
Context (smin smax : Z).

Lemma cache_add_chunk_dies_entered c ls s buffer n x :
  cache_inv smin smax c ls → cells c !! cell_index c s = Some x →
  cell_has_chunk s x = (Ok false, x) →
  cache_dies (cache_add_chunk s buffer n) c (put_cell (cell_index c s) (entered x) c).
Proof.
  intros H Hx Hhas. assert (Hty : Forall well_typed (cells c)).
  { apply Forall_lookup. intros i y Hy.
    destruct (Forall2_lookup_l _ _ _ _ _ (cv_cells _ _ _ _ H) Hy) as (l & _ & Hl). apply Hl. }
  unfold cache_add_chunk, cache_dies.
  eapply dies_after; [by eapply cache_get_cell_index_ok|].
  eapply (at_cell_dies_intro _ (cell_add_chunk s buffer n)); [done|apply H|exact Hx|].
  apply cell_add_chunk_dies_entered; [|done]. by eapply Forall_lookup_1.
Qed.
End dies.

(** * Dying in cache_init *)
Section init.
Context (smin smax : Z).

Lemma cell_init_stays_slot : stays (slot_ok smin smax) (cell_init (u32 CACHE_CELL_SIZE)) any.
Proof.
  intros x Hslot. destruct (cell_init_slot smin smax x Hslot) as (x' & Hrun & Ho).
  pose proof Hslot as (Hok & Hsz & Hinv).
  assert (Hinv' : ∃ l : ring_of, cell_inv smin smax x' l.1 l.2 ∧ slab_size x' = CACHE_CELL_SIZE).
  { unfold opened_as in Ho. destruct (cell_header_sane (cell_hdr x)).
    - destruct Ho as (-> & ? & l & Hl). by exists l.
    - by exists ([], []). }
  destruct Hinv' as (l & Hl & Hsz'). pose proof (cell_init_trace smin smax x Hok) as Htr.
  change (u32 CACHE_CELL_SIZE) with CACHE_CELL_SIZE in *. rewrite Hsz in Htr. rewrite Hrun in *.
  split; [|split; [split_and!; [by eapply cell_inv_slab_ok|done|by exists l]|done]].
  eapply Forall_impl; [exact Htr|]. intros t (? & ? & Ht). split_and!; [done..|].
  intros Hs. rewrite (Ht Hs). by exists l.
Qed.

(** The header of a region: new, or that of a cache of [n] cells. *)
Lemma cache_header_init_stays n :
  stays (λ h, cache_magic h = CACHE_HEADER_MAGIC → cell_count h = n) (cache_header_init n) any.
Proof.
  unfold cache_header_init. intros h Hh. rewrite trace_get, bind_get.
  destruct (Z.eqb_spec (cache_magic h) CACHE_HEADER_MAGIC) as [E|E].
  - split_and!; [|done..]. by repeat constructor.
  - split_and!; [|done..]. by repeat constructor.
Qed.

(** Every state that opening a region goes through is a region that can be opened. *)
Lemma cache_init_stays size : stays (region_ok smin smax size) (cache_init size) any.
Proof.
  assert (Hcell : ∀ i, stays (region_ok smin smax size) (at_cell i (cell_init (u32 CACHE_CELL_SIZE))) any).
  { intros i. eapply stays_zoom_opt; [apply cell_init_stays_slot|..]; unfold cell_at.
    - intros c x [_ _ _ Hs] Hx. destruct (cells_set c); [|done]. by eapply Forall_lookup_1.
    - intros c x x' [Hsl Hn Hh Hs] _ Hx'. split; simpl; rewrite ?length_insert; try done.
      by apply Forall_insert. }
  assert (Hloop : ∀ n i, stays (region_ok smin smax size) (for_cells n i (cell_init (u32 CACHE_CELL_SIZE))) any).
  { induction n as [|n IH]; intros i; simpl; stay. }
  intros c Hc. pose proof Hc as [Hsl Hn _ _]. change (u32 CACHE_CELL_SIZE) with CACHE_CELL_SIZE in *.
  revert Hc. generalize c. fold (stays (region_ok smin smax size) (cache_init size) any).
  unfold cache_init. change (u32 CACHE_CELL_SIZE) with CACHE_CELL_SIZE.
  rewrite u64_id by lia. stay.
  - eapply stays_zoom; [apply cache_header_init_stays| |].
    + intros c0 [_ H0 Hh _] Hm. by rewrite <-H0, Hh.
    + intros c0 h [Hsl0 Hn0 _ Hs0] Hh. split; [done|done| |done]. intros Hm. simpl. by rewrite Hn0, Hh.
  - by intros c0 [].
Qed.
End init.
