(* ===== verification/CachePersist.v ===== *)
(** A cache in persistent memory whose system fails: the words of its header and each of its
    cells hold what they held in any of the states since the last barrier, and they are
    independent of each other. *)

From S2P Require Import Prelude Monad Trace Persist Slab Checksum CellIc CellDirEntry CellDirBlock CellDirOverflow.
From S2P Require Import CellDir CellBodyEntry CellHeader CellState CellBody CellLayout.
From S2P Require Import CellBodySpec CellRing CacheMetrics Cell CellTyped CellSpec CellCrash CellPersist CellReopen CellHistory.
From S2P Require Import Cache CacheSpec CacheHistory CacheCrash.

(** [R] are the mixtures of a cell. *)
Record cache_mixed (R : list cell → cell → Prop) (l : list cache) (t : cache) : Prop := {
  mc_magic : one_of (λ c, cache_magic (cache_hdr c)) l t;
  mc_count : one_of (λ c, cell_count (cache_hdr c)) l t;
  mc_set : one_of cells_set l t;
  mc_length : unmoved (λ c, length (cells c)) l t;
  mc_cells i xs : Forall2 (λ c x, cells c !! i = Some x) l xs → ∃ z, cells t !! i = Some z ∧ R xs z;
}.

(** The states a call can leave whose system fails in it, when nothing that was written
    before the call is still on its way; and those a failure leaves after it. *)
Definition cache_fails {A} R (m : M cache A) (c t : cache) : Prop :=
  fails (cache_mixed R) [] c (events m c) t.
Definition cache_fails_after {A} R (m : M cache A) (c t : cache) : Prop :=
  let p := pending [] c (events m c) in cache_mixed R (p.1 ++ [p.2]) t.

Section mixed.
Context (R : list cell → cell → Prop) (R_mixed : ∀ l t, R l t → cell_mixed l t).
Implicit Types (c t : cache) (x y z : cell).

(** States that differ in cell [i] alone: so does a mixture of them. *)
Lemma mixed_put_cell i c xs t :
  xs ≠ [] → (i < length (cells c))%nat →
  cache_mixed R ((λ y, put_cell i y c) <$> xs) t → ∃ z, R xs z ∧ t = put_cell i z c.
Proof.
  intros Hne Hi [Hm Hn Hs Hl Hc].
  assert (Hall : ∀ A (f : cache → A) v, (∀ y, f (put_cell i y c) = v) →
    Forall (λ a, f a = v) ((λ y, put_cell i y c) <$> xs)).
  { intros A f v Hf. apply Forall_fmap, Forall_true. done. }
  destruct (Hc i xs) as (z & Hz & Hmix).
  { apply Forall2_fmap_l, Forall_Forall2_diag, Forall_true. intros y. by apply list_lookup_insert_eq. }
  exists z. split; [done|].
  assert (Hone : ∀ A (f : cache → A), one_of f ((λ y, put_cell i y c) <$> xs) t →
    (∀ y, f (put_cell i y c) = f c) → f t = f c).
  { intros A f Hf Hy. eapply one_of_same; [exact Hf|by apply Hall|done]. }
  apply Hone in Hm, Hn, Hs; [|done..].
  assert (Hlen : length (cells t) = length (cells c)).
  { apply Hl, Hall. intros y. simpl. by rewrite length_insert. }
  destruct t as [[mt nt] st lt], c as [[mc nc] sc lc]; unfold put_cell in *; simpl in *.
  assert (lt = <[i := z]> lc) as ->; [|congruence].
  apply list_eq_same_length with (length lt); rewrite ?length_insert; [done..|].
  intros j u v _ Hu Hv. destruct (decide (j = i)) as [->|Hji].
  { rewrite list_lookup_insert_eq in Hv by done. congruence. }
  rewrite list_lookup_insert_ne in Hv by done.
  destruct (Hc j (replicate (length xs) v)) as (w & Hw & Hmw).
  { apply Forall2_replicate_r; [by rewrite length_fmap|]. apply Forall_fmap, Forall_true.
    intros y. simpl. by rewrite list_lookup_insert_ne. }
  apply R_mixed, (mixed_same v) in Hmw; [congruence|]. by apply Forall_replicate.
Qed.

(** Cells that are the same in all states are as they were. *)
Lemma mixed_cells xs l t : Forall (λ c, cells c = xs) l → cache_mixed R l t → cells t = xs.
Proof.
  intros Hall [_ _ _ Hl Hc].
  assert (Hlen : length (cells t) = length xs) by (apply Hl; eapply Forall_impl; [exact Hall|by intros ? ->]).
  apply list_eq_same_length with (length (cells t)); [done..|]. intros j u v _ Hu Hv.
  destruct (Hc j (replicate (length l) v)) as (w & Hw & Hmw).
  { apply Forall2_replicate_r; [done|]. eapply Forall_impl; [exact Hall|]. simpl. by intros ? ->. }
  apply R_mixed, (mixed_same v) in Hmw; [congruence|]. by apply Forall_replicate.
Qed.

Lemma mixed_cache_same c l t : Forall (eq c) l → cache_mixed R l t → t = c.
Proof.
  intros Hall Hx. assert (Ht : cells t = cells c).
  { apply (mixed_cells _ l); [|done]. eapply Forall_impl; [exact Hall|by intros ? <-]. }
  destruct Hx as [Hm Hn Hs _ _].
  assert (Hone : ∀ A (f : cache → A), one_of f l t → f t = f c).
  { intros A f Hf. eapply one_of_same; [exact Hf|exact Hall|by intros ? <-]. }
  apply Hone in Hm, Hn, Hs. destruct t as [[mt nt] st lt], c as [[mc nc] sc lc]; simpl in *. congruence.
Qed.

(** [cells_set] is memory of the process. *)
Lemma mixed_set_cells b l t : cache_mixed R l t → cache_mixed R (set_cells b <$> l) (set_cells b t).
Proof.
  intros [Hm Hn Hs Hl Hc].
  assert (Hone : ∀ A (f : cache → A), one_of f l t → (∀ c, f (set_cells b c) = f c) →
    one_of f (set_cells b <$> l) (set_cells b t)).
  { intros A f (a & Ha & Hf) Hb. exists (set_cells b a). split; [by apply list_elem_of_fmap_2|]. by rewrite !Hb. }
  split; [by apply Hone..| | |].
  - destruct Hs as (a & Ha & _). exists (set_cells b a). split; [by apply list_elem_of_fmap_2|done].
  - intros v Hv. apply Hl. by apply Forall_fmap in Hv.
  - intros i xs Hx. apply Hc. by apply Forall2_fmap_l in Hx.
Qed.

Lemma mixed_cache_one c l t : l ≠ [] → Forall (eq c) l → cache_mixed R l t → t = c.
Proof. intros _. apply mixed_cache_same. Qed.

(** A failure in a call on a cell is one of the cell. *)
Lemma fails_put_cell i c l : ∀ old x t,
  (i < length (cells c))%nat →
  fails (cache_mixed R) ((λ y, put_cell i y c) <$> old) (put_cell i x c) (lift (λ y, put_cell i y c) l) t →
  ∃ z, fails R old x l z ∧ t = put_cell i z c.
Proof.
  assert (Hend : ∀ old x t, (i < length (cells c))%nat →
    cache_mixed R (((λ y, put_cell i y c) <$> old) ++ [put_cell i x c]) t →
    ∃ z, R (old ++ [x]) z ∧ t = put_cell i z c).
  { intros old x t Hi Hm. apply mixed_put_cell; [by destruct old|done|]. by rewrite fmap_app. }
  induction l as [|[y|] l IH]; intros old x t Hi; cbn [lift fails map option_map].
  - intros [H|[]]. destruct (Hend _ _ _ Hi H) as (z & ? & ?). exists z. auto.
  - intros [H|H]; [destruct (Hend _ _ _ Hi H) as (z & ? & ?); exists z; auto|].
    destruct (IH (old ++ [x]) y t Hi) as (z & ? & ?); [by rewrite fmap_app|]. exists z. auto.
  - intros [H|H]; [destruct (Hend _ _ _ Hi H) as (z & ? & ?); exists z; auto|].
    destruct (IH [] x t Hi H) as (z & ? & ?). exists z. auto.
Qed.

Lemma pending_put_cell i c l : ∀ old x,
  pending ((λ y, put_cell i y c) <$> old) (put_cell i x c) (lift (λ y, put_cell i y c) l) =
  ((λ y, put_cell i y c) <$> (pending old x l).1, put_cell i (pending old x l).2 c).
Proof.
  induction l as [|[y|] l IH]; intros old x; cbn [lift pending map option_map]; [done| |].
  - rewrite <-(IH (old ++ [x])). by rewrite fmap_app.
  - apply (IH []).
Qed.

(** What is pending of a settled cache. *)
Lemma settled_put_cell i c x old :
  cell_at i c = Some x → settled c old →
  settled x (replicate (length old) x) ∧ old = (λ y, put_cell i y c) <$> replicate (length old) x.
Proof.
  intros Hat Ho. split; [by apply Forall_replicate|]. rewrite fmap_replicate, (plens_put_get c x Hat).
  symmetry. by apply replicate_as_Forall_2.
Qed.

Lemma at_cell_fails {A} i (m : M cell A) c x old t :
  cells_set c = true → cells c !! i = Some x → settled c old →
  fails (cache_mixed R) old c (events (at_cell i m) c) t →
  ∃ z old', settled x old' ∧ fails R old' x (events m x) z ∧ t = put_cell i z c.
Proof.
  intros Hs Hx Ho. assert (Hat : cell_at i c = Some x) by (unfold cell_at; by rewrite Hs).
  destruct (settled_put_cell i c x old Hat Ho) as [Hset Heq].
  unfold at_cell. rewrite (events_zoom_opt _ _ _ _ _ Hat), Heq, <-(plens_put_get c x Hat) at 1.
  intros (z & Hz & Ht)%fails_put_cell; [|by eapply lookup_lt_Some]. by eexists _, _.
Qed.

Lemma at_cell_keeps_settled {A} i (m : M cell A) c x old r x' :
  cells_set c = true → cells c !! i = Some x → settled c old → m x = (r, x') →
  (∀ old, settled x old → settled x' (pending old x (events m x)).1) →
  settled (put_cell i x' c) (pending old c (events (at_cell i m) c)).1.
Proof.
  intros Hs Hx Ho Hrun Hm. assert (Hat : cell_at i c = Some x) by (unfold cell_at; by rewrite Hs).
  destruct (settled_put_cell i c x old Hat Ho) as [Hset Heq].
  unfold at_cell. rewrite (events_zoom_opt _ _ _ _ _ Hat), Heq. rewrite <-(plens_put_get c x Hat) at 2.
  rewrite pending_put_cell. apply Forall_fmap. eapply Forall_impl; [by apply Hm|]. by intros ? <-.
Qed.
End mixed.

(** * Failing in cache_add_chunk *)
Section add.
Context (R : list cell → cell → Prop) (R_mixed : ∀ l t, R l t → cell_mixed l t) (smin smax : Z).
Implicit Types (c t : cache) (x y z : cell).

Lemma cache_get_cell_index_reads s : reads (cache_get_cell_index s).
Proof. unfold cache_get_cell_index. read. by apply reads_throw. Qed.

(** The accesses that choose the cell write nothing. *)
Lemma cell_index_fails {A} s c ls (k : nat → M cache A) old t :
  cache_inv smin smax c ls → settled c old →
  fails (cache_mixed R) old c (events (cache_get_cell_index s ≫= k) c) t →
  t = c ∨ ∃ old', settled c old' ∧ fails (cache_mixed R) old' c (events (k (cell_index c s)) c) t.
Proof.
  intros Hinv Ho [Hd|(i & c' & Hrun & Hd)]%fails_bind.
  - left. eapply fails_reads; [by apply mixed_cache_one|apply cache_get_cell_index_reads|exact Ho|exact Hd].
  - right. erewrite cache_get_cell_index_ok in Hrun by done. injection Hrun as <- <-.
    eexists. split; [|exact Hd]. apply settled_reads; [apply cache_get_cell_index_reads|done].
Qed.

(** What is left when the system fails in [cache_add_chunk]: the cache as it was, one with a
    marked cell, or the cache with the chunk. *)
Lemma cache_add_chunk_fails c ls s buffer n t :
  cache_inv smin smax c ls → checksum_wf s → cache_fails R (cache_add_chunk s buffer n) c t →
  t = c ∨ half_done smin smax (cell_index c s) c t ∨ cache_add_chunk s buffer n c = (Ok true, t).
Proof.
  intros H Hs Hd. destruct (cache_cell _ _ c ls s H) as (x & l & Hx & Hl & Hinv & _).
  unfold cache_fails, cache_add_chunk in Hd.
  eapply cell_index_fails in Hd as [Hd|(old & Ho & Hd)]; [by left| |done|apply Forall_nil_2].
  destruct (at_cell_fails R R_mixed _ _ _ _ _ _ (cv_set _ _ _ _ H) Hx Ho Hd) as (z & oldx & Hox & Hz & ->).
  apply (fails_mono _ _ _ _ _ _ R_mixed), (cell_add_chunk_fails smin smax x l.1 l.2) in Hz as [->|[(Hic & Hok & Hsz)|Hrun]]; [| | |done..].
  - left. apply plens_put_get. unfold cell_at. by rewrite (cv_set _ _ _ _ H).
  - right; left. split; [|split; [apply H|]].
    + pose proof (same_but_insert (cell_index c s) z c (cv_set _ _ _ _ H)) as Hsame.
      unfold put_cell. by rewrite (cv_set _ _ _ _ H).
    + exists z. split_and!; [|done..|].
      * apply list_lookup_insert_eq. by eapply lookup_lt_Some.
      * rewrite Hsz. exact (Forall_lookup_1 _ _ _ _ (cv_slots _ _ _ _ H) Hx).
  - right; right. unfold cache_add_chunk. mrun by (by eapply cache_get_cell_index_ok).
    erewrite at_cell_ok; [|apply H|exact Hx|exact Hrun]. unfold put_cell. by rewrite (cv_set _ _ _ _ H).
Qed.

(** After a call that returns a failure loses nothing. *)
Lemma cache_add_chunk_settled c ls s buffer n b c' t :
  cache_inv smin smax c ls → cache_add_chunk s buffer n c = (Ok b, c') →
  cache_fails_after R (cache_add_chunk s buffer n) c t → t = c'.
Proof.
  intros H Hrun. destruct (cache_cell _ _ c ls s H) as (x & l & Hx & Hl & Hinv & _).
  unfold cache_fails_after. rewrite pending_run, Hrun. cbn [snd]. apply (mixed_cache_same R R_mixed).
  apply Forall_app. split; [|by apply Forall_singleton].
  unfold cache_add_chunk in *. pose proof (cache_get_cell_index_ok _ _ _ _ s H) as Hi.
  rewrite (bind_ok _ _ _ _ _ Hi) in Hrun. rewrite pending_bind, Hi.
  assert (Hat : cell_at (cell_index c s) c = Some x) by (unfold cell_at; by rewrite (cv_set _ _ _ _ H)).
  destruct (cell_add_chunk s buffer n x) as [r x'] eqn:Hr. unfold at_cell in Hrun.
  rewrite (zoom_opt_run _ _ _ _ _ _ _ Hat Hr) in Hrun. injection Hrun as -> <-.
  refine (at_cell_keeps_settled _ _ _ _ _ _ _ _ Hx _ Hr _); [apply H| |].
  - apply settled_reads; [apply cache_get_cell_index_reads|apply Forall_nil_2].
  - intros old Ho. by eapply cell_add_chunk_settled.
Qed.
End add.

(** * Processes that die *)

Lemma torn_cache_mixed old a b t : cache_torn a b t → cache_mixed cell_mixed (old ++ [a; b]) t.
Proof.
  intros [Hm Hn Hs Hl Hc].
  assert (Ha : a ∈ old ++ [a; b]) by set_solver. assert (Hb : b ∈ old ++ [a; b]) by set_solver.
  split.
  - destruct Hm; [by exists a|by exists b].
  - destruct Hn; [by exists a|by exists b].
  - destruct Hs; [by exists a|by exists b].
  - intros v Hv. rewrite Forall_forall in Hv. rewrite Hl. by apply (Hv a).
  - intros i xs (xs1 & xs2 & _ & Hxs & ->)%Forall2_app_inv_l.
    apply Forall2_cons_inv_l in Hxs as (x & xs3 & Hx & Hxs & ->).
    apply Forall2_cons_inv_l in Hxs as (y & xs4 & Hy & Hxs & ->).
    apply Forall2_nil_inv_l in Hxs as ->.
    destruct (Hc i x y Hx Hy) as (z & Hz & Ht). exists z. split; [done|]. by apply torn_mixed.
Qed.

Lemma mixed_cache_now (R : list cell → cell → Prop) old c :
  (∀ old x, well_typed x → R (old ++ [x]) x) → Forall well_typed (cells c) → cache_mixed R (old ++ [c]) c.
Proof.
  intros Hnow Hty. assert (Hc : c ∈ old ++ [c]) by set_solver. split; [by exists c..| |].
  - intros v Hv. rewrite Forall_forall in Hv. by apply (Hv c).
  - intros i xs (xs1 & xs2 & _ & Hxs & ->)%Forall2_app_inv_l.
    apply Forall2_cons_inv_l in Hxs as (x & xs3 & Hx & Hxs & ->).
    apply Forall2_nil_inv_l in Hxs as ->. exists x. split; [done|].
    apply Hnow. by eapply Forall_lookup_1.
Qed.

(** A process that dies leaves what a system that fails can leave. *)
Lemma cache_add_chunk_dies_fails smin smax c ls s buffer n t :
  cache_inv smin smax c ls → checksum_wf s →
  cache_dies (cache_add_chunk s buffer n) c t → cache_fails cell_mixed (cache_add_chunk s buffer n) c t.
Proof.
  intros H Hs. assert (Hty : Forall well_typed (cells c)).
  { apply Forall_lookup. intros i y Hy.
    destruct (Forall2_lookup_l _ _ _ _ _ (cv_cells _ _ _ _ H) Hy) as (l & _ & Hl). apply Hl. }
  set (P := λ c : cache, Forall (cell_typed (CACHE_CELL_SIZE - sizeof_cell_header) CACHE_CELL_SIZE) (cells c)).
  assert (HP : P c).
  { apply Forall_lookup. intros i y Hy. pose proof (Forall_lookup_1 _ _ _ _ Hty Hy) as Ht.
    unfold well_typed, header_offset in Ht.
    by rewrite (Forall_lookup_1 _ _ _ _ (cv_slots _ _ _ _ H) Hy : slab_size y = CACHE_CELL_SIZE) in Ht. }
  apply (dies_fails_run _ _ P); [..|exact HP|].
  - intros old a b t' _ _. apply torn_cache_mixed.
  - intros old a Ha. apply mixed_cache_now; [intros; by apply mixed_now|]. eapply Forall_impl; [exact Ha|]. intros y Hy.
    unfold well_typed, header_offset. by rewrite (ty_size _ _ _ Hy).
  - eapply stays_trace; [|exact HP]. unfold cache_add_chunk.
    eapply stays_bind; [apply reads_stays, cache_get_cell_index_reads|]. intros i _.
    eapply stays_zoom_opt; [by apply (cell_add_chunk_stays (CACHE_CELL_SIZE - sizeof_cell_header) CACHE_CELL_SIZE)|..];
      unfold cell_at.
    + intros c0 y Hc Hy. destruct (cells_set c0); [|done]. by eapply Forall_lookup_1.
    + intros c0 y y' Hc _ Hy. by apply Forall_insert.
Qed.

(** What is left of a process that dies in [cache_add_chunk]. *)
Lemma cache_add_chunk_dies smin smax c ls s buffer n t :
  cache_inv smin smax c ls → checksum_wf s → cache_dies (cache_add_chunk s buffer n) c t →
  t = c ∨ half_done smin smax (cell_index c s) c t ∨ cache_add_chunk s buffer n c = (Ok true, t).
Proof. intros H Hs Hd. eapply (cache_add_chunk_fails cell_mixed); [done..|]. by eapply cache_add_chunk_dies_fails. Qed.

(** * Failing in cache_init *)
Section init.
Context {Mem : Persistency} (smin smax : Z).
Implicit Types (c t : cache) (x y z : cell).

(** What opening may leave of the slot [x]: the cell if it is consistent; else what it
    holds, a cell whose header tells that it is not, or an empty one. *)
Definition part_open x z : Prop :=
  z = x ∨ cell_header_sane (cell_hdr x) = false ∧ slab_size z = CACHE_CELL_SIZE ∧
    (slab_ok smin smax z ∧ is_unset z ∨ cell_inv smin smax z [] []).

Lemma part_open_slot x z :
  slot_ok smin smax x → clean x → part_open x z → slot_ok smin smax z ∧ clean z.
Proof.
  intros Hx Hc [->|(Hs & Hsz & [[Hok Hm]|Hinv])]; [done|split..].
  - split_and!; [done..|]. by rewrite unset_insane.
  - by right.
  - split_and!; [by eapply cell_inv_slab_ok|done|]. intros _. by exists ([], []).
  - left. by eapply cell_inv_sane.
Qed.

(** Opening what opening left is opening. *)
Lemma part_open_opened x z x' :
  part_open x z → opened_as smin smax z x' → opened_as smin smax x x'.
Proof.
  intros [->|(Hs & Hsz & Hz)]; [done|]. unfold opened_as. rewrite Hs.
  destruct Hz as [[Hok Hm]|Hinv]; [by rewrite unset_insane|].
  rewrite (cell_inv_sane _ _ _ _ _ Hinv). by intros (-> & _).
Qed.

Lemma cell_init_endures x :
  slot_ok smin smax x → clean x → endures mix (part_open x) (cell_init (u32 CACHE_CELL_SIZE)).
Proof.
  intros Hx Hcx old z Hz Ho. destruct (part_open_slot x z Hx Hcx Hz) as [(Hok & Hsz & Hinv) Hc].
  assert (cell_init (u32 CACHE_CELL_SIZE) = cell_init (slab_size z)) as -> by by rewrite Hsz.
  assert (Hpart : cell_header_sane (cell_hdr z) = false → cell_header_sane (cell_hdr x) = false).
  { intros Hs. destruct Hz as [->|(? & _)]; done. }
  assert (Hend : part_open x (cell_init (slab_size z) z).2).
  { destruct (cell_header_sane (cell_hdr z)) eqn:Hs; [by rewrite (cell_init_keeps smin smax z Hok Hs)|].
    destruct (cell_init_fresh smin smax z Hok Hs) as (z' & Hrun & Hz' & Hsz').
    rewrite Hrun. right. split_and!; [by apply Hpart|simpl; congruence|by right]. }
  split_and!; [|done|by eapply cell_init_settled].
  intros t [->|(Hs & Hok' & Hsz' & [Hm| ->])]%(cell_init_fails smin smax); [done| |done..].
  right. split_and!; [by apply Hpart|congruence|by left].
Qed.

(** ** The header and the loop over the cells *)
Context (xs : list cell).

(** A region that is being opened: [xs] are its cells before. *)
Record opening (n : Z) c : Prop := {
  op_set : cells_set c = true;
  op_header : cache_magic (cache_hdr c) = CACHE_HEADER_MAGIC → cell_count (cache_hdr c) = n;
  op_cells : Forall2 part_open xs (cells c);
}.

Lemma at_cell_endures n i (m : M cell unit) :
  (∀ x, xs !! i = Some x → endures mix (part_open x) m) →
  endures (cache_mixed mix) (opening n) (at_cell i m).
Proof.
  intros Hm old c [Hset Hh Hc] Ho. destruct (cells c !! i) as [z|] eqn:Hz.
  - destruct (Forall2_lookup_r _ _ _ _ _ Hc Hz) as (x & Hx & Hpz).
    assert (Hat : cell_at i c = Some z) by (unfold cell_at; by rewrite Hset).
    assert (Hput : ∀ z', part_open x z' → opening n (put_cell i z' c)).
    { intros z' Hz'. split; [done..|]. simpl. rewrite <-(list_insert_id xs i x) by done.
      by apply Forall2_insert. }
    destruct (m z) as [r z'] eqn:Hrun.
    assert (at_cell i m c = (r, put_cell i z' c)) as Hr by by eapply zoom_opt_run.
    rewrite Hr. cbn [snd]. split_and!.
    + intros t Ht. apply (at_cell_fails mix mix_mixed _ _ _ _ _ _ Hset Hz Ho) in Ht as (z2 & old' & Ho' & Hf & ->).
      apply Hput. by eapply (Hm x Hx old' z).
    + apply Hput. pose proof (Hm x Hx [] z Hpz) as (_ & Hp & _); [constructor|]. by rewrite Hrun in Hp.
    + eapply at_cell_keeps_settled; [done..|]. intros old' Ho'.
      destruct (Hm x Hx old' z Hpz Ho') as (_ & _ & Hs). by rewrite Hrun in Hs.
  - assert (Hat : cell_at i c = None) by (unfold cell_at; by rewrite Hset).
    assert (Hev : events (at_cell i m) c = []) by (unfold events, at_cell, zoom_opt; by rewrite Hat).
    unfold at_cell at 2 3. rewrite Hev, (zoom_opt_none _ _ _ _ Hat). cbn [snd fails pending fst].
    split_and!; [|done..]. intros t [Ht|[]]. erewrite (mixed_cache_same mix mix_mixed c); [done| |exact Ht].
    apply Forall_app; auto.
Qed.

Lemma for_cells_endures n (m : M cell unit) k : ∀ i,
  (∀ i x, xs !! i = Some x → endures mix (part_open x) m) →
  endures (cache_mixed mix) (opening n) (for_cells k i m).
Proof.
  induction k as [|k IH]; intros i Hm; simpl.
  - apply endures_reads; [apply (mixed_cache_one mix mix_mixed)|apply reads_ret].
  - apply endures_bind; [by apply at_cell_endures, Hm|]. intros _. by apply IH.
Qed.
End init.

Section open.
Context {Mem : Persistency} (smin smax : Z).
Implicit Types (c t : cache).

(** The header is that of a new region or of a cache of [n] cells. *)
Definition header_of (n : Z) c : Prop :=
  cache_magic (cache_hdr c) = CACHE_HEADER_MAGIC → cell_count (cache_hdr c) = n.

Lemma mixed_no_cache_magic l t :
  Forall (λ c, cache_magic (cache_hdr c) ≠ CACHE_HEADER_MAGIC) l → cache_mixed mix l t →
  cache_magic (cache_hdr t) ≠ CACHE_HEADER_MAGIC.
Proof. intros Hl [Hm _ _ _ _]. by destruct (one_of_Forall _ _ _ _ Hm Hl) as (a & Ha & ->). Qed.

Lemma mixed_count n l t :
  Forall (λ c, cell_count (cache_hdr c) = n) l → cache_mixed mix l t → cell_count (cache_hdr t) = n.
Proof. intros Hl [_ Hn _ _ _]. by destruct (one_of_Forall _ _ _ _ Hn Hl) as (a & Ha & ->). Qed.

Lemma cache_header_events n c :
  events (on_header (cache_header_init n)) c =
    let h := cache_hdr c in
    if cache_magic h =? CACHE_HEADER_MAGIC then [Some c]
    else [Some c; Some (put_cache_hdr (CacheHeader (cache_magic h) n) c); None;
          Some (put_cache_hdr (CacheHeader CACHE_HEADER_MAGIC n) c); None].
Proof.
  unfold on_header. rewrite events_zoom. unfold cache_header_init. rewrite events_get.
  destruct c as [h b l]. cbn [cache_hdr]. by destruct (cache_magic h =? CACHE_HEADER_MAGIC).
Qed.

(** The count of the cells arrives before the magic number. *)
Lemma cache_header_fails n c t :
  header_of n c → fails (cache_mixed mix) [] c (events (on_header (cache_header_init n)) c) t →
  cells t = cells c ∧ header_of n t.
Proof.
  intros Hh Hf. set (h := cache_hdr c). rewrite cache_header_events in Hf. fold h in Hf. cbv zeta in Hf.
  assert (Hone : cache_mixed mix [c] t → cells t = cells c ∧ header_of n t).
  { intros Hx. apply (mixed_cache_same mix mix_mixed c) in Hx as ->; [done|by constructor]. }
  assert (Htwo : cache_mixed mix [c; c] t → cells t = cells c ∧ header_of n t).
  { intros Hx. apply (mixed_cache_same mix mix_mixed c) in Hx as ->; [done|by do 2 constructor]. }
  destruct (Z.eqb_spec (cache_magic h) CACHE_HEADER_MAGIC) as [E|E].
  { destruct Hf as [Hf|[Hf|[]]]; auto. }
  assert (Hcells : ∀ l, Forall (λ a, cells a = cells c) l → cache_mixed mix l t → cells t = cells c).
  { intros l. apply (mixed_cells mix mix_mixed). }
  destruct Hf as [Hf|[Hf|[Hf|[Hf|[Hf|[Hf|[]]]]]]]; [auto..| | | |];
    (split; [eapply Hcells; [|exact Hf]; by repeat constructor|]).
  - intros Hm. by apply mixed_no_cache_magic in Hf; [|repeat constructor].
  - intros _. eapply mixed_count; [|exact Hf]. by repeat constructor.
  - intros _. eapply mixed_count; [|exact Hf]. by repeat constructor.
  - intros _. eapply mixed_count; [|exact Hf]. by repeat constructor.
Qed.

Lemma cache_header_run n c :
  on_header (cache_header_init n) c =
    (Ok tt, if cache_magic (cache_hdr c) =? CACHE_HEADER_MAGIC then c
            else put_cache_hdr (CacheHeader CACHE_HEADER_MAGIC n) c).
Proof.
  assert (H : cache_header_init n (cache_hdr c) =
    (Ok tt, if cache_magic (cache_hdr c) =? CACHE_HEADER_MAGIC then cache_hdr c
            else CacheHeader CACHE_HEADER_MAGIC n)).
  { unfold cache_header_init. rewrite bind_get. by destruct (cache_magic (cache_hdr c) =? CACHE_HEADER_MAGIC). }
  unfold on_header. rewrite (zoom_run _ _ _ _ _ _ H). destruct c as [h b l]; cbn [cache_hdr].
  by destruct (cache_magic h =? CACHE_HEADER_MAGIC).
Qed.

Lemma cache_header_settled n c c' :
  header_of n c → on_header (cache_header_init n) c = (Ok tt, c') →
  settled c' (pending [] c (events (on_header (cache_header_init n)) c)).1
  ∧ cells c' = cells c ∧ header_of n c'.
Proof.
  intros Hh. rewrite cache_header_events, cache_header_run. cbv zeta.
  destruct (cache_magic (cache_hdr c) =? CACHE_HEADER_MAGIC); intros [= <-];
    (split; [by constructor|done]).
Qed.

Lemma at_cell_keeps_set {A} i (m : M cell A) c :
  cells_set (at_cell i m c).2 = cells_set c ∧
  Forall (λ a, cells_set a = cells_set c) (omap id (events (at_cell i m) c)).
Proof.
  rewrite events_trace. destruct (cell_at i c) as [x|] eqn:Hat; unfold at_cell.
  - destruct (m x) as [r x'] eqn:Hr. rewrite (zoom_opt_run _ _ _ _ _ _ _ Hat Hr), (trace_zoom_opt _ _ _ _ _ Hat).
    split; [done|]. by apply Forall_fmap, Forall_true.
  - rewrite (zoom_opt_none _ _ _ _ Hat). unfold trace, zoom_opt. by rewrite Hat.
Qed.

Lemma for_cells_set k (m : M cell unit) : ∀ i c,
  Forall (λ a, cells_set a = cells_set c) (omap id (events (for_cells k i m) c)).
Proof.
  induction k as [|k IH]; intros i c; simpl; [constructor|].
  rewrite events_bind, omap_app. destruct (at_cell_keeps_set i m c) as [Hs Ht]. apply Forall_app. split; [done|].
  destruct (at_cell i m c) as [[r|e] c']; [|constructor]. simpl in Hs. rewrite <-Hs. apply IH.
Qed.

(** What is left when the system fails in [cache_init]. *)
Lemma cache_init_fails size c t :
  region_ok smin smax size c → Forall clean (cells c) → cache_fails mix (cache_init size) c t →
  Forall2 (part_open smin smax) (cells c) (cells t) ∧ header_of (size / CACHE_CELL_SIZE - 1) t.
Proof.
  intros [Hsl Hn Hh Hslot] Hcl Hf. unfold cache_fails, cache_init in Hf.
  change (u32 CACHE_CELL_SIZE) with CACHE_CELL_SIZE in Hf. cbv zeta in Hf.
  rewrite u64_id in Hf by lia. set (n := size / CACHE_CELL_SIZE - 1) in *.
  assert (Hnew : Forall2 (part_open smin smax) (cells c) (cells c)).
  { apply Forall_Forall2_diag, Forall_true. by left. }
  assert (Hlt : 2 <=? size / CACHE_CELL_SIZE = true) by lia. rewrite Hlt in Hf. unfold ALWAYS in Hf.
  rewrite events_ret in Hf.
  assert (Hhc : header_of n c) by (unfold header_of; rewrite <-Hn; exact Hh).
  apply fails_bind in Hf as [Hf|([] & c1 & Hrun & Hf)].
  { apply cache_header_fails in Hf as [Ht ?]; [|done]. by rewrite Ht. }
  destruct (cache_header_settled n c c1 Hhc Hrun) as (Ho & Hc1 & Hh1).
  revert Ho Hf. generalize (pending [] c (events (on_header (cache_header_init n)) c)).1 as old. intros old Ho Hf.
  rewrite events_modify in Hf. set (c2 := set_cells true c1) in *.
  assert (Hset : ∀ l, settled c1 l → settled c2 (set_cells true <$> l)).
  { intros l Hl. apply Forall_fmap. eapply Forall_impl; [exact Hl|]. by intros ? <-. }
  assert (Ho1 : settled c1 (old ++ [c1])) by (apply Forall_app; auto).
  destruct Hf as [Hf|Hf].
  { apply (mixed_cache_same mix mix_mixed c1) in Hf as ->; [by rewrite Hc1|done]. }
  apply (fails_map _ (set_cells true)) in Hf; [|apply (mixed_set_cells mix)].
  change (set_cells true c2) with c2 in Hf.
  assert (Hop : opening smin smax (cells c) n c2) by (by split; [..|simpl; rewrite Hc1]).
  assert (Hloop : endures (cache_mixed mix) (opening smin smax (cells c) n)
    (for_cells (Z.to_nat n) 0 (cell_init CACHE_CELL_SIZE);; mret 0)).
  { apply endures_bind; [apply for_cells_endures|intros _; apply endures_reads; [apply (mixed_cache_one mix mix_mixed)|apply reads_ret]].
    intros i x Hx. apply cell_init_endures; by eapply Forall_lookup_1. }
  rewrite lift_id in Hf.
  2: { rewrite events_bind, omap_app. apply Forall_app. split.
       - eapply Forall_impl; [apply for_cells_set|]. intros [h b l] Hb. simpl in Hb. by subst b.
       - destruct (for_cells _ _ _ c2) as [[]]; constructor. }
  by destruct (proj1 (Hloop _ c2 Hop (Hset _ Ho1)) _ Hf) as [_ ? ?].
Qed.
End open.
