(* ===== verification/CacheTyped.v ===== *)
(** The types of the structures of a cache, and that no function of cache.c leaves them at
    any access, on memory of any contents, up to an access outside of a slab. *)

From S2P Require Import Prelude Monad Trace Slab Checksum CellIc CellDirEntry CellHeader CacheMetrics.
From S2P Require Import Cell CellTyped CellCrash Cache CacheHistory.

Definition word64 (x : Z) : Prop := 0 ≤ x < 18446744073709551616.

(** A region of any contents: each slot is a cell of 1 MB. *)
Record cache_typed (c : cache) : Prop := {
  cty_magic : word64 (cache_magic (cache_hdr c));
  cty_count : word64 (cell_count (cache_hdr c));
  cty_cells : Forall (cell_typed (CACHE_CELL_SIZE - sizeof_cell_header) CACHE_CELL_SIZE) (cells c);
}.

(** The calls of cache.c. *)
Inductive cache_api :=
  | CacheInit (size : Z)
  | CacheOp (op : cache_op)
  | CacheGetMetrics
  | CacheRelease.

Definition api_call (x : cache_api) : M cache unit :=
  match x with
  | CacheInit size => _ ← cache_init size; mret tt
  | CacheOp op => _ ← cache_call op; mret tt
  | CacheGetMetrics => _ ← cache_get_metrics; mret tt
  | CacheRelease => cache_release
  end.

(** The arguments have their C types: the size is a [uint64_t], a checksum 32 bytes. *)
Definition api_args (x : cache_api) : Prop :=
  match x with
  | CacheInit size => word64 size
  | CacheOp op => checksum_wf (op_sum op)
  | _ => True
  end.

Section typed.
Abbreviation P := cache_typed.

Lemma at_cell_stays {A} i (m : M cell A) Q :
  stays (cell_typed (CACHE_CELL_SIZE - sizeof_cell_header) CACHE_CELL_SIZE) m Q →
  stays P (at_cell i m) Q.
Proof.
  intros Hm. eapply stays_zoom_opt; [exact Hm|..]; unfold cell_at.
  - intros c x [_ _ H] Hx. destruct (cells_set c); [|done]. by eapply Forall_lookup_1.
  - intros c x x' [??] _ Hx'. split; simpl; [done..|]. by apply Forall_insert.
Qed.
Lemma for_cells_stays m n : ∀ i,
  stays (cell_typed (CACHE_CELL_SIZE - sizeof_cell_header) CACHE_CELL_SIZE) m any →
  stays P (for_cells n i m) any.
Proof.
  intros i Hm. revert i. induction n as [|n IH]; intros i; simpl; [by apply stays_ret|].
  eapply stays_bind; [by apply at_cell_stays|]. auto.
Qed.
Lemma add_metrics_stays n : ∀ i m, stays P (add_metrics n i m) any.
Proof.
  induction n as [|n IH]; intros i m; simpl; [by apply stays_ret|].
  eapply stays_bind; [apply at_cell_stays, cell_get_metrics_stays|]. auto.
Qed.
Hint Resolve at_cell_stays for_cells_stays add_metrics_stays cell_init_stays : stays.

Lemma cache_header_init_typed n :
  word64 n → stays (λ h, word64 (cache_magic h) ∧ word64 (cell_count h)) (cache_header_init n) any.
Proof.
  intros Hn. unfold cache_header_init. stay; intros h [??]; split; simpl; try done.
Qed.
Lemma cache_init_typed size : stays P (cache_init size) any.
Proof.
  unfold cache_init. change (u32 CACHE_CELL_SIZE) with CACHE_CELL_SIZE. stay.
  - eapply stays_zoom; [apply cache_header_init_typed| |].
    + apply Z.mod_pos_bound. lia.
    + by intros c [].
    + intros c h [] [??]. by split.
  - by intros c [].
Qed.
Lemma cache_get_cell_index_stays s : stays P (cache_get_cell_index s) any.
Proof. unfold cache_get_cell_index. stay. Qed.
Lemma cache_get_metrics_stays : stays P cache_get_metrics any.
Proof. unfold cache_get_metrics. stay. Qed.
Hint Resolve cache_get_cell_index_stays cache_init_typed cache_get_metrics_stays : stays.

Lemma cache_call_stays op : checksum_wf (op_sum op) → stays P (cache_call op) any.
Proof.
  intros Hs. unfold cache_call, cache_add_chunk, cache_has_chunk, cache_get_chunk.
  destruct op as [s bs n|s|s ch]; simpl in Hs; (eapply stays_bind; [|intros; by apply stays_ret]);
    (eapply stays_bind; [apply cache_get_cell_index_stays|]); intros i _; apply at_cell_stays.
  - by apply cell_add_chunk_stays.
  - apply cell_has_chunk_stays.
  - apply cell_get_chunk_stays.
Qed.

Lemma api_call_stays x : api_args x → stays P (api_call x) any.
Proof.
  intros Hx. destruct x as [size|op| |]; simpl in *.
  - stay.
  - eapply stays_bind; [by apply cache_call_stays|]. intros; by apply stays_ret.
  - stay.
  - unfold cache_release, cell_release. stay; [|by intros c []].
    by apply for_cells_stays, stays_ret.
Qed.
End typed.
