(* ===== verification/CacheThreads.v ===== *)
(** Several threads that use one cache.  The functions of cell.c hold the mutex of their cell
    from the first to the last access to it; what a call reads of the cache before that, the
    header and the array of cells, nobody writes while threads run.  So the threads of
    Threads.v with the code of cell.c are the threads of a program that uses a cache. *)

From S2P Require Import Prelude Monad Trace Persist SmallStep Threads Slab Checksum CellIc CellHeader CellState CellBody.
From S2P Require Import CellRing CacheMetrics Cell CellTyped CellSpec CellCrash CellPersist CellHistory.
From S2P Require Import Cache CacheSpec CacheHistory CacheCrash CachePersist.

(** * The calls of a thread *)

(** A call that goes to the cell of a checksum, or one cell's part of [cache_get_metrics]. *)
Inductive thread_op :=
  | OnSum (op : cache_op)
  | OnMetrics (i : nat) (m : cache_metrics).

Inductive thread_result :=
  | SumResult (r : op_result)
  | MetricsResult (m : cache_metrics).

(** Between [pthread_mutex_lock] and [pthread_mutex_unlock] in cell.c. *)
Definition thread_code (op : thread_op) : M cell thread_result :=
  match op with
  | OnSum op => r ← cell_call op; mret (SumResult r)
  | OnMetrics _ m => m ← cell_get_metrics m; mret (MetricsResult m)
  end.

(** The cell, which [cache_get_cell_index] finds. *)
Definition thread_place (c : cache) (op : thread_op) : nat :=
  match op with
  | OnSum op => cell_index c (op_sum op)
  | OnMetrics i _ => i
  end.

(** The cell is there; that of a checksum always is. *)
Definition in_cache (c : cache) (op : thread_op) : Prop := (thread_place c op < length (cells c))%nat.

(** The same call in a program with one thread. *)
Definition thread_call (op : thread_op) : M cache thread_result :=
  match op with
  | OnSum op => r ← cache_call op; mret (SumResult r)
  | OnMetrics i m => m ← at_cell i (cell_get_metrics m); mret (MetricsResult m)
  end.

Fixpoint calls (ops : list thread_op) : M cache (list thread_result) :=
  match ops with
  | [] => mret []
  | op :: ops => r ← thread_call op; rs ← calls ops; mret (r :: rs)
  end.

(** [cache_get_metrics] in a thread: one call per cell, each given the sums so far; other
    threads may change cells in between, so that the sums are not those of one moment. *)
Fixpoint metrics_client (n i : nat) (m : cache_metrics) (k : cache_metrics → client (R:=thread_result) (Op:=thread_op))
    : client (R:=thread_result) (Op:=thread_op) :=
  match n with
  | O => k m
  | S n => Call (OnMetrics i m) (λ r,
      match r with
      | MetricsResult m => metrics_client n (S i) m k
      | SumResult _ => Finished
      end)
  end.

Section threads.
Implicit Types (c : cache) (op : thread_op).

Lemma calls_snoc ops op c rs c1 r c2 :
  calls ops c = (Ok rs, c1) → thread_call op c1 = (Ok r, c2) →
  calls (ops ++ [op]) c = (Ok (rs ++ [r]), c2).
Proof.
  revert c rs. induction ops as [|op' ops IH]; intros c rs Hc Hop; simpl in *.
  - injection Hc as <- <-. by mrun by exact Hop.
  - apply bind_inv in Hc as (r' & c' & Hr & Hc). apply bind_inv in Hc as (rs' & c3 & Hrs & Hc).
    injection Hc as <- <-. mrun by exact Hr. by mrun by (apply IH; [exact Hrs|exact Hop]).
Qed.

(** A call on the array of cells is the call on the cache. *)
Lemma thread_call_code op c xs x r x' :
  0 < cell_count (cache_hdr c) → xs !! thread_place c op = Some x → thread_code op x = (Ok r, x') →
  thread_call op (Cache (cache_hdr c) true xs) =
    (Ok r, Cache (cache_hdr c) true (<[thread_place c op := x']> xs)).
Proof.
  intros Hc Hx Hr. destruct op as [op|i m]; simpl in *;
    apply bind_inv in Hr as (a & x1 & Ha & Hr); injection Hr as <- <-.
  - rewrite bind_run, (cache_call_cell op c) by done.
    by erewrite at_cell_ok by (done || exact Hx || exact Ha).
  - rewrite bind_run. by erewrite at_cell_ok by (done || exact Hx || exact Ha).
Qed.

Lemma sequential_calls c log xs :
  0 < cell_count (cache_hdr c) → cells_set c = true →
  sequential thread_code (thread_place c) (cells c) log xs →
  calls (e_op <$> log) c = (Ok (e_result <$> log), Cache (cache_hdr c) true xs).
Proof.
  intros Hc Hs. induction 1 as [|log xs t op r x x' Hseq IH Hx Hr].
  - destruct c as [h b l]; simpl in *. by subst b.
  - rewrite !fmap_app. simpl. eapply calls_snoc; [exact IH|]. by apply thread_call_code with x.
Qed.

(** With no other thread, the calls of [metrics_client] are [cache_get_metrics]. *)
Lemma metrics_client_calls t k n : ∀ i m c m' c',
  add_metrics n i m c = (Ok m', c') →
  ∃ log, makes (metrics_client n i m k) log (k m') ∧
    calls (e_op <$> log) c = (Ok (e_result <$> log), c') ∧ Forall (λ e, e_thread e = t) log.
Proof.
  induction n as [|n IH]; intros i m c m' c' Hr; cbn [add_metrics] in Hr.
  { injection Hr as <- <-. exists []. split_and!; [apply makes_nil|done|done]. }
  apply bind_inv in Hr as (m1 & c1 & Hm & Hr). destruct (IH _ _ _ _ _ Hr) as (log & Hmk & Hc & Ht).
  exists (Entry t (OnMetrics i m) (MetricsResult m1) :: log). split_and!; [by apply makes_cons| |by constructor].
  rewrite !fmap_cons. cbn [calls e_op e_result thread_call]. rewrite bind_assoc.
  mrun by exact Hm. rewrite bind_ret. by mrun by exact Hc.
Qed.

Lemma cache_get_metrics_calls t k c m c' :
  cache_get_metrics c = (Ok m, c') →
  ∃ log, makes (metrics_client (Z.to_nat (cell_count (cache_hdr c))) 0 cache_metrics_init k) log (k m) ∧
    calls (e_op <$> log) c = (Ok (e_result <$> log), c') ∧ Forall (λ e, e_thread e = t) log.
Proof. unfold cache_get_metrics. rewrite bind_gets. apply metrics_client_calls. Qed.
End threads.

(** * Threads on a consistent cache *)

Section consistent.
Context (smin smax : Z).
Implicit Types (c : cache) (x : cell) (op : thread_op).

(** The arguments a caller may give. *)
Definition op_args (op : cache_op) : Prop :=
  match op with
  | CacheAdd s buffer n => arg_ok smin smax s buffer n
  | CacheHas s | CacheGet s _ => checksum_wf s
  end.
Definition thread_args c op : Prop :=
  match op with
  | OnSum op => op_args op
  | OnMetrics i _ => (i < length (cells c))%nat
  end.

(** A cell at rest. *)
Definition cell_good x : Prop := slab_size x = CACHE_CELL_SIZE ∧ ∃ l : ring_of, cell_inv smin smax x l.1 l.2.

(** All calls but an addition only read. *)
Lemma thread_code_reads op :
  match op with OnSum (CacheAdd _ _ _) => True | _ => reads (thread_code op) end.
Proof.
  destruct op as [[s buffer n|s|s ch]|i m]; simpl; [done|..].
  - read. apply cell_has_chunk_reads.
  - read. apply cell_get_chunk_reads.
  - unfold cell_get_metrics, cell_byte_count, cell_entry_count. read.
Qed.

Lemma thread_code_good c op x r x' :
  cell_good x → thread_args c op → thread_code op x = (Ok r, x') → cell_good x'.
Proof.
  intros [Hsz (l & Hl)] Harg Hr. pose proof (thread_code_reads op) as Hread.
  assert (Hsame : reads (thread_code op) → cell_good x').
  { intros H. destruct (reads_run _ x H) as [Hx _]. rewrite Hr in Hx. simpl in Hx. subst x'.
    by split; [|exists l]. }
  destruct op as [[s buffer n|s|s ch]|i m]; auto. clear Hsame Hread. simpl in *.
  apply bind_inv in Hr as (a & x2 & Hr & Hx). injection Hx as <- <-.
  apply bind_inv in Hr as (b & x1 & Hr & Hx). injection Hx as <- <-.
  destruct (cell_add_chunk_spec smin smax x l.1 l.2 s buffer n Hl Harg)
    as [[_ Hr']|[_ [(_ & x2 & Hr' & _)|(x2 & pre & suf & Hr' & _ & Hi & Hs)]]];
    rewrite Hr in Hr'; simplify_eq; [by split; [|exists l]|].
  split; [congruence|by exists (pre, suf)].
Qed.

(** What is left after a death in a call on [x]: the cell as it was, a marked one, or the
    cell after the call. *)
Definition left_by op x z : Prop :=
  z = x
  ∨ cell_ic_sane (hdr_ic (cell_hdr z)) = false ∧ slab_ok smin smax z ∧ slab_size z = slab_size x
  ∨ ∃ r, thread_code op x = (Ok r, z).

Lemma thread_code_fails c op x z :
  cell_good x → thread_args c op → cell_fails (thread_code op) x z → left_by op x z.
Proof.
  intros [Hsz (l & Hl)] Harg Hd. pose proof (thread_code_reads op) as Hread.
  assert (Hsame : reads (thread_code op) → left_by op x z).
  { intros H. left. eapply fails_reads; [exact mixed_one|exact H|apply Forall_nil_2|exact Hd]. }
  destruct op as [[s buffer n|s|s ch]|i m]; auto. clear Hsame Hread. simpl in *.
  unfold cell_fails in Hd. rewrite !events_bind_ret in Hd.
  destruct (cell_add_chunk_fails smin smax x l.1 l.2 s buffer n [] z Hl (ao_sum _ _ _ _ _ Harg))
    as [->|[?|Hr]]; [apply Forall_nil_2|done|by left|by right; left|right; right].
  exists (SumResult (AddedNew true)). simpl. rewrite bind_assoc. by mrun by exact Hr.
Qed.

(** A call that returns has written everything back. *)
Lemma thread_code_settled op x r x' old :
  settled x old → thread_code op x = (Ok r, x') →
  settled x' (pending old x (events (thread_code op) x)).1.
Proof.
  intros Ho Hr. pose proof (thread_code_reads op) as Hread.
  assert (Hsame : reads (thread_code op) → settled x' (pending old x (events (thread_code op) x)).1).
  { intros H. destruct (reads_run _ x H) as [Hx _]. rewrite Hr in Hx. simpl in Hx. subst x'.
    by apply settled_reads. }
  destruct op as [[s buffer n|s|s ch]|i m]; auto. clear Hsame Hread. cbn [thread_code cell_call] in *.
  rewrite !events_bind_ret. apply bind_inv in Hr as (a & x2 & Hr & Hx). injection Hx as <- <-.
  apply bind_inv in Hr as (b & x1 & Hr & Hx). injection Hx as <- <-. by eapply cell_add_chunk_settled.
Qed.

Lemma thread_code_dies c op x z :
  cell_good x → thread_args c op → cell_dies (thread_code op) x z → left_by op x z.
Proof.
  intros Hgood Harg Hd. pose proof Hgood as [Hsz (l & Hl)]. pose proof (thread_code_reads op) as Hread.
  apply (thread_code_fails c); [done..|]. eapply (cell_dies_fails _ any); [apply Hl| |done].
  destruct op as [[s buffer n|s|s ch]|i m]; [|by apply reads_stays..]. clear Hread. simpl in *.
  do 2 (apply (stays_bind _ _ _ any any); [|intros; by apply stays_ret]).
  apply cell_add_chunk_stays; [|by apply Harg].
  unfold header_offset. change sizeof_cell_header with 28704. lia.
Qed.

Lemma thread_code_err c op x e z :
  cell_good x → thread_args c op → thread_code op x = (Err e, z) → left_by op x z.
Proof.
  intros [Hsz (l & Hl)] Harg Hr. pose proof (thread_code_reads op) as Hread.
  assert (Hsame : reads (thread_code op) → left_by op x z).
  { intros H. left. destruct (reads_run _ x H) as [Hx _]. by rewrite Hr in Hx. }
  destruct op as [[s buffer n|s|s ch]|i m]; auto. clear Hsame Hread. simpl in *.
  rewrite !bind_assoc, bind_run in Hr.
  destruct (cell_add_chunk_spec smin smax x l.1 l.2 s buffer n Hl Harg)
    as [[_ Hr']|[_ [(_ & x2 & Hr' & Hic & Hs & Hty)|(x2 & pre & suf & Hr' & _)]]];
    rewrite Hr' in Hr; [done| |done]. injection Hr as _ <-.
  right; left. split_and!; [done| |done]. eapply slab_ok_typed; [by eapply cell_inv_slab_ok|done..].
Qed.

(** No call stops but an addition, and that only where the ring of its cell is stuck. *)
Lemma thread_code_stops c op x e z :
  cell_good x → thread_args c op → thread_code op x = (Err e, z) →
  e = AssertFail ∧ ∃ s buffer n, op = OnSum (CacheAdd s buffer n) ∧
    ring_stuck smin smax x (chunk_of s buffer n).
Proof.
  intros [_ (l & Hl)] Harg Hr. destruct op as [[s buffer n|s|s ch]|i m]; simpl in *.
  - rewrite !bind_assoc, bind_run in Hr. destruct (cell_add_chunk s buffer n x) as [[b|e'] x1] eqn:Ha; [done|].
    injection Hr as -> _. destruct (cell_add_chunk_stops _ _ _ _ _ _ _ _ _ _ Hl Harg Ha) as [-> ?].
    split; [done|]. by exists s, buffer, n.
  - rewrite !bind_assoc in Hr.
    by rewrite (bind_ok _ _ _ _ _ (cell_has_chunk_spec _ _ _ _ _ _ (ci_body _ _ _ _ _ Hl) Harg)) in Hr.
  - rewrite !bind_assoc in Hr. pose proof (cell_get_chunk_spec _ _ _ _ _ _ ch (ci_body _ _ _ _ _ Hl) Harg) as Hg.
    destruct (contents _ !! s) as [d|]; [destruct Hg as (ch' & Hg & _)|]; by rewrite (bind_ok _ _ _ _ _ Hg) in Hr.
  - by rewrite bind_run in Hr.
Qed.

Lemma sequential_good c log xs :
  Forall (λ e, thread_args c (e_op e)) log → Forall cell_good (cells c) →
  sequential thread_code (thread_place c) (cells c) log xs → Forall cell_good xs.
Proof.
  intros Hargs Hg H. induction H as [|log xs t op r x x' _ IH Hx Hr]; [done|].
  apply Forall_app in Hargs as [Hargs Hop]. apply Forall_cons in Hop as [Hop _].
  specialize (IH Hargs). apply Forall_insert; [done|].
  eapply thread_code_good; [|exact Hop|exact Hr]. by eapply Forall_lookup_1.
Qed.

Lemma cache_inv_good c ls : cache_inv smin smax c ls → Forall cell_good (cells c).
Proof.
  intros H. apply Forall_lookup. intros i x Hx.
  destruct (Forall2_lookup_l _ _ _ _ _ (cv_cells _ _ _ _ H) Hx) as (l & _ & Hl).
  split; [exact (Forall_lookup_1 _ _ _ _ (cv_slots _ _ _ _ H) Hx)|by exists l].
Qed.

(** ** A process with several threads dies *)

Abbreviation machine := (config (S:=cell) (R:=thread_result) (Op:=thread_op)).

(** What it leaves of cell [i]: a state of the access the thread in the cell was at. *)
Definition cell_left c (g : machine) (i : nat) (z : cell) : Prop :=
  ∃ x, mem g !! i = Some x ∧
    ((∃ t op m k, threads g t = Inside op m k ∧ thread_place c op = i ∧ cell_dies m x z) ∨
     (z = x ∧ ∀ t op m k, threads g t = Inside op m k → thread_place c op ≠ i)).

Lemma cell_left_by c clients g log xs i z :
  (∀ t, client_ok (thread_args c) (clients t)) → Forall cell_good (cells c) →
  linear thread_code (thread_place c) (cells c) clients g log xs → cell_left c g i z →
  ∃ x, xs !! i = Some x ∧ cell_good x ∧
    (z = x ∨ ∃ t op, in_call (threads g t) op ∧ thread_place c op = i ∧ left_by op x z).
Proof.
  intros Hcl Hg H (x & Hx & Hz).
  pose proof (sequential_good c log xs (linear_ok _ _ _ _ _ _ _ _ Hcl H) Hg (ln_seq _ _ _ _ _ _ _ H)) as Hgood.
  assert (Hat : ∀ y, xs !! i = Some y → cell_good y) by (intros y; by apply Forall_lookup_1).
  destruct Hz as [(t & op & m & k & Ht & <- & Hd)|[-> Hout]].
  - pose proof (ln_thread _ _ _ _ _ _ _ H t) as Hth. rewrite Ht in Hth.
    destruct Hth as (_ & k0 & x0 & y & _ & Hx0 & Hy & _ & Hf). rewrite Hx in Hy. injection Hy as <-.
    exists x0. split_and!; [done|by apply Hat|]. right. exists t, op. split; [by rewrite Ht|]. split; [done|].
    eapply thread_code_dies; [by apply Hat| |by eapply follows_dies].
    eapply (linear_in_call _ _ _ _ _ _ _ _ t op Hcl H). by rewrite Ht.
  - destruct (owner g !! i) as [t|] eqn:Ho.
    + pose proof (ln_owner _ _ _ _ _ _ _ H i t Ho) as Hh.
      pose proof (ln_thread _ _ _ _ _ _ _ H t) as Hth.
      destruct (threads g t) as [cl|op m k|op r k|op e] eqn:E; simpl in Hh; [done| | |]; subst i;
        [by destruct (Hout t op m k E)|..];
        destruct Hth as (_ & k0 & x0 & y & _ & Hx0 & Hy & Hrun); rewrite Hx in Hy; injection Hy as <-;
        exists x0; (split_and!; [done|by apply Hat|]); right; exists t, op; (split; [by rewrite E|split; [done|]]).
      * destruct Hrun as [_ Hrun]. right; right. by exists r.
      * eapply thread_code_err; [by apply Hat| |exact Hrun].
        eapply (linear_in_call _ _ _ _ _ _ _ _ t op Hcl H). by rewrite E.
    + rewrite (ln_free _ _ _ _ _ _ _ H i Ho) in Hx. exists x. split_and!; [done|by apply Hat|by left].
Qed.
End consistent.
