(* ===== verification/CacheTheorems.v ===== *)
(** The properties of the cache, with their instances on a cache of two cells. *)

From S2P Require Import Prelude Monad Slab Checksum CellIc CellHeader CellState CellBodySpec CellRing CacheMetrics.
From S2P Require Import Cell CellSpec CellHistory CellTheorems Cache CacheSpec CacheHistory.

(** * A small cache *)

(** Three slots of zero bytes, for chunks of 214 to 32732 bytes. *)
Definition zero_slot : cell := zero_cell (CACHE_CELL_SIZE - sizeof_cell_header).
Definition zero_region : cache := Cache (CacheHeader 0 0) false [zero_slot; zero_slot].

Lemma zero_slot_ok : slot_ok 214 32732 zero_slot.
Proof. split; [|by split]. split; [apply zero_cell_typed|done|]. split; vm_compute; intuition congruence. Qed.

Lemma zero_region_ok : region_ok 214 32732 (3 * CACHE_CELL_SIZE) zero_region.
Proof. split; [done|done|done|]. apply (Forall_replicate _ 2), zero_slot_ok. Qed.

Lemma zero_region_new : Forall (λ x, cell_header_sane (cell_hdr x) = false) (cells zero_region).
Proof. by repeat constructor. Qed.

Definition demo_cache : cache := (cache_init (3 * CACHE_CELL_SIZE) zero_region).2.

Definition demo_adds : list (checksum * list byte) :=
  [demo_chunk 300 1 1; demo_chunk 400 2 2; demo_chunk 300 1 1].

Lemma demo_adds_ok : Forall (call_ok 214 32732) demo_adds.
Proof. repeat constructor; vm_compute; congruence. Qed.

Lemma demo_cache_cell : cell_inv 214 32732 (cell_init CACHE_CELL_SIZE zero_slot).2 [] []
  ∧ slab_size (cell_init CACHE_CELL_SIZE zero_slot).2 = CACHE_CELL_SIZE.
Proof.
  destruct (cell_init_fresh 214 32732 zero_slot ltac:(apply zero_slot_ok) eq_refl) as (c' & Hrun & ? & ?).
  change (slab_size zero_slot) with CACHE_CELL_SIZE in Hrun. by rewrite Hrun.
Qed.

Lemma demo_cache_inv : cache_inv 214 32732 demo_cache [([], []); ([], [])].
Proof.
  destruct demo_cache_cell as [H1 H2].
  assert (demo_cache = Cache (CacheHeader CACHE_HEADER_MAGIC 2) true
    [(cell_init CACHE_CELL_SIZE zero_slot).2; (cell_init CACHE_CELL_SIZE zero_slot).2]) as -> by done.
  split; [done..| |]; cbn [cells].
  - constructor; [exact H1|]. constructor; [exact H1|constructor].
  - by repeat constructor.
Qed.

(** * Lookups and additions *)

(** C29: [cache_has_chunk] and [cache_get_chunk] answer from the cell that the first eight
    bytes of the checksum choose, always one of the cells of the cache; what they return
    is what the cache holds under the checksum, and they change nothing. *)
Theorem cache_lookup_correct smin smax c ls s ch :
  cache_inv smin smax c ls → checksum_wf s →
  (cell_index c s < length (cells c))%nat ∧
  cache_get_cell_index s c = (Ok (cell_index c s), c) ∧
  cache_has_chunk s c = (Ok (bool_decide (is_Some (cache_lookup c ls s))), c) ∧
  match cache_lookup c ls s with
  | Some d => ∃ ch', cache_get_chunk s ch c = (Ok (Some ch'), c)
               ∧ chunk_checksum ch' = s ∧ chunk_data ch' = d
               ∧ chunk_buffer_size ch' = Z.of_nat (length d)
  | None => cache_get_chunk s ch c = (Ok None, c)
  end.
Proof.
  intros H Hs. split_and!.
  - by eapply cell_index_lt.
  - by eapply cache_get_cell_index_ok.
  - by eapply cache_has_chunk_spec.
  - by eapply cache_get_chunk_spec.
Qed.

Lemma cache_lookup_correct_witness :
  let c := demo_cache in let s := demo_sum 2 2 in let ls := [([], []); ([], [])] in
  (cell_index c s < length (cells c))%nat ∧
  cache_get_cell_index s c = (Ok (cell_index c s), c) ∧
  cache_has_chunk s c = (Ok (bool_decide (is_Some (cache_lookup c ls s))), c) ∧
  match cache_lookup c ls s with
  | Some d => ∃ ch', cache_get_chunk s chunk_init c = (Ok (Some ch'), c)
               ∧ chunk_checksum ch' = s ∧ chunk_data ch' = d
               ∧ chunk_buffer_size ch' = Z.of_nat (length d)
  | None => cache_get_chunk s chunk_init c = (Ok None, c)
  end.
Proof. apply (cache_lookup_correct 214 32732); [exact demo_cache_inv|reflexivity]. Defined.

(** C22: [cache_add_chunk] with a chunk within the contract.  It tells [false] exactly for a
    checksum the cache has, and then nothing changes.  For a new one the ring of its cell is
    stuck and a failed assertion stops the process, which leaves the other cells alone and
    this one marked as half done; or it tells [true] and the ring of the cell makes a step
    with the chunk, the header and every other cell being byte for byte as they were.  The
    chunk is then found with its bytes, unless all that was left of the previous lap of the
    cell went and the chunk with it; in the first lap of the cell, with room for it, it is
    appended and nothing goes.  Every other checksum has the bytes it had or, in the cell of
    the chunk, none. *)
Theorem cache_add_chunk_correct smin smax c ls s buffer n :
  cache_inv smin smax c ls → arg_ok smin smax s buffer n →
  let i := cell_index c s in
  let b := chunk_of s buffer n in
  ∃ x pre suf, cells c !! i = Some x ∧ ls !! i = Some (pre, suf) ∧
  (is_Some (cache_lookup c ls s) ∧ cache_add_chunk s buffer n c = (Ok false, c) ∨
   cache_lookup c ls s = None ∧
   ((stuck x b suf ∨ suf = [] ∧ room x < 36 ∧ stuck x b pre) ∧
    (∃ c', cache_add_chunk s buffer n c = (Err AssertFail, c') ∧ half_done smin smax i c c') ∨
    ∃ c' pre' suf', let ls' := <[i := (pre', suf')]> ls in
      cache_add_chunk s buffer n c = (Ok true, c') ∧ cache_inv smin smax c' ls' ∧ same_but i c c'
      ∧ ring_step b pre suf pre' suf'
      ∧ (suf = [] → n + 72 ≤ room x → pre' = pre ++ [b] ∧ suf' = [])
      ∧ (cache_lookup c' ls' s = Some (take (Z.to_nat n) buffer) ∨
         by_age pre' suf' = if suf is [] then [] else live pre)
      ∧ (∀ s', cell_index c s' ≠ i → cache_lookup c' ls' s' = cache_lookup c ls s')
      ∧ (∀ s' d, cache_lookup c' ls' s' = Some d →
           cache_lookup c ls s' = Some d ∨ s' = s ∧ d = take (Z.to_nat n) buffer))).
Proof.
  intros H Harg i b. destruct (cache_add_chunk_steps smin smax c ls s buffer n H Harg)
    as (x & pre & suf & Hx & Hl & Hinv & Hcase).
  exists x, pre, suf. split; [done|]. split; [done|].
  destruct Hcase as [?|[Hn [?|(c' & pre' & suf' & Hr & Hstep & Hinv' & Hsame & Hfirst)]]]; [by left|by right; split; [|left]|].
  destruct (cache_add_chunk_lookups smin smax c ls c' s buffer n x pre suf pre' suf')
    as (? & ? & ?); [done..|apply Hsame|]. right. split; [done|]. right. exists c', pre', suf'. by split_and!.
Qed.

Lemma demo_cache_arg : arg_ok 214 32732 (demo_sum 7 7) (replicate 300 Byte.x42) 250.
Proof. split; vm_compute; repeat split; congruence. Qed.

Lemma cache_add_chunk_correct_witness :
  let c := demo_cache in let s := demo_sum 7 7 in let buffer := replicate 300 Byte.x42 in
  let ls := [([], []); ([], [])] in let i := cell_index c s in let b := chunk_of s buffer 250 in
  ∃ x pre suf, cells c !! i = Some x ∧ ls !! i = Some (pre, suf) ∧
  (is_Some (cache_lookup c ls s) ∧ cache_add_chunk s buffer 250 c = (Ok false, c) ∨
   cache_lookup c ls s = None ∧
   ((stuck x b suf ∨ suf = [] ∧ room x < 36 ∧ stuck x b pre) ∧
    (∃ c', cache_add_chunk s buffer 250 c = (Err AssertFail, c') ∧ half_done 214 32732 i c c') ∨
    ∃ c' pre' suf', let ls' := <[i := (pre', suf')]> ls in
      cache_add_chunk s buffer 250 c = (Ok true, c') ∧ cache_inv 214 32732 c' ls' ∧ same_but i c c'
      ∧ ring_step b pre suf pre' suf'
      ∧ (suf = [] → 250 + 72 ≤ room x → pre' = pre ++ [b] ∧ suf' = [])
      ∧ (cache_lookup c' ls' s = Some (take (Z.to_nat 250) buffer) ∨
         by_age pre' suf' = if suf is [] then [] else live pre)
      ∧ (∀ s', cell_index c s' ≠ i → cache_lookup c' ls' s' = cache_lookup c ls s')
      ∧ (∀ s' d, cache_lookup c' ls' s' = Some d →
           cache_lookup c ls s' = Some d ∨ s' = s ∧ d = take (Z.to_nat 250) buffer))).
Proof. exact (cache_add_chunk_correct 214 32732 _ _ _ _ 250 demo_cache_inv demo_cache_arg). Defined.

(** C31: the metrics of a cache are the sums of the counts of its cells, modulo 2^64, and
    reading them changes nothing. *)
Theorem cache_metrics_correct smin smax c ls :
  cache_inv smin smax c ls →
  cache_get_metrics c =
    (Ok (CacheMetrics (u64 (total ring_bytes ls)) (u64 (total ring_entries ls))), c).
Proof. apply cache_get_metrics_spec. Qed.

Lemma cache_metrics_correct_witness :
  let ls := [([], []); ([], [])] in
  cache_get_metrics demo_cache =
    (Ok (CacheMetrics (u64 (total ring_bytes ls)) (u64 (total ring_entries ls))), demo_cache).
Proof. apply (cache_metrics_correct 214 32732). exact demo_cache_inv. Defined.

(** C32: [cache_release] only gives back the memory of the process: the header and the cells
    in the file stay as they are, a second release does nothing, and [cache_init] of the
    same memory gives the cache again as it was. *)
Theorem cache_release_keeps smin smax size c ls :
  cache_inv smin smax c ls → 2 ≤ size / CACHE_CELL_SIZE < 18446744073709551616 →
  Z.of_nat (length (cells c)) = size / CACHE_CELL_SIZE - 1 →
  ∃ c', cache_release c = (Ok tt, c') ∧ cache_hdr c' = cache_hdr c ∧ cells c' = cells c ∧
    cache_release c' = (Ok tt, c') ∧ cache_init size c' = (Ok 0, c).
Proof.
  intros Hinv Hsl Hn. destruct (cache_release_spec smin smax c ls Hinv) as [H1 H2].
  exists (set_cells false c). split_and!; [done..|]. by eapply cache_init_keeps.
Qed.

Lemma cache_release_keeps_witness :
  ∃ c', cache_release demo_cache = (Ok tt, c') ∧ cache_hdr c' = cache_hdr demo_cache
    ∧ cells c' = cells demo_cache ∧ cache_release c' = (Ok tt, c')
    ∧ cache_init (3 * CACHE_CELL_SIZE) c' = (Ok 0, demo_cache).
Proof.
  apply (cache_release_keeps 214 32732 _ _ [([], []); ([], [])]); [exact demo_cache_inv|by split|reflexivity].
Defined.

(** * Histories *)

(** The cache gives back only what was put in.  After [cache_init] of a new region and
    any sequence of additions, a chunk that [cache_get_chunk] returns carries the checksum
    asked for and bytes that some addition stored under it; the sequence returns or ends
    in an assertion. *)
Theorem cache_returns_only_added smin smax size c0 hist s ch :
  region_ok smin smax size c0 → Forall (λ x, cell_header_sane (cell_hdr x) = false) (cells c0) →
  Forall (call_ok smin smax) hist → checksum_wf s →
  let r := cache_history size hist c0 in
  match r.1 with
  | Ok rs => length rs = length hist ∧
      match (cache_get_chunk s ch r.2).1 with
      | Ok (Some ch') => chunk_checksum ch' = s ∧ (s, chunk_data ch') ∈ hist
      | Ok None => True
      | Err _ => False
      end
  | Err e => e = AssertFail
  end.
Proof.
  intros Hreg Hnew Hh Hs. destruct (cache_init_spec smin smax size c0 Hreg) as (c1 & ls & Hrun & Hinv & Hop).
  cbv zeta. unfold cache_history. rewrite (bind_ok _ _ _ _ _ Hrun).
  destruct (cache_adds_spec smin smax hist c1 ls Hinv Hh)
    as [(c' & _ & _ & _ & -> & _)|(rs & c' & ls' & -> & Hinv' & Hlen & _ & Hl)]; cbn [fst snd]; [done|].
  split; [done|]. pose proof (cache_get_chunk_spec smin smax c' ls' s ch Hinv' Hs) as Hg.
  destruct (cache_lookup c' ls' s) as [d|] eqn:Hd.
  - destruct Hg as (ch' & Hr & ? & Hdat & _). rewrite Hr. cbn [fst]. rewrite Hdat. split; [done|].
    apply Hl in Hd as [Hd|?]; [|done]. by rewrite (opened_fresh smin smax c0 c1 ls s Hnew Hop Hinv Hs) in Hd.
  - by rewrite Hg.
Qed.

Lemma cache_returns_only_added_witness :
  let r := cache_history (3 * CACHE_CELL_SIZE) demo_adds zero_region in
  match r.1 with
  | Ok rs => length rs = length demo_adds ∧
      match (cache_get_chunk (demo_sum 2 2) chunk_init r.2).1 with
      | Ok (Some ch') => chunk_checksum ch' = demo_sum 2 2 ∧ (demo_sum 2 2, chunk_data ch') ∈ demo_adds
      | Ok None => True
      | Err _ => False
      end
  | Err e => e = AssertFail
  end.
Proof.
  apply (cache_returns_only_added 214 32732);
    [exact zero_region_ok|exact zero_region_new|exact demo_adds_ok|reflexivity].
Defined.

(** C3: what a process leaves in the file, the next one opens.  After any sequence of
    additions [cache_init] of the same memory gives the cache as it was left; if an
    assertion stopped the process, it gives a consistent cache in which only the cell that
    was being changed differs, and that cell is empty. *)
Theorem cache_survives smin smax size c0 hist :
  region_ok smin smax size c0 → Forall (call_ok smin smax) hist →
  let r := cache_history size hist c0 in
  ∃ c' ls', cache_init size (set_cells false r.2) = (Ok 0, c') ∧ cache_inv smin smax c' ls' ∧
    match r.1 with
    | Ok _ => c' = r.2
    | Err e => e = AssertFail ∧ ∃ i x, same_but i r.2 c' ∧ cells c' !! i = Some x ∧ cell_inv smin smax x [] []
    end.
Proof.
  intros Hreg Hh. destruct (cache_init_spec smin smax size c0 Hreg) as (c1 & ls & Hrun & Hinv & Hop).
  pose proof (rg_slots _ _ _ _ Hreg) as Hsl. pose proof (rg_cells _ _ _ _ Hreg) as Hn.
  rewrite (Forall2_length _ _ _ Hop) in Hn.
  cbv zeta. unfold cache_history. rewrite (bind_ok _ _ _ _ _ Hrun).
  destruct (cache_adds_spec smin smax hist c1 ls Hinv Hh)
    as [(c' & c2 & ls2 & i & -> & Hinv2 & Hhd & Hlen)|(rs & c' & ls' & -> & Hinv' & _ & Hlen & _)];
    cbn [fst snd]; rewrite <-Hlen in Hn.
  - pose proof (half_done_region smin smax size c2 ls2 i c' false Hinv2 Hhd Hsl Hn) as Hreg'.
    destruct (cache_init_spec smin smax size _ Hreg') as (c3 & ls3 & Hr3 & Hinv3 & Hop3).
    destruct (half_done_reopened smin smax i c2 ls2 c' c3 ls3) as (? & x & ? & ?); [done..|].
    exists c3, ls3. split_and!; [done..|]. by exists i, x.
  - exists c', ls'. split_and!; [by eapply cache_init_keeps|done..].
Qed.

Lemma cache_survives_witness :
  let r := cache_history (3 * CACHE_CELL_SIZE) demo_adds zero_region in
  ∃ c' ls', cache_init (3 * CACHE_CELL_SIZE) (set_cells false r.2) = (Ok 0, c')
    ∧ cache_inv 214 32732 c' ls' ∧
    match r.1 with
    | Ok _ => c' = r.2
    | Err e => e = AssertFail ∧ ∃ i x, same_but i r.2 c' ∧ cells c' !! i = Some x ∧ cell_inv 214 32732 x [] []
    end.
Proof. apply cache_survives; [exact zero_region_ok|exact demo_adds_ok]. Defined.

(** The operations on two checksums of different cells commute: the other order gives
    the same results and the same memory, so that the mutex of one's own cell is enough. *)
Theorem cells_independent op1 op2 c a c1 b c2 :
  0 < cell_count (cache_hdr c) → cell_index c (op_sum op1) ≠ cell_index c (op_sum op2) →
  cache_call op1 c = (Ok a, c1) → cache_call op2 c1 = (Ok b, c2) →
  ∃ c3, cache_call op2 c = (Ok b, c3) ∧ cache_call op1 c3 = (Ok a, c2).
Proof.
  intros Hc Hij H1 H2. rewrite (cache_call_cell op1 c c) in H1 by done.
  assert (Hd1 : cache_hdr c1 = cache_hdr c) by (eapply at_cell_hdr; exact H1).
  rewrite (cache_call_cell op2 c c1) in H2 by done.
  destruct (at_cell_commute _ _ _ _ c a c1 b c2 Hij H1 H2) as (c3 & H3 & H4).
  exists c3. rewrite (cache_call_cell op2 c c), (cache_call_cell op1 c c3); try done.
  eapply at_cell_hdr; exact H3.
Qed.

Lemma cells_independent_witness :
  let op1 := CacheAdd (demo_sum 1 1) (replicate 300 Byte.x41) 300 in
  let op2 := CacheHas (demo_sum 2 2) in
  ∃ c1 c3 c2, cache_call op1 demo_cache = (Ok (AddedNew true), c1)
    ∧ cache_call op2 demo_cache = (Ok (HasChunk false), c3) ∧ cache_call op1 c3 = (Ok (AddedNew true), c2).
Proof.
  intros op1 op2.
  assert (H1 : cache_call op1 demo_cache = (Ok (AddedNew true), (cache_call op1 demo_cache).2)) by (vm_compute; reflexivity).
  assert (H2 : cache_call op2 (cache_call op1 demo_cache).2 =
    (Ok (HasChunk false), (cache_call op2 (cache_call op1 demo_cache).2).2)) by (vm_compute; reflexivity).
  destruct (cells_independent op1 op2 demo_cache _ _ _ _ ltac:(vm_compute; reflexivity) ltac:(vm_compute; congruence) H1 H2)
    as (c3 & H3 & H4).
  eexists _, c3, _. split; [exact H1|]. split; [exact H3|exact H4].
Defined.
