(* ===== verification/CrashTheorems.v ===== *)
(** The properties of every state in between: memory safety, and processes that die. *)

From S2P Require Import Prelude Monad Trace Slab Checksum CellIc CellDir CellHeader CellState CellBody CellRing.
From S2P Require Import CacheMetrics Cell CellTyped CellSpec CellCrash CellPersist CellHistory CellTheorems.
From S2P Require Import Cache CacheSpec CacheHistory CacheCrash CachePersist CacheTyped CacheThreads CacheTheorems.

(** * Memory safety *)

(** A process that opens a cache, makes calls one after the other, and releases it. *)
Fixpoint api_calls (xs : list cache_api) : M cache unit :=
  match xs with
  | [] => mret tt
  | x :: xs => api_call x;; api_calls xs
  end.
Definition session (size : Z) (xs : list cache_api) : M cache unit :=
  api_call (CacheInit size);; api_calls xs;; api_call CacheRelease.

(** The calls it makes in between, with their contract. *)
Definition session_args (smin smax : Z) (x : cache_api) : Prop :=
  match x with
  | CacheOp op => op_args smin smax op
  | CacheGetMetrics => True
  | CacheInit _ | CacheRelease => False
  end.

(** The call [x] is an addition for which the ring of its cell has no place. *)
Definition stuck_call (smin smax : Z) (c : cache) (x : cache_api) : Prop :=
  ∃ s buffer n y, x = CacheOp (CacheAdd s buffer n) ∧ cells c !! cell_index c s = Some y ∧
    ring_stuck smin smax y (chunk_of s buffer n).

Section session.
Context (smin smax : Z).

Lemma session_args_api x : session_args smin smax x → api_args x.
Proof. destruct x as [| [] | |]; simpl; [done|by intros []|done..]. Qed.

Lemma api_call_safe x c ls :
  cache_inv smin smax c ls → session_args smin smax x →
  (∃ c' ls', api_call x c = (Ok tt, c') ∧ cache_inv smin smax c' ls') ∨
  (api_call x c).1 = Err AssertFail ∧ stuck_call smin smax c x.
Proof.
  intros H Hx. destruct x as [size|[s buffer n|s|s ch]| |]; simpl in *; try done; try (rewrite !bind_assoc).
  - destruct (cache_add_chunk_steps smin smax c ls s buffer n H Hx)
      as (y & pre & suf & Hy & _ & Hi & [[_ Hr]|[Hn [(Hst & c' & Hr & _)|(c' & pre' & suf' & Hr & _ & Hi' & _)]]]).
    + left. exists c, ls. by rewrite (bind_ok _ _ _ _ _ Hr).
    + right. rewrite (bind_err _ _ _ _ _ Hr). split; [done|]. exists s, buffer, n, y. split_and!; [done..|].
      exists pre, suf. split_and!; [done| |done].
      destruct (cell_add_chunk_spec smin smax y pre suf s buffer n Hi Hx)
        as [[Hd Hr']|[Hn' _]]; [|exact Hn'].
      exfalso. unfold cache_add_chunk in Hr. rewrite (bind_ok _ _ _ _ _ (cache_get_cell_index_ok _ _ _ _ _ H)) in Hr.
      erewrite at_cell_ok in Hr; [|apply H|exact Hy|exact Hr']. done.
    + left. eexists c', _. by rewrite (bind_ok _ _ _ _ _ Hr).
  - left. exists c, ls. by rewrite (bind_ok _ _ _ _ _ (cache_has_chunk_spec _ _ _ _ _ H Hx)).
  - left. exists c, ls. pose proof (cache_get_chunk_spec _ _ _ _ s ch H Hx) as Hg.
    destruct (cache_lookup c ls s) as [d|]; [destruct Hg as (ch' & Hg & _)|]; by rewrite (bind_ok _ _ _ _ _ Hg).
  - left. exists c, ls. by rewrite (bind_ok _ _ _ _ _ (cache_get_metrics_spec _ _ _ _ H)).
Qed.

Lemma api_calls_safe xs : ∀ c ls,
  cache_inv smin smax c ls → Forall (session_args smin smax) xs →
  (∃ c' ls', api_calls xs c = (Ok tt, c') ∧ cache_inv smin smax c' ls') ∨
  (api_calls xs c).1 = Err AssertFail ∧ ∃ xs1 x xs2 c1, xs = xs1 ++ x :: xs2 ∧
    api_calls xs1 c = (Ok tt, c1) ∧ stuck_call smin smax c1 x.
Proof.
  induction xs as [|x xs IH]; intros c ls H Hx; [left; by exists c, ls|].
  apply Forall_cons in Hx as [Hx Hxs]. cbn [api_calls].
  destruct (api_call_safe x c ls H Hx) as [(c1 & ls1 & Hr & H1)|[Hr Hst]].
  - rewrite (bind_ok _ _ _ _ _ Hr). destruct (IH c1 ls1 H1 Hxs) as [?|[Hr2 (xs1 & y & xs2 & c2 & -> & Hc2 & Hst)]];
      [by left|right]. split; [done|]. exists (x :: xs1), y, xs2, c2. split_and!; [done| |done].
    cbn [api_calls]. by rewrite (bind_ok _ _ _ _ _ Hr).
  - right. destruct (api_call x c) as [r c1] eqn:E. simpl in Hr. subst r.
    rewrite (bind_err _ _ _ _ _ E). split; [done|]. by exists [], x, xs, c.
Qed.

(** The types of the memory a cache is opened in are part of what it can be opened with. *)
Lemma region_ok_typed size c :
  region_ok smin smax size c → word64 (cell_count (cache_hdr c)) → word64 (cache_magic (cache_hdr c)) →
  cache_typed c.
Proof.
  intros H Hc Hm. split; [done..|]. eapply Forall_impl; [apply H|].
  intros x ([Hty _ _] & Hsz & _). unfold well_typed, header_offset in Hty. by rewrite Hsz in Hty.
Qed.

Lemma api_calls_stays xs : Forall api_args xs → stays cache_typed (api_calls xs) any.
Proof.
  induction 1 as [|x xs Hx _ IH]; [by apply stays_ret|].
  eapply stays_bind; [by apply api_call_stays|]. by intros.
Qed.
End session.

(** C10: memory safety of a process that opens a cache, in a new file or in one that an
    earlier process left, and makes any sequence of calls within their contract.  No access
    of any call is outside of its object, no index or offset leaves its array or its slab, no
    division is by zero and no loop goes on for ever; the process comes to its end, or an
    assertion stops it in an addition, and only where the ring of the cell has no place for
    the new chunk.  At every access on the way every field of every structure has a value of
    its C type. *)
Theorem cache_calls_safe smin smax size c xs :
  region_ok smin smax size c → word64 size →
  word64 (cell_count (cache_hdr c)) → word64 (cache_magic (cache_hdr c)) →
  Forall (session_args smin smax) xs →
  Forall cache_typed (trace (session size xs) c) ∧
  ((session size xs c).1 = Ok tt ∨
   (session size xs c).1 = Err AssertFail ∧ ∃ xs1 x xs2 c1, xs = xs1 ++ x :: xs2 ∧
     (api_call (CacheInit size);; api_calls xs1) c = (Ok tt, c1) ∧ stuck_call smin smax c1 x).
Proof.
  intros Hreg Hsize Hcount Hmagic Hxs. split.
  { assert (Hst : stays cache_typed (session size xs) any).
    { eapply stays_bind; [by apply api_call_stays|]. intros _ _.
      eapply stays_bind; [apply api_calls_stays; eapply Forall_impl; [exact Hxs|apply session_args_api]|].
      intros _ _. by apply api_call_stays. }
    apply Hst. by eapply region_ok_typed. }
  destruct (cache_init_spec smin smax size c Hreg) as (c1 & ls & Hr & Hinv & _).
  assert (Hi : api_call (CacheInit size) c = (Ok tt, c1)) by (simpl; by rewrite (bind_ok _ _ _ _ _ Hr)).
  unfold session. rewrite (bind_ok _ _ _ _ _ Hi).
  destruct (api_calls_safe smin smax xs c1 ls Hinv Hxs) as [(c2 & ls2 & Hr2 & Hinv2)|[Hr2 (xs1 & x & xs2 & c2 & -> & Hc2 & Hst)]].
  - left. rewrite (bind_ok _ _ _ _ _ Hr2). simpl. by destruct (cache_release_spec smin smax c2 ls2 Hinv2) as [-> _].
  - right. destruct (api_calls (xs1 ++ x :: xs2) c1) as [r c3] eqn:E. simpl in Hr2. subst r.
    rewrite (bind_err _ _ _ _ _ E). split; [done|]. exists xs1, x, xs2, c2. split_and!; [done| |done].
    by rewrite (bind_ok _ _ _ _ _ Hi).
Qed.

Definition demo_session : list cache_api :=
  let d := replicate 300 Byte.x42 in
  [CacheOp (CacheAdd (demo_sum 7 7) d 250); CacheOp (CacheHas (demo_sum 7 7)); CacheGetMetrics;
   CacheOp (CacheAdd (demo_sum 8 7) d 300); CacheOp (CacheGet (demo_sum 8 7) chunk_init)].

Lemma demo_session_args : Forall (session_args 214 32732) demo_session.
Proof. repeat constructor; vm_compute; congruence. Qed.

Lemma cache_calls_safe_witness :
  let size := 3 * CACHE_CELL_SIZE in
  Forall cache_typed (trace (session size demo_session) zero_region) ∧
  ((session size demo_session zero_region).1 = Ok tt ∨
   (session size demo_session zero_region).1 = Err AssertFail ∧
   ∃ xs1 x xs2 c1, demo_session = xs1 ++ x :: xs2 ∧
     (api_call (CacheInit size);; api_calls xs1) zero_region = (Ok tt, c1) ∧ stuck_call 214 32732 c1 x).
Proof.
  apply (cache_calls_safe 214 32732); [exact zero_region_ok|done|done|done|exact demo_session_args].
Defined.

(** * Crashes *)

(** A process that dies at any access of [cell_add_chunk] on a consistent cell, half way
    through a [memcpy] too, leaves memory that [cell_init] opens to the cell as it was, to
    the cell with the chunk added, or to an empty cell; never to anything else. *)
Theorem cell_crash_safe smin smax c pre suf s buffer n t :
  cell_inv smin smax c pre suf → arg_ok smin smax s buffer n →
  cell_dies (cell_add_chunk s buffer n) c t →
  ∃ c', cell_init (slab_size t) t = (Ok tt, c') ∧
    (c' = c ∨ cell_add_chunk s buffer n c = (Ok true, c') ∨ cell_inv smin smax c' [] []).
Proof.
  intros Hinv Harg Hd.
  assert (Hkeep : ∀ c pre suf, cell_inv smin smax c pre suf → cell_init (slab_size c) c = (Ok tt, c)).
  { intros. eapply cell_init_keeps; [by eapply cell_inv_slab_ok|by eapply cell_inv_sane]. }
  apply (cell_add_chunk_dies smin smax c pre suf) in Hd as [->|[(Hic & Hok & _)|Hrun]];
    [| | |done|apply Harg].
  - exists c. split; [by eapply Hkeep|by left].
  - destruct (cell_init_fresh smin smax t Hok) as (c' & Hr & Hc' & _).
    { unfold cell_header_sane. rewrite Hic. by destruct (negb _). }
    exists c'. split; [done|by right; right].
  - destruct (cell_add_chunk_spec smin smax c pre suf s buffer n Hinv Harg)
      as [[_ Hr]|[_ [(_ & c' & Hr & _)|(c' & pre' & suf' & Hr & _ & Hinv' & _)]]];
      rewrite Hr in Hrun; [done|done|]. injection Hrun as <-.
    exists c'. split; [by eapply Hkeep|by right; left].
Qed.

(** The demonstration cell where a process dies that has just set the mark. *)
Lemma demo_entered_dies :
  cell_dies (cell_add_chunk (demo_sum 7 7) (replicate 80 Byte.x42) 80) (demo_cell demo_hist)
    (entered (demo_cell demo_hist)).
Proof.
  apply cell_add_chunk_dies_entered; [exact (ci_typed _ _ _ _ _ demo_inv)|].
  vm_compute. reflexivity.
Qed.

Lemma cell_crash_safe_witness :
  let t := entered (demo_cell demo_hist) in
  ∃ c', cell_init (slab_size t) t = (Ok tt, c') ∧
    (c' = demo_cell demo_hist ∨
     cell_add_chunk (demo_sum 7 7) (replicate 80 Byte.x42) 80 (demo_cell demo_hist) = (Ok true, c') ∨
     cell_inv 1 101 c' [] []).
Proof. apply (cell_crash_safe 1 101 _ _ _ _ _ _ _ demo_inv demo_arg demo_entered_dies). Defined.

(** What opening makes of what is left of an addition. *)
Lemma cache_left_opened smin smax size c ls s buffer n t :
  cache_inv smin smax c ls → region_size size c → arg_ok smin smax s buffer n →
  t = c ∨ half_done smin smax (cell_index c s) c t ∨ cache_add_chunk s buffer n c = (Ok true, t) →
  ∃ c' ls', cache_init size (set_cells false t) = (Ok 0, c') ∧ cache_inv smin smax c' ls' ∧
    (c' = c ∨ cache_add_chunk s buffer n c = (Ok true, c') ∨
     same_but (cell_index c s) c c' ∧
     ∃ x, cells c' !! cell_index c s = Some x ∧ cell_inv smin smax x [] []).
Proof.
  intros Hinv [Hsl Hn] Harg [->|[Hh|Hrun]].
  - exists c, ls. split_and!; [by eapply cache_init_keeps|done|by left].
  - pose proof (half_done_region smin smax size c ls _ t false Hinv Hh Hsl Hn) as Hreg.
    destruct (cache_init_spec smin smax size _ Hreg) as (c3 & ls3 & Hr & Hinv3 & Hop).
    destruct (half_done_reopened smin smax _ c ls t c3 ls3 Hinv Hh Hop Hinv3) as (Hs & x & Hx & Hc).
    exists c3, ls3. split_and!; [done..|]. right; right. split; [|by exists x].
    apply same_but_trans with t; [apply Hh|done].
  - destruct (cache_add_chunk_spec smin smax c ls s buffer n Hinv Harg)
      as [(c' & Hr & _)|(b & c' & ls' & Hr & Hinv' & (_ & Hl & _) & _)]; rewrite Hr in Hrun; [done|].
    injection Hrun as -> ->. exists t, ls'. split_and!; [|done|by right; left].
    eapply cache_init_keeps; [done..|]. by rewrite Hl.
Qed.

(** A process that dies at any access of [cache_add_chunk] costs at most the cell it was
    changing: the next process opens the memory to a consistent cache that is the one before
    the call, the one after it, or the one before it with the cell of the checksum empty and
    every other cell as it was, byte for byte. *)
Theorem cache_crash_safe smin smax size c ls s buffer n t :
  cache_inv smin smax c ls → region_size size c → arg_ok smin smax s buffer n →
  cache_dies (cache_add_chunk s buffer n) c t →
  ∃ c' ls', cache_init size (set_cells false t) = (Ok 0, c') ∧ cache_inv smin smax c' ls' ∧
    (c' = c ∨ cache_add_chunk s buffer n c = (Ok true, c') ∨
     same_but (cell_index c s) c c' ∧
     ∃ x, cells c' !! cell_index c s = Some x ∧ cell_inv smin smax x [] []).
Proof.
  intros Hinv Hsize Harg Hd. eapply cache_left_opened; [done..|].
  eapply cache_add_chunk_dies; [done|apply Harg|done].
Qed.

(** A process that dies in the first addition to the demonstration cache. *)
Definition demo_dead : cache :=
  let i := cell_index demo_cache (demo_sum 7 7) in
  put_cell i (entered (cell_init CACHE_CELL_SIZE zero_slot).2) demo_cache.

Lemma demo_dead_dies :
  cache_dies (cache_add_chunk (demo_sum 7 7) (replicate 300 Byte.x42) 250) demo_cache demo_dead.
Proof.
  apply (cache_add_chunk_dies_entered 214 32732 demo_cache _ _ _ _ _ demo_cache_inv);
    vm_compute; reflexivity.
Qed.

Lemma cache_crash_safe_witness :
  ∃ c' ls', cache_init (3 * CACHE_CELL_SIZE) (set_cells false demo_dead) = (Ok 0, c')
    ∧ cache_inv 214 32732 c' ls' ∧
    (c' = demo_cache ∨
     cache_add_chunk (demo_sum 7 7) (replicate 300 Byte.x42) 250 demo_cache = (Ok true, c') ∨
     same_but (cell_index demo_cache (demo_sum 7 7)) demo_cache c' ∧
     ∃ x, cells c' !! cell_index demo_cache (demo_sum 7 7) = Some x ∧ cell_inv 214 32732 x [] []).
Proof.
  apply (cache_crash_safe 214 32732 _ _ _ _ _ _ _ demo_cache_inv); [by vm_compute|exact demo_cache_arg|].
  exact demo_dead_dies.
Defined.

(** Opening survives itself: a process that dies at any access of [cache_init], on a new
    file or on one that another process left, leaves memory that can be opened. *)
Theorem cache_init_restartable smin smax size c :
  region_ok smin smax size c →
  Forall (λ t, ∃ c' ls, cache_init size (set_cells false t) = (Ok 0, c') ∧ cache_inv smin smax c' ls)
    (trace (cache_init size) c).
Proof.
  intros Hreg. pose proof (stays_trace _ _ _ _ (cache_init_stays smin smax size) Hreg) as Htr.
  eapply Forall_impl; [exact Htr|]. intros t Ht.
  assert (Ht' : region_ok smin smax size (set_cells false t)) by (by destruct Ht).
  destruct (cache_init_spec smin smax size _ Ht') as (c' & ls & ? & ? & _). by exists c', ls.
Qed.

Lemma cache_init_restartable_witness :
  Forall (λ t, ∃ c' ls, cache_init (3 * CACHE_CELL_SIZE) (set_cells false t) = (Ok 0, c')
      ∧ cache_inv 214 32732 c' ls)
    (trace (cache_init (3 * CACHE_CELL_SIZE)) zero_region).
Proof. apply cache_init_restartable. exact zero_region_ok. Defined.
