(* ===== verification/ThreadTheorems.v ===== *)
(** The properties of several threads that use one cache. *)

From S2P Require Import Prelude Monad Trace SmallStep Threads Slab Checksum CellIc CellHeader CellState CellBody.
From S2P Require Import CellRing CacheMetrics Cell CellTyped CellSpec CellCrash CellPersist CellHistory CellTheorems.
From S2P Require Import Cache CacheSpec CacheHistory CacheCrash CachePersist CacheThreads CacheTheorems.

Abbreviation machine := (config (S:=cell) (R:=thread_result) (Op:=thread_op)).
Abbreviation cache_client := (client (R:=thread_result) (Op:=thread_op)).

(** What the threads do with the cells of [c]. *)
Definition cache_threads (c : cache) (clients : nat → cache_client) (g : machine) : Prop :=
  executes thread_code (thread_place c) (start (cells c) clients) g.

(** Where a thread is: at the call it is in, or at the next. *)
Definition left_to_do (th : thread (S:=cell) (R:=thread_result) (Op:=thread_op)) (cl : cache_client) : Prop :=
  match th with
  | Outside cl' => cl = cl'
  | Inside op _ k | Leaving op _ k => cl = Call op k
  | Stopped op _ => ∃ k, cl = Call op k
  end.

(** What a linearization of [g] is: the calls that are over, in an order of their own for
    each thread; and [xs] is what they leave of the cells. *)
Record linearized (c : cache) (clients : nat → cache_client) (g : machine)
    (log : list (entry (R:=thread_result) (Op:=thread_op))) (xs : list cell) : Prop := {
  lz_calls : calls (e_op <$> log) c = (Ok (e_result <$> log), Cache (cache_hdr c) true xs);
  lz_order t : ∃ cl, makes (clients t) (log_of t log) cl ∧ left_to_do (threads g t) cl;
  lz_memory : (∀ t, ∃ cl, threads g t = Outside cl) → mem g = xs;
}.

Lemma linear_linearized c clients g log xs :
  0 < cell_count (cache_hdr c) → cells_set c = true →
  linear thread_code (thread_place c) (cells c) clients g log xs → linearized c clients g log xs.
Proof.
  intros Hc Hs H. split; [by eapply sequential_calls; [..|apply H]|..].
  - intros t. pose proof (ln_thread _ _ _ _ _ _ _ H t) as Hth. unfold left_to_do.
    destruct (threads g t); simpl in *; [by eexists|..]; destruct Hth as (_ & k0 & x0 & x & Hm & _ & _ & Hk);
      exists (Call op k0); (split; [done|]); [by destruct Hk as [-> _]..|by exists k0].
  - intros Hout. apply list_eq. intros i. apply (ln_free _ _ _ _ _ _ _ H).
    destruct (owner g !! i) as [t|] eqn:Ho; [|done].
    pose proof (ln_owner _ _ _ _ _ _ _ H i t Ho) as Hh. destruct (Hout t) as [cl Ht]. by rewrite Ht in Hh.
Qed.

Definition is_stopped (th : thread (S:=cell) (R:=thread_result) (Op:=thread_op)) : Prop :=
  match th with Stopped _ _ => True | _ => False end.

(** The arguments of a call name a cell of the cache. *)
Lemma thread_args_in_cache smin smax c ls op :
  cache_inv smin smax c ls → thread_args smin smax c op → in_cache c op.
Proof. intros Hinv. destruct op as [op|i m]; simpl; [|done]. intros _. by eapply cell_index_lt. Qed.

(** ** Two threads on the demonstration cache *)

(** One adds a chunk and looks for it, the other adds the same chunk and one of another cell. *)
Definition demo_clients (t : nat) : cache_client :=
  let d := replicate 300 Byte.x42 in
  match t with
  | O => Call (OnSum (CacheAdd (demo_sum 7 7) d 250)) (λ _,
           Call (OnSum (CacheHas (demo_sum 7 7))) (λ _, Finished))
  | 1%nat => Call (OnSum (CacheAdd (demo_sum 7 7) d 250)) (λ _,
               Call (OnSum (CacheAdd (demo_sum 8 7) d 250)) (λ _, Finished))
  | _ => Finished
  end.

(** They take turns, [n] each. *)
Definition demo_run (n : nat) : machine :=
  play thread_code (thread_place demo_cache) (mjoin (replicate n [0; 1]%nat))
    (start (cells demo_cache) demo_clients).

Lemma demo_run_threads n : cache_threads demo_cache demo_clients (demo_run n).
Proof. apply play_executes, executes_start. Qed.

(** After ten turns of each, thread 0 has set the mark of its cell and thread 1 waits. *)
Definition fresh_cell : cell := (cell_init CACHE_CELL_SIZE zero_slot).2.

Lemma demo_run_mem : mem (demo_run 10) = [fresh_cell; entered fresh_cell].
Proof. vm_compute. reflexivity. Qed.

Definition place_of (th : thread (S:=cell) (R:=thread_result) (Op:=thread_op)) : option nat :=
  match th with Inside op _ _ => Some (thread_place demo_cache op) | _ => None end.

Lemma demo_run_inside :
  ∃ op m k, threads (demo_run 10) 0%nat = Inside op m k ∧ thread_place demo_cache op = 1%nat.
Proof.
  assert (H : place_of (threads (demo_run 10) 0%nat) = Some 1%nat) by (vm_compute; reflexivity).
  destruct (threads (demo_run 10) 0%nat) as [cl|op m k|op r k|op e]; simpl in H; try done.
  exists op, m, k. split; [done|congruence].
Qed.

Definition is_outside (th : thread (S:=cell) (R:=thread_result) (Op:=thread_op)) : bool :=
  match th with Outside _ => true | _ => false end.

Lemma demo_run_outside t : t ≠ 0%nat → ∃ cl, threads (demo_run 10) t = Outside cl.
Proof.
  intros Ht. destruct (decide (t = 1%nat)) as [->|Hne].
  { assert (H : is_outside (threads (demo_run 10) 1%nat) = true) by (vm_compute; reflexivity).
    destruct (threads (demo_run 10) 1%nat) as [cl|op m k|op r k|op e]; try done. by exists cl. }
  destruct (executes_linear _ _ _ _ _ (demo_run_threads 10)) as (log & xs & H). eexists.
  eapply linear_finished; [exact H|]. by destruct t as [|[]].
Qed.

Lemma demo_clients_in t : client_ok (in_cache demo_cache) (demo_clients t).
Proof.
  destruct t as [|[]]; simpl; repeat split; unfold in_cache; simpl;
    apply (cell_index_lt 214 32732 _ _ _ demo_cache_inv).
Qed.

Lemma demo_clients_args t : client_ok (thread_args 214 32732 demo_cache) (demo_clients t).
Proof. destruct t as [|[]]; repeat split; vm_compute; congruence. Qed.

(** C6: threads that call the functions of a cache at the same time, one access at a time in
    any order, get what some sequence of these calls gives one thread.  At every moment there
    is an order of the calls that are over, each thread's in the order it made them, in which
    the same calls of cache.c return the same results; whatever the threads do later only adds
    calls at its end; and when no thread is in a call the memory is the one they leave. *)
Theorem threads_linearizable c clients g :
  0 < cell_count (cache_hdr c) → cells_set c = true → cache_threads c clients g →
  ∃ log xs, linearized c clients g log xs ∧
    ∀ g2, executes thread_code (thread_place c) g g2 →
      ∃ more xs2, linearized c clients g2 (log ++ more) xs2.
Proof.
  intros Hc Hs Hg. destruct (executes_linear _ _ _ _ _ Hg) as (log & xs & H).
  exists log, xs. split; [by apply linear_linearized|]. intros g2 Hg2.
  destruct (linear_executes _ _ _ _ _ _ _ _ H Hg2) as (more & xs2 & H2).
  exists more, xs2. by apply linear_linearized.
Qed.

Lemma demo_cache_hyps : 0 < cell_count (cache_hdr demo_cache) ∧ cells_set demo_cache = true.
Proof. by vm_compute. Qed.

(** The run in which both threads finish. *)
Lemma threads_linearizable_witness :
  ∃ log xs, linearized demo_cache demo_clients (demo_run 300) log xs ∧
    ∀ g2, executes thread_code (thread_place demo_cache) (demo_run 300) g2 →
      ∃ more xs2, linearized demo_cache demo_clients g2 (log ++ more) xs2.
Proof. apply threads_linearizable; [apply demo_cache_hyps..|apply demo_run_threads]. Defined.

(** The mutex of a cell excludes: two threads that are in a call on the same cell are the
    same thread. *)
Theorem threads_exclusive c clients g i t1 t2 :
  cache_threads c clients g →
  holds (thread_place c) (threads g t1) i → holds (thread_place c) (threads g t2) i → t1 = t2.
Proof.
  intros Hg H1 H2. destruct (executes_linear _ _ _ _ _ Hg) as (log & xs & H).
  pose proof (linear_owner _ _ _ _ _ _ _ t1 i H H1). pose proof (linear_owner _ _ _ _ _ _ _ t2 i H H2).
  congruence.
Qed.

Lemma threads_exclusive_witness :
  holds (thread_place demo_cache) (threads (demo_run 10) 0%nat) 1%nat ∧ 0%nat = 0%nat.
Proof.
  destruct demo_run_inside as (op & m & k & Ht & Hp).
  assert (H : holds (thread_place demo_cache) (threads (demo_run 10) 0%nat) 1%nat) by (by rewrite Ht).
  split; [exact H|]. exact (threads_exclusive demo_cache demo_clients (demo_run 10) 1 0 0 (demo_run_threads 10) H H).
Defined.

(** C12: the threads of a consistent cache, with calls within their contract, neither wait
    for one another for ever nor run for ever.  Whatever order they take turns in, a finite
    number of them takes finitely many; and at every moment all threads have made their
    calls, or some thread can take a turn, or the process is dead.  It dies only in a failed
    assertion of an addition, and only where the ring of the cell, as the calls that are over
    left it, has no place for the new chunk: no call loops, none accesses memory outside of
    its slab, and no lookup ever stops. *)
Theorem threads_end smin smax c ls clients g n :
  cache_inv smin smax c ls → (∀ t, client_ok (thread_args smin smax c) (clients t)) →
  (∀ t, (n ≤ t)%nat → clients t = Finished) → cache_threads c clients g →
  Acc (λ g2 g1, ∃ t, turn thread_code (thread_place c) t g1 g2) g ∧
  ((∀ t, threads g t = Outside Finished) ∨
   (∃ t g', turn thread_code (thread_place c) t g g') ∨
   dead g = true ∧ ∃ t, is_stopped (threads g t)) ∧
  ∀ t op e, threads g t = Stopped op e →
    e = AssertFail ∧ ∃ s buffer k log xs x, op = OnSum (CacheAdd s buffer k) ∧
      linearized c clients g log xs ∧ xs !! cell_index c s = Some x ∧
      ring_stuck smin smax x (chunk_of s buffer k).
Proof.
  intros Hinv Hcl Hn Hg. destruct (executes_linear _ _ _ _ _ Hg) as (log & xs & H).
  assert (Hfin : ∀ t, (n ≤ t)%nat → threads g t = Outside Finished)
    by (intros t Ht; eapply linear_finished; [exact H|auto]).
  split; [by apply turns_acc with n|]. split.
  - destruct (all_done (threads g) n) as [Hall|[t Ht]].
    { left. intros t. destruct (decide (t < n)%nat); [auto|apply Hfin; lia]. }
    right. destruct (dead g) eqn:Hd; [right|left].
    + split; [done|]. destruct (executes_dead _ _ _ _ _ Hg Hd) as (t2 & op & e & Ht2).
      exists t2. by rewrite Ht2.
    + eapply no_deadlock; [|done..]. intros t2. eapply client_ok_weaken; [|apply Hcl].
      intros op. by eapply thread_args_in_cache.
  - intros t op e Ht. destruct (linear_stopped _ _ _ _ _ _ _ _ _ _ H Ht) as (x0 & x & Hx0 & Hrun).
    pose proof (sequential_good smin smax c log xs (linear_ok _ _ _ _ _ _ _ _ Hcl H)
      (cache_inv_good _ _ _ _ Hinv) (ln_seq _ _ _ _ _ _ _ H)) as Hgood.
    destruct (thread_code_stops smin smax c op x0 e x) as (-> & s & buffer & k & -> & Hst);
      [by eapply Forall_lookup_1| |done|].
    { apply (linear_in_call _ _ _ _ _ _ _ _ t op Hcl H). by rewrite Ht. }
    split; [done|]. exists s, buffer, k, log, xs, x0. split_and!; [done| |done..].
    apply linear_linearized; [by eapply cache_count_pos|apply Hinv|done].
Qed.

Lemma threads_end_witness :
  Acc (λ g2 g1, ∃ t, turn thread_code (thread_place demo_cache) t g1 g2) (demo_run 10) ∧
  ((∀ t, threads (demo_run 10) t = Outside Finished) ∨
   (∃ t g', turn thread_code (thread_place demo_cache) t (demo_run 10) g') ∨
   dead (demo_run 10) = true ∧ ∃ t, is_stopped (threads (demo_run 10) t)) ∧
  ∀ t op e, threads (demo_run 10) t = Stopped op e →
    e = AssertFail ∧ ∃ s buffer k log xs x, op = OnSum (CacheAdd s buffer k) ∧
      linearized demo_cache demo_clients (demo_run 10) log xs ∧ xs !! cell_index demo_cache s = Some x ∧
      ring_stuck 214 32732 x (chunk_of s buffer k).
Proof.
  apply (threads_end 214 32732 demo_cache _ demo_clients (demo_run 10) 2 demo_cache_inv);
    [exact demo_clients_args| |apply demo_run_threads].
  intros t Ht. destruct t as [|[]]; [lia|lia|reflexivity].
Defined.

(** * A process with several threads dies *)

(** What opening leaves of a cell that was [x] before the call a thread was in. *)
Definition reopened (c : cache) (g : machine) smin smax (i : nat) (x x' : cell) : Prop :=
  x' = x ∨ cell_inv smin smax x' [] [] ∨
  ∃ t op r, in_call (threads g t) op ∧ thread_place c op = i ∧ thread_code op x = (Ok r, x').

Lemma left_by_opened smin smax c g i x z x' :
  cell_good smin smax x →
  (z = x ∨ ∃ t op, in_call (threads g t) op ∧ thread_place c op = i ∧
     thread_args smin smax c op ∧ left_by smin smax op x z) →
  slot_ok smin smax z ∧ (opened_as smin smax z x' → reopened c g smin smax i x x').
Proof.
  intros Hx Hz.
  assert (Hkeep : ∀ y, cell_good smin smax y →
            slot_ok smin smax y ∧ (opened_as smin smax y x' → x' = y)).
  { intros y (Hsz & l & Hl). split; [split_and!; [by eapply cell_inv_slab_ok|done|by exists l]|].
    unfold opened_as. rewrite (cell_inv_sane _ _ _ _ _ Hl). by intros [-> _]. }
  destruct Hz as [->|(t & op & Ht & Hp & Harg & [->|[(Hic & Hok & Hsz)|[r Hr]]])].
  - destruct (Hkeep x Hx) as [? Ho]. split; [done|]. left. auto.
  - destruct (Hkeep x Hx) as [? Ho]. split; [done|]. left. auto.
  - assert (Hs : cell_header_sane (cell_hdr z) = false).
    { unfold cell_header_sane. rewrite Hic. by destruct (negb _). }
    split; [split_and!; [done|destruct Hx; congruence|by rewrite Hs]|].
    unfold opened_as. rewrite Hs. intros [? _]. by right; left.
  - pose proof (thread_code_good smin smax c op x r z Hx Harg Hr) as Hgood.
    destruct (Hkeep z Hgood) as [? Ho]. split; [done|]. intros Hz. rewrite (Ho Hz).
    right; right. by exists t, op, r.
Qed.

(** What opening makes of what is left of the calls threads were in. *)
Lemma threads_left_opened smin smax size c ls g xs zs :
  cache_inv smin smax c ls → region_size size c → length xs = length (cells c) →
  Forall (cell_good smin smax) xs → length zs = length (cells c) →
  (∀ i x z, xs !! i = Some x → zs !! i = Some z →
     z = x ∨ ∃ t op, in_call (threads g t) op ∧ thread_place c op = i ∧
       thread_args smin smax c op ∧ left_by smin smax op x z) →
  ∃ c' ls', cache_init size (Cache (cache_hdr c) false zs) = (Ok 0, c') ∧ cache_inv smin smax c' ls' ∧
    length (cells c') = length (cells c) ∧
    ∀ i x, xs !! i = Some x → ∃ x', cells c' !! i = Some x' ∧ reopened c g smin smax i x x'.
Proof.
  intros Hinv [Hsl Hn] Hlx Hgood Hlen Hzs.
  assert (Hleft : ∀ i x z x', xs !! i = Some x → zs !! i = Some z →
            slot_ok smin smax z ∧ (opened_as smin smax z x' → reopened c g smin smax i x x')).
  { intros i x z x' Hx Hz. apply left_by_opened; [by eapply Forall_lookup_1|by apply Hzs]. }
  assert (Hreg : region_ok smin smax size (Cache (cache_hdr c) false zs)).
  { split; simpl; rewrite ?Hlen; [done|done|intros _; apply Hinv|].
    apply Forall_lookup. intros i z Hz. destruct (lookup_lt_is_Some_2 xs i) as [x Hx].
    { rewrite Hlx, <-Hlen. by eapply lookup_lt_Some. }
    apply (Hleft i x z x Hx Hz). }
  destruct (cache_init_spec smin smax size _ Hreg) as (c' & ls' & Hr & Hinv' & Hop).
  exists c', ls'. split_and!; [done..| |].
  { by rewrite <-(Forall2_length _ _ _ Hop). }
  intros i x Hx.
  destruct (lookup_lt_is_Some_2 zs i) as [z Hz]; [rewrite Hlen, <-Hlx; by eapply lookup_lt_Some|].
  destruct (Forall2_lookup_l _ _ _ _ _ Hop Hz) as (x' & Hx' & Ho). exists x'.
  split; [done|]. by apply (Hleft i x z x' Hx Hz).
Qed.

(** When a process dies whose threads are at any of their accesses, each access torn, the
    next one opens a consistent cache, in which every cell is as the calls that were over
    left it, or is that with the call added that a thread was in, or is empty. *)
Theorem threads_crash_safe smin smax size c ls clients g zs :
  cache_inv smin smax c ls → region_size size c →
  (∀ t, client_ok (thread_args smin smax c) (clients t)) → cache_threads c clients g →
  length zs = length (cells c) → (∀ i z, zs !! i = Some z → cell_left c g i z) →
  ∃ log xs c' ls', linearized c clients g log xs ∧
    cache_init size (Cache (cache_hdr c) false zs) = (Ok 0, c') ∧ cache_inv smin smax c' ls' ∧
    ∀ i x, xs !! i = Some x → ∃ x', cells c' !! i = Some x' ∧ reopened c g smin smax i x x'.
Proof.
  intros Hinv Hsize Hcl Hg Hlen Hzs. destruct (executes_linear _ _ _ _ _ Hg) as (log & xs & H).
  pose proof (cache_inv_good smin smax c ls Hinv) as Hgood.
  destruct (threads_left_opened smin smax size c ls g xs zs) as (c' & ls' & Hr & Hinv' & _ & Hop); [done..| | |done| |].
  - exact (sequential_length _ _ _ _ _ (ln_seq _ _ _ _ _ _ _ H)).
  - exact (sequential_good smin smax c log xs (linear_ok _ _ _ _ _ _ _ _ Hcl H) Hgood (ln_seq _ _ _ _ _ _ _ H)).
  - intros i x z Hx Hz.
    destruct (cell_left_by smin smax c clients g log xs i z Hcl Hgood H (Hzs i z Hz)) as (x0 & Hx0 & _ & Hby).
    simplify_eq. destruct Hby as [->|(t & op & Ht & Hp & Hby)]; [by left|right; exists t, op].
    split_and!; [done..| |done]. by eapply linear_in_call.
  - exists log, xs, c', ls'. split; [|done].
    apply linear_linearized; [by eapply cache_count_pos|apply Hinv|done].
Qed.

(** A death after ten turns of each: what [cell_left] allows includes the memory as it is. *)
Lemma demo_run_left i z :
  mem (demo_run 10) !! i = Some z → cell_left demo_cache (demo_run 10) i z.
Proof.
  intros Hz. exists z. split; [done|]. destruct demo_run_inside as (op & m & k & Ht & Hp).
  destruct (decide (i = 1%nat)) as [->|Hne].
  - left. exists 0%nat, op, m, k. split_and!; [done..|]. rewrite demo_run_mem in Hz. injection Hz as <-.
    apply cell_dies_start. apply entered_typed. exact (ci_typed _ _ _ _ _ (proj1 demo_cache_cell)).
  - right. split; [done|]. intros t op2 m2 k2 Ht2 Hp2. destruct (decide (t = 0%nat)) as [->|Hn].
    + rewrite Ht in Ht2. congruence.
    + destruct (demo_run_outside t Hn) as [cl Hcl]. congruence.
Qed.

Lemma threads_crash_safe_witness :
  ∃ log xs c' ls', linearized demo_cache demo_clients (demo_run 10) log xs ∧
    cache_init (3 * CACHE_CELL_SIZE) (Cache (cache_hdr demo_cache) false (mem (demo_run 10))) = (Ok 0, c') ∧
    cache_inv 214 32732 c' ls' ∧
    ∀ i x, xs !! i = Some x →
      ∃ x', cells c' !! i = Some x' ∧ reopened demo_cache (demo_run 10) 214 32732 i x x'.
Proof.
  apply (threads_crash_safe 214 32732 (3 * CACHE_CELL_SIZE) demo_cache [([], []); ([], [])] demo_clients);
    [exact demo_cache_inv|by vm_compute|exact demo_clients_args|apply demo_run_threads| |exact demo_run_left].
  by rewrite demo_run_mem.
Defined.
