(* ===== verification/PersistTheorems.v ===== *)
(** The properties of a cache in persistent memory when the power fails: what has been
    written since the last barrier arrives in any order and in any part. *)

From S2P Require Import Prelude Monad Trace Persist SmallStep Threads Slab Checksum CellIc CellDirEntry CellDir CellHeader CellState CellBody.
From S2P Require Import CellRing CacheMetrics Cell CellTyped CellSpec CellCrash CellPersist CellReopen CellHistory CellTheorems.
From S2P Require Import Cache CacheSpec CacheHistory CacheCrash CachePersist CacheTyped CacheThreads.
From S2P Require Import CacheTheorems CrashTheorems ThreadTheorems.

(** * Additions *)

(** C4: a failure at any moment of [cache_add_chunk], also one that finds the accesses since
    the last barrier written back in any order and in any part, costs at most the cell that
    was changing: the next process opens the memory to a consistent cache that is the one
    before the call, the one after it, or the one before it with the cell of the checksum
    empty and every other cell as it was.  Once the call has returned a failure loses
    nothing: what it leaves is the cache after the call, byte for byte. *)
Theorem cache_power_safe smin smax size c ls s buffer n :
  cache_inv smin smax c ls → region_size size c → arg_ok smin smax s buffer n →
  (∀ t, cache_fails cell_mixed (cache_add_chunk s buffer n) c t →
    ∃ c' ls', cache_init size (set_cells false t) = (Ok 0, c') ∧ cache_inv smin smax c' ls' ∧
      (c' = c ∨ cache_add_chunk s buffer n c = (Ok true, c') ∨
       same_but (cell_index c s) c c' ∧
       ∃ x, cells c' !! cell_index c s = Some x ∧ cell_inv smin smax x [] [])) ∧
  (∀ b c' t, cache_add_chunk s buffer n c = (Ok b, c') →
    cache_fails_after cell_mixed (cache_add_chunk s buffer n) c t → t = c').
Proof.
  intros Hinv Hsize Harg. split; [|intros b c' t; by eapply cache_add_chunk_settled].
  intros t Hd. eapply cache_left_opened; [done..|].
  eapply (cache_add_chunk_fails cell_mixed); [done|done|apply Harg|done].
Qed.

Lemma demo_dead_fails :
  cache_fails cell_mixed (cache_add_chunk (demo_sum 7 7) (replicate 300 Byte.x42) 250) demo_cache demo_dead.
Proof.
  apply (cache_add_chunk_dies_fails 214 32732 _ _ _ _ _ _ demo_cache_inv); [done|exact demo_dead_dies].
Qed.

Lemma cache_power_safe_witness :
  let add := cache_add_chunk (demo_sum 7 7) (replicate 300 Byte.x42) 250 in
  cache_fails cell_mixed add demo_cache demo_dead ∧
  (∀ t, cache_fails cell_mixed add demo_cache t →
    ∃ c' ls', cache_init (3 * CACHE_CELL_SIZE) (set_cells false t) = (Ok 0, c')
      ∧ cache_inv 214 32732 c' ls' ∧
      (c' = demo_cache ∨ add demo_cache = (Ok true, c') ∨
       same_but (cell_index demo_cache (demo_sum 7 7)) demo_cache c' ∧
       ∃ x, cells c' !! cell_index demo_cache (demo_sum 7 7) = Some x ∧ cell_inv 214 32732 x [] [])) ∧
  (∀ b c' t, add demo_cache = (Ok b, c') → cache_fails_after cell_mixed add demo_cache t → t = c').
Proof.
  split; [exact demo_dead_fails|].
  apply (cache_power_safe 214 32732 _ _ _ _ _ _ demo_cache_inv); [by vm_compute|exact demo_cache_arg].
Defined.

(** * Opening *)

(** What a failure leaves can be opened. *)
Lemma cache_init_region {Mem : Persistency} smin smax size c t :
  region_ok smin smax size c → Forall clean (cells c) → cache_fails mix (cache_init size) c t →
  region_ok smin smax size (set_cells false t) ∧ Forall2 (part_open smin smax) (cells c) (cells t).
Proof.
  intros Hreg Hcl Hf. destruct (cache_init_fails smin smax size c t Hreg Hcl Hf) as [Hpart Hh].
  destruct Hreg as [Hsl Hn _ Hslot]. split; [|done].
  pose proof (Forall2_length _ _ _ Hpart) as Hlen. unfold header_of in Hh.
  split; simpl; [done|by rewrite <-Hlen|by rewrite <-Hlen, Hn|].
  apply Forall_lookup. intros i z Hz. destruct (Forall2_lookup_r _ _ _ _ _ Hpart Hz) as (x & Hx & Hxz).
  eapply (part_open_slot smin smax x z); [by eapply Forall_lookup_1..|done].
Qed.

(** C9: opening endures failures, by itself and with what an earlier failure left:
    whatever the system leaves that fails at any moment of [cache_init], what has been written
    since the last barrier arriving in any order and in any part, the next process opens to a
    consistent cache in which each cell that was consistent is as it was and every other one
    is empty, as if nothing had happened.  The cells have to be clean: a memory that writes
    each word back by itself ([words]) needs a magic number that tells of every cell that is
    not consistent that it is not; if the first line of a header arrives as a whole
    ([lines]) every cell is clean. *)
Theorem cache_init_power_safe {Mem : Persistency} smin smax size c t :
  region_ok smin smax size c → Forall clean (cells c) → cache_fails mix (cache_init size) c t →
  ∃ c' ls, cache_init size (set_cells false t) = (Ok 0, c') ∧ cache_inv smin smax c' ls
    ∧ Forall2 (opened_as smin smax) (cells c) (cells c').
Proof.
  intros Hreg Hcl Hf. destruct (cache_init_region smin smax size c t Hreg Hcl Hf) as [Hreg' Hpart].
  destruct (cache_init_spec smin smax size _ Hreg') as (c' & ls & Hr & Hinv & Hop).
  exists c', ls. split_and!; [done..|].
  eapply Forall2_trans; [|exact Hpart|exact Hop]. intros x z x'. apply part_open_opened.
Qed.

(** A new file, whose system fails at once. *)
Lemma zero_region_clean : Forall (clean (Mem := words)) (cells zero_region).
Proof. apply (Forall_replicate _ 2). by right. Qed.

Lemma cache_init_power_safe_witness :
  cache_fails cell_mixed (cache_init (3 * CACHE_CELL_SIZE)) zero_region zero_region ∧
  ∃ c' ls, cache_init (3 * CACHE_CELL_SIZE) (set_cells false zero_region) = (Ok 0, c')
    ∧ cache_inv 214 32732 c' ls
    ∧ Forall2 (opened_as 214 32732) (cells zero_region) (cells c').
Proof.
  assert (Hf : cache_fails cell_mixed (cache_init (3 * CACHE_CELL_SIZE)) zero_region zero_region).
  { apply fails_now, mixed_cache_now; [intros; by apply mixed_now|]. apply (Forall_replicate _ 2), (so_typed 214 32732), zero_slot_ok. }
  split; [exact Hf|].
  apply (cache_init_power_safe (Mem := words) 214 32732); [exact zero_region_ok|exact zero_region_clean|exact Hf].
Defined.

(** ** A half-done cell *)

(** An addition to the demonstration cell whose system fails when all but the bytes of the
    chunk has arrived: one of them is as it was. *)
Definition torn_byte (c : cell) : cell :=
  put_slab (wr (cell_slab c) (top_entry_offset (hdr_body (cell_hdr c)) - 1) [Byte.x00]) c.
Definition added_body : cell :=
  (cell_body_add (demo_sum 7 7) (replicate 80 Byte.x42) 80 cell_dir_entry_init
    (entered (demo_cell demo_hist))).2.
Definition torn_cell : cell := torn_byte added_body.

Lemma added_body_run :
  ∃ e, cell_body_add (demo_sum 7 7) (replicate 80 Byte.x42) 80 cell_dir_entry_init
    (entered (demo_cell demo_hist)) = (Ok e, added_body).
Proof.
  unfold added_body. destruct (cell_body_add _ _ _ _ _) as [[e|e] c] eqn:E; [by exists e|exfalso].
  apply (f_equal (λ r, match r.1 with Ok _ => true | Err _ => false end)) in E.
  vm_compute in E. discriminate.
Qed.

Lemma torn_byte_typed lim size c :
  cell_typed lim size c →
  in_slab (cell_slab c) (top_entry_offset (hdr_body (cell_hdr c)) - 1) 1 = true →
  cell_typed lim size (torn_byte c).
Proof. intros [] Hin. split; try done. by apply slab_typed_wr. Qed.

Lemma body_typed c s d n :
  well_typed c → checksum_wf s →
  cell_typed (header_offset c) (slab_size c) (cell_body_add s d n cell_dir_entry_init (entered c)).2.
Proof.
  intros Hty Hs. apply (stays_final _ _ any); [|by apply (entered_typed c)].
  apply stays_marked. intros. apply cell_body_add_stays; [|done|done].
  unfold header_offset. change sizeof_cell_header with 28704. lia.
Qed.

Lemma torn_cell_typed :
  cell_typed (header_offset (demo_cell demo_hist)) (slab_size (demo_cell demo_hist)) torn_cell.
Proof.
  apply torn_byte_typed; [|by vm_compute].
  apply body_typed; [exact (ci_typed _ _ _ _ _ demo_inv)|done].
Qed.

(** The byte that has not arrived. *)
Definition byte_at (c : cell) : option byte :=
  s_mem (cell_slab c) !! (top_entry_offset (hdr_body (cell_hdr added_body)) - 1).

Lemma torn_cell_ok : slab_ok 1 101 torn_cell.
Proof.
  assert (Hsz : slab_size torn_cell = slab_size (demo_cell demo_hist)) by (by vm_compute).
  assert (Hlim : header_offset torn_cell = header_offset (demo_cell demo_hist)) by (by vm_compute).
  eapply slab_ok_typed; [exact (cell_inv_slab_ok _ _ _ _ _ demo_inv)|exact Hsz|].
  unfold well_typed. rewrite Hsz, Hlim. exact torn_cell_typed.
Qed.

Lemma torn_byte_mixed l c :
  cell_typed (s_lim (cell_slab c)) (slab_size c) (torn_byte c) →
  (∃ a, a ∈ l ∧ cell_slab a ≠ cell_slab c) → cell_mixed (l ++ [c]) (torn_byte c).
Proof.
  intros Hty (a & Ha & Hne). assert (Hc : c ∈ l ++ [c]) by (apply elem_of_app; right; by left).
  assert (Hu : ∀ A (f : cell → A), f (torn_byte c) = f c → unmoved f (l ++ [c]) (torn_byte c)).
  { intros A f Hf v Hv. rewrite Forall_forall in Hv. rewrite Hf. by apply (Hv c). }
  split; [|by exists c..|by apply Hu|by apply Hu|by apply Hu|by apply Hu|].
  - by exists c.
  - intros v Hv. exfalso. rewrite Forall_forall in Hv. apply Hne. rewrite (Hv c Hc).
    apply Hv. apply elem_of_app. by left.
Qed.

Definition add_body : M cell cell_dir_entry :=
  cell_body_add (demo_sum 7 7) (replicate 80 Byte.x42) 80 cell_dir_entry_init.

Lemma torn_cell_mixed old :
  let c := entered (demo_cell demo_hist) in
  cell_mixed ((pending old c (events add_body c)).1 ++ [added_body]) torn_cell.
Proof.
  intros c. apply torn_byte_mixed; [|].
  { replace (s_lim (cell_slab added_body)) with (header_offset (demo_cell demo_hist)) by (by vm_compute).
    replace (slab_size added_body) with (slab_size (demo_cell demo_hist)) by (by vm_compute).
    exact torn_cell_typed. }
  assert (H : existsb (λ a, bool_decide (byte_at a = None)) (pending [] c (events add_body c)).1 = true)
    by (vm_compute; reflexivity).
  apply existsb_exists in H as (a & Ha & Hb). apply bool_decide_eq_true in Hb. exists a. split.
  - pose proof (pending_incl (events add_body c) old [] c) as Hi. rewrite app_nil_r in Hi.
    apply Hi. by apply list_elem_of_In.
  - intros Heq. unfold byte_at in Hb. rewrite Heq in Hb. revert Hb. clear. vm_compute. discriminate.
Qed.

(** C34: [cell_header_init] clears the magic number and the integrity code with one [memset]
    and no barrier between them, so opening a half-done cell is safe only as long as the two
    arrive together.  If the power fails in an addition, and again when the cell is opened
    and the code has arrived before the magic number, the next process takes the cell for a
    consistent one and [cell_get_chunk] returns bytes that were never added. *)
Theorem cell_init_unordered :
  let s := demo_sum 7 7 in let d := replicate 80 Byte.x42 in
  ∃ c pre suf t1 t2, cell_inv 1 101 c pre suf ∧ arg_ok 1 101 s d 80 ∧
    cell_fails (cell_add_chunk s d 80) c t1 ∧
    cell_fails (cell_init (slab_size t1)) t1 t2 ∧
    cell_init (slab_size t2) t2 = (Ok tt, t2) ∧
    match (cell_get_chunk s chunk_init t2).1 with
    | Ok (Some ch) => chunk_data ch ≠ d
    | _ => False
    end.
Proof.
  intros s d. exists (demo_cell demo_hist), (entry_of <$> demo_hist), [], torn_cell, (put_ic cell_ic_init torn_cell).
  split; [exact demo_inv|]. split; [exact demo_arg|]. destruct added_body_run as (e & Hrun).
  split; [|split; [|split]].
  - eapply cell_add_chunk_fails_body; [|exact Hrun|exact torn_cell_mixed]. vm_compute. reflexivity.
  - apply (cell_init_half 1 101); [exact torn_cell_ok|by vm_compute].
  - apply (cell_init_half_kept 1 101); [exact torn_cell_ok|by vm_compute].
  - vm_compute. discriminate.
Qed.

(** * Threads *)

(** What a failure leaves of cell [i], which was [x] after the calls that are over: the cell,
    or what the call that a thread is in can leave of it. *)
Definition cell_power_left (c : cache) (g : machine) (i : nat) (x z : cell) : Prop :=
  z = x ∨ ∃ t op, in_call (threads g t) op ∧ thread_place c op = i ∧ cell_fails (thread_code op) x z.

Lemma cell_power_left_by smin smax c g i x z :
  (∀ t op, in_call (threads g t) op → thread_args smin smax c op) → cell_good smin smax x →
  cell_power_left c g i x z →
  z = x ∨ ∃ t op, in_call (threads g t) op ∧ thread_place c op = i ∧
    thread_args smin smax c op ∧ left_by smin smax op x z.
Proof.
  intros Hin Hx [->|(t & op & Ht & Hp & Hf)]; [by left|right].
  exists t, op. split_and!; [done..|by eapply Hin|]. eapply thread_code_fails; [done|by eapply Hin|done].
Qed.

(** C7: when the power fails while threads are anywhere in their calls, and what each has
    written in its cell since its last barrier has arrived in any order and in any part, the
    next process opens a consistent cache, in which every cell is as the calls that were over
    left it, or is that with the call added that a thread was in, or is empty.  A call that
    is over is not lost: a failure after it leaves the cell as the call left it. *)
Theorem threads_power_safe smin smax size c ls clients g :
  cache_inv smin smax c ls → region_size size c →
  (∀ t, client_ok (thread_args smin smax c) (clients t)) → cache_threads c clients g →
  ∃ log xs, linearized c clients g log xs ∧ length xs = length (cells c) ∧
    (∀ zs, length zs = length xs →
      (∀ i x z, xs !! i = Some x → zs !! i = Some z → cell_power_left c g i x z) →
      ∃ c' ls', cache_init size (Cache (cache_hdr c) false zs) = (Ok 0, c') ∧
        cache_inv smin smax c' ls' ∧
        ∀ i x, xs !! i = Some x → ∃ x', cells c' !! i = Some x' ∧ reopened c g smin smax i x x') ∧
    (∀ op x r x' z, thread_code op x = (Ok r, x') →
      cell_mixed ((pending [] x (events (thread_code op) x)).1 ++ [x']) z → z = x').
Proof.
  intros Hinv Hsize Hcl Hg. destruct (executes_linear _ _ _ _ _ Hg) as (log & xs & H).
  pose proof (cache_inv_good smin smax c ls Hinv) as Hgood.
  pose proof (sequential_length _ _ _ _ _ (ln_seq _ _ _ _ _ _ _ H)) as Hlx.
  assert (Hgx := sequential_good smin smax c log xs (linear_ok _ _ _ _ _ _ _ _ Hcl H) Hgood (ln_seq _ _ _ _ _ _ _ H)).
  exists log, xs. split_and!; [|done|..].
  - apply linear_linearized; [by eapply cache_count_pos|apply Hinv|done].
  - intros zs Hlen Hzs. destruct (threads_left_opened smin smax size c ls g xs zs)
      as (c' & ls' & Hr & Hinv' & _ & Hop); [done..|congruence| |by exists c', ls'].
    intros i x z Hx Hz. eapply cell_power_left_by; [intros t op; by eapply linear_in_call|by eapply Forall_lookup_1|by apply Hzs].
  - intros op x r x' z Hr. apply mixed_same. apply Forall_app. split; [|by constructor].
    by eapply thread_code_settled; [apply Forall_nil_2|].
Qed.

Lemma threads_power_safe_witness :
  ∃ log xs, linearized demo_cache demo_clients (demo_run 10) log xs ∧ length xs = length (cells demo_cache) ∧
    (∀ zs, length zs = length xs →
      (∀ i x z, xs !! i = Some x → zs !! i = Some z → cell_power_left demo_cache (demo_run 10) i x z) →
      ∃ c' ls', cache_init (3 * CACHE_CELL_SIZE) (Cache (cache_hdr demo_cache) false zs) = (Ok 0, c') ∧
        cache_inv 214 32732 c' ls' ∧
        ∀ i x, xs !! i = Some x →
          ∃ x', cells c' !! i = Some x' ∧ reopened demo_cache (demo_run 10) 214 32732 i x x') ∧
    (∀ op x r x' z, thread_code op x = (Ok r, x') →
      cell_mixed ((pending [] x (events (thread_code op) x)).1 ++ [x']) z → z = x').
Proof.
  apply (threads_power_safe 214 32732 (3 * CACHE_CELL_SIZE) demo_cache [([], []); ([], [])] demo_clients);
    [exact demo_cache_inv|by vm_compute|exact demo_clients_args|apply demo_run_threads].
Defined.
