(* ===== verification/CacheKeeps.v ===== *)
(** What a cache holds, whatever happens to it: a property of chunks and their checksums that
    every addition has is one of all that the cache holds, through calls of several threads,
    deaths, power failures and openings. *)

From S2P Require Import Prelude Monad Trace Persist SmallStep Threads Checksum CellHeader CellState CellBodySpec CellRing CacheMetrics.
From S2P Require Import CellSpec Cell CellTyped CellCrash CellPersist CellReopen CellHistory.
From S2P Require Import Cache CacheSpec CacheHistory CacheCrash CachePersist CacheThreads ThreadTheorems PersistTheorems.

Section keeps.
Context (smin smax : Z) (P : checksum → list byte → Prop).
Implicit Types (c : cache) (x : cell) (l : ring_of) (op : thread_op) (i : nat).

(** A call that gives the cache nothing but chunks with [P]. *)
Definition allowed c op : Prop :=
  thread_args smin smax c op ∧
  match op with OnSum (CacheAdd s buffer n) => P s (take (Z.to_nat n) buffer) | _ => True end.

(** What a lookup in cell [i] of [n] can find has [P]. *)
Definition ring_keeps (n : Z) i l : Prop :=
  ∀ s d, Z.to_nat (checksum_part s `mod` n) = i → contents (l.1 ++ l.2) !! s = Some d → P s d.

Definition cell_keeps (n : Z) i x : Prop :=
  ∃ l : ring_of, cell_inv smin smax x l.1 l.2 ∧ ring_keeps n i l.

(** An open cache, and a region whose consistent cells are those of such a cache. *)
Definition cache_keeps c : Prop :=
  ∃ ls, cache_inv smin smax c ls ∧ ∀ s d, cache_lookup c ls s = Some d → P s d.

Record region_keeps (size : Z) (t : cache) : Prop := {
  rk_region : region_ok smin smax size t;
  rk_cells i x : cells t !! i = Some x → cell_header_sane (cell_hdr x) = true →
    cell_keeps (Z.of_nat (length (cells t))) i x;
}.

(** ** Cells *)

Lemma cell_keeps_empty n i x : cell_inv smin smax x [] [] → cell_keeps n i x.
Proof.
  intros Hx. exists ([], []). split; [done|]. intros s d _ Hd. cbn [fst snd] in Hd.
  assert (Hn : contents ([] ++ []) !! s = None) by apply lookup_empty. congruence.
Qed.

Lemma thread_code_keeps c op n x r x' :
  cell_keeps n (thread_place c op) x → allowed c op → thread_code op x = (Ok r, x') →
  cell_keeps n (thread_place c op) x'.
Proof.
  intros (l & Hl & Ha) [Harg Hop] Hr. pose proof (thread_code_reads op) as Hread.
  assert (Hsame : reads (thread_code op) → cell_keeps n (thread_place c op) x').
  { intros H. destruct (reads_run _ x H) as [Hx _]. rewrite Hr in Hx. simpl in Hx. subst x'. by exists l. }
  destruct op as [[s buffer k|s|s ch]|j m]; auto. clear Hsame Hread. simpl in *.
  apply bind_inv in Hr as (a & x2 & Hr & Hx). injection Hx as <- <-.
  apply bind_inv in Hr as (b & x1 & Hr & Hx). injection Hx as <- <-.
  destruct (cell_add_chunk_spec smin smax x l.1 l.2 s buffer k Hl Harg)
    as [[_ Hr']|[_ [(_ & x2 & Hr' & _)|(x2 & pre & suf & Hr' & Hstep & Hi & Hs)]]];
    rewrite Hr in Hr'; [|done|]; injection Hr' as -> ->; [by exists l|].
  exists (pre, suf). split; [done|]. intros s' d Hs' Hd.
  pose proof (bi_contract _ _ _ _ _ (ci_body _ _ _ _ _ Hl)) as Hct.
  destruct (arg_chunk_ok smin smax s buffer k) as (Hck & _ & Hbs); [destruct Hct; lia..|done|].
  destruct (ring_step_contents smin smax x x2 _ _ _ _ _ s' d (ci_body _ _ _ _ _ Hl)
    (ci_body _ _ _ _ _ Hi) (ck_live _ _ Hck) Hbs Hstep Hd) as [[-> ->]|?]; [done|by apply Ha].
Qed.

Lemma left_by_keeps c op n x z :
  cell_keeps n (thread_place c op) x → allowed c op → left_by smin smax op x z →
  cell_header_sane (cell_hdr z) = true → cell_keeps n (thread_place c op) z.
Proof.
  intros Hx Hop [->|[(Hic & _)|[r Hr]]] Hs; [done| |by eapply thread_code_keeps].
  unfold cell_header_sane in Hs. rewrite Hic in Hs. by destruct (negb _).
Qed.

(** ** Caches *)

Lemma cache_keeps_cells c :
  cache_keeps c → cells c ≠ [] ∧ ∀ i x, cells c !! i = Some x →
    slab_size x = CACHE_CELL_SIZE ∧ cell_keeps (Z.of_nat (length (cells c))) i x.
Proof.
  intros (ls & Hinv & HP). split; [apply Hinv|]. intros i x Hx.
  split; [exact (Forall_lookup_1 _ _ _ _ (cv_slots _ _ _ _ Hinv) Hx)|].
  destruct (Forall2_lookup_l _ _ _ _ _ (cv_cells _ _ _ _ Hinv) Hx) as (l & Hl & Hxl).
  exists l. split; [done|]. intros s d Hs Hd. apply HP.
  unfold cache_lookup, cell_index. by rewrite (cv_count _ _ _ _ Hinv), Hs, Hl.
Qed.

Lemma cache_keeps_intro c ls :
  cache_inv smin smax c ls →
  (∀ i x, cells c !! i = Some x → cell_keeps (Z.of_nat (length (cells c))) i x) → cache_keeps c.
Proof.
  intros Hinv HP. destruct (list_choice (λ i x (l : ring_of), cell_inv smin smax x l.1 l.2 ∧
    ring_keeps (Z.of_nat (length (cells c))) i l) (cells c)) as (k & Hk & HQ); [done|].
  exists k. split.
  - destruct Hinv. split; try done. apply Forall2_same_length_lookup. split; [done|].
    intros i x l Hx Hl. by apply (HQ i x l).
  - intros s d Hd. unfold cache_lookup, cell_index in Hd. rewrite (cv_count _ _ _ _ Hinv) in Hd.
    apply bind_Some in Hd as (l & Hl & Hd). cbn [fst snd] in Hd.
    destruct (lookup_lt_is_Some_2 (cells c) (Z.to_nat (checksum_part s `mod` Z.of_nat (length (cells c)))))
      as [x Hx]; [apply lookup_lt_Some in Hl; lia|].
    by apply (proj2 (HQ _ x l Hx Hl)).
Qed.

(** ** Calls *)

(** What a lookup returns has [P], and the checksum that was asked for. *)
Definition result_keeps op (r : thread_result) : Prop :=
  match op, r with
  | OnSum (CacheGet s _), SumResult (GotChunk (Some ch)) => chunk_checksum ch = s ∧ P s (chunk_data ch)
  | _, _ => True
  end.

Lemma thread_call_keeps c0 op c r c' :
  cache_keeps c → allowed c0 op → thread_call op c = (Ok r, c') → cache_keeps c' ∧ result_keeps op r.
Proof.
  intros (ls & Hinv & HP) [Harg Hop] Hr. destruct op as [[s buffer n|s|s ch]|i m]; simpl in *;
    apply bind_inv in Hr as (a & c1 & Hr & Hx); injection Hx as <- <-;
    [apply bind_inv in Hr as (b & c2 & Hr & Hx); injection Hx as <- <-..|].
  - split; [|done].
    destruct (cache_add_chunk_spec smin smax c ls s buffer n Hinv Harg)
      as [(c' & Hr' & _)|(b' & c' & ls' & Hr' & Hinv' & _ & _ & Hl)]; rewrite Hr in Hr'; [done|].
    injection Hr' as <- <-. exists ls'. split; [done|]. intros s' d [Hd|[-> ->]]%Hl; [by apply HP|done].
  - rewrite (cache_has_chunk_spec smin smax c ls s Hinv Harg) in Hr. injection Hr as _ <-.
    split; [by exists ls|done].
  - pose proof (cache_get_chunk_spec smin smax c ls s ch Hinv Harg) as Hg.
    destruct (cache_lookup c ls s) as [d|] eqn:Hd.
    + destruct Hg as (ch' & Hg & Hs & Hdat & _). rewrite Hg in Hr. injection Hr as <- <-.
      split; [by exists ls|]. split; [done|]. rewrite Hdat. by apply HP.
    + rewrite Hg in Hr. injection Hr as <- <-. split; [by exists ls|done].
  - split; [|done]. apply at_cell_set in Hr as (x & x' & Hs & Hx & Hr & ->).
    injection Hr as _ <-. exists ls. rewrite list_insert_id by done. by destruct c as [h [] l].
Qed.

Lemma calls_keep c0 ops : ∀ c rs c',
  cache_keeps c → Forall (allowed c0) ops → calls ops c = (Ok rs, c') →
  cache_keeps c' ∧ Forall2 result_keeps ops rs.
Proof.
  induction ops as [|op ops IH]; intros c rs c' Hc Hops Hr; simpl in Hr.
  { injection Hr as <- <-. by split. }
  apply Forall_cons in Hops as [Hop Hops].
  apply bind_inv in Hr as (r & c1 & Hr1 & Hr). apply bind_inv in Hr as (rs1 & c2 & Hrs & Hx).
  injection Hx as <- <-. destruct (thread_call_keeps c0 op c r c1 Hc Hop Hr1) as [Hc1 Hv].
  destruct (IH c1 rs1 c2 Hc1 Hops Hrs). by split; [|constructor].
Qed.

(** A lookup returns what has [P], or nothing. *)
Lemma cache_keeps_get c s ch :
  cache_keeps c → checksum_wf s → ∃ r, cache_get_chunk s ch c = (Ok r, c) ∧
    ∀ ch', r = Some ch' → chunk_checksum ch' = s ∧ P s (chunk_data ch').
Proof.
  intros (ls & Hinv & HP) Hs. pose proof (cache_get_chunk_spec smin smax c ls s ch Hinv Hs) as Hget.
  destruct (cache_lookup c ls s) as [d|] eqn:Hd; [|by exists None].
  destruct Hget as (ch' & Hget & Hc & Hdat & _). exists (Some ch'). split; [done|].
  intros ? [= <-]. rewrite Hdat. auto.
Qed.

(** ** Threads *)

(** The calls that are over and those that threads are in are calls the clients may make. *)
Lemma linearized_ok (Q : thread_op → Prop) c clients g log xs :
  (∀ t, client_ok Q (clients t)) → linearized c clients g log xs →
  Forall (λ e, Q (e_op e)) log ∧ ∀ t op, in_call (threads g t) op → Q op.
Proof.
  intros Hcl H. split.
  - apply Forall_forall. intros e He. destruct (lz_order _ _ _ _ _ H (e_thread e)) as (cl & Hm & _).
    destruct (makes_ok Q _ _ _ Hm (Hcl _)) as [_ Hlog]. rewrite Forall_forall in Hlog.
    apply Hlog. unfold log_of. by apply list_elem_of_filter.
  - intros t op Ht. destruct (lz_order _ _ _ _ _ H t) as (cl & Hm & Hl).
    destruct (makes_ok Q _ _ _ Hm (Hcl _)) as [Hc _].
    destruct (threads g t); simpl in *; subst; [done|by destruct Hc..|].
    destruct Hl as [k ->]. by destruct Hc.
Qed.

Lemma linearized_keeps c clients g log xs :
  cache_keeps c → (∀ t, client_ok (allowed c) (clients t)) → linearized c clients g log xs →
  cache_keeps (Cache (cache_hdr c) true xs) ∧ ∀ e, e ∈ log → result_keeps (e_op e) (e_result e).
Proof.
  intros Hc Hcl Hlin. destruct (linearized_ok _ _ _ _ _ _ Hcl Hlin) as [Hops _].
  destruct (calls_keep c _ _ _ _ Hc (proj2 (Forall_fmap _ _ _) Hops) (lz_calls _ _ _ _ _ Hlin)) as [Hc' Hv].
  split; [done|]. intros e He. apply list_elem_of_lookup in He as [i Hi].
  eapply Forall2_lookup_lr; [exact Hv|by rewrite list_lookup_fmap, Hi..].
Qed.

(** ** Failures *)

(** What is left when the power fails while threads are in their calls. *)
Lemma running_keeps size c clients g log xs zs :
  cache_keeps c → region_size size c → (∀ t, client_ok (allowed c) (clients t)) →
  linearized c clients g log xs → length zs = length xs →
  (∀ i x z, xs !! i = Some x → zs !! i = Some z → cell_power_left c g i x z) →
  region_keeps size (Cache (cache_hdr c) false zs).
Proof.
  intros Hc [Hsl Hn] Hcl Hlin Hlen Hzs. destruct (linearized_keeps _ _ _ _ _ Hc Hcl Hlin) as [Hcx _].
  destruct (linearized_ok _ _ _ _ _ _ Hcl Hlin) as [_ Hin]. destruct (cache_keeps_cells _ Hcx) as [_ Hxs].
  assert (Hlx : length xs = length (cells c) ∧ cell_count (cache_hdr c) = Z.of_nat (length (cells c))).
  { destruct Hc as (ls & Hinv & _), Hcx as (lsx & Hinvx & _).
    pose proof (cv_count _ _ _ _ Hinv). pose proof (cv_count _ _ _ _ Hinvx). simpl in *. lia. }
  destruct Hlx as [Hlx Hcnt].
  assert (Hleft : ∀ i z, zs !! i = Some z → slot_ok smin smax z ∧
    (cell_header_sane (cell_hdr z) = true → cell_keeps (Z.of_nat (length zs)) i z)).
  { intros i z Hz. destruct (lookup_lt_is_Some_2 xs i) as [x Hx]; [rewrite <-Hlen; by eapply lookup_lt_Some|].
    destruct (Hxs i x Hx) as [Hsz Hk]. cbn [cells] in Hk. rewrite <-Hlen in Hk.
    assert (Hgood : cell_good smin smax x) by (split; [done|]; destruct Hk as (l & ? & _); by exists l).
    pose proof (cell_power_left_by smin smax c g i x z ltac:(intros t op Ht; by apply (Hin t)) Hgood (Hzs i x z Hx Hz)) as Hby.
    destruct (left_by_opened smin smax c g i x z z Hgood Hby) as [Hok _]. split; [done|]. intros Hs.
    destruct Hby as [->|(t & op & Ht & <- & _ & Hby)]; [done|]. eapply left_by_keeps; eauto. }
  split; [|intros i z Hz; by apply (Hleft i z)].
  split; simpl; [done|rewrite Hlen, Hlx; done|intros _; rewrite Hlen, Hlx; done|].
  apply Forall_lookup. intros i z Hz. by apply (Hleft i z).
Qed.

(** What is left when it fails while a cache is being opened. *)
Lemma opening_keeps {Mem : Persistency} size t t' :
  region_keeps size t → Forall clean (cells t) → cache_fails mix (cache_init size) t t' →
  region_keeps size (set_cells false t').
Proof.
  intros [Hreg Hk] Hcl Hf. destruct (cache_init_region smin smax size t t' Hreg Hcl Hf) as [Hreg' Hpart].
  split; [done|]. cbn [set_cells cells]. rewrite <-(Forall2_length _ _ _ Hpart). intros i z Hz Hs.
  destruct (Forall2_lookup_r _ _ _ _ _ Hpart Hz) as (x & Hx & [->|(_ & _ & [[_ Hu]|Hinv])]).
  - by apply Hk.
  - by rewrite unset_insane in Hs.
  - by apply cell_keeps_empty.
Qed.

(** Opening such a region. *)
Lemma open_keeps size t :
  region_keeps size t →
  ∃ c, cache_init size t = (Ok 0, c) ∧ cache_keeps c ∧ region_size size c.
Proof.
  intros [Hreg Hk]. destruct (cache_init_spec smin smax size t Hreg) as (c & ls & Hr & Hinv & Hop).
  pose proof (Forall2_length _ _ _ Hop) as Hlen. exists c. split_and!; [done| |].
  - apply (cache_keeps_intro c ls Hinv). intros i x' Hx'.
    destruct (Forall2_lookup_r _ _ _ _ _ Hop Hx') as (x & Hx & Ho). unfold opened_as in Ho.
    destruct (cell_header_sane (cell_hdr x)) eqn:Hs.
    + destruct Ho as [-> _]. rewrite <-Hlen. by apply Hk.
    + apply cell_keeps_empty, Ho.
  - destruct Hreg. unfold region_size. by rewrite <-Hlen.
Qed.
End keeps.
