(* ===== verification/CacheLives.v ===== *)
(** The lives of a cache: one process after the other opens the same memory and ends while it
    opens it or while its threads use it, and the power may fail each time. *)

From S2P Require Import Prelude Monad Trace Persist SmallStep Threads Checksum CellHeader CellState CellRing CellSpec Cell CellTyped CellPersist CellReopen.
From S2P Require Import Cache CacheSpec CachePersist CacheThreads CacheTheorems ThreadTheorems PersistTheorems CacheKeeps.

Section lives.
Context {Mem : Persistency} (smin smax : Z) (P : checksum → list byte → Prop) (size : Z).
Implicit Types (t : cache).

(** What one process makes of the memory: it fails in [cache_init], if every cell is clean
    (always with [lines]; with [words] no cell is left marked by a failure); or it opens the cache,
    its threads make calls that add nothing but chunks with [P], and it ends at any moment of
    theirs, what each has written in its cell since its last barrier having arrived in any
    order and in any part. *)
Inductive life t : cache → Prop :=
  | life_opening t' :
      Forall clean (cells t) → cache_fails mix (cache_init size) (set_cells false t) t' →
      life t (set_cells false t')
  | life_running c clients g log xs zs :
      cache_init size (set_cells false t) = (Ok 0, c) →
      (∀ th, client_ok (allowed smin smax P c) (clients th)) →
      cache_threads c clients g → linearized c clients g log xs →
      length zs = length xs →
      (∀ i x z, xs !! i = Some x → zs !! i = Some z → cell_power_left c g i x z) →
      life t (Cache (cache_hdr c) false zs).

Lemma region_keeps_unset t : region_keeps smin smax P size t → region_keeps smin smax P size (set_cells false t).
Proof. intros [[] Hk]. by split. Qed.

Lemma life_keeps t t' : region_keeps smin smax P size t → life t t' → region_keeps smin smax P size t'.
Proof.
  intros Ht%region_keeps_unset [t2 Hc Hf|c clients g log xs zs Hr Hcl Hg Hlin Hlen Hzs].
  - eapply opening_keeps; [exact Ht|exact Hc|exact Hf].
  - destruct (open_keeps _ _ _ _ _ Ht) as (c' & Hr' & Hc & Hsize). rewrite Hr' in Hr. injection Hr as ->.
    by eapply running_keeps.
Qed.

Lemma lives_keep t t' : rtc life t t' → region_keeps smin smax P size t → region_keeps smin smax P size t'.
Proof. induction 1 as [|t t1 t' Hl _ IH]; [done|]. intros Ht. by eapply IH, life_keeps. Qed.
End lives.

(** C5: a cache returns nothing but what it was given, through any number of lives: processes
    open the memory one after the other and use it with several threads, each ends at any
    moment, and whatever it had not waited for has arrived in any order and in any part.  It
    may also end while it opens the cache, provided that every cell was clean when it began:
    consistent, or with a header that tells for good that it is not.  Every cell is clean
    where the first line of its header arrives as a whole; where each word arrives by
    itself a cell marked by a failure is not, and [cell_init_unordered] shows that the
    condition is needed.  Then the next process opens the cache, and whatever its threads do, every
    chunk that a lookup of theirs returns has the checksum that was asked for and every
    property [P] that all the chunks have that were added under their checksums. *)
Theorem cache_outlives {Mem : Persistency} smin smax P size t0 t :
  region_keeps smin smax P size t0 → rtc (life smin smax P size) t0 t →
  ∃ c, cache_init size (set_cells false t) = (Ok 0, c) ∧
    ∀ clients g, (∀ th, client_ok (allowed smin smax P c) (clients th)) → cache_threads c clients g →
      ∃ log xs, linearized c clients g log xs ∧
        ∀ e, e ∈ log → result_keeps P (e_op e) (e_result e).
Proof.
  intros H0 Hl. pose proof (region_keeps_unset _ _ _ _ _ (lives_keep _ _ _ _ _ _ Hl H0)) as Ht.
  destruct (open_keeps _ _ _ _ _ Ht) as (c & Hr & Hc & _). exists c. split; [done|].
  intros clients g Hcl Hg. destruct (executes_linear _ _ _ _ _ Hg) as (log & xs & H).
  assert (Hlin : linearized c clients g log xs).
  { destruct Hc as (ls & Hinv & _). apply linear_linearized; [by eapply cache_count_pos|apply Hinv|done]. }
  exists log, xs. split; [done|]. by apply (linearized_keeps _ _ _ _ _ _ _ _ Hc Hcl Hlin).
Qed.

(** ** Two lives of a new file *)

(** All that the demonstration threads add. *)
Definition demo_added (_ : checksum) (d : list byte) : Prop := d = replicate 250 Byte.x42.

Lemma demo_clients_allowed t : client_ok (allowed 214 32732 demo_added demo_cache) (demo_clients t).
Proof. destruct t as [|[]]; repeat split; vm_compute; congruence. Qed.

Lemma zero_region_keeps P : region_keeps 214 32732 P (3 * CACHE_CELL_SIZE) zero_region.
Proof.
  split; [exact zero_region_ok|]. intros i x Hx Hs.
  pose proof (Forall_lookup_1 _ _ _ _ zero_region_new Hx) as Hn. cbv beta in Hn. congruence.
Qed.

(** The first process fails when it begins to open the file, the second when each of its
    threads has taken ten turns. *)
Lemma demo_lives : ∃ t, rtc (life (Mem := lines) 214 32732 demo_added (3 * CACHE_CELL_SIZE)) zero_region t.
Proof.
  destruct (executes_linear _ _ _ _ _ (demo_run_threads 10)) as (log & xs & H).
  exists (Cache (cache_hdr demo_cache) false xs). apply rtc_l with zero_region; [|apply rtc_once].
  - change zero_region with (set_cells false zero_region) at 2. apply life_opening; [apply Forall_true, lines_clean|]. apply fails_now, mixed_cache_now.
    + intros old x Hx. split; [by apply mixed_now|]. exists x. split; [apply elem_of_app; right; by left|done].
    + apply (Forall_replicate _ 2), (so_typed 214 32732), zero_slot_ok.
  - eapply (life_running (Mem := lines) _ _ _ _ _ demo_cache demo_clients (demo_run 10) log xs).
    + destruct (cache_init_spec 214 32732 _ _ zero_region_ok) as (c & ls & Hr & _).
      unfold demo_cache. change (set_cells false zero_region) with zero_region. by rewrite Hr.
    + exact demo_clients_allowed.
    + apply demo_run_threads.
    + apply linear_linearized; [apply demo_cache_hyps..|done].
    + done.
    + intros i x z Hx Hz. left. congruence.
Qed.

Lemma cache_outlives_witness :
  ∃ t, rtc (life (Mem := lines) 214 32732 demo_added (3 * CACHE_CELL_SIZE)) zero_region t ∧
  ∃ c, cache_init (3 * CACHE_CELL_SIZE) (set_cells false t) = (Ok 0, c) ∧
    ∀ clients g, (∀ th, client_ok (allowed 214 32732 demo_added c) (clients th)) → cache_threads c clients g →
      ∃ log xs, linearized c clients g log xs ∧
        ∀ e, e ∈ log → result_keeps demo_added (e_op e) (e_result e).
Proof.
  destruct demo_lives as [t Ht]. exists t. split; [exact Ht|].
  apply (cache_outlives (Mem := lines) 214 32732 demo_added _ zero_region); [apply zero_region_keeps|exact Ht].
Defined.
