(* ===== verification/Msys.v ===== *)
(** msys.c and xmalloc.c: the wrappers of the system calls and of the allocator, on a state
    [OS] of the rest of the system.  The calls they wrap are parameters: the class [Posix],
    and what they are documented to do is [PosixLaws]. *)

From stdpp Require Import strings.
From S2P Require Import Prelude Monad.

(** The flags and modes of [open], and those of [mmap] the program uses. *)
Inductive open_flags := O_RDWR | O_RDWR_CREAT.
Inductive permission := S_IRUSR | S_IWUSR.
Inductive map_flags := MAP_SHARED_VALIDATE_SYNC | MAP_SHARED_VALIDATE.

(** The system calls and the allocator.  [sys_stat] gives its result and [st_size];
    [sys_write] gets the bytes it may read from its buffer on; [sys_mmap] gives the error
    number, or the mapped bytes; [sys_malloc] gives an address, 0 if there is no memory. *)
Class Posix (OS : Type) := {
  sys_access : string → Z → M OS Z;
  sys_remove : string → M OS Z;
  sys_open : string → open_flags → list permission → M OS Z;
  sys_stat : string → M OS (Z * Z);
  sys_write : Z → list byte → Z → M OS Z;
  sys_close : Z → M OS Z;
  sys_fsync : Z → M OS Z;
  sys_mmap : Z → map_flags → Z → M OS (Z + list byte);
  sys_munmap : Z → M OS Z;
  sys_malloc : Z → M OS Z;
  sys_free : Z → M OS unit;
  EOPNOTSUPP : Z;
}.
#[global] Arguments EOPNOTSUPP OS {_}.

(** * msys.c *)
Section msys.
Context {OS : Type} `{Posix OS}.

Definition msys_access (pathname : string) (mode : Z) : M OS Z :=
  ret ← sys_access pathname mode; mret ret.

Definition msys_unlink (pathname : string) : M OS Z :=
  ret ← sys_remove pathname; mret ret.

Definition msys_open (pathname : string) (flags : open_flags) : M OS Z :=
  ret ← sys_open pathname flags [S_IRUSR; S_IWUSR]; mret ret.

Definition msys_stat (path : string) : M OS (Z * Z) :=
  ret ← sys_stat path; mret ret.

Definition msys_write (fd : Z) (buf : list byte) (count : Z) : M OS Z :=
  ret ← sys_write fd buf count; mret ret.

Definition msys_close (fd : Z) : M OS Z :=
  ret ← sys_close fd; mret ret.

Definition msys_fsync (fd : Z) : M OS Z :=
  ret ← sys_fsync fd; mret ret.

Definition msys_mmap (length : Z) (flags : map_flags) (fd : Z) : M OS (Z + list byte) :=
  ret ← sys_mmap length flags fd; mret ret.

Definition msys_munmap (length : Z) : M OS Z :=
  ret ← sys_munmap length; mret ret.

(** * xmalloc.c *)

Definition xmalloc (size : Z) : M OS Z :=
  ptr ← sys_malloc size;
  ALWAYS (negb (ptr =? 0));;
  mret ptr.

Definition xfree (ptr : Z) : M OS unit :=
  ALWAYS (negb (ptr =? 0));;
  sys_free ptr.
End msys.

(** * What the calls are documented to do *)

(** What the process holds of the system: blocks of memory, descriptors, each with its file
    and position, and mappings. *)
Record resources := Resources {
  res_heap : gset Z;
  res_fds : gmap Z (string * nat);
  res_maps : nat;
}.

Definition with_block (p : Z) (h : resources) : resources :=
  Resources ({[p]} ∪ res_heap h) (res_fds h) (res_maps h).
Definition without_block (p : Z) (h : resources) : resources :=
  Resources (res_heap h ∖ {[p]}) (res_fds h) (res_maps h).
Definition with_fd (fd : Z) (f : string) (pos : nat) (h : resources) : resources :=
  Resources (res_heap h) (<[fd := (f, pos)]> (res_fds h)) (res_maps h).
Definition without_fd (fd : Z) (h : resources) : resources :=
  Resources (res_heap h) (delete fd (res_fds h)) (res_maps h).
Definition with_map (h : resources) : resources :=
  Resources (res_heap h) (res_fds h) (S (res_maps h)).
Definition without_map (h : resources) : resources :=
  Resources (res_heap h) (res_fds h) (pred (res_maps h)).

(** Writing [w] at a position of a file. *)
Definition overwrite (pos : nat) (w d : list byte) : list byte :=
  take pos d ++ w ++ drop (pos + length w) d.

(** [file_data] are the contents of the files that exist, [held] is what the process holds.
    [stat] may fail on a file that exists; if it does not fail the file exists and [st_size]
    is its size.  [open] keeps the contents of a file, as the flag [O_TRUNC] is never given.
    A write of some bytes fails, or writes one of them at least at the position of the
    descriptor; no call but a write changes the contents of a file.  A shared mapping of a
    file from its start on shows the bytes of the file, as many as are mapped. *)
Class PosixLaws (OS : Type) `{Posix OS} := {
  file_data : OS → string → option (list byte);
  held : OS → resources;
  stat_law o f :
    ∃ r n o', sys_stat f o = (Ok (r, n), o') ∧ held o' = held o ∧ file_data o' = file_data o ∧
      (r = 0 → ∃ d, file_data o f = Some d ∧ n = Z.of_nat (length d));
  open_law o f fl md :
    ∃ fd o', sys_open f fl md o = (Ok fd, o') ∧
      (fd < 0 ∧ held o' = held o ∨
       0 ≤ fd ∧ res_fds (held o) !! fd = None ∧ held o' = with_fd fd f 0 (held o) ∧
       file_data o' f = Some (default [] (file_data o f)));
  write_law o f d fd pos buf n :
    res_fds (held o) !! fd = Some (f, pos) → file_data o f = Some d →
    0 < n ≤ Z.of_nat (length buf) →
    ∃ r o', sys_write fd buf n o = (Ok r, o') ∧
      (r = -1 ∧ held o' = held o ∨
       0 < r ≤ n ∧ held o' = with_fd fd f (pos + Z.to_nat r) (held o) ∧
       file_data o' f = Some (overwrite pos (take (Z.to_nat r) buf) d));
  fsync_law o fd :
    ∃ r o', sys_fsync fd o = (Ok r, o') ∧ held o' = held o ∧ file_data o' = file_data o;
  close_law o fd :
    ∃ r o', sys_close fd o = (Ok r, o') ∧ file_data o' = file_data o ∧
      (r = 0 → held o' = without_fd fd (held o));
  unlink_law o f :
    ∃ r o', sys_remove f o = (Ok r, o') ∧ held o' = held o ∧ (r = 0 → file_data o' f = None);
  mmap_law o n flags fd :
    ∃ r o', sys_mmap n flags fd o = (Ok r, o') ∧ file_data o' = file_data o ∧
      match r with
      | inl _ => held o' = held o
      | inr bs => held o' = with_map (held o) ∧
          ∀ f pos d, res_fds (held o) !! fd = Some (f, pos) → file_data o f = Some d →
            n ≤ Z.of_nat (length d) → bs = take (Z.to_nat n) d
      end;
  munmap_law o n :
    ∃ r o', sys_munmap n o = (Ok r, o') ∧ file_data o' = file_data o ∧
      (r = 0 → held o' = without_map (held o));
  malloc_law o n :
    ∃ p o', sys_malloc n o = (Ok p, o') ∧ file_data o' = file_data o ∧
      (p ≠ 0 → p ∉ res_heap (held o) ∧ held o' = with_block p (held o));
  free_law o p :
    p ∈ res_heap (held o) →
    ∃ o', sys_free p o = (Ok tt, o') ∧ file_data o' = file_data o ∧
      held o' = without_block p (held o);
}.

Section laws.
Implicit Types h : resources.

(** What is given back. *)
Lemma without_with_fd fd f pos h : res_fds h !! fd = None → without_fd fd (with_fd fd f pos h) = h.
Proof. intros Hn. destruct h as [b fds m]. unfold without_fd, with_fd; simpl in *. f_equal. by rewrite delete_insert_eq, delete_id. Qed.

Lemma with_fd_same fd f pos h : res_fds h !! fd = Some (f, pos) → with_fd fd f pos h = h.
Proof. intros Hs. destruct h as [b fds m]. unfold with_fd; simpl in *. f_equal. by apply insert_id. Qed.

Lemma with_fd_lookup fd f pos h : res_fds (with_fd fd f pos h) !! fd = Some (f, pos).
Proof. apply lookup_insert_eq. Qed.

Lemma with_fd_again fd f f' pos pos' h : with_fd fd f pos (with_fd fd f' pos' h) = with_fd fd f pos h.
Proof. unfold with_fd; simpl. f_equal. by rewrite insert_insert_eq. Qed.

Lemma without_with_block p h : p ∉ res_heap h → without_block p (with_block p h) = h.
Proof.
  intros Hp. destruct h as [b fds m]. unfold without_block, with_block; simpl in *. f_equal. set_solver.
Qed.

Lemma without_with_map h : without_map (with_map h) = h.
Proof. by destruct h. Qed.

(** A write at the end of the part that was written. *)
Lemma overwrite_next w v d : overwrite (length w) v (w ++ drop (length w) d) = (w ++ v) ++ drop (length (w ++ v)) d.
Proof.
  unfold overwrite. rewrite take_app_length, drop_app_ge, drop_drop, length_app, app_assoc by lia.
  do 2 f_equal. lia.
Qed.

(** A wrapper does what the call does. *)
Lemma wrapper {S A} (m : M S A) s : (r ← m; mret r) s = m s.
Proof. rewrite bind_run. by destruct (m s) as [[a|e] s']. Qed.

Context {OS : Type} `{PosixLaws OS}.

(** [xmalloc] gives a new block or stops. *)
Lemma xmalloc_spec (o : OS) n :
  (∃ p o', xmalloc n o = (Ok p, o') ∧ p ≠ 0 ∧ p ∉ res_heap (held o) ∧
     held o' = with_block p (held o) ∧ file_data o' = file_data o) ∨
  (∃ o', xmalloc n o = (Err AssertFail, o') ∧ file_data o' = file_data o).
Proof.
  unfold xmalloc. destruct (malloc_law o n) as (p & o' & Hr & Hd & Hp).
  destruct (Z.eqb_spec p 0) as [->|Hne].
  - right. exists o'. split; [|done]. by mrun by exact Hr.
  - left. exists p, o'. destruct (Hp Hne) as [? ?]. split_and!; [|done..]. mrun by exact Hr.
    by replace (p =? 0) with false by lia.
Qed.

Lemma xfree_spec (o : OS) p :
  p ≠ 0 → p ∈ res_heap (held o) →
  ∃ o', xfree p o = (Ok tt, o') ∧ held o' = without_block p (held o) ∧ file_data o' = file_data o.
Proof.
  intros Hne Hp. destruct (free_law o p Hp) as (o' & Hr & Hd & Hh). exists o'. split; [|done].
  unfold xfree. by rewrite bind_ALWAYS by lia.
Qed.
End laws.
