(* ===== verification/MappedFile.v ===== *)
(** The file of the cache as the structures its bytes hold: what the pointers of
    [cache_init] and [cell_init] into the mapped memory refer to.  The structures are laid
    out as gcc does it for x86-64: no padding but the fields of that name, integers little
    endian, bit-fields from the least significant bit on (src/test/test_packing.c). *)

From S2P Require Import Prelude Monad Slab Checksum CellIc CellDirEntry CellDirBlock CellDirOverflow.
From S2P Require Import CellDir CellBodyEntry CellHeader CellState CellBody CellLayout.
From S2P Require Import CellBodySpec CellRing CacheMetrics Cell CellTyped CellSpec Cache CacheSpec.
From coqutil Require Import Word.LittleEndianList.

(** The memory that starts with the bytes [bs]. *)
Definition memory_of (lim : Z) (bs : list byte) : slab := wr (Slab ∅ lim) 0 bs.

(** [struct cell_dir_block] at an address. *)
Definition block_of (s : slab) (a : Z) : cell_dir_block :=
  let w := rd32 s (a + 3 * sizeof_cell_dir_entry) in
  DirBlock [de_at s a; de_at s (a + sizeof_cell_dir_entry); de_at s (a + 2 * sizeof_cell_dir_entry)]
           (bf_get 0 4 w) (bf_get 4 12 w).

(** [struct cell_dir]. *)
Definition dir_of (s : slab) (a : Z) : cell_dir :=
  CellDir ((λ k, block_of s (a + Z.of_nat k * sizeof_cell_dir_block)) <$> seq 0 CELL_DIR_BLOCK_COUNT)
          (DirOverflow (bf_get 0 16 (rd32 s (a + 256 * sizeof_cell_dir_block)))).

(** [struct cell_header]. *)
Definition cell_header_of (s : slab) (a : Z) : cell_header :=
  CellHeader (rd32 s a) (s32 (rd32 s (a + 4))) (s32 (rd32 s (a + 8)))
    (CellIc (rd32 s (a + 12)) (rd32 s (a + 16)))
    (CellBody (rd32 s (a + 20)) (rd32 s (a + 24)))
    (dir_of s (a + 28)).

(** A slot of the file: a cell with its header in the last bytes. *)
Definition cell_of (bs : list byte) : cell :=
  let lim := CACHE_CELL_SIZE - sizeof_cell_header in
  Cell (cell_header_of (memory_of CACHE_CELL_SIZE bs) lim) (memory_of lim (take (Z.to_nat lim) bs))
       CACHE_CELL_SIZE.

(** Slot number [i] of the file. *)
Definition slot (i : nat) (bs : list byte) : list byte :=
  take (Z.to_nat CACHE_CELL_SIZE) (drop (i * Z.to_nat CACHE_CELL_SIZE) bs).

(** The whole file, before [cache->cells] is allocated. *)
Definition region_of (bs : list byte) : cache :=
  Cache (CacheHeader (le_combine (take 8 bs)) (le_combine (take 8 (drop 8 bs)))) false
    ((λ i, cell_of (slot (S i) bs)) <$>
       seq 0 (Z.to_nat (Z.of_nat (length bs) / CACHE_CELL_SIZE - 1))).

(** * Any bytes are a cell within its types *)
Section typed.
Lemma memory_of_typed lim bs : Z.of_nat (length bs) ≤ lim → slab_typed lim (memory_of lim bs).
Proof.
  intros Hlen. split; [done|]. intros i b. simpl. rewrite wr_mem_lookup. case_decide; [lia|done].
Qed.

Lemma block_of_typed s a : block_typed (block_of s a).
Proof.
  split; simpl; [done|repeat constructor; apply de_at_wf|apply (bf_get_bound 0 4); lia|].
  apply (bf_get_bound 4 12); lia.
Qed.

Lemma dir_of_typed s a : dir_typed (dir_of s a).
Proof.
  unfold dir_of. split; cbn [blocks overflow overflow_count];
    [by rewrite length_fmap, length_seq| |apply (bf_get_bound 0 16); lia].
  apply Forall_fmap, Forall_true. intros k. apply block_of_typed.
Qed.

Lemma cell_of_typed bs : well_typed (cell_of bs).
Proof.
  split; try apply rd32_bound; try apply s32_bound; [|done|split; apply rd32_bound|apply dir_of_typed].
  apply memory_of_typed. rewrite length_take. change (header_offset (cell_of bs)) with (CACHE_CELL_SIZE - sizeof_cell_header).
  assert (0 ≤ CACHE_CELL_SIZE - sizeof_cell_header) by done. lia.
Qed.
End typed.

(** * What a file is that [cache_init] can open *)
Section region.
Context (smin smax : Z).

(** The sizes of the chunks of a cache. *)
Definition sizes_fit : Prop := contract smin smax (CACHE_CELL_SIZE - sizeof_cell_header).

Lemma region_of_ok bs :
  sizes_fit → 2 ≤ Z.of_nat (length bs) / CACHE_CELL_SIZE < 18446744073709551616 →
  (cache_magic (cache_hdr (region_of bs)) = CACHE_HEADER_MAGIC →
   cell_count (cache_hdr (region_of bs)) = Z.of_nat (length bs) / CACHE_CELL_SIZE - 1) →
  Forall (λ x, cell_header_sane (cell_hdr x) = true → ∃ l : ring_of, cell_inv smin smax x l.1 l.2)
    (cells (region_of bs)) →
  region_ok smin smax (Z.of_nat (length bs)) (region_of bs).
Proof.
  intros Hfit Hn Hh Hall.
  assert (Hlen : Z.of_nat (length (cells (region_of bs))) = Z.of_nat (length bs) / CACHE_CELL_SIZE - 1).
  { simpl. rewrite length_fmap, length_seq. lia. }
  split; [done|done|by rewrite Hlen|].
  apply Forall_lookup. intros i x Hx. pose proof (Forall_lookup_1 _ _ _ _ Hall Hx) as Hs.
  simpl in Hx. rewrite list_lookup_fmap in Hx.
  destruct (seq 0 _ !! i) as [k|]; [|done]. injection Hx as <-.
  split; [|split; [done|exact Hs]]. split; [apply cell_of_typed|done|exact Hfit].
Qed.

Lemma rd_zeros lim n a k : rd (memory_of lim (replicate n Byte.x00)) a k = replicate k Byte.x00.
Proof.
  apply list_eq. intros i. destruct (decide (i < k)%nat) as [Hi|Hi].
  - rewrite rd_lookup, lookup_replicate_2 by done. f_equal.
    unfold rd1. simpl. rewrite wr_mem_lookup. case_decide as Hd; [|done].
    rewrite length_replicate in Hd. by rewrite lookup_replicate_2 by lia.
  - rewrite !lookup_ge_None_2; rewrite ?length_rd, ?length_replicate; [done|lia..].
Qed.

(** A file of zeros is as new. *)
Lemma region_of_zeros n :
  sizes_fit → 2 ≤ n / CACHE_CELL_SIZE < 18446744073709551616 →
  region_ok smin smax n (region_of (replicate (Z.to_nat n) Byte.x00)).
Proof.
  intros Hfit Hn.
  assert (Hlen : Z.of_nat (length (replicate (Z.to_nat n) Byte.x00)) = n).
  { rewrite length_replicate. destruct (decide (n < 0)) as [Hneg|]; [|lia].
    pose proof (Z.div_lt_upper_bound n CACHE_CELL_SIZE 0). unfold CACHE_CELL_SIZE in *. lia. }
  rewrite <-Hlen at 1. apply region_of_ok; [done|by rewrite Hlen|..].
  - intros Hm. exfalso. revert Hm. simpl. rewrite take_replicate.
    assert (8 `min` Z.to_nat n = 8)%nat as ->; [|done].
    assert (n = CACHE_CELL_SIZE * (n / CACHE_CELL_SIZE) + n `mod` CACHE_CELL_SIZE) by (by apply Z.div_mod).
    pose proof (Z.mod_pos_bound n CACHE_CELL_SIZE). unfold CACHE_CELL_SIZE in *. lia.
  - apply Forall_fmap, Forall_true. intros i Hs. exfalso. revert Hs. cbn.
    unfold cell_of, slot, cell_header_sane. cbn [cell_hdr cell_header_of magic].
    rewrite drop_replicate, take_replicate. unfold rd32. by rewrite rd_zeros.
Qed.
End region.
