(* ===== verification/CacheManager.v ===== *)
(** cache_manager.c: creates and maps the file of the cache, and passes the calls of its
    users on to the cache. *)

From stdpp Require Import strings.
From S2P Require Import Prelude Monad Slab Checksum CellHeader CacheMetrics Cell Cache Msys MappedFile.

Definition CACHE_MANAGER_MB : Z := 1048576.

(** [ptr] tells whether the file is mapped; the memory behind it is that of the cache. *)
Record cache_manager := CacheManager {
  cm_cache : cache;
  cm_ptr : bool;
  memory_size : Z; (* int64_t *)
  cm_fd : Z;       (* int *)
  cm_dax : Z;      (* int *)
}.

Definition cache_manager_init : cache_manager :=
  CacheManager (Cache (CacheHeader 0 0) false []) false 0 (-1) 0.

Definition put_cache (c : cache) (m : cache_manager) : cache_manager :=
  CacheManager c (cm_ptr m) (memory_size m) (cm_fd m) (cm_dax m).
#[export] Instance cm_cache_lens : Lens cm_cache put_cache.
Proof. split; [done..|by intros []]. Qed.
Definition put_memory_size (n : Z) (m : cache_manager) : cache_manager :=
  CacheManager (cm_cache m) (cm_ptr m) n (cm_fd m) (cm_dax m).
Definition put_fd (fd : Z) (m : cache_manager) : cache_manager :=
  CacheManager (cm_cache m) (cm_ptr m) (memory_size m) fd (cm_dax m).
Definition put_dax (d : Z) (m : cache_manager) : cache_manager :=
  CacheManager (cm_cache m) (cm_ptr m) (memory_size m) (cm_fd m) d.
Definition put_ptr (b : bool) (m : cache_manager) : cache_manager :=
  CacheManager (cm_cache m) b (memory_size m) (cm_fd m) (cm_dax m).

Definition cache_manager_filesize (requested_size : Z) : Z :=
  let mb := u64 (requested_size / CACHE_MANAGER_MB + 1) in
  u64 (mb * CACHE_MANAGER_MB).

Section manager.
Context {OS : Type} `{Posix OS}.

(** The [do ... while] loop that writes one MB: [false] when a write fails.  The variable
    [ret_t] is an [int], the result of [msys_write] a [ssize_t]. *)
Fixpoint write_loop (fuel : nat) (fd : Z) (buffer : list byte) (written : Z) : M OS bool :=
  match fuel with
  | O => throw OutOfFuel
  | S fuel =>
      n ← msys_write fd (drop (Z.to_nat written) buffer) (CACHE_MANAGER_MB - written);
      let ret_t := s32 n in
      if ret_t <? 0 then mret false
      else
        let written := u64 (written + ret_t) in
        if written <? CACHE_MANAGER_MB then write_loop fuel fd buffer written else mret true
  end.

(** Every write that succeeds makes progress of a byte at least. *)
Definition write_fuel : nat := Z.to_nat CACHE_MANAGER_MB.

(** The [for] loop over the [mb] megabytes. *)
Fixpoint write_mbs (mb : nat) (fd : Z) (buffer : list byte) : M OS bool :=
  match mb with
  | O => mret true
  | S mb =>
      ok ← write_loop write_fuel fd buffer 0;
      if (ok : bool) then write_mbs mb fd buffer else mret false
  end.

(** The buffer after [memset]. *)
Definition zeros (n : Z) : list byte := replicate (Z.to_nat n) Byte.x00.

Definition cache_manager_create_file (filename : string) (size : Z) : M OS Z :=
  let mb := size / CACHE_MANAGER_MB in
  fd ← msys_open filename O_RDWR_CREAT;
  if fd <? 0 then mret (-1)
  else
    ptr ← xmalloc CACHE_MANAGER_MB;
    ok ← write_mbs (Z.to_nat mb) fd (zeros CACHE_MANAGER_MB);
    (if (ok : bool) then ret_t ← msys_fsync fd; ALWAYS (ret_t =? 0) else mret tt);;
    ret_t ← msys_close fd;
    ALWAYS (ret_t =? 0);;
    xfree ptr;;
    mret (if (ok : bool) then 0 else -1).

(** [required_size] is an [int64_t], [st_size] an [off_t]. *)
Definition cache_manager_check_file (filename : string) (required_size : Z) : M OS Z :=
  '(ret_t, st_size) ← msys_stat filename;
  if negb (ret_t =? 0) then cache_manager_create_file filename (u64 required_size)
  else if negb (st_size =? required_size) then
    ret_t ← msys_unlink filename;
    if negb (ret_t =? 0) then mret ret_t
    else cache_manager_create_file filename (u64 required_size)
  else mret 0.

Definition on_os {A} (m : M OS A) : M (cache_manager * OS) A := zoom snd (λ o st, (st.1, o)) m.
Definition on_manager {A} (m : M cache_manager A) : M (cache_manager * OS) A :=
  zoom fst (λ x st, (x, st.2)) m.
Definition on_cache {A} (m : M cache A) : M (cache_manager * OS) A :=
  on_manager (zoom cm_cache put_cache m).

Definition cache_manager_release : M (cache_manager * OS) unit :=
  on_cache cache_release;;
  m ← on_manager get;
  (if cm_ptr m then
     ret ← on_os (msys_munmap (u64 (memory_size m)));
     ALWAYS (ret =? 0);;
     on_manager (modify (put_ptr false))
   else mret tt);;
  m ← on_manager get;
  if negb (cm_fd m =? -1) then
    ret ← on_os (msys_close (cm_fd m));
    ALWAYS (ret =? 0);;
    on_manager (modify (put_fd (-1)))
  else mret tt.

(** The end of [cache_manager_open_cache] once the file is mapped: [cache->cells] is
    cleared by [cache_init] and the rest of the cache is the mapped memory. *)
Definition start_cache (bytes : list byte) : M (cache_manager * OS) Z :=
  on_manager (modify (λ m, put_ptr true (put_cache (region_of bytes) m)));;
  m ← on_manager get;
  on_cache (cache_init (u64 (memory_size m)));;
  mret 0.

Definition cache_manager_open_cache (filename : string) (cache_size : Z) : M (cache_manager * OS) Z :=
  on_manager (modify (put_memory_size (s64 (cache_manager_filesize cache_size))));;
  m ← on_manager get;
  ret_t ← on_os (cache_manager_check_file filename (memory_size m));
  if negb (ret_t =? 0) then mret ret_t
  else
    fd ← on_os (msys_open filename O_RDWR);
    on_manager (modify (put_fd fd));;
    if fd <? 0 then mret fd
    else
      r ← on_os (msys_mmap (u64 (memory_size m)) MAP_SHARED_VALIDATE_SYNC fd);
      match r with
      | inl errno =>
          if errno =? EOPNOTSUPP OS then
            r ← on_os (msys_mmap (u64 (memory_size m)) MAP_SHARED_VALIDATE fd);
            match r with
            | inl _ => cache_manager_release;; mret (-1)
            | inr bytes => start_cache bytes
            end
          else cache_manager_release;; mret (-1)
      | inr bytes => on_manager (modify (put_dax 1));; start_cache bytes
      end.

Definition cache_manager_add_chunk (sum : checksum) (buffer : list byte) (buffer_size : Z)
    : M (cache_manager * OS) bool := on_cache (cache_add_chunk sum buffer buffer_size).
Definition cache_manager_has_chunk (sum : checksum) : M (cache_manager * OS) bool :=
  on_cache (cache_has_chunk sum).
Definition cache_manager_get_chunk (sum : checksum) (ch : chunk)
    : M (cache_manager * OS) (option chunk) := on_cache (cache_get_chunk sum ch).
Definition cache_manager_cache_metrics : M (cache_manager * OS) cache_metrics :=
  on_cache cache_get_metrics.
End manager.
