(* ===== verification/ManagerSpec.v ===== *)
(** What the cache manager promises about the file of the cache, given what the system
    calls are documented to do. *)

From stdpp Require Import strings.
From S2P Require Import Prelude Monad Slab Checksum CellHeader CellRing CellSpec CacheMetrics Cell Cache.
From S2P Require Import CacheSpec Msys MappedFile CacheManager.

Lemma cache_manager_filesize_spec r :
  0 ≤ r < 18446744073709551616 - CACHE_MANAGER_MB →
  r < cache_manager_filesize r ≤ r + CACHE_MANAGER_MB ∧
  ∃ mb, cache_manager_filesize r = mb * CACHE_MANAGER_MB ∧ 0 < mb.
Proof.
  intros Hr. unfold cache_manager_filesize, CACHE_MANAGER_MB in *.
  pose proof (Z.div_mod r 1048576 ltac:(lia)). pose proof (Z.mod_pos_bound r 1048576 ltac:(lia)).
  assert (0 ≤ r / 1048576) by (apply Z.div_pos; lia).
  rewrite (u64_id (r / 1048576 + 1)), u64_id by lia. split; [lia|]. eexists. split; [done|lia].
Qed.

(** * The file *)

#[global] Arguments zeros : simpl never.

Lemma length_zeros n : length (zeros n) = Z.to_nat n.
Proof. apply length_replicate. Qed.
Lemma zeros_app a b : 0 ≤ a → 0 ≤ b → zeros a ++ zeros b = zeros (a + b).
Proof. intros. unfold zeros. by rewrite Z2Nat.inj_add, replicate_add by lia. Qed.
Lemma zeros_part a n r : 0 ≤ a → 0 ≤ r → a + r ≤ n →
  take (Z.to_nat r) (drop (Z.to_nat a) (zeros n)) = zeros r.
Proof. intros. unfold zeros. rewrite drop_replicate, take_replicate. f_equal. lia. Qed.

Section file.
Context {OS : Type} `{PosixLaws OS}.

(** A file after [k] zeros were written from its start on. *)
Definition cleared (k : Z) (d : list byte) : list byte := zeros k ++ drop (Z.to_nat k) d.

Lemma cleared_none d : cleared 0 d = d.
Proof. done. Qed.
Lemma cleared_all k d : Z.of_nat (length d) ≤ k → cleared k d = zeros k.
Proof. intros. unfold cleared. by rewrite drop_ge, app_nil_r by lia. Qed.
Lemma length_cleared k d : 0 ≤ k → Z.of_nat (length (cleared k d)) = Z.max k (Z.of_nat (length d)).
Proof. intros. unfold cleared. rewrite length_app, length_zeros, length_drop. lia. Qed.
Lemma overwrite_cleared k r d :
  0 ≤ k → 0 ≤ r → overwrite (Z.to_nat k) (zeros r) (cleared k d) = cleared (k + r) d.
Proof.
  intros. unfold cleared. pose proof (overwrite_next (zeros k) (zeros r) d) as Hw.
  rewrite zeros_app, !length_zeros in Hw by lia. exact Hw.
Qed.

(** The loops move the position of the descriptor; if they succeed they have written zeros
    from it on. *)
Lemma write_loop_spec fuel : ∀ (o : OS) f fd d k written,
  res_fds (held o) !! fd = Some (f, Z.to_nat k) → file_data o f = Some (cleared k d) → 0 ≤ k →
  0 ≤ written < CACHE_MANAGER_MB → CACHE_MANAGER_MB - written ≤ Z.of_nat fuel →
  ∃ b pos o', write_loop fuel fd (zeros CACHE_MANAGER_MB) written o = (Ok b, o') ∧
    held o' = with_fd fd f pos (held o) ∧
    (b = true → file_data o' f = Some (cleared (k + (CACHE_MANAGER_MB - written)) d) ∧
                pos = Z.to_nat (k + (CACHE_MANAGER_MB - written))).
Proof.
  induction fuel as [|fuel IH]; intros o f fd d k written Hfd Hd Hk Hw Hfuel; [lia|].
  destruct (write_law o f _ fd _ (drop (Z.to_nat written) (zeros CACHE_MANAGER_MB))
    (CACHE_MANAGER_MB - written) Hfd Hd) as (n & o1 & Hrun & Hr).
  { rewrite length_drop, length_zeros. lia. }
  cbn [write_loop]. mrun by (unfold msys_write; rewrite wrapper; exact Hrun). cbv zeta.
  destruct Hr as [(-> & Hh)|(Hr & Hh & Hd1)].
  { change (s32 (-1) <? 0) with true. exists false, (Z.to_nat k), o1.
    by rewrite Hh, with_fd_same by exact Hfd. }
  rewrite zeros_part, overwrite_cleared in Hd1 by lia.
  rewrite s32_id by (unfold CACHE_MANAGER_MB in *; lia). replace (n <? 0) with false by lia.
  rewrite u64_id by (unfold CACHE_MANAGER_MB in *; lia).
  replace (Z.to_nat k + Z.to_nat n)%nat with (Z.to_nat (k + n)) in Hh by lia.
  destruct (Z.ltb_spec (written + n) CACHE_MANAGER_MB) as [Hlt|Hge].
  - destruct (IH o1 f fd d (k + n) (written + n)) as (b & pos & o' & Hr' & Hh' & Hb);
      [by rewrite Hh; apply with_fd_lookup|done|lia..|].
    exists b, pos, o'. split; [done|]. split; [by rewrite Hh', Hh, with_fd_again|]. intros Ht.
    destruct (Hb Ht) as [-> ->].
    by replace (k + n + (CACHE_MANAGER_MB - (written + n))) with (k + (CACHE_MANAGER_MB - written)) by lia.
  - exists true, (Z.to_nat (k + n)), o1. split; [done|]. split; [done|]. intros _.
    by replace (CACHE_MANAGER_MB - written) with n by lia.
Qed.

Lemma write_mbs_spec mb : ∀ (o : OS) f fd d k,
  res_fds (held o) !! fd = Some (f, Z.to_nat k) → file_data o f = Some (cleared k d) → 0 ≤ k →
  ∃ b pos o', write_mbs mb fd (zeros CACHE_MANAGER_MB) o = (Ok b, o') ∧
    held o' = with_fd fd f pos (held o) ∧
    (b = true → file_data o' f = Some (cleared (k + Z.of_nat mb * CACHE_MANAGER_MB) d)).
Proof.
  induction mb as [|mb IH]; intros o f fd d k Hfd Hd Hk.
  { exists true, (Z.to_nat k), o. rewrite with_fd_same by exact Hfd.
    split_and!; [done..|]. intros _. by rewrite Z.add_0_r. }
  destruct (write_loop_spec write_fuel o f fd d k 0 Hfd Hd Hk) as (b & pos & o1 & Hrun & Hh & Hb);
    [unfold CACHE_MANAGER_MB; lia|unfold write_fuel, CACHE_MANAGER_MB; lia|].
  cbn [write_mbs]. mrun by exact Hrun. destruct b; [|by exists false, pos, o1].
  destruct (Hb eq_refl) as [Hd1 ->]. rewrite Z.sub_0_r in *.
  destruct (IH o1 f fd d (k + CACHE_MANAGER_MB)) as (b & pos & o' & Hr & Hh' & Hb');
    [by rewrite Hh; apply with_fd_lookup|done|unfold CACHE_MANAGER_MB; lia|].
  exists b, pos, o'. split; [done|]. split; [by rewrite Hh', Hh, with_fd_again|]. intros Ht.
  rewrite (Hb' Ht). do 2 f_equal. lia.
Qed.

(** The end of [cache_manager_create_file]: everything is given back. *)
Lemma create_file_end (o : OS) fd f pos p h (ok : bool) :
  res_fds h !! fd = None → p ∉ res_heap h → p ≠ 0 →
  held o = with_fd fd f pos (with_block p h) →
  ∃ r o', (ret_t ← msys_close fd; ALWAYS (ret_t =? 0);; xfree p;;
           mret (if ok then 0 else -1)) o = (r, o') ∧
    (r = Err AssertFail ∨
     r = Ok (if ok then 0 else -1) ∧ held o' = h ∧ file_data o' = file_data o).
Proof.
  intros Hfd Hp Hne Hh. destruct (close_law o fd) as (r & o1 & Hc & Hd & Hh1).
  mrun by (unfold msys_close; rewrite wrapper; exact Hc).
  destruct (Z.eqb_spec r 0) as [->|]; [|eexists _, o1; split; [done|by left]].
  specialize (Hh1 eq_refl). rewrite Hh, without_with_fd in Hh1 by done.
  destruct (xfree_spec o1 p Hne) as (o2 & Hf & Hh2 & Hd2); [rewrite Hh1; simpl; set_solver|].
  rewrite bind_ALWAYS by done. mrun by exact Hf. eexists _, o2. split; [done|]. right.
  by rewrite Hh2, Hh1, without_with_block, Hd2 by done.
Qed.

(** Creating a file that is there already, in whole or in part, overwrites its start. *)
Lemma cache_manager_create_file_spec (o : OS) f mb :
  0 ≤ mb →
  ∃ r o', cache_manager_create_file f (mb * CACHE_MANAGER_MB) o = (r, o') ∧
    (r = Err AssertFail ∨ r = Ok (-1) ∧ held o' = held o ∨
     r = Ok 0 ∧ held o' = held o ∧
       file_data o' f = Some (cleared (mb * CACHE_MANAGER_MB) (default [] (file_data o f)))).
Proof.
  intros Hmb. unfold cache_manager_create_file. rewrite Z.div_mul by done.
  destruct (open_law o f O_RDWR_CREAT [S_IRUSR; S_IWUSR]) as (fd & o1 & Hopen & Hfd).
  mrun by (unfold msys_open; rewrite wrapper; exact Hopen).
  destruct Hfd as [[Hneg Hh1]|(Hpos & Hfd & Hh1 & Hd1)].
  { replace (fd <? 0) with true by lia. eexists _, o1. split; [done|]. right. by left. }
  replace (fd <? 0) with false by lia.
  destruct (xmalloc_spec o1 CACHE_MANAGER_MB) as [(p & o2 & Hx & Hp & Hpn & Hh2 & Hd2)|(o2 & Hx & _)];
    [|eexists _, o2; split; [by rewrite (bind_err _ _ _ _ _ Hx)|by left]].
  mrun by exact Hx. rewrite Hh1 in Hh2, Hpn.
  destruct (write_mbs_spec (Z.to_nat mb) o2 f fd (default [] (file_data o f)) 0) as (b & pos & o3 & Hw & Hh3 & Hb);
    [rewrite Hh2; by apply with_fd_lookup|by rewrite Hd2|done|].
  mrun by exact Hw. rewrite Hh2 in Hh3. change (with_fd fd f pos (with_block p (with_fd fd f 0 (held o))))
    with (with_fd fd f pos (with_fd fd f 0 (with_block p (held o)))) in Hh3.
  rewrite with_fd_again in Hh3.
  destruct b.
  - specialize (Hb eq_refl). rewrite Z2Nat.id, Z.add_0_l in Hb by lia.
    destruct (fsync_law o3 fd) as (r & o4 & Hs & Hh4 & Hd4). rewrite bind_assoc.
    mrun by (unfold msys_fsync; rewrite wrapper; exact Hs).
    destruct (r =? 0); [|eexists _, o4; split; [done|by left]]. rewrite bind_ALWAYS by done.
    destruct (create_file_end o4 fd f pos p (held o) true) as (r4 & o5 & Hr & [->|(-> & Hh5 & Hd5)]);
      [done..|by rewrite Hh4|exists (Err AssertFail), o5; split; [done|by left]|].
    eexists _, o5. split; [done|]. right; right. by rewrite Hd5, Hd4.
  - rewrite bind_ret.
    destruct (create_file_end o3 fd f pos p (held o) false) as (r4 & o5 & Hr & [->|(-> & Hh5 & _)]);
      [done..|exists (Err AssertFail), o5; split; [done|by left]|].
    eexists _, o5. split; [done|]. by right; left.
Qed.

(** [stat] says nothing about the file. *)
Definition stat_fails (o : OS) f : Prop := ∃ r n, (sys_stat f o).1 = Ok (r, n) ∧ r ≠ 0.

(** What is in the file after a successful check for [n] bytes: a file of that size is as it
    was, another has gone and there are [n] zeros in its place; if [stat] fails there may
    be a file all the same, and then the zeros are its start. *)
Definition checked (o o' : OS) f (n : Z) : Prop :=
  file_data o' f = file_data o f ∧ (∃ d, file_data o f = Some d ∧ Z.of_nat (length d) = n) ∨
  ¬ stat_fails o f ∧ file_data o' f = Some (zeros n) ∨
  stat_fails o f ∧ file_data o' f = Some (cleared n (default [] (file_data o f))).

Lemma cache_manager_check_file_spec (o : OS) f mb :
  0 ≤ mb → mb * CACHE_MANAGER_MB < 9223372036854775808 →
  ∃ r o', cache_manager_check_file f (mb * CACHE_MANAGER_MB) o = (r, o') ∧
    (r = Err AssertFail ∨
     held o' = held o ∧ ((∃ z, r = Ok z ∧ z ≠ 0) ∨ r = Ok 0 ∧ checked o o' f (mb * CACHE_MANAGER_MB))).
Proof.
  intros Hmb Hlt. unfold cache_manager_check_file.
  rewrite u64_id by (unfold CACHE_MANAGER_MB in *; lia).
  assert (Hcreate : ∀ o1 : OS, held o1 = held o →
    (∀ o2, file_data o2 f = Some (cleared (mb * CACHE_MANAGER_MB) (default [] (file_data o1 f))) →
       checked o o2 f (mb * CACHE_MANAGER_MB)) →
    ∃ r o', cache_manager_create_file f (mb * CACHE_MANAGER_MB) o1 = (r, o') ∧
    (r = Err AssertFail ∨
     held o' = held o ∧ ((∃ z, r = Ok z ∧ z ≠ 0) ∨ r = Ok 0 ∧ checked o o' f (mb * CACHE_MANAGER_MB)))).
  { intros o1 Hh Hn. rewrite <-Hh.
    destruct (cache_manager_create_file_spec o1 f mb Hmb) as (r & o' & Hr & [?|[[-> ?]|(-> & ? & Hd)]]);
      exists r, o' || eexists _, o'; (split; [exact Hr|]); [by left|right..]; (split; [done|]).
    - left. by exists (-1).
    - right. split; [done|]. by apply Hn. }
  destruct (stat_law o f) as (r & n & o1 & Hstat & Hh1 & Hd1 & Hsz).
  assert (Hfails : stat_fails o f ↔ r ≠ 0).
  { unfold stat_fails. rewrite Hstat. split; [by intros (? & ? & [= <- <-] & ?)|eauto]. }
  mrun by (unfold msys_stat; rewrite wrapper; exact Hstat). cbn iota.
  destruct (Z.eqb_spec r 0) as [->|Hr]; cbn [negb]; cbn iota.
  - destruct (Hsz eq_refl) as (d & Hd & ->).
    destruct (Z.eqb_spec (Z.of_nat (length d)) (mb * CACHE_MANAGER_MB)) as [Heq|Hne]; cbn [negb].
    + exists (Ok 0), o1. split; [done|]. right. split; [done|]. right. split; [done|]. left.
      split; [by rewrite Hd1|by exists d].
    + destruct (unlink_law o1 f) as (r & o2 & Hu & Hh & Hnone).
      mrun by (unfold msys_unlink; rewrite wrapper; exact Hu).
      destruct (Z.eqb_spec r 0) as [->|Hr]; cbn [negb]; cbn iota.
      * apply Hcreate; [congruence|]. rewrite Hnone by done. intros o3 Hd3. right. left.
        split; [tauto|]. by rewrite Hd3, cleared_all by (unfold CACHE_MANAGER_MB; simpl; lia).
      * exists (Ok r), o2. split; [done|]. right. split; [congruence|]. left. by exists r.
  - apply Hcreate; [done|]. intros o3 Hd3. right. right. split; [tauto|]. by rewrite Hd3, Hd1.
Qed.

(** The first bytes of the file are then those it had, or zeros. *)
Lemma checked_start (o o' : OS) f n :
  0 ≤ n → checked o o' f n →
  ∃ d, file_data o' f = Some d ∧ n ≤ Z.of_nat (length d) ∧
    (file_data o f = Some d ∧ Z.of_nat (length d) = n ∨ take (Z.to_nat n) d = zeros n).
Proof.
  intros Hn [[Hs (d & Hd & Hlen)]|[[_ Hz]|[_ Hz]]].
  - exists d. rewrite Hs. split; [done|]. split; [lia|]. by left.
  - exists (zeros n). split; [done|]. rewrite length_zeros. split; [lia|]. right.
    by rewrite take_ge by (rewrite length_zeros; lia).
  - eexists. split; [exact Hz|]. rewrite length_cleared by done. split; [lia|]. right.
    unfold cleared. by rewrite take_app_length' by (by rewrite length_zeros).
Qed.
End file.

(** * Opening and releasing *)
Section open.
Context {OS : Type} `{PosixLaws OS} (smin smax : Z).
Implicit Types (m : cache_manager) (o : OS).

(** A file [f] that has the size of the cache already is one that [cache_init] can open:
    one of zeros, or one that earlier runs left. *)
Definition file_left o f (n : Z) : Prop :=
  ∀ d, file_data o f = Some d → Z.of_nat (length d) = n → region_ok smin smax n (region_of d).

(** A manager that holds nothing, and one with an open cache. *)
Definition released m : Prop := cells_set (cm_cache m) = false ∧ cm_ptr m = false ∧ cm_fd m < 0.
Definition opened m : Prop :=
  cm_ptr m = true ∧ 0 <= cm_fd m ∧ ∃ ls, cache_inv smin smax (cm_cache m) ls.

Lemma on_os_run {A} (x : M OS A) m o : on_os x (m, o) = let '(r, o') := x o in (r, (m, o')).
Proof. unfold on_os. destruct (x o) as [r o'] eqn:Hx. by erewrite zoom_run. Qed.

Lemma on_os_ok {A} (x : M OS A) m o r o' :
  x o = (Ok r, o') → on_os x (m, o) = (Ok r, (m, o')).
Proof. intros Hx. by rewrite on_os_run, Hx. Qed.

(** A wrapper of msys.c on the system of the manager. *)
Lemma on_os_call {A} (x : M OS A) m o r o' :
  x o = (Ok r, o') → on_os (r ← x; mret r) (m, o) = (Ok r, (m, o')).
Proof. intros Hx. apply on_os_ok. by rewrite wrapper. Qed.

Lemma on_manager_get m o : on_manager get (m, o) = (Ok m, (m, o)).
Proof. done. Qed.
Lemma on_manager_modify g m o : on_manager (modify g) (m, o) = (Ok tt, (g m, o)).
Proof. done. Qed.

Lemma on_cache_ok {A} (x : M cache A) m o r c' :
  x (cm_cache m) = (Ok r, c') → on_cache x (m, o) = (Ok r, (put_cache c' m, o)).
Proof.
  intros Hx. unfold on_cache, on_manager. erewrite zoom_ok; [|eapply zoom_ok; exact Hx]. done.
Qed.

(** The end of [cache_manager_release], and what is held after it. *)
Definition closed (fd : Z) (h : resources) : resources := if fd =? -1 then h else without_fd fd h.

Lemma release_fd m o :
  cells_set (cm_cache m) = false → cm_ptr m = false → -1 ≤ cm_fd m →
  ∃ r m' o', (m ← on_manager get;
    if negb (cm_fd m =? -1) then
      ret ← on_os (msys_close (cm_fd m)); ALWAYS (ret =? 0);; on_manager (modify (put_fd (-1)))
    else mret tt) (m, o) = (r, (m', o')) ∧
    (r = Err AssertFail ∨ r = Ok tt ∧ released m' ∧ held o' = closed (cm_fd m) (held o)).
Proof.
  intros Hc Hp Hlo. mrun by apply on_manager_get. unfold closed.
  destruct (Z.eqb_spec (cm_fd m) (-1)) as [Hfd|Hfd]; cbn [negb]; cbn iota.
  { exists (Ok tt), m, o. split; [done|]. right. split_and!; [done| |done]. split_and!; [done..|lia]. }
  destruct (close_law o (cm_fd m)) as (r & o' & Hcl & _ & Hh). mrun by (by apply on_os_call).
  destruct (Z.eqb_spec r 0) as [->|].
  - rewrite bind_ALWAYS by done. exists (Ok tt), (put_fd (-1) m), o'. split; [done|]. right.
    split_and!; [done|by split|by apply Hh].
  - exists (Err AssertFail), m, o'. split; [done|by left].
Qed.

(** Releasing a manager without cells closes its descriptor. *)
Lemma cache_manager_release_unmapped m o :
  cells_set (cm_cache m) = false → cm_ptr m = false → -1 ≤ cm_fd m →
  ∃ r m' o', cache_manager_release (m, o) = (r, (m', o')) ∧
    (r = Err AssertFail ∨ r = Ok tt ∧ released m' ∧ held o' = closed (cm_fd m) (held o)).
Proof.
  intros Hc Hp Hlo. unfold cache_manager_release.
  assert (Hrel : on_cache cache_release (m, o) = (Ok tt, (put_cache (cm_cache m) m, o))).
  { apply on_cache_ok. unfold cache_release. mnorm. by rewrite Hc. }
  mrun by exact Hrel. assert (put_cache (cm_cache m) m = m) as -> by by destruct m.
  mrun by apply on_manager_get. rewrite Hp, bind_ret. by apply release_fd.
Qed.

Lemma cache_manager_release_opened m o :
  opened m →
  ∃ r m' o', cache_manager_release (m, o) = (r, (m', o')) ∧
    (r = Err AssertFail ∨
     r = Ok tt ∧ released m' ∧ held o' = without_fd (cm_fd m) (without_map (held o))).
Proof.
  intros (Hp & Hfd & ls & Hinv). unfold cache_manager_release.
  destruct (cache_release_spec smin smax _ ls Hinv) as [Hr _].
  mrun by (apply on_cache_ok; exact Hr). mrun by apply on_manager_get.
  set (m1 := put_cache (set_cells false (cm_cache m)) m).
  change (cm_ptr m1) with (cm_ptr m). rewrite Hp.
  destruct (munmap_law o (u64 (memory_size m1))) as (r & o' & Hmu & _ & Hh).
  rewrite bind_assoc. mrun by (by apply on_os_call). rewrite bind_assoc.
  destruct (Z.eqb_spec r 0) as [->|]; [|exists (Err AssertFail), m1, o'; split; [done|by left]].
  rewrite bind_ALWAYS by done. mrun by apply on_manager_modify. specialize (Hh eq_refl).
  destruct (release_fd (put_ptr false m1) o') as (r & m' & o2 & Hr2 & [->|(-> & Hrel & Hh2)]);
    [done|done|change (-1 ≤ cm_fd m); lia|..].
  - exists (Err AssertFail), m', o2. split; [exact Hr2|by left].
  - exists (Ok tt), m', o2. split; [exact Hr2|]. right. split_and!; [done..|].
    change (cm_fd (put_ptr false m1)) with (cm_fd m) in Hh2. rewrite Hh2, Hh. unfold closed.
    by replace (cm_fd m =? -1) with false by lia.
Qed.

Lemma start_cache_spec m o bytes :
  0 ≤ cm_fd m → 0 ≤ memory_size m < 9223372036854775808 →
  region_ok smin smax (memory_size m) (region_of bytes) →
  ∃ m', start_cache bytes (m, o) = (Ok 0, (m', o)) ∧ opened m' ∧ cm_fd m' = cm_fd m.
Proof.
  intros Hfd Hms Hreg. unfold start_cache. mrun by apply on_manager_modify. mrun by apply on_manager_get.
  set (m1 := put_ptr true (put_cache (region_of bytes) m)).
  change (memory_size m1) with (memory_size m). rewrite u64_id by lia.
  destruct (cache_init_spec smin smax (memory_size m) (region_of bytes) Hreg)
    as (c' & ls & Hrun & Hinv & _).
  exists (put_cache c' m1). split; [by mrun by (apply on_cache_ok; exact Hrun)|].
  split; [|done]. split_and!; [done|done|by exists ls].
Qed.

(** What opening the cache of file [f] gives: an error and nothing held, or an open cache
    and its descriptor and its mapping. *)
Definition open_result o f (r : result Z) m' o' : Prop :=
  r = Err AssertFail ∨
  (∃ z, r = Ok z ∧ z ≠ 0 ∧ released m' ∧ held o' = held o) ∨
  r = Ok 0 ∧ opened m' ∧ res_fds (held o) !! cm_fd m' = None ∧
    held o' = with_map (with_fd (cm_fd m') f 0 (held o)).

(** The end of [cache_manager_open_cache], from the first [msys_mmap] on. *)
Lemma open_mapping o o2 f m fd d :
  region_ok smin smax (memory_size m) (region_of (take (Z.to_nat (memory_size m)) d)) →
  cm_fd m = fd → 0 ≤ fd → cells_set (cm_cache m) = false → cm_ptr m = false →
  file_data o2 f = Some d → memory_size m ≤ Z.of_nat (length d) → 0 ≤ memory_size m < 9223372036854775808 →
  res_fds (held o) !! fd = None → held o2 = with_fd fd f 0 (held o) →
  ∃ r m' o', (r ← on_os (msys_mmap (u64 (memory_size m)) MAP_SHARED_VALIDATE_SYNC fd);
      match r with
      | inl errno =>
          if errno =? EOPNOTSUPP OS then
            r ← on_os (msys_mmap (u64 (memory_size m)) MAP_SHARED_VALIDATE fd);
            match r with
            | inl _ => cache_manager_release;; mret (-1)
            | inr bytes => start_cache bytes
            end
          else cache_manager_release;; mret (-1)
      | inr bytes => on_manager (modify (put_dax 1));; start_cache bytes
      end) (m, o2) = (r, (m', o')) ∧ open_result o f r m' o'.
Proof.
  intros Hreg Hm Hfd Hcs Hp Hd Hlen Hms Hnone Hh2. rewrite u64_id by lia.
  assert (Hstart : ∀ m2 o3, cm_fd m2 = fd → memory_size m2 = memory_size m →
    held o3 = with_map (held o2) →
    ∃ r m' o', start_cache (take (Z.to_nat (memory_size m)) d) (m2, o3) = (r, (m', o')) ∧ open_result o f r m' o').
  { intros m2 o3 Hfd2 Hms2 Hh3.
    destruct (start_cache_spec m2 o3 (take (Z.to_nat (memory_size m)) d)) as (m' & Hr & Hop & Hfd');
      [lia|lia|by rewrite Hms2|].
    exists (Ok 0), m', o3. split; [done|]. right; right. rewrite Hfd', Hfd2, Hh3, Hh2. by split_and!. }
  assert (Hfail : ∀ o3, held o3 = held o2 →
    ∃ r m' o', (cache_manager_release;; mret (-1)) (m, o3) = (r, (m', o')) ∧ open_result o f r m' o').
  { intros o3 Hh3.
    destruct (cache_manager_release_unmapped m o3) as (r & m' & o' & Hr & [->|(-> & Hrel & Hh)]); [done|done|lia|..].
    - eexists _, m', o'. split; [by rewrite (bind_err _ _ _ _ _ Hr)|by left].
    - eexists _, m', o'. split; [by rewrite (bind_ok _ _ _ _ _ Hr)|]. right. left. exists (-1).
      split_and!; [done..|]. rewrite Hh, Hm, Hh3, Hh2. unfold closed.
      replace (fd =? -1) with false by lia. by apply without_with_fd. }
  assert (Hmmap : ∀ o3 flags, file_data o3 = file_data o2 → held o3 = held o2 →
    ∃ r o', on_os (msys_mmap (memory_size m) flags fd) (m, o3) = (Ok r, (m, o')) ∧
      file_data o' = file_data o2 ∧
      match r with
      | inl _ => held o' = held o2
      | inr bytes => held o' = with_map (held o2) ∧ bytes = take (Z.to_nat (memory_size m)) d
      end).
  { intros o3 flags Hd3 Hh3. destruct (mmap_law o3 (memory_size m) flags fd) as (r & o' & Hr & Hd' & Hh').
    exists r, o'. split; [by apply on_os_call|]. split; [congruence|]. rewrite Hh3 in Hh'.
    destruct r as [e|bytes]; [done|]. destruct Hh' as [Hh' Hb]. split; [done|].
    apply (Hb f 0%nat); [rewrite Hh2; apply with_fd_lookup|congruence|done]. }
  destruct (Hmmap o2 MAP_SHARED_VALIDATE_SYNC) as (r & o3 & Hr & Hd3 & Hh3); [done..|]. mrun by exact Hr.
  destruct r as [errno|bytes].
  - destruct (errno =? EOPNOTSUPP OS); [|by apply Hfail].
    destruct (Hmmap o3 MAP_SHARED_VALIDATE) as (r & o4 & Hr4 & _ & Hh4); [done..|]. mrun by exact Hr4.
    destruct r as [?|bytes]; [by apply Hfail|]. destruct Hh4 as [Hh4 ->]. by apply Hstart.
  - mrun by apply on_manager_modify. destruct Hh3 as [Hh3 ->]. by apply Hstart.
Qed.

(** [cache_manager_open_cache] opens a consistent cache, or fails and holds nothing. *)
Lemma cache_manager_open_cache_spec f size o :
  sizes_fit smin smax → CACHE_MANAGER_MB ≤ size < 9223372036854775808 - CACHE_MANAGER_MB →
  file_left o f (cache_manager_filesize size) →
  ∃ r m' o', cache_manager_open_cache f size (cache_manager_init, o) = (r, (m', o')) ∧
    open_result o f r m' o'.
Proof.
  intros Hfit Hsize Hleft. unfold cache_manager_open_cache. mrun by apply on_manager_modify.
  mrun by apply on_manager_get. set (m := put_memory_size (s64 (cache_manager_filesize size)) cache_manager_init).
  destruct (cache_manager_filesize_spec size) as (Hb & mb & Hmb & Hpos); [unfold CACHE_MANAGER_MB in *; lia|].
  assert (Hms : memory_size m = cache_manager_filesize size).
  { apply s64_id. unfold CACHE_MANAGER_MB in *. lia. }
  rewrite Hms, Hmb in *.
  destruct (cache_manager_check_file_spec o f mb ltac:(lia)) as (r & o1 & Hchk & Hr).
  { unfold CACHE_MANAGER_MB in *. lia. }
  destruct Hr as [->|[Hh1 [(z & -> & Hz)|(-> & Hck)]]].
  { eexists _, m, o1. split; [|by left]. apply bind_err. by rewrite on_os_run, Hchk. }
  { eexists _, m, o1. split; [mrun by (apply on_os_ok; exact Hchk); by replace (z =? 0) with false by lia|].
    right. left. by exists z. }
  destruct (checked_start o o1 f (mb * CACHE_MANAGER_MB) ltac:(unfold CACHE_MANAGER_MB in *; lia) Hck) as (d & Hd & Hlen & Hbytes).
  mrun by (apply on_os_ok; exact Hchk). cbn [Z.eqb negb]. cbn iota.
  destruct (open_law o1 f O_RDWR [S_IRUSR; S_IWUSR]) as (fd & o2 & Hopen & Hfd).
  mrun by (apply on_os_call; exact Hopen). mrun by apply on_manager_modify.
  destruct Hfd as [[Hneg Hh2]|(Hfd & Hnone & Hh2 & Hd2)].
  { replace (fd <? 0) with true by lia. eexists _, (put_fd fd m), o2. split; [done|]. right. left.
    exists fd. split_and!; [done|lia|by split_and!|congruence]. }
  replace (fd <? 0) with false by lia. rewrite Hd in Hd2. simpl in Hd2. rewrite Hh1 in Hnone, Hh2.
  rewrite <-Hms. apply (open_mapping o o2 f (put_fd fd m) fd d); try done;
    change (memory_size (put_fd fd m)) with (memory_size m); rewrite Hms;
    [|done|unfold CACHE_MANAGER_MB in *; lia].
  destruct Hbytes as [[Hold Hl]|Hz].
  - rewrite take_ge by lia. by apply Hleft.
  - rewrite Hz. apply region_of_zeros; [done|]. change CACHE_CELL_SIZE with CACHE_MANAGER_MB.
    rewrite Z.div_mul by done. unfold CACHE_MANAGER_MB in *. lia.
Qed.
End open.
