(* ===== verification/ManagerTheorems.v ===== *)
(** The properties of the cache manager, with an operating system on which they hold. *)

From stdpp Require Import strings.
From S2P Require Import Prelude Monad Slab Checksum CellHeader CellSpec Cell CellTheorems Cache CacheSpec.
From S2P Require Import CacheTheorems Msys MappedFile CacheManager ManagerSpec.

(** * A system with one descriptor and one block of memory *)

Record demo_os := DemoOs {
  os_files : gmap string (list byte);
  os_held : resources;
}.

Definition hold (h : resources) (o : demo_os) : demo_os := DemoOs (os_files o) h.
Definition set_file (f : string) (d : list byte) (o : demo_os) : demo_os :=
  DemoOs (<[f := d]> (os_files o)) (os_held o).

(** Every write takes 64 KB at most. *)
#[local] Instance demo_posix : Posix demo_os := {
  sys_access f _ := o ← get; mret (if decide (is_Some (os_files o !! f)) then 0 else -1);
  sys_remove f := modify (λ o, DemoOs (delete f (os_files o)) (os_held o));; mret 0;
  sys_open f fl _ :=
    o ← get;
    match fl, os_files o !! f, res_fds (os_held o) !! 3 with
    | O_RDWR, None, _ | _, _, Some _ => mret (-1)
    | _, d, None =>
        modify (λ o, hold (with_fd 3 f 0 (os_held o)) (set_file f (default [] d) o));; mret 3
    end;
  sys_stat f :=
    o ← get; mret (match os_files o !! f with Some d => (0, Z.of_nat (length d)) | None => (-1, 0) end);
  sys_write fd buf n :=
    o ← get;
    match res_fds (os_held o) !! fd with
    | Some (f, pos) =>
        let w := take (Z.to_nat (Z.min n 65536)) buf in
        modify (λ o, hold (with_fd fd f (pos + Z.to_nat (Z.min n 65536)) (os_held o))
                          (set_file f (overwrite pos w (default [] (os_files o !! f))) o));;
        mret (Z.min n 65536)
    | None => mret (-1)
    end;
  sys_close fd := modify (λ o, hold (without_fd fd (os_held o)) o);; mret 0;
  sys_fsync _ := mret 0;
  sys_mmap n _ fd :=
    o ← get;
    match res_fds (os_held o) !! fd with
    | Some (f, _) =>
        modify (λ o, hold (with_map (os_held o)) o);;
        mret (inr (take (Z.to_nat n) (default [] (os_files o !! f))))
    | None => mret (inl 9)
    end;
  sys_munmap _ := modify (λ o, hold (without_map (os_held o)) o);; mret 0;
  sys_malloc _ :=
    o ← get;
    if decide (1 ∈ res_heap (os_held o)) then mret 0
    else modify (λ o, hold (with_block 1 (os_held o)) o);; mret 1;
  sys_free p := modify (λ o, hold (without_block p (os_held o)) o);; mret tt;
  EOPNOTSUPP := 95;
}.

#[local] Program Instance demo_laws : PosixLaws demo_os := {
  file_data o f := os_files o !! f;
  held o := os_held o;
}.
Next Obligation.
  intros o f. simpl. destruct (os_files o !! f) as [d|] eqn:Hd; eexists _, _, o;
    (split; [by rewrite bind_get, Hd|]); split_and!; [done..|by exists d|done|done|done].
Qed.
Next Obligation.
  intros o f fl md. simpl. destruct (res_fds (os_held o) !! 3) as [x|] eqn:Hx;
    destruct fl, (os_files o !! f) as [d|] eqn:Hd; eexists _, _;
    (split; [by rewrite bind_get, ?Hd, ?Hx, ?Hd|]); try (by left); right; simpl;
    rewrite lookup_insert_eq; by split_and!.
Qed.
Next Obligation.
  intros o f d fd pos buf n Hfd Hd Hn. simpl in *. eexists (Z.min n 65536), _.
  split; [by rewrite bind_get, Hfd|]. right. split; [lia|]. simpl. by rewrite lookup_insert_eq, Hd.
Qed.
Next Obligation. intros o fd. by eexists _, _. Qed.
Next Obligation. intros o fd. by eexists _, _. Qed.
Next Obligation. intros o f. eexists _, _. split; [done|]. split; [done|]. intros _. apply lookup_delete_eq. Qed.
Next Obligation.
  intros o n flags fd. simpl. destruct (res_fds (os_held o) !! fd) as [[f pos]|] eqn:Hfd;
    eexists _, _; (split; [by rewrite bind_get, Hfd|]); [|done]. split; [done|]. split; [done|].
  intros f' pos' d Hf' Hd _. simplify_eq. by rewrite Hd.
Qed.
Next Obligation. intros o n. by eexists _, _. Qed.
Next Obligation.
  intros o n. simpl. destruct (decide (1 ∈ res_heap (os_held o))) as [Hin|Hin].
  - exists 0, o. split; [by rewrite bind_get, decide_True|done].
  - eexists 1, _. split; [by rewrite bind_get, decide_False|done].
Qed.
Next Obligation. intros o p Hp. by eexists. Qed.

Definition demo_start : demo_os := DemoOs ∅ (Resources ∅ ∅ 0).

(** * The file *)

(** C28: [cache_manager_check_file] with a result of 0.  If [stat] gives a size, the file is
    there afterwards with exactly the size asked for: one of that size is as it was, any
    other has gone and the file is full of zeros.  If [stat] fails, there may be no file, and
    then there is one of that size and full of zeros; but there may be one all the same, and
    as it is opened without [O_TRUNC] its start is overwritten with zeros and it keeps the
    rest: it is not cut to the size asked for.  Any other outcome is an error result or a
    failed assertion.  The loops that fill the file end, with partial writes too, and
    whatever the result all memory and descriptors are given back.  What is assumed of the
    system is [PosixLaws]. *)
Theorem cache_manager_check_file_correct {OS} `{PosixLaws OS} (o : OS) f mb :
  0 ≤ mb → mb * CACHE_MANAGER_MB < 9223372036854775808 →
  ∃ r o', cache_manager_check_file f (mb * CACHE_MANAGER_MB) o = (r, o') ∧
    (r = Err AssertFail ∨
     held o' = held o ∧ ((∃ z, r = Ok z ∧ z ≠ 0) ∨ r = Ok 0 ∧ checked o o' f (mb * CACHE_MANAGER_MB))).
Proof. apply cache_manager_check_file_spec. Qed.

Lemma cache_manager_check_file_correct_witness :
  ∃ r o', cache_manager_check_file EmptyString (3 * CACHE_MANAGER_MB) demo_start = (r, o') ∧
    (r = Err AssertFail ∨
     held o' = held demo_start ∧ ((∃ z, r = Ok z ∧ z ≠ 0) ∨
       r = Ok 0 ∧ checked demo_start o' EmptyString (3 * CACHE_MANAGER_MB))).
Proof. apply cache_manager_check_file_correct; [lia|reflexivity]. Defined.

(** * Opening and releasing *)




(** The file is larger than the size asked for, by at most one MB, and a whole number
    of MB. *)
Theorem cache_manager_filesize_bounds r :
  0 ≤ r < 18446744073709551616 - CACHE_MANAGER_MB →
  r < cache_manager_filesize r ≤ r + CACHE_MANAGER_MB ∧
  ∃ mb, cache_manager_filesize r = mb * CACHE_MANAGER_MB ∧ 0 < mb.
Proof. apply cache_manager_filesize_spec. Qed.

Lemma cache_manager_filesize_bounds_witness :
  5000000 < cache_manager_filesize 5000000 ≤ 5000000 + CACHE_MANAGER_MB ∧
  ∃ mb, cache_manager_filesize 5000000 = mb * CACHE_MANAGER_MB ∧ 0 < mb.
Proof. apply cache_manager_filesize_bounds. vm_compute. split; congruence. Defined.

(** C39: a cache of less than one MB cannot be opened: its file gets one MB, which has room
    for the header and for no cell, and the assertion of [cache_init] stops the process. *)
Theorem cache_manager_small_aborts r c :
  0 ≤ r < CACHE_MANAGER_MB → cache_init (cache_manager_filesize r) c = (Err AssertFail, c).
Proof.
  intros Hr. unfold cache_manager_filesize. rewrite Z.div_small by done. reflexivity.
Qed.

Lemma cache_manager_small_aborts_witness :
  cache_init (cache_manager_filesize 1000) zero_region = (Err AssertFail, zero_region).
Proof. apply cache_manager_small_aborts. vm_compute. split; congruence. Defined.
