(* ===== verification/RollingHash.v ===== *)
(** The rolling hash the chunker uses: rolling_hash2.c of the isa-l_crypto copy under
    src/third-party, in its portable version.  The table of 256 random words is a
    parameter; [RollingTable] has the words it is built with. *)

From S2P Require Import Prelude Monad Checksum.

(** * Words of 64 bits *)

(** [(x << n) | (x >> (64 - n))] of a [uint64_t]. *)
Definition rol64 (x n : Z) : Z := Z.lor (u64 (Z.shiftl x n)) (Z.shiftr x (64 - n)).

Definition word (x : Z) : Prop := 0 ≤ x < 18446744073709551616.

Section words.
Lemma word_testbit x i : word x → 64 ≤ i → Z.testbit x i = false.
Proof.
  intros [H0 H1] Hi. destruct (decide (x = 0)) as [->|]; [apply Z.testbit_0_l|].
  apply Z.bits_above_log2; [done|]. apply Z.log2_lt_pow2; [lia|].
  eapply Z.lt_le_trans; [exact H1|]. change 18446744073709551616 with (2 ^ 64).
  apply Z.pow_le_mono_r; lia.
Qed.

Lemma u64_testbit x i : 0 ≤ i → Z.testbit (u64 x) i = (i <? 64) && Z.testbit x i.
Proof.
  intros Hi. unfold u64. change 18446744073709551616 with (2 ^ 64).
  destruct (Z.ltb_spec i 64); simpl.
  - by apply Z.mod_pow2_bits_low.
  - apply Z.mod_pow2_bits_high. lia.
Qed.

(** A rotation permutes the bits. *)
Lemma rol64_testbit x n i :
  word x → 0 ≤ n ≤ 64 → 0 ≤ i →
  Z.testbit (rol64 x n) i = (i <? 64) && Z.testbit x (if i <? n then i - n + 64 else i - n).
Proof.
  intros Hx Hn Hi. unfold rol64. rewrite Z.lor_spec, u64_testbit, Z.shiftr_spec, Z.shiftl_spec by lia.
  destruct (Z.ltb_spec i n).
  - rewrite (Z.testbit_neg_r x (i - n)) by lia. rewrite andb_false_r. simpl.
    replace (i <? 64) with true by lia. simpl. f_equal. lia.
  - rewrite (word_testbit x (i + (64 - n))) by (done || lia). apply orb_false_r.
Qed.

Lemma word_intro x : 0 ≤ x → (∀ i, 64 ≤ i → Z.testbit x i = false) → word x.
Proof.
  intros H0 H. split; [done|]. destruct (Z.ltb_spec x 18446744073709551616) as [|Hge]; [done|].
  assert (Hl : 64 ≤ Z.log2 x).
  { change 64 with (Z.log2 18446744073709551616). by apply Z.log2_le_mono. }
  pose proof (Z.bit_log2 x ltac:(lia)) as Hb. rewrite H in Hb by done. done.
Qed.

Lemma rol64_word x n : word x → 0 ≤ n ≤ 64 → word (rol64 x n).
Proof.
  intros Hx Hn. apply word_intro.
  - unfold rol64. apply Z.lor_nonneg. split; [|apply Z.shiftr_nonneg, Hx].
    unfold u64. apply Z.mod_pos_bound. lia.
  - intros i Hi. rewrite rol64_testbit by (done || lia). by replace (i <? 64) with false by lia.
Qed.

Lemma lxor_word x y : word x → word y → word (Z.lxor x y).
Proof.
  intros Hx Hy. apply word_intro; [apply Z.lxor_nonneg; destruct Hx, Hy; tauto|].
  intros i Hi. by rewrite Z.lxor_spec, !word_testbit.
Qed.

Lemma rol64_lxor x y n :
  word x → word y → 0 ≤ n ≤ 64 → rol64 (Z.lxor x y) n = Z.lxor (rol64 x n) (rol64 y n).
Proof.
  intros Hx Hy Hn. apply Z.bits_inj'. intros i Hi.
  rewrite Z.lxor_spec, !rol64_testbit, Z.lxor_spec by (done || by apply lxor_word).
  by destruct (i <? 64).
Qed.

Lemma rol64_rol64 x a b :
  word x → 0 ≤ a → 0 ≤ b → a + b ≤ 64 → rol64 (rol64 x a) b = rol64 x (a + b).
Proof.
  intros Hx Ha Hb Hab. apply Z.bits_inj'. intros i Hi.
  rewrite (rol64_testbit (rol64 x a)), (rol64_testbit x (a + b)) by (done || lia || (apply rol64_word; done || lia)).
  destruct (Z.ltb_spec i 64); simpl; [|done].
  destruct (Z.ltb_spec i b); rewrite rol64_testbit by (done || lia).
  - replace (i - b + 64 <? 64) with true by lia. simpl.
    replace (i <? a + b) with true by lia. f_equal. destruct (Z.ltb_spec (i - b + 64) a); lia.
  - replace (i - b <? 64) with true by lia. simpl. f_equal.
    destruct (Z.ltb_spec (i - b) a), (Z.ltb_spec i (a + b)); lia.
Qed.

Lemma rol64_0_l n : 0 ≤ n ≤ 64 → rol64 0 n = 0.
Proof. intros Hn. apply Z.bits_inj'. intros i Hi. rewrite rol64_testbit, !Z.testbit_0_l by (done || lia). apply andb_false_r. Qed.

Lemma rol64_0 x : word x → rol64 x 0 = x.
Proof.
  intros Hx. apply Z.bits_inj'. intros i Hi. rewrite rol64_testbit by (done || lia).
  destruct (Z.ltb_spec i 0); [lia|]. rewrite Z.sub_0_r.
  destruct (Z.ltb_spec i 64); [done|]. by rewrite word_testbit.
Qed.
End words.
#[global] Arguments rol64 : simpl never.

(** * rolling_hash2.c *)

Definition FINGERPRINT_RET_HIT : Z := 0.
Definition FINGERPRINT_RET_MAX : Z := 1.
Definition FINGERPRINT_MAX_WINDOW : Z := 48.

(** [struct rh_state2]; [history] is the first [w] bytes of the array. *)
Record rh_state2 := RhState2 {
  history : list byte;
  table1 : list Z;
  table2 : list Z;
  rh_hash : Z; (* uint64_t *)
  rh_w : Z;    (* uint32_t *)
}.

Definition table_at (t : list Z) (b : byte) : Z := default 0 (t !! Z.to_nat (byte.unsigned b)).

Section init.
(** [rolling_hash2_table1]. *)
Variable rolling_hash2_table1 : list Z.

Definition rolling_hash2_init (w : Z) : M rh_state2 Z :=
  if FINGERPRINT_MAX_WINDOW <? w then mret (-1)
  else
    modify (λ s, RhState2 (history s)
                   rolling_hash2_table1 ((λ v, rol64 v w) <$> rolling_hash2_table1)
                   (rh_hash s) w);;
    mret 0.
End init.

(** [buffer[i]]: behind the end of the buffer there is nothing to read. *)
Definition read_byte {S} (buffer : list byte) (i : nat) : M S byte :=
  match buffer !! i with Some b => mret b | None => throw OutOfBounds end.

(** The loop of [rolling_hash2_reset]. *)
Fixpoint hash_bytes (t : list Z) (hash : Z) (bytes : list byte) : Z :=
  match bytes with
  | [] => hash
  | b :: bytes => hash_bytes t (Z.lxor (rol64 hash 1) (table_at t b)) bytes
  end.

(** [init_bytes] from its pointer on. *)
Definition rolling_hash2_reset (init_bytes : list byte) : M rh_state2 unit :=
  s ← get;
  let bytes := take (Z.to_nat (rh_w s)) init_bytes in
  if Z.of_nat (length bytes) <? rh_w s then throw OutOfBounds
  else modify (λ s, RhState2 bytes (table1 s) (table2 s) (hash_bytes (table1 s) 0 bytes) (rh_w s)).

Definition hash_fn (s : rh_state2) (h : Z) (new_char old_char : byte) : Z :=
  Z.lxor (rol64 h 1) (Z.lxor (table_at (table1 s) new_char) (table_at (table2 s) old_char)).

Inductive window_result :=
  | Stop (ret : Z) (offset : nat)
  | Continue (hash : Z).

(** The end of the [for] loop: [memmove(history, history + i, w - i)], then [i] bytes of
    the buffer behind them. *)
Definition shift_history (buffer : list byte) (i : nat) (hash : Z) : M rh_state2 unit :=
  modify (λ s, RhState2 (drop i (history s) ++ take i buffer) (table1 s) (table2 s) hash (rh_w s)).

(** The [for] loop of [rolling_hash2_run] over the old window: [n] iterations are left. *)
Fixpoint run_history (n i : nat) (buffer : list byte) (buffer_length : nat) (mask trigger hash : Z)
    : M rh_state2 window_result :=
  match n with
  | O => mret (Continue hash)
  | S n =>
      if Nat.eqb i buffer_length then
        shift_history buffer i hash;; mret (Stop FINGERPRINT_RET_MAX i)
      else
        s ← get;
        new_char ← read_byte buffer i;
        old_char ← read_byte (history s) i;
        let hash := hash_fn s hash new_char old_char in
        if Z.land hash mask =? trigger then
          shift_history buffer (S i) hash;; mret (Stop FINGERPRINT_RET_HIT (S i))
        else run_history n (S i) buffer buffer_length mask trigger hash
  end.

(** [rolling_hash2_run_until_base]: [n] iterations are left; the index and the hash. *)
Fixpoint rolling_hash2_run_until (n i : nat) (buffer : list byte) (mask trigger hash : Z)
    : M rh_state2 (nat * Z) :=
  match n with
  | O => mret (i, hash)
  | S n =>
      s ← get;
      new_char ← read_byte buffer i;
      old_char ← read_byte buffer (i - Z.to_nat (rh_w s));
      let hash := hash_fn s hash new_char old_char in
      if Z.land hash mask =? trigger then mret (i, hash)
      else rolling_hash2_run_until n (S i) buffer mask trigger hash
  end.

(** [memcpy(state->history, buffer + i - w, w); state->hash = hash]. *)
Definition copy_history (buffer : list byte) (i : nat) (hash : Z) : M rh_state2 unit :=
  modify (λ s, RhState2 (take (Z.to_nat (rh_w s)) (drop (i - Z.to_nat (rh_w s)) buffer))
                 (table1 s) (table2 s) hash (rh_w s)).

(** The result and the offset. *)
Definition rolling_hash2_run (buffer : list byte) (buffer_length : nat) (mask trigger : Z)
    : M rh_state2 (Z * nat) :=
  w ← gets (λ s, Z.to_nat (rh_w s));
  hash ← gets rh_hash;
  r ← run_history w 0 buffer buffer_length mask trigger hash;
  match r with
  | Stop ret offset => mret (ret, offset)
  | Continue hash =>
      '(i, hash) ← rolling_hash2_run_until (buffer_length - w) w buffer mask trigger hash;
      if Z.land hash mask =? trigger then
        copy_history buffer (S i) hash;; mret (FINGERPRINT_RET_HIT, S i)
      else copy_history buffer i hash;; mret (FINGERPRINT_RET_MAX, i)
  end.

(** * The hash of a window *)

(** The hash of some bytes, computed from them alone. *)
Definition window_hash (t : list Z) (bytes : list byte) : Z := hash_bytes t 0 bytes.

Section window_hash.
Context (t : list Z) (Ht : Forall word t).

Lemma table_word b : word (table_at t b).
Proof.
  unfold table_at. destruct (t !! _) as [v|] eqn:E; simpl; [|done].
  by eapply Forall_lookup_1.
Qed.
Hint Resolve table_word lxor_word : core.

Lemma hash_bytes_word h bytes : word h → word (hash_bytes t h bytes).
Proof.
  revert h. induction bytes as [|b bytes IH]; intros h Hh; simpl; [done|].
  apply IH, lxor_word; [|done]. apply rol64_word; [done|lia].
Qed.
Lemma window_hash_word bytes : word (window_hash t bytes).
Proof. by apply hash_bytes_word. Qed.
Hint Resolve hash_bytes_word window_hash_word : core.

Lemma hash_bytes_app h l1 l2 : hash_bytes t h (l1 ++ l2) = hash_bytes t (hash_bytes t h l1) l2.
Proof. revert h. induction l1; intros h; simpl; auto. Qed.

(** A hash is linear in what it starts from. *)
Lemma hash_bytes_linear bytes : ∀ h,
  word h → Z.of_nat (length bytes) < 64 →
  hash_bytes t h bytes = Z.lxor (rol64 h (Z.of_nat (length bytes))) (window_hash t bytes).
Proof.
  induction bytes as [|b bytes IH]; intros h Hh Hl.
  { simpl. rewrite rol64_0 by done. unfold window_hash. simpl. by rewrite Z.lxor_0_r. }
  cbn [length] in Hl. unfold window_hash. cbn [hash_bytes length].
  assert (H1 : word (rol64 h 1)) by (apply rol64_word; [done|lia]).
  assert (word (rol64 0 1)) by by vm_compute.
  rewrite (IH (Z.lxor (rol64 h 1) (table_at t b))), (IH (Z.lxor (rol64 0 1) (table_at t b))) by (auto || lia).
  change (rol64 0 1) with 0. rewrite Z.lxor_0_l, <-Z.lxor_assoc. f_equal.
  rewrite rol64_lxor, rol64_rol64 by (done || lia || auto). do 2 f_equal. lia.
Qed.

(** Rolling: the hash of the next window from that of the last, the new byte and the
    one that leaves. *)
Lemma window_hash_slide w new old bytes :
  Z.of_nat (length (old :: bytes)) = w → w < 64 →
  Z.lxor (rol64 (window_hash t (old :: bytes)) 1) (Z.lxor (table_at t new) (rol64 (table_at t old) w)) =
  window_hash t (bytes ++ [new]).
Proof.
  intros Hl Hw. cbn [length] in Hl. unfold window_hash at 1. cbn [hash_bytes].
  change (rol64 0 1) with 0. rewrite Z.lxor_0_l, hash_bytes_linear by (done || lia).
  rewrite rol64_lxor by (done || lia || (apply rol64_word; done || lia)).
  rewrite rol64_rol64 by (done || lia). replace (Z.of_nat (length bytes) + 1) with w by lia.
  unfold window_hash at 2. rewrite hash_bytes_app. cbn [hash_bytes]. fold (window_hash t bytes).
  apply Z.bits_inj'. intros i _. rewrite !Z.lxor_spec.
  by destruct (Z.testbit (rol64 (table_at t old) w) i), (Z.testbit (rol64 (window_hash t bytes) 1) i),
    (Z.testbit (table_at t new) i).
Qed.
End window_hash.

(** * rolling_hash2_run finds the first window with the fingerprint *)
Section run.
Context (t : list Z) (Ht : Forall word t) (w : nat) (Hw : (1 ≤ w ≤ 48)%nat).
Context (buffer : list byte) (len : nat) (mask trigger : Z).

(** A state whose hash is that of its history. *)
Record rh_wf (s : rh_state2) : Prop := {
  rh_table1 : table1 s = t;
  rh_table2 : table2 s = (λ v, rol64 v (Z.of_nat w)) <$> t;
  rh_window : rh_w s = Z.of_nat w;
  rh_history : length (history s) = w;
  rh_current : rh_hash s = window_hash t (history s);
}.

(** The window after [k] bytes of the buffer, and whether it has the fingerprint. *)
Definition window_at (h : list byte) (k : nat) : list byte := take w (drop k (h ++ buffer)).
Definition hit_at (h : list byte) (k : nat) : bool :=
  Z.land (window_hash t (window_at h k)) mask =? trigger.

Lemma window_slide h k new :
  length h = w → buffer !! k = Some new →
  ∃ old tl, (h ++ buffer) !! k = Some old ∧ window_at h k = old :: tl
    ∧ window_at h (S k) = tl ++ [new] ∧ length (old :: tl) = w.
Proof.
  intros Hh Hn. assert (Hn' : (h ++ buffer) !! (k + w)%nat = Some new).
  { rewrite lookup_app_r by lia. rewrite Hh. by replace (k + w - w)%nat with k by lia. }
  pose proof (lookup_lt_Some _ _ _ Hn').
  destruct (lookup_lt_is_Some_2 (h ++ buffer) k) as [old Hold]; [lia|].
  exists old, (take (w - 1) (drop (S k) (h ++ buffer))). split; [done|].
  unfold window_at. rewrite (drop_S _ _ _ Hold). destruct w as [|w']; [lia|].
  rewrite Nat.sub_succ, Nat.sub_0_r. cbn [take firstn]. split; [done|]. split.
  - apply take_S_r. rewrite lookup_drop. rewrite <-Hn'. f_equal. lia.
  - cbn [length]. rewrite length_take, length_drop. lia.
Qed.

Lemma table2_at s b :
  rh_wf s → table_at (table2 s) b = rol64 (table_at t b) (Z.of_nat w).
Proof.
  intros H. unfold table_at. rewrite (rh_table2 _ H), list_lookup_fmap.
  destruct (t !! _); simpl; [done|]. rewrite rol64_0_l by lia. done.
Qed.

Lemma hash_fn_slide s h k new old :
  rh_wf s → length h = w → buffer !! k = Some new → (h ++ buffer) !! k = Some old →
  hash_fn s (window_hash t (window_at h k)) new old = window_hash t (window_at h (S k)).
Proof.
  intros Hs Hh Hn Ho. destruct (window_slide h k new Hh Hn) as (old' & tl & Ho' & H1 & H2 & Hl).
  rewrite Ho in Ho'. injection Ho' as <-. rewrite H1, H2. unfold hash_fn.
  rewrite (table2_at _ _ Hs), (rh_table1 _ Hs). apply window_hash_slide; [done|by rewrite Hl|lia].
Qed.

Lemma read_byte_ok {S} (l : list byte) i b (s : S) :
  l !! i = Some b → read_byte l i s = (Ok b, s).
Proof. intros Hb. unfold read_byte. by rewrite Hb. Qed.

(** The state that a run of [k] bytes leaves. *)
Definition ran (s : rh_state2) (k : nat) (s' : rh_state2) : Prop :=
  rh_wf s' ∧ history s' = window_at (history s) k.

Definition no_hit (h : list byte) (k : nat) : Prop := ∀ j, (1 ≤ j ≤ k)%nat → hit_at h j = false.

Lemma no_hit_S h k : no_hit h k → hit_at h (S k) = false → no_hit h (S k).
Proof. intros Hk HS j Hj. destruct (decide (j = S k)) as [->|]; [done|]. apply Hk. lia. Qed.

Lemma ran_intro s k :
  rh_wf s → (k ≤ length buffer)%nat →
  ran s k (RhState2 (window_at (history s) k) (table1 s) (table2 s)
             (window_hash t (window_at (history s) k)) (rh_w s)).
Proof.
  intros [? ? ? Hh ?] Hk. split; [split|]; simpl; try done.
  unfold window_at. rewrite length_take, length_drop, length_app. lia.
Qed.

Lemma shift_history_ok s k hash :
  rh_wf s → (k ≤ w)%nat → (k ≤ length buffer)%nat → hash = window_hash t (window_at (history s) k) →
  ∃ s', shift_history buffer k hash s = (Ok tt, s') ∧ ran s k s'.
Proof.
  intros Hs Hk Hb ->. eexists. split; [|by apply ran_intro].
  unfold shift_history. rewrite run_modify. repeat f_equal. unfold window_at.
  pose proof (rh_history _ Hs). rewrite drop_app_le by lia.
  rewrite take_app, (take_ge (drop k (history s))) by (rewrite length_drop; lia).
  rewrite length_drop. do 2 f_equal. lia.
Qed.

Lemma copy_history_ok s k hash :
  rh_wf s → (w ≤ k)%nat → (k ≤ length buffer)%nat → hash = window_hash t (window_at (history s) k) →
  ∃ s', copy_history buffer k hash s = (Ok tt, s') ∧ ran s k s'.
Proof.
  intros Hs Hk Hb ->. eexists. split; [|by apply ran_intro].
  unfold copy_history. rewrite run_modify. repeat f_equal. unfold window_at.
  rewrite (rh_window _ Hs), Nat2Z.id, drop_app_ge by (rewrite (rh_history _ Hs); lia).
  by rewrite (rh_history _ Hs).
Qed.

Lemma run_history_spec n : ∀ i s,
  rh_wf s → (n + i = w)%nat → (i ≤ len)%nat → (len ≤ length buffer)%nat → no_hit (history s) i →
  let hash := window_hash t (window_at (history s) i) in
  (∃ k s', run_history n i buffer len mask trigger hash s = (Ok (Stop FINGERPRINT_RET_HIT k), s')
     ∧ (1 ≤ k ≤ len)%nat ∧ no_hit (history s) (k - 1) ∧ hit_at (history s) k = true ∧ ran s k s') ∨
  (∃ s', run_history n i buffer len mask trigger hash s = (Ok (Stop FINGERPRINT_RET_MAX len), s')
     ∧ no_hit (history s) len ∧ ran s len s') ∨
  (run_history n i buffer len mask trigger hash s =
     (Ok (Continue (window_hash t (window_at (history s) w))), s)
     ∧ (w ≤ len)%nat ∧ no_hit (history s) w).
Proof.
  induction n as [|n IH]; intros i s Hs Hn Hi Hlen Hno hash.
  { right. right. simpl in Hn. by subst i. }
  destruct (decide (i = len)) as [->|Hne].
  { right. left. cbn [run_history]. rewrite Nat.eqb_refl. destruct (shift_history_ok s len hash) as (s' & Hr & Hran); [done|lia|lia|done|].
    exists s'. by mrun by exact Hr. }
  destruct (lookup_lt_is_Some_2 buffer i) as [new Hnew]; [lia|].
  destruct (lookup_lt_is_Some_2 (history s) i) as [old Hold]; [rewrite (rh_history _ Hs); lia|].
  assert (Hslide : hash_fn s hash new old = window_hash t (window_at (history s) (S i))).
  { apply hash_fn_slide; [done|apply Hs|done|]. by rewrite lookup_app_l by (by eapply lookup_lt_Some). }
  assert (Hstep : run_history (S n) i buffer len mask trigger hash s =
    (if hit_at (history s) (S i) then
       shift_history buffer (S i) (window_hash t (window_at (history s) (S i)));;
       mret (Stop FINGERPRINT_RET_HIT (S i))
     else run_history n (S i) buffer len mask trigger (window_hash t (window_at (history s) (S i)))) s).
  { cbn [run_history]. destruct (Nat.eqb_spec i len); [done|]. rewrite bind_get.
    mrun by (by apply read_byte_ok). mrun by (by apply read_byte_ok).
    cbv zeta. rewrite Hslide. by unfold hit_at. }
  rewrite Hstep. clear Hstep. destruct (hit_at (history s) (S i)) eqn:Hhit.
  - left. destruct (shift_history_ok s (S i) _ Hs ltac:(lia) ltac:(lia) eq_refl) as (s' & Hr & Hran).
    exists (S i), s'. split_and!; [by mrun by exact Hr|lia|lia| |done|done].
    by rewrite Nat.sub_succ, Nat.sub_0_r.
  - apply IH; [done|lia..|]. by apply no_hit_S.
Qed.

Lemma run_until_spec n : ∀ i s,
  rh_wf s → (w ≤ i)%nat → (n + i = len)%nat → (len ≤ length buffer)%nat → no_hit (history s) i →
  let hash := window_hash t (window_at (history s) i) in
  (∃ k, rolling_hash2_run_until n i buffer mask trigger hash s =
          (Ok (k, window_hash t (window_at (history s) (S k))), s)
     ∧ (i ≤ k < len)%nat ∧ no_hit (history s) k ∧ hit_at (history s) (S k) = true) ∨
  (rolling_hash2_run_until n i buffer mask trigger hash s =
     (Ok (len, window_hash t (window_at (history s) len)), s) ∧ no_hit (history s) len).
Proof.
  induction n as [|n IH]; intros i s Hs Hi Hn Hlen Hno hash.
  { right. simpl in Hn. by subst i. }
  destruct (lookup_lt_is_Some_2 buffer i) as [new Hnew]; [lia|].
  destruct (lookup_lt_is_Some_2 buffer (i - w)) as [old Hold]; [lia|].
  assert (Hslide : hash_fn s hash new old = window_hash t (window_at (history s) (S i))).
  { apply hash_fn_slide; [done|apply Hs|done|]. pose proof (rh_history _ Hs).
    rewrite lookup_app_r by lia. rewrite <-Hold. f_equal. lia. }
  assert (Hstep : rolling_hash2_run_until (S n) i buffer mask trigger hash s =
    (if hit_at (history s) (S i) then mret (i, window_hash t (window_at (history s) (S i)))
     else rolling_hash2_run_until n (S i) buffer mask trigger
            (window_hash t (window_at (history s) (S i)))) s).
  { cbn [rolling_hash2_run_until]. rewrite bind_get, (rh_window _ Hs), Nat2Z.id.
    mrun by (by apply read_byte_ok). mrun by (by apply read_byte_ok).
    cbv zeta. rewrite Hslide. by unfold hit_at. }
  rewrite Hstep. clear Hstep. destruct (hit_at (history s) (S i)) eqn:Hhit.
  - left. exists i. split_and!; [done|lia..|done|done].
  - destruct (IH (S i) s Hs) as [(k & Hr & Hk & ?)|?]; [lia..|done|by apply no_hit_S| |by right].
    left. exists k. split_and!; [done|lia..|tauto|tauto].
Qed.

(** The first position of the fingerprint among the first [len] bytes, or none. *)
Lemma rolling_hash2_run_spec s :
  rh_wf s → (len ≤ length buffer)%nat →
  (∃ k s', rolling_hash2_run buffer len mask trigger s = (Ok (FINGERPRINT_RET_HIT, k), s')
     ∧ (1 ≤ k ≤ len)%nat ∧ no_hit (history s) (k - 1) ∧ hit_at (history s) k = true ∧ ran s k s') ∨
  (∃ s', rolling_hash2_run buffer len mask trigger s = (Ok (FINGERPRINT_RET_MAX, len), s')
     ∧ no_hit (history s) len ∧ ran s len s').
Proof.
  intros Hs Hlen. unfold rolling_hash2_run. rewrite !bind_gets, (rh_window _ Hs), Nat2Z.id, (rh_current _ Hs).
  assert (Hw0 : window_at (history s) 0 = history s).
  { unfold window_at. rewrite drop_0, take_app_le by (rewrite (rh_history _ Hs); lia).
    apply take_ge. rewrite (rh_history _ Hs). lia. }
  replace (window_hash t (history s)) with (window_hash t (window_at (history s) 0)) by by rewrite Hw0.
  destruct (run_history_spec w 0 s Hs) as [(k & s' & Hr & ?)|[(s' & Hr & ?)|(Hr & Hwl & Hno)]];
    [lia..|intros j Hj; lia| | |].
  - left. exists k, s'. split; [by mrun by exact Hr|done].
  - right. exists s'. split; [by mrun by exact Hr|done].
  - assert (Hcont : ∀ r, (
      '(i, hash) ← rolling_hash2_run_until (len - w) w buffer mask trigger
         (window_hash t (window_at (history s) w));
      if Z.land hash mask =? trigger then
        copy_history buffer (S i) hash;; mret (FINGERPRINT_RET_HIT, S i)
      else copy_history buffer i hash;; mret (FINGERPRINT_RET_MAX, i)) s = r →
      (r ← run_history w 0 buffer len mask trigger (window_hash t (window_at (history s) 0));
       match r with
       | Stop ret offset => mret (ret, offset)
       | Continue hash =>
           '(i, hash) ← rolling_hash2_run_until (len - w) w buffer mask trigger hash;
           if Z.land hash mask =? trigger then
             copy_history buffer (S i) hash;; mret (FINGERPRINT_RET_HIT, S i)
           else copy_history buffer i hash;; mret (FINGERPRINT_RET_MAX, i)
       end) s = r).
    { intros r <-. by mrun by exact Hr. }
    destruct (run_until_spec (len - w) w s Hs) as [(k & Hu & Hk & Hnk & Hhit)|[Hu Hnl]]; [lia..|done| |].
    + left. destruct (copy_history_ok s (S k) _ Hs ltac:(lia) ltac:(lia) eq_refl) as (s' & Hc & Hran).
      exists (S k), s'. split_and!; [|lia|lia| |done|done].
      * apply Hcont. mrun by exact Hu. unfold hit_at in Hhit. rewrite Hhit. by mrun by exact Hc.
      * by rewrite Nat.sub_succ, Nat.sub_0_r.
    + right. destruct (copy_history_ok s len _ Hs ltac:(lia) ltac:(lia) eq_refl) as (s' & Hc & Hran).
      exists s'. split_and!; [|done|done]. apply Hcont. mrun by exact Hu.
      assert (Hhit : hit_at (history s) len = false) by (apply Hnl; lia).
      unfold hit_at in Hhit. rewrite Hhit. by mrun by exact Hc.
Qed.
End run.

(** [rolling_hash2_reset] after [rolling_hash2_init] starts from the given window. *)
Definition rh_tables (t : list Z) (w : nat) (s : rh_state2) : Prop :=
  table1 s = t ∧ table2 s = (λ v, rol64 v (Z.of_nat w)) <$> t ∧ rh_w s = Z.of_nat w.

Lemma rolling_hash2_init_spec t (w : nat) s :
  (w ≤ 48)%nat →
  ∃ s', rolling_hash2_init t (Z.of_nat w) s = (Ok 0, s') ∧ rh_tables t w s'.
Proof.
  intros Hw. eexists. unfold rolling_hash2_init, FINGERPRINT_MAX_WINDOW.
  by replace (48 <? Z.of_nat w) with false by lia.
Qed.

Lemma rolling_hash2_reset_spec t (w : nat) s bytes :
  rh_tables t w s → (w ≤ length bytes)%nat →
  ∃ s', rolling_hash2_reset bytes s = (Ok tt, s') ∧ rh_wf t w s' ∧ history s' = take w bytes.
Proof.
  intros (H1 & H2 & H3) Hb. eexists. unfold rolling_hash2_reset. rewrite bind_get, H3, Nat2Z.id.
  rewrite length_take. replace (Z.of_nat (w `min` length bytes) <? Z.of_nat w) with false by lia.
  split; [done|]. split; [|done]. split; simpl; try done.
  - rewrite length_take. lia.
  - by rewrite H1.
Qed.

Lemma rh_wf_tables t w s : rh_wf t w s → rh_tables t w s.
Proof. by intros []. Qed.
