(* ===== verification/Chunker.v ===== *)
(** chunker.c: cuts a stream into chunks at the positions a rolling hash picks. *)

From S2P Require Import Prelude Monad Checksum RollingHash.

Definition CHUNKER_WINDOW_WIDTH : nat := 32.
Definition CHUNKER_MIN_CHUNK_SIZE : nat := 2 * 1024.
Definition CHUNKER_MAX_CHUNK_SIZE : nat := 24 * 1024.
Definition CHUNKER_MASK : Z := 8191.
Definition CHUNKER_TRIGGER : Z := Z.land 26061973 CHUNKER_MASK.
Definition CHUNKER_FOUND : Z := 0.
Definition CHUNKER_NOT_FOUND : Z := -1.

Record chunker := Chunker {
  chunker_rh : rh_state2;
  retained : list byte; (* char[CHUNKER_MAX_CHUNK_SIZE] *)
  retained_size : nat;  (* uint32_t *)
}.

Definition put_rh (r : rh_state2) (c : chunker) : chunker := Chunker r (retained c) (retained_size c).
#[export] Instance rh_lens : Lens chunker_rh put_rh.
Proof. split; [done..|by intros []]. Qed.
Definition on_rh {A} (m : M rh_state2 A) : M chunker A := zoom chunker_rh put_rh m.

Section chunker.
(** The random table of the rolling hash, and SHA-256. *)
Variable table : list Z.
Variable mh_sha256 : list byte → checksum.

Definition zero_chunker : chunker :=
  Chunker (RhState2 (replicate 48 Byte.x00) (replicate 256 0) (replicate 256 0) 0 0)
          (replicate CHUNKER_MAX_CHUNK_SIZE Byte.x00) 0.

Definition chunker_init : M chunker Z :=
  modify (λ _, zero_chunker);;
  ret ← on_rh (rolling_hash2_init table (Z.of_nat CHUNKER_WINDOW_WIDTH));
  ALWAYS (ret =? 0);;
  mret ret.

(** [memcpy(chunker->retained, buffer, n)]. *)
Definition retain (buffer : list byte) (n : nat) : M chunker unit :=
  if (CHUNKER_MAX_CHUNK_SIZE <? n)%nat then throw OutOfBounds
  else
    bytes ← read_buffer buffer (Z.of_nat n);
    modify (λ c, Chunker (chunker_rh c) (memcpy_to (retained c) bytes) (retained_size c));;
    modify (λ c, Chunker (chunker_rh c) (retained c) n).

(** [buffer] is the bytes from the pointer on.  The result and the chunk reference. *)
Definition chunker_chunk_buffer (buffer : list byte) (buffer_length : nat) : M chunker (Z * chunk_ref) :=
  n ← gets retained_size;
  ALWAYS (Nat.eqb n 0);;
  let ref := chunk_ref_init in
  if (buffer_length <? CHUNKER_MIN_CHUNK_SIZE)%nat then
    retain buffer buffer_length;; mret (CHUNKER_NOT_FOUND, ref)
  else
    on_rh (rolling_hash2_reset (drop (CHUNKER_MIN_CHUNK_SIZE - CHUNKER_WINDOW_WIDTH) buffer));;
    let max_len := if (CHUNKER_MAX_CHUNK_SIZE <=? buffer_length)%nat
                   then (CHUNKER_MAX_CHUNK_SIZE - CHUNKER_MIN_CHUNK_SIZE)%nat
                   else (buffer_length - CHUNKER_MIN_CHUNK_SIZE)%nat in
    '(ret_t, offset) ← on_rh (rolling_hash2_run buffer max_len CHUNKER_MASK CHUNKER_TRIGGER);
    if ret_t =? FINGERPRINT_RET_HIT then
      mret (CHUNKER_FOUND,
            chunk_ref_set mh_sha256 buffer (u32 (Z.of_nat CHUNKER_MIN_CHUNK_SIZE + Z.of_nat offset)))
    else if Nat.eqb max_len (CHUNKER_MAX_CHUNK_SIZE - CHUNKER_MIN_CHUNK_SIZE) then
      mret (CHUNKER_FOUND, chunk_ref_set mh_sha256 buffer (Z.of_nat CHUNKER_MAX_CHUNK_SIZE))
    else
      retain buffer buffer_length;; mret (CHUNKER_NOT_FOUND, ref).

(** The bytes that go to the start of the caller's buffer, and the result. *)
Definition chunker_flush_retained (buffer_length : Z) : M chunker (list byte * Z) :=
  n ← gets retained_size;
  ALWAYS (Z.of_nat n <? buffer_length);;
  if Nat.eqb n 0 then mret ([], 0)
  else
    c ← get;
    modify (λ c, Chunker (chunker_rh c) (retained c) 0);;
    mret (take n (retained c), Z.of_nat n).
End chunker.

(** * What the chunker promises *)
Section spec.
Context (table : list Z) (Htable : Forall word table) (mh_sha256 : list byte → checksum).

(** A chunker that has kept [bytes] of the stream. *)
Record chunker_ok (c : chunker) (bytes : list byte) : Prop := {
  ck_tables : rh_tables table CHUNKER_WINDOW_WIDTH (chunker_rh c);
  ck_array : length (retained c) = CHUNKER_MAX_CHUNK_SIZE;
  ck_kept : retained_size c = length bytes;
  ck_bytes : take (length bytes) (retained c) = bytes;
}.

(** Whether the fingerprint shows after [k] bytes: the window starts with the 32 bytes in
    front of the minimal chunk size. *)
Definition cut_hit (buffer : list byte) (k : nat) : bool :=
  hit_at table CHUNKER_WINDOW_WIDTH buffer CHUNKER_MASK CHUNKER_TRIGGER
    (take CHUNKER_WINDOW_WIDTH (drop (CHUNKER_MIN_CHUNK_SIZE - CHUNKER_WINDOW_WIDTH) buffer)) k.

Definition no_cut (buffer : list byte) (k : nat) : Prop :=
  ∀ j, (1 ≤ j ≤ k)%nat → cut_hit buffer j = false.

(** The size of the first chunk of a buffer. *)
Inductive first_chunk (buffer : list byte) : nat → Prop :=
  | chunk_at_hit k :
      (1 ≤ k ≤ CHUNKER_MAX_CHUNK_SIZE - CHUNKER_MIN_CHUNK_SIZE)%nat →
      (CHUNKER_MIN_CHUNK_SIZE + k ≤ length buffer)%nat →
      cut_hit buffer k = true → no_cut buffer (k - 1) →
      first_chunk buffer (CHUNKER_MIN_CHUNK_SIZE + k)
  | chunk_at_max :
      (CHUNKER_MAX_CHUNK_SIZE ≤ length buffer)%nat →
      no_cut buffer (CHUNKER_MAX_CHUNK_SIZE - CHUNKER_MIN_CHUNK_SIZE) →
      first_chunk buffer CHUNKER_MAX_CHUNK_SIZE.

Lemma first_chunk_bounds buffer n :
  first_chunk buffer n →
  (CHUNKER_MIN_CHUNK_SIZE < n ≤ CHUNKER_MAX_CHUNK_SIZE)%nat ∧ (n ≤ length buffer)%nat.
Proof. unfold CHUNKER_MIN_CHUNK_SIZE, CHUNKER_MAX_CHUNK_SIZE. intros []; unfold CHUNKER_MIN_CHUNK_SIZE, CHUNKER_MAX_CHUNK_SIZE in *; lia. Qed.

Lemma first_chunk_unique buffer n m : first_chunk buffer n → first_chunk buffer m → n = m.
Proof.
  intros [k Hk Hb Hh Hno|Hb Hno] [k' Hk' Hb' Hh' Hno'|Hb' Hno']; try done.
  - f_equal. destruct (Nat.lt_trichotomy k k') as [Hlt|[Heq|Hlt]]; [|done|].
    + specialize (Hno' k ltac:(lia)). congruence.
    + specialize (Hno k' ltac:(lia)). congruence.
  - specialize (Hno' k ltac:(lia)). congruence.
  - specialize (Hno k' ltac:(lia)). congruence.
Qed.

Lemma chunker_init_spec c :
  ∃ c', chunker_init table c = (Ok 0, c') ∧ chunker_ok c' [].
Proof.
  destruct (rolling_hash2_init_spec table CHUNKER_WINDOW_WIDTH (chunker_rh zero_chunker))
    as (s' & Hr & Ht); [unfold CHUNKER_WINDOW_WIDTH; lia|].
  exists (put_rh s' zero_chunker). split.
  - unfold chunker_init. mnorm. mrun by (apply zoom_ok; exact Hr). done.
  - split; [done|apply length_replicate|done|done].
Qed.

Lemma retain_ok c buffer n :
  length (retained c) = CHUNKER_MAX_CHUNK_SIZE → rh_tables table CHUNKER_WINDOW_WIDTH (chunker_rh c) →
  (n ≤ CHUNKER_MAX_CHUNK_SIZE)%nat → (n ≤ length buffer)%nat →
  ∃ c', retain buffer n c = (Ok tt, c') ∧ chunker_ok c' (take n buffer).
Proof.
  intros Hl Ht Hn Hb. eexists. split.
  - unfold retain. destruct (Nat.ltb_spec CHUNKER_MAX_CHUNK_SIZE n); [lia|].
    mrun by (apply read_buffer_ok; lia). rewrite Nat2Z.id. done.
  - unfold memcpy_to. split; simpl; [done| |by rewrite length_take; lia|].
    + rewrite length_app, length_drop, Hl, length_take. lia.
    + by rewrite take_app_length.
Qed.

(** Keeping the whole of a short buffer. *)
Lemma keep_buffer c buffer :
  length (retained c) = CHUNKER_MAX_CHUNK_SIZE → rh_tables table CHUNKER_WINDOW_WIDTH (chunker_rh c) →
  (length buffer < CHUNKER_MAX_CHUNK_SIZE)%nat →
  ∃ c', (retain buffer (length buffer);; mret (CHUNKER_NOT_FOUND, chunk_ref_init)) c =
    (Ok (CHUNKER_NOT_FOUND, chunk_ref_init), c') ∧ chunker_ok c' buffer.
Proof.
  intros Hl Ht Hlt. destruct (retain_ok c buffer (length buffer) Hl Ht) as (c' & Hr & Hok); [lia..|].
  rewrite firstn_all in Hok. exists c'. by mrun by exact Hr.
Qed.

(** How far [chunker_chunk_buffer] searches. *)
Lemma max_len_spec n :
  let max_len := if (CHUNKER_MAX_CHUNK_SIZE <=? n)%nat then (CHUNKER_MAX_CHUNK_SIZE - CHUNKER_MIN_CHUNK_SIZE)%nat
                 else (n - CHUNKER_MIN_CHUNK_SIZE)%nat in
  (max_len ≤ n - CHUNKER_MIN_CHUNK_SIZE)%nat ∧
  (max_len ≤ CHUNKER_MAX_CHUNK_SIZE - CHUNKER_MIN_CHUNK_SIZE)%nat ∧
  ((CHUNKER_MIN_CHUNK_SIZE ≤ n)%nat →
   max_len = CHUNKER_MAX_CHUNK_SIZE - CHUNKER_MIN_CHUNK_SIZE ↔ CHUNKER_MAX_CHUNK_SIZE ≤ n)%nat ∧
  ((n < CHUNKER_MAX_CHUNK_SIZE)%nat → max_len = n - CHUNKER_MIN_CHUNK_SIZE)%nat.
Proof.
  unfold CHUNKER_MAX_CHUNK_SIZE, CHUNKER_MIN_CHUNK_SIZE in *. destruct (Nat.leb_spec (24 * 1024) n); lia.
Qed.

(** A chunk is found, at the first cut, or the whole buffer is kept. *)
Lemma chunker_chunk_buffer_spec c buffer :
  chunker_ok c [] → Z.of_nat (length buffer) < 4294967296 →
  (∃ n c', chunker_chunk_buffer mh_sha256 buffer (length buffer) c =
             (Ok (CHUNKER_FOUND, ChunkRef (mh_sha256 (take n buffer)) (Some buffer) (Z.of_nat n)), c')
     ∧ first_chunk buffer n ∧ chunker_ok c' []) ∨
  (∃ c', chunker_chunk_buffer mh_sha256 buffer (length buffer) c =
           (Ok (CHUNKER_NOT_FOUND, chunk_ref_init), c')
     ∧ (length buffer < CHUNKER_MAX_CHUNK_SIZE)%nat
     ∧ no_cut buffer (length buffer - CHUNKER_MIN_CHUNK_SIZE)
     ∧ chunker_ok c' buffer).
Proof.
  intros [Ht Ha Hk _] Hlen. unfold chunker_chunk_buffer. rewrite bind_gets, Hk. cbn [length].
  rewrite bind_ALWAYS by done. cbv zeta.
  destruct (Nat.ltb_spec (length buffer) CHUNKER_MIN_CHUNK_SIZE) as [Hsmall|Hmin].
  { right. destruct (keep_buffer c buffer) as (c' & Hr & Hok); [done..| |].
    { unfold CHUNKER_MAX_CHUNK_SIZE, CHUNKER_MIN_CHUNK_SIZE in *. lia. }
    exists c'. split_and!; [done| | |done].
    - unfold CHUNKER_MAX_CHUNK_SIZE, CHUNKER_MIN_CHUNK_SIZE in *. lia.
    - intros j Hj. lia. }
  destruct (rolling_hash2_reset_spec table CHUNKER_WINDOW_WIDTH (chunker_rh c)
    (drop (CHUNKER_MIN_CHUNK_SIZE - CHUNKER_WINDOW_WIDTH) buffer) Ht) as (s1 & Hreset & Hs1 & Hh1).
  { rewrite length_drop. unfold CHUNKER_WINDOW_WIDTH, CHUNKER_MIN_CHUNK_SIZE in *. lia. }
  mrun by (apply zoom_ok; exact Hreset).
  set (max_len := if (CHUNKER_MAX_CHUNK_SIZE <=? length buffer)%nat then _ else _).
  destruct (max_len_spec (length buffer)) as (Hm1 & Hm2 & Hm3 & Hm4). specialize (Hm3 Hmin). fold max_len in Hm1, Hm2, Hm3, Hm4.
  assert (Hw : (1 ≤ CHUNKER_WINDOW_WIDTH ≤ 48)%nat) by (unfold CHUNKER_WINDOW_WIDTH; lia).
  set (c1 := put_rh s1 c).
  destruct (rolling_hash2_run_spec table Htable CHUNKER_WINDOW_WIDTH Hw buffer max_len CHUNKER_MASK
    CHUNKER_TRIGGER (chunker_rh c1) Hs1) as [(k & s2 & Hrun & Hk1 & Hno & Hhit & Hran)|(s2 & Hrun & Hno & Hran)];
    [lia| |]; change (history (chunker_rh c1)) with (history s1) in *; rewrite Hh1 in *.
  - left. exists (CHUNKER_MIN_CHUNK_SIZE + k)%nat, (put_rh s2 c1). split_and!.
    + mrun by (apply zoom_ok; exact Hrun). cbn [Z.eqb]. unfold chunk_ref_set, checksum_gen.
      assert (Hid : u32 (Z.of_nat CHUNKER_MIN_CHUNK_SIZE + Z.of_nat k) = Z.of_nat (CHUNKER_MIN_CHUNK_SIZE + k)).
      { rewrite u32_id; lia. }
      rewrite Hid, !u32_id by lia. by rewrite Nat2Z.id.
    + apply chunk_at_hit; [lia|lia|exact Hhit|exact Hno].
    + split; [|done|done|done]. eapply rh_wf_tables, Hran.
  - destruct (decide (CHUNKER_MAX_CHUNK_SIZE ≤ length buffer)%nat) as [Hbig|Hsmall].
    + left. exists CHUNKER_MAX_CHUNK_SIZE, (put_rh s2 c1). apply Hm3 in Hbig as Heq.
      split_and!.
      * mrun by (apply zoom_ok; exact Hrun). rewrite Heq, Nat.eqb_refl. cbn [Z.eqb].
        unfold chunk_ref_set, checksum_gen. assert (Hid : u32 (Z.of_nat CHUNKER_MAX_CHUNK_SIZE) = Z.of_nat CHUNKER_MAX_CHUNK_SIZE) by by vm_compute.
        by rewrite !Hid, Nat2Z.id.
      * apply chunk_at_max; [done|]. rewrite <-Heq. exact Hno.
      * split; [|done|done|done]. eapply rh_wf_tables, Hran.
    + right. destruct (keep_buffer (put_rh s2 c1) buffer) as (c' & Hr & Hok); [done|eapply rh_wf_tables, Hran|lia|].
      exists c'. split_and!; [|lia| |done].
      * mrun by (apply zoom_ok; exact Hrun). cbn [Z.eqb].
        destruct (Nat.eqb_spec max_len (CHUNKER_MAX_CHUNK_SIZE - CHUNKER_MIN_CHUNK_SIZE)); [lia|done].
      * rewrite <-Hm4 by lia. exact Hno.
Qed.

Lemma chunker_flush_retained_spec c bytes n :
  chunker_ok c bytes → Z.of_nat (length bytes) < n →
  ∃ c', chunker_flush_retained n c = (Ok (bytes, Z.of_nat (length bytes)), c') ∧ chunker_ok c' [].
Proof.
  intros [Ht Ha Hk Hb] Hn. unfold chunker_flush_retained. rewrite bind_gets, Hk, bind_ALWAYS by lia.
  destruct (Nat.eqb_spec (length bytes) 0) as [Hz|Hz].
  - destruct bytes; [|done]. by exists c.
  - eexists. rewrite bind_get, bind_modify, Hb. split; [done|]. by split.
Qed.
End spec.
