(* ===== verification/ChunkerTheorems.v ===== *)
(** The properties of the rolling hash and of the chunker. *)

From S2P Require Import Prelude Monad Checksum RollingHash Chunker.

(** * What a chunk depends on *)
Section prefix.
Context (table : list Z).

Lemma window_at_prefix w b1 b2 h k :
  length h = w → take k b1 = take k b2 → window_at w b1 h k = window_at w b2 h k.
Proof.
  intros Hh Hk. unfold window_at.
  assert (Hcut : ∀ b, take w (drop k (h ++ b)) = drop k (h ++ take k b)).
  { intros b. rewrite take_drop_commute, take_app, Hh, (take_ge h) by lia. do 3 f_equal. lia. }
  by rewrite !Hcut, Hk.
Qed.

Lemma cut_hit_prefix b1 b2 n k :
  take n b1 = take n b2 → (CHUNKER_MIN_CHUNK_SIZE ≤ n)%nat → (k ≤ n)%nat → (n ≤ length b1)%nat →
  cut_hit table b1 k = cut_hit table b2 k.
Proof.
  intros Hn Hmin Hk Hl. unfold cut_hit, hit_at.
  assert (Hwin : ∀ b : list byte, take CHUNKER_WINDOW_WIDTH (drop (CHUNKER_MIN_CHUNK_SIZE - CHUNKER_WINDOW_WIDTH) b) =
    drop (CHUNKER_MIN_CHUNK_SIZE - CHUNKER_WINDOW_WIDTH) (take CHUNKER_MIN_CHUNK_SIZE (take n b))).
  { intros b. rewrite take_take, Nat.min_l by done. rewrite take_drop_commute. do 2 f_equal. }
  rewrite !Hwin, Hn. rewrite (window_at_prefix CHUNKER_WINDOW_WIDTH b1 b2); [done| |].
  - rewrite length_drop, length_take, <-Hn, length_take. unfold CHUNKER_MIN_CHUNK_SIZE, CHUNKER_WINDOW_WIDTH in *. lia.
  - rewrite <-(Nat.min_l k n), <-!take_take, Hn by done. done.
Qed.

Lemma first_chunk_prefix b1 b2 n :
  first_chunk table b1 n → take n b1 = take n b2 → (n ≤ length b2)%nat → first_chunk table b2 n.
Proof.
  intros Hfc Hn Hl. destruct (first_chunk_bounds _ _ _ Hfc) as [Hb Hl1].
  assert (Hcut : ∀ k, (k ≤ n)%nat → cut_hit table b1 k = cut_hit table b2 k).
  { intros k Hk. eapply (cut_hit_prefix b1 b2 n); [done|lia|lia|lia]. }
  destruct Hfc as [k Hk Hlen Hhit Hno|Hlen Hno].
  - apply chunk_at_hit; [done|done|by rewrite <-Hcut by lia|].
    intros j Hj. rewrite <-Hcut by lia. by apply Hno.
  - apply chunk_at_max; [done|]. intros j Hj. rewrite <-Hcut by (unfold CHUNKER_MIN_CHUNK_SIZE in *; lia).
    by apply Hno.
Qed.

(** The fingerprint after [k] bytes, once the bytes in front of the minimal size have left
    the window. *)
Lemma cut_hit_window buffer k :
  (CHUNKER_WINDOW_WIDTH ≤ k)%nat → (CHUNKER_MIN_CHUNK_SIZE ≤ length buffer)%nat →
  cut_hit table buffer k =
  (Z.land (window_hash table (take CHUNKER_WINDOW_WIDTH (drop (k - CHUNKER_WINDOW_WIDTH) buffer))) CHUNKER_MASK
     =? CHUNKER_TRIGGER).
Proof.
  intros Hk Hl. unfold cut_hit, hit_at, window_at.
  set (h := take CHUNKER_WINDOW_WIDTH (drop _ buffer)).
  assert (Hh : length h = CHUNKER_WINDOW_WIDTH).
  { unfold h. rewrite length_take, length_drop. unfold CHUNKER_MIN_CHUNK_SIZE, CHUNKER_WINDOW_WIDTH in *. lia. }
  by rewrite drop_app_ge, Hh by lia.
Qed.
End prefix.

(** * A small table *)

(** A table of the rolling hash with which every byte [x41] that enters the window is a
    cut, and a digest of 32 bytes. *)
Definition demo_table : list Z :=
  (λ i, if Nat.eqb i 65 then CHUNKER_TRIGGER else 0) <$> seq 0 256.
Definition demo_digest (bytes : list byte) : checksum :=
  take 32 (bytes ++ replicate 32 Byte.x00).

Lemma demo_table_words : Forall word demo_table.
Proof.
  unfold demo_table. apply Forall_forall. intros v Hv. apply list_elem_of_fmap in Hv as (i & -> & _).
  by destruct (Nat.eqb i 65).
Qed.

Definition demo_chunker : chunker := (chunker_init demo_table zero_chunker).2.

Lemma demo_chunker_ok : chunker_ok demo_table demo_chunker [].
Proof.
  unfold demo_chunker. destruct (chunker_init_spec demo_table zero_chunker) as (c' & Hr & Hok).
  by rewrite Hr.
Qed.

(** * The rolling hash *)

(** C26: [rolling_hash2_run] stops behind the first byte at which the hash of the last [w]
    bytes of the stream, computed anew from these bytes alone, has the trigger in the bits
    of the mask, and it has then consumed exactly the bytes up to there; without such a
    byte it consumes the whole buffer.  The rolling update is never observable, and no
    byte outside of the buffer is read. *)
Theorem rolling_hash2_run_first table (w : nat) buffer len mask trigger s :
  Forall word table → (1 ≤ w ≤ 48)%nat → rh_wf table w s → (len ≤ length buffer)%nat →
  (∃ k s', rolling_hash2_run buffer len mask trigger s = (Ok (FINGERPRINT_RET_HIT, k), s')
     ∧ (1 ≤ k ≤ len)%nat ∧ no_hit table w buffer mask trigger (history s) (k - 1)
     ∧ hit_at table w buffer mask trigger (history s) k = true ∧ ran table w buffer s k s') ∨
  (∃ s', rolling_hash2_run buffer len mask trigger s = (Ok (FINGERPRINT_RET_MAX, len), s')
     ∧ no_hit table w buffer mask trigger (history s) len ∧ ran table w buffer s len s').
Proof. intros Ht Hw Hs Hl. by apply rolling_hash2_run_spec. Qed.

Definition demo_state : rh_state2 :=
  (rolling_hash2_reset (replicate 4 Byte.x10)
     (rolling_hash2_init demo_table 4 (RhState2 [] [] [] 0 0)).2).2.

Lemma rolling_hash2_run_first_witness :
  let buffer := replicate 9 Byte.x20 ++ [Byte.x41; Byte.x20] in
  (∃ k s', rolling_hash2_run buffer 11 CHUNKER_MASK CHUNKER_TRIGGER demo_state = (Ok (FINGERPRINT_RET_HIT, k), s')
     ∧ (1 ≤ k ≤ 11)%nat ∧ no_hit demo_table 4 buffer CHUNKER_MASK CHUNKER_TRIGGER (history demo_state) (k - 1)
     ∧ hit_at demo_table 4 buffer CHUNKER_MASK CHUNKER_TRIGGER (history demo_state) k = true
     ∧ ran demo_table 4 buffer demo_state k s') ∨
  (∃ s', rolling_hash2_run buffer 11 CHUNKER_MASK CHUNKER_TRIGGER demo_state = (Ok (FINGERPRINT_RET_MAX, 11%nat), s')
     ∧ no_hit demo_table 4 buffer CHUNKER_MASK CHUNKER_TRIGGER (history demo_state) 11
     ∧ ran demo_table 4 buffer demo_state 11 s').
Proof.
  apply (rolling_hash2_run_first demo_table 4 _ 11);
    [exact demo_table_words|lia|split; reflexivity|simpl; lia].
Defined.

(** * The chunker *)

(** C24: [chunker_chunk_buffer] finds the one chunk a buffer starts with, of more than
    [CHUNKER_MIN_CHUNK_SIZE] and at most [CHUNKER_MAX_CHUNK_SIZE] bytes, with the digest of
    exactly these bytes, or keeps a buffer that is shorter than the maximum and has no cut. *)
Theorem chunker_cuts table mh_sha256 c buffer :
  Forall word table → chunker_ok table c [] → Z.of_nat (length buffer) < 4294967296 →
  (∃ n c', chunker_chunk_buffer mh_sha256 buffer (length buffer) c =
             (Ok (CHUNKER_FOUND, ChunkRef (mh_sha256 (take n buffer)) (Some buffer) (Z.of_nat n)), c')
     ∧ first_chunk table buffer n ∧ (∀ m, first_chunk table buffer m → m = n)
     ∧ (CHUNKER_MIN_CHUNK_SIZE < n ≤ CHUNKER_MAX_CHUNK_SIZE)%nat ∧ (n ≤ length buffer)%nat ∧ chunker_ok table c' []) ∨
  (∃ c', chunker_chunk_buffer mh_sha256 buffer (length buffer) c =
           (Ok (CHUNKER_NOT_FOUND, chunk_ref_init), c')
     ∧ (length buffer < CHUNKER_MAX_CHUNK_SIZE)%nat ∧ no_cut table buffer (length buffer - CHUNKER_MIN_CHUNK_SIZE)
     ∧ chunker_ok table c' buffer).
Proof.
  intros Ht Hc Hlen. destruct (chunker_chunk_buffer_spec table Ht mh_sha256 c buffer Hc Hlen)
    as [(n & c' & Hr & Hfc & Hok)|(c' & Hr & Hl & Hno & Hok)].
  - left. exists n, c'. destruct (first_chunk_bounds _ _ _ Hfc) as [Hb Hl].
    split_and!; [done|done| |apply Hb|apply Hb|done|done].
    intros m Hm. exact (first_chunk_unique _ _ _ _ Hm Hfc).
  - right. by exists c'.
Qed.

Lemma chunker_cuts_witness :
  let buffer := replicate 3000 Byte.x20 ++ [Byte.x41] in let c := demo_chunker in
  (∃ n c', chunker_chunk_buffer demo_digest buffer (length buffer) c =
             (Ok (CHUNKER_FOUND, ChunkRef (demo_digest (take n buffer)) (Some buffer) (Z.of_nat n)), c')
     ∧ first_chunk demo_table buffer n ∧ (∀ m, first_chunk demo_table buffer m → m = n)
     ∧ (CHUNKER_MIN_CHUNK_SIZE < n ≤ CHUNKER_MAX_CHUNK_SIZE)%nat ∧ (n ≤ length buffer)%nat ∧ chunker_ok demo_table c' []) ∨
  (∃ c', chunker_chunk_buffer demo_digest buffer (length buffer) c =
           (Ok (CHUNKER_NOT_FOUND, chunk_ref_init), c')
     ∧ (length buffer < CHUNKER_MAX_CHUNK_SIZE)%nat ∧ no_cut demo_table buffer (length buffer - CHUNKER_MIN_CHUNK_SIZE)
     ∧ chunker_ok demo_table c' buffer).
Proof.
  apply (chunker_cuts demo_table demo_digest);
    [exact demo_table_words|exact demo_chunker_ok|vm_compute; reflexivity].
Defined.

(** C25: deduplication: a chunk is decided by its own bytes.  When two buffers, cut by any
    two chunkers, start with the bytes of the chunk of the first, both give a chunk of the
    same size and digest. *)
Theorem chunker_content_defined table mh_sha256 c1 c2 b1 b2 n d c1' :
  Forall word table → chunker_ok table c1 [] → chunker_ok table c2 [] →
  Z.of_nat (length b1) < 4294967296 → Z.of_nat (length b2) < 4294967296 →
  chunker_chunk_buffer mh_sha256 b1 (length b1) c1 = (Ok (CHUNKER_FOUND, ChunkRef d (Some b1) n), c1') →
  take (Z.to_nat n) b1 = take (Z.to_nat n) b2 → n ≤ Z.of_nat (length b2) →
  ∃ c2', chunker_chunk_buffer mh_sha256 b2 (length b2) c2 = (Ok (CHUNKER_FOUND, ChunkRef d (Some b2) n), c2').
Proof.
  intros Ht Hc1 Hc2 Hl1 Hl2 Hr Heq Hn.
  destruct (chunker_chunk_buffer_spec table Ht mh_sha256 c1 b1 Hc1 Hl1)
    as [(n1 & c' & Hr1 & Hfc1 & _)|(c' & Hr1 & _)]; rewrite Hr in Hr1; [|done].
  injection Hr1 as -> -> ->. rewrite Nat2Z.id in Heq.
  pose proof (first_chunk_prefix table b1 b2 n1 Hfc1 Heq ltac:(lia)) as Hfc.
  destruct (chunker_chunk_buffer_spec table Ht mh_sha256 c2 b2 Hc2 Hl2)
    as [(n2 & c2' & Hr2 & Hfc2 & _)|(c2' & Hr2 & Hlt & Hno & _)].
  - rewrite (first_chunk_unique _ _ _ _ Hfc2 Hfc) in Hr2. exists c2'. by rewrite Hr2, Heq.
  - destruct Hfc as [k Hk Hb Hhit _|Hb _]; [|lia]. rewrite Hno in Hhit; [done|lia].
Qed.

Lemma chunker_content_defined_witness :
  let b1 := replicate CHUNKER_MAX_CHUNK_SIZE Byte.x20 in
  let b2 := b1 ++ replicate 100 Byte.x41 in
  ∃ d n c2', chunker_chunk_buffer demo_digest b2 (length b2) demo_chunker =
    (Ok (CHUNKER_FOUND, ChunkRef d (Some b2) n), c2').
Proof.
  intros b1 b2. assert (Hb1 : length b1 = CHUNKER_MAX_CHUNK_SIZE) by apply length_replicate.
  assert (Hb2 : length b2 = (CHUNKER_MAX_CHUNK_SIZE + 100)%nat) by (unfold b2; by rewrite length_app, Hb1).
  assert (Hl1 : Z.of_nat (length b1) < 4294967296) by (rewrite Hb1; unfold CHUNKER_MAX_CHUNK_SIZE; lia).
  destruct (chunker_chunk_buffer_spec demo_table demo_table_words demo_digest demo_chunker b1
    demo_chunker_ok Hl1) as [(n & c1' & Hr & Hfc & _)|(c1' & _ & Hlt & _)]; [|lia].
  destruct (first_chunk_bounds _ _ _ Hfc) as [_ Hn].
  exists (demo_digest (take n b1)), (Z.of_nat n).
  refine (chunker_content_defined demo_table demo_digest demo_chunker demo_chunker b1 b2 _ _ c1'
    demo_table_words demo_chunker_ok demo_chunker_ok Hl1 _ Hr _ _).
  - rewrite Hb2. unfold CHUNKER_MAX_CHUNK_SIZE. lia.
  - rewrite Nat2Z.id. unfold b2. by rewrite take_app_le by lia.
  - lia.
Defined.

(** C33: what the chunker keeps comes back byte for byte: after [CHUNKER_NOT_FOUND],
    [chunker_flush_retained] with a larger buffer gives the caller the whole buffer again
    and leaves the chunker ready for the next call. *)
Theorem chunker_keeps_rest table mh_sha256 c buffer ref c1 n :
  Forall word table → chunker_ok table c [] → Z.of_nat (length buffer) < n < 4294967296 →
  chunker_chunk_buffer mh_sha256 buffer (length buffer) c = (Ok (CHUNKER_NOT_FOUND, ref), c1) →
  ∃ c2, chunker_flush_retained n c1 = (Ok (buffer, Z.of_nat (length buffer)), c2) ∧ chunker_ok table c2 [].
Proof.
  intros Ht Hc Hlen Hr.
  destruct (chunker_chunk_buffer_spec table Ht mh_sha256 c buffer Hc) as [(m & c' & Hr' & _)|(c' & Hr' & _ & _ & Hok)];
    [lia|..]; rewrite Hr in Hr'; [done|].
  injection Hr' as _ ->. apply chunker_flush_retained_spec; [done|lia].
Qed.

Lemma chunker_keeps_rest_witness :
  let buffer := replicate 100 Byte.x20 in
  ∃ c1 c2, chunker_flush_retained 4096 c1 = (Ok (buffer, 100), c2) ∧ chunker_ok demo_table c2 [].
Proof.
  intros buffer.
  destruct (chunker_chunk_buffer_spec demo_table demo_table_words demo_digest demo_chunker buffer
    demo_chunker_ok eq_refl) as [(n & c1 & _ & Hfc & _)|(c1 & Hr & _)].
  - destruct (first_chunk_bounds _ _ _ Hfc) as [Hb Hn]. change (length buffer) with 100%nat in Hn.
    unfold CHUNKER_MIN_CHUNK_SIZE in Hb. lia.
  - exists c1. refine (chunker_keeps_rest demo_table demo_digest demo_chunker buffer _ c1 4096
      demo_table_words demo_chunker_ok _ Hr). vm_compute. split; congruence.
Defined.

(** C38: a cut behind [CHUNKER_MIN_CHUNK_SIZE + k] bytes is decided by the 32 bytes in
    front of byte [k], which are [CHUNKER_MIN_CHUNK_SIZE] bytes away from it: the rolling
    hash is reset on the bytes in front of the minimal size, but run from the start of the
    buffer on. *)
Theorem chunker_window_behind table mh_sha256 c buffer d p k c' :
  Forall word table → chunker_ok table c [] → Z.of_nat (length buffer) < 4294967296 →
  chunker_chunk_buffer mh_sha256 buffer (length buffer) c =
    (Ok (CHUNKER_FOUND, ChunkRef d p (Z.of_nat (CHUNKER_MIN_CHUNK_SIZE + k))), c') →
  (CHUNKER_WINDOW_WIDTH ≤ k < CHUNKER_MAX_CHUNK_SIZE - CHUNKER_MIN_CHUNK_SIZE)%nat →
  Z.land (window_hash table (take CHUNKER_WINDOW_WIDTH (drop (k - CHUNKER_WINDOW_WIDTH) buffer))) CHUNKER_MASK =
    CHUNKER_TRIGGER.
Proof.
  intros Ht Hc Hlen Hr Hk. destruct (chunker_chunk_buffer_spec table Ht mh_sha256 c buffer Hc Hlen)
    as [(n & c1 & Hr' & Hfc & _)|(c1 & Hr' & _)]; rewrite Hr in Hr'; [|done].
  apply (f_equal (λ r, match r.1 with Ok (_, ref) => chunk_ref_buffer_size ref | Err _ => 0 end)) in Hr'.
  apply Nat2Z.inj in Hr' as Hn. destruct (first_chunk_bounds _ _ _ Hfc) as [_ Hl].
  revert Hn Hl. destruct Hfc as [j Hj Hb Hhit _|Hb _]; intros Hn Hl; [|lia].
  assert (j = k) as -> by lia. rewrite cut_hit_window in Hhit by lia. by apply Z.eqb_eq.
Qed.

(** The only byte that cuts is the 33rd: the chunk ends 2048 bytes behind it. *)
Definition behind_buffer : list byte := replicate 32 Byte.x20 ++ Byte.x41 :: replicate 2100 Byte.x20.

Lemma behind_first_chunk : first_chunk demo_table behind_buffer (CHUNKER_MIN_CHUNK_SIZE + 33).
Proof.
  assert (Hl : length behind_buffer = 2133%nat) by reflexivity.
  apply chunk_at_hit; rewrite ?Hl; unfold CHUNKER_MIN_CHUNK_SIZE, CHUNKER_MAX_CHUNK_SIZE; [lia|lia|vm_compute; reflexivity|].
  assert (Hall : forallb (λ j, negb (cut_hit demo_table behind_buffer j)) (seq 1 32) = true) by (vm_compute; reflexivity).
  intros j Hj. rewrite forallb_forall in Hall. specialize (Hall j).
  rewrite in_seq in Hall. by apply negb_true_iff, Hall; lia.
Qed.

Lemma chunker_window_behind_witness :
  Z.land (window_hash demo_table (take CHUNKER_WINDOW_WIDTH (drop (33 - CHUNKER_WINDOW_WIDTH) behind_buffer)))
    CHUNKER_MASK = CHUNKER_TRIGGER.
Proof.
  assert (Hlen : Z.of_nat (length behind_buffer) < 4294967296) by reflexivity.
  destruct (chunker_chunk_buffer_spec demo_table demo_table_words demo_digest demo_chunker behind_buffer
    demo_chunker_ok Hlen) as [(n & c1 & Hr & Hfc & _)|(c1 & _ & _ & Hno & _)].
  - rewrite (first_chunk_unique _ _ _ _ Hfc behind_first_chunk) in Hr.
    apply (chunker_window_behind demo_table demo_digest demo_chunker behind_buffer _ _ 33 c1
      demo_table_words demo_chunker_ok Hlen Hr).
    unfold CHUNKER_WINDOW_WIDTH, CHUNKER_MAX_CHUNK_SIZE, CHUNKER_MIN_CHUNK_SIZE. lia.
  - assert (Hhit : cut_hit demo_table behind_buffer 33 = true) by (vm_compute; reflexivity).
    rewrite Hno in Hhit; [done|]. change (length behind_buffer) with 2133%nat.
    unfold CHUNKER_MIN_CHUNK_SIZE. lia.
Defined.
