(* ===== verification/ChunkStore.v ===== *)
(** The interface between the streamer and the cache: what a client of
    [cache_manager_has_chunk] and [cache_manager_add_chunk] may rely on. *)

From S2P Require Import Prelude Monad Checksum.

(** The operations of a store over the state [S].  [store_rep s f]: the state is
    consistent and holds the chunks of [f]. *)
Class ChunkStore (S : Type) := {
  store_has : checksum → M S bool;
  store_add : checksum → list byte → Z → M S bool;
  store_rep : S → (checksum → option (list byte)) → Prop;
  store_size_ok : Z → Prop;
}.

(** A store answers for what it holds and adds nothing but what it is given; adding may
    drop chunks, or stop the process. *)
Class ChunkStoreLaws (S : Type) `{ChunkStore S} : Prop := {
  store_has_law (s : S) f c :
    store_rep s f → checksum_wf c → store_has c s = (Ok (bool_decide (is_Some (f c))), s);
  store_add_law (s : S) f c buffer n :
    store_rep s f → checksum_wf c → store_size_ok n → n ≤ Z.of_nat (length buffer) →
    (∃ s', store_add c buffer n s = (Err AssertFail, s')) ∨
    (∃ b s' f', store_add c buffer n s = (Ok b, s') ∧ store_rep s' f'
       ∧ ∀ c' d, f' c' = Some d → f c' = Some d ∨ c' = c ∧ d = take (Z.to_nat n) buffer);
}.

(** The store that keeps everything: a finite map. *)
#[global] Instance map_store : ChunkStore (gmap checksum (list byte)) := {
  store_has c := gets (λ s, bool_decide (is_Some (s !! c)));
  store_add c buffer n :=
    has ← gets (λ s, bool_decide (is_Some (s !! c)));
    if (has : bool) then mret false
    else modify (λ s, <[c := take (Z.to_nat n) buffer]> s);; mret true;
  store_rep s f := ∀ c, f c = s !! c;
  store_size_ok _ := True;
}.

#[global] Instance map_store_laws : ChunkStoreLaws (gmap checksum (list byte)).
Proof.
  split.
  - intros s f c Hf _. simpl. by rewrite Hf.
  - intros s f c buffer n Hf _ _ _. right. unfold store_add, map_store. rewrite bind_gets.
    destruct (bool_decide (is_Some (s !! c))); [exists false, s, f; by split_and!; [..|left]|].
    mnorm. eexists true, _, (λ c', <[c := take (Z.to_nat n) buffer]> s !! c'). split_and!; [done..|].
    intros c' d [[<- <-]|[_ Hd]]%lookup_insert_Some; [by right|left; by rewrite Hf].
Qed.
