(* ===== verification/CacheStore.v ===== *)
(** The cache and the cache manager as stores of chunks: what chunk_streamer.c relies on. *)

From S2P Require Import Prelude Monad Checksum CellSpec Cache CacheSpec CacheManager ChunkStore.

Section store.
Context (smin smax : Z).

#[global] Instance cache_store : ChunkStore cache := {
  store_has := cache_has_chunk;
  store_add := cache_add_chunk;
  store_rep c f := ∃ ls, cache_inv smin smax c ls ∧ ∀ s, f s = cache_lookup c ls s;
  store_size_ok n := smin ≤ n ≤ smax;
}.

#[global] Instance cache_store_laws : ChunkStoreLaws cache.
Proof.
  split.
  - intros c f s (ls & Hinv & Hf) Hs. rewrite Hf. by apply (cache_has_chunk_spec smin smax).
  - intros c f s buffer n (ls & Hinv & Hf) Hs Hn Hb.
    destruct (cache_add_chunk_spec smin smax c ls s buffer n Hinv) as
      [(c' & Hr & _)|(b & c' & ls' & Hr & Hinv' & _ & _ & Hl)]; [by split|left; by exists c'|].
    right. exists b, c', (cache_lookup c' ls'). split_and!; [done|by exists ls'|].
    intros s' d Hd. rewrite Hf. by apply Hl.
Qed.
End store.

(** The manager passes the calls on. *)
Section manager.
Context {OS : Type} (smin smax : Z).

#[global] Instance manager_store : ChunkStore (cache_manager * OS) := {
  store_has := cache_manager_has_chunk;
  store_add := cache_manager_add_chunk;
  store_rep m f := @store_rep _ (cache_store smin smax) (cm_cache m.1) f;
  store_size_ok n := smin ≤ n ≤ smax;
}.

Lemma on_cache_run {A} (x : M cache A) (m : cache_manager) (o : OS) r c' :
  x (cm_cache m) = (r, c') → on_cache x (m, o) = (r, (put_cache c' m, o)).
Proof.
  intros Hx. unfold on_cache, on_manager. by erewrite zoom_run by (eapply zoom_run; exact Hx).
Qed.

#[global] Instance manager_store_laws : ChunkStoreLaws (cache_manager * OS).
Proof.
  split.
  - intros [m o] f s Hf Hs. simpl in *. unfold cache_manager_has_chunk.
    rewrite (on_cache_run _ _ _ _ _ (store_has_law (ChunkStoreLaws := cache_store_laws smin smax) _ _ _ Hf Hs)).
    by destruct m.
  - intros [m o] f s buffer n Hf Hs Hn Hb. simpl in *. unfold cache_manager_add_chunk.
    destruct (store_add_law (ChunkStoreLaws := cache_store_laws smin smax) _ _ _ _ _ Hf Hs Hn Hb) as
      [(c' & Hr)|(b & c' & f' & Hr & Hf' & Hl)]; rewrite (on_cache_run _ _ _ _ _ Hr).
    + left. by eexists.
    + right. by eexists _, _, f'.
Qed.
End manager.
