(* ===== verification/ChunkStreamer.v ===== *)
(** chunk_streamer.c: feeds the chunks of a stream to the cache and keeps what is left of
    the buffer for the next one. *)

From S2P Require Import Prelude Monad Checksum RollingHash Chunker ChunkStore.

Record chunk_streamer := ChunkStreamer {
  st_chunker : chunker;
  chunk_added : Z; (* uint32_t *)
  chunk_hit : Z;   (* uint32_t *)
}.

Definition put_chunker (c : chunker) (s : chunk_streamer) : chunk_streamer :=
  ChunkStreamer c (chunk_added s) (chunk_hit s).
#[export] Instance chunker_lens : Lens st_chunker put_chunker.
Proof. split; [done..|by intros []]. Qed.

Section streamer.
Context {S : Type} `{ChunkStore S}.
Variable table : list Z.
Variable mh_sha256 : list byte → checksum.

(** The streamer with the store its [cache_manager] points to. *)
Definition on_streamer {A} (m : M chunk_streamer A) : M (chunk_streamer * S) A :=
  zoom fst (λ x st, (x, st.2)) m.
Definition on_chunker {A} (m : M chunker A) : M (chunk_streamer * S) A :=
  on_streamer (zoom st_chunker put_chunker m).
Definition on_store {A} (m : M S A) : M (chunk_streamer * S) A := zoom snd (λ x st, (st.1, x)) m.

Definition chunk_streamer_init : M (chunk_streamer * S) Z :=
  on_streamer (modify (λ _, ChunkStreamer zero_chunker 0 0));;
  on_chunker (chunker_init table).

Definition count_hit : M chunk_streamer unit :=
  modify (λ s, ChunkStreamer (st_chunker s) (chunk_added s) (u32 (chunk_hit s + 1))).
Definition count_added : M chunk_streamer unit :=
  modify (λ s, ChunkStreamer (st_chunker s) (u32 (chunk_added s + 1)) (chunk_hit s)).

(** The [for (;;)] loop, [ptr] the bytes from the pointer on. *)
Fixpoint stream_loop (fuel : nat) (ptr : list byte) (buffer_left : nat) : M (chunk_streamer * S) unit :=
  match fuel with
  | O => throw OutOfFuel
  | Datatypes.S fuel =>
      '(ret_t, ref) ← on_chunker (chunker_chunk_buffer mh_sha256 ptr buffer_left);
      if ret_t =? CHUNKER_NOT_FOUND then mret tt
      else
        has ← on_store (store_has (chunk_ref_checksum ref));
        (if (has : bool) then on_streamer count_hit
         else
           on_store (store_add (chunk_ref_checksum ref) (default [] (chunk_ref_buffer ref))
                       (chunk_ref_buffer_size ref));;
           on_streamer count_added);;
        stream_loop fuel (drop (Z.to_nat (chunk_ref_buffer_size ref)) ptr)
          (Z.to_nat (u32 (Z.of_nat buffer_left - chunk_ref_buffer_size ref)))
  end.

(** Every chunk takes more than [CHUNKER_MIN_CHUNK_SIZE] bytes. *)
Definition stream_fuel (buffer_size : nat) : nat := Datatypes.S (buffer_size / CHUNKER_MIN_CHUNK_SIZE).

Lemma stream_fuel_enough n : (n < stream_fuel n * CHUNKER_MIN_CHUNK_SIZE)%nat.
Proof.
  unfold stream_fuel. assert (Hp : (0 < CHUNKER_MIN_CHUNK_SIZE)%nat) by (unfold CHUNKER_MIN_CHUNK_SIZE; lia).
  pose proof (Nat.div_mod n CHUNKER_MIN_CHUNK_SIZE ltac:(lia)).
  pose proof (Nat.mod_upper_bound n CHUNKER_MIN_CHUNK_SIZE ltac:(lia)). lia.
Qed.

Definition chunk_streamer_process_buffer (buffer : list byte) (buffer_size : nat)
    : M (chunk_streamer * S) Z :=
  stream_loop (stream_fuel buffer_size) buffer buffer_size;;
  mret 0.

Definition chunk_streamer_flush_retained (buffer_length : Z) : M (chunk_streamer * S) (list byte * Z) :=
  on_chunker (chunker_flush_retained buffer_length).
End streamer.

(** * What the streamer promises *)

Section pieces.
Context (table : list Z).

(** The chunks of a buffer one after another, and the rest. *)
Inductive pieces : list byte → list (list byte) → list byte → Prop :=
  | pieces_rest buffer :
      (length buffer < CHUNKER_MAX_CHUNK_SIZE)%nat →
      no_cut table buffer (length buffer - CHUNKER_MIN_CHUNK_SIZE) → pieces buffer [] buffer
  | pieces_cut buffer n ps rest :
      first_chunk table buffer n → pieces (drop n buffer) ps rest →
      pieces buffer (take n buffer :: ps) rest.

Lemma pieces_concat buffer ps rest : pieces buffer ps rest → mjoin ps ++ rest = buffer.
Proof.
  induction 1 as [|buffer n ps rest Hc _ IH]; [done|]. simpl.
  by rewrite <-app_assoc, IH, take_drop.
Qed.

Lemma pieces_sizes buffer ps rest :
  pieces buffer ps rest →
  Forall (λ p, CHUNKER_MIN_CHUNK_SIZE < length p ≤ CHUNKER_MAX_CHUNK_SIZE)%nat ps
  ∧ (length rest < CHUNKER_MAX_CHUNK_SIZE)%nat.
Proof.
  induction 1 as [|buffer n ps rest Hc _ [IH ?]]; [done|]. split; [|done]. constructor; [|done].
  destruct (first_chunk_bounds _ _ _ Hc). rewrite length_take. lia.
Qed.
End pieces.

Section spec.
Context {S : Type} `{ChunkStoreLaws S}.
Context (table : list Z) (Htable : Forall word table).
Context (mh_sha256 : list byte → checksum).
(** A SHA-256 digest has 32 bytes, and the store takes the sizes of the chunker. *)
Hypothesis digest_size : ∀ bytes, checksum_wf (mh_sha256 bytes).
Hypothesis sizes_ok : ∀ n, (CHUNKER_MIN_CHUNK_SIZE < n ≤ CHUNKER_MAX_CHUNK_SIZE)%nat → store_size_ok (Z.of_nat n).

(** The chunks of [f'] come from [f] or are among [ps], under their checksums. *)
Definition added_only (f f' : checksum → option (list byte)) (ps : list (list byte)) : Prop :=
  ∀ c d, f' c = Some d → f c = Some d ∨ d ∈ ps ∧ c = mh_sha256 d.

(** An assertion in the store stopped the process, in the middle of an addition. *)
Definition store_stopped {A} (r : result A * (chunk_streamer * S)) : Prop :=
  ∃ st s c buffer n s', store_add c buffer n s = (Err AssertFail, s') ∧ r = (Err AssertFail, (st, s')).

Lemma store_stopped_bind {A B} (m : M (chunk_streamer * S) A) (k : A → M _ B) x :
  store_stopped (m x) → store_stopped ((m ≫= k) x).
Proof.
  intros (st & s & c & buffer & n & s' & Hadd & Hr). exists st, s, c, buffer, n, s'.
  split; [done|]. by apply bind_err.
Qed.

Definition streamed (st st' : chunk_streamer) (ps : list (list byte)) (rest : list byte) : Prop :=
  chunker_ok table (st_chunker st') rest ∧
  u32 (chunk_added st' + chunk_hit st') = u32 (chunk_added st + chunk_hit st + Z.of_nat (length ps)).

Lemma u32_succ_sum a b n : u32 (u32 (a + 1) + b + n) = u32 (a + b + (1 + n)).
Proof. unfold u32. rewrite <-Z.add_assoc, Zplus_mod_idemp_l. f_equal. lia. Qed.

(** One chunk: it is counted as a hit, or added. *)
Definition offer (c : checksum) (buffer : list byte) (n : nat) : M (chunk_streamer * S) unit :=
  has ← on_store (store_has c);
  if (has : bool) then on_streamer count_hit
  else on_store (store_add c buffer (Z.of_nat n));; on_streamer count_added.

Lemma offer_spec st s f buffer n :
  let p := take n buffer in
  store_rep s f → (n ≤ length buffer)%nat → store_size_ok (Z.of_nat n) →
  store_stopped (offer (mh_sha256 p) buffer n (st, s)) ∨
  (∃ st' s' f', offer (mh_sha256 p) buffer n (st, s) = (Ok tt, (st', s'))
     ∧ st_chunker st' = st_chunker st
     ∧ (∀ k, u32 (chunk_added st' + chunk_hit st' + k) = u32 (chunk_added st + chunk_hit st + (1 + k)))
     ∧ store_rep s' f' ∧ added_only f f' [p]).
Proof.
  intros p Hrep Hn Hsz. pose proof (digest_size p) as Hwf. unfold offer.
  pose proof (store_has_law s f _ Hrep Hwf) as Hhas.
  mrun by (apply zoom_ok; exact Hhas). destruct (bool_decide (is_Some (f (mh_sha256 p)))).
  { right. eexists _, s, f. split; [reflexivity|]. split_and!; [done| |done|by left].
    intros k. simpl. rewrite (Z.add_comm (chunk_added st)), u32_succ_sum. f_equal. lia. }
  destruct (store_add_law s f _ buffer (Z.of_nat n) Hrep Hwf Hsz) as [(s' & Hadd)|(b & s' & f' & Hadd & Hrep' & Hf)];
    [lia| |].
  - left. apply store_stopped_bind. exists st, s, (mh_sha256 p), buffer, (Z.of_nat n), s'. split; [exact Hadd|].
    unfold on_store. by erewrite zoom_err; [|exact Hadd].
  - right. eexists _, s', f'. split; [mrun by (apply zoom_ok; exact Hadd); reflexivity|].
    split_and!; [done| |done|].
    + intros k. simpl. apply u32_succ_sum.
    + intros c d [?|[-> ->]]%Hf; [by left|right]. rewrite Nat2Z.id. split; [by left|done].
Qed.

(** A chunk of the buffer is offered to the store and the loop goes on behind it. *)
Lemma stream_loop_found fuel buffer st s n c' :
  Z.of_nat (length buffer) < 4294967296 → (n ≤ length buffer)%nat →
  chunker_chunk_buffer mh_sha256 buffer (length buffer) (st_chunker st) =
    (Ok (CHUNKER_FOUND, ChunkRef (mh_sha256 (take n buffer)) (Some buffer) (Z.of_nat n)), c') →
  stream_loop mh_sha256 (Datatypes.S fuel) buffer (length buffer) (st, s) =
  (offer (mh_sha256 (take n buffer)) buffer n;;
   stream_loop mh_sha256 fuel (drop n buffer) (length (drop n buffer))) (put_chunker c' st, s).
Proof.
  intros Hlen Hn Hrun. cbn [stream_loop].
  mrun by (apply zoom_ok; cbn [fst]; apply zoom_ok; exact Hrun).
  change (CHUNKER_FOUND =? CHUNKER_NOT_FOUND) with false. cbn iota.
  cbn [chunk_ref_checksum chunk_ref_buffer chunk_ref_buffer_size default].
  rewrite Nat2Z.id, u32_id by lia. unfold offer. rewrite !bind_assoc, length_drop.
  replace (Z.to_nat (Z.of_nat (length buffer) - Z.of_nat n)) with (length buffer - n)%nat by lia.
  done.
Qed.

Lemma stream_loop_spec fuel : ∀ buffer st s f,
  (length buffer < fuel * CHUNKER_MIN_CHUNK_SIZE)%nat → Z.of_nat (length buffer) < 4294967296 →
  chunker_ok table (st_chunker st) [] → store_rep s f →
  store_stopped (stream_loop mh_sha256 fuel buffer (length buffer) (st, s)) ∨
  (∃ st' s' f' ps rest, stream_loop mh_sha256 fuel buffer (length buffer) (st, s) = (Ok tt, (st', s'))
     ∧ pieces table buffer ps rest ∧ streamed st st' ps rest ∧ store_rep s' f' ∧ added_only f f' ps).
Proof.
  induction fuel as [|fuel IH]; intros buffer st s f Hfuel Hlen Hck Hrep; [simpl in Hfuel; lia|].
  destruct (chunker_chunk_buffer_spec table Htable mh_sha256 (st_chunker st) buffer Hck Hlen)
    as [(n & c' & Hrun & Hfc & Hck')|(c' & Hrun & Hl & Hno & Hck')].
  2: { right. exists (put_chunker c' st), s, f, [], buffer. split_and!.
    - cbn [stream_loop]. mrun by (apply zoom_ok; cbn [fst]; apply zoom_ok; exact Hrun). done.
    - by constructor.
    - split; [done|]. simpl. f_equal. lia.
    - done.
    - by left. }
  destruct (first_chunk_bounds _ _ _ Hfc) as [Hb1 Hb2].
  set (p := take n buffer).
  rewrite (stream_loop_found fuel buffer st s n c' Hlen Hb2 Hrun).
  destruct (offer_spec (put_chunker c' st) s f buffer n Hrep Hb2) as [Ho|(st1 & s1 & f1 & Ho & Hst1 & Hcnt & Hrep1 & Hf1)];
    [by apply sizes_ok|left; by apply store_stopped_bind|].
  rewrite (bind_ok _ _ _ _ _ Ho).
  destruct (IH (drop n buffer) st1 s1 f1) as [Hr|(st' & s' & f' & ps & rest & Hr & Hps & [Hok Hsum] & Hrep' & Hf')].
  - rewrite length_drop. unfold CHUNKER_MIN_CHUNK_SIZE in *. lia.
  - rewrite length_drop. lia.
  - by rewrite Hst1.
  - done.
  - by left.
  - right. exists st', s', f', (p :: ps), rest. split_and!; [done|by apply pieces_cut| |done|].
    + split; [done|]. rewrite Hsum, Hcnt. simpl length. f_equal. simpl. lia.
    + intros c d [Hd|[Hd ->]]%Hf'; [|right; split; [by right|done]].
      apply Hf1 in Hd as [?|[Hd ->]]; [by left|right]. apply list_elem_of_singleton in Hd as ->.
      split; [by left|done].
Qed.

(** The whole of [chunk_streamer_process_buffer]. *)
Lemma chunk_streamer_process_buffer_spec buffer st s f :
  Z.of_nat (length buffer) < 4294967296 → chunker_ok table (st_chunker st) [] → store_rep s f →
  store_stopped (chunk_streamer_process_buffer mh_sha256 buffer (length buffer) (st, s)) ∨
  (∃ st' s' f' ps rest,
     chunk_streamer_process_buffer mh_sha256 buffer (length buffer) (st, s) = (Ok 0, (st', s'))
     ∧ pieces table buffer ps rest ∧ streamed st st' ps rest ∧ store_rep s' f' ∧ added_only f f' ps).
Proof.
  intros Hlen Hck Hrep. unfold chunk_streamer_process_buffer.
  destruct (stream_loop_spec _ buffer st s f (stream_fuel_enough _) Hlen Hck Hrep)
    as [Hr|(st' & s' & f' & ps & rest & Hr & ?)].
  - left. by apply store_stopped_bind.
  - right. exists st', s', f', ps, rest. split; [|done]. by rewrite (bind_ok _ _ _ _ _ Hr).
Qed.
End spec.
