(* ===== verification/StreamerTheorems.v ===== *)
(** The properties of the streamer, and of the streamer with the cache behind it. *)

From S2P Require Import Prelude Monad Checksum CellState CellRing CellSpec Cell CellTheorems RollingHash Chunker.
From S2P Require Import ChunkerTheorems ChunkStore.
From S2P Require Import ChunkStreamer Cache CacheSpec CacheManager CacheStore CacheTheorems.

(** * Pieces *)
Section pieces.
Context (table : list Z).

Lemma no_cut_no_chunk buffer n :
  (length buffer < CHUNKER_MAX_CHUNK_SIZE)%nat →
  no_cut table buffer (length buffer - CHUNKER_MIN_CHUNK_SIZE) → ¬ first_chunk table buffer n.
Proof. intros Hl Hno [k Hk Hb Hhit _|Hb _]; [|lia]. rewrite Hno in Hhit; [done|lia]. Qed.

Lemma pieces_unique buffer ps rest ps' rest' :
  pieces table buffer ps rest → pieces table buffer ps' rest' → ps = ps' ∧ rest = rest'.
Proof.
  intros H. revert ps' rest'. induction H as [buffer Hl Hno|buffer n ps rest Hfc _ IH]; intros ps' rest' H'.
  - inversion H'; subst; [done|]. by destruct (no_cut_no_chunk buffer n).
  - inversion H' as [?|? n' ps1 ? Hfc' Hps']; subst; [by destruct (no_cut_no_chunk rest' n)|].
    rewrite <-(first_chunk_unique _ _ _ _ Hfc Hfc') in *.
    by destruct (IH _ _ Hps') as [-> ->].
Qed.

(** The rest of a buffer goes on where it stopped. *)
Lemma pieces_app b1 b2 ps1 rest1 ps2 rest2 :
  pieces table b1 ps1 rest1 → pieces table (rest1 ++ b2) ps2 rest2 →
  pieces table (b1 ++ b2) (ps1 ++ ps2) rest2.
Proof.
  intros H1 H2. induction H1 as [buffer|buffer n ps rest Hfc _ IH]; [done|].
  destruct (first_chunk_bounds _ _ _ Hfc) as [_ Hn]. simpl. specialize (IH H2).
  rewrite <-(take_app_le buffer b2 n) by done. apply pieces_cut.
  - apply (first_chunk_prefix table buffer); [done|by rewrite take_app_le|rewrite length_app; lia].
  - by rewrite drop_app_le.
Qed.
End pieces.

(** Every chunk is held under its digest. *)
Definition content_addressed (mh_sha256 : list byte → checksum) (f : checksum → option (list byte)) : Prop :=
  ∀ s d, f s = Some d → s = mh_sha256 d.

Lemma added_only_addressed mh_sha256 f f' ps :
  added_only mh_sha256 f f' ps → content_addressed mh_sha256 f → content_addressed mh_sha256 f'.
Proof. intros Ha Hf s d [Hd|[_ ->]]%Ha; [by apply Hf|done]. Qed.

(** Two buffers of a stream, as a user feeds them: what is kept of the first goes in front
    of the second. *)
Definition process_two {S} `{ChunkStore S} mh_sha256 (b1 b2 : list byte) (n : Z) : M (chunk_streamer * S) Z :=
  chunk_streamer_process_buffer mh_sha256 b1 (length b1);;
  '(rest, k) ← chunk_streamer_flush_retained n;
  chunk_streamer_process_buffer mh_sha256 (rest ++ b2) (length (rest ++ b2)).

(** A store that holds the chunks of a buffer only counts hits. *)
Lemma stream_loop_hits {S} `{ChunkStoreLaws S} table mh_sha256 (s : S) f fuel : 
  Forall word table → (∀ bytes, checksum_wf (mh_sha256 bytes)) → store_rep s f →
  ∀ buffer st ps rest,
  (length buffer < fuel * CHUNKER_MIN_CHUNK_SIZE)%nat → Z.of_nat (length buffer) < 4294967296 →
  chunker_ok table (st_chunker st) [] → pieces table buffer ps rest →
  Forall (λ p, is_Some (f (mh_sha256 p))) ps →
  ∃ st', stream_loop mh_sha256 fuel buffer (length buffer) (st, s) = (Ok tt, (st', s)) ∧
    chunker_ok table (st_chunker st') rest ∧ chunk_added st' = chunk_added st ∧
    u32 (chunk_hit st') = u32 (chunk_hit st + Z.of_nat (length ps)).
Proof.
  intros Ht Hd Hrep. induction fuel as [|fuel IH]; intros buffer st ps rest Hfuel Hlen Hck Hps Hall; [simpl in Hfuel; lia|].
  destruct (chunker_chunk_buffer_spec table Ht mh_sha256 (st_chunker st) buffer Hck Hlen)
    as [(n & c' & Hrun & Hfc & Hck')|(c' & Hrun & Hl & Hno & Hck')]; inversion Hps as [? Hl' Hno'|? n' ps' ? Hfc' Hps']; subst.
  - by destruct (no_cut_no_chunk table rest n).
  - rewrite <-(first_chunk_unique _ _ _ _ Hfc Hfc') in *. destruct (first_chunk_bounds _ _ _ Hfc) as [Hb1 Hb2].
    apply Forall_cons in Hall as [Hp Hall].
    rewrite (stream_loop_found mh_sha256 fuel buffer st s n c' Hlen Hb2 Hrun).
    assert (Ho : offer (mh_sha256 (take n buffer)) buffer n (put_chunker c' st, s) =
      (Ok tt, ((count_hit (put_chunker c' st)).2, s))).
    { unfold offer. pose proof (store_has_law s f _ Hrep (Hd (take n buffer))) as Hhas.
      mrun by (apply zoom_ok; exact Hhas). by rewrite bool_decide_true. }
    rewrite (bind_ok _ _ _ _ _ Ho).
    destruct (IH (drop n buffer) (count_hit (put_chunker c' st)).2 ps' rest) as (st' & Hr & Hok & Ha & Hh); try done.
    + rewrite length_drop. unfold CHUNKER_MIN_CHUNK_SIZE in *. lia.
    + rewrite length_drop. lia.
    + exists st'. split_and!; [done..|]. rewrite Hh. simpl. unfold u32. rewrite Zplus_mod_idemp_l. f_equal. lia.
  - exists (put_chunker c' st). split_and!; [|done|done|simpl; f_equal; lia].
    cbn [stream_loop]. mrun by (apply zoom_ok; cbn [fst]; apply zoom_ok; exact Hrun). done.
  - by destruct (no_cut_no_chunk table buffer n').
Qed.

(** * Theorems about any store *)

(** C13: [chunk_streamer_process_buffer] cuts a buffer into chunks and a rest that together
    are the buffer, in order: the chunks are those the chunker finds one after another, each
    of 2049 to 24576 bytes, the rest is kept for the next call.  Every chunk is counted
    once, as added or as a hit, and the store gets nothing but these chunks under their
    digests.  The loop ends, and only
    an assertion in an addition to the store can stop it. *)
Theorem streamer_partitions {S} `{ChunkStoreLaws S} table mh_sha256 buffer st (s : S) f :
  Forall word table → (∀ bytes, checksum_wf (mh_sha256 bytes)) →
  (∀ n, (CHUNKER_MIN_CHUNK_SIZE < n ≤ CHUNKER_MAX_CHUNK_SIZE)%nat → store_size_ok (Z.of_nat n)) →
  Z.of_nat (length buffer) < 4294967296 → chunker_ok table (st_chunker st) [] → store_rep s f →
  store_stopped (chunk_streamer_process_buffer mh_sha256 buffer (length buffer) (st, s)) ∨
  (∃ st' s' f' ps rest,
     chunk_streamer_process_buffer mh_sha256 buffer (length buffer) (st, s) = (Ok 0, (st', s'))
     ∧ mjoin ps ++ rest = buffer ∧ pieces table buffer ps rest
     ∧ Forall (λ p, CHUNKER_MIN_CHUNK_SIZE < length p ≤ CHUNKER_MAX_CHUNK_SIZE)%nat ps
     ∧ chunker_ok table (st_chunker st') rest
     ∧ u32 (chunk_added st' + chunk_hit st') = u32 (chunk_added st + chunk_hit st + Z.of_nat (length ps))
     ∧ store_rep s' f' ∧ added_only mh_sha256 f f' ps).
Proof.
  intros Ht Hd Hsz Hlen Hck Hrep.
  destruct (chunk_streamer_process_buffer_spec table Ht mh_sha256 Hd Hsz buffer st s f Hlen Hck Hrep)
    as [?|(st' & s' & f' & ps & rest & Hr & Hps & [Hok Hsum] & Hrep' & Ha)]; [by left|right].
  destruct (pieces_sizes _ _ _ _ Hps). exists st', s', f', ps, rest.
  split_and!; [done|by eapply pieces_concat|done..].
Qed.

(** Where a stream is cut into buffers makes no difference to its chunks.  When the
    rest of one buffer is flushed and put in front of the next, as the interface asks for,
    the chunks are those of the two buffers in one piece. *)
Theorem streamer_buffers_irrelevant {S} `{ChunkStoreLaws S} table mh_sha256 b1 b2 n st (s : S) f :
  Forall word table → (∀ bytes, checksum_wf (mh_sha256 bytes)) →
  (∀ n, (CHUNKER_MIN_CHUNK_SIZE < n ≤ CHUNKER_MAX_CHUNK_SIZE)%nat → store_size_ok (Z.of_nat n)) →
  Z.of_nat (length (b1 ++ b2)) < 4294967296 → Z.of_nat CHUNKER_MAX_CHUNK_SIZE ≤ n →
  chunker_ok table (st_chunker st) [] → store_rep s f →
  store_stopped (process_two mh_sha256 b1 b2 n (st, s)) ∨
  (∃ st' s' f' ps rest, process_two mh_sha256 b1 b2 n (st, s) = (Ok 0, (st', s'))
     ∧ pieces table (b1 ++ b2) ps rest
     ∧ (∀ ps' rest', pieces table (b1 ++ b2) ps' rest' → ps' = ps ∧ rest' = rest)
     ∧ streamed table st st' ps rest ∧ store_rep s' f' ∧ added_only mh_sha256 f f' ps).
Proof.
  intros Ht Hd Hsz Hlen Hn Hck Hrep. rewrite length_app in Hlen. unfold process_two.
  destruct (chunk_streamer_process_buffer_spec table Ht mh_sha256 Hd Hsz b1 st s f)
    as [Hr|(st1 & s1 & f1 & ps1 & rest1 & Hr & Hps1 & [Hok1 Hsum1] & Hrep1 & Ha1)]; [lia|done|done|..].
  { left. by apply store_stopped_bind. }
  rewrite (bind_ok _ _ _ _ _ Hr). destruct (pieces_sizes _ _ _ _ Hps1) as [_ Hrest1].
  assert (Hle : (length rest1 ≤ length b1)%nat).
  { rewrite <-(pieces_concat _ _ _ _ Hps1), length_app. lia. }
  destruct (chunker_flush_retained_spec table (st_chunker st1) rest1 n Hok1) as (c2 & Hfl & Hok2); [lia|].
  assert (Hflush : chunk_streamer_flush_retained n (st1, s1) =
    (Ok (rest1, Z.of_nat (length rest1)), (put_chunker c2 st1, s1))).
  { unfold chunk_streamer_flush_retained, on_chunker, on_streamer.
    by erewrite zoom_ok; [|cbn [fst]; apply zoom_ok; exact Hfl]. }
  rewrite (bind_ok _ _ _ _ _ Hflush).
  destruct (chunk_streamer_process_buffer_spec table Ht mh_sha256 Hd Hsz (rest1 ++ b2) (put_chunker c2 st1) s1 f1)
    as [Hr2|(st' & s' & f' & ps2 & rest & Hr2 & Hps2 & [Hok Hsum] & Hrep' & Ha2)];
    [rewrite length_app; lia|done|done|by left|].
  pose proof (pieces_app _ _ _ _ _ _ _ Hps1 Hps2) as Hps.
  right. exists st', s', f', (ps1 ++ ps2), rest. split_and!; [done|done| | |done|].
  - intros ps' rest' Hps'. by destruct (pieces_unique _ _ _ _ _ _ Hps' Hps).
  - split; [done|]. rewrite Hsum. cbn [put_chunker chunk_added chunk_hit].
    rewrite length_app, Nat2Z.inj_add. revert Hsum1. unfold u32. intros Hsum1.
    rewrite <-Zplus_mod_idemp_l, Hsum1, Zplus_mod_idemp_l. f_equal. lia.
  - intros c d [[?|[? ->]]%Ha1|[? ->]]%Ha2; [by left| |]; right; (split; [apply elem_of_app|done]); auto.
Qed.

(** C19: streaming a buffer whose chunks the store holds already counts every one of them as
    a hit, adds nothing and leaves the store as it is: what was streamed once costs lookups
    only, for as long as the store keeps it. *)
Theorem streamer_second_pass {S} `{ChunkStoreLaws S} table mh_sha256 buffer st (s : S) f ps rest :
  Forall word table → (∀ bytes, checksum_wf (mh_sha256 bytes)) →
  Z.of_nat (length buffer) < 4294967296 → chunker_ok table (st_chunker st) [] → store_rep s f →
  pieces table buffer ps rest → Forall (λ p, is_Some (f (mh_sha256 p))) ps →
  ∃ st', chunk_streamer_process_buffer mh_sha256 buffer (length buffer) (st, s) = (Ok 0, (st', s)) ∧
    chunker_ok table (st_chunker st') rest ∧ chunk_added st' = chunk_added st ∧
    u32 (chunk_hit st') = u32 (chunk_hit st + Z.of_nat (length ps)).
Proof.
  intros Ht Hd Hlen Hck Hrep Hps Hall.
  destruct (stream_loop_hits table mh_sha256 s f _ Ht Hd Hrep buffer st ps rest (stream_fuel_enough _) Hlen Hck Hps Hall)
    as (st' & Hr & ?).
  exists st'. split; [|done]. unfold chunk_streamer_process_buffer. by mrun by exact Hr.
Qed.

(** * Streaming into a cache *)

(** C14: with the cache manager as the store: a cache in which every chunk is held under its
    digest is such a cache after any buffer has been streamed into it, so that whatever
    [cache_manager_get_chunk] returns for a digest are bytes with that digest. *)
Theorem streamed_chunks_verify {OS} smin smax table mh_sha256 buffer st m (o : OS) ls s ch :
  let store := manager_store smin smax in
  smin ≤ 2049 → 24576 ≤ smax → Forall word table → (∀ bytes, checksum_wf (mh_sha256 bytes)) →
  Z.of_nat (length buffer) < 4294967296 → chunker_ok table (st_chunker st) [] →
  cache_inv smin smax (cm_cache m) ls →
  content_addressed mh_sha256 (cache_lookup (cm_cache m) ls) → checksum_wf s →
  store_stopped (H := store)
    (chunk_streamer_process_buffer (H := store) mh_sha256 buffer (length buffer) (st, (m, o))) ∨
  (∃ st' m' o' r,
     chunk_streamer_process_buffer (H := store) mh_sha256 buffer (length buffer) (st, (m, o)) =
       (Ok 0, (st', (m', o')))
     ∧ cache_manager_get_chunk s ch (m', o') = (Ok r, (m', o'))
     ∧ (∀ ch', r = Some ch' → chunk_checksum ch' = s ∧ s = mh_sha256 (chunk_data ch'))).
Proof.
  intros store Hmin Hmax Ht Hd Hlen Hck Hinv Haddr Hs.
  assert (Hsz : ∀ n, (CHUNKER_MIN_CHUNK_SIZE < n ≤ CHUNKER_MAX_CHUNK_SIZE)%nat →
    store_size_ok (ChunkStore := store) (Z.of_nat n)).
  { intros n Hn. change (smin ≤ Z.of_nat n ≤ smax). unfold CHUNKER_MIN_CHUNK_SIZE, CHUNKER_MAX_CHUNK_SIZE in Hn. lia. }
  assert (Hrep : store_rep (ChunkStore := store) (m, o) (cache_lookup (cm_cache m) ls)) by by exists ls.
  destruct (chunk_streamer_process_buffer_spec (H0 := manager_store_laws smin smax) table Ht mh_sha256 Hd Hsz
    buffer st (m, o) _ Hlen Hck Hrep) as [?|(st' & [m' o'] & f' & ps & rest & Hr & _ & _ & Hrep' & Ha)]; [by left|].
  right. destruct Hrep' as (ls' & Hinv' & Hf'). cbn [fst] in *.
  pose proof (cache_get_chunk_spec smin smax (cm_cache m') ls' s ch Hinv' Hs) as Hg.
  assert (Hput : put_cache (cm_cache m') m' = m') by by destruct m'.
  assert (Hrun : ∀ r, cache_get_chunk s ch (cm_cache m') = (Ok r, cm_cache m') →
    cache_manager_get_chunk s ch (m', o') = (Ok r, (m', o'))).
  { intros r Hr'. unfold cache_manager_get_chunk. by rewrite (on_cache_run _ _ _ _ _ Hr'), Hput. }
  destruct (cache_lookup (cm_cache m') ls' s) as [d|] eqn:Hl.
  - destruct Hg as (ch' & Hr' & Hc & Hdat & _). exists st', m', o', (Some ch').
    split_and!; [done|by apply Hrun|]. intros ch'' [= <-]. split; [done|]. rewrite Hdat.
    apply (added_only_addressed _ _ _ _ Ha Haddr). by rewrite Hf'.
  - exists st', m', o', None. by split_and!; [done|apply Hrun|].
Qed.

(** * Instances *)

Lemma demo_digest_size bytes : checksum_wf (demo_digest bytes).
Proof.
  unfold checksum_wf, demo_digest, CHECKSUM_SIZE. rewrite length_take, length_app, length_replicate. lia.
Qed.

Lemma demo_sizes n :
  (CHUNKER_MIN_CHUNK_SIZE < n ≤ CHUNKER_MAX_CHUNK_SIZE)%nat →
  store_size_ok (ChunkStore := cache_store 214 32732) (Z.of_nat n).
Proof.
  intros Hn. change (214 ≤ Z.of_nat n ≤ 32732). unfold CHUNKER_MIN_CHUNK_SIZE, CHUNKER_MAX_CHUNK_SIZE in Hn. lia.
Qed.

Definition demo_rings : list ring_of := [([], []); ([], [])].
Lemma demo_rep : store_rep (ChunkStore := cache_store 214 32732) demo_cache (cache_lookup demo_cache demo_rings).
Proof. exists demo_rings. split; [exact demo_cache_inv|done]. Qed.

Definition demo_streamer : chunk_streamer := ChunkStreamer demo_chunker 0 0.
Definition demo_buffer : list byte := replicate 3000 Byte.x20 ++ [Byte.x41].

Lemma streamer_partitions_witness :
  let f := cache_lookup demo_cache demo_rings in
  let run := chunk_streamer_process_buffer (H := cache_store 214 32732) demo_digest demo_buffer
    (length demo_buffer) (demo_streamer, demo_cache) in
  store_stopped (H := cache_store 214 32732) run ∨
  (∃ st' s' f' ps rest, run = (Ok 0, (st', s'))
     ∧ mjoin ps ++ rest = demo_buffer ∧ pieces demo_table demo_buffer ps rest
     ∧ Forall (λ p, CHUNKER_MIN_CHUNK_SIZE < length p ≤ CHUNKER_MAX_CHUNK_SIZE)%nat ps
     ∧ chunker_ok demo_table (st_chunker st') rest
     ∧ u32 (chunk_added st' + chunk_hit st') = u32 (0 + 0 + Z.of_nat (length ps))
     ∧ store_rep (ChunkStore := cache_store 214 32732) s' f' ∧ added_only demo_digest f f' ps).
Proof.
  apply (streamer_partitions (H0 := cache_store_laws 214 32732) demo_table demo_digest demo_buffer
    demo_streamer demo_cache _ demo_table_words demo_digest_size demo_sizes eq_refl demo_chunker_ok demo_rep).
Defined.

Lemma streamer_buffers_irrelevant_witness :
  let f := cache_lookup demo_cache demo_rings in let b2 := replicate 100 Byte.x20 in
  let run := process_two (H := cache_store 214 32732) demo_digest demo_buffer b2 30000 (demo_streamer, demo_cache) in
  store_stopped (H := cache_store 214 32732) run ∨
  (∃ st' s' f' ps rest, run = (Ok 0, (st', s'))
     ∧ pieces demo_table (demo_buffer ++ b2) ps rest
     ∧ (∀ ps' rest', pieces demo_table (demo_buffer ++ b2) ps' rest' → ps' = ps ∧ rest' = rest)
     ∧ streamed demo_table demo_streamer st' ps rest
     ∧ store_rep (ChunkStore := cache_store 214 32732) s' f' ∧ added_only demo_digest f f' ps).
Proof.
  refine (streamer_buffers_irrelevant (H0 := cache_store_laws 214 32732) demo_table demo_digest demo_buffer
    (replicate 100 Byte.x20) 30000 demo_streamer demo_cache _ demo_table_words demo_digest_size demo_sizes
    eq_refl _ demo_chunker_ok demo_rep).
  unfold CHUNKER_MAX_CHUNK_SIZE. lia.
Defined.

Lemma demo_addressed : content_addressed demo_digest (cache_lookup demo_cache demo_rings).
Proof.
  intros s d Hs. unfold cache_lookup in Hs. destruct (demo_rings !! _) as [l|] eqn:Hl; [|done].
  assert (Hnew : Forall (λ l, l = ([], [])) demo_rings) by by repeat constructor.
  rewrite (Forall_lookup_1 _ _ _ _ Hnew Hl) in Hs.
  change (contents ([] ++ []) !! s = Some d) in Hs.
  assert (Hnone : contents ([] ++ []) !! s = None) by apply lookup_empty. congruence.
Qed.

Lemma streamed_chunks_verify_witness :
  let m := CacheManager demo_cache true (3 * CACHE_CELL_SIZE) 3 0 in let s := demo_sum 2 2 in
  let run := chunk_streamer_process_buffer (H := manager_store 214 32732) demo_digest demo_buffer
    (length demo_buffer) (demo_streamer, (m, tt)) in
  store_stopped (H := manager_store 214 32732) run ∨
  (∃ st' m' o' r, run = (Ok 0, (st', (m', o')))
     ∧ cache_manager_get_chunk s chunk_init (m', o') = (Ok r, (m', o'))
     ∧ (∀ ch', r = Some ch' → chunk_checksum ch' = s ∧ s = demo_digest (chunk_data ch'))).
Proof.
  refine (streamed_chunks_verify 214 32732 demo_table demo_digest demo_buffer demo_streamer
    (CacheManager demo_cache true (3 * CACHE_CELL_SIZE) 3 0) tt demo_rings (demo_sum 2 2) chunk_init
    _ _ demo_table_words demo_digest_size eq_refl demo_chunker_ok demo_cache_inv demo_addressed eq_refl); lia.
Defined.

(** A buffer of one chunk and a rest, and a store that holds the chunk. *)
Definition behind_chunk : list byte := take (CHUNKER_MIN_CHUNK_SIZE + 33) behind_buffer.
Definition behind_store : gmap checksum (list byte) := {[demo_digest behind_chunk := behind_chunk]}.

Lemma behind_pieces :
  pieces demo_table behind_buffer [behind_chunk] (drop (CHUNKER_MIN_CHUNK_SIZE + 33) behind_buffer).
Proof.
  apply pieces_cut; [exact behind_first_chunk|]. apply pieces_rest; [apply Nat.ltb_lt; by vm_compute|].
  assert (Hl : (length (drop (CHUNKER_MIN_CHUNK_SIZE + 33) behind_buffer) - CHUNKER_MIN_CHUNK_SIZE = 0)%nat) by (by vm_compute).
  rewrite Hl. intros j Hj. lia.
Qed.

Lemma streamer_second_pass_witness :
  ∃ st', chunk_streamer_process_buffer demo_digest behind_buffer (length behind_buffer)
      (demo_streamer, behind_store) = (Ok 0, (st', behind_store)) ∧
    chunker_ok demo_table (st_chunker st') (drop (CHUNKER_MIN_CHUNK_SIZE + 33) behind_buffer) ∧
    chunk_added st' = 0 ∧ u32 (chunk_hit st') = 1.
Proof.
  apply (streamer_second_pass demo_table demo_digest behind_buffer demo_streamer behind_store
    (λ c, behind_store !! c) [behind_chunk]);
    [exact demo_table_words|exact demo_digest_size|by vm_compute|exact demo_chunker_ok|done|exact behind_pieces|].
  apply Forall_singleton. exists behind_chunk. apply lookup_singleton_eq.
Defined.
