(* ===== verification/StoreRoom.v ===== *)
(** Stores with room: what a client may rely on that gives a store no more than fits.  Until
    then a store keeps all it is given, in order. *)

From S2P Require Import Prelude Monad Slab Checksum CellState CellHeader CellBody CellRing CellSpec CellHistory.
From S2P Require Import Cell Cache CacheSpec ChunkStore CacheStore.

(** The chunks a store was given, under their checksums, the oldest first. *)
Abbreviation items_of := (list (checksum * list byte)).

(** [store_keeps s items]: the store holds [items] and nothing else.  [store_room items]: it
    can be filled up to [items] without dropping anything. *)
Class StoreRoom (S : Type) := {
  store_keeps : S → items_of → Prop;
  store_room : items_of → Prop;
}.
#[global] Arguments store_room S {_} _.

Class StoreRoomLaws (S : Type) `{ChunkStore S, StoreRoom S} : Prop := {
  store_keeps_has (s : S) items c :
    store_keeps s items → checksum_wf c → store_has c s = (Ok (bool_decide (c ∈ items.*1)), s);
  store_keeps_add (s : S) items c buffer n :
    store_keeps s items → checksum_wf c → store_size_ok n → n ≤ Z.of_nat (length buffer) →
    c ∉ items.*1 → store_room S (items ++ [(c, take (Z.to_nat n) buffer)]) →
    ∃ s', store_add c buffer n s = (Ok true, s') ∧ store_keeps s' (items ++ [(c, take (Z.to_nat n) buffer)]);
  store_room_prefix items items' : store_room S (items ++ items') → store_room S items;
}.

(** A finite map always has room. *)
#[global] Instance map_room : StoreRoom (gmap checksum (list byte)) := {
  store_keeps s items := s = list_to_map items ∧ NoDup items.*1;
  store_room _ := True;
}.

Lemma list_to_map_some (items : items_of) c :
  is_Some ((list_to_map items : gmap checksum (list byte)) !! c) ↔ c ∈ items.*1.
Proof.
  destruct (decide (c ∈ items.*1)) as [Hin|Hnot].
  - split; [done|]. intros _. apply not_eq_None_Some. intros Hn. by apply not_elem_of_list_to_map in Hn.
  - split; [|done]. intros [d Hd]. by rewrite not_elem_of_list_to_map_1 in Hd.
Qed.

#[global] Instance map_room_laws : StoreRoomLaws (gmap checksum (list byte)).
Proof.
  split.
  - intros s items c [-> _] _. simpl. rewrite run_gets. do 2 f_equal. apply bool_decide_ext, list_to_map_some.
  - intros s items c buffer n [-> Hnd] _ _ _ Hc _. unfold store_add, map_store. rewrite bind_gets.
    rewrite bool_decide_false by by rewrite list_to_map_some.
    mnorm. eexists. split; [done|]. split.
    + rewrite list_to_map_snoc; done.
    + rewrite fmap_app. apply NoDup_app. split_and!; [done| |apply NoDup_singleton].
      by intros x Hx ->%list_elem_of_singleton.
  - done.
Qed.

(** * The cache *)
Section cache.
Context (smin smax count : Z).
Implicit Types (c : cache) (items : items_of).

(** The cell of a checksum in a cache of [count] cells, and what falls into cell [i]. *)
Definition cell_no (s : checksum) : nat := Z.to_nat (checksum_part s `mod` count).
Definition in_cell (i : nat) items : items_of := filter (λ x, cell_no x.1 = i) items.

(** Every cell holds its chunks in order and has not wrapped yet. *)
Definition rings_of items : list ring_of :=
  (λ i, (entry_of <$> in_cell i items, [])) <$> seq 0 (Z.to_nat count).

Record cache_keeps_items c items : Prop := {
  ck_inv : cache_inv smin smax c (rings_of items);
  ck_count : Z.of_nat (length (cells c)) = count;
}.

(** The chunks of every cell fit in its body, with their slots in the overflow area. *)
Definition cache_room items : Prop :=
  ∀ i, cost (in_cell i items) + 36 ≤ CACHE_CELL_SIZE - sizeof_cell_header.

#[global] Instance cache_store_room : StoreRoom cache := {
  store_keeps := cache_keeps_items;
  store_room := cache_room;
}.

Lemma cell_no_index c items s : cache_keeps_items c items → cell_index c s = cell_no s.
Proof. intros [Hinv Hn]. unfold cell_index, cell_no. by rewrite (cv_count _ _ _ _ Hinv), Hn. Qed.

Lemma cell_no_lt c items s : cache_keeps_items c items → (cell_no s < Z.to_nat count)%nat.
Proof.
  intros Hk. rewrite <-(cell_no_index _ _ _ Hk). pose proof (cell_index_lt _ _ _ _ s (ck_inv _ _ Hk)).
  pose proof (ck_count _ _ Hk). lia.
Qed.

Lemma rings_of_lookup items i :
  (i < Z.to_nat count)%nat → rings_of items !! i = Some (entry_of <$> in_cell i items, []).
Proof. intros Hi. unfold rings_of. by rewrite list_lookup_fmap, lookup_seq_lt. Qed.

Lemma in_cell_snoc i items x :
  in_cell i (items ++ [x]) = in_cell i items ++ (if decide (cell_no x.1 = i) then [x] else []).
Proof. unfold in_cell. by rewrite filter_app. Qed.

Lemma in_cell_keys items s : s ∈ (in_cell (cell_no s) items).*1 ↔ s ∈ items.*1.
Proof.
  unfold in_cell. rewrite !list_elem_of_fmap. split.
  - intros (x & -> & [_ Hx]%list_elem_of_filter). by exists x.
  - intros (x & -> & Hx). exists x. split; [done|]. by apply list_elem_of_filter.
Qed.

Lemma rings_of_insert items s d :
  <[cell_no s := (entry_of <$> in_cell (cell_no s) (items ++ [(s, d)]), [])]> (rings_of items)
  = rings_of (items ++ [(s, d)]).
Proof.
  apply list_eq. intros j. destruct (decide (j < Z.to_nat count)%nat) as [Hj|Hj].
  - rewrite (rings_of_lookup (items ++ _)) by done. destruct (decide (cell_no s = j)) as [Heq|Hne].
    + rewrite Heq, list_lookup_insert_eq by (unfold rings_of; by rewrite length_fmap, length_seq). done.
    + rewrite list_lookup_insert_ne, rings_of_lookup by done.
      rewrite in_cell_snoc. cbn [fst]. by rewrite decide_False, app_nil_r by done.
  - rewrite !lookup_ge_None_2; [done|..]; rewrite ?length_insert; unfold rings_of; rewrite length_fmap, length_seq; lia.
Qed.

Lemma cache_keeps_lookup c items s :
  cache_keeps_items c items →
  cache_lookup c (rings_of items) s = (list_to_map (in_cell (cell_no s) items) : gmap _ _) !! s.
Proof.
  intros Hk. unfold cache_lookup. rewrite (cell_no_index _ _ _ Hk), rings_of_lookup by by eapply cell_no_lt.
  change (contents ((entry_of <$> in_cell (cell_no s) items) ++ []) !! s =
    (list_to_map (in_cell (cell_no s) items) : gmap _ _) !! s).
  by rewrite app_nil_r, contents_entries.
Qed.

Lemma cache_keeps_item c items s d ch :
  cache_keeps_items c items → NoDup items.*1 → checksum_wf s → (s, d) ∈ items →
  ∃ ch', cache_get_chunk s ch c = (Ok (Some ch'), c) ∧ chunk_checksum ch' = s ∧ chunk_data ch' = d
    ∧ chunk_buffer_size ch' = Z.of_nat (length d).
Proof.
  intros Hk Hnd Hs Hin. pose proof (cache_get_chunk_spec smin smax c _ s ch (ck_inv _ _ Hk) Hs) as Hg.
  rewrite cache_keeps_lookup in Hg by done.
  erewrite elem_of_list_to_map_1 in Hg; [exact Hg| |by apply list_elem_of_filter].
  eapply sublist_NoDup; [exact Hnd|]. apply fmap_sublist, sublist_filter.
Qed.

Lemma cost_filter (P : checksum * list byte → Prop) `{!∀ x, Decision (P x)} items :
  cost (filter P items) ≤ cost items.
Proof.
  induction items as [|[s d] items IH]; [done|]. rewrite filter_cons. cbn [cost].
  destruct (decide _); cbn [cost]; lia.
Qed.

(** What fits in one cell fits in a cache. *)
Lemma cache_room_cost items : cost items + 36 ≤ CACHE_CELL_SIZE - sizeof_cell_header → cache_room items.
Proof. intros Hc i. pose proof (cost_filter (λ x, cell_no x.1 = i) items). unfold in_cell. lia. Qed.

(** A new chunk that fits is appended to its cell. *)
Lemma cache_add_room c items s buffer n :
  let d := take (Z.to_nat n) buffer in
  cache_keeps_items c items → arg_ok smin smax s buffer n → s ∉ items.*1 →
  cache_room (items ++ [(s, d)]) →
  ∃ c', cache_add_chunk s buffer n c = (Ok true, c') ∧ cache_keeps_items c' (items ++ [(s, d)]).
Proof.
  intros d Hk Harg Hnew Hroom. pose proof (ck_inv _ _ Hk) as Hci. pose proof (cell_no_lt _ _ s Hk) as Hi.
  destruct (cache_cell smin smax c _ s Hci) as (x & l & Hx & Hl & Hinv & _).
  rewrite (cell_no_index _ _ _ Hk) in *. rewrite rings_of_lookup in Hl by done.
  injection Hl as <-. cbn [fst snd] in Hinv.
  pose proof (Forall_lookup_1 _ _ _ _ (cv_slots _ _ _ _ Hci) Hx) as Hslot. cbv beta in Hslot.
  specialize (Hroom (cell_no s)). rewrite in_cell_snoc in Hroom. cbn [fst] in Hroom.
  rewrite decide_True in Hroom by done.
  destruct (cell_add_first_lap smin smax x _ s buffer n Hinv Harg) as (x' & Hr & Hinv' & Hsz);
    [by rewrite in_cell_keys|unfold header_offset; by rewrite Hslot|].
  exists (Cache (cache_hdr c) true (<[cell_no s := x']> (cells c))). split; [|split].
  - unfold cache_add_chunk. mrun by (by eapply cache_get_cell_index_ok). rewrite (cell_no_index _ _ _ Hk).
    eapply at_cell_ok; [apply Hci|exact Hx|exact Hr].
  - rewrite <-rings_of_insert. apply cache_inv_insert; [exact Hci| |congruence].
    cbn [fst snd]. rewrite in_cell_snoc. cbn [fst]. by rewrite decide_True by done.
  - cbn [cells]. rewrite length_insert. apply Hk.
Qed.

#[global] Instance cache_store_room_laws : StoreRoomLaws (H := cache_store smin smax) cache.
Proof.
  split.
  - intros c items s Hk Hs. simpl.
    rewrite (cache_has_chunk_spec smin smax c _ s (ck_inv _ _ Hk) Hs), cache_keeps_lookup by done.
    do 2 f_equal. apply bool_decide_ext. by rewrite list_to_map_some, in_cell_keys.
  - intros c items s buffer n Hk Hs Hn Hb Hnew Hroom. by apply cache_add_room; [|split|..].
  - intros items items' Hroom i. specialize (Hroom i). unfold in_cell in *.
    rewrite filter_app, cost_app in Hroom. pose proof (cost_nonneg (filter (λ x, cell_no x.1 = i) items')). lia.
Qed.
End cache.
