(* ===== verification/StreamFill.v ===== *)
(** Streams of any number of buffers into a store that has room for their chunks. *)

From S2P Require Import Prelude Monad Checksum RollingHash Chunker ChunkStore ChunkStreamer.
From S2P Require Import ChunkerTheorems StreamerTheorems StoreRoom.

(** A user of the streamer: what is kept of a buffer is flushed and goes in front of the
    next one.  [n] is the size of the buffer it is flushed to. *)
Fixpoint process_stream {S} `{ChunkStore S} (mh_sha256 : list byte → checksum) (n : Z)
    (kept : list byte) (bufs : list (list byte)) : M (chunk_streamer * S) (list byte) :=
  match bufs with
  | [] => mret kept
  | b :: bufs =>
      chunk_streamer_process_buffer mh_sha256 (kept ++ b) (length (kept ++ b));;
      '(kept, _) ← chunk_streamer_flush_retained n;
      process_stream mh_sha256 n kept bufs
  end.

(** * The chunks a stream leaves in a store *)
Section stored.
Context (mh_sha256 : list byte → checksum).

(** Each is kept once, under its digest, in the order in which they first come. *)
Definition store_one (items : items_of) (p : list byte) : items_of :=
  if decide (mh_sha256 p ∈ items.*1) then items else items ++ [(mh_sha256 p, p)].
Definition stored (ps : list (list byte)) : items_of := foldl store_one [] ps.

Lemma stored_snoc ps p : stored (ps ++ [p]) = store_one (stored ps) p.
Proof. unfold stored. by rewrite foldl_app. Qed.

Lemma store_one_extends items p : ∃ l, store_one items p = items ++ l.
Proof. unfold store_one. destruct (decide _); [exists []; by rewrite app_nil_r|by eexists]. Qed.

Lemma stored_extends ps ps' : ∃ l, stored (ps ++ ps') = stored ps ++ l.
Proof.
  induction ps' as [|p ps' [l IH]] using rev_ind; [exists []; by rewrite !app_nil_r|].
  rewrite app_assoc, stored_snoc. destruct (store_one_extends (stored (ps ++ ps')) p) as [l' ->].
  rewrite IH. exists (l ++ l'). by rewrite app_assoc.
Qed.

Lemma stored_keys_nodup ps : NoDup (stored ps).*1.
Proof.
  induction ps as [|p ps IH] using rev_ind; [constructor|]. rewrite stored_snoc. unfold store_one.
  destruct (decide _) as [|Hp]; [done|]. rewrite fmap_app. apply NoDup_app.
  split_and!; [done| |apply NoDup_singleton]. by intros x Hx ->%list_elem_of_singleton.
Qed.

Lemma stored_addressed ps s d : (s, d) ∈ stored ps → s = mh_sha256 d ∧ d ∈ ps.
Proof.
  induction ps as [|p ps IH] using rev_ind; [by intros ?%not_elem_of_nil|]. rewrite stored_snoc. unfold store_one.
  destruct (decide _).
  - intros [-> ?]%IH. split; [done|]. apply elem_of_app. by left.
  - rewrite !elem_of_app, list_elem_of_singleton. intros [[-> ?]%IH|[= -> ->]]; [split; [done|by left]|].
    split; [done|right]. by apply list_elem_of_singleton.
Qed.

(** Every chunk is stored, unless another one has the same digest. *)
Lemma stored_all ps p :
  (∀ q, q ∈ ps → mh_sha256 q = mh_sha256 p → q = p) → p ∈ ps → (mh_sha256 p, p) ∈ stored ps.
Proof.
  induction ps as [|p' ps IH] using rev_ind; [by intros _ ?%not_elem_of_nil|]. intros Hno Hp.
  assert (Hin : p ∈ ps → (mh_sha256 p, p) ∈ stored ps).
  { apply IH. intros q Hq. apply Hno, elem_of_app. by left. }
  rewrite stored_snoc. unfold store_one. apply elem_of_app in Hp as [Hp| ->%list_elem_of_singleton].
  - destruct (decide _); [by apply Hin|]. apply elem_of_app. left. by apply Hin.
  - destruct (decide _) as [Hin'|_]; [|apply elem_of_app; right; by apply list_elem_of_singleton].
    apply list_elem_of_fmap in Hin' as ([s d] & Hs & Hx). cbn [fst] in Hs. subst s.
    destruct (stored_addressed _ _ _ Hx) as [Hd Hq]. rewrite <-(Hno d) at 2; [done| |done].
    apply elem_of_app. by left.
Qed.

Lemma stored_length ps : (length (stored ps) ≤ length ps)%nat.
Proof.
  induction ps as [|p ps IH] using rev_ind; [done|]. rewrite stored_snoc, length_app. unfold store_one.
  destruct (decide _); rewrite ?length_app; simpl; lia.
Qed.
End stored.

(** * Pieces of a stream *)
Section pieces.
Context (table : list Z).

Lemma pieces_rest_rest buffer ps rest : pieces table buffer ps rest → pieces table rest [] rest.
Proof. induction 1; [by constructor|done]. Qed.

(** A chunk at the start of a longer buffer is the first of its pieces. *)
Lemma pieces_first buffer more n ps rest :
  first_chunk table buffer n → pieces table (buffer ++ more) ps rest →
  ∃ ps', ps = take n buffer :: ps' ∧ pieces table (drop n buffer ++ more) ps' rest.
Proof.
  intros Hfc Hps. destruct (first_chunk_bounds _ _ _ Hfc) as [_ Hn].
  assert (Hfc' : first_chunk table (buffer ++ more) n).
  { apply (first_chunk_prefix table buffer); [done|by rewrite take_app_le|rewrite length_app; lia]. }
  inversion Hps as [|? n' ps' ? Hfc'' Hps' Heq Hcons]; subst; [by destruct (no_cut_no_chunk table (buffer ++ more) n)|].
  rewrite <-(first_chunk_unique _ _ _ _ Hfc' Hfc'') in *. exists ps'.
  by rewrite take_app_le, <-drop_app_le.
Qed.
End pieces.

(** * Streaming *)
Section fill.
Context {S : Type} `{StoreRoomLaws S} (table : list Z) (Htable : Forall word table).
Context (mh_sha256 : list byte → checksum) (digest_size : ∀ bytes, checksum_wf (mh_sha256 bytes)).
Hypothesis sizes_ok : ∀ n, (CHUNKER_MIN_CHUNK_SIZE < n ≤ CHUNKER_MAX_CHUNK_SIZE)%nat → store_size_ok (Z.of_nat n).
Abbreviation stored := (stored mh_sha256).

(** The chunks [ps] have been streamed: the store has them, and each is counted. *)
Record filled (st : chunk_streamer) (s : S) (ps : list (list byte)) : Prop := {
  fl_keeps : store_keeps s (stored ps);
  fl_added : chunk_added st = u32 (Z.of_nat (length (stored ps)));
  fl_hit : chunk_hit st = u32 (Z.of_nat (length ps) - Z.of_nat (length (stored ps)));
}.

Lemma room_part ps ps' : store_room S (stored (ps ++ ps')) → store_room S (stored ps).
Proof. destruct (stored_extends mh_sha256 ps ps') as [l ->]. apply store_room_prefix. Qed.

Lemma u32_succ a : u32 (u32 a + 1) = u32 (a + 1).
Proof. unfold u32. apply Zplus_mod_idemp_l. Qed.

Lemma offer_fills st s ps buffer n :
  let p := take n buffer in
  filled st s ps → (n ≤ length buffer)%nat → store_size_ok (Z.of_nat n) →
  store_room S (stored (ps ++ [p])) →
  ∃ st' s', offer (mh_sha256 p) buffer n (st, s) = (Ok tt, (st', s'))
    ∧ st_chunker st' = st_chunker st ∧ filled st' s' (ps ++ [p]).
Proof.
  intros p [Hk Ha Hh] Hn Hsz Hroom. pose proof (digest_size p) as Hwf. unfold offer.
  mrun by (apply zoom_ok; exact (store_keeps_has s _ _ Hk Hwf)). rewrite stored_snoc in Hroom. unfold store_one in Hroom.
  destruct (decide (mh_sha256 p ∈ (stored ps).*1)) as [Hin|Hnew].
  - rewrite bool_decide_true by done. eexists _, s. split; [reflexivity|]. split; [done|].
    split; rewrite stored_snoc; unfold store_one; rewrite decide_True by done; [done|done|].
    etrans; [exact (f_equal (λ h, u32 (h + 1)) Hh)|]. rewrite u32_succ, length_app. f_equal. simpl. lia.
  - rewrite bool_decide_false by done.
    destruct (store_keeps_add s _ (mh_sha256 p) buffer (Z.of_nat n) Hk Hwf Hsz) as (s' & Hr & Hk');
      [lia|done|by rewrite Nat2Z.id|]. rewrite Nat2Z.id in Hk'.
    eexists _, s'. split; [mrun by (apply zoom_ok; exact Hr); reflexivity|]. split; [done|].
    split; rewrite stored_snoc; unfold store_one; rewrite decide_False by done; [done|..].
    + etrans; [exact (f_equal (λ a, u32 (a + 1)) Ha)|]. rewrite u32_succ, length_app. f_equal. simpl. lia.
    + etrans; [exact Hh|]. rewrite !length_app. f_equal. simpl. lia.
Qed.

Lemma stream_loop_fills fuel : ∀ buffer more st s ps0 ps rest,
  (length buffer < fuel * CHUNKER_MIN_CHUNK_SIZE)%nat → Z.of_nat (length buffer) < 4294967296 →
  chunker_ok table (st_chunker st) [] → filled st s ps0 → pieces table (buffer ++ more) ps rest →
  store_room S (stored (ps0 ++ ps)) →
  ∃ st' s' ps1 ps2 rest1, stream_loop mh_sha256 fuel buffer (length buffer) (st, s) = (Ok tt, (st', s'))
    ∧ ps = ps1 ++ ps2 ∧ pieces table buffer ps1 rest1 ∧ pieces table (rest1 ++ more) ps2 rest
    ∧ chunker_ok table (st_chunker st') rest1 ∧ filled st' s' (ps0 ++ ps1).
Proof.
  induction fuel as [|fuel IH]; intros buffer more st s ps0 ps rest Hfuel Hlen Hck Hfl Hps Hroom; [simpl in Hfuel; lia|].
  destruct (chunker_chunk_buffer_spec table Htable mh_sha256 (st_chunker st) buffer Hck Hlen)
    as [(n & c' & Hrun & Hfc & Hck')|(c' & Hrun & Hl & Hno & Hck')].
  2: { exists (put_chunker c' st), s, [], ps, buffer. split_and!; [|done|by constructor|done|done|].
    - cbn [stream_loop]. mrun by (apply zoom_ok; cbn [fst]; apply zoom_ok; exact Hrun). done.
    - rewrite app_nil_r. by destruct Hfl. }
  destruct (first_chunk_bounds _ _ _ Hfc) as [Hb1 Hb2].
  destruct (pieces_first table buffer more n ps rest Hfc Hps) as (ps' & -> & Hps').
  rewrite (stream_loop_found mh_sha256 fuel buffer st s n c' Hlen Hb2 Hrun).
  rewrite cons_middle, app_assoc in Hroom.
  destruct (offer_fills (put_chunker c' st) s ps0 buffer n) as (st1 & s1 & Ho & Hst1 & Hfl1);
    [by destruct Hfl|done|by apply sizes_ok|by eapply room_part|].
  rewrite (bind_ok _ _ _ _ _ Ho).
  destruct (IH (drop n buffer) more st1 s1 (ps0 ++ [take n buffer]) ps' rest)
    as (st' & s' & ps1 & ps2 & rest1 & Hr & -> & Hps1 & Hps2 & Hck1 & Hfl'); try done.
  - rewrite length_drop. unfold CHUNKER_MIN_CHUNK_SIZE in *. lia.
  - rewrite length_drop. lia.
  - by rewrite Hst1.
  - exists st', s', (take n buffer :: ps1), ps2, rest1. rewrite <-app_assoc in Hfl'.
    split_and!; [done|done|by apply pieces_cut|done|done|exact Hfl'].
Qed.

Lemma process_stream_fills n bufs : ∀ kept st s ps0 ps rest,
  Z.of_nat CHUNKER_MAX_CHUNK_SIZE ≤ n →
  Forall (λ b, Z.of_nat (length b) < 4294967296 - Z.of_nat CHUNKER_MAX_CHUNK_SIZE) bufs →
  chunker_ok table (st_chunker st) [] → filled st s ps0 →
  pieces table kept [] kept → pieces table (kept ++ mjoin bufs) ps rest →
  store_room S (stored (ps0 ++ ps)) →
  ∃ st' s', process_stream mh_sha256 n kept bufs (st, s) = (Ok rest, (st', s'))
    ∧ chunker_ok table (st_chunker st') [] ∧ filled st' s' (ps0 ++ ps).
Proof.
  induction bufs as [|b bufs IH]; intros kept st s ps0 ps rest Hn Hbufs Hck Hfl Hkept Hps Hroom.
  { simpl in Hps. rewrite app_nil_r in Hps. destruct (pieces_unique _ _ _ _ _ _ Hkept Hps) as [<- <-].
    exists st, s. by rewrite app_nil_r. }
  apply Forall_cons in Hbufs as [Hb Hbufs]. destruct (pieces_sizes _ _ _ _ Hkept) as [_ Hkl].
  simpl mjoin in Hps. rewrite app_assoc in Hps. unfold CHUNKER_MAX_CHUNK_SIZE in *.
  destruct (stream_loop_fills (stream_fuel (length (kept ++ b))) (kept ++ b) (mjoin bufs) st s ps0 ps rest)
    as (st1 & s1 & ps1 & ps2 & rest1 & Hr & -> & Hps1 & Hps2 & Hck1 & Hfl1); try done.
  { apply stream_fuel_enough. }
  { rewrite length_app. lia. }
  assert (Hproc : chunk_streamer_process_buffer mh_sha256 (kept ++ b) (length (kept ++ b)) (st, s) =
    (Ok 0, (st1, s1))).
  { unfold chunk_streamer_process_buffer. by mrun by exact Hr. }
  destruct (pieces_sizes _ _ _ _ Hps1) as [_ Hrl].
  destruct (chunker_flush_retained_spec table (st_chunker st1) rest1 n Hck1) as (c2 & Hf & Hck2);
    [unfold CHUNKER_MAX_CHUNK_SIZE in *; lia|].
  assert (Hflush : chunk_streamer_flush_retained n (st1, s1) =
    (Ok (rest1, Z.of_nat (length rest1)), (put_chunker c2 st1, s1))).
  { unfold chunk_streamer_flush_retained, on_chunker, on_streamer.
    by erewrite zoom_ok; [|cbn [fst]; apply zoom_ok; exact Hf]. }
  cbn [process_stream]. rewrite (bind_ok _ _ _ _ _ Hproc), (bind_ok _ _ _ _ _ Hflush). rewrite app_assoc.
  apply IH; try done; [by destruct Hfl1|by eapply pieces_rest_rest|]. by rewrite <-app_assoc.
Qed.

(** From [chunk_streamer_init] on. *)
Lemma stream_fills n bufs st s ps rest :
  Z.of_nat CHUNKER_MAX_CHUNK_SIZE ≤ n →
  Forall (λ b, Z.of_nat (length b) < 4294967296 - Z.of_nat CHUNKER_MAX_CHUNK_SIZE) bufs →
  store_keeps s [] → pieces table (mjoin bufs) ps rest → store_room S (stored ps) →
  ∃ st' s', (chunk_streamer_init table;; process_stream mh_sha256 n [] bufs) (st, s) = (Ok rest, (st', s'))
    ∧ filled st' s' ps.
Proof.
  intros Hn Hbufs Hk Hps Hroom.
  destruct (chunker_init_spec table zero_chunker) as (ck & Hi & Hck).
  assert (Hinit : chunk_streamer_init table (st, s) = (Ok 0, (put_chunker ck (ChunkStreamer zero_chunker 0 0), s))).
  { unfold chunk_streamer_init, on_chunker, on_streamer.
    erewrite bind_ok; [|by apply zoom_ok]. by erewrite zoom_ok; [|cbn [fst]; apply zoom_ok; exact Hi]. }
  destruct (process_stream_fills n bufs [] (put_chunker ck (ChunkStreamer zero_chunker 0 0)) s [] ps rest)
    as (st' & s' & Hr & _ & Hfl); try done.
  { apply pieces_rest; [unfold CHUNKER_MAX_CHUNK_SIZE; simpl; lia|]. intros j Hj. simpl in Hj. lia. }
  exists st', s'. split; [|done]. by rewrite (bind_ok _ _ _ _ _ Hinit).
Qed.
End fill.
