(* ===== verification/StreamRestore.v ===== *)
(** What the program is for: a stream is cut into chunks, the cache keeps them in its file, and
    a later process gets the stream back from their digests.  Here with the SHA-256 multi-hash
    and the table of src/third-party, so without any assumption about them. *)

From S2P Require Import Prelude Monad Slab Checksum CellHeader CellCrash CellRing CellSpec CellHistory Cell.
From S2P Require Import Cache CacheSpec CacheHistory CacheTheorems RollingHash Chunker ChunkerTheorems ChunkStore CacheStore.
From S2P Require Import MhSha256 MhSha256Theorems RollingTable ChunkStreamer StreamerTheorems StoreRoom StreamFill.

(** The chunks of a list of digests, one behind the other. *)
Fixpoint fetch (refs : list checksum) : M cache (option (list byte)) :=
  match refs with
  | [] => mret (Some [])
  | s :: refs =>
      r ← cache_get_chunk s chunk_init;
      match r with
      | None => mret None
      | Some ch => rest ← fetch refs; mret (app (chunk_data ch) <$> rest)
      end
  end.

Section restore.
Context (smin smax count : Z).

Lemma fetch_spec c items mh_sha256 ps :
  cache_keeps_items smin smax count c items → NoDup items.*1 → (∀ bytes, checksum_wf (mh_sha256 bytes)) →
  Forall (λ p, (mh_sha256 p, p) ∈ items) ps → fetch (mh_sha256 <$> ps) c = (Ok (Some (mjoin ps)), c).
Proof.
  intros Hk Hnd Hd. induction 1 as [|p ps Hp _ IH]; [done|]. rewrite fmap_cons. cbn [fetch].
  destruct (cache_keeps_item smin smax count c items _ p chunk_init Hk Hnd (Hd p) Hp) as (ch & Hr & _ & Hdat & _).
  mrun by exact Hr. mrun by exact IH. by rewrite Hdat.
Qed.

(** A new region is opened as a cache that holds nothing. *)
Lemma cache_init_new size c0 :
  count = size / CACHE_CELL_SIZE - 1 → region_ok smin smax size c0 → Forall (λ x, cell_header_sane (cell_hdr x) = false) (cells c0) →
  ∃ c, cache_init size c0 = (Ok 0, c) ∧ cache_keeps_items smin smax count c [].
Proof.
  intros Hcount Hreg Hnew. destruct (cache_init_spec smin smax size c0 Hreg) as (c & ls & Hr & [? ? ? ? Hls ?] & Hop).
  pose proof (Forall2_length _ _ _ Hop) as Hlen. pose proof (rg_cells _ _ _ _ Hreg) as Hn.
  exists c. split; [done|]. split; [|by rewrite <-Hlen, Hcount].
  split; [done..| |done]. apply Forall2_same_length_lookup. unfold rings_of.
  split; [rewrite length_fmap, length_seq; lia|].
  intros i x l Hx Hl. apply list_lookup_fmap_Some in Hl as (j & -> & _). cbn [fst snd].
  destruct (Forall2_lookup_r _ _ _ _ _ Hop Hx) as (x0 & Hx0 & Ho).
  unfold opened_as in Ho. rewrite (Forall_lookup_1 _ _ _ _ Hnew Hx0) in Ho. apply Ho.
Qed.

(** The memory of a cache and the next process. *)
Lemma cache_reopen size c items :
  count = size / CACHE_CELL_SIZE - 1 → 2 ≤ size / CACHE_CELL_SIZE < 18446744073709551616 →
  cache_keeps_items smin smax count c items → (cache_release;; cache_init size) c = (Ok 0, c).
Proof.
  intros Hcount Hsl [Hk Hn]. destruct (cache_release_spec smin smax c _ Hk) as [Hr _].
  rewrite (bind_ok _ _ _ _ _ Hr). eapply cache_init_keeps; [done|done|congruence].
Qed.
End restore.

(** * The theorems *)

(** C16: a stream is what matters, not the buffers it comes in.  From [chunk_streamer_init] on,
    with what is kept of each buffer flushed to the front of the next one, streaming any list
    of buffers into a store with room succeeds and gives the chunks of all the bytes in one
    piece: each is in the store once, under its digest, in the order of the stream, each is
    counted as added or as a hit, and the bytes behind the last chunk are what is kept. *)
Theorem streamer_stream {S} `{StoreRoomLaws S} table mh_sha256 n bufs ps rest st (s : S) :
  Forall word table → (∀ bytes, checksum_wf (mh_sha256 bytes)) →
  (∀ k, (CHUNKER_MIN_CHUNK_SIZE < k ≤ CHUNKER_MAX_CHUNK_SIZE)%nat → store_size_ok (Z.of_nat k)) →
  Z.of_nat CHUNKER_MAX_CHUNK_SIZE ≤ n →
  Forall (λ b, Z.of_nat (length b) < 4294967296 - Z.of_nat CHUNKER_MAX_CHUNK_SIZE) bufs →
  pieces table (mjoin bufs) ps rest → store_keeps s [] → store_room S (stored mh_sha256 ps) →
  ∃ st' s', (chunk_streamer_init table;; process_stream mh_sha256 n [] bufs) (st, s) = (Ok rest, (st', s'))
    ∧ mjoin ps ++ rest = mjoin bufs
    ∧ store_keeps s' (stored mh_sha256 ps)
    ∧ chunk_added st' = u32 (Z.of_nat (length (stored mh_sha256 ps)))
    ∧ chunk_hit st' = u32 (Z.of_nat (length ps) - Z.of_nat (length (stored mh_sha256 ps))).
Proof.
  intros Ht Hd Hsz Hn Hbufs Hps Hk Hroom.
  destruct (stream_fills table Ht mh_sha256 Hd Hsz n bufs st s ps rest Hn Hbufs Hk Hps Hroom)
    as (st' & s' & Hr & [? ? ?]).
  exists st', s'. split_and!; [done|by eapply pieces_concat|done..].
Qed.

(** C1: what is streamed can be restored.  A process opens a new region, streams any list of
    buffers into the cache and releases it; the next process opens the region again and gets
    from the digests of the chunks exactly the bytes of the stream, up to those behind the last
    chunk, which the streamer gave back.  Nothing stops the two processes, for as long as the chunks
    of every cell fit in it and no two chunks of the stream have the same digest; the
    digests are those of the SHA-256 multi-hash and the chunks those of the real table. *)
Theorem stream_restored smin smax size n bufs ps rest c0 st :
  smin ≤ 2049 → 24576 ≤ smax → region_ok smin smax size c0 →
  Forall (λ x, cell_header_sane (cell_hdr x) = false) (cells c0) →
  Z.of_nat CHUNKER_MAX_CHUNK_SIZE ≤ n →
  Forall (λ b, Z.of_nat (length b) < 4294967296 - Z.of_nat CHUNKER_MAX_CHUNK_SIZE) bufs →
  pieces rolling_hash2_table1 (mjoin bufs) ps rest →
  (∀ p q, p ∈ ps → q ∈ ps → mh_sha256 p = mh_sha256 q → p = q) →
  cache_room (size / CACHE_CELL_SIZE - 1) (stored mh_sha256 ps) →
  let store := cache_store smin smax in
  ∃ c1 st' c2, cache_init size c0 = (Ok 0, c1)
    ∧ (chunk_streamer_init rolling_hash2_table1;; process_stream mh_sha256 n [] bufs) (st, c1) =
        (Ok rest, (st', c2))
    ∧ (cache_release;; cache_init size;; fetch (mh_sha256 <$> ps)) c2 = (Ok (Some (mjoin ps)), c2)
    ∧ mjoin ps ++ rest = mjoin bufs.
Proof.
  intros Hmin Hmax Hreg Hnew Hn Hbufs Hps Hno Hroom store. set (count := size / CACHE_CELL_SIZE - 1) in *.
  destruct (cache_init_new smin smax count size c0 eq_refl Hreg Hnew) as (c1 & Hi & Hk).
  assert (Hsz : ∀ k, (CHUNKER_MIN_CHUNK_SIZE < k ≤ CHUNKER_MAX_CHUNK_SIZE)%nat → store_size_ok (Z.of_nat k)).
  { intros k Hk'. change (smin ≤ Z.of_nat k ≤ smax).
    unfold CHUNKER_MIN_CHUNK_SIZE, CHUNKER_MAX_CHUNK_SIZE in Hk'. lia. }
  destruct (stream_fills (H1 := cache_store_room_laws smin smax count) rolling_hash2_table1 rolling_hash2_table1_words
    mh_sha256 mh_sha256_size Hsz n bufs st c1 ps rest Hn Hbufs Hk Hps Hroom) as (st' & c2 & Hr & [Hk2 _ _]).
  exists c1, st', c2. split_and!; [done|done| |by eapply pieces_concat].
  pose proof (cache_reopen smin smax count size c2 _ eq_refl (rg_slots _ _ _ _ Hreg) Hk2) as Hre.
  rewrite <-bind_assoc, (bind_ok _ _ _ _ _ Hre).
  eapply fetch_spec; [exact Hk2|apply stored_keys_nodup|exact mh_sha256_size|].
  apply Forall_forall. intros p Hp. apply stored_all; [|done]. intros q Hq Heq. by apply (Hno q p).
Qed.

(** * Instances *)

(** A chunk of the real table: the window that ends with its 35th byte decides. *)
Definition real_chunk : list byte :=
  replicate 32 Byte.x20 ++ [Byte.x25; Byte.x32; Byte.x6a] ++ replicate CHUNKER_MIN_CHUNK_SIZE Byte.x20.

Lemma real_first_chunk buffer : first_chunk rolling_hash2_table1 (real_chunk ++ buffer) (length real_chunk).
Proof.
  apply (first_chunk_prefix rolling_hash2_table1 real_chunk); [|by rewrite take_app_length, firstn_all|rewrite length_app; lia].
  change (length real_chunk) with (CHUNKER_MIN_CHUNK_SIZE + 35)%nat.
  apply chunk_at_hit; [unfold CHUNKER_MIN_CHUNK_SIZE, CHUNKER_MAX_CHUNK_SIZE; lia|by vm_compute|vm_compute; reflexivity|].
  assert (Hall : forallb (λ j, negb (cut_hit rolling_hash2_table1 real_chunk j)) (seq 1 34) = true) by (vm_compute; reflexivity).
  intros j Hj. rewrite forallb_forall in Hall. specialize (Hall j).
  rewrite in_seq in Hall. by apply negb_true_iff, Hall; lia.
Qed.

(** The chunk twice and a byte, in three buffers. *)
Definition real_stream : list (list byte) :=
  [take 1000 real_chunk; drop 1000 real_chunk ++ take 500 real_chunk; drop 500 real_chunk ++ [Byte.x21]].
Definition real_pieces_of : list (list byte) := [real_chunk; real_chunk].

Lemma real_pieces : pieces rolling_hash2_table1 (mjoin real_stream) real_pieces_of [Byte.x21].
Proof.
  assert (mjoin real_stream = real_chunk ++ real_chunk ++ [Byte.x21]) as ->.
  { change (mjoin real_stream) with (take 1000 real_chunk ++ (drop 1000 real_chunk ++ take 500 real_chunk) ++
      (drop 500 real_chunk ++ [Byte.x21]) ++ []).
    by rewrite app_nil_r, <-!app_assoc, (app_assoc (take 1000 _)), take_drop, (app_assoc (take 500 _)), take_drop. }
  assert (Hcut : ∀ buffer ps rest, pieces rolling_hash2_table1 buffer ps rest →
    pieces rolling_hash2_table1 (real_chunk ++ buffer) (real_chunk :: ps) rest).
  { intros buffer ps rest Hp. rewrite <-(take_app_length real_chunk buffer) at 2.
    apply pieces_cut; [apply real_first_chunk|by rewrite drop_app_length]. }
  do 2 apply Hcut. apply pieces_rest; [unfold CHUNKER_MAX_CHUNK_SIZE; simpl; lia|].
  intros j Hj. simpl in Hj. lia.
Qed.

Lemma stored_twice mh p : stored mh [p; p] = [(mh p, p)].
Proof.
  change (store_one mh (store_one mh [] p) p = [(mh p, p)]). unfold store_one at 2.
  rewrite decide_False by apply not_elem_of_nil. unfold store_one. rewrite decide_True; [done|].
  by apply list_elem_of_singleton.
Qed.

Lemma real_buffers : Forall (λ b, Z.of_nat (length b) < 4294967296 - Z.of_nat CHUNKER_MAX_CHUNK_SIZE) real_stream.
Proof. repeat constructor. Qed.

Lemma streamer_stream_witness :
  ∃ (st' : chunk_streamer) (s' : gmap checksum (list byte)),
    (chunk_streamer_init rolling_hash2_table1;; process_stream mh_sha256 30000 [] real_stream) (demo_streamer, ∅) =
      (Ok [Byte.x21], (st', s'))
    ∧ mjoin real_pieces_of ++ [Byte.x21] = mjoin real_stream
    ∧ store_keeps s' (stored mh_sha256 real_pieces_of)
    ∧ chunk_added st' = u32 (Z.of_nat (length (stored mh_sha256 real_pieces_of)))
    ∧ chunk_hit st' = u32 (Z.of_nat (length real_pieces_of) - Z.of_nat (length (stored mh_sha256 real_pieces_of))).
Proof.
  apply (streamer_stream rolling_hash2_table1 mh_sha256 30000 real_stream real_pieces_of [Byte.x21] demo_streamer);
    [exact rolling_hash2_table1_words|exact mh_sha256_size|done|unfold CHUNKER_MAX_CHUNK_SIZE; lia|
     exact real_buffers|exact real_pieces|split; [done|constructor]|done].
Defined.

Lemma stream_restored_witness :
  let store := cache_store 214 32732 in
  ∃ c1 st' c2, cache_init (3 * CACHE_CELL_SIZE) zero_region = (Ok 0, c1)
    ∧ (chunk_streamer_init rolling_hash2_table1;; process_stream mh_sha256 30000 [] real_stream) (demo_streamer, c1) =
        (Ok [Byte.x21], (st', c2))
    ∧ (cache_release;; cache_init (3 * CACHE_CELL_SIZE);; fetch (mh_sha256 <$> real_pieces_of)) c2 =
        (Ok (Some (mjoin real_pieces_of)), c2)
    ∧ mjoin real_pieces_of ++ [Byte.x21] = mjoin real_stream.
Proof.
  apply (stream_restored 214 32732 (3 * CACHE_CELL_SIZE) 30000 real_stream real_pieces_of [Byte.x21] zero_region
    demo_streamer); [lia|lia|exact zero_region_ok|exact zero_region_new|unfold CHUNKER_MAX_CHUNK_SIZE; lia|
    exact real_buffers|exact real_pieces| |].
  - unfold real_pieces_of. intros p q Hp Hq _.
    repeat (apply elem_of_cons in Hp as [->|Hp]; [|]); try by apply not_elem_of_nil in Hp.
    all: repeat (apply elem_of_cons in Hq as [->|Hq]; [done|]); by apply not_elem_of_nil in Hq.
  - unfold real_pieces_of. rewrite stored_twice. apply cache_room_cost. cbn [cost].
    change (length real_chunk) with 2083%nat. unfold CACHE_CELL_SIZE, sizeof_cell_header. vm_compute. congruence.
Defined.
