(* ===== verification/StreamThreads.v ===== *)
(** Several threads that stream into one cache: each has a streamer and a buffer of its own,
    and calls the cache as chunk_streamer.c does. *)

From S2P Require Import Prelude Monad Trace SmallStep Threads Checksum CellState CellRing CellSpec Cell CellHistory RollingHash Chunker.
From S2P Require Import ChunkStore ChunkStreamer Cache CacheSpec CacheHistory CacheStore CacheThreads.
From S2P Require Import ChunkerTheorems CellTheorems CacheTheorems StreamerTheorems ThreadTheorems CacheKeeps.

Section client.
Context (mh_sha256 : list byte → checksum).

(** [stream_loop] in a thread: what it does with the chunker and the counts is its own, and
    each call of the cache takes the turns it takes.  The branches that end the thread without
    a word stand for an error of the chunker, for a lack of fuel and for a result that is not
    one of the call; none of them is ever taken ([process_client_comes_to]). *)
Fixpoint stream_client (fuel : nat) (ptr : list byte) (buffer_left : nat) (st : chunk_streamer)
    (k : chunk_streamer → cache_client) : cache_client :=
  match fuel with
  | O => Finished
  | S fuel =>
      match chunker_chunk_buffer mh_sha256 ptr buffer_left (st_chunker st) with
      | (Err _, _) => Finished
      | (Ok (ret_t, ref), ck) =>
          let st := put_chunker ck st in
          if ret_t =? CHUNKER_NOT_FOUND then k st
          else
            let again st := stream_client fuel (drop (Z.to_nat (chunk_ref_buffer_size ref)) ptr)
              (Z.to_nat (u32 (Z.of_nat buffer_left - chunk_ref_buffer_size ref))) st k in
            Call (OnSum (CacheHas (chunk_ref_checksum ref))) (λ r,
              match r with
              | SumResult (HasChunk true) => again (count_hit st).2
              | SumResult (HasChunk false) =>
                  Call (OnSum (CacheAdd (chunk_ref_checksum ref) (default [] (chunk_ref_buffer ref))
                                (chunk_ref_buffer_size ref)))
                    (λ _, again (count_added st).2)
              | _ => Finished
              end)
      end
  end.

(** [chunk_streamer_process_buffer] in a thread, and what it does then. *)
Definition process_client (buffer : list byte) (buffer_size : nat) (st : chunk_streamer)
    (k : chunk_streamer → cache_client) : cache_client :=
  stream_client (stream_fuel buffer_size) buffer buffer_size st k.

(** In a program with one thread the calls are those of [stream_loop]. *)
Lemma stream_client_calls smin smax t k fuel : ∀ ptr left st c st' c',
  stream_loop (H := cache_store smin smax) mh_sha256 fuel ptr left (st, c) = (Ok tt, (st', c')) →
  ∃ log, makes (stream_client fuel ptr left st k) log (k st') ∧
    calls (e_op <$> log) c = (Ok (e_result <$> log), c') ∧ Forall (λ e, e_thread e = t) log.
Proof.
  induction fuel as [|fuel IH]; intros ptr left st c st' c' Hr; [done|]. cbn [stream_loop] in Hr.
  apply bind_inv in Hr as ([ret_t ref] & x1 & Hck & Hr). cbn [stream_client].
  apply zoom_inv in Hck as (st1 & Hck & ->). apply zoom_inv in Hck as (ck & Hck & ->). cbn [fst snd] in *.
  rewrite Hck. destruct (ret_t =? CHUNKER_NOT_FOUND).
  { injection Hr as <- <-. exists []. split_and!; [apply makes_nil|done|done]. }
  apply bind_inv in Hr as (has & x2 & Hhas & Hr). apply zoom_inv in Hhas as (c2 & Hhas & ->). cbn [fst snd] in *.
  destruct has.
  - apply bind_inv in Hr as ([] & x3 & Hx & Hr). injection Hx as <-.
    apply IH in Hr as (log & Hm & Hcalls & Ht).
    eexists (Entry t (OnSum (CacheHas _)) (SumResult (HasChunk true)) :: log). split_and!; [|..|by constructor].
    + by apply makes_cons.
    + rewrite !fmap_cons. cbn [calls e_op e_result thread_call cache_call]. rewrite !bind_assoc.
      mrun by exact Hhas. mnorm. by mrun by exact Hcalls.
  - apply bind_inv in Hr as ([] & x3 & Hx & Hr).
    apply bind_inv in Hx as (b & x4 & Hadd & Hx). apply zoom_inv in Hadd as (c3 & Hadd & ->).
    injection Hx as <-. apply IH in Hr as (log & Hm & Hcalls & Ht).
    eexists (Entry t (OnSum (CacheHas _)) (SumResult (HasChunk false)) ::
      Entry t (OnSum (CacheAdd _ _ _)) (SumResult (AddedNew b)) :: log).
    split_and!; [|..|by do 2 constructor].
    + apply makes_cons. by apply (makes_cons _ _ _ _ _ _).
    + rewrite !fmap_cons. cbn [calls e_op e_result thread_call cache_call]. rewrite !bind_assoc.
      mrun by exact Hhas. mnorm. mrun by exact Hadd. mnorm. by mrun by exact Hcalls.
Qed.
End client.

(** * What comes back is what was asked for *)

Section verify.
Context (smin smax : Z) (table : list Z) (mh_sha256 : list byte → checksum).
Hypothesis table_words : Forall word table.
Hypothesis digest_size : ∀ bytes, checksum_wf (mh_sha256 bytes).
Hypothesis smin_ok : smin ≤ Z.of_nat (S CHUNKER_MIN_CHUNK_SIZE).
Hypothesis smax_ok : Z.of_nat CHUNKER_MAX_CHUNK_SIZE ≤ smax.
Implicit Types (c : cache) (op : thread_op) (cl : cache_client).

(** A chunk that is held under its digest. *)
Definition addressed (s : checksum) (d : list byte) : Prop := s = mh_sha256 d.

(** A cache that holds all its chunks so; a call that adds nothing else, and one that adds
    nothing. *)
Definition addressed_cache c : Prop := cache_keeps smin smax addressed c.
Definition addressed_op c op : Prop := allowed smin smax addressed c op.
Definition lookup_op c op : Prop :=
  thread_args smin smax c op ∧ match op with OnSum (CacheAdd _ _ _) => False | _ => True end.

(** A thread that looks chunks up and streams buffers, in any order; what it does after a
    buffer may depend on what the chunker has kept of it. *)
Inductive streaming c : cache_client → Prop :=
  | streaming_finished : streaming c Finished
  | streaming_lookup op k : lookup_op c op → (∀ r, streaming c (k r)) → streaming c (Call op k)
  | streaming_buffer buffer st k :
      Z.of_nat (length buffer) < 4294967296 → chunker_ok table (st_chunker st) [] →
      (∀ st' rest, chunker_ok table (st_chunker st') rest → streaming c (k st')) →
      streaming c (process_client mh_sha256 buffer (length buffer) st k).

Lemma stream_client_addressed c k fuel : ∀ buffer st,
  Z.of_nat (length buffer) < 4294967296 → chunker_ok table (st_chunker st) [] →
  (∀ st' rest, chunker_ok table (st_chunker st') rest → client_ok (addressed_op c) (k st')) →
  client_ok (addressed_op c) (stream_client mh_sha256 fuel buffer (length buffer) st k).
Proof.
  induction fuel as [|fuel IH]; intros buffer st Hlen Hck Hk; [done|]. cbn [stream_client].
  destruct (chunker_chunk_buffer_spec table table_words mh_sha256 (st_chunker st) buffer Hck Hlen)
    as [(n & ck & -> & Hfc & Hck')|(ck & -> & _ & _ & Hck')]; [|by eapply Hk].
  destruct (first_chunk_bounds _ _ _ Hfc) as [Hb1 Hb2].
  change (CHUNKER_FOUND =? CHUNKER_NOT_FOUND) with false. cbn iota zeta.
  cbn [chunk_ref_checksum chunk_ref_buffer chunk_ref_buffer_size default id].
  rewrite Nat2Z.id, u32_id by lia.
  replace (Z.to_nat (Z.of_nat (length buffer) - Z.of_nat n)) with (length (drop n buffer)) by (rewrite length_drop; lia).
  assert (Hagain : ∀ st, chunker_ok table (st_chunker st) [] →
    client_ok (addressed_op c) (stream_client mh_sha256 fuel (drop n buffer) (length (drop n buffer)) st k)).
  { intros st' Hst'. apply IH; [rewrite length_drop; lia|done|done]. }
  split; [by split; [apply digest_size|]|]. intros [[b|[]|r]|m]; try done; [by apply Hagain|].
  split; [|intros _; by apply Hagain]. split; [split; [apply digest_size|lia..]|]. by rewrite Nat2Z.id.
Qed.

(** The results a call can have. *)
Definition answers op (r : thread_result) : Prop :=
  match op, r with
  | OnSum (CacheAdd _ _ _), SumResult (AddedNew _)
  | OnSum (CacheHas _), SumResult (HasChunk _)
  | OnSum (CacheGet _ _), SumResult (GotChunk _)
  | OnMetrics _ _, MetricsResult _ => True
  | _, _ => False
  end.

Lemma thread_code_answers op x r x' : thread_code op x = (Ok r, x') → answers op r.
Proof.
  destruct op as [[s buffer n|s|s ch]|i m]; cbn [thread_code cell_call];
    intros (a & x1 & Ha & Hr)%bind_inv; injection Hr as <- <-; [| | |done];
    apply bind_inv in Ha as (b & x2 & _ & Hb); by injection Hb as <- <-.
Qed.

(** A thread that goes on with [k] in a streamer that has [P], whatever the calls before
    that give it. *)
Inductive comes_to (P : chunk_streamer → Prop) (k : chunk_streamer → cache_client) : cache_client → Prop :=
  | comes_to_end st : P st → comes_to P k (k st)
  | comes_to_call op (f : thread_result → cache_client) :
      (∀ r, answers op r → comes_to P k (f r)) → comes_to P k (Call op f).

Definition between_buffers (st : chunk_streamer) : Prop := ∃ rest, chunker_ok table (st_chunker st) rest.

Lemma stream_client_comes_to k fuel : ∀ buffer st,
  (length buffer < fuel * CHUNKER_MIN_CHUNK_SIZE)%nat →
  Z.of_nat (length buffer) < 4294967296 → chunker_ok table (st_chunker st) [] →
  comes_to between_buffers k (stream_client mh_sha256 fuel buffer (length buffer) st k).
Proof.
  induction fuel as [|fuel IH]; intros buffer st Hfuel Hlen Hck; [lia|]. cbn [stream_client].
  destruct (chunker_chunk_buffer_spec table table_words mh_sha256 (st_chunker st) buffer Hck Hlen)
    as [(n & ck & -> & Hfc & Hck')|(ck & -> & _ & _ & Hck')]; [|by apply comes_to_end; exists buffer].
  destruct (first_chunk_bounds _ _ _ Hfc) as [Hb1 Hb2].
  change (CHUNKER_FOUND =? CHUNKER_NOT_FOUND) with false. cbn iota zeta.
  cbn [chunk_ref_checksum chunk_ref_buffer chunk_ref_buffer_size default id].
  rewrite Nat2Z.id, u32_id by lia.
  replace (Z.to_nat (Z.of_nat (length buffer) - Z.of_nat n)) with (length (drop n buffer)) by (rewrite length_drop; lia).
  assert (Hagain : ∀ st, chunker_ok table (st_chunker st) [] →
    comes_to between_buffers k (stream_client mh_sha256 fuel (drop n buffer) (length (drop n buffer)) st k)).
  { intros st' Hst'. apply IH; [rewrite length_drop; rewrite Nat.mul_succ_l in Hfuel; lia|rewrite length_drop; lia|done]. }
  apply comes_to_call. intros [[b|[]|r]|m]; try done; intros _; [by apply Hagain|].
  apply comes_to_call. intros r _. by apply Hagain.
Qed.

(** A thread gets through every buffer. *)
Lemma process_client_comes_to buffer st k :
  Z.of_nat (length buffer) < 4294967296 → chunker_ok table (st_chunker st) [] →
  comes_to between_buffers k (process_client mh_sha256 buffer (length buffer) st k).
Proof. intros. apply stream_client_comes_to; [apply stream_fuel_enough|done..]. Qed.

Lemma streaming_addressed c cl : streaming c cl → client_ok (addressed_op c) cl.
Proof.
  induction 1 as [|op k [Hop Hl] _ IH|buffer st k Hlen Hck _ IH]; [done| |by apply stream_client_addressed].
  split; [|done]. split; [done|]. by destruct op as [[]|].
Qed.

End verify.

(** C15: several threads that stream buffers of their own into one cache and look chunks up,
    taking turns at every access, keep the cache content-addressed: at every moment the
    results of the calls that are over are those of one order of them, every chunk that a
    thread has got has the digest it asked for, and the order leaves a consistent cache in
    which every chunk is held under its digest. *)
Theorem streaming_threads_verify smin smax table mh_sha256 c clients g :
  smin ≤ 2049 → 24576 ≤ smax → Forall word table → (∀ bytes, checksum_wf (mh_sha256 bytes)) →
  addressed_cache smin smax mh_sha256 c → (∀ t, streaming smin smax table mh_sha256 c (clients t)) →
  cache_threads c clients g →
  ∃ log xs, linearized c clients g log xs ∧
    (∀ e, e ∈ log → result_keeps (addressed mh_sha256) (e_op e) (e_result e)) ∧
    addressed_cache smin smax mh_sha256 (Cache (cache_hdr c) true xs).
Proof.
  intros Hmin Hmax Htab Hd Hc Hcl Hg. destruct (executes_linear _ _ _ _ _ Hg) as (log & xs & H).
  assert (Hlin : linearized c clients g log xs).
  { destruct Hc as (ls & Hinv & _). apply linear_linearized; [by eapply cache_count_pos|apply Hinv|done]. }
  destruct (linearized_keeps smin smax (addressed mh_sha256) c clients g log xs Hc) as [Hc' Hv]; [|done|].
  { intros t. by apply (streaming_addressed smin smax table mh_sha256 Htab). }
  by exists log, xs.
Qed.

(** Two threads, each streams a buffer and asks for a chunk. *)
Definition stream_and_ask (buffer chunk : list byte) : cache_client :=
  process_client demo_digest buffer (length buffer) demo_streamer
    (λ _, Call (OnSum (CacheGet (demo_digest chunk) chunk_init)) (λ _, Finished)).

Definition demo_stream_clients (t : nat) : cache_client :=
  match t with
  | O => stream_and_ask demo_buffer demo_buffer
  | 1%nat => stream_and_ask behind_buffer behind_chunk
  | _ => Finished
  end.

Lemma stream_and_ask_ok c buffer chunk :
  Z.of_nat (length buffer) < 4294967296 →
  streaming 214 32732 demo_table demo_digest c (stream_and_ask buffer chunk).
Proof.
  intros Hl. apply streaming_buffer; [done|exact demo_chunker_ok|]. intros st' rest _.
  apply streaming_lookup; [by split; [apply demo_digest_size|]|intros; apply streaming_finished].
Qed.

Lemma demo_stream_clients_ok t : streaming 214 32732 demo_table demo_digest demo_cache (demo_stream_clients t).
Proof.
  destruct t as [|[]]; [by apply stream_and_ask_ok; vm_compute..|apply streaming_finished].
Qed.

Lemma streaming_threads_verify_witness :
  let g := play thread_code (thread_place demo_cache) (mjoin (replicate 1000 [0; 1]%nat))
    (start (cells demo_cache) demo_stream_clients) in
  ∃ log xs, linearized demo_cache demo_stream_clients g log xs ∧
    (∀ e, e ∈ log → result_keeps (addressed demo_digest) (e_op e) (e_result e)) ∧
    addressed_cache 214 32732 demo_digest (Cache (cache_hdr demo_cache) true xs).
Proof.
  apply (streaming_threads_verify 214 32732 demo_table); [lia|lia|exact demo_table_words|exact demo_digest_size| |
    exact demo_stream_clients_ok|apply play_executes, executes_start].
  exists demo_rings. split; [exact demo_cache_inv|exact demo_addressed].
Defined.
