(* ===== verification/StreamPower.v ===== *)
(** Threads that stream into one cache when the power fails. *)

From S2P Require Import Prelude Monad Trace Persist SmallStep Threads Checksum CellHeader CellState CellBodySpec CellRing CellSpec Cell CellTyped CellCrash CellPersist CellHistory.
From S2P Require Import RollingHash Chunker ChunkStore ChunkStreamer Cache CacheSpec CacheHistory CacheStore CacheThreads.
From S2P Require Import ChunkerTheorems CellTheorems CacheTheorems StreamerTheorems ThreadTheorems PersistTheorems CacheKeeps StreamThreads.

(** C8: the power may fail while threads stream buffers of their own into one cache: whatever
    has arrived of what each had written since its last barrier, the next process opens a
    consistent cache in which every chunk is held under its digest, so that a lookup returns
    bytes with the digest that was asked for, or nothing. *)
Theorem streaming_power_safe smin smax table mh_sha256 size c clients g :
  smin ≤ 2049 → 24576 ≤ smax → Forall word table → (∀ bytes, checksum_wf (mh_sha256 bytes)) →
  addressed_cache smin smax mh_sha256 c → region_size size c →
  (∀ t, streaming smin smax table mh_sha256 c (clients t)) → cache_threads c clients g →
  ∃ log xs, linearized c clients g log xs ∧
    ∀ zs, length zs = length xs →
      (∀ i x z, xs !! i = Some x → zs !! i = Some z → cell_power_left c g i x z) →
      ∃ c', cache_init size (Cache (cache_hdr c) false zs) = (Ok 0, c') ∧
        addressed_cache smin smax mh_sha256 c' ∧
        ∀ s ch, checksum_wf s → ∃ r, cache_get_chunk s ch c' = (Ok r, c') ∧
          ∀ ch', r = Some ch' → s = mh_sha256 (chunk_data ch').
Proof.
  intros Hmin Hmax Htab Hd Hc Hsize Hcl Hg.
  destruct (executes_linear _ _ _ _ _ Hg) as (log & xs & H).
  assert (Hlin : linearized c clients g log xs).
  { destruct Hc as (ls & Hinv & _). apply linear_linearized; [by eapply cache_count_pos|apply Hinv|done]. }
  exists log, xs. split; [done|]. intros zs Hlen Hzs.
  assert (Hreg : region_keeps smin smax (addressed mh_sha256) size (Cache (cache_hdr c) false zs)).
  { eapply running_keeps; [exact Hc|done| |done..]. intros t.
    by apply (streaming_addressed smin smax table mh_sha256 Htab). }
  destruct (open_keeps _ _ _ _ _ Hreg) as (c' & Hr & Hc' & _). exists c'. split_and!; [done..|].
  intros s ch Hs. destruct (cache_keeps_get _ _ _ _ s ch Hc' Hs) as (r & Hget & Hv).
  exists r. split; [done|]. intros ch' Hch. by apply Hv.
Qed.

Lemma streaming_power_safe_witness :
  let g := play thread_code (thread_place demo_cache) (mjoin (replicate 1000 [0; 1]%nat))
    (start (cells demo_cache) demo_stream_clients) in
  ∃ log xs, linearized demo_cache demo_stream_clients g log xs ∧
    ∀ zs, length zs = length xs →
      (∀ i x z, xs !! i = Some x → zs !! i = Some z → cell_power_left demo_cache g i x z) →
      ∃ c', cache_init (3 * CACHE_CELL_SIZE) (Cache (cache_hdr demo_cache) false zs) = (Ok 0, c') ∧
        addressed_cache 214 32732 demo_digest c' ∧
        ∀ s ch, checksum_wf s → ∃ r, cache_get_chunk s ch c' = (Ok r, c') ∧
          ∀ ch', r = Some ch' → s = demo_digest (chunk_data ch').
Proof.
  apply (streaming_power_safe 214 32732 demo_table); [lia|lia|exact demo_table_words|exact demo_digest_size| |
    by vm_compute|exact demo_stream_clients_ok|apply play_executes, executes_start].
  exists demo_rings. split; [exact demo_cache_inv|exact demo_addressed].
Defined.
