(* ===== verification/DirTheorems.v ===== *)
(** The directory of a cell as a finite map, and the memory layout of its entries and of
    the entries of the body. *)

From S2P Require Import Prelude Monad Slab Checksum CellDirEntry CellDirBlock CellDirOverflow CellDir.
From S2P Require Import CellBodyEntry.

(** * Calls of the directory *)

Inductive dir_op :=
  | DirAdd (c : checksum) (offset : Z)
  | DirRemove (c : checksum)
  | DirGet (c : checksum).

Inductive dir_result :=
  | Added
  | Removed (b : bool)
  | Found (offset : option Z).

(** One call, as the body and the cell make them. *)
Definition dir_call (top : Z) (op : dir_op) : M dirst dir_result :=
  match op with
  | DirAdd c o => cell_dir_add top (cell_dir_entry_set cell_dir_entry_init c o);; mret Added
  | DirRemove c => b ← cell_dir_remove top c; mret (Removed b)
  | DirGet c => e ← cell_dir_get_chunk top c; mret (Found (de_offset <$> e))
  end.

Fixpoint dir_calls (top : Z) (ops : list dir_op) : M dirst (list dir_result) :=
  match ops with
  | [] => mret []
  | op :: ops => r ← dir_call top op; rs ← dir_calls top ops; mret (r :: rs)
  end.

(** The specification: the same calls on a finite map from checksums to offsets. *)
Definition map_call (op : dir_op) (d : gmap checksum Z) : dir_result * gmap checksum Z :=
  match op with
  | DirAdd c o => (Added, <[c := o]> d)
  | DirRemove c => (Removed (bool_decide (is_Some (d !! c))), delete c d)
  | DirGet c => (Found (d !! c), d)
  end.

(** The body adds only checksums that the directory does not have, and no more than [cap]
    are there at a time. *)
Definition call_allowed (cap : Z) (op : dir_op) (d : gmap checksum Z) : Prop :=
  match op with
  | DirAdd c o => checksum_wf c ∧ 0 ≤ o < 2147483648 ∧ d !! c = None ∧ Z.of_nat (size d) < cap
  | DirRemove c | DirGet c => checksum_wf c
  end.

Fixpoint map_calls (ops : list dir_op) (d : gmap checksum Z) : list dir_result * gmap checksum Z :=
  match ops with
  | [] => ([], d)
  | op :: ops =>
      let '(r, d) := map_call op d in
      let '(rs, d) := map_calls ops d in (r :: rs, d)
  end.

Fixpoint calls_allowed (cap : Z) (ops : list dir_op) (d : gmap checksum Z) : Prop :=
  match ops with
  | [] => True
  | op :: ops => call_allowed cap op d ∧ calls_allowed cap ops (map_call op d).2
  end.

Section calls.
Context (top cap : Z).
Hypotheses (Hcap : cap ≤ 4095) (Hroom : cap * 36 ≤ top).

Lemma dir_call_spec op st d :
  dir_rep top st d → call_allowed cap op d →
  ∃ st', dir_call top op st = (Ok (map_call op d).1, st') ∧ dir_rep top st' (map_call op d).2.
Proof.
  intros H Ha. pose proof (dir_rep_count _ _ _ H). pose proof (dir_rep_size _ _ _ H).
  destruct op as [c o|c|c]; simpl in Ha.
  - destruct Ha as (Hc & Ho & Hd & Hsz).
    destruct (cell_dir_add_spec top st d (cell_dir_entry_set cell_dir_entry_init c o))
      as (st' & Hrun & H' & _); [done| |done|done|lia|lia|].
    { split_and!; simpl; [done|rewrite Z.mod_small; lia..|lia|lia]. }
    exists st'. unfold dir_call. rewrite (bind_ok _ _ _ _ _ Hrun). split; [done|].
    simpl in *. by rewrite Z.mod_small in H'.
  - destruct (cell_dir_remove_spec top st d c H Ha) as [(Hs & st' & Hrun & H' & _)|[Hn Hrun]];
      unfold dir_call; rewrite (bind_ok _ _ _ _ _ Hrun); simpl.
    + exists st'. by rewrite bool_decide_true.
    + exists st. rewrite Hn, bool_decide_false by (by intros [? ?]). split; [done|]. by rewrite delete_id.
  - destruct (cell_dir_get_chunk_spec top st d c H Ha) as (r & Hrun & Hr).
    exists st. unfold dir_call. rewrite (bind_ok _ _ _ _ _ Hrun). split; [|done].
    destruct r as [e|]; simpl; [by destruct Hr as [_ ->]|by rewrite Hr].
Qed.

Lemma dir_calls_spec ops : ∀ st d,
  dir_rep top st d → calls_allowed cap ops d →
  ∃ st', dir_calls top ops st = (Ok (map_calls ops d).1, st') ∧ dir_rep top st' (map_calls ops d).2.
Proof.
  induction ops as [|op ops IH]; intros st d H Ha; [by exists st|].
  destruct Ha as [Ha Has].
  destruct (dir_call_spec op st d H Ha) as (st1 & Hrun & H1).
  destruct (IH st1 _ H1 Has) as (st' & Hr & H').
  exists st'. cbn [dir_calls map_calls]. rewrite (bind_ok _ _ _ _ _ Hrun), (bind_ok _ _ _ _ _ Hr).
  destruct (map_call op d) as [r d1]. cbn [fst snd] in *. by destruct (map_calls ops d1).
Qed.
End calls.

(** C23: the directory, three slots per block and an overflow area in the memory, answers
    any sequence of additions, removals and lookups, of any length, as a finite map does,
    if a checksum is added only when it is absent and while fewer than [cap] others are
    there; [cap] is 4095 at most, the overflows a block can count, and the overflow area has
    room for as many entries. *)
Theorem cell_dir_implements_map top cap ops s :
  cap ≤ 4095 → cap * 36 ≤ top → 0 ≤ top ≤ s_lim s → calls_allowed cap ops ∅ →
  (dir_calls top ops (cell_dir_init, s)).1 = Ok (map_calls ops ∅).1.
Proof.
  intros Hcap Hroom Hlim Ha.
  destruct (dir_calls_spec top cap Hcap Hroom ops (cell_dir_init, s) ∅) as (st' & Hrun & _);
    [apply cell_dir_init_rep; lia|done|by rewrite Hrun].
Qed.

(** Five checksums of one block: two of them go to the overflow area. *)
Definition demo_key (i : Z) : checksum := byte.of_Z i :: replicate 31 Byte.x07.
Definition demo_ops : list dir_op :=
  [DirAdd (demo_key 1) 0; DirAdd (demo_key 2) 100; DirAdd (demo_key 3) 200;
   DirAdd (demo_key 4) 300; DirAdd (demo_key 5) 400; DirGet (demo_key 5);
   DirRemove (demo_key 4); DirRemove (demo_key 4); DirGet (demo_key 5); DirRemove (demo_key 1);
   DirAdd (demo_key 4) 500; DirGet (demo_key 4); DirGet (demo_key 1)].

Lemma cell_dir_implements_map_witness :
  (dir_calls 1000 demo_ops (cell_dir_init, Slab ∅ 1000)).1 = Ok (map_calls demo_ops ∅).1.
Proof.
  apply (cell_dir_implements_map 1000 5); [lia|lia|simpl; lia|vm_compute; intuition congruence].
Defined.

(** * Memory layouts *)

(** A directory entry written to the overflow area reads back as it was, bit fields
    included. *)
Theorem dir_entry_roundtrip s a e :
  cell_dir_entry_wf e → 0 ≤ a → a + 36 ≤ s_lim s →
  ∃ s', store_bytes a (de_bytes e) s = (Ok tt, s') ∧ load_entry a s' = (Ok e, s').
Proof.
  intros He Ha Hlim. pose proof (length_de_bytes e ltac:(apply He)) as Hl.
  exists (wr s a (de_bytes e)). split; [apply store_bytes_ok; lia|].
  rewrite load_entry_ok by (rewrite ?lim_wr; lia). by rewrite de_at_store.
Qed.

Lemma dir_entry_roundtrip_witness :
  ∃ s', store_bytes 64 (de_bytes (DirEntry (demo_key 9) 2147483647 1)) (Slab ∅ 100) = (Ok tt, s')
    ∧ load_entry 64 s' = (Ok (DirEntry (demo_key 9) 2147483647 1), s').
Proof. apply dir_entry_roundtrip; vm_compute; intuition congruence. Defined.

(** The fields of a body entry are independent of each other: a write changes its
    own field, cut to its width, and nothing else, inside or outside of the entry. *)
Theorem body_entry_fields s a v b :
  0 ≤ a → a + 36 ≤ s_lim s → b + 36 ≤ a ∨ a + 36 ≤ b →
  let e := be_at s a in
  ∃ s1 s2 s3 s4,
    set_free_space a v s = (Ok tt, s1) ∧ set_top_entry a v s = (Ok tt, s2) ∧
    set_size a v s = (Ok tt, s3) ∧ set_previous_size a v s = (Ok tt, s4) ∧
    be_at s1 a = BodyEntry (be_checksum e) (v `mod` 2) (be_top_entry e) (be_size e) (be_previous_size e) ∧
    be_at s2 a = BodyEntry (be_checksum e) (be_free_space e) (v `mod` 2) (be_size e) (be_previous_size e) ∧
    be_at s3 a = BodyEntry (be_checksum e) (be_free_space e) (be_top_entry e) (v `mod` 32768) (be_previous_size e) ∧
    be_at s4 a = BodyEntry (be_checksum e) (be_free_space e) (be_top_entry e) (be_size e) (v `mod` 32768) ∧
    Forall (λ s', be_at s' b = be_at s b) [s1; s2; s3; s4].
Proof.
  intros Ha Hlim Hb e.
  assert (Hout : ∀ pos len, be_at (put_field pos len a v s) b = be_at s b).
  { intros. apply (be_at_agree s _ b (b + 36)); [|lia..].
    eapply modifies_agree; [apply (modifies_put_field _ _ _ _ _ a (a + 36)); lia|lia]. }
  exists (put_field 0 1 a v s), (put_field 1 1 a v s), (put_field 2 15 a v s), (put_field 17 15 a v s).
  split_and!; try (by apply set_field_ok); [| | | |by repeat constructor].
  - apply be_at_put_free_space.
  - apply be_at_put_top_entry.
  - apply be_at_put_size.
  - apply be_at_put_previous_size.
Qed.

Lemma body_entry_fields_witness :
  let s := Slab ∅ 100 in let e := be_at s 36 in
  ∃ s1 s2 s3 s4,
    set_free_space 36 65537 s = (Ok tt, s1) ∧ set_top_entry 36 65537 s = (Ok tt, s2) ∧
    set_size 36 65537 s = (Ok tt, s3) ∧ set_previous_size 36 65537 s = (Ok tt, s4) ∧
    be_at s1 36 = BodyEntry (be_checksum e) (65537 `mod` 2) (be_top_entry e) (be_size e) (be_previous_size e) ∧
    be_at s2 36 = BodyEntry (be_checksum e) (be_free_space e) (65537 `mod` 2) (be_size e) (be_previous_size e) ∧
    be_at s3 36 = BodyEntry (be_checksum e) (be_free_space e) (be_top_entry e) (65537 `mod` 32768) (be_previous_size e) ∧
    be_at s4 36 = BodyEntry (be_checksum e) (be_free_space e) (be_top_entry e) (be_size e) (65537 `mod` 32768) ∧
    Forall (λ s', be_at s' 0 = be_at s 0) [s1; s2; s3; s4].
Proof. apply body_entry_fields; [lia|vm_compute; congruence|lia]. Defined.

(** * The counter of the overflows of a block *)

(** A block that counts no overflow is not looked for in the overflow area. *)
Lemma cell_dir_get_unflagged top st c b :
  blocks st.1 !! block_no c = Some b → block_overflow_count b = 0 → cell_dir_block_find b c = None →
  cell_dir_get_chunk top c st = (Ok None, st).
Proof.
  intros Hb Hov Hfind. unfold cell_dir_get_chunk. mrun by (by apply at_block_gets).
  unfold cell_dir_block_get_chunk. rewrite Hfind. mrun by (by apply at_block_gets).
  unfold cell_dir_block_overflowed. by rewrite Hov.
Qed.

(** C40: the 12 bits in which a block counts its entries in the overflow area wrap: the
    4096th entry that a full block sends there sets the count to 0, and neither it nor any
    of the 4095 before it is found again. *)
Theorem cell_dir_overflow_wraps top st e c b :
  blocks st.1 !! block_no (de_checksum e) = Some b → Forall (λ x, de_set x ≠ 0) (entries b) →
  block_overflow_count b = 4095 → 0 ≤ ov_count st < 65535 → (ov_count st + 1) * 36 ≤ top ≤ s_lim st.2 →
  checksum_wf (de_checksum e) → block_no c = block_no (de_checksum e) → cell_dir_block_find b c = None →
  ∃ st', cell_dir_add top e st = (Ok tt, st') ∧ cell_dir_get_chunk top c st' = (Ok None, st').
Proof.
  set (k := block_no (de_checksum e)). intros Hb Hfull Hov Hcount Htop Hwf Hc Hfind.
  assert (Hadd : at_block k (cell_dir_block_add e) st = (Ok false, st)).
  { eapply at_block_read; [done|]. unfold cell_dir_block_add. rewrite bind_get.
    assert (list_find (λ x, de_set x = 0) (entries b) = None) as -> by by apply list_find_None. done. }
  unfold cell_dir_add. fold k. rewrite (bind_ok _ _ _ _ _ Hadd). cbn [negb]. cbn iota.
  set (n := ov_count st + 1) in *. pose proof (length_de_bytes e Hwf) as Hlen.
  assert (Hov1 : at_overflow (cell_dir_overflow_add top e) st =
    (Ok n, put_overflow (DirOverflow n, wr st.2 (top - n * 36) (de_bytes e)) st)).
  { unfold at_overflow. apply zoom_ok. unfold cell_dir_overflow_add, get_count, set_count. mnorm.
    change (overflow_count (ovst_of st).1) with (ov_count st). cbn [fst snd overflow_count].
    rewrite u16_id by lia. change sizeof_cell_dir_entry with 36.
    mrun by (apply in_mem_ok; apply store_bytes_ok; cbn [ovst_of snd]; lia). done. }
  rewrite (bind_ok _ _ _ _ _ Hov1). set (st1 := put_overflow _ st).
  set (b' := DirBlock (entries b) (block_entry_count b) 0).
  assert (Hinc : at_block k cell_dir_block_increment_overflow st1 = (Ok 0, put_block k b' st1)).
  { apply (at_block_ok _ _ _ b); [done|]. unfold cell_dir_block_increment_overflow. mnorm. by rewrite Hov. }
  rewrite (bind_ok _ _ _ _ _ Hinc). eexists. split; [done|].
  apply (cell_dir_get_unflagged _ _ _ b'); [|done|done]. rewrite Hc.
  apply list_lookup_insert_eq. by eapply lookup_lt_Some.
Qed.

(** Blocks with three entries each, of other checksums, and 4095 entries elsewhere. *)
Definition full_block : cell_dir_block :=
  DirBlock (replicate 3 (DirEntry (demo_key 1) 0 1)) 3 4095.
Definition full_dir : dirst :=
  (CellDir (replicate 256 full_block) (DirOverflow 4095), Slab ∅ 150000).

Lemma cell_dir_overflow_wraps_witness :
  ∃ st', cell_dir_add 147456 (DirEntry (demo_key 2) 64 1) full_dir = (Ok tt, st')
    ∧ cell_dir_get_chunk 147456 (demo_key 2) st' = (Ok None, st').
Proof.
  apply (cell_dir_overflow_wraps 147456 full_dir (DirEntry (demo_key 2) 64 1) (demo_key 2) full_block).
  - reflexivity.
  - repeat constructor; discriminate.
  - reflexivity.
  - vm_compute. split; congruence.
  - vm_compute. split; congruence.
  - reflexivity.
  - reflexivity.
  - reflexivity.
Defined.
